(* ===== verification/_CoqProject ===== *)
-Q . S2P
Prelude.v
CoreTypes.v
Message.v
Text.v
Config.v
ElectionTimer.v
RaftNode.v
NodeFacts.v
NodeInvariant.v
Concrete.v
NodeSafety.v
Commit.v
Elections.v
Cluster.v
Timing.v
Replication.v
Boot.v
Wire.v
LogStore.v
MemoryLog.v
Bytes.v
WalCodec.v
BTree.v
EpochFile.v
DirIo.v
FileLog.v
FileLogWp.v
FileLogLayout.v
FileLogState.v
FileLogOps.v
FileLogTrunc.v
FileLogPurge.v
FileLogOpen.v
FileLogSafety.v
SnapshotNames.v
SnapshotCodec.v
SnapshotStore.v
MemorySnapshots.v
SnapshotChunks.v
SnapshotFile.v
SnapshotState.v
SnapshotSave.v
SnapshotDelete.v
SnapshotOpen.v
SnapshotSafety.v
Fs.v
HardStore.v
SnapshotTransfer.v
ServeFetch.v
StateMachine.v
Driver.v
ReadFrame.v
DriverFacts.v
DriverRuns.v
DriverLog.v
DriverSafety.v
DriverDurable.v
DriverTermination.v
SnapshotPipeline.v
Compaction.v
Server.v
Restart.v
Shutdown.v
GrpcClient.v
GrpcFacts.v
PeerPool.v
DriverWaiters.v
NodeConfig.v
Status.v
Reload.v
Json.v
Admin.v
AdminFacts.v
Observed.v
NodeState.v
LegacyState.v
