(* ===== verification/Prelude.v ===== *)
(** * XRAFT: a verification development for the failover-cluster repository

    XRAFT is a Raft library in the style of KRaft: followers pull the log by
    [Fetch] requests, elections are guarded by a pre-vote, and snapshots are
    pulled in chunks.  The consensus engine ([xraft-core]) is a synchronous
    state machine without I/O: [RaftNode::step] takes one [Input] and returns
    the [Action]s a driver ([xraft-server]) executes in order against the
    storage ([xraft-storage]) and the transport ([xraft-transport]).  The
    development models the engine completely, its messages and their wire
    form, its configuration, the durable stores of logs, hard state and
    snapshots, and the driver that composes them: its event loop, its snapshot
    pipeline, and the start of a server on stores left by an earlier run.

    ** The files and the code they model

    - [Prelude.v]: the generic part: saturating [u64] arithmetic, Rust's
      [Result] with the [let?] notation for [?], record update, sorting in
      descending order.
    - [CoreTypes.v] ([xraft-core/src/types.rs], [error.rs], [storage.rs]): the
      scalar newtypes, [XRaftError], [SnapshotMeta], and the interfaces
      described under "Parameters" below.
    - [Message.v] ([message.rs]): entries, RPC structs, [Input], [Action].
      [Wire.v]: the [From]/[TryFrom] conversions to the structs generated
      from [proto/raft.proto].
    - [Text.v], [Config.v] ([config.rs]): [ClusterConfig], its defaults, the
      environment overrides, [validate] in source order, and derived values.
    - [ElectionTimer.v], [RaftNode.v] ([node.rs]): the timer and the engine.
      [RaftNode] is the record of the same name, field by field; a method on
      [&mut self] is a function from a node to a node and a list of actions,
      with the guards and early returns of the source.  [step] dispatches as
      [RaftNode::step] does; [new_inner] is the constructor.
    - [NodeFacts.v], [NodeInvariant.v]: shape lemmas per operation, the
      invariant [node_wf] of reachable engine states and the order [evolves].
    - [NodeSafety.v], [Commit.v], [Elections.v], [Timing.v],
      [Replication.v], [Boot.v]: the properties of one engine.
    - [Cluster.v]: several engines, an adversarial network and crashes, as a
      step relation.
    - [LogStore.v] ([storage.rs], [log.rs]): the [LogStore] trait as a class
      of operations with a class of laws over an abstract log, and the
      leader-epoch lookup; [MemoryLog.v]: [MemoryLogStore] as an instance.
    - [Bytes.v], [WalCodec.v] ([log.rs]): little-endian integers, the frame
      codec of the write-ahead log and the replay loop of one segment.
    - [DirIo.v]: the monad of the file-backed stores of logs and snapshots, a
      store with a directory its calls change, any of which can fail; its
      program logic, with a postcondition for success and one for the
      directory a fault leaves.
    - [BTree.v], [EpochFile.v], [FileLog.v] ([log.rs]): ordered iteration over
      a map, the leader-epoch checkpoint file, and [FileLogStore] over its
      directory of segment and marker files; segment files are keyed by their
      base index.  [FileLogWp.v] has the rules of its calls;
      [FileLogLayout.v] and [FileLogState.v] say what files, entry cache and offset table mean;
      [FileLogOps.v], [FileLogTrunc.v], [FileLogPurge.v] and [FileLogOpen.v]
      prove the methods, [FileLogSafety.v] the guarantees.
    - [SnapshotNames.v], [SnapshotCodec.v] ([snapshot_store.rs]): names of
      snapshot files and their parser; the file format, its encoder, decoder,
      index scan and streaming header reader.  [SnapshotStore.v]
      ([storage.rs]): the [SnapshotStore] trait as a class of operations, its
      default chunk reader and, over a list of snapshots, a class of what the
      trait documents and the stores keep ([SnapshotStoreContract]) and one
      that adds where both depart from the documentation
      ([SnapshotStoreLaws]);
      [MemorySnapshots.v]: [MemorySnapshotStore]; [SnapshotChunks.v]: the
      windows of chunks and [SnapshotChunkReader].
    - [SnapshotFile.v] ([snapshot_store.rs]): [FileSnapshotStore] over its
      directory of named files.  [SnapshotState.v] says what a directory
      holds, [SnapshotSave.v], [SnapshotDelete.v] and [SnapshotOpen.v] prove
      the methods with and without faults, [SnapshotSafety.v] the guarantees.
    - [Fs.v], [HardStore.v] ([hard_state.rs]): a directory with failing calls
      and power losses, and both [HardStateStore]s.
    - [StateMachine.v] ([xraft-core/src/state_machine.rs]): the trait of the
      application with its contract, the default snapshot capture, the state
      machine that does nothing, and [replay] of a log.
    - [SnapshotTransfer.v] ([xraft-server/src/driver.rs]): a leader's answer to
      [FetchSnapshot], the follower's router that drains and checks the
      stream, and [handle_outbound_result].  [ServeFetch.v]: the leader's
      answer to [Fetch] from its log and snapshot anchor.
    - [Driver.v] ([driver.rs]): the loop.  [Driver] is the part of the struct
      the loop reads or changes plus what it has sent; each arm of
      [process_actions] is a definition, [process] is the worklist, one
      [handle_*] per handler, [loop_turn] a turn of [run].  [ReadFrame.v] says
      which inputs move the marks of the read path, [DriverFacts.v] what
      executing actions may change, [DriverTermination.v] that it ends;
      [DriverSafety.v] and [DriverDurable.v] have the guarantees to clients
      and about the vote, [DriverRuns.v] runs several drivers by script,
      [DriverLog.v] follows the end of the log through engine, driver and
      store.
    - [SnapshotPipeline.v] ([driver.rs]): taking snapshots in the background
      (dispatch, worker, completion, the operator's trigger) and installing
      them; a [Pipeline] is a driver with its snapshot store, the worker flag,
      the workers and their completions.  [Compaction.v]: its guarantees.
    - [Server.v] ([server.rs], [driver.rs]): [start_with_state_machine] from
      the open stores, and the recovery drain of [run].  [Restart.v]: what a
      restart restores.  [Shutdown.v]: the end of [run], the graceful drain
      ([graceful_drain], [shutdown_sequence]) and the fail-stop
      ([fail_stop_shutdown]).
    - [GrpcClient.v] ([xraft-transport/src/{grpc,grpc_client,grpc_server}.rs]):
      the outbound RPC client, with its channels and its retry loop over a
      parameter for [tonic], and the adapter in front of the message handler.
      [GrpcFacts.v]: its guarantees.  [PeerPool.v]
      ([xraft-client/src/{pool,peer}.rs]): the connection pool, the leader
      hints of its peer clients and [fetch_via_leader].
    - [DriverWaiters.v]: who may be waiting between two turns of the loop.
    - [NodeConfig.v] ([config.rs], [server.rs]): loading a configuration file,
      the membership rules of [NodeConfig], and [ServerConfig].
    - [Status.v] ([xraft-server/src/{status,metrics}.rs], [driver.rs]):
      [NodeStatus] and its publisher, the metrics, and how the driver feeds
      them.  [Reload.v] ([main.rs]): the command line, and the reload of the
      configuration on [SIGHUP].
    - [Json.v]: documents and [serde]'s derived decoding of structs.
      [Admin.v] ([xraft-server/src/admin.rs], [xraft-client/src/admin.rs]): the
      handlers of the admin endpoint and the client with its retry loop.
      [AdminFacts.v]: their guarantees.
    - [Observed.v] ([driver.rs]): the calls of the observer inside the arms of
      [process_actions] and [handle_inbound_fetch], and the loop with it.
    - [NodeState.v] ([xraft-core/src/node_state.rs]), [LegacyState.v]
      ([xraft-storage/src/state.rs]): the older in-memory node state and the
      older hard-state store.
    - [Concrete.v]: an instance of every interface and sample nodes, for the
      witnesses.

    ** What the theorems show

    - Elections: at most one leader per term in any reachable cluster state
      ([Cluster.election_safety], [Cluster.at_most_one_leader]), from one vote
      per term, votes granted exactly by the Raft rule, persistence before any
      promise, and leadership only with a quorum ([NodeSafety.v],
      [Elections.v]).  Crashes lose what was not persisted; the network may
      lose, duplicate, delay and forge everything but granted votes.
    - Replication and commit: a leader's commit index goes to the greatest
      index a quorum of voter records acknowledged, a majority of the voters
      if their ids are distinct, never below the leader's no-op ([Commit.v]);
      followers append only what continues their log and acknowledgements are
      clamped ([Replication.v]); after every turn of the driver its log ends
      where the engine believes, after truncations too ([DriverLog.v]).
    - Timing: when elections start, why a live leader is not disturbed,
      Check-Quorum and the leader lease ([Timing.v]).
    - Construction, wire round trips and validation ([Boot.v], [Wire.v]); a
      file that loads is one the node can run on ([NodeConfig.v]).
    - Storage: the codec and replay of the write-ahead log under torn tails
      ([WalCodec.v]), refinement of the log-store and snapshot-store contracts
      by both implementations of each ([MemoryLog.v], [FileLogSafety.v],
      [MemorySnapshots.v], [SnapshotSafety.v]), crash consistency of the
      write-ahead log and of the snapshot directory (an operation broken off
      at any call leaves the state before it or after it, and any number of
      opens, broken off or not, leave that as it is), and durability of
      votes under faults and power losses ([HardStore.v]).  For the stores of
      logs and snapshots a fault is one failing call, half-done, after which
      the code's own error handling runs on; what a finished call wrote is
      kept (power losses are modelled in [HardStore.v] only), and reads and
      metadata calls do not fail.  The snapshot stores depart from the
      documentation of their trait at an offset past the payload and at ids
      that are not canonical; the laws say so.  Frames larger than a segment
      are outside the log store's contract, though [append] takes them.
    - Snapshot transfer: file format round trips, torn files refused, chunk
      windows, and the streaming reader against the trait's default one
      ([SnapshotCodec.v], [SnapshotChunks.v]); a snapshot served, drained and
      checked arrives exactly, and only from the current leader
      ([SnapshotTransfer.v]).
    - The driver: every request is answered at most once and none is lost, a
      deferred read waits for a quorum ([DriverSafety.v]), and only a leader
      keeps anybody waiting ([DriverWaiters.v]); the disk holds the
      term and vote of the engine, and a grant is on disk before it is sent
      ([DriverDurable.v]); actions have one outcome, reached within the fuel
      ([DriverTermination.v]); what a leader serves extends the log that asked,
      if both obey log matching and the leader still has the position
      ([ServeFetch.v]).
    - Snapshots and restarts: one worker at a time, a snapshot stands for the
      log up to its index, installation is ordered against crashes
      ([Compaction.v]); a crash takes back no vote, recovery is the replay of
      the committed log, and membership is what all sources agree on
      ([Restart.v]).
    - Shutdown: however the loop ends, every request has exactly one answer,
      and a restart after a clean exit resumes where it stopped, unless the
      snapshot covered more than the log store held
      ([Shutdown.v]).
    - Transport: an RPC keeps to its retry budget and backoff schedule, and
      the answer is the handler's ([GrpcFacts.v]); leader hints are fenced by
      their epochs, and a fetch is redirected at most once ([PeerPool.v]).
    - Operation: the published status is the engine and the metrics agree
      with it ([Status.v]); a reload never stops the timer or changes what runs
      ([Reload.v]); operators read the status that was published and hear the
      driver's own answer to their command ([AdminFacts.v]); the observer does
      not disturb the driver, and only a leader shows lags ([Observed.v]).
    - The older parts: the high watermark under two quorums, bounded reads and
      the end of an epoch ([NodeState.v]); a state file that is never torn,
      but is not durable ([LegacyState.v]).
    - Behaviour the code does not mean to have, each shown by a theorem: two
      logs committed at one index after a divergence the leader cannot place,
      a confirmed read of the past ([DriverRuns.v]), a follower that asks for
      ever ([ServeFetch.v]), a node that forgets the end of a compacted log
      when it restarts ([Restart.v]), an operator's snapshot that stops the
      leader ([Compaction.v]), a node id the reload forgets ([Reload.v]), a deleted
      snapshot that returns
      ([SnapshotSafety.v]), a commit without a majority ([Commit.v]).

    ** Widths, bounds and fuel

    Every scalar is a Rust [u64], an [N] here with the saturating operations
    of the source; theorems that need it assume values below [u64_max].
    Six definitions are fuelled: the segment replay loop, whose iterations
    consume at least eight bytes each ([WalCodec.recover_segment_total]); the
    loop that hashes a snapshot's payload, which reads at least one byte
    ([SnapshotCodec.crc_loop_spec]); the draining of a chunk reader, which
    yields one item per chunk left ([SnapshotChunks.streaming_reader_is_default]);
    the driver's worklist, with a unit per action and four more, because a
    nested list has two actions at most and does not nest
    ([DriverTermination.actions_terminate]);
    and the retry loops of an RPC and of the admin client, a unit per attempt
    ([GrpcFacts.send_affordable], [AdminFacts.retry_loop_spec]).

    ** Parameters

    The modules that define [VoterSet], [VoteGrantedSet] and [Uuid] are not in
    the repository; they enter as [MembershipApi] with the documented laws
    [MembershipLaws].  [rand] is [RngApi] (a draw stays in its range),
    iteration over a [HashMap] is [HashIter] (some order of the contents),
    [bincode], [serde_json] and [crc32fast] are [Bincode], [JsonApi] and
    [Crc32] (decoding inverts encoding; a checksum fits 32 bits), the
    incremental [crc32fast::Hasher] is [Crc32Hasher] (hashing in pieces is
    hashing the whole), and the order [read_dir] lists a directory in is
    [ReadDir].
    The application is [StateMachine] (restoring a snapshot is the state it
    was taken of, a captured view serialises to the captured state), and the
    method [fail_waiters_in_range], which the driver calls and no file
    defines, is an argument of the driver's definitions (it only resolves
    waiters).
    [reqwest] and the network it uses are [Http], the text of JSON is
    [JsonText] (a plain document that is written reads back).
    The TOML parser, the file read and the environment are arguments of the
    definitions that load a configuration, without assumptions.
    [tonic], with the network and the clock behind it, is [Tonic] (a fraction of
    a duration is at most the duration, an internal error is no transport
    failure).
    [Concrete.v] and the witness sections instantiate all of them.

    ** What is not modelled

    Logging, the rendering of metrics, the runtime and signal handlers;
    channels, tasks and listeners; TLS below its configuration.  [driver.rs] is
    a broken merge: [process_actions] has arms for applying, taking and
    installing snapshots twice, with types that do not
    agree, the head of the arm for prefix truncation is lost, and
    [handle_take_snapshot] is cut short.  The first intact arm is modelled; a
    run that reaches a damaged one has no result in the model, and the
    snapshot handlers, which are whole, are modelled apart from the loop in
    [SnapshotPipeline.v].
    [xraft-core/src/node_state.rs] is a broken merge too: the head of
    [propose_membership_change] is lost, and the types of its voters and log
    entries, from modules that are not in the repository, are [VoterApi].
    [xraft-storage/src/state.rs] and [snapshot.rs] are not part of their crate;
    the second is a copy of [snapshot_store.rs] and has no model of its own.
    [start_with_state_machine] takes the opened stores: [open_storage] is
    left out.  The directories of the stores exist before they are opened and
    reads do not fail.  The transport client has one caller at a time.  The observer's
    calls in the snapshot arms and the commit latency are left out.  What is
    left of the source beyond this is I/O, logging and tests. *)

From stdpp Require Export base tactics numbers list gmap sets strings sorting pretty.
From Stdlib Require Export Lia.

#[export] Set Default Proof Using "Type".

(** ** Machine integers

    Every scalar of the engine ([Term], [LogIndex], [NodeId], ticks) is a Rust
    [u64].  A value is an [N]; the width shows in the saturating operations
    and in the bound [u64 x]. *)

Declare Scope xraft_scope.
Delimit Scope xraft_scope with xraft.
Global Open Scope N_scope.
Global Open Scope xraft_scope.

Definition u64_max : N := 18446744073709551615.
Definition u64 (x : N) : Prop := x ≤ u64_max.

(** [u64::saturating_add], [saturating_mul] and [div_ceil];
    [saturating_sub] is [N]'s truncated subtraction. *)
Definition sat_add (a b : N) : N := N.min (a + b) u64_max.
Definition sat_mul (a b : N) : N := N.min (a * b) u64_max.
Definition div_ceil (a b : N) : N :=
  if decide (a mod b = 0) then a / b else a / b + 1.

Lemma sat_add_le a b : u64 a → a ≤ sat_add a b.
Proof. unfold u64, sat_add. lia. Qed.
Lemma sat_add_u64 a b : u64 (sat_add a b).
Proof. unfold u64, sat_add. lia. Qed.
Lemma sat_add_exact a b : a + b ≤ u64_max → sat_add a b = a + b.
Proof. unfold sat_add. lia. Qed.
Lemma sat_add_lt a : a < u64_max → sat_add a 1 = a + 1.
Proof. unfold sat_add. lia. Qed.
Lemma div_ceil_mul a b : 0 < b → a ≤ div_ceil a b * b.
Proof.
  intros Hb. unfold div_ceil.
  pose proof (N.div_mod' a b) as Hdm.
  pose proof (N.mod_lt a b ltac:(lia)) as Hlt.
  revert Hdm Hlt. generalize (a / b) (a mod b). intros q r Hdm Hlt.
  case_decide; nia.
Qed.
Lemma div_ceil_tight a b : 0 < b → 0 < a → (div_ceil a b - 1) * b < a.
Proof.
  intros Hb Ha. unfold div_ceil.
  pose proof (N.div_mod' a b) as Hdm.
  pose proof (N.mod_lt a b ltac:(lia)) as Hlt.
  revert Hdm Hlt. generalize (a / b) (a mod b). intros q r Hdm Hlt.
  case_decide; [|rewrite N.add_sub; nia].
  subst r. destruct (decide (q = 0)); [nia|].
  assert (∃ k, q = k + 1) as [k ->] by (exists (q - 1); lia).
  rewrite N.add_sub. nia.
Qed.

(** ** Fallible code *)

Inductive result (E A : Type) : Type :=
| Ok (a : A)
| Err (e : E).
Arguments Ok {E A} a.
Arguments Err {E A} e.

Definition rbind {E A B} (f : A → result E B) (r : result E A) : result E B :=
  match r with Ok a => f a | Err e => Err e end.
Definition rmap {E A B} (f : A → B) (r : result E A) : result E B :=
  match r with Ok a => Ok (f a) | Err e => Err e end.

(** The [?] operator: [let? x := r in k]. *)
Notation "'let?' x := r 'in' k" := (rbind (λ x, k) r)
  (at level 10, x pattern, r at level 100, k at level 200,
   format "'let?'  x  :=  r  'in' '//' k") : xraft_scope.

(** [iter.map(f).collect::<Result<Vec<_>, _>>()]. *)
Fixpoint collect {E A B} (f : A → result E B) (l : list A) : result E (list B) :=
  match l with
  | [] => Ok []
  | a :: l => let? b := f a in let? bs := collect f l in Ok (b :: bs)
  end.

Lemma rbind_Ok {E A B} (f : A → result E B) r b :
  rbind f r = Ok b ↔ ∃ a, r = Ok a ∧ f a = Ok b.
Proof. destruct r; simpl; naive_solver. Qed.

Lemma collect_Ok_Forall2 {E A B} (f : A → result E B) l bs :
  collect f l = Ok bs ↔ Forall2 (λ a b, f a = Ok b) l bs.
Proof.
  revert bs. induction l as [|a l IH]; intros bs; simpl.
  - split; [intros [= <-]; constructor | by inversion 1].
  - rewrite rbind_Ok. setoid_rewrite rbind_Ok. split.
    + intros (b & Hb & bs' & Hl & [= <-]). constructor; [done|by apply IH].
    + inversion 1 as [|? b ? bs' Hb Hl]; subst. exists b; split; [done|].
      exists bs'. by rewrite IH.
Qed.

(** Inverting a pair without reducing its components. *)
Lemma pair_inv {A B} (a a' : A) (b b' : B) : (a, b) = (a', b') → a = a' ∧ b = b'.
Proof. by intros [= -> ->]. Qed.

Lemma Forall_if {A} (P : A → Prop) (b : bool) x : P x → Forall P (if b then [x] else []).
Proof. destruct b; auto. Qed.

(** ** Searching lists *)

(** A predicate that holds once finds the same element in any order. *)
Lemma find_perm {A} (f : A → bool) l1 l2 :
  l1 ≡ₚ l2 → (∀ x y, x ∈ l1 → y ∈ l1 → f x = true → f y = true → x = y) → find f l1 = find f l2.
Proof.
  intros Hp Hu. destruct (find f l1) as [x|] eqn:H1, (find f l2) as [y|] eqn:H2; [| | |done].
  - apply find_some in H1 as [H1 Hx], H2 as [H2 Hy]. rewrite <-list_elem_of_In in H1, H2.
    f_equal. apply Hu; try done. by rewrite Hp.
  - apply find_some in H1 as [H1 Hx]. apply find_none with (x := x) in H2; [congruence|].
    by rewrite <-list_elem_of_In, <-Hp, list_elem_of_In.
  - apply find_some in H2 as [H2 Hy]. apply find_none with (x := y) in H1; [congruence|].
    by rewrite <-list_elem_of_In, Hp, list_elem_of_In.
Qed.
Lemma existsb_perm {A} (f : A → bool) l1 l2 : l1 ≡ₚ l2 → existsb f l1 = existsb f l2.
Proof.
  intros Hp. apply eq_true_iff_eq. rewrite !existsb_exists.
  setoid_rewrite <-list_elem_of_In. by setoid_rewrite Hp.
Qed.

Lemma find_ext {A} (f g : A → bool) l : Forall (λ x, f x = g x) l → find f l = find g l.
Proof. induction 1 as [|x l Hx _ IH]; [done|]. cbn. by rewrite Hx, IH. Qed.
Lemma existsb_ext_in {A} (f g : A → bool) l : Forall (λ x, f x = g x) l → existsb f l = existsb g l.
Proof. induction 1 as [|x l Hx _ IH]; [done|]. cbn. by rewrite Hx, IH. Qed.

Lemma filter_full {A} (P : A → Prop) `{∀ x, Decision (P x)} l :
  length (filter P l) = length l → filter P l = l.
Proof.
  induction l as [|x l IH]; [done|]. rewrite filter_cons. case_decide.
  - intros [= Hl]. by rewrite IH.
  - pose proof (length_filter P l). cbn. lia.
Qed.

Lemma find_fmap {A B} (f : B → bool) (g : A → B) l : find f (g <$> l) = g <$> find (λ x, f (g x)) l.
Proof. induction l as [|x l IH]; [done|]. cbn. by destruct (f (g x)). Qed.
Lemma Forall_filter_sub {A} (P Q : A → Prop) `{∀ x, Decision (Q x)} l :
  Forall P l → Forall P (filter Q l).
Proof. rewrite !Forall_forall. intros HP x [_ Hx]%list_elem_of_filter. by apply HP. Qed.
Lemma find_unique {A} (f : A → bool) l x :
  x ∈ l → f x = true → (∀ y, y ∈ l → f y = true → y = x) → find f l = Some x.
Proof.
  intros Hx Hf Hu. destruct (find f l) as [y|] eqn:Hy.
  - apply find_some in Hy as [Hy Hfy]. rewrite <-list_elem_of_In in Hy. f_equal. by apply Hu.
  - rewrite (find_none _ _ Hy) in Hf; [done|by apply list_elem_of_In].
Qed.

(** ** Record update: [x <| field := v |>] *)

Class Settable (R : Type) := eta_expand : R → R.
Class Setter {R T : Type} (proj : R → T) := set : (T → T) → R → R.
Arguments set {R T} proj {_} f x /.

Ltac build_setter :=
  match goal with
  | |- @Setter ?R ?T ?proj =>
      let e := constr:(ltac:(let i := constr:(_ : Settable R) in exact i)) in
      let body := eval hnf in e in
      exact (λ (f : T → T) (x : R),
        ltac:(let b := eval cbv beta in (body x) in
              let b := (eval pattern (proj x) in b) in
              match b with ?g _ =>
                let r := eval cbv beta in (g (f (proj x))) in exact r end))
  end.
#[export] Hint Extern 0 (Setter _) => build_setter : typeclass_instances.

Notation "x <| proj := v |>" := (set proj (λ _, v) x)
  (at level 12, left associativity, proj constr, v constr at level 200,
   format "x  <|  proj  :=  v  |>") : xraft_scope.

(** ** Descending order, for the [sort_by(|a, b| b.cmp(a))] idiom *)

Definition desc : relation N := λ a b, b ≤ a.
#[export] Instance desc_dec : RelDecision desc := λ a b, decide (b ≤ a).
#[export] Instance desc_trans : Transitive desc.
Proof. unfold desc. intros a b c; lia. Qed.
#[export] Instance desc_total : Total desc.
Proof. unfold desc. intros a b; lia. Qed.
