(* ===== verification/CoreTypes.v ===== *)
(** * Core types

    The scalar identifiers and the error type of [xraft-core/src/types.rs] and
    [error.rs], the snapshot metadata of [storage.rs], and the interface of
    the membership types.  The modules of [crate::types] that define
    [VoterSet], [VoteGrantedSet], [HardState], [LogIndex] and [NodeRole] are
    not in the repository: plain data ([HardState], [NodeRole], the newtypes)
    is written as its uses construct and match it exhaustively; the abstract
    types are parameters, with what the callers document of them as laws. *)

From S2P Require Import Prelude.

(** [NodeId(u64)], [Term(u64)], [LogIndex(u64)]: newtypes over [u64] whose
    derived order is the order of the number. *)
Definition NodeId : Type := N.
Definition Term : Type := N.
Definition LogIndex : Type := N.

Module ClusterId.
(** [ClusterId(Uuid)] compares by the sixteen bytes of the UUID, in order. *)
Fixpoint cmp_bytes (a b : list N) : comparison :=
  match a, b with
  | [], [] => Eq
  | [], _ :: _ => Lt
  | _ :: _, [] => Gt
  | x :: a, y :: b =>
      match x ?= y with Eq => cmp_bytes a b | c => c end
  end.
Definition cmp (a b : list N) : comparison := cmp_bytes a b.
Definition partial_cmp (a b : list N) : option comparison := Some (cmp a b).
End ClusterId.

(** [XRaftError]. Diagnostics keep the static part of the message. *)
Inductive XRaftError : Type :=
| Storage (msg : string)
| Transport (msg : string)
| NotLeader (leader_hint : option N)
| ElectionTimeout
| InvalidTerm (msg : string)
| LogInconsistency (msg : string)
| Shutdown
| Config (msg : string)
| CorruptSnapshot (msg : string)
| SnapshotNotFound (msg : string)
| Unsupported (msg : string).

#[export] Instance XRaftError_eq_dec : EqDecision XRaftError.
Proof. solve_decision. Defined.

Abbreviation Result := (result XRaftError).

(** [NodeRole]: the five roles the engine matches on. *)
Inductive NodeRole : Type :=
| Follower | Observer | PreCandidate | Candidate | Leader.

#[export] Instance NodeRole_eq_dec : EqDecision NodeRole.
Proof. solve_decision. Defined.

(** [HardState { current_term, voted_for, commit_index }]. *)
Record HardState : Type := mkHardState {
  current_term : N;
  voted_for : option N;
  hs_commit_index : N;
}.
#[export] Instance HardState_settable : Settable HardState :=
  λ x, mkHardState (current_term x) (voted_for x) (hs_commit_index x).
#[export] Instance HardState_eq_dec : EqDecision HardState.
Proof. solve_decision. Defined.

(** [Endpoint { host, port: u16 }]. *)
Record Endpoint : Type := mkEndpoint { ep_host : string; ep_port : N }.
#[export] Instance Endpoint_eq_dec : EqDecision Endpoint.
Proof. solve_decision. Defined.

(** ** The membership interface

    [Uuid] is the [uuid] crate's type, with its parser and printer.
    [VoterSet] and [VoteGrantedSet] are the absent [crate::types] types. *)
Class MembershipApi : Type := {
  Uuid : Type;
  Uuid_eq_dec :: EqDecision Uuid;
  uuid_to_string : Uuid → string;
  uuid_parse_str : string → option Uuid;
  uuid_is_nil : Uuid → bool;

  VoterSet : Type;
  VoterSet_eq_dec :: EqDecision VoterSet;
  (** The [(node_id, directory_id, endpoints)] records of the set. *)
  voters : VoterSet → list (N * Uuid * list Endpoint);
  try_new : list (N * Uuid * list Endpoint) → option VoterSet;
  contains : VoterSet → N → bool;
  unique_node_count : VoterSet → nat;
  quorum_size : VoterSet → nat;

  VoteGrantedSet : Type;
  vg_new : VoteGrantedSet;
  vg_insert : N → VoteGrantedSet → VoteGrantedSet;
  vg_clear : VoteGrantedSet → VoteGrantedSet;
  vg_iter : VoteGrantedSet → list N;
}.

Definition vr_node_id {MA : MembershipApi} (v : N * Uuid * list Endpoint) : N := v.1.1.
Definition vr_directory_id {MA : MembershipApi} (v : N * Uuid * list Endpoint) : Uuid := v.1.2.
Definition vr_endpoints {MA : MembershipApi} (v : N * Uuid * list Endpoint) : list Endpoint := v.2.

(** The node ids of the records: [vs.voters().iter().map(|v| v.node_id)]. *)
Definition voter_ids {MA : MembershipApi} (vs : VoterSet) : list N :=
  vr_node_id <$> voters vs.

(** What the callers document: a quorum is a strict majority of the unique
    node ids, [contains] is membership of a node id, [try_new] keeps the
    records it is given, and [VoteGrantedSet] is a [HashSet] of node ids. *)
Class MembershipLaws (MA : MembershipApi) : Prop := {
  uuid_parse_to_string u : uuid_parse_str (uuid_to_string u) = Some u;
  contains_spec vs n : contains vs n = true ↔ n ∈ voter_ids vs;
  unique_node_count_spec vs :
    unique_node_count vs = length (remove_dups (voter_ids vs));
  quorum_size_spec vs : quorum_size vs = (unique_node_count vs / 2 + 1)%nat;
  try_new_voters rs vs : try_new rs = Some vs → voters vs = rs;
  vg_new_iter : vg_iter vg_new = [];
  vg_clear_iter s : vg_iter (vg_clear s) = [];
  vg_insert_iter x y s : x ∈ vg_iter (vg_insert y s) ↔ x = y ∨ x ∈ vg_iter s;
  vg_iter_NoDup s : NoDup (vg_iter s);
}.

(** [rand]'s [gen_range] over an inclusive range, on an abstract generator. *)
Class RngApi : Type := {
  Rng : Type;
  gen_range : N → N → Rng → N * Rng;
  next_u64 : Rng → N * Rng;
  seed_from_u64 : N → Rng;
}.
Class RngLaws (RA : RngApi) : Prop := {
  gen_range_bounds lo hi r : lo ≤ hi → lo ≤ (gen_range lo hi r).1 ≤ hi;
}.

(** [HashMap]'s iteration order is unspecified. *)
Class HashIter : Type := {
  hash_iter : ∀ {V : Type}, gmap N V → list (N * V);
}.
Class HashIterLaws (HI : HashIter) : Prop := {
  hash_iter_perm {V : Type} (m : gmap N V) : hash_iter m ≡ₚ map_to_list m;
}.

(** ** Snapshot metadata ([xraft-core/src/storage.rs]) *)
Record SnapshotMeta {MA : MembershipApi} : Type := mkSnapshotMeta {
  last_included_index : N;
  last_included_term : N;
  sm_id : string;
  sm_voter_set : option VoterSet;
  sm_size_bytes : option N;
  sm_checksum : option N;
}.
#[export] Instance SnapshotMeta_settable {MA : MembershipApi} : Settable SnapshotMeta :=
  λ x, mkSnapshotMeta MA (last_included_index x) (last_included_term x) (sm_id x)
         (sm_voter_set x) (sm_size_bytes x) (sm_checksum x).
#[export] Instance SnapshotMeta_eq_dec {MA : MembershipApi} : EqDecision SnapshotMeta.
Proof. solve_decision. Defined.

(** [SnapshotMeta::voter_set_required]. *)
Definition voter_set_required {MA : MembershipApi} (m : SnapshotMeta) : Result VoterSet :=
  match sm_voter_set m with
  | Some vs => Ok vs
  | None => Err (Storage "snapshot is missing required voter_set metadata")
  end.
