(* ===== verification/Message.v ===== *)
(** * Messages

    The in-memory protocol types of [xraft-core/src/message.rs]: log entries,
    the engine's inputs, the actions it hands to the driver, and the RPC
    structs.  Field names carry a short prefix where several Rust structs use
    the same name. *)

From S2P Require Import Prelude CoreTypes.
From Stdlib Require Export Strings.Byte.

Abbreviation bytes := (list Byte.byte).

#[export] Instance byte_eq_dec : EqDecision Byte.byte := Byte.byte_eq_dec.

(** [bincode::serialize] and [bincode::deserialize] at one type. *)
Class Bincode (A : Type) : Type := {
  bin_ser : A → bytes;
  bin_de : bytes → option A;
}.
Class BincodeLaws (A : Type) (B : Bincode A) : Prop := {
  bin_roundtrip (a : A) : bin_de (bin_ser a) = Some a;
}.

Section Messages.
Context {MA : MembershipApi}.

(** [EntryPayload]. *)
Inductive EntryPayload : Type :=
| Command (b : bytes)
| NoOp
| ConfigChange (vs : VoterSet)
| SnapshotMarker (m : SnapshotMeta).

(** [Entry { index, term, payload }]. *)
Record Entry : Type := mkEntry {
  e_index : N;
  e_term : N;
  e_payload : EntryPayload;
}.

(** [VoteRequest]. *)
Record VoteRequest : Type := mkVoteRequest {
  vrq_cluster_id : string;
  vrq_leader_epoch : N;
  vrq_term : N;
  vrq_candidate_id : N;
  vrq_last_log_index : N;
  vrq_last_log_term : N;
}.

(** [VoteResponse]; [PreVoteResponse] has the same fields. *)
Record VoteResponse : Type := mkVoteResponse {
  vrs_cluster_id : string;
  vrs_leader_epoch : N;
  vrs_term : N;
  vrs_vote_granted : bool;
  vrs_leader_hint : option N;
}.

(** [PreVoteRequest]. *)
Record PreVoteRequest : Type := mkPreVoteRequest {
  pvq_cluster_id : string;
  pvq_leader_epoch : N;
  pvq_next_term : N;
  pvq_candidate_id : N;
  pvq_last_log_index : N;
  pvq_last_log_term : N;
}.

(** [PreVoteResponse]. *)
Record PreVoteResponse : Type := mkPreVoteResponse {
  pvs_cluster_id : string;
  pvs_leader_epoch : N;
  pvs_term : N;
  pvs_vote_granted : bool;
  pvs_leader_hint : option N;
}.

(** [FetchRequest]. *)
Record FetchRequest : Type := mkFetchRequest {
  frq_cluster_id : string;
  frq_leader_epoch : N;
  frq_replica_id : N;
  frq_fetch_offset : N;
  frq_last_fetched_epoch : N;
}.

(** [DivergingEpoch]. *)
Record DivergingEpoch : Type := mkDivergingEpoch {
  de_epoch : N;
  de_end_offset : N;
}.

(** [SnapshotRedirect]. *)
Record SnapshotRedirect : Type := mkSnapshotRedirect {
  sr_snapshot_id : string;
  sr_last_included_index : N;
  sr_last_included_term : N;
}.

(** [FetchResponse]. *)
Record FetchResponse : Type := mkFetchResponse {
  frs_cluster_id : string;
  frs_leader_epoch : N;
  frs_leader_id : N;
  frs_high_watermark : N;
  frs_entries : list Entry;
  frs_diverging_epoch : option DivergingEpoch;
  frs_snapshot_redirect : option SnapshotRedirect;
  frs_is_leader : bool;
}.

(** [FetchSnapshotRequest]. *)
Record FetchSnapshotRequest : Type := mkFetchSnapshotRequest {
  fsq_cluster_id : string;
  fsq_leader_epoch : N;
  fsq_replica_id : N;
  fsq_snapshot_id : string;
  fsq_offset : N;
  fsq_max_bytes : N;
}.

(** [FetchSnapshotChunk]. *)
Record FetchSnapshotChunk : Type := mkFetchSnapshotChunk {
  fsc_cluster_id : string;
  fsc_leader_epoch : N;
  fsc_chunk_index : N;
  fsc_data : bytes;
  fsc_done : bool;
  fsc_metadata : option SnapshotMeta;
}.

(** [OutboundMessage]. *)
Inductive OutboundMessage : Type :=
| MsgVoteRequest (r : VoteRequest)
| MsgVoteResponse (r : VoteResponse)
| MsgPreVoteRequest (r : PreVoteRequest)
| MsgPreVoteResponse (r : PreVoteResponse)
| MsgFetchRequest (r : FetchRequest)
| MsgFetchResponse (r : FetchResponse)
| MsgFetchSnapshotRequest (r : FetchSnapshotRequest).

(** [Input]: the events [RaftNode::step] consumes. *)
Inductive Input : Type :=
| InTick
| InVoteRequest (r : VoteRequest)
| InVoteResponse (from : N) (r : VoteResponse)
| InPreVoteRequest (r : PreVoteRequest)
| InPreVoteResponse (from : N) (r : PreVoteResponse)
| InFetchRequest (r : FetchRequest)
| InFetchResponse (r : FetchResponse)
| InClientPropose (cmd : bytes)
| InFetchRequestAcked (replica_id confirmed_offset : N)
| InSnapshotComplete (m : SnapshotMeta)
| InSnapshotInstalled (m : SnapshotMeta)
| InFetchSnapshotReceived (m : SnapshotMeta) (data : bytes).

(** [LogTruncation]. *)
Inductive LogTruncation : Type :=
| SuffixFromInclusive (from_index_inclusive : N)
| PrefixThroughInclusive (through_index_inclusive : N).

(** [Action]: the side effects the driver executes, in order. *)
Inductive Action : Type :=
| PersistHardState
| AppendEntries (es : list Entry)
| SendMessage (to : N) (m : OutboundMessage)
| ApplyToStateMachine (from to : N)
| TakeSnapshot (through_index : N)
| InstallSnapshot (m : SnapshotMeta) (data : bytes)
| BecomeLeader
| StepDown
| ServeFetch (to : N) (cluster_id : string) (leader_epoch leader_id high_watermark
    fetch_offset last_fetched_epoch : N)
| RedirectToSnapshot (to : N) (cluster_id : string) (leader_epoch leader_id
    high_watermark : N) (snapshot_metadata : SnapshotMeta)
| TruncateLog (t : LogTruncation).
End Messages.

#[export] Instance EntryPayload_eq_dec {MA : MembershipApi} : EqDecision EntryPayload.
Proof. solve_decision. Defined.
#[export] Instance Entry_eq_dec {MA : MembershipApi} : EqDecision Entry.
Proof. solve_decision. Defined.
#[export] Instance LogTruncation_eq_dec : EqDecision LogTruncation.
Proof. solve_decision. Defined.
