(* ===== verification/Text.v ===== *)
(** * Text

    The string methods of the Rust standard library the configuration uses,
    on ASCII text: [str::parse::<u64>], [rfind], [trim] and
    [to_ascii_lowercase]. *)

From S2P Require Import Prelude.
From Stdlib Require Export Ascii.
From Stdlib Require Import String.

Definition chars : string → list ascii := String.list_ascii_of_string.
Definition of_chars : list ascii → string := String.string_of_list_ascii.

Lemma of_chars_chars s : of_chars (chars s) = s.
Proof. apply String.string_of_list_ascii_of_string. Qed.
Lemma chars_of_chars l : chars (of_chars l) = l.
Proof. apply String.list_ascii_of_string_of_list_ascii. Qed.

Definition is_digit (c : ascii) : bool :=
  let k := N_of_ascii c in (48 <=? k) && (k <=? 57).
Definition digit_val (c : ascii) : N := N_of_ascii c - 48.

(** One step of [from_str_radix(10)]: [checked_mul(10)] then [checked_add]. *)
Fixpoint parse_digits (max acc : N) (cs : list ascii) : option N :=
  match cs with
  | [] => Some acc
  | c :: cs =>
      if is_digit c then
        let acc := acc * 10 + digit_val c in
        if decide (acc ≤ max) then parse_digits max acc cs else None
      else None
  end.

(** [str::parse] at an unsigned type: an optional [+], then at least one digit. *)
Definition parse_uint (max : N) (s : string) : option N :=
  match chars s with
  | [] => None
  | c :: cs =>
      if Ascii.eqb c "+" then
        match cs with [] => None | _ => parse_digits max 0 cs end
      else parse_digits max 0 (c :: cs)
  end.
Definition parse_u64 : string → option N := parse_uint u64_max.
Definition parse_u16 : string → option N := parse_uint 65535.

(** [s.rfind(c)] followed by slicing on both sides of the match. *)
Fixpoint split_first (c : ascii) (l : list ascii) : option (list ascii * list ascii) :=
  match l with
  | [] => None
  | x :: l =>
      if Ascii.eqb x c then Some ([], l)
      else match split_first c l with Some (a, b) => Some (x :: a, b) | None => None end
  end.
Definition rsplit_char (c : ascii) (s : string) : option (string * string) :=
  match split_first c (rev (chars s)) with
  | Some (a, b) => Some (of_chars (rev b), of_chars (rev a))
  | None => None
  end.

Definition is_whitespace (c : ascii) : bool :=
  let k := N_of_ascii c in ((9 <=? k) && (k <=? 13)) || (k =? 32).
Fixpoint drop_spaces (l : list ascii) : list ascii :=
  match l with
  | [] => []
  | c :: l' => if is_whitespace c then drop_spaces l' else l
  end.
Definition trim (s : string) : string :=
  of_chars (rev (drop_spaces (rev (drop_spaces (chars s))))).

Definition lower (c : ascii) : ascii :=
  let k := N_of_ascii c in
  if (65 <=? k) && (k <=? 90) then ascii_of_N (k + 32) else c.
Definition to_lowercase (s : string) : string := of_chars (lower <$> chars s).

(** [s.split(',')]. *)
Fixpoint split_on (c : ascii) (l acc : list ascii) : list string :=
  match l with
  | [] => [of_chars (rev acc)]
  | x :: l =>
      if Ascii.eqb x c then of_chars (rev acc) :: split_on c l []
      else split_on c l (x :: acc)
  end.
Definition split_commas (s : string) : list string := split_on ","%char (chars s) [].

Lemma split_first_app c l a b :
  split_first c l = Some (a, b) ↔ l = a ++ c :: b ∧ c ∉ a.
Proof.
  revert a b. induction l as [|x l IH]; intros a b; simpl.
  - split; [done|]. intros [H _]. by destruct a.
  - destruct (Ascii.eqb_spec x c) as [->|Hne].
    + split.
      * intros [= <- <-]. split; [done|]. apply not_elem_of_nil.
      * intros [H Hc]. destruct a as [|y a]; simplify_eq/=; [done|]. rewrite elem_of_cons in Hc. naive_solver.
    + destruct (split_first c l) as [[a' b']|] eqn:E.
      * destruct (proj1 (IH a' b') eq_refl) as [-> Hc]. split.
        -- intros [= <- <-]. split; [done|]. rewrite elem_of_cons. naive_solver.
        -- intros [H Hc']. destruct a as [|y a]; simplify_eq/=.
           assert (Some (a', b') = Some (a, b)) as H2; [|congruence].
           apply IH. split; [done|]. rewrite elem_of_cons in Hc'. naive_solver.
      * split; [done|]. intros [H Hc]. destruct a as [|y a]; simplify_eq/=.
        assert (None = Some (a, b)) as H2; [|congruence].
        apply IH. split; [done|]. rewrite elem_of_cons in Hc. naive_solver.
Qed.

(** [rsplit_char] cuts at the last occurrence. *)
Lemma rsplit_char_spec c s a b :
  rsplit_char c s = Some (a, b) ↔
  chars s = chars a ++ c :: chars b ∧ c ∉ chars b.
Proof.
  unfold rsplit_char. destruct (split_first c (rev (chars s))) as [[x y]|] eqn:E.
  - apply split_first_app in E as [E Hc].
    apply (f_equal (@rev _)) in E. rewrite rev_involutive, rev_app_distr in E. simpl in E.
    rewrite <-app_assoc in E. split.
    + intros [= <- <-]. rewrite !chars_of_chars. rewrite E. split; [done|].
      rewrite list_elem_of_In, <-in_rev, <-list_elem_of_In. done.
    + intros [H Hb]. rewrite H in E.
      assert (rev (chars s) = rev (chars b) ++ c :: rev (chars a)) as Hr.
      { rewrite H, rev_app_distr. simpl. by rewrite <-app_assoc. }
      assert (split_first c (rev (chars s)) = Some (rev (chars b), rev (chars a))) as H1.
      { apply split_first_app. split; [done|].
        rewrite list_elem_of_In, <-in_rev, <-list_elem_of_In. done. }
      assert (split_first c (rev (chars s)) = Some (x, y)) as H2.
      { apply split_first_app. split; [|done]. rewrite H, E, rev_app_distr. simpl.
        by rewrite rev_involutive, <-app_assoc, rev_involutive. }
      rewrite H1 in H2. simplify_eq. rewrite !rev_involutive, !of_chars_chars. done.
  - split; [done|]. intros [H Hb]. exfalso.
    assert (split_first c (rev (chars s)) = Some (rev (chars b), rev (chars a))) as H1; [|congruence].
    apply split_first_app. split.
    + rewrite H, rev_app_distr. simpl. by rewrite <-app_assoc.
    + rewrite list_elem_of_In, <-in_rev, <-list_elem_of_In. done.
Qed.

Lemma parse_digits_le max acc cs n : acc ≤ max → parse_digits max acc cs = Some n → n ≤ max.
Proof.
  revert acc. induction cs as [|c cs IH]; intros acc Hacc; simpl; [by intros [= <-]|].
  destruct (is_digit c); [|done]. case_decide; [|done]. by apply IH.
Qed.

Lemma parse_uint_le max s n : parse_uint max s = Some n → n ≤ max.
Proof.
  unfold parse_uint. destruct (chars s) as [|c cs]; [done|].
  destruct (Ascii.eqb c "+"); [destruct cs; [done|]|]; apply parse_digits_le; lia.
Qed.

Example parse_port : parse_u16 "9090" = Some 9090.
Proof. reflexivity. Qed.
Example parse_port_overflow : parse_u16 "65536" = None.
Proof. reflexivity. Qed.
Example rsplit_ipv6 : rsplit_char ":" "[::1]:8080" = Some ("[::1]", "8080").
Proof. reflexivity. Qed.
