(* ===== verification/Config.v ===== *)
(** * Cluster configuration ([xraft-core/src/config.rs])

    [ClusterConfig], its validation in source order, and the derived values
    the engine reads.  TOML parsing is the [toml] crate's and is not modelled;
    the environment enters as the closure [env_var] the code also takes. *)

From S2P Require Import Prelude CoreTypes Text.

(** [VoterConfig]. *)
Record VoterConfig : Type := mkVoterConfig {
  vc_node_id : N;
  vc_directory_id : string;
  vc_host : string;
  vc_port : N;
}.

(** [ClusterConfig]. *)
Record ClusterConfig : Type := mkClusterConfig {
  node_id : N;
  cluster_id : string;
  listen_addr : string;
  cfg_peers : list string;
  cfg_voters : list VoterConfig;
  election_timeout_min_ms : N;
  election_timeout_max_ms : N;
  fetch_interval_ms : N;
  tick_interval_ms : N;
  snapshot_interval : N;
  max_log_entries_before_compaction : N;
  data_dir : string;
  snapshot_retention_count : N;
  tls_enabled : bool;
  tls_cert_path : option string;
  tls_key_path : option string;
  tls_ca_path : option string;
  tls_domain_name : option string;
  connect_timeout_ms : N;
  rpc_timeout_ms : N;
  max_rpc_retries : N;
  retry_initial_backoff_ms : N;
  retry_max_backoff_ms : N;
  max_message_size : N;
  observers : list N;
  enable_check_quorum : bool;
  enable_leader_lease : bool;
  check_quorum_interval_ms : option N;
}.
#[export] Instance ClusterConfig_settable : Settable ClusterConfig := λ x,
  mkClusterConfig (node_id x) (cluster_id x) (listen_addr x) (cfg_peers x) (cfg_voters x)
    (election_timeout_min_ms x) (election_timeout_max_ms x) (fetch_interval_ms x)
    (tick_interval_ms x) (snapshot_interval x) (max_log_entries_before_compaction x)
    (data_dir x) (snapshot_retention_count x) (tls_enabled x) (tls_cert_path x)
    (tls_key_path x) (tls_ca_path x) (tls_domain_name x) (connect_timeout_ms x)
    (rpc_timeout_ms x) (max_rpc_retries x) (retry_initial_backoff_ms x)
    (retry_max_backoff_ms x) (max_message_size x) (observers x) (enable_check_quorum x)
    (enable_leader_lease x) (check_quorum_interval_ms x).

(** The [default_*] functions serde applies to absent fields. *)
Definition default_enable_check_quorum : bool := true.
Definition default_enable_leader_lease : bool := false.
Definition default_election_timeout_min : N := 150.
Definition default_election_timeout_max : N := 300.
Definition default_fetch_interval : N := 50.
Definition default_tick_interval : N := 10.
Definition default_snapshot_interval : N := 10000.
Definition default_max_log_entries : N := 100000.
Definition default_data_dir : string := "data".
Definition default_snapshot_retention_count : N := 3.
Definition default_connect_timeout_ms : N := 5000.
Definition default_rpc_timeout_ms : N := 30000.
Definition default_max_rpc_retries : N := 3.
Definition default_retry_initial_backoff_ms : N := 100.
Definition default_retry_max_backoff_ms : N := 5000.
Definition default_max_message_size : N := 64 * 1024 * 1024.

(** [if !cond { return Err(XRaftError::Config(..)) }]. *)
Definition ensure (b : bool) (msg : string) : Result unit :=
  if b then Ok tt else Err (Config msg).

Lemma ensure_Ok b msg u : ensure b msg = Ok u ↔ b = true.
Proof. destruct b, u; simpl; naive_solver. Qed.

(** [parse_bool_env]. *)
Definition parse_bool_env (val : string) : Result bool :=
  let v := to_lowercase (trim val) in
  if bool_decide (v ∈ ["true"; "1"; "yes"; "on"]) then Ok true
  else if bool_decide (v ∈ ["false"; "0"; "no"; "off"]) then Ok false
  else Err (Config "invalid boolean value").

(** [apply_env_overrides_with]: each variable overrides its field when set
    and non-empty; the first one that does not parse ends the call. *)
Section EnvOverrides.
Context (env_var : string → option string).

Definition env_str (var : string) (f : string → ClusterConfig → ClusterConfig)
    (c : ClusterConfig) : ClusterConfig :=
  match env_var var with
  | Some val => if bool_decide (val = "") then c else f val c
  | None => c
  end.
Definition env_num (var : string) (f : N → ClusterConfig → ClusterConfig)
    (c : ClusterConfig) : Result ClusterConfig :=
  match env_var var with
  | Some val =>
      if bool_decide (val = "") then Ok c
      else match parse_u64 val with
           | Some v => Ok (f v c)
           | None => Err (Config (var +:+ ": invalid u64 value"))
           end
  | None => Ok c
  end.
Definition env_bool (var : string) (f : bool → ClusterConfig → ClusterConfig)
    (c : ClusterConfig) : Result ClusterConfig :=
  match env_var var with
  | Some val =>
      if bool_decide (val = "") then Ok c
      else let? b := parse_bool_env val in Ok (f b c)
  | None => Ok c
  end.

Definition apply_env_overrides_with (c : ClusterConfig) : Result ClusterConfig :=
  let? c := env_num "XRAFT_NODE_ID" (λ v c, c <| node_id := v |>) c in
  let c := env_str "XRAFT_CLUSTER_ID" (λ v c, c <| cluster_id := v |>) c in
  let c := env_str "XRAFT_LISTEN_ADDR" (λ v c, c <| listen_addr := v |>) c in
  let c := env_str "XRAFT_PEERS" (λ v c,
             c <| cfg_peers := filter (λ s, s ≠ "") (trim <$> split_commas v) |>) c in
  let? c := env_num "XRAFT_ELECTION_TIMEOUT_MIN_MS"
              (λ v c, c <| election_timeout_min_ms := v |>) c in
  let? c := env_num "XRAFT_ELECTION_TIMEOUT_MAX_MS"
              (λ v c, c <| election_timeout_max_ms := v |>) c in
  let? c := env_num "XRAFT_FETCH_INTERVAL_MS" (λ v c, c <| fetch_interval_ms := v |>) c in
  let? c := env_num "XRAFT_TICK_INTERVAL_MS" (λ v c, c <| tick_interval_ms := v |>) c in
  let? c := env_num "XRAFT_SNAPSHOT_INTERVAL" (λ v c, c <| snapshot_interval := v |>) c in
  let? c := env_num "XRAFT_MAX_LOG_ENTRIES"
              (λ v c, c <| max_log_entries_before_compaction := v |>) c in
  let c := env_str "XRAFT_DATA_DIR" (λ v c, c <| data_dir := v |>) c in
  let? c := env_num "XRAFT_SNAPSHOT_RETENTION_COUNT"
              (λ v c, c <| snapshot_retention_count := v |>) c in
  let? c := env_bool "XRAFT_ENABLE_CHECK_QUORUM" (λ v c, c <| enable_check_quorum := v |>) c in
  let? c := env_bool "XRAFT_ENABLE_LEADER_LEASE" (λ v c, c <| enable_leader_lease := v |>) c in
  env_num "XRAFT_CHECK_QUORUM_INTERVAL_MS"
    (λ v c, c <| check_quorum_interval_ms := Some v |>) c.
End EnvOverrides.

(** [parse_host_port]. *)
Definition parse_host_port (addr : string) : option (string * N) :=
  match rsplit_char ":" addr with
  | None => None
  | Some (host, port_str) =>
      if bool_decide (host = "") || bool_decide (port_str = "") then None
      else match parse_u16 port_str with
           | None => None
           | Some port => Some (to_lowercase host, port)
           end
  end.

(** [validate_address]. *)
Definition validate_address (addr : string) : Result unit :=
  match rsplit_char ":" addr with
  | None => Err (Config "must be in host:port format")
  | Some (host, port_str) =>
      let? _ := ensure (negb (bool_decide (host = ""))) "has an empty host" in
      let? _ := ensure (negb (bool_decide (port_str = ""))) "has an empty port" in
      match parse_u64 port_str with
      | None => Err (Config "has a non-numeric port")
      | Some port =>
          ensure (negb (bool_decide (port = 0)) && (port <=? 65535))
            "port is out of valid range 1-65535"
      end
  end.

(** The [for (i, peer) in self.peers] loop of [validate]. *)
Fixpoint validate_peers (ps : list string) : Result unit :=
  match ps with
  | [] => Ok tt
  | p :: ps =>
      let? _ := ensure (negb (bool_decide (p = ""))) "peer address must not be empty" in
      let? _ := validate_address p in
      validate_peers ps
  end.

(** The duplicate checks insert into a [HashSet] and stop at the first clash. *)
Fixpoint check_no_dup_peers (seen ps : list string) : Result unit :=
  match ps with
  | [] => Ok tt
  | p :: ps =>
      let? _ := ensure (negb (bool_decide (p ∈ seen))) "duplicate peer address" in
      check_no_dup_peers (p :: seen) ps
  end.

Definition is_wildcard_host (h : string) : bool :=
  bool_decide (h ∈ ["0.0.0.0"; "::"; "[::]"]).

(** Does [peer] resolve to the listen address? *)
Definition is_self_addr (listen listen_host : string) (listen_port : N) (peer : string) : bool :=
  match parse_host_port peer with
  | Some (peer_host, peer_port) =>
      if negb (listen_port =? peer_port) then false
      else if is_wildcard_host listen_host then true
      else bool_decide (listen_host = peer_host)
  | None => bool_decide (peer = listen)
  end.

Definition check_not_self_peer (c : ClusterConfig) : Result unit :=
  match parse_host_port (listen_addr c) with
  | None => Ok tt
  | Some (h, p) =>
      ensure (forallb (λ peer, negb (is_self_addr (listen_addr c) h p peer)) (cfg_peers c))
        "listen_addr must not appear in peers"
  end.

Section Validate.
Context {MA : MembershipApi}.

(** Decimal rendering of the port in the endpoint key. *)
Definition endpoint_key (v : VoterConfig) : string :=
  trim (vc_host v) +:+ ":" +:+ pretty (vc_port v).

(** The [for (i, voter) in self.voters] loop. *)
Fixpoint validate_voters (seen_ids : list (N * string)) (seen_endpoints : list string)
    (vs : list VoterConfig) : Result unit :=
  match vs with
  | [] => Ok tt
  | v :: vs =>
      let? _ := ensure (negb (bool_decide (trim (vc_host v) = ""))) "voter has an empty host" in
      let? _ := ensure (negb (vc_port v =? 0)) "voter port must not be zero" in
      match uuid_parse_str (vc_directory_id v) with
      | None => Err (Config "voter directory_id is not a valid UUID")
      | Some u =>
          let? _ := ensure (negb (uuid_is_nil u))
                      "voter directory_id must not be the nil UUID" in
          let key := (vc_node_id v, vc_directory_id v) in
          let? _ := ensure (negb (bool_decide (key ∈ seen_ids))) "duplicate voter" in
          let ep := endpoint_key v in
          let? _ := ensure (negb (bool_decide (ep ∈ seen_endpoints)))
                      "duplicate voter endpoint" in
          validate_voters (key :: seen_ids) (ep :: seen_endpoints) vs
      end
  end.

Definition in_voters (c : ClusterConfig) : bool :=
  existsb (λ v, vc_node_id v =? node_id c) (cfg_voters c).
Definition in_observers (c : ClusterConfig) : bool :=
  bool_decide (node_id c ∈ observers c).

(** The [if !self.voters.is_empty()] block: structured voters, then the
    local node's membership in exactly one of the two lists. *)
Definition validate_voter_block (c : ClusterConfig) : Result unit :=
  match cfg_voters c with
  | [] => Ok tt
  | vs =>
      let? _ := validate_voters [] [] vs in
      let? _ := ensure (in_voters c || in_observers c)
                  "node_id is not present in the voters list or observers list" in
      ensure (negb (in_voters c && in_observers c))
        "node_id appears in BOTH the voters and observers lists"
  end.

(** The interval and storage checks. *)
Definition validate_timing (c : ClusterConfig) : Result unit :=
  let? _ := ensure (negb (election_timeout_min_ms c =? 0))
              "election_timeout_min_ms must be > 0" in
  let? _ := ensure (election_timeout_min_ms c <? election_timeout_max_ms c)
              "election_timeout_max_ms must be > election_timeout_min_ms" in
  let? _ := ensure (negb (fetch_interval_ms c =? 0)) "fetch_interval_ms must be > 0" in
  let? _ := ensure (negb (tick_interval_ms c =? 0)) "tick_interval_ms must be > 0" in
  let? _ := ensure (negb (snapshot_interval c =? 0)) "snapshot_interval must be > 0" in
  let? _ := ensure (negb (max_log_entries_before_compaction c =? 0))
              "max_log_entries_before_compaction must be > 0" in
  let? _ := ensure (negb (bool_decide (data_dir c = ""))) "data_dir must not be empty" in
  ensure (negb (snapshot_retention_count c =? 0)) "snapshot_retention_count must be >= 1".

(** The gRPC transport checks. *)
Definition validate_transport (c : ClusterConfig) : Result unit :=
  let? _ :=
    (if tls_enabled c then
       let? _ := ensure (bool_decide (is_Some (tls_cert_path c)))
                   "tls_enabled = true requires tls_cert_path to be set" in
       ensure (bool_decide (is_Some (tls_key_path c)))
         "tls_enabled = true requires tls_key_path to be set"
     else Ok tt) in
  let? _ := ensure (negb (connect_timeout_ms c =? 0)) "connect_timeout_ms must be > 0" in
  let? _ := ensure (negb (rpc_timeout_ms c =? 0)) "rpc_timeout_ms must be > 0" in
  let? _ := ensure (negb (retry_initial_backoff_ms c =? 0))
              "retry_initial_backoff_ms must be > 0" in
  let? _ := ensure (retry_initial_backoff_ms c <=? retry_max_backoff_ms c)
              "retry_max_backoff_ms must be >= retry_initial_backoff_ms" in
  ensure (negb (max_message_size c =? 0)) "max_message_size must be > 0".

(** [ClusterConfig::validate]. *)
Definition validate (c : ClusterConfig) : Result unit :=
  let? _ := ensure (negb (bool_decide (cluster_id c = ""))) "cluster_id must not be empty" in
  let? _ := ensure (negb (bool_decide (listen_addr c = ""))) "listen_addr must not be empty" in
  let? _ := validate_address (listen_addr c) in
  let? _ := validate_peers (cfg_peers c) in
  let? _ := check_no_dup_peers [] (cfg_peers c) in
  let? _ := check_not_self_peer c in
  let? _ := validate_voter_block c in
  let? _ := validate_timing c in
  let? _ := validate_transport c in
  ensure (negb (bool_decide (check_quorum_interval_ms c = Some 0)))
    "check_quorum_interval_ms must be > 0 when set".

(** [effective_check_quorum_interval_ms]. *)
Definition effective_check_quorum_interval_ms (c : ClusterConfig) : N :=
  match check_quorum_interval_ms c with
  | Some v => v
  | None => sat_mul (election_timeout_max_ms c) 2
  end.

(** [peer_endpoint]. *)
Definition url_of (c : ClusterConfig) (v : VoterConfig) : string :=
  (if tls_enabled c then "https" else "http") +:+ "://" +:+ vc_host v +:+ ":"
    +:+ pretty (vc_port v).
Definition peer_endpoint (c : ClusterConfig) (peer : N) : option string :=
  if decide (peer = node_id c) then None
  else url_of c <$> find (λ v, vc_node_id v =? peer) (cfg_voters c).

(** [peer_endpoints]: collecting into a map keeps the last binding. *)
Definition peer_endpoints (c : ClusterConfig) : gmap N string :=
  foldl (λ m v, <[vc_node_id v := url_of c v]> m) ∅
    (filter (λ v, vc_node_id v ≠ node_id c) (cfg_voters c)).

(** [build_voter_set]. *)
Definition build_voter_set (c : ClusterConfig) : Result (option VoterSet) :=
  match cfg_voters c with
  | [] => Ok None
  | vs =>
      let? records := collect (λ v,
        match uuid_parse_str (vc_directory_id v) with
        | Some u => Ok (vc_node_id v, u, [mkEndpoint (vc_host v) (vc_port v)])
        | None => Err (Config "voter directory_id is not a valid UUID")
        end) vs in
      match try_new records with
      | Some s => Ok (Some s)
      | None => Err (Config "invalid voter set")
      end
  end.
End Validate.

(** ** What a validated configuration guarantees *)
Section ValidateFacts.
Context {MA : MembershipApi}.

Lemma validate_timing_Ok c u :
  validate_timing c = Ok u →
  0 < election_timeout_min_ms c < election_timeout_max_ms c ∧
  0 < fetch_interval_ms c ∧ 0 < tick_interval_ms c ∧ 0 < snapshot_interval c ∧
  0 < max_log_entries_before_compaction c ∧ 0 < snapshot_retention_count c.
Proof.
  unfold validate_timing. rewrite rbind_Ok.
  intros (? & H1%ensure_Ok & H).
  repeat (rewrite rbind_Ok in H; destruct H as (? & ?%ensure_Ok & H)).
  apply ensure_Ok in H.
  repeat match goal with
  | H : negb (_ =? 0) = true |- _ => apply negb_true_iff, N.eqb_neq in H
  | H : (_ <? _) = true |- _ => apply N.ltb_lt in H
  end. lia.
Qed.

Lemma validate_parts c u :
  validate c = Ok u →
  validate_voter_block c = Ok tt ∧ validate_timing c = Ok tt ∧
  check_quorum_interval_ms c ≠ Some 0.
Proof.
  unfold validate. intros H.
  repeat match type of H with
  | rbind _ _ = Ok _ => rewrite rbind_Ok in H; destruct H as ([] & ? & H)
  end.
  apply ensure_Ok, negb_true_iff, bool_decide_eq_false in H. done.
Qed.

Lemma validate_voters_Ok si se vs u :
  validate_voters si se vs = Ok u →
  NoDup ((λ v, (vc_node_id v, vc_directory_id v)) <$> vs) ∧
  NoDup (endpoint_key <$> vs) ∧
  (∀ v, v ∈ vs → (vc_node_id v, vc_directory_id v) ∉ si ∧ endpoint_key v ∉ se ∧
     vc_port v ≠ 0 ∧ ∃ uu, uuid_parse_str (vc_directory_id v) = Some uu ∧ uuid_is_nil uu = false).
Proof.
  revert si se. induction vs as [|v vs IH]; intros si se H; simpl in *.
  { split_and!; [constructor..|]. intros v Hv. by apply not_elem_of_nil in Hv. }
  rewrite rbind_Ok in H. destruct H as (? & _ & H).
  rewrite rbind_Ok in H. destruct H as (? & Hport%ensure_Ok & H).
  destruct (uuid_parse_str (vc_directory_id v)) as [uu|] eqn:Huu; [|done].
  rewrite rbind_Ok in H. destruct H as (? & Hnil%ensure_Ok & H).
  rewrite rbind_Ok in H. destruct H as (? & Hkey%ensure_Ok & H).
  rewrite rbind_Ok in H. destruct H as (? & Hep%ensure_Ok & H).
  apply negb_true_iff, bool_decide_eq_false in Hkey, Hep.
  apply negb_true_iff in Hnil. apply negb_true_iff, N.eqb_neq in Hport.
  apply IH in H as (Hnd1 & Hnd2 & Hall). split_and!.
  - constructor; [|done].
    intros (v' & Heq & Hv')%list_elem_of_fmap. apply Hall in Hv' as (Hv' & _).
    rewrite <-Heq in Hv'. set_solver.
  - constructor; [|done].
    intros (v' & Heq & Hv')%list_elem_of_fmap. apply Hall in Hv' as (_ & Hv' & _).
    rewrite <-Heq in Hv'. set_solver.
  - intros v' [->|Hv']%elem_of_cons; [naive_solver|].
    apply Hall in Hv' as (? & ? & ? & ?). set_solver.
Qed.
End ValidateFacts.
