(* ===== verification/ElectionTimer.v ===== *)
(** * Election timer ([xraft-core/src/node.rs], [ElectionTimer])

    A logical-tick timer with a randomised target in [[min_ticks, max_ticks]].
    [new] asserts its bounds: a failed assertion is [None]. *)

From S2P Require Import Prelude CoreTypes.

Record ElectionTimer : Type := mkElectionTimer {
  elapsed_ticks : N;
  timeout_ticks : N;
  min_ticks : N;
  max_ticks : N;
}.
#[export] Instance ElectionTimer_settable : Settable ElectionTimer :=
  λ x, mkElectionTimer (elapsed_ticks x) (timeout_ticks x) (min_ticks x) (max_ticks x).

Module Timer.
Section Timer.
Context {RA : RngApi}.

(** [pick_in_range]. *)
Definition pick_in_range (lo hi : N) (r : Rng) : N * Rng :=
  if decide (lo = hi) then (lo, r) else gen_range lo hi r.

(** [ElectionTimer::new]. *)
Definition new (min_t max_t : N) (r : Rng) : option (ElectionTimer * Rng) :=
  if decide (0 < min_t) then
    if decide (min_t ≤ max_t) then
      let '(t, r) := pick_in_range min_t max_t r in
      Some (mkElectionTimer 0 t min_t max_t, r)
    else None
  else None.

(** [ElectionTimer::from_config_ms]. *)
Definition from_config_ms (min_ms max_ms tick_ms : N) (r : Rng)
    : option (ElectionTimer * Rng) :=
  let interval := N.max tick_ms 1 in
  let min_t := N.max (div_ceil min_ms interval) 1 in
  let max_t := N.max (div_ceil max_ms interval) min_t in
  new min_t max_t r.

(** [ElectionTimer::reset]. *)
Definition reset (t : ElectionTimer) (r : Rng) : ElectionTimer * Rng :=
  let '(v, r) := pick_in_range (min_ticks t) (max_ticks t) r in
  (t <| elapsed_ticks := 0 |> <| timeout_ticks := v |>, r).

(** [ElectionTimer::tick], [is_expired], [remaining]. *)
Definition tick (t : ElectionTimer) : ElectionTimer :=
  t <| elapsed_ticks := sat_add (elapsed_ticks t) 1 |>.
Definition is_expired (t : ElectionTimer) : bool :=
  bool_decide (timeout_ticks t ≤ elapsed_ticks t).
Definition remaining (t : ElectionTimer) : N := timeout_ticks t - elapsed_ticks t.

(** The timer's well-formedness: the target stays inside the bounds. *)
Definition wf (t : ElectionTimer) : Prop :=
  0 < min_ticks t ∧ min_ticks t ≤ timeout_ticks t ≤ max_ticks t.

Section Laws.
Context {RL : RngLaws RA}.

Lemma pick_in_range_bounds lo hi r :
  lo ≤ hi → lo ≤ (pick_in_range lo hi r).1 ≤ hi.
Proof using RL.
  intros Hle. unfold pick_in_range. case_decide; simpl; [lia|].
  by apply gen_range_bounds.
Qed.

Lemma new_wf min_t max_t r t r' : new min_t max_t r = Some (t, r') → wf t.
Proof using RL.
  unfold new, wf. repeat case_decide; try done.
  pose proof (pick_in_range_bounds min_t max_t r) as Hb.
  destruct (pick_in_range min_t max_t r) as [v r2]. intros [= <- <-]; simpl in *. lia.
Qed.

Lemma reset_wf t r : wf t → wf (reset t r).1.
Proof using RL.
  unfold reset, wf. intros [Hpos [H1 H2]].
  pose proof (pick_in_range_bounds (min_ticks t) (max_ticks t) r) as Hb.
  destruct (pick_in_range _ _ r) as [v r2]. simpl in *. lia.
Qed.

Lemma tick_wf t : wf t → wf (tick t).
Proof. done. Qed.

(** [from_config_ms] never trips the assertions of [new]. *)
Lemma from_config_ms_total min_ms max_ms tick_ms r :
  ∃ t r', from_config_ms min_ms max_ms tick_ms r = Some (t, r') ∧ wf t ∧
    elapsed_ticks t = 0 ∧
    min_ticks t = N.max (div_ceil min_ms (N.max tick_ms 1)) 1.
Proof using RL.
  unfold from_config_ms. set (i := N.max tick_ms 1).
  set (lo := N.max (div_ceil min_ms i) 1). set (hi := N.max (div_ceil max_ms i) lo).
  destruct (new lo hi r) as [[t r']|] eqn:E.
  - exists t, r'. split_and!; [done|by eapply new_wf|..];
      unfold new in E; repeat case_decide; try done;
      destruct (pick_in_range lo hi r); by simplify_eq.
  - unfold new in E. repeat case_decide; [by destruct (pick_in_range _ _ _)|..]; lia.
Qed.
End Laws.
End Timer.
End Timer.

#[export] Hint Resolve Timer.reset_wf Timer.tick_wf : core.
