(* ===== verification/RaftNode.v ===== *)
(** * The consensus engine ([xraft-core/src/node.rs])

    [RaftNode] with every operation that changes it.  A method taking
    [&mut self] and returning [Vec<Action>] is a function to the new state and
    the action list; [&self] methods are plain functions of the state. *)

From S2P Require Import Prelude CoreTypes Message Config ElectionTimer.

(** [PeerState]. *)
Record PeerState : Type := mkPeerState {
  last_fetch_offset : N;
  last_fetch_time : N;
  last_caught_up_time : N;
  last_fetch_seq : N;
  is_voter : bool;
}.
#[export] Instance PeerState_settable : Settable PeerState := λ x,
  mkPeerState (last_fetch_offset x) (last_fetch_time x) (last_caught_up_time x)
    (last_fetch_seq x) (is_voter x).

(** [PeerState::new]. *)
Definition new_peer (v : bool) : PeerState := mkPeerState 0 0 0 0 v.

(** [struct RaftNode]. *)
Record RaftNode {MA : MembershipApi} {RA : RngApi} : Type := mkRaftNode {
  id : N;
  role : NodeRole;
  hard_state : HardState;
  commit_index : N;
  last_applied : N;
  election_timer : ElectionTimer;
  votes_received : VoteGrantedSet;
  pre_votes_received : VoteGrantedSet;
  peers : gmap N PeerState;
  voter_set : option VoterSet;
  config : ClusterConfig;
  leader_id : option N;
  last_leader_contact_tick : option N;
  logical_tick : N;
  last_log_index : N;
  last_log_term : N;
  leader_no_op_index : option N;
  last_fetch_tick : option N;
  last_snapshot_meta : option SnapshotMeta;
  snapshot_in_flight : bool;
  leader_started_tick : option N;
  check_quorum_elapsed_ticks : N;
  check_quorum_interval_ticks : N;
  fetch_seq : N;
  rng : Rng;
}.
#[export] Instance RaftNode_settable {MA : MembershipApi} {RA : RngApi} :
    Settable RaftNode := λ x,
  mkRaftNode MA RA (id x) (role x) (hard_state x) (commit_index x) (last_applied x)
    (election_timer x) (votes_received x) (pre_votes_received x) (peers x) (voter_set x)
    (config x) (leader_id x) (last_leader_contact_tick x) (logical_tick x)
    (last_log_index x) (last_log_term x) (leader_no_op_index x) (last_fetch_tick x)
    (last_snapshot_meta x) (snapshot_in_flight x) (leader_started_tick x)
    (check_quorum_elapsed_ticks x) (check_quorum_interval_ticks x) (fetch_seq x) (rng x).

Section Engine.
Context {MA : MembershipApi} {RA : RngApi} {HI : HashIter}.
Implicit Types n : RaftNode.

(** ** Accessors *)
Definition term n : N := current_term (hard_state n).
Definition vote n : option N := voted_for (hard_state n).
Definition is_leader n : bool := bool_decide (role n = Leader).
Definition set_last_log (index t : N) n : RaftNode :=
  n <| last_log_index := index |> <| last_log_term := t |>.

Definition set_term (t : N) n : RaftNode :=
  n <| hard_state := hard_state n <| current_term := t |> |>.
Definition set_vote (v : option N) n : RaftNode :=
  n <| hard_state := hard_state n <| voted_for := v |> |>.

(** [self.election_timer.reset(&mut self.rng)]. *)
Definition reset_timer n : RaftNode :=
  let tr := Timer.reset (election_timer n) (rng n) in
  n <| election_timer := tr.1 |> <| rng := tr.2 |>.

(** ** Predicates *)

Definition is_self n (i : N) : bool := bool_decide (i = id n).

(** [is_known_voter]. *)
Definition is_known_voter n (i : N) : bool :=
  match voter_set n with Some vs => contains vs i | None => false end.

(** The votes of [ids] that count: [filter(|id| voter_ids.contains(id))]. *)
Definition count_voters (vs : VoterSet) (ids : list N) : nat :=
  length (filter (λ i, i ∈ voter_ids vs) ids).

(** [has_election_quorum] and [has_pre_election_quorum]. *)
Definition has_election_quorum n : bool :=
  match voter_set n with
  | None => false
  | Some vs => bool_decide (quorum_size vs ≤ count_voters vs (vg_iter (votes_received n)))%nat
  end.
Definition has_pre_election_quorum n : bool :=
  match voter_set n with
  | None => false
  | Some vs => bool_decide (quorum_size vs ≤ count_voters vs (vg_iter (pre_votes_received n)))%nat
  end.

(** One [for (peer_id, peer) in self.peers.iter()] counting loop. *)
Definition count_peers (vs : VoterSet) n (p : PeerState → bool) : nat :=
  foldl (λ (acc : nat) '(i, ps),
           if decide (i ∈ voter_ids vs) then (if p ps then S acc else acc) else acc)
        (if decide (id n ∈ voter_ids vs) then 1%nat else 0%nat)
        (hash_iter (peers n)).

Definition in_window n (ps : PeerState) : bool :=
  bool_decide (logical_tick n - last_fetch_time ps < check_quorum_interval_ticks n).

(** [check_quorum_reachable]. *)
Definition check_quorum_reachable n : bool :=
  match voter_set n with
  | None => true
  | Some vs => bool_decide (quorum_size vs ≤ count_peers vs n (in_window n))%nat
  end.

(** [has_active_lease]. *)
Definition has_active_lease n : bool :=
  if negb (enable_leader_lease (config n)) then false
  else if decide (role n ≠ Leader) then false
  else match voter_set n with
  | None => false
  | Some vs =>
      match leader_started_tick n with
      | None => false
      | Some started =>
          let lease_voters := count_peers vs n (λ ps,
            if decide (last_fetch_time ps ≤ started) then false else in_window n ps) in
          bool_decide (quorum_size vs ≤ lease_voters)%nat
      end
  end.

(** [candidate_log_is_up_to_date]. *)
Definition candidate_log_is_up_to_date n (idx t : N) : bool :=
  if decide (last_log_term n < t) then true
  else if decide (t < last_log_term n) then false
  else bool_decide (last_log_index n ≤ idx).

(** [leader_recently_active]. *)
Definition leader_recently_active n : bool :=
  if decide (role n = Leader) then true
  else match last_leader_contact_tick n with
  | Some t => bool_decide (logical_tick n - t < timeout_ticks (election_timer n))
  | None => false
  end.

Definition build_vote_response n (granted : bool) : VoteResponse :=
  mkVoteResponse (cluster_id (config n)) 0 (term n) granted (leader_id n).
Definition build_pre_vote_response n (granted : bool) : PreVoteResponse :=
  mkPreVoteResponse (cluster_id (config n)) 0 (term n) granted (leader_id n).

(** ** Commit and apply *)

(** The per-record offsets [try_advance_commit_index] collects. *)
Definition voter_offset n (i : N) : option N :=
  if is_self n i then Some (last_log_index n)
  else match peers n !! i with
  | Some p => if is_voter p then Some (last_fetch_offset p) else None
  | None => Some 0
  end.
Definition voter_offsets n (vs : VoterSet) : list N :=
  omap (voter_offset n) (voter_ids vs).

(** [try_advance_commit_index]. *)
Definition try_advance_commit_index n : RaftNode * option N :=
  if decide (role n ≠ Leader) then (n, None)
  else match voter_set n, leader_no_op_index n with
  | Some vs, Some no_op =>
      let offsets := voter_offsets n vs in
      let q := quorum_size vs in
      if decide (length offsets < q)%nat then (n, None)
      else
        let sorted := merge_sort desc offsets in
        match sorted !! (q - 1)%nat with
        | None => (n, None)
        | Some candidate =>
            if decide (candidate ≤ commit_index n) then (n, None)
            else if decide (candidate < no_op) then (n, None)
            else (n <| commit_index := candidate |>, Some candidate)
        end
  | _, _ => (n, None)
  end.

(** [maybe_apply]. *)
Definition maybe_apply n : RaftNode * option Action :=
  if decide (commit_index n ≤ last_applied n) then (n, None)
  else
    let from := sat_add (last_applied n) 1 in
    let to := commit_index n in
    (n <| last_applied := to |>, Some (ApplyToStateMachine from to)).

(** [maybe_take_snapshot]. *)
Definition snapshot_index n : N :=
  match last_snapshot_meta n with Some m => last_included_index m | None => 0 end.
Definition maybe_take_snapshot n : RaftNode * option Action :=
  if snapshot_in_flight n then (n, None)
  else
    let lag := commit_index n - snapshot_index n in
    if decide (max_log_entries_before_compaction (config n) < lag) then
      (n <| snapshot_in_flight := true |>, Some (TakeSnapshot (commit_index n)))
    else (n, None).

(** [drain_apply_pipeline]; [apply_committed] is its public name. *)
Definition drain_apply_pipeline n : RaftNode * list Action :=
  let '(n, a) := maybe_apply n in
  let '(n, s) := maybe_take_snapshot n in
  (n, option_list a ++ option_list s).
Definition apply_committed n : RaftNode * list Action := drain_apply_pipeline n.

(** [if self.try_advance_commit_index().is_some() { drain }]. *)
Definition advance_and_drain n : RaftNode * list Action :=
  let '(n, c) := try_advance_commit_index n in
  match c with Some _ => drain_apply_pipeline n | None => (n, []) end.

(** ** Role transitions *)

Definition stepping_down (r : NodeRole) : bool :=
  match r with Leader | Candidate | PreCandidate => true | _ => false end.

(** [become_follower]. *)
Definition become_follower (t : N) (leader : option N) n : RaftNode * list Action :=
  let prior_role := role n in
  let '(n, persist) :=
    if decide (term n < t) then (set_vote None (set_term t n), [PersistHardState])
    else (n, []) in
  let n := n <| role := if decide (prior_role = Observer) then Observer else Follower |>
             <| leader_id := leader |>
             <| last_leader_contact_tick :=
                  match leader with Some _ => Some (logical_tick n) | None => None end |>
             <| votes_received := vg_clear (votes_received n) |>
             <| pre_votes_received := vg_clear (pre_votes_received n) |>
             <| leader_no_op_index := None |>
             <| last_fetch_tick := None |>
             <| leader_started_tick := None |>
             <| check_quorum_elapsed_ticks := 0 |> in
  let n := reset_timer n in
  (n, persist ++ (if stepping_down prior_role then [StepDown] else [])).

(** The state [become_leader] builds before it advances the commit index:
    role, lease baseline, peer progress, and the appended no-op. *)
Definition leader_state n : RaftNode :=
  let n := n <| role := Leader |>
             <| leader_id := Some (id n) |>
             <| last_leader_contact_tick := Some (logical_tick n) |>
             <| votes_received := vg_clear (votes_received n) |>
             <| pre_votes_received := vg_clear (pre_votes_received n) |>
             <| last_fetch_tick := None |>
             <| leader_started_tick := Some (logical_tick n) |>
             <| check_quorum_elapsed_ticks := 0 |> in
  let n := reset_timer n in
  let n := n <| peers := (λ p, p <| last_fetch_offset := 0 |>
                                 <| last_fetch_time := logical_tick n |>
                                 <| last_caught_up_time := logical_tick n |>) <$> peers n |> in
  let noop_index := sat_add (last_log_index n) 1 in
  n <| last_log_index := noop_index |>
    <| last_log_term := term n |>
    <| leader_no_op_index := Some noop_index |>.

(** [become_leader]. *)
Definition become_leader n : RaftNode * list Action :=
  let n := leader_state n in
  let noop_entry := mkEntry (last_log_index n) (last_log_term n) NoOp in
  let '(n, drained) := advance_and_drain n in
  (n, [BecomeLeader; AppendEntries [noop_entry]] ++ drained).

(** The voter-only broadcasts: [for (peer_id, peer_state) in self.peers.iter()]. *)
Definition broadcast n (m : OutboundMessage) : list Action :=
  (λ ip, SendMessage ip.1 m) <$>
    filter (λ ip : N * PeerState, is_voter ip.2 = true) (hash_iter (peers n)).

(** The state [become_candidate] builds: term bump, self-vote, fresh tally. *)
Definition candidate_state n : RaftNode :=
  let n := n <| role := Candidate |> in
  let n := set_vote (Some (id n)) (set_term (sat_add (term n) 1) n) in
  let n := n <| leader_id := None |>
             <| last_leader_contact_tick := None |>
             <| pre_votes_received := vg_clear (pre_votes_received n) |>
             <| votes_received := vg_insert (id n) (vg_clear (votes_received n)) |>
             <| leader_no_op_index := None |>
             <| last_fetch_tick := None |>
             <| leader_started_tick := None |>
             <| check_quorum_elapsed_ticks := 0 |> in
  reset_timer n.
Definition vote_request_of n : VoteRequest :=
  mkVoteRequest (cluster_id (config n)) 0 (term n) (id n) (last_log_index n) (last_log_term n).

(** [become_candidate]; [start_election] is its public name. *)
Definition become_candidate n : RaftNode * list Action :=
  let n := candidate_state n in
  let reqs := broadcast n (MsgVoteRequest (vote_request_of n)) in
  let '(n, led) := if has_election_quorum n then become_leader n else (n, []) in
  (n, [PersistHardState] ++ reqs ++ led).
Definition start_election n : RaftNode * list Action := become_candidate n.

(** The state [become_pre_candidate] builds: no term bump. *)
Definition pre_candidate_state n : RaftNode :=
  let n := n <| role := PreCandidate |>
             <| leader_id := None |>
             <| last_leader_contact_tick := None |>
             <| votes_received := vg_clear (votes_received n) |>
             <| pre_votes_received := vg_insert (id n) (vg_clear (pre_votes_received n)) |>
             <| leader_no_op_index := None |>
             <| last_fetch_tick := None |>
             <| leader_started_tick := None |>
             <| check_quorum_elapsed_ticks := 0 |> in
  reset_timer n.
Definition pre_vote_request_of n : PreVoteRequest :=
  mkPreVoteRequest (cluster_id (config n)) 0 (sat_add (term n) 1) (id n)
    (last_log_index n) (last_log_term n).

(** [become_pre_candidate]. *)
Definition become_pre_candidate n : RaftNode * list Action :=
  let n := pre_candidate_state n in
  let reqs := broadcast n (MsgPreVoteRequest (pre_vote_request_of n)) in
  let '(n, cand) := if has_pre_election_quorum n then become_candidate n else (n, []) in
  (n, reqs ++ cand).

(** ** Election handlers *)

(** The higher-term branch of [handle_vote_request]: adopt the term inline,
    so that one [PersistHardState] covers the bump and the vote. *)
Definition adopt_vote_term (t : N) n : RaftNode :=
  let n := set_vote None (set_term t n) in
  let n := n <| role := Follower |>
             <| leader_id := None |>
             <| last_leader_contact_tick := None |>
             <| votes_received := vg_clear (votes_received n) |>
             <| pre_votes_received := vg_clear (pre_votes_received n) |>
             <| leader_started_tick := None |>
             <| check_quorum_elapsed_ticks := 0 |> in
  reset_timer n.

(** [log_ok && vote_ok]. *)
Definition would_grant (req : VoteRequest) n : bool :=
  candidate_log_is_up_to_date n (vrq_last_log_index req) (vrq_last_log_term req) &&
  match vote n with
  | None => true
  | Some i => bool_decide (i = vrq_candidate_id req)
  end.

(** [handle_vote_request]. *)
Definition handle_vote_request (req : VoteRequest) n : RaftNode * list Action :=
  let cand := vrq_candidate_id req in
  if decide (vrq_cluster_id req ≠ cluster_id (config n)) then (n, [])
  else if decide (role n = Observer) then (n, [])
  else if negb (is_known_voter n cand) then (n, [])
  else if decide (vrq_term req < term n) then
    (n, [SendMessage cand (MsgVoteResponse (build_vote_response n false))])
  else
    let higher := bool_decide (term n < vrq_term req) in
    let should_step_down := higher && stepping_down (role n) in
    let n := if higher then adopt_vote_term (vrq_term req) n else n in
    let granted := would_grant req n in
    let newly := granted && bool_decide (vote n ≠ Some cand) in
    let n := if newly then set_vote (Some cand) n else n in
    let n := if granted then reset_timer n else n in
    (n, (if higher || newly then [PersistHardState] else []) ++
        (if should_step_down then [StepDown] else []) ++
        [SendMessage cand (MsgVoteResponse (build_vote_response n granted))]).

(** [handle_vote_response]. *)
Definition handle_vote_response (from : N) (resp : VoteResponse) n : RaftNode * list Action :=
  if decide (vrs_cluster_id resp ≠ cluster_id (config n)) then (n, [])
  else if negb (is_known_voter n from) then (n, [])
  else if decide (term n < vrs_term resp) then become_follower (vrs_term resp) None n
  else if decide (role n ≠ Candidate ∨ vrs_term resp ≠ term n) then (n, [])
  else if vrs_vote_granted resp then
    let n := n <| votes_received := vg_insert from (votes_received n) |> in
    if has_election_quorum n then become_leader n else (n, [])
  else (n, []).

(** [handle_pre_vote_request]: takes [&self]. *)
Definition handle_pre_vote_request (req : PreVoteRequest) n : list Action :=
  if decide (pvq_cluster_id req ≠ cluster_id (config n)) then []
  else if decide (role n = Observer) then []
  else if negb (is_known_voter n (pvq_candidate_id req)) then []
  else
    let term_ok := bool_decide (term n < pvq_next_term req) in
    let log_ok := candidate_log_is_up_to_date n (pvq_last_log_index req)
                    (pvq_last_log_term req) in
    let leader_active := leader_recently_active n in
    let granted := term_ok && log_ok && negb leader_active in
    [SendMessage (pvq_candidate_id req)
       (MsgPreVoteResponse (build_pre_vote_response n granted))].

(** [handle_pre_vote_response]. *)
Definition handle_pre_vote_response (from : N) (resp : PreVoteResponse) n
    : RaftNode * list Action :=
  if decide (pvs_cluster_id resp ≠ cluster_id (config n)) then (n, [])
  else if negb (is_known_voter n from) then (n, [])
  else if decide (term n < pvs_term resp) then become_follower (pvs_term resp) None n
  else if decide (role n ≠ PreCandidate) then (n, [])
  else if pvs_vote_granted resp then
    let n := n <| pre_votes_received := vg_insert from (pre_votes_received n) |> in
    if has_pre_election_quorum n then become_candidate n else (n, [])
  else (n, []).

(** ** Snapshot coordination *)

(** [is_snapshot_meta_newer]. *)
Definition is_snapshot_meta_newer (cur : option SnapshotMeta) (cand : SnapshotMeta) : bool :=
  match cur with
  | None => true
  | Some prior => bool_decide (last_included_index prior < last_included_index cand)
  end.

(** [handle_snapshot_complete]. *)
Definition handle_snapshot_complete (m : SnapshotMeta) n : RaftNode * list Action :=
  let is_fresh := is_snapshot_meta_newer (last_snapshot_meta n) m in
  let n := n <| snapshot_in_flight := false |> in
  if negb is_fresh then (n, [])
  else (n <| last_snapshot_meta := Some m |>,
        [TruncateLog (PrefixThroughInclusive (last_included_index m))]).

(** [handle_snapshot_installed]. *)
Definition handle_snapshot_installed (m : SnapshotMeta) n : RaftNode * list Action :=
  let through := last_included_index m in
  let n := if decide (last_applied n < through) then n <| last_applied := through |> else n in
  let n := if decide (commit_index n < through) then n <| commit_index := through |> else n in
  let n := if decide (last_log_index n < through)
           then set_last_log through (last_included_term m) n else n in
  let n := if is_snapshot_meta_newer (last_snapshot_meta n) m
           then n <| last_snapshot_meta := Some m |> else n in
  (n <| snapshot_in_flight := false |>, []).

(** [handle_fetch_snapshot_received]. *)
Definition handle_fetch_snapshot_received (m : SnapshotMeta) (data : bytes) n
    : RaftNode * list Action :=
  if decide (last_included_index m ≤ last_applied n) then (n, [])
  else (n, [InstallSnapshot m data]).

(** ** Log replication *)

(** [handle_fetch_request]. *)
Definition handle_fetch_request (req : FetchRequest) n : RaftNode * list Action :=
  let who := frq_replica_id req in
  if decide (frq_cluster_id req ≠ cluster_id (config n)) then (n, [])
  else if is_self n who then (n, [])
  else if negb (is_known_voter n who) && bool_decide (peers n !! who = None) then (n, [])
  else if decide (term n < frq_leader_epoch req) then
    become_follower (frq_leader_epoch req) None n
  else if decide (role n ≠ Leader) then (n, [])
  else if decide (frq_fetch_offset req = 0) then (n, [])
  else
    let n := n <| fetch_seq := sat_add (fetch_seq n) 1 |> in
    let n := n <| peers := alter (λ p, p <| last_fetch_time := logical_tick n |>
                                         <| last_fetch_seq := fetch_seq n |>)
                             who (peers n) |> in
    let n := n <| last_leader_contact_tick := Some (logical_tick n) |> in
    let high_watermark := commit_index n in
    let serve := ServeFetch who (cluster_id (config n)) (term n) (id n) high_watermark
                   (frq_fetch_offset req) (frq_last_fetched_epoch req) in
    match last_snapshot_meta n with
    | Some snap =>
        if decide (frq_fetch_offset req ≤ last_included_index snap ∧ sm_id snap ≠ "") then
          (n, [RedirectToSnapshot who (cluster_id (config n)) (term n) (id n)
                 high_watermark snap])
        else (n, [serve])
    | None => (n, [serve])
    end.

(** [handle_fetch_request_acked]. *)
Definition handle_fetch_request_acked (replica_id confirmed_offset : N) n
    : RaftNode * list Action :=
  if decide (role n ≠ Leader) then (n, [])
  else if negb (is_known_voter n replica_id) && bool_decide (peers n !! replica_id = None)
  then (n, [])
  else
    let clamped := N.min confirmed_offset (last_log_index n) in
    let now := logical_tick n in
    let leader_tail := last_log_index n in
    let n := n <| peers := alter (λ p,
                 let p := if decide (last_fetch_offset p < clamped)
                          then p <| last_fetch_offset := clamped |> else p in
                 if decide (last_fetch_offset p = leader_tail)
                 then p <| last_caught_up_time := now |> else p)
               replica_id (peers n) |> in
    advance_and_drain n.

(** The whole-batch check: the first entry extends the log, and every
    adjacent pair is contiguous with a non-decreasing term. *)
Fixpoint windows_ok (e : Entry) (es : list Entry) : bool :=
  match es with
  | [] => true
  | e' :: es =>
      bool_decide (e_index e' = sat_add (e_index e) 1) &&
      bool_decide (e_term e ≤ e_term e') && windows_ok e' es
  end.
Definition batch_ok n (es : list Entry) : bool :=
  match es with
  | [] => true
  | e :: es => bool_decide (e_index e = sat_add (last_log_index n) 1) && windows_ok e es
  end.

(** The tail of [handle_fetch_response]: propagate the high watermark. *)
Definition propagate_high_watermark (hw : N) n : RaftNode * list Action :=
  let new_commit := N.min hw (last_log_index n) in
  if decide (commit_index n < new_commit) then
    drain_apply_pipeline (n <| commit_index := new_commit |>)
  else (n, []).

(** The entries path. *)
Definition accept_entries (resp : FetchResponse) n : RaftNode * list Action :=
  match last (frs_entries resp) with
  | None => propagate_high_watermark (frs_high_watermark resp) n
  | Some last_entry =>
      if negb (batch_ok n (frs_entries resp)) then (n, [])
      else
        let n := n <| last_log_index := e_index last_entry |>
                   <| last_log_term := e_term last_entry |> in
        let '(n, drained) := propagate_high_watermark (frs_high_watermark resp) n in
        (n, AppendEntries (frs_entries resp) :: drained)
  end.

(** What follows the fences: snapshot redirect, divergence, entries. *)
Definition process_fetch_payload (resp : FetchResponse) n : RaftNode * list Action :=
  match frs_snapshot_redirect resp with
  | Some redirect =>
      (n <| last_fetch_tick := Some (logical_tick n) |>,
       [SendMessage (frs_leader_id resp)
          (MsgFetchSnapshotRequest
             (mkFetchSnapshotRequest (cluster_id (config n)) (term n) (id n)
                (sr_snapshot_id redirect) 0 0))])
  | None =>
      match frs_diverging_epoch resp with
      | Some de =>
          let truncate_from := sat_add (de_end_offset de) 1 in
          (n <| last_fetch_tick := Some (logical_tick n) |>,
           [TruncateLog (SuffixFromInclusive truncate_from);
            SendMessage (frs_leader_id resp)
              (MsgFetchRequest (mkFetchRequest (cluster_id (config n)) (term n) (id n)
                 truncate_from (de_epoch de)))])
      | None => accept_entries resp n
      end
  end.

(** The role adoption after the fences. *)
Definition adopt_leader (leader : N) n : RaftNode * list Action :=
  match role n with
  | Candidate | PreCandidate => become_follower (term n) (Some leader) n
  | _ =>
      match leader_id n with
      | None => (n <| leader_id := Some leader |>, [])
      | Some _ => (n, [])
      end
  end.

(** [handle_fetch_response]. *)
Definition handle_fetch_response (resp : FetchResponse) n : RaftNode * list Action :=
  let leader := frs_leader_id resp in
  if decide (frs_cluster_id resp ≠ cluster_id (config n)) then (n, [])
  else if negb (frs_is_leader resp) then (n, [])
  else if negb (is_known_voter n leader) then (n, [])
  else if decide (frs_leader_epoch resp < term n) then (n, [])
  else
    let '(n, acts1) :=
      if decide (term n < frs_leader_epoch resp)
      then become_follower (frs_leader_epoch resp) (Some leader) n
      else (n, []) in
    if decide (role n = Leader) then (n, [])
    else if (match leader_id n with
             | Some known => bool_decide (known ≠ leader)
             | None => false end) then (n, [])
    else
      let '(n, acts2) := adopt_leader leader n in
      let n := reset_timer (n <| last_leader_contact_tick := Some (logical_tick n) |>) in
      let '(n, acts3) := process_fetch_payload resp n in
      (n, acts1 ++ acts2 ++ acts3).

(** [handle_client_propose]. *)
Definition handle_client_propose (command : bytes) n : RaftNode * list Action :=
  if decide (role n ≠ Leader) then (n, [])
  else
    let new_index := sat_add (last_log_index n) 1 in
    let new_term := term n in
    let n := n <| last_log_index := new_index |> <| last_log_term := new_term |> in
    let '(n, drained) := advance_and_drain n in
    (n, AppendEntries [mkEntry new_index new_term (Command command)] :: drained).

(** ** Tick *)

(** [fetch_interval_ticks]. *)
Definition fetch_interval_ticks n : N :=
  N.max (div_ceil (fetch_interval_ms (config n)) (N.max (tick_interval_ms (config n)) 1)) 1.

(** [maybe_build_fetch_request]. *)
Definition maybe_build_fetch_request n : option FetchRequest :=
  let should_fetch := match last_fetch_tick n with
                      | None => true
                      | Some t => bool_decide (fetch_interval_ticks n ≤ logical_tick n - t)
                      end in
  if should_fetch then
    Some (mkFetchRequest (cluster_id (config n)) (term n) (id n)
            (sat_add (last_log_index n) 1) (last_log_term n))
  else None.

(** The fetch-scheduling block of [handle_tick]: directed at the known
    leader, or a discovery broadcast to every voter peer. *)
Definition schedule_fetch n : RaftNode * list Action :=
  if decide (role n = Follower ∨ role n = Observer) then
    match maybe_build_fetch_request n with
    | None => (n, [])
    | Some req =>
        match leader_id n with
        | Some leader =>
            (n <| last_fetch_tick := Some (logical_tick n) |>,
             [SendMessage leader (MsgFetchRequest req)])
        | None =>
            let sends := (λ ip, SendMessage ip.1 (MsgFetchRequest req)) <$>
              filter (λ ip : N * PeerState, ip.1 ≠ id n ∧ is_voter ip.2 = true)
                (hash_iter (peers n)) in
            (match sends with
             | [] => n
             | _ => n <| last_fetch_tick := Some (logical_tick n) |>
             end, sends)
        end
    end
  else (n, []).

(** The Check-Quorum block: [Some] when the leader steps down. *)
Definition check_quorum_tick n : RaftNode * option (list Action) :=
  if bool_decide (role n = Leader) && enable_check_quorum (config n) then
    let n := n <| check_quorum_elapsed_ticks := sat_add (check_quorum_elapsed_ticks n) 1 |> in
    if decide (check_quorum_interval_ticks n ≤ check_quorum_elapsed_ticks n) then
      let n := n <| check_quorum_elapsed_ticks := 0 |> in
      if check_quorum_reachable n then (n, None)
      else let '(n, a) := become_follower (term n) None n in (n, Some a)
    else (n, None)
  else (n, None).

(** [handle_tick]. *)
Definition handle_tick n : RaftNode * list Action :=
  let n := n <| logical_tick := sat_add (logical_tick n) 1 |>
             <| election_timer := Timer.tick (election_timer n) |> in
  let '(n, fetches) := schedule_fetch n in
  let '(n, stepped) := check_quorum_tick n in
  match stepped with
  | Some a => (n, fetches ++ a)
  | None =>
      if negb (Timer.is_expired (election_timer n)) then (n, fetches)
      else match role n with
      | Follower | PreCandidate | Candidate =>
          let '(n, a) := become_pre_candidate n in (n, fetches ++ a)
      | Leader | Observer => (n, fetches)
      end
  end.

(** [RaftNode::step]. *)
Definition step (input : Input) n : RaftNode * list Action :=
  match input with
  | InTick => handle_tick n
  | InVoteRequest req => handle_vote_request req n
  | InVoteResponse from resp => handle_vote_response from resp n
  | InPreVoteRequest req => (n, handle_pre_vote_request req n)
  | InPreVoteResponse from resp => handle_pre_vote_response from resp n
  | InFetchRequest req => handle_fetch_request req n
  | InFetchResponse resp => handle_fetch_response resp n
  | InClientPropose cmd => handle_client_propose cmd n
  | InFetchRequestAcked r o => handle_fetch_request_acked r o n
  | InSnapshotComplete m => handle_snapshot_complete m n
  | InSnapshotInstalled m => handle_snapshot_installed m n
  | InFetchSnapshotReceived m data => handle_fetch_snapshot_received m data n
  end.

(** ** Construction *)

(** The peer map [new_inner] seeds: voters first, then observers that are
    not already present; never the node itself. *)
Definition seed_peers (c : ClusterConfig) (vs : option VoterSet) : gmap N PeerState :=
  let voter_peers := match vs with
    | None => ∅
    | Some vs => foldl (λ m i, if decide (i ≠ node_id c) then <[i := new_peer true]> m else m)
                   ∅ (voter_ids vs)
    end in
  foldl (λ m i, if decide (i = node_id c) then m
                else match m !! i with
                     | Some _ => m
                     | None => <[i := new_peer false]> m
                     end)
    voter_peers (observers c).

(** [new_inner]; the source of randomness is the argument. A timer
    assertion that fails is the [Err] case the code would panic in. *)
Definition new_inner (c : ClusterConfig) (r : Rng) : Result RaftNode :=
  let? _ := validate c in
  let? vs := build_voter_set c in
  let ps := seed_peers c vs in
  let initial_role := if decide (node_id c ∈ observers c) then Observer else Follower in
  let '(s1, r) := next_u64 r in
  match Timer.from_config_ms (election_timeout_min_ms c) (election_timeout_max_ms c)
          (tick_interval_ms c) (seed_from_u64 s1) with
  | None => Err (Config "ElectionTimer assertion failed")
  | Some (timer, _) =>
      let '(s2, r) := next_u64 r in
      Ok (mkRaftNode MA RA (node_id c) initial_role (mkHardState 0 None 0) 0 0 timer
            vg_new vg_new ps vs c None None 0 0 0 None None None false None 0
            (N.max (div_ceil (effective_check_quorum_interval_ms c)
                             (N.max (tick_interval_ms c) 1)) 1)
            0 (seed_from_u64 s2))
  end.
Definition new_with_seed (c : ClusterConfig) (seed : N) : Result RaftNode :=
  new_inner c (seed_from_u64 seed).
End Engine.
