(* ===== verification/NodeFacts.v ===== *)
(** * Facts about single engine operations

    Shape lemmas for the operations of [RaftNode.v]: which fields each one
    writes and which actions it emits.  The property files build on them. *)

From S2P Require Import Prelude CoreTypes Message Config ElectionTimer RaftNode.

(** [step_cases]: split a handler's guards, keeping propositions readable. *)
Ltac split_guards H :=
  repeat first
    [ progress simplify_eq/=
    | match type of H with
      | context [decide ?P] => destruct (decide P)
      | context [if ?b then _ else _] => destruct b eqn:?
      | context [match ?x with _ => _ end] => destruct x eqn:?
      end ].

Section Facts.
Context {MA : MembershipApi} {RA : RngApi} {HI : HashIter}.
Implicit Types n : RaftNode.

(** Actions that neither persist, nor send, nor change role. *)
Definition quiet (a : Action) : Prop :=
  match a with ApplyToStateMachine _ _ | TakeSnapshot _ => True | _ => False end.

(** ** Commit and apply *)

Lemma maybe_apply_shape n n' o :
  maybe_apply n = (n', o) →
  n' = n <| last_applied := N.max (last_applied n) (commit_index n) |> ∧
  option_list o = if decide (commit_index n ≤ last_applied n) then []
      else [ApplyToStateMachine (sat_add (last_applied n) 1) (commit_index n)].
Proof.
  unfold maybe_apply. case_decide; intros [= <- <-]; (split; [|done]).
  - destruct n; cbn in *. f_equal. lia.
  - cbn. f_equal; lia.
Qed.

Lemma maybe_take_snapshot_shape n n' o :
  maybe_take_snapshot n = (n', o) →
  ∃ f, n' = n <| snapshot_in_flight := f |> ∧ (snapshot_in_flight n = true → f = true) ∧
    option_list o = if f && negb (snapshot_in_flight n) then [TakeSnapshot (commit_index n)] else [].
Proof.
  unfold maybe_take_snapshot. destruct (snapshot_in_flight n) eqn:Hf.
  - intros [= <- <-]. exists true. split_and!; [|done..]. destruct n; cbn in *. by subst.
  - case_decide; intros [= <- <-]; [by exists true|]. exists false. split_and!; [|done..].
    destruct n; cbn in *. by subst.
Qed.

Lemma drain_shape n n' acts :
  drain_apply_pipeline n = (n', acts) →
  ∃ f, n' = n <| last_applied := N.max (last_applied n) (commit_index n) |>
            <| snapshot_in_flight := f |> ∧
    acts = (if decide (commit_index n ≤ last_applied n) then []
            else [ApplyToStateMachine (sat_add (last_applied n) 1) (commit_index n)]) ++
           (if f && negb (snapshot_in_flight n) then [TakeSnapshot (commit_index n)] else []).
Proof.
  unfold drain_apply_pipeline.
  destruct (maybe_apply n) as [n1 o1] eqn:E1. destruct (maybe_take_snapshot n1) as [n2 o2] eqn:E2.
  intros [= <- <-]. apply maybe_apply_shape in E1 as [-> Ho1].
  apply maybe_take_snapshot_shape in E2 as (f & -> & _ & Ho2).
  exists f. split; [done|]. by rewrite Ho1, Ho2.
Qed.

Lemma drain_quiet n n' acts : drain_apply_pipeline n = (n', acts) → Forall quiet acts.
Proof.
  intros (f & _ & ->)%drain_shape. apply Forall_app; split.
  - case_decide; repeat constructor.
  - destruct (f && _); repeat constructor.
Qed.

Lemma try_advance_shape n n' o :
  try_advance_commit_index n = (n', o) →
  (o = None ∧ n' = n) ∨
  (∃ c vs no_op, o = Some c ∧ n' = n <| commit_index := c |> ∧ role n = Leader ∧
     voter_set n = Some vs ∧ leader_no_op_index n = Some no_op ∧ no_op ≤ c ∧
     commit_index n < c ∧ (quorum_size vs ≤ length (voter_offsets n vs))%nat ∧
     merge_sort desc (voter_offsets n vs) !! (quorum_size vs - 1)%nat = Some c).
Proof.
  unfold try_advance_commit_index.
  case_decide as Hr; [by intros [= <- <-]; left|].
  destruct (voter_set n) as [vs|]; [|by intros [= <- <-]; left].
  destruct (leader_no_op_index n) as [no_op|]; [|by intros [= <- <-]; left].
  case_decide as Hlen; [by intros [= <- <-]; left|].
  destruct (merge_sort _ _ !! _) as [c|] eqn:Hc; [|by intros [= <- <-]; left].
  do 2 (case_decide; [by intros [= <- <-]; left|]).
  intros [= <- <-]. right. exists c, vs, no_op. split_and!; try done; lia.
Qed.

Lemma voter_offset_le n i o :
  role n = Leader →
  (∀ j p, peers n !! j = Some p → last_fetch_offset p ≤ last_log_index n) →
  voter_offset n i = Some o → o ≤ last_log_index n.
Proof.
  intros _ Hp. unfold voter_offset. destruct (is_self n i); [intros [= <-]; lia|].
  destruct (peers n !! i) as [p|] eqn:E; [|intros [= <-]; lia].
  destruct (is_voter p); [|done]. intros [= <-]. by eapply Hp.
Qed.

Lemma elem_of_voter_offsets n vs o :
  o ∈ voter_offsets n vs ↔ ∃ i, i ∈ voter_ids vs ∧ voter_offset n i = Some o.
Proof. unfold voter_offsets. rewrite list_elem_of_omap. done. Qed.

Lemma try_advance_le n n' c :
  (∀ j p, peers n !! j = Some p → last_fetch_offset p ≤ last_log_index n) →
  try_advance_commit_index n = (n', Some c) → c ≤ last_log_index n.
Proof.
  intros Hp [[? _]|(c' & vs & no & [= ->] & -> & Hr & _ & _ & _ & _ & _ & Hc)]%try_advance_shape; [done|].
  apply list_elem_of_lookup_2 in Hc. rewrite merge_sort_Permutation in Hc.
  apply elem_of_voter_offsets in Hc as (i & _ & Hi). by eapply voter_offset_le.
Qed.

(** [advance_and_drain] writes three fields and emits quiet actions. *)
Lemma advance_and_drain_shape n n' acts :
  advance_and_drain n = (n', acts) →
  ∃ c a f, n' = n <| commit_index := c |> <| last_applied := a |> <| snapshot_in_flight := f |> ∧
    commit_index n ≤ c ∧ last_applied n ≤ a ∧ a ≤ N.max (last_applied n) c ∧ Forall quiet acts ∧
    ((∀ j p, peers n !! j = Some p → last_fetch_offset p ≤ last_log_index n) →
     commit_index n ≤ last_log_index n → c ≤ last_log_index n).
Proof.
  unfold advance_and_drain. destruct (try_advance_commit_index n) as [n1 [c|]] eqn:E.
  - intros Hd. pose proof (drain_quiet _ _ _ Hd) as Hq. apply drain_shape in Hd as (f & -> & _).
    pose proof (λ Hp, try_advance_le _ _ _ Hp E) as Hle.
    apply try_advance_shape in E as [[? _]|(c' & vs & no & [= ->] & -> & _ & _ & _ & _ & Hlt & _)]; [done|].
    eexists c', (N.max (last_applied n) c'), f. cbn.
    split_and!; try done; try lia. intros Hp _. by apply Hle.
  - intros [= <- <-]. apply try_advance_shape in E as [[_ ->]|(? & ? & ? & ? & _)]; [|done].
    exists (commit_index n), (last_applied n), (snapshot_in_flight n). destruct n; cbn.
    split_and!; try done; lia.
Qed.

(** ** Quorum predicates only read the tally, the voters and the id *)

Lemma has_election_quorum_true n :
  has_election_quorum n = true ↔
  ∃ vs, voter_set n = Some vs ∧
    (quorum_size vs ≤ count_voters vs (vg_iter (votes_received n)))%nat.
Proof.
  unfold has_election_quorum. destruct (voter_set n) as [vs|].
  - rewrite bool_decide_eq_true. naive_solver.
  - naive_solver.
Qed.

(** ** Role transitions as equations *)

(** [become_follower]'s result state, field by field. *)
Lemma become_follower_fields t l n n' acts :
  become_follower t l n = (n', acts) →
  id n' = id n ∧ config n' = config n ∧ voter_set n' = voter_set n ∧ peers n' = peers n ∧
  role n' = (if decide (role n = Observer) then Observer else Follower) ∧
  term n' = N.max (term n) t ∧
  vote n' = (if decide (term n < t) then None else vote n) ∧
  commit_index n' = commit_index n ∧ last_applied n' = last_applied n ∧
  leader_id n' = l ∧ logical_tick n' = logical_tick n ∧
  last_log_index n' = last_log_index n ∧ last_log_term n' = last_log_term n ∧
  leader_no_op_index n' = None ∧ last_snapshot_meta n' = last_snapshot_meta n ∧
  snapshot_in_flight n' = snapshot_in_flight n ∧ leader_started_tick n' = None ∧
  fetch_seq n' = fetch_seq n ∧
  vg_iter (votes_received n') = vg_iter (vg_clear (votes_received n)) ∧
  election_timer n' = (Timer.reset (election_timer n) (rng n)).1 ∧
  acts = (if decide (term n < t) then [PersistHardState] else []) ++
         (if stepping_down (role n) then [StepDown] else []).
Proof.
  unfold become_follower, term, vote.
  case_decide; intros [= <- <-]; cbn; split_and!; try done; try lia;
    unfold term in *; lia.
Qed.
End Facts.

