(* ===== verification/NodeInvariant.v ===== *)
(** * The engine invariant

    [node_wf] is the well-formedness every reachable engine state has;
    [evolves] is the monotonicity every step respects.  Both are proved for
    each operation, and then for [step]. *)

From S2P Require Import Prelude CoreTypes Message Config ElectionTimer RaftNode NodeFacts.

Section Invariant.
Context {MA : MembershipApi} {RA : RngApi} {HI : HashIter} {RL : RngLaws RA}.
Implicit Types n : RaftNode.

Record node_wf n : Prop := {
  wf_term : u64 (term n);
  wf_tick : u64 (logical_tick n);
  wf_seq : u64 (fetch_seq n);
  wf_log : u64 (last_log_index n);
  wf_timer : Timer.wf (election_timer n);
  wf_applied : last_applied n ≤ commit_index n;
  wf_commit : commit_index n ≤ last_log_index n;
  wf_peers : role n = Leader →
    ∀ i p, peers n !! i = Some p → last_fetch_offset p ≤ last_log_index n;
  wf_leader : role n = Leader →
    leader_id n = Some (id n) ∧ (∃ s, leader_started_tick n = Some s) ∧
    ∃ k, leader_no_op_index n = Some k ∧ k ≤ last_log_index n;
  wf_vote : role n = Candidate ∨ role n = Leader → vote n = Some (id n);
}.

Record evolves n n' : Prop := {
  ev_id : id n' = id n;
  ev_config : config n' = config n;
  ev_voter_set : voter_set n' = voter_set n;
  ev_term : term n ≤ term n';
  ev_vote c : term n' = term n → term n' < u64_max → vote n = Some c → vote n' = Some c;
  ev_commit : commit_index n ≤ commit_index n';
  ev_applied : last_applied n ≤ last_applied n';
  ev_log : last_log_index n ≤ last_log_index n';
  ev_tick : logical_tick n ≤ logical_tick n';
  ev_seq : fetch_seq n ≤ fetch_seq n';
  ev_snapshot : snapshot_index n ≤ snapshot_index n';
  ev_peers i : is_voter <$> peers n' !! i = is_voter <$> peers n !! i;
}.

#[export] Instance evolves_refl : Reflexive evolves.
Proof. intros n. by constructor; try lia. Qed.

#[export] Instance evolves_trans : Transitive evolves.
Proof.
  intros n1 n2 n3 H1 H2. destruct H1, H2. constructor; try congruence; try lia.
  intros c Ht Hmax Hv. apply ev_vote1; [lia..|]. apply ev_vote0; [lia..|done].
Qed.

(** The judgement each operation is proved to satisfy. *)
Definition preserves n n' : Prop := node_wf n → node_wf n' ∧ evolves n n'.

Lemma preserves_refl n : preserves n n.
Proof. intros ?; split; [done|reflexivity]. Qed.
Lemma preserves_trans n1 n2 n3 : preserves n1 n2 → preserves n2 n3 → preserves n1 n3.
Proof.
  intros H1 H2 Hwf. destruct (H1 Hwf) as [Hwf2 He]. destruct (H2 Hwf2). split; [done|].
  by etransitivity.
Qed.

(** Close the fieldwise goals of a setter chain. *)
Ltac fields :=
  constructor; cbn in *; intros; unfold snapshot_index, term, vote in *; cbn in *;
  eauto using Timer.reset_wf, sat_add_u64;
  try (unfold u64, sat_add in *; lia); try naive_solver (unfold u64, sat_add in *; lia).

Lemma become_follower_preserves t l n n' acts :
  u64 t → become_follower t l n = (n', acts) → preserves n n'.
Proof using RL.
  intros Ht H Hwf. apply become_follower_fields in H as
    (Hid & Hcf & Hvs & Hp & Hr & Htm & Hv & Hc & Ha & Hl & Hk & Hli & Hlt & Hno & Hsm & Hsf & Hls & Hsq & _ & Htimer & _).
  destruct Hwf. split.
  - constructor; try congruence.
    + rewrite Htm. unfold u64 in *. lia.
    + rewrite Htimer. by apply Timer.reset_wf.
    + rewrite Hr. destruct (decide (role n = Observer)); discriminate 1.
    + rewrite Hr. destruct (decide (role n = Observer)); discriminate 1.
    + rewrite Hr. destruct (decide (role n = Observer)); intros [?|?]; discriminate.
  - constructor; try congruence; try lia.
    + intros c. rewrite Htm, Hv. intros. destruct (decide (term n < t)); [lia|done].
    + unfold snapshot_index. by rewrite Hsm.
Qed.

Lemma advance_and_drain_preserves n n' acts :
  (∀ j p, peers n !! j = Some p → last_fetch_offset p ≤ last_log_index n) →
  advance_and_drain n = (n', acts) → preserves n n'.
Proof.
  intros Hp (c & a & f & -> & Hc & Ha & Hac & _ & Hcl)%advance_and_drain_shape Hwf.
  specialize (Hcl Hp (wf_commit _ Hwf)). destruct Hwf. split; fields.
Qed.

Lemma leader_state_preserves n :
  vote n = Some (id n) → preserves n (leader_state n).
Proof using RL.
  intros Hv Hwf. destruct Hwf. split.
  - constructor; cbn; try done; try by unfold u64, sat_add in *; lia.
    + by apply Timer.reset_wf.
    + intros _ i p. rewrite lookup_fmap. destruct (peers n !! i); [|done].
      intros [= <-]. cbn. lia.
    + intros _. split_and!; [done|by eexists|]. eexists; split; [done|]. lia.
  - constructor; cbn; try done; try lia; [by apply sat_add_le|].
    intros i. rewrite lookup_fmap. by destruct (peers n !! i).
Qed.

Lemma become_leader_preserves n n' acts :
  vote n = Some (id n) → become_leader n = (n', acts) → preserves n n'.
Proof using RL.
  intros Hv. unfold become_leader.
  destruct (advance_and_drain (leader_state n)) as [n1 d] eqn:E. intros [= <- <-].
  eapply preserves_trans; [by apply leader_state_preserves|].
  eapply advance_and_drain_preserves; [|done].
  intros j p. cbn. rewrite lookup_fmap. destruct (peers n !! j); [|done].
  intros [= <-]. cbn. lia.
Qed.

Lemma candidate_state_preserves n : preserves n (candidate_state n).
Proof using RL.
  intros Hwf. destruct Hwf. split.
  - constructor; cbn; try done; try by unfold u64, sat_add in *; lia.
    by apply Timer.reset_wf.
  - constructor; cbn; try done; try lia.
    + by apply sat_add_le.
    + intros c Ht Hmax _. exfalso. revert Ht Hmax wf_term0.
      unfold term, sat_add, u64. cbn. lia.
Qed.

Lemma become_candidate_preserves n n' acts :
  become_candidate n = (n', acts) → preserves n n'.
Proof using RL.
  unfold become_candidate. intros H.
  eapply preserves_trans; [apply candidate_state_preserves|].
  destruct (has_election_quorum _).
  - destruct (become_leader _) as [n1 a] eqn:E. simplify_eq.
    by eapply become_leader_preserves in E.
  - simplify_eq. apply preserves_refl.
Qed.

Lemma pre_candidate_state_preserves n : preserves n (pre_candidate_state n).
Proof using RL.
  intros Hwf. destruct Hwf. split; constructor; cbn; try done; try lia;
    try (intros [?|?]; discriminate).
  by apply Timer.reset_wf.
Qed.

Lemma become_pre_candidate_preserves n n' acts :
  become_pre_candidate n = (n', acts) → preserves n n'.
Proof using RL.
  unfold become_pre_candidate. intros H.
  eapply preserves_trans; [apply pre_candidate_state_preserves|].
  destruct (has_pre_election_quorum _).
  - destruct (become_candidate _) as [n1 a] eqn:E. simplify_eq.
    by eapply become_candidate_preserves.
  - simplify_eq. apply preserves_refl.
Qed.

(** ** Handlers *)

(** Writing only fields outside the invariant preserves it. *)
Lemma frame_preserves n n' :
  id n' = id n → config n' = config n → voter_set n' = voter_set n → role n' = role n →
  hard_state n' = hard_state n → commit_index n' = commit_index n →
  last_applied n' = last_applied n → last_log_index n' = last_log_index n →
  peers n' = peers n → leader_no_op_index n' = leader_no_op_index n →
  leader_started_tick n' = leader_started_tick n → logical_tick n' = logical_tick n →
  fetch_seq n' = fetch_seq n → last_snapshot_meta n' = last_snapshot_meta n →
  (role n = Leader → leader_id n' = leader_id n) →
  (Timer.wf (election_timer n) → Timer.wf (election_timer n')) →
  preserves n n'.
Proof.
  intros Hid Hcf Hvs Hr Hhs Hc Ha Hl Hp Hno Hst Ht Hs Hm Hli Htm Hwf. destruct Hwf. split.
  - constructor; unfold term, vote in *; rewrite ?Hid, ?Hr, ?Hhs, ?Hc, ?Ha, ?Hl, ?Hp, ?Hno, ?Hst, ?Ht, ?Hs; auto.
    intros HL. rewrite Hli by done. auto.
  - constructor; unfold term, vote, snapshot_index in *;
      rewrite ?Hid, ?Hcf, ?Hvs, ?Hhs, ?Hc, ?Ha, ?Hl, ?Hp, ?Ht, ?Hs, ?Hm; auto; lia.
Qed.

Ltac frame := apply frame_preserves; cbn; auto using Timer.reset_wf; try discriminate.

Lemma reset_timer_preserves n : preserves n (reset_timer n).
Proof using RL. frame. Qed.

Lemma adopt_vote_term_preserves t n :
  u64 t → term n < t → preserves n (adopt_vote_term t n).
Proof using RL.
  intros Ht Hlt Hwf. destruct Hwf. split.
  - constructor; cbn; try done; try (intros [?|?]; discriminate). by apply Timer.reset_wf.
  - constructor; cbn; try done; unfold term in *; lia.
Qed.

Lemma set_vote_preserves c n : vote n = None → preserves n (set_vote (Some c) n).
Proof.
  intros Hv Hwf. destruct Hwf. split; constructor; try done.
  - intros Hr. apply wf_vote0 in Hr. congruence.
  - intros c'. congruence.
Qed.

Lemma would_grant_vote req n c :
  would_grant req n = true → vote n = Some c → c = vrq_candidate_id req.
Proof.
  unfold would_grant. intros H Hv. rewrite Hv in H.
  apply andb_true_iff in H as [_ H]. by apply bool_decide_eq_true in H.
Qed.

Lemma handle_vote_request_preserves req n n' acts :
  u64 (vrq_term req) → handle_vote_request req n = (n', acts) → preserves n n'.
Proof using RL.
  intros Hu. unfold handle_vote_request.
  case_decide; [by intros [= <- <-]; apply preserves_refl|].
  case_decide; [by intros [= <- <-]; apply preserves_refl|].
  destruct (negb _); [by intros [= <- <-]; apply preserves_refl|].
  case_decide; [by intros [= <- <-]; apply preserves_refl|].
  set (n1 := if bool_decide _ then adopt_vote_term _ n else n).
  assert (preserves n n1) as Hn1.
  { subst n1. case_bool_decide; [by apply adopt_vote_term_preserves|apply preserves_refl]. }
  set (n2 := if would_grant req n1 && _ then _ else n1).
  assert (preserves n1 n2) as Hn2.
  { subst n2. destruct (would_grant req n1) eqn:Hg; [|apply preserves_refl]. simpl.
    case_bool_decide as Hne; [|apply preserves_refl]. apply set_vote_preserves.
    destruct (vote n1) as [c|] eqn:Hv; [|done]. apply (would_grant_vote _ _ _ Hg) in Hv. congruence. }
  intros [= <- <-]. eapply preserves_trans; [done|]. eapply preserves_trans; [done|].
  destruct (would_grant req n1); [apply reset_timer_preserves|apply preserves_refl].
Qed.

Lemma handle_vote_response_preserves from resp n n' acts :
  u64 (vrs_term resp) → handle_vote_response from resp n = (n', acts) → preserves n n'.
Proof using RL.
  intros Hu. unfold handle_vote_response.
  case_decide; [by intros [= <- <-]; apply preserves_refl|].
  destruct (negb _); [by intros [= <- <-]; apply preserves_refl|].
  case_decide; [by apply become_follower_preserves|].
  case_decide as Hc; [by intros [= <- <-]; apply preserves_refl|].
  destruct (vrs_vote_granted resp); [|by intros [= <- <-]; apply preserves_refl].
  set (n1 := n <| votes_received := _ |>). intros Hres.
  assert (preserves n n1) as Hn1 by frame. eapply preserves_trans; [done|].
  destruct (has_election_quorum n1); [|simplify_eq; apply preserves_refl].
  intros Hwf1. eapply become_leader_preserves; [|done..].
  apply (wf_vote _ Hwf1). left. change (role n = Candidate). destruct (role n); naive_solver.
Qed.

Lemma handle_pre_vote_response_preserves from resp n n' acts :
  u64 (pvs_term resp) → handle_pre_vote_response from resp n = (n', acts) → preserves n n'.
Proof using RL.
  intros Hu. unfold handle_pre_vote_response.
  case_decide; [by intros [= <- <-]; apply preserves_refl|].
  destruct (negb _); [by intros [= <- <-]; apply preserves_refl|].
  case_decide; [by apply become_follower_preserves|].
  case_decide; [by intros [= <- <-]; apply preserves_refl|].
  destruct (pvs_vote_granted resp); [|by intros [= <- <-]; apply preserves_refl].
  set (n1 := n <| pre_votes_received := _ |>). intros Hres.
  assert (preserves n n1) as Hn1 by frame. eapply preserves_trans; [done|].
  destruct (has_pre_election_quorum n1); [|simplify_eq; apply preserves_refl].
  by eapply become_candidate_preserves.
Qed.

Lemma newer_snapshot_index n m :
  is_snapshot_meta_newer (last_snapshot_meta n) m = true → snapshot_index n ≤ last_included_index m.
Proof.
  unfold is_snapshot_meta_newer, snapshot_index. destruct (last_snapshot_meta n); [|lia].
  rewrite bool_decide_eq_true. lia.
Qed.

Lemma set_snapshot_preserves m n :
  is_snapshot_meta_newer (last_snapshot_meta n) m = true →
  preserves n (n <| last_snapshot_meta := Some m |>).
Proof.
  intros Hf%newer_snapshot_index Hwf. destruct Hwf. split; constructor; cbn; try done; lia.
Qed.

Lemma set_in_flight_preserves f n : preserves n (n <| snapshot_in_flight := f |>).
Proof. frame. Qed.

Lemma handle_snapshot_complete_preserves m n n' acts :
  handle_snapshot_complete m n = (n', acts) → preserves n n'.
Proof.
  unfold handle_snapshot_complete.
  destruct (is_snapshot_meta_newer _ m) eqn:Hf; cbn [negb]; intros [<- _]%pair_inv;
    [|apply set_in_flight_preserves].
  eapply preserves_trans; [apply (set_in_flight_preserves false)|].
  by apply (set_snapshot_preserves m (n <| snapshot_in_flight := false |>)).
Qed.

Lemma raise_preserves n a c l t :
  last_applied n ≤ a → a ≤ c → commit_index n ≤ c → c ≤ l → last_log_index n ≤ l → u64 l →
  preserves n (n <| last_applied := a |> <| commit_index := c |> <| last_log_index := l |>
                 <| last_log_term := t |>).
Proof.
  intros ?????? Hwf. destruct Hwf. split; constructor; cbn; try done; try lia.
  - intros HL i p Hp. pose proof (wf_peers0 HL i p Hp). lia.
  - intros HL. destruct (wf_leader0 HL) as (? & ? & k & ? & ?). split_and!; try done.
    exists k. split; [done|lia].
Qed.

(** The raise-only updates of [handle_snapshot_installed], in one equation. *)
Lemma installed_core m n :
  let n1 := if decide (last_applied n < last_included_index m)
            then n <| last_applied := last_included_index m |> else n in
  let n2 := if decide (commit_index n1 < last_included_index m)
            then n1 <| commit_index := last_included_index m |> else n1 in
  (if decide (last_log_index n2 < last_included_index m)
   then set_last_log (last_included_index m) (last_included_term m) n2 else n2) =
  n <| last_applied := N.max (last_applied n) (last_included_index m) |>
    <| commit_index := N.max (commit_index n) (last_included_index m) |>
    <| last_log_index := N.max (last_log_index n) (last_included_index m) |>
    <| last_log_term := if decide (last_log_index n < last_included_index m)
                        then last_included_term m else last_log_term n |>.
Proof.
  destruct n as [? ? ? c a ? ? ? ? ? ? ? ? ? l ? ? ? ? ? ? ? ? ? ?]. simpl.
  destruct (decide (a < last_included_index m)), (decide (c < last_included_index m)),
    (decide (l < last_included_index m)); cbn;
    repeat (case_decide; cbn in *; try lia); unfold set_last_log; cbn; f_equal; lia.
Qed.

Lemma handle_snapshot_installed_preserves m n n' acts :
  u64 (last_included_index m) →
  handle_snapshot_installed m n = (n', acts) → preserves n n'.
Proof.
  intros Hu. unfold handle_snapshot_installed. pose proof (installed_core m n) as Hcore.
  cbv zeta in Hcore. rewrite Hcore. clear Hcore.
  set (n1 := n <| last_applied := _ |> <| commit_index := _ |> <| last_log_index := _ |>
               <| last_log_term := _ |>).
  assert (node_wf n → preserves n n1) as Hn1.
  { intros []. apply raise_preserves; unfold u64 in *; lia. }
  set (n2 := if is_snapshot_meta_newer _ m then _ else n1).
  assert (preserves n1 n2) as Hn2.
  { subst n2. destruct (is_snapshot_meta_newer _ m) eqn:Hf; [by apply set_snapshot_preserves|].
    apply preserves_refl. }
  intros [<- _]%pair_inv Hwf. generalize Hwf. eapply preserves_trans; [by apply Hn1|].
  eapply preserves_trans; [done|]. apply set_in_flight_preserves.
Qed.

(** Updating one peer in place, keeping its voter flag and its bound. *)
Lemma alter_peer_preserves f i n :
  (∀ p, is_voter (f p) = is_voter p) →
  (∀ p, last_fetch_offset p ≤ last_log_index n → last_fetch_offset (f p) ≤ last_log_index n) →
  preserves n (n <| peers := alter f i (peers n) |>).
Proof.
  intros Hf Hb Hwf. destruct Hwf. split; constructor; cbn; try done; try lia.
  - intros HL j p. rewrite lookup_alter_Some.
    intros [(-> & q & Hq & ->)|[_ Hp]]; [|by eapply wf_peers0]. by eapply Hb, wf_peers0.
  - intros j. destruct (decide (i = j)) as [->|Hij].
    + rewrite lookup_alter_eq. destruct (peers n !! j); simpl; [by rewrite Hf|done].
    + by rewrite lookup_alter_ne.
Qed.

Lemma handle_fetch_request_preserves req n n' acts :
  u64 (frq_leader_epoch req) → handle_fetch_request req n = (n', acts) → preserves n n'.
Proof using RL.
  intros Hu. unfold handle_fetch_request.
  case_decide; [by intros [= <- <-]; apply preserves_refl|].
  destruct (is_self _ _); [by intros [= <- <-]; apply preserves_refl|].
  destruct (_ && _); [by intros [= <- <-]; apply preserves_refl|].
  case_decide; [by apply become_follower_preserves|].
  case_decide; [by intros [= <- <-]; apply preserves_refl|].
  case_decide; [by intros [= <- <-]; apply preserves_refl|].
  set (n1 := n <| fetch_seq := _ |>).
  set (n2 := n1 <| peers := _ |>). set (n3 := n2 <| last_leader_contact_tick := _ |>).
  assert (preserves n n3) as Hn3.
  { eapply (preserves_trans _ n1).
    { intros []. split; constructor; cbn; try done; try lia; [apply sat_add_u64|by apply sat_add_le]. }
    eapply (preserves_trans _ n2); [by apply alter_peer_preserves|]. frame. }
  intros Hres. enough (n' = n3) as -> by done.
  destruct (last_snapshot_meta n3); [case_decide|]; by simplify_eq.
Qed.

(** [advance_and_drain] needs only the bound that [node_wf] gives a leader. *)
Lemma leader_advance_preserves n n' acts :
  role n = Leader → advance_and_drain n = (n', acts) → preserves n n'.
Proof.
  intros HL H Hwf. eapply advance_and_drain_preserves; [|done|done]. by apply wf_peers.
Qed.

Lemma handle_fetch_request_acked_preserves r o n n' acts :
  handle_fetch_request_acked r o n = (n', acts) → preserves n n'.
Proof.
  unfold handle_fetch_request_acked.
  case_decide as HL; [by intros [= <- <-]; apply preserves_refl|].
  destruct (_ && _); [by intros [= <- <-]; apply preserves_refl|].
  set (n1 := n <| peers := _ |>). intros Hres. eapply (preserves_trans _ n1).
  - apply alter_peer_preserves; intros p; [repeat case_decide; done|].
    intros Hle. repeat case_decide; cbn in *; lia.
  - eapply leader_advance_preserves; [|done]. change (role n = Leader).
    destruct (role n); naive_solver.
Qed.

Lemma append_one_preserves n t :
  preserves n (n <| last_log_index := sat_add (last_log_index n) 1 |> <| last_log_term := t |>).
Proof.
  intros Hwf. pose proof (sat_add_le (last_log_index n) 1 (wf_log _ Hwf)) as Hle.
  revert Hwf.
  assert (node_wf n → preserves n (n <| last_applied := last_applied n |>
    <| commit_index := commit_index n |> <| last_log_index := sat_add (last_log_index n) 1 |>
    <| last_log_term := t |>)) as Hr.
  { intros []. apply raise_preserves; try lia. apply sat_add_u64. }
  intros Hwf. specialize (Hr Hwf Hwf). by destruct n.
Qed.

Lemma handle_client_propose_preserves cmd n n' acts :
  handle_client_propose cmd n = (n', acts) → preserves n n'.
Proof.
  unfold handle_client_propose.
  case_decide as HL; [by intros [= <- <-]; apply preserves_refl|].
  destruct (advance_and_drain _) as [n1 d] eqn:E. intros [= <- <-].
  eapply preserves_trans; [apply append_one_preserves|].
  eapply leader_advance_preserves; [|done]. change (role n = Leader).
  destruct (role n); naive_solver.
Qed.

(** ** Replication on the follower *)

Lemma windows_ok_last e es :
  windows_ok e es = true → u64 (e_index e) →
  ∀ l, last (e :: es) = Some l → e_index e ≤ e_index l ∧ u64 (e_index l).
Proof.
  revert e. induction es as [|e' es IH]; intros e Hw Hu l; simpl.
  - intros [= <-]. done.
  - intros Hl. simpl in Hw. apply andb_true_iff in Hw as [Hw Hw'].
    apply andb_true_iff in Hw as [Hi%bool_decide_eq_true _].
    destruct (IH e' Hw') with (l := l) as [Hle Hul]; [rewrite Hi; apply sat_add_u64|done|].
    pose proof (sat_add_le (e_index e) 1 Hu). rewrite <-Hi in *. split; [lia|done].
Qed.

Lemma batch_ok_last n es l :
  batch_ok n es = true → u64 (last_log_index n) → last es = Some l →
  last_log_index n ≤ e_index l ∧ u64 (e_index l).
Proof.
  destruct es as [|e es]; [done|]. simpl. intros [Hi%bool_decide_eq_true Hw]%andb_true_iff Hu Hl.
  pose proof (sat_add_le _ 1 Hu).
  destruct (windows_ok_last e es Hw) with (l := l) as [? ?]; [|done|split; [lia|done]].
  rewrite Hi. apply sat_add_u64.
Qed.

Lemma set_commit_preserves c n :
  commit_index n ≤ c → c ≤ last_log_index n → preserves n (n <| commit_index := c |>).
Proof. intros ?? Hwf. destruct Hwf. split; constructor; cbn; try done; lia. Qed.

Lemma drain_preserves n n' acts : drain_apply_pipeline n = (n', acts) → preserves n n'.
Proof.
  intros (f & -> & _)%drain_shape Hwf. destruct Hwf. split; constructor; cbn; try done; lia.
Qed.

Lemma propagate_preserves hw n n' acts :
  propagate_high_watermark hw n = (n', acts) → preserves n n'.
Proof.
  unfold propagate_high_watermark. case_decide; [|by intros [= <- <-]; apply preserves_refl].
  intros H'. eapply preserves_trans; [apply (set_commit_preserves (N.min hw (last_log_index n))); lia|].
  by eapply drain_preserves.
Qed.

Lemma append_batch_preserves n es l t :
  batch_ok n es = true → last es = Some l →
  preserves n (n <| last_log_index := e_index l |> <| last_log_term := t |>).
Proof.
  intros Hb Hl Hwf. destruct (batch_ok_last n es l Hb (wf_log _ Hwf) Hl).
  generalize Hwf. change (preserves n (n <| last_applied := last_applied n |>
    <| commit_index := commit_index n |> <| last_log_index := e_index l |>
    <| last_log_term := t |>)).
  destruct Hwf. apply raise_preserves; try lia; done.
Qed.

Lemma accept_entries_preserves resp n n' acts :
  accept_entries resp n = (n', acts) → preserves n n'.
Proof.
  unfold accept_entries. destruct (last (frs_entries resp)) as [l|] eqn:Hl;
    [|apply propagate_preserves].
  destruct (batch_ok n (frs_entries resp)) eqn:Hb; cbn [negb];
    [|by intros [<- _]%pair_inv; apply preserves_refl].
  destruct (propagate_high_watermark _ _) as [n1 d] eqn:E. intros [<- _]%pair_inv.
  eapply preserves_trans; [by eapply append_batch_preserves|]. by eapply propagate_preserves.
Qed.

Lemma set_fetch_tick_preserves v n : preserves n (n <| last_fetch_tick := v |>).
Proof. frame. Qed.

Lemma process_fetch_payload_preserves resp n n' acts :
  process_fetch_payload resp n = (n', acts) → preserves n n'.
Proof.
  unfold process_fetch_payload. destruct (frs_snapshot_redirect resp);
    [by intros [<- _]%pair_inv; apply set_fetch_tick_preserves|].
  destruct (frs_diverging_epoch resp);
    [by intros [<- _]%pair_inv; apply set_fetch_tick_preserves|].
  apply accept_entries_preserves.
Qed.

Lemma adopt_leader_preserves l n n' acts :
  role n ≠ Leader → adopt_leader l n = (n', acts) → preserves n n'.
Proof using RL.
  unfold adopt_leader. intros Hr H Hwf.
  assert (∀ m a, become_follower (term n) (Some l) n = (m, a) → node_wf m ∧ evolves n m) as Hbf.
  { intros m a Hb. eapply become_follower_preserves; [apply Hwf|done|done]. }
  assert (preserves n (n <| leader_id := Some l |>)) as Hset by (frame; done).
  destruct (role n) eqn:Hr'; try done; try by eapply Hbf.
  all: destruct (leader_id n); apply pair_inv in H as [<- _]; [by apply preserves_refl|by apply Hset].
Qed.

Lemma set_contact_preserves v n : preserves n (n <| last_leader_contact_tick := v |>).
Proof. frame. Qed.

Lemma handle_fetch_response_preserves resp n n' acts :
  u64 (frs_leader_epoch resp) → handle_fetch_response resp n = (n', acts) → preserves n n'.
Proof using RL.
  intros Hu. unfold handle_fetch_response.
  case_decide; [by intros [= <- <-]; apply preserves_refl|].
  destruct (negb _); [by intros [= <- <-]; apply preserves_refl|].
  destruct (negb _); [by intros [= <- <-]; apply preserves_refl|].
  case_decide; [by intros [= <- <-]; apply preserves_refl|].
  set (first := if decide (term n < _) then _ else _).
  assert (∃ n1 a1, first = (n1, a1) ∧ preserves n n1) as (n1 & a1 & -> & Hn1).
  { subst first. case_decide; [|by eexists _, _; split; [done|apply preserves_refl]].
    destruct (become_follower _ _ n) as [n1 a1] eqn:E. eexists _, _; split; [done|].
    by eapply become_follower_preserves. }
  case_decide as HL; [by intros [<- _]%pair_inv|].
  destruct (match leader_id n1 with Some _ => _ | None => _ end); [by intros [<- _]%pair_inv|].
  destruct (adopt_leader _ n1) as [n2 a2] eqn:E2.
  destruct (process_fetch_payload resp _) as [n3 a3] eqn:E3.
  intros [<- _]%pair_inv. eapply preserves_trans; [done|].
  eapply preserves_trans; [by eapply adopt_leader_preserves|].
  eapply preserves_trans; [eapply set_contact_preserves|].
  eapply preserves_trans; [apply reset_timer_preserves|].
  by eapply process_fetch_payload_preserves.
Qed.

(** ** Tick *)

Lemma schedule_fetch_shape n n' acts :
  schedule_fetch n = (n', acts) →
  (∃ v, n' = n <| last_fetch_tick := v |>) ∧
  (∀ a, a ∈ acts → ∃ to req, a = SendMessage to (MsgFetchRequest req)).
Proof using HI MA RA.
  clear RL.
  assert (∃ v, n = n <| last_fetch_tick := v |>) as Hsame
    by (exists (last_fetch_tick n); by destruct n).
  unfold schedule_fetch. case_decide; [|by intros [<- <-]%pair_inv; split; [done|set_solver]].
  destruct (maybe_build_fetch_request n) as [req|];
    [|by intros [<- <-]%pair_inv; split; [done|set_solver]].
  destruct (leader_id n) as [l|].
  { intros [<- <-]%pair_inv. split; [by eexists|]. intros a ->%list_elem_of_singleton. eauto. }
  intros [<- <-]%pair_inv. split; [case_match; [done|by eexists]|].
  intros a ([i p] & -> & _)%list_elem_of_fmap. eauto.
Qed.

Lemma check_quorum_tick_preserves n n' o :
  check_quorum_tick n = (n', o) → preserves n n'.
Proof using RL.
  unfold check_quorum_tick.
  assert (∀ v, preserves n (n <| check_quorum_elapsed_ticks := v |>)) as Hset by (intros v; frame).
  destruct (_ && _); [|by intros [<- _]%pair_inv; apply preserves_refl].
  case_decide; [|by intros [<- _]%pair_inv; apply Hset].
  destruct (check_quorum_reachable _); [by intros [<- _]%pair_inv; apply Hset|].
  destruct (become_follower _ _ _) as [n1 a] eqn:E. intros [<- _]%pair_inv Hwf.
  eapply become_follower_preserves in E; [|apply Hwf].
  generalize Hwf. eapply preserves_trans; [|done]. apply (Hset 0).
Qed.

Lemma ticked_preserves n :
  preserves n (n <| logical_tick := sat_add (logical_tick n) 1 |>
                 <| election_timer := Timer.tick (election_timer n) |>).
Proof.
  intros Hwf. destruct Hwf. split; constructor; cbn; try done; try lia.
  - apply sat_add_u64.
  - by apply sat_add_le.
Qed.

Lemma handle_tick_preserves n n' acts : handle_tick n = (n', acts) → preserves n n'.
Proof using RL.
  unfold handle_tick. set (n0 := n <| logical_tick := _ |> <| election_timer := _ |>).
  destruct (schedule_fetch n0) as [n1 f] eqn:E1.
  destruct (check_quorum_tick n1) as [n2 o] eqn:E2. intros Hres.
  eapply preserves_trans; [apply ticked_preserves|]. fold n0.
  apply schedule_fetch_shape in E1 as [[v ->] _].
  eapply preserves_trans; [apply set_fetch_tick_preserves|].
  eapply preserves_trans; [by eapply check_quorum_tick_preserves|].
  destruct o as [a|]; [apply pair_inv in Hres as [<- _]; apply preserves_refl|].
  destruct (negb _); [apply pair_inv in Hres as [<- _]; apply preserves_refl|].
  destruct (role n2) eqn:Hr.
  all: try (apply pair_inv in Hres as [<- _]; apply preserves_refl).
  all: destruct (become_pre_candidate n2) as [n3 a] eqn:E3; apply pair_inv in Hres as [<- _];
    by eapply become_pre_candidate_preserves.
Qed.

(** ** The whole step *)

(** The [u64] fields of an input that the engine copies into its state. *)
Definition input_u64 (i : Input) : Prop :=
  match i with
  | InVoteRequest r => u64 (vrq_term r)
  | InVoteResponse _ r => u64 (vrs_term r)
  | InPreVoteResponse _ r => u64 (pvs_term r)
  | InFetchRequest r => u64 (frq_leader_epoch r)
  | InFetchResponse r => u64 (frs_leader_epoch r)
  | InSnapshotInstalled m => u64 (last_included_index m)
  | _ => True
  end.

Lemma step_preserves i n n' acts :
  input_u64 i → step i n = (n', acts) → preserves n n'.
Proof using RL.
  destruct i; simpl; intros Hu Hs.
  - by eapply handle_tick_preserves.
  - by eapply handle_vote_request_preserves.
  - by eapply handle_vote_response_preserves.
  - apply pair_inv in Hs as [<- _]. apply preserves_refl.
  - by eapply handle_pre_vote_response_preserves.
  - by eapply handle_fetch_request_preserves.
  - by eapply handle_fetch_response_preserves.
  - by eapply handle_client_propose_preserves.
  - by eapply handle_fetch_request_acked_preserves.
  - by eapply handle_snapshot_complete_preserves.
  - by eapply handle_snapshot_installed_preserves.
  - unfold handle_fetch_snapshot_received in Hs. case_decide; simplify_eq; apply preserves_refl.
Qed.

(** ** Construction *)

Lemma new_inner_wf c r n : new_inner c r = Ok n → node_wf n ∧ id n = node_id c ∧ config n = c.
Proof using RL.
  unfold new_inner. rewrite rbind_Ok. intros (? & _ & H). rewrite rbind_Ok in H.
  destruct H as (vs & _ & H). destruct (next_u64 r) as [s1 r1].
  destruct (Timer.from_config_ms _ _ _ _) as [[t r2]|] eqn:Et; [|done].
  destruct (next_u64 r1) as [s2 r3]. injection H as <-. split; [|done].
  constructor; cbn; try done; try lia; try (case_decide; naive_solver).
  by eapply Timer.new_wf.
Qed.
End Invariant.
