(* ===== verification/Concrete.v ===== *)
(** * Concrete instances and sample nodes

    An instance of each interface of [CoreTypes.v] together with its laws, so
    that every theorem with such hypotheses has a closed witness, and the
    sample configurations and nodes those witnesses run. *)

From S2P Require Import Prelude CoreTypes Message Text Config ElectionTimer RaftNode.

Module Concrete.
(** ** Membership: a voter set is its list of records. *)
Definition c_uuid_to_string (u : string) : string := "u" +:+ u.
Definition c_uuid_parse (s : string) : option string :=
  match s with
  | String a s => if ascii_dec a "u"%char then Some s else None
  | EmptyString => None
  end.
Definition c_voters (vs : list (N * string * list Endpoint)) := vs.
Definition c_ids (vs : list (N * string * list Endpoint)) : list N := (λ v, v.1.1) <$> vs.

#[export] Instance membership : MembershipApi := {
  Uuid := string;
  uuid_to_string := c_uuid_to_string;
  uuid_parse_str := c_uuid_parse;
  uuid_is_nil u := bool_decide (u = "");
  VoterSet := list (N * string * list Endpoint);
  voters := c_voters;
  try_new rs := match rs with [] => None | _ => Some rs end;
  contains vs n := bool_decide (n ∈ c_ids vs);
  unique_node_count vs := length (remove_dups (c_ids vs));
  quorum_size vs := (length (remove_dups (c_ids vs)) / 2 + 1)%nat;
  VoteGrantedSet := gset N;
  vg_new := ∅;
  vg_insert x s := {[x]} ∪ s;
  vg_clear _ := ∅;
  vg_iter s := elements s;
}.

#[export] Instance membership_laws : MembershipLaws membership.
Proof.
  split; simpl; try done.
  - intros vs n. apply bool_decide_eq_true.
  - intros [|r rs] vs; [done|]. by intros [= <-].
  - intros x y s. rewrite !elem_of_elements. set_solver.
  - intros s. apply NoDup_elements.
Qed.

(** ** Randomness and hash iteration *)
#[export] Instance rng : RngApi := {
  Rng := N;
  gen_range lo hi r := (lo + r mod (hi - lo + 1), r + 1);
  next_u64 r := (r, r + 1);
  seed_from_u64 s := s;
}.
#[export] Instance rng_laws : RngLaws rng.
Proof.
  split. simpl. intros lo hi r Hle.
  pose proof (N.mod_lt r (hi - lo + 1) ltac:(lia)) as Hlt. revert Hlt.
  generalize (r mod (hi - lo + 1)). lia.
Qed.
#[export] Instance hash : HashIter := { hash_iter V m := map_to_list m }.
#[export] Instance hash_laws : HashIterLaws hash.
Proof. split. done. Qed.

(** ** [bincode], for any countable type: the bits of its encoding *)
#[export] Instance Endpoint_countable : Countable Endpoint :=
  inj_countable' (λ e, (ep_host e, ep_port e)) (λ p, mkEndpoint p.1 p.2)
    ltac:(by intros []).

Fixpoint pos_bytes (p : positive) : bytes :=
  match p with
  | xH => []
  | xO p => Byte.x00 :: pos_bytes p
  | xI p => Byte.x01 :: pos_bytes p
  end.
Fixpoint bytes_pos (b : bytes) : positive :=
  match b with
  | [] => xH
  | Byte.x00 :: b => xO (bytes_pos b)
  | _ :: b => xI (bytes_pos b)
  end.
Lemma bytes_pos_bytes p : bytes_pos (pos_bytes p) = p.
Proof. induction p as [p IH|p IH|]; simpl; by rewrite ?IH. Qed.

Definition bincode_of (A : Type) `{Countable A} : Bincode A := {|
  bin_ser a := pos_bytes (encode a);
  bin_de b := decode (bytes_pos b);
|}.
Lemma bincode_of_laws (A : Type) `{Countable A} : BincodeLaws A (bincode_of A).
Proof. split. intros a. simpl. rewrite bytes_pos_bytes. apply decode_encode. Qed.

#[export] Instance voter_set_bincode : Bincode (@VoterSet membership) :=
  bincode_of (list (N * string * list Endpoint)).
#[export] Instance voter_set_bincode_laws : BincodeLaws _ voter_set_bincode :=
  bincode_of_laws _.

(** ** Sample configurations *)
Definition voter (i : N) (dir : string) (port : N) : VoterConfig :=
  mkVoterConfig i ("u" +:+ dir) "host" port.

Definition base (self : N) (vs : list VoterConfig) (obs : list N) : ClusterConfig :=
  mkClusterConfig self "c" "host:4999" [] vs 150 300 50 10 10000 100000 "data" 3
    false None None None None 5000 30000 3 100 5000 1024 obs true true None.

Definition three : list VoterConfig := [voter 1 "a" 5001; voter 2 "b" 5002; voter 3 "c" 5003].
(** Two directories of node 1, and node 2: three records, two voters. *)
Definition two_dirs : list VoterConfig := [voter 1 "a" 5001; voter 1 "b" 5002; voter 2 "c" 5003].

Definition fallback : RaftNode :=
  mkRaftNode membership rng 0 Follower (mkHardState 0 None 0) 0 0
    (mkElectionTimer 0 1 1 1) vg_new vg_new ∅ None (base 0 [] []) None None 0 0 0 None None None
    false None 0 1 0 0.
Definition boot (c : ClusterConfig) : RaftNode :=
  match new_with_seed c 7 with Ok n => n | Err _ => fallback end.

Definition voters_of (n : RaftNode) : @VoterSet membership :=
  match voter_set n with Some vs => vs | None => ([] : list (N * string * list Endpoint)) end.

Definition node1 : RaftNode := boot (base 1 three []).
Definition node2 : RaftNode := boot (base 2 three []).
Definition node3 : RaftNode := boot (base 3 three []).
Definition observer : RaftNode := boot (base 9 three [9]).
Definition solo : RaftNode := boot (base 1 [voter 1 "a" 5001] []).

(** Run a sequence of inputs, concatenating the actions. *)
Fixpoint run (n : RaftNode) (ins : list Input) : RaftNode * list Action :=
  match ins with
  | [] => (n, [])
  | i :: ins => let '(n1, a1) := step i n in let '(n2, a2) := run n1 ins in (n2, a1 ++ a2)
  end.

(** [node1] elected in term 1 by [node2]. *)
Definition grant (t : N) : VoteResponse := mkVoteResponse "c" 0 t true None.
Definition cand1 : RaftNode := (become_candidate node1).1.
Definition lead1 : RaftNode := (run cand1 [InVoteResponse 2 (grant 1)]).1.

Example node1_boots : new_with_seed (base 1 three []) 7 = Ok node1 ∧ id node1 = 1 ∧ role node1 = Follower.
Proof. by vm_compute. Qed.
Example lead1_elected : role lead1 = Leader ∧ term lead1 = 1 ∧ last_log_index lead1 = 1.
Proof. by vm_compute. Qed.
End Concrete.
