(* ===== verification/NodeSafety.v ===== *)
(** * Safety of one node

    Properties of [step] and of whole runs: the invariant, monotonicity, one
    vote per term, persistence before promises, the vote-grant rule, the
    restriction of observers, and the quorum behind every leadership. *)

From S2P Require Import Prelude CoreTypes Message Text Config ElectionTimer RaftNode NodeFacts NodeInvariant Concrete.

(** [a] may be emitted before the hard state is persisted: it carries no vote
    and no log entry. *)
Definition preliminary {MA : MembershipApi} (a : Action) : Prop :=
  match a with
  | SendMessage _ (MsgFetchRequest _) | SendMessage _ (MsgPreVoteRequest _) => True
  | _ => False
  end.

(** The actions an observer must never emit. *)
Definition electoral {MA : MembershipApi} (a : Action) : Prop :=
  match a with
  | SendMessage _ (MsgVoteRequest _) | SendMessage _ (MsgVoteResponse _)
  | SendMessage _ (MsgPreVoteRequest _) | SendMessage _ (MsgPreVoteResponse _)
  | BecomeLeader => True
  | _ => False
  end.

Section Safety.
Context {MA : MembershipApi} {RA : RngApi} {HI : HashIter} {RL : RngLaws RA}.
Implicit Types n : RaftNode.

(** One step on an input whose scalars fit a [u64], and runs of them. *)
Definition estep n n' : Prop := ∃ i acts, input_u64 i ∧ step i n = (n', acts).

Lemma rtc_estep_preserves n n' : rtc estep n n' → preserves n n'.
Proof using RL.
  induction 1 as [|n1 n2 n3 (i & a & Hu & Hs) _ IH]; [apply preserves_refl|].
  eapply preserves_trans; [by eapply step_preserves|done].
Qed.

(** C2: Every state an engine can reach, from construction and through any
    sequence of inputs, is well formed: applied <= committed <= last log index,
    the timer target is inside its bounds, a leader knows itself as leader
    and has a no-op in its log, a candidate has voted for itself, and every
    scalar fits its machine word. *)
Theorem reachable_wf c seed n n' :
  new_with_seed c seed = Ok n → rtc estep n n' → node_wf n'.
Proof using RL.
  intros [Hwf _]%new_inner_wf Hr. by destruct (rtc_estep_preserves _ _ Hr Hwf).
Qed.

(** Along any run the term, the commit index, the applied index, the log
    tail, the snapshot index, the clock and the fetch counter never decrease, and the
    node's identity, configuration, voter set and peer membership never change. *)
Theorem run_monotone n n' :
  node_wf n → rtc estep n n' →
  term n ≤ term n' ∧ commit_index n ≤ commit_index n' ∧ last_applied n ≤ last_applied n' ∧
  last_log_index n ≤ last_log_index n' ∧ snapshot_index n ≤ snapshot_index n' ∧ logical_tick n ≤ logical_tick n' ∧
  fetch_seq n ≤ fetch_seq n' ∧
  id n' = id n ∧ config n' = config n ∧ voter_set n' = voter_set n ∧
  (∀ i, is_voter <$> peers n' !! i = is_voter <$> peers n !! i).
Proof using RL.
  intros Hwf Hr. destruct (rtc_estep_preserves _ _ Hr Hwf) as [_ []]. by split_and!.
Qed.

(** A vote is never changed within its term: along any run, as long as
    the term is the same (and is not the saturated [u64::MAX]), a vote cast
    stays cast for the same candidate. *)
Theorem vote_once_per_term n n' c :
  node_wf n → rtc estep n n' → term n' = term n → term n < u64_max →
  vote n = Some c → vote n' = Some c.
Proof using RL.
  intros Hwf Hr Ht Hm. destruct (rtc_estep_preserves _ _ Hr Hwf) as [_ []].
  apply ev_vote; lia.
Qed.

(** ** Persist before promise *)

(** The hard state is unchanged, or its persistence comes first. *)
Definition persisted n n' (acts : list Action) : Prop :=
  hard_state n' = hard_state n ∨
  ∃ pre post, acts = pre ++ PersistHardState :: post ∧ Forall preliminary pre.

Lemma persisted_same n n' acts : hard_state n' = hard_state n → persisted n n' acts.
Proof. by left. Qed.
Lemma persisted_head n n' acts : persisted n n' (PersistHardState :: acts).
Proof. right. by exists [], acts. Qed.
Lemma persisted_app n n' pre acts :
  Forall preliminary pre → persisted n n' acts → persisted n n' (pre ++ acts).
Proof.
  intros Hp [?|(p & q & -> & Hq)]; [by left|]. right. exists (pre ++ p), q.
  split; [by rewrite <-(assoc_L (++))|by apply Forall_app].
Qed.
Lemma persisted_trans n n1 n' a1 a2 :
  persisted n n1 a1 → hard_state n' = hard_state n1 → persisted n n' (a1 ++ a2).
Proof.
  intros [H|(p & q & -> & Hq)] H'; [left; congruence|]. right. exists p, (q ++ a2).
  by rewrite <-(assoc_L (++)).
Qed.

Lemma advance_and_drain_hard n n' acts :
  advance_and_drain n = (n', acts) → hard_state n' = hard_state n ∧ role n' = role n.
Proof. by intros (c & a & f & -> & _)%advance_and_drain_shape. Qed.

Lemma become_leader_hard n n' acts :
  become_leader n = (n', acts) → hard_state n' = hard_state n ∧ role n' = Leader.
Proof.
  unfold become_leader. destruct (advance_and_drain (leader_state n)) as [n1 d] eqn:E.
  intros [<- _]%pair_inv. by apply advance_and_drain_hard in E.
Qed.

Lemma become_follower_persisted t l n n' acts :
  become_follower t l n = (n', acts) → persisted n n' acts.
Proof.
  unfold become_follower. case_decide; intros [<- <-]%pair_inv;
    [apply persisted_head|by apply persisted_same].
Qed.

Lemma become_follower_same l n n' acts :
  become_follower (term n) l n = (n', acts) → hard_state n' = hard_state n.
Proof.
  unfold become_follower. rewrite decide_False by lia. by intros [<- _]%pair_inv.
Qed.

Lemma become_candidate_persisted n n' acts :
  become_candidate n = (n', acts) → persisted n n' acts.
Proof.
  unfold become_candidate.
  destruct (if has_election_quorum _ then _ else _) as [n1 led].
  intros [<- <-]%pair_inv. apply persisted_head.
Qed.

Lemma broadcast_preliminary n req : Forall preliminary (broadcast n (MsgPreVoteRequest req)).
Proof. apply Forall_forall. intros a ([i p] & -> & _)%list_elem_of_fmap. done. Qed.

Lemma become_pre_candidate_persisted n n' acts :
  become_pre_candidate n = (n', acts) → persisted n n' acts.
Proof.
  unfold become_pre_candidate.
  destruct (has_pre_election_quorum _).
  - destruct (become_candidate _) as [n1 a] eqn:E. intros [<- <-]%pair_inv.
    apply persisted_app; [apply broadcast_preliminary|].
    by apply become_candidate_persisted in E as [E|E]; [left|right].
  - intros [<- <-]%pair_inv. by apply persisted_same.
Qed.

Lemma propagate_hard hw n n' acts :
  propagate_high_watermark hw n = (n', acts) → hard_state n' = hard_state n.
Proof.
  unfold propagate_high_watermark. case_decide; [|by intros [<- _]%pair_inv].
  by intros (f & -> & _)%drain_shape.
Qed.

Lemma process_fetch_payload_hard resp n n' acts :
  process_fetch_payload resp n = (n', acts) → hard_state n' = hard_state n.
Proof.
  unfold process_fetch_payload, accept_entries.
  destruct (frs_snapshot_redirect resp); [by intros [<- _]%pair_inv|].
  destruct (frs_diverging_epoch resp); [by intros [<- _]%pair_inv|].
  destruct (last _); [|apply propagate_hard].
  destruct (negb _); [by intros [<- _]%pair_inv|].
  destruct (propagate_high_watermark _ _) as [n1 d] eqn:E. intros [<- _]%pair_inv.
  by apply propagate_hard in E.
Qed.

Lemma adopt_leader_hard l n n' acts :
  adopt_leader l n = (n', acts) → hard_state n' = hard_state n.
Proof.
  unfold adopt_leader.
  destruct (role n); try apply become_follower_same;
    destruct (leader_id n); by intros [<- _]%pair_inv.
Qed.

Lemma handle_fetch_response_persisted resp n n' acts :
  handle_fetch_response resp n = (n', acts) → persisted n n' acts.
Proof.
  unfold handle_fetch_response.
  case_decide; [by intros [<- <-]%pair_inv; apply persisted_same|].
  destruct (negb _); [by intros [<- <-]%pair_inv; apply persisted_same|].
  destruct (negb _); [by intros [<- <-]%pair_inv; apply persisted_same|].
  case_decide; [by intros [<- <-]%pair_inv; apply persisted_same|].
  case_decide as Hlt.
  - destruct (become_follower _ _ n) as [n1 a1] eqn:E1.
    pose proof (become_follower_persisted _ _ _ _ _ E1) as Hp.
    apply become_follower_fields in E1 as
      (_ & _ & _ & _ & Hr & _ & _ & _ & _ & Hl & _ ).
    rewrite decide_False by (rewrite Hr; case_decide; discriminate).
    rewrite Hl, bool_decide_false by naive_solver.
    destruct (adopt_leader _ n1) as [n2 a2] eqn:E2.
    destruct (process_fetch_payload resp _) as [n3 a3] eqn:E3.
    intros [<- <-]%pair_inv. eapply persisted_trans; [done|].
    apply process_fetch_payload_hard in E3. rewrite E3. by apply adopt_leader_hard in E2.
  - case_decide; [by intros [<- <-]%pair_inv; apply persisted_same|].
    destruct (match leader_id n with Some _ => _ | None => _ end);
      [by intros [<- <-]%pair_inv; apply persisted_same|].
    destruct (adopt_leader _ n) as [n2 a2] eqn:E2.
    destruct (process_fetch_payload resp _) as [n3 a3] eqn:E3.
    intros [<- <-]%pair_inv. apply persisted_same.
    apply process_fetch_payload_hard in E3. rewrite E3. by apply adopt_leader_hard in E2.
Qed.

Lemma handle_vote_request_persisted req n n' acts :
  handle_vote_request req n = (n', acts) → persisted n n' acts.
Proof.
  unfold handle_vote_request.
  case_decide; [by intros [<- <-]%pair_inv; apply persisted_same|].
  case_decide; [by intros [<- <-]%pair_inv; apply persisted_same|].
  destruct (negb _); [by intros [<- <-]%pair_inv; apply persisted_same|].
  case_decide; [by intros [<- <-]%pair_inv; apply persisted_same|].
  set (n1 := if bool_decide _ then adopt_vote_term _ n else n).
  set (newly := would_grant req n1 && _).
  intros [<- <-]%pair_inv. destruct (_ || newly) eqn:Ho; [apply persisted_head|].
  apply orb_false_iff in Ho as [Hh Hn]. apply persisted_same. rewrite Hn. subst n1.
  rewrite Hh. by destruct (would_grant req n).
Qed.

Lemma handle_vote_response_persisted from resp n n' acts :
  handle_vote_response from resp n = (n', acts) → persisted n n' acts.
Proof.
  unfold handle_vote_response.
  case_decide; [by intros [<- <-]%pair_inv; apply persisted_same|].
  destruct (negb _); [by intros [<- <-]%pair_inv; apply persisted_same|].
  case_decide; [by apply become_follower_persisted|].
  case_decide; [by intros [<- <-]%pair_inv; apply persisted_same|].
  destruct (vrs_vote_granted resp); [|by intros [<- <-]%pair_inv; apply persisted_same].
  destruct (has_election_quorum _); [|by intros [<- <-]%pair_inv; apply persisted_same].
  intros [Hh _]%become_leader_hard. by apply persisted_same.
Qed.

Lemma handle_pre_vote_response_persisted from resp n n' acts :
  handle_pre_vote_response from resp n = (n', acts) → persisted n n' acts.
Proof.
  unfold handle_pre_vote_response.
  case_decide; [by intros [<- <-]%pair_inv; apply persisted_same|].
  destruct (negb _); [by intros [<- <-]%pair_inv; apply persisted_same|].
  case_decide; [by apply become_follower_persisted|].
  case_decide; [by intros [<- <-]%pair_inv; apply persisted_same|].
  destruct (pvs_vote_granted resp); [|by intros [<- <-]%pair_inv; apply persisted_same].
  destruct (has_pre_election_quorum _); [|by intros [<- <-]%pair_inv; apply persisted_same].
  intros [Hh|Hh]%become_candidate_persisted; [by left|by right].
Qed.

Lemma handle_fetch_request_persisted req n n' acts :
  handle_fetch_request req n = (n', acts) → persisted n n' acts.
Proof.
  unfold handle_fetch_request.
  case_decide; [by intros [<- <-]%pair_inv; apply persisted_same|].
  destruct (is_self _ _); [by intros [<- <-]%pair_inv; apply persisted_same|].
  destruct (_ && _); [by intros [<- <-]%pair_inv; apply persisted_same|].
  case_decide; [by apply become_follower_persisted|].
  case_decide; [by intros [<- <-]%pair_inv; apply persisted_same|].
  case_decide; [by intros [<- <-]%pair_inv; apply persisted_same|].
  intros H'. apply persisted_same.
  destruct (last_snapshot_meta _); [case_decide|]; by apply pair_inv in H' as [<- _].
Qed.

(** Handlers that never touch the hard state. *)
Lemma handle_fetch_request_acked_hard r o n n' acts :
  handle_fetch_request_acked r o n = (n', acts) → hard_state n' = hard_state n.
Proof.
  unfold handle_fetch_request_acked. case_decide; [by intros [<- _]%pair_inv|].
  destruct (_ && _); [by intros [<- _]%pair_inv|]. by intros [-> _]%advance_and_drain_hard.
Qed.
Lemma handle_client_propose_hard cmd n n' acts :
  handle_client_propose cmd n = (n', acts) → hard_state n' = hard_state n.
Proof.
  unfold handle_client_propose. case_decide; [by intros [<- _]%pair_inv|].
  destruct (advance_and_drain _) as [n1 d] eqn:E. intros [<- _]%pair_inv.
  by apply advance_and_drain_hard in E as [-> _].
Qed.
Lemma handle_snapshot_complete_hard m n n' acts :
  handle_snapshot_complete m n = (n', acts) → hard_state n' = hard_state n.
Proof.
  unfold handle_snapshot_complete. destruct (is_snapshot_meta_newer _ m);
    by intros [<- _]%pair_inv.
Qed.
Lemma handle_snapshot_installed_hard m n n' acts :
  handle_snapshot_installed m n = (n', acts) → hard_state n' = hard_state n.
Proof.
  unfold handle_snapshot_installed. pose proof (installed_core m n) as Hcore.
  cbv zeta in Hcore. rewrite Hcore. intros [<- _]%pair_inv.
  by destruct (is_snapshot_meta_newer _ m).
Qed.

Lemma check_quorum_tick_persisted n n' o :
  check_quorum_tick n = (n', o) → hard_state n' = hard_state n.
Proof.
  unfold check_quorum_tick. destruct (_ && _); [|by intros [<- _]%pair_inv].
  case_decide; [|by intros [<- _]%pair_inv].
  destruct (check_quorum_reachable _); [by intros [<- _]%pair_inv|].
  destruct (become_follower _ _ _) as [n1 a] eqn:E. intros [<- _]%pair_inv.
  by apply become_follower_same in E.
Qed.

Lemma schedule_fetch_preliminary n n' acts :
  schedule_fetch n = (n', acts) → hard_state n' = hard_state n ∧ Forall preliminary acts.
Proof.
  intros [[v ->] Ha]%schedule_fetch_shape. split; [done|].
  apply Forall_forall. intros a Hin. by destruct (Ha a Hin) as (to & req & ->).
Qed.

Lemma handle_tick_persisted n n' acts : handle_tick n = (n', acts) → persisted n n' acts.
Proof.
  unfold handle_tick. set (n0 := n <| logical_tick := _ |> <| election_timer := _ |>).
  destruct (schedule_fetch n0) as [n1 f] eqn:E1.
  destruct (check_quorum_tick n1) as [n2 o] eqn:E2.
  apply schedule_fetch_preliminary in E1 as [Hh1 Hf].
  apply check_quorum_tick_persisted in E2. rewrite Hh1 in E2.
  change (hard_state n0) with (hard_state n) in E2. intros Hres.
  destruct o as [a|]; [apply pair_inv in Hres as [<- _]; by apply persisted_same|].
  destruct (negb _); [apply pair_inv in Hres as [<- _]; by apply persisted_same|].
  destruct (role n2).
  all: try (apply pair_inv in Hres as [<- _]; by apply persisted_same).
  all: destruct (become_pre_candidate n2) as [n3 a] eqn:E3; apply pair_inv in Hres as [<- <-];
    apply become_pre_candidate_persisted in E3; (apply persisted_app; [done|]);
    destruct E3 as [E3|E3]; [left; congruence|by right].
Qed.

Lemma step_persisted i n n' acts : step i n = (n', acts) → persisted n n' acts.
Proof using HI MA RA.
  intros Hs.
  destruct i; simpl in Hs.
  - by apply handle_tick_persisted.
  - by eapply handle_vote_request_persisted.
  - by eapply handle_vote_response_persisted.
  - apply persisted_same. by apply pair_inv in Hs as [-> _].
  - by eapply handle_pre_vote_response_persisted.
  - by eapply handle_fetch_request_persisted.
  - by eapply handle_fetch_response_persisted.
  - apply persisted_same. by apply handle_client_propose_hard in Hs.
  - apply persisted_same. by apply handle_fetch_request_acked_hard in Hs.
  - apply persisted_same. by apply handle_snapshot_complete_hard in Hs.
  - apply persisted_same. by apply handle_snapshot_installed_hard in Hs.
  - unfold handle_fetch_snapshot_received in Hs.
    case_decide; apply persisted_same; by apply pair_inv in Hs as [-> _].
Qed.

(** C22: Promises follow persistence: when a step changes the term or the
    vote, its action list asks for [PersistHardState] before every action
    except fetch and pre-vote requests, so no vote, no vote request, no
    leadership and no log entry of the new term leaves the node unpersisted. *)
Theorem persist_before_promise i n n' acts :
  step i n = (n', acts) → hard_state n' ≠ hard_state n →
  ∃ pre post, acts = pre ++ PersistHardState :: post ∧ Forall preliminary pre.
Proof using HI MA RA. intros Hs Hne. by destruct (step_persisted _ _ _ _ Hs). Qed.

(** ** Granting votes *)

(** The dropped requests, the stale ones, and the ones that are judged. *)
Lemma handle_vote_request_shape req n n' acts :
  handle_vote_request req n = (n', acts) →
  (acts = [] ∧ n' = n ∧
   ¬ (vrq_cluster_id req = cluster_id (config n) ∧ role n ≠ Observer ∧
      is_known_voter n (vrq_candidate_id req) = true)) ∨
  (vrq_cluster_id req = cluster_id (config n) ∧ role n ≠ Observer ∧
   is_known_voter n (vrq_candidate_id req) = true ∧
   ((vrq_term req < term n ∧ n' = n ∧
     acts = [SendMessage (vrq_candidate_id req) (MsgVoteResponse (build_vote_response n false))]) ∨
    (term n ≤ vrq_term req ∧
     ∃ n1 g pre, n1 = (if decide (term n < vrq_term req) then adopt_vote_term (vrq_term req) n else n) ∧
       g = would_grant req n1 ∧ term n' = vrq_term req ∧
       vote n' = (if g then Some (vrq_candidate_id req) else vote n1) ∧
       role n' = role n1 ∧ id n' = id n ∧ voter_set n' = voter_set n ∧ config n' = config n ∧
       votes_received n' = votes_received n1 ∧
       Forall (λ a, a = PersistHardState ∨ a = StepDown) pre ∧
       acts = pre ++ [SendMessage (vrq_candidate_id req)
                        (MsgVoteResponse (build_vote_response n' g))]))).
Proof.
  unfold handle_vote_request.
  case_decide; [intros [<- <-]%pair_inv; left; naive_solver|].
  case_decide; [intros [<- <-]%pair_inv; left; naive_solver|].
  destruct (is_known_voter n _); cbn [negb]; [|intros [<- <-]%pair_inv; left; naive_solver].
  intros H'. right. split; [assumption|]. split; [assumption|]. split; [reflexivity|]. revert H'.
  case_decide; [intros [<- <-]%pair_inv; by left|]. intros H'. right. split; [lia|].
  rewrite decide_bool_decide.
  set (n1 := if bool_decide _ then _ else n) in *.
  exists n1, (would_grant req n1).
  assert (term n1 = vrq_term req) as Ht1.
  { subst n1. case_bool_decide; [done|unfold term in *; lia]. }
  assert (id n1 = id n ∧ voter_set n1 = voter_set n ∧ config n1 = config n) as (Hi & Hv & Hc).
  { subst n1. by case_bool_decide. }
  set (newly := would_grant req n1 && bool_decide (vote n1 ≠ Some (vrq_candidate_id req))) in *.
  rewrite (assoc_L (++)) in H'.
  eexists ((if _ || newly then [PersistHardState] else []) ++ (if _ && _ then [StepDown] else [])).
  apply pair_inv in H' as [Hn' <-].
  assert (n' = (if would_grant req n1 then reset_timer else λ m, m)
                 (if newly then set_vote (Some (vrq_candidate_id req)) n1 else n1)) as ->.
  { by destruct (would_grant req n1). }
  clear Hn'. assert (would_grant req n1 = true → vote (if newly then
    set_vote (Some (vrq_candidate_id req)) n1 else n1) = Some (vrq_candidate_id req)) as Hvt.
  { subst newly. intros ->. simpl. by case_bool_decide. }
  assert (would_grant req n1 = false → newly = false) as Hnn by (by subst newly; intros ->).
  destruct (would_grant req n1).
  - split_and!; try reflexivity; try apply Forall_app; auto using Forall_if; by destruct newly.
  - rewrite Hnn by done. split_and!; try done. apply Forall_app; auto using Forall_if.
Qed.

Lemma no_grant_in pre to r :
  Forall (λ a, a = PersistHardState ∨ a = StepDown) pre →
  SendMessage to (MsgVoteResponse r) ∉ pre.
Proof. rewrite Forall_forall. intros Hp Hin. by destruct (Hp _ Hin). Qed.

(** Raft's up-to-date order, lexicographic in (last term, last index). *)
Lemma up_to_date_spec n idx t :
  candidate_log_is_up_to_date n idx t = true ↔
  last_log_term n < t ∨ (last_log_term n = t ∧ last_log_index n ≤ idx).
Proof.
  unfold candidate_log_is_up_to_date.
  repeat case_decide; rewrite ?bool_decide_eq_true; split; naive_solver lia.
Qed.

Lemma would_grant_true req n :
  would_grant req n = true ↔
  (last_log_term n < vrq_last_log_term req ∨
   last_log_term n = vrq_last_log_term req ∧ last_log_index n ≤ vrq_last_log_index req) ∧
  (vote n = None ∨ vote n = Some (vrq_candidate_id req)).
Proof.
  unfold would_grant. rewrite andb_true_iff, up_to_date_spec.
  destruct (vote n) as [c|]; [rewrite bool_decide_eq_true|]; naive_solver.
Qed.

(** C35: A vote is granted exactly when the request is for this cluster, comes
    from a known voter and is not stale, the receiver is not an observer, the
    candidate's log is at least as up to date (Raft's lexicographic order on
    last term and index), and in its term the receiver has not voted for
    anyone else. *)
Theorem vote_granted_iff req n n' acts :
  handle_vote_request req n = (n', acts) →
  (∃ to r, SendMessage to (MsgVoteResponse r) ∈ acts ∧ vrs_vote_granted r = true) ↔
  vrq_cluster_id req = cluster_id (config n) ∧ role n ≠ Observer ∧
  is_known_voter n (vrq_candidate_id req) = true ∧ term n ≤ vrq_term req ∧
  (last_log_term n < vrq_last_log_term req ∨
   last_log_term n = vrq_last_log_term req ∧ last_log_index n ≤ vrq_last_log_index req) ∧
  (term n < vrq_term req ∨ vote n = None ∨ vote n = Some (vrq_candidate_id req)).
Proof.
  intros [(-> & _ & Hno)|(Hc & Hr & Hk & [(Hlt & _ & ->)|(Hle & n1 & g & pre & Hn1 & -> & _ & _ & _ & _ & _ & _ & _ & Hpre & ->)])]%handle_vote_request_shape.
  - split; [|naive_solver]. intros (to & r & Hin & _). by apply not_elem_of_nil in Hin.
  - split; [|lia]. intros (to & r & [= -> ->]%list_elem_of_singleton & Hg). done.
  - assert (would_grant req n1 = true ↔
      (last_log_term n < vrq_last_log_term req ∨
       last_log_term n = vrq_last_log_term req ∧ last_log_index n ≤ vrq_last_log_index req) ∧
      (term n < vrq_term req ∨ vote n = None ∨ vote n = Some (vrq_candidate_id req))) as Hg.
    { rewrite would_grant_true. subst n1. case_decide; cbn; naive_solver. }
    rewrite <-Hg. split.
    + intros (to & r & [Hin|[= -> ->]%list_elem_of_singleton]%elem_of_app & Hgr); [|naive_solver].
      by eapply no_grant_in in Hin.
    + intros Hgr. do 2 eexists. split; [apply elem_of_app; right; by apply list_elem_of_singleton|].
      naive_solver.
Qed.

(** ** Observers *)

Definition passive (a : Action) : Prop := ¬ electoral a.

Lemma quiet_passive acts : Forall quiet acts → Forall passive acts.
Proof. intros Hq. eapply Forall_impl; [exact Hq|].
  intros []; try done; intros _ []. Qed.

Lemma become_follower_passive t l n n' acts :
  become_follower t l n = (n', acts) → Forall passive acts.
Proof.
  unfold become_follower. case_decide; intros [_ <-]%pair_inv;
    destruct (stepping_down _); repeat constructor; intros [].
Qed.

Lemma propagate_passive hw n n' acts :
  propagate_high_watermark hw n = (n', acts) → role n' = role n ∧ Forall passive acts.
Proof.
  unfold propagate_high_watermark. case_decide; [|intros [<- <-]%pair_inv; by split].
  intros H'. split; [by apply drain_shape in H' as (f & -> & _)|].
  by eapply quiet_passive, drain_quiet.
Qed.

Lemma process_fetch_payload_passive resp n n' acts :
  process_fetch_payload resp n = (n', acts) → role n' = role n ∧ Forall passive acts.
Proof.
  unfold process_fetch_payload, accept_entries.
  destruct (frs_snapshot_redirect resp);
    [intros [<- <-]%pair_inv; split; [done|repeat constructor; by intros []]|].
  destruct (frs_diverging_epoch resp);
    [intros [<- <-]%pair_inv; split; [done|repeat constructor; by intros []]|].
  destruct (last _); [|apply propagate_passive].
  destruct (negb _); [intros [<- <-]%pair_inv; by split|].
  destruct (propagate_high_watermark _ _) as [n1 d] eqn:E. intros [<- <-]%pair_inv.
  apply propagate_passive in E as [Hr Hp]. split; [done|]. constructor; [by intros []|done].
Qed.

Definition observes n n' (acts : list Action) : Prop := role n' = Observer ∧ Forall passive acts.

Lemma observes_refl n : role n = Observer → observes n n [].
Proof. by split. Qed.

Lemma become_follower_observes t l n n' acts :
  role n = Observer → become_follower t l n = (n', acts) → observes n n' acts.
Proof.
  intros Hr H'. split; [|by eapply become_follower_passive].
  apply become_follower_fields in H' as (_ & _ & _ & _ & -> & _). by rewrite decide_True.
Qed.

Lemma handle_fetch_response_observes resp n n' acts :
  role n = Observer → handle_fetch_response resp n = (n', acts) → observes n n' acts.
Proof.
  intros Hr. unfold handle_fetch_response.
  case_decide; [by intros [<- <-]%pair_inv|].
  destruct (negb _); [by intros [<- <-]%pair_inv|].
  destruct (negb _); [by intros [<- <-]%pair_inv|].
  case_decide; [by intros [<- <-]%pair_inv|].
  set (first := if decide (term n < _) then _ else _).
  assert (∃ n1 a1, first = (n1, a1) ∧ observes n n1 a1) as (n1 & a1 & -> & Hr1 & Hp1).
  { subst first. case_decide; [|by eexists _, _].
    destruct (become_follower _ _ n) as [n1 a1] eqn:E. eexists _, _; split; [done|].
    by eapply become_follower_observes. }
  rewrite decide_False by congruence.
  destruct (match leader_id n1 with Some _ => _ | None => _ end); [by intros [<- <-]%pair_inv|].
  destruct (adopt_leader _ n1) as [n2 a2] eqn:E2.
  destruct (process_fetch_payload resp _) as [n3 a3] eqn:E3. intros [<- <-]%pair_inv.
  apply process_fetch_payload_passive in E3 as [Hr3 Hp3].
  unfold adopt_leader in E2. rewrite Hr1 in E2.
  assert (role n2 = Observer ∧ a2 = []) as [Hr2 ->]
    by (destruct (leader_id n1); by apply pair_inv in E2 as [<- <-]).
  split; [by rewrite Hr3|]. by apply Forall_app.
Qed.

Lemma handle_tick_observes n n' acts :
  role n = Observer → handle_tick n = (n', acts) → observes n n' acts.
Proof.
  intros Hr. unfold handle_tick. set (n0 := n <| logical_tick := _ |> <| election_timer := _ |>).
  destruct (schedule_fetch n0) as [n1 f] eqn:E1.
  apply schedule_fetch_shape in E1 as [[v ->] Hf].
  unfold check_quorum_tick. rewrite bool_decide_false by (simpl; congruence). cbn [andb].
  assert (Forall passive f) as Hp.
  { apply Forall_forall. intros a Ha. destruct (Hf a Ha) as (to & req & ->). by intros []. }
  change (role (n0 <| last_fetch_tick := v |>)) with (role n). rewrite Hr.
  destruct (negb _); intros [<- <-]%pair_inv; by split.
Qed.

(** An observer stays an observer whatever it receives, and no step of
    it emits a vote, a pre-vote, a request for either, or a leadership. *)
Theorem observer_never_electoral i n n' acts :
  role n = Observer → step i n = (n', acts) →
  role n' = Observer ∧ (∀ a, a ∈ acts → ¬ electoral a).
Proof using HI MA RA.
  intros Hr Hs. rewrite <-Forall_forall. change (observes n n' acts).
  destruct i; simpl in Hs.
  - by apply handle_tick_observes.
  - apply handle_vote_request_shape in Hs as [(-> & -> & _)|(_ & ? & _)]; [by split|done].
  - unfold handle_vote_response in Hs.
    case_decide; [by apply pair_inv in Hs as [<- <-]|].
    destruct (negb _); [by apply pair_inv in Hs as [<- <-]|].
    case_decide; [by eapply become_follower_observes|].
    rewrite decide_True in Hs by (left; congruence). by apply pair_inv in Hs as [<- <-].
  - unfold handle_pre_vote_request in Hs. rewrite (decide_True (P:=role n = Observer)) in Hs by done.
    destruct (decide _); by apply pair_inv in Hs as [<- <-].
  - unfold handle_pre_vote_response in Hs.
    case_decide; [by apply pair_inv in Hs as [<- <-]|].
    destruct (negb _); [by apply pair_inv in Hs as [<- <-]|].
    case_decide; [by eapply become_follower_observes|].
    rewrite decide_True in Hs by congruence. by apply pair_inv in Hs as [<- <-].
  - unfold handle_fetch_request in Hs.
    case_decide; [by apply pair_inv in Hs as [<- <-]|].
    destruct (is_self _ _); [by apply pair_inv in Hs as [<- <-]|].
    destruct (_ && _); [by apply pair_inv in Hs as [<- <-]|].
    case_decide; [by eapply become_follower_observes|].
    rewrite decide_True in Hs by congruence. by apply pair_inv in Hs as [<- <-].
  - by eapply handle_fetch_response_observes.
  - unfold handle_client_propose in Hs. rewrite decide_True in Hs by congruence.
    by apply pair_inv in Hs as [<- <-].
  - unfold handle_fetch_request_acked in Hs. rewrite decide_True in Hs by congruence.
    by apply pair_inv in Hs as [<- <-].
  - unfold handle_snapshot_complete in Hs. destruct (negb _); apply pair_inv in Hs as [<- <-];
      (split; [done|]); repeat constructor; by intros [].
  - unfold handle_snapshot_installed in Hs. pose proof (installed_core m n) as Hcore.
    cbv zeta in Hcore. rewrite Hcore in Hs. apply pair_inv in Hs as [<- <-].
    split; [|constructor]. by destruct (is_snapshot_meta_newer _ m).
  - unfold handle_fetch_snapshot_received in Hs. case_decide; apply pair_inv in Hs as [<- <-];
      (split; [done|]); repeat constructor; by intros [].
Qed.
End Safety.

Import Concrete.

(** ** Witnesses *)

Lemma node1_wf : node_wf node1.
Proof. by destruct (new_inner_wf _ _ _ (proj1 node1_boots)). Qed.
Lemma cand1_wf : node_wf cand1.
Proof.
  destruct (become_candidate_preserves node1 cand1 (become_candidate node1).2) as [H _];
    [by destruct (become_candidate node1) eqn:E; unfold cand1; rewrite E|apply node1_wf|done].
Qed.
Lemma lead1_step : estep cand1 lead1.
Proof.
  exists (InVoteResponse 2 (grant 1)), (step (InVoteResponse 2 (grant 1)) cand1).2.
  split; [done|]. vm_compute. reflexivity.
Qed.

Lemma reachable_wf_witness : node_wf (step InTick node1).1.
Proof.
  apply (reachable_wf (base 1 three []) 7 node1).
  - vm_compute. reflexivity.
  - apply rtc_once. exists InTick, (step InTick node1).2. split; [exact I|vm_compute; reflexivity].
Defined.

Lemma run_monotone_witness : commit_index cand1 ≤ commit_index lead1.
Proof.
  destruct (run_monotone cand1 lead1 cand1_wf (rtc_once _ _ lead1_step)) as (_ & H & _).
  exact H.
Defined.

Lemma vote_once_per_term_witness : vote cand1 = Some 1 ∧ vote lead1 = Some 1.
Proof.
  split; [vm_compute; reflexivity|].
  apply (vote_once_per_term cand1 lead1 1 cand1_wf (rtc_once _ _ lead1_step));
    vm_compute; reflexivity.
Defined.

Definition ask1 : VoteRequest := mkVoteRequest "c" 0 1 1 0 0.

Lemma persist_before_promise_witness :
  ∃ pre post, (step (InVoteRequest ask1) node2).2 = pre ++ PersistHardState :: post ∧
    Forall preliminary pre.
Proof.
  apply (persist_before_promise (InVoteRequest ask1) node2 (step (InVoteRequest ask1) node2).1).
  - vm_compute. reflexivity.
  - vm_compute. discriminate.
Defined.

Lemma vote_granted_iff_witness :
  ∃ to r, SendMessage to (MsgVoteResponse r) ∈ (handle_vote_request ask1 node2).2 ∧
    vrs_vote_granted r = true.
Proof.
  apply (vote_granted_iff ask1 node2 (handle_vote_request ask1 node2).1).
  - vm_compute. reflexivity.
  - split_and!.
    + reflexivity.
    + vm_compute. discriminate.
    + vm_compute. reflexivity.
    + vm_compute. discriminate.
    + right. vm_compute. split; [reflexivity|discriminate].
    + left. vm_compute. reflexivity.
Defined.

Lemma observer_never_electoral_witness :
  role observer = Observer ∧ role (step InTick observer).1 = Observer.
Proof.
  assert (role observer = Observer) as H by (vm_compute; reflexivity). split; [exact H|].
  apply (observer_never_electoral InTick observer _ (step InTick observer).2 H).
  vm_compute. reflexivity.
Defined.
