(* ===== verification/Commit.v ===== *)
(** * Commit advancement

    [try_advance_commit_index] against its specification: the greatest log
    index that a quorum of voter records has acknowledged, above the old commit
    index and not below the leader's own no-op. *)

From S2P Require Import Prelude CoreTypes Message Text Config ElectionTimer RaftNode NodeFacts NodeInvariant Concrete.

Lemma filter_none {A} (P : A → Prop) `{∀ x, Decision (P x)} (l : list A) :
  Forall (λ x, ¬ P x) l → filter P l = [].
Proof. induction 1; [done|]. by rewrite filter_cons_False. Qed.

(** In a descending list, position [i] holds a value at least [b] exactly when
    more than [i] elements are at least [b]. *)
Lemma desc_nth_count (l : list N) i c b :
  StronglySorted desc l → l !! i = Some c →
  (S i ≤ length (filter (λ o, (b ≤ o)%N) l))%nat ↔ b ≤ c.
Proof.
  intros Hs. revert i. induction Hs as [|x l Hs IH Hall]; intros i; [done|].
  destruct i as [|i]; simpl; intros Hi; rewrite filter_cons.
  - injection Hi as ->. destruct (decide (b ≤ c)); simpl; [lia|].
    rewrite filter_none; [simpl; lia|]. eapply Forall_impl; [done|].
    unfold desc. simpl. lia.
  - specialize (IH i Hi). rewrite Forall_forall in Hall.
    pose proof (Hall c (list_elem_of_lookup_2 _ _ _ Hi)) as Hcx. unfold desc in Hcx.
    destruct (decide (b ≤ x)); simpl; [split; [|]; intros; [apply IH; lia|apply le_n_S, IH; lia]|].
    rewrite filter_none; [simpl; lia|]. apply Forall_forall. intros y Hy.
    specialize (Hall y Hy). unfold desc in Hall. lia.
Qed.

Section Commit.
Context {MA : MembershipApi} {RA : RngApi} {HI : HashIter} {ML : MembershipLaws MA}.
Implicit Types n : RaftNode.

(** Voter [i] has acknowledged every index up to [c]: the leader by its own
    log, a tracked voter by its confirmed offset. *)
Definition acked n (c i : N) : Prop :=
  match voter_offset n i with Some o => c ≤ o | None => False end.
#[export] Instance acked_dec n c i : Decision (acked n c i).
Proof. unfold acked. destruct (voter_offset n i); apply _. Defined.

(** A majority of distinct voters has acknowledged [c]. *)
Definition majority_acked n (vs : VoterSet) (c : N) : Prop :=
  ∃ Q : list N, NoDup Q ∧ (∀ i, i ∈ Q → i ∈ voter_ids vs ∧ acked n c i) ∧
    (quorum_size vs ≤ length Q)%nat.

Lemma quorum_size_pos vs : (1 ≤ quorum_size vs)%nat.
Proof using ML. rewrite quorum_size_spec. lia. Qed.

Lemma filter_omap_length n c (l : list N) :
  length (filter (λ o, (c ≤ o)%N) (omap (voter_offset n) l)) = length (filter (acked n c) l).
Proof.
  induction l as [|i l IH]; [done|]. simpl. rewrite (filter_cons (acked n c)).
  destruct (decide (acked n c i)) as [Ha|Ha]; unfold acked in Ha.
  - destruct (voter_offset n i) as [o|]; [|done]. rewrite filter_cons_True by done.
    simpl. by f_equal.
  - destruct (voter_offset n i) as [o|]; [|done]. by rewrite filter_cons_False.
Qed.

Lemma majority_acked_count n vs c :
  NoDup (voter_ids vs) →
  majority_acked n vs c ↔
  (quorum_size vs ≤ length (filter (λ o, (c ≤ o)%N) (voter_offsets n vs)))%nat.
Proof.
  intros Hnd. unfold voter_offsets. rewrite filter_omap_length. split.
  - intros (Q & HQ & Hin & Hq). etransitivity; [done|].
    apply submseteq_length, NoDup_submseteq; [done|].
    intros i Hi. apply list_elem_of_filter. naive_solver.
  - intros Hq. exists (filter (acked n c) (voter_ids vs)).
    split; [by apply NoDup_filter|]. split; [|done].
    intros i [? ?]%list_elem_of_filter. done.
Qed.

Lemma sorted_desc_offsets (l : list N) : StronglySorted desc (merge_sort desc l).
Proof. apply StronglySorted_merge_sort; apply _. Qed.

(** Enough voter records whose offset is at least [c]: one offset is counted
    per voter record, so an id listed under two directories counts twice. *)
Definition enough_acked n (vs : VoterSet) (c : N) : Prop :=
  (quorum_size vs ≤ length (filter (acked n c) (voter_ids vs)))%nat.

(** The element the code indexes decides every such question at once. *)
Lemma sorted_candidate n vs c :
  merge_sort desc (voter_offsets n vs) !! (quorum_size vs - 1)%nat = Some c →
  ∀ b, enough_acked n vs b ↔ b ≤ c.
Proof using ML.
  intros Hc b. unfold enough_acked. rewrite <-filter_omap_length.
  rewrite <-(desc_nth_count _ _ _ b (sorted_desc_offsets _) Hc).
  rewrite merge_sort_Permutation. pose proof (quorum_size_pos vs). fold (voter_offsets n vs). lia.
Qed.

Lemma enough_needs_offsets n vs c :
  enough_acked n vs c → (quorum_size vs ≤ length (voter_offsets n vs))%nat.
Proof.
  unfold enough_acked. rewrite <-filter_omap_length. fold (voter_offsets n vs).
  pose proof (length_filter (λ o, (c ≤ o)%N) (voter_offsets n vs)). lia.
Qed.

(** The greatest element of a downward closed set is the bound. *)
Lemma greatest_iff (P : N → Prop) d :
  (∀ b, P b ↔ b ≤ d) → ∀ c, P c ∧ (∀ b, c < b → ¬ P b) ↔ c = d.
Proof.
  intros HP c. setoid_rewrite HP. split; [|intros ->; split; intros; lia].
  intros [? Hg]. destruct (decide (c = d)) as [|Hne]; [done|]. exfalso. apply (Hg d); lia.
Qed.

(** C3: The commit index moves only on a leader that knows its voter set and
    has appended the no-op of its term, and then to [c] exactly when [c] lies
    above the commit index, is not below that no-op (nothing is committed by
    counting replicas of older terms only), and is the greatest index that
    enough voter records have acknowledged, a quorum of them; nothing but the
    commit index changes, and nothing at all when there is no such [c].
    Records are counted, not voters: when the ids of the voter set are
    distinct, enough records are a majority of the voters. *)
Theorem commit_is_greatest_majority_index n :
  (∀ c, (try_advance_commit_index n).2 = Some c ↔
     role n = Leader ∧ ∃ vs k, voter_set n = Some vs ∧ leader_no_op_index n = Some k ∧
       commit_index n < c ∧ k ≤ c ∧ enough_acked n vs c ∧ ∀ b, c < b → ¬ enough_acked n vs b) ∧
  (try_advance_commit_index n).1 =
    match (try_advance_commit_index n).2 with Some c => n <| commit_index := c |> | None => n end ∧
  (∀ vs, NoDup (voter_ids vs) → ∀ c, enough_acked n vs c ↔ majority_acked n vs c).
Proof using ML.
  split_and!.
  - intros c. unfold try_advance_commit_index.
    case_decide as Hr; [by split; [|intros [??]]|].
    destruct (voter_set n) as [vs|]; [|by split; [|intros (_ & ? & ? & ? & _)]].
    destruct (leader_no_op_index n) as [k|]; [|by split; [|intros (_ & ? & ? & _ & ? & _)]].
    pose proof (quorum_size_pos vs) as Hpos. case_decide as Hlen; simpl.
    { split; [done|]. intros (_ & ? & ? & [= <-] & _ & _ & _ & ?%enough_needs_offsets & _). lia. }
    destruct (merge_sort _ _ !! _) as [d|] eqn:Hd.
    2:{ apply lookup_ge_None in Hd. rewrite merge_sort_Permutation in Hd. lia. }
    pose proof (greatest_iff _ _ (sorted_candidate _ _ _ Hd) c) as Hcd.
    split.
    + repeat (case_decide; [done|]). intros [= ->]. split; [done|]. exists vs, k.
      do 2 (split; [done|]). split; [lia|]. split; [lia|]. by apply Hcd.
    + intros (_ & ? & ? & [= <-] & [= <-] & ? & ? & ->%Hcd). by do 2 (rewrite decide_False by lia).
  - destruct (try_advance_commit_index n) as [n' o] eqn:E. cbn.
    by apply try_advance_shape in E as [[-> ->]|(c & vs & k & -> & -> & _)].
  - intros vs Hnd c. unfold enough_acked. rewrite majority_acked_count by done.
    unfold voter_offsets. by rewrite filter_omap_length.
Qed.
End Commit.

Import Concrete.

(** [lead1] after follower 2 confirmed index 1, before the advance. *)
Definition acked1 : RaftNode :=
  lead1 <| peers := alter (λ p, p <| last_fetch_offset := 1 |>) 2 (peers lead1) |>.

Lemma commit_is_greatest_majority_index_witness :
  ∃ vs, voter_set acked1 = Some vs ∧ NoDup (voter_ids vs) ∧
    (try_advance_commit_index acked1).2 = Some 1 ∧ majority_acked acked1 vs 1 ∧ ¬ majority_acked acked1 vs 2.
Proof.
  exists (voters_of acked1). split; [vm_compute; reflexivity|].
  assert (NoDup (voter_ids (voters_of acked1))) as Hnd
    by (apply (bool_decide_unpack _); vm_compute; exact I).
  split; [exact Hnd|].
  destruct (commit_is_greatest_majority_index acked1) as (Hc & _ & Hmaj).
  assert ((try_advance_commit_index acked1).2 = Some 1) as H1 by (vm_compute; reflexivity).
  split; [exact H1|]. apply Hc in H1 as (_ & vs & k & Hvs & _ & _ & _ & He & Hg).
  assert (vs = voters_of acked1) as -> by (vm_compute in Hvs; vm_compute; congruence).
  split; [by apply (Hmaj _ Hnd)|]. intros H2%(Hmaj _ Hnd). by apply (Hg 2); [lia|].
Defined.

(** ** Two directories of one node

    [ClusterConfig::validate] accepts one node id with two directories, and
    [try_advance_commit_index] collects one offset per record while the quorum
    counts distinct nodes: the leader's own log is counted twice. *)
Definition two_dir_node : RaftNode :=
  boot (base 1 two_dirs []).
Definition two_dir_leader : RaftNode :=
  (run (become_candidate two_dir_node).1 [InVoteResponse 2 (grant 1)]).1.

Lemma not_majority_two (n : RaftNode) (vs : @VoterSet Concrete.membership) c :
  voter_ids vs = [1; 1; 2] → quorum_size vs = 2%nat → ¬ acked n c 2 → ¬ majority_acked n vs c.
Proof.
  intros Hids Hqs H2 (Q & HQ & Hin & Hq). rewrite Hqs in Hq. rewrite Hids in Hin.
  assert (Q ⊆+ [1]) as Hsub%submseteq_length; [|simpl in Hsub; lia].
  apply NoDup_submseteq; [done|]. intros i [Hi Ha]%Hin.
  rewrite !elem_of_cons in Hi. apply elem_of_cons. naive_solver.
Qed.

(** A configuration the validator accepts can break the majority rule: with
    two directories of node 1 and one of node 2 (two voters, quorum two), the
    elected leader commits its first entry at once, while node 2 has
    acknowledged nothing and no majority of voters holds it. *)
Theorem two_directories_commit_without_majority :
  validate (config two_dir_node) = Ok tt ∧ role two_dir_leader = Leader ∧
  commit_index two_dir_leader = 1 ∧ last_fetch_offset <$> peers two_dir_leader !! 2 = Some 0 ∧
  ∃ vs, voter_set two_dir_leader = Some vs ∧ ¬ majority_acked two_dir_leader vs 1.
Proof.
  split_and!; [vm_compute; reflexivity..|].
  exists (voters_of two_dir_leader). split; [vm_compute; reflexivity|].
  apply not_majority_two; [vm_compute; reflexivity..|].
  apply (bool_decide_eq_false_1 _). vm_compute. reflexivity.
Qed.
