(* ===== verification/Elections.v ===== *)
(** * What one step does to an election

    The effect of a step on the tally, on leadership and on granted votes:
    the facts the cluster-level argument of [Cluster.v] is built from. *)

From S2P Require Import Prelude CoreTypes Message Text Config ElectionTimer RaftNode NodeFacts NodeInvariant NodeSafety Concrete.

Section Elections.
Context {MA : MembershipApi} {RA : RngApi} {HI : HashIter} {ML : MembershipLaws MA}.
Implicit Types n : RaftNode.

(** The election state is untouched, or the node is no longer contending. *)
Definition calm n n' : Prop :=
  (role n' = role n ∧ votes_received n' = votes_received n ∧ term n' = term n) ∨
  (role n' ≠ Candidate ∧ role n' ≠ Leader).

(** [x] backs [n'] in its term: by an older grant, as the node itself, or by
    the response just received. *)
Definition supports n (i : Input) n' (x : N) : Prop :=
  (role n = Candidate ∧ term n' = term n ∧ x ∈ vg_iter (votes_received n)) ∨
  (x = id n ∧ vote n' = Some (id n)) ∨
  (∃ r, i = InVoteResponse x r ∧ vrs_vote_granted r = true ∧ vrs_term r = term n' ∧
        term n' = term n ∧ role n = Candidate).

(** A quorum of distinct voters, all satisfying [P]. *)
Definition quorum_of n (P : N → Prop) : Prop :=
  ∃ vs Q, voter_set n = Some vs ∧ NoDup Q ∧ (quorum_size vs ≤ length Q)%nat ∧
    ∀ x, x ∈ Q → x ∈ voter_ids vs ∧ P x.

Definition elects n i n' : Prop :=
  calm n n' ∨
  (role n' = Candidate ∧ ∀ x, x ∈ vg_iter (votes_received n') → supports n i n' x) ∨
  (role n' = Leader ∧ quorum_of n (supports n i n')).

Lemma calm_refl n : calm n n.
Proof. by left. Qed.
Lemma calm_trans n1 n2 n3 : calm n1 n2 → calm n2 n3 → calm n1 n3.
Proof.
  intros [(H1 & H2 & H3)|[H1 H2]] [(H4 & H5 & H6)|[H4 H5]]; [left|right..]; try done.
  - split_and!; congruence.
  - by rewrite H4.
Qed.

Lemma tally_quorum n (P : N → Prop) :
  has_election_quorum n = true → (∀ x, x ∈ vg_iter (votes_received n) → P x) → quorum_of n P.
Proof using ML.
  intros (vs & Hvs & Hq)%has_election_quorum_true HP. unfold count_voters in Hq.
  eexists vs, _. split; [done|]. split; [|split; [done|]].
  - apply NoDup_filter, vg_iter_NoDup.
  - intros x [Hv Hx]%list_elem_of_filter. auto.
Qed.

Lemma become_follower_calm t l n n' acts : become_follower t l n = (n', acts) → calm n n'.
Proof.
  intros (_ & _ & _ & _ & Hr & _)%become_follower_fields. right. rewrite Hr.
  by destruct (decide (role n = Observer)).
Qed.

Lemma advance_and_drain_calm n n' acts : advance_and_drain n = (n', acts) → calm n n'.
Proof. intros (c & a & f & -> & _)%advance_and_drain_shape. by left. Qed.

(** A frame that writes no election field. *)
Lemma same_calm n n' :
  role n' = role n → votes_received n' = votes_received n → hard_state n' = hard_state n →
  calm n n'.
Proof. intros ?? Hh. left. unfold term. by rewrite Hh. Qed.

Lemma become_leader_facts n n' acts :
  become_leader n = (n', acts) →
  role n' = Leader ∧ hard_state n' = hard_state n ∧ voter_set n' = voter_set n ∧ id n' = id n.
Proof.
  unfold become_leader. destruct (advance_and_drain (leader_state n)) as [n1 d] eqn:E.
  intros [<- _]%pair_inv. by apply advance_and_drain_shape in E as (c & a & f & -> & _).
Qed.

Lemma candidate_tally n x :
  x ∈ vg_iter (votes_received (candidate_state n)) → x = id n.
Proof using ML.
  unfold candidate_state. cbn. rewrite vg_insert_iter, vg_clear_iter.
  intros [?|?%not_elem_of_nil]; done.
Qed.

Lemma become_candidate_elects i n n' acts : become_candidate n = (n', acts) → elects n i n'.
Proof using ML.
  unfold become_candidate. destruct (has_election_quorum (candidate_state n)) eqn:Hq.
  - destruct (become_leader _) as [n1 a] eqn:E. intros [<- _]%pair_inv.
    apply become_leader_facts in E as (Hr & Hh & _ & _). right; right. split; [done|].
    apply (tally_quorum (candidate_state n)); [done|].
    intros x ->%candidate_tally. right; left. split; [done|]. unfold vote. by rewrite Hh.
  - intros [<- _]%pair_inv. right; left. split; [done|].
    intros x ->%candidate_tally. by right; left.
Qed.

Lemma become_pre_candidate_elects i n n' acts :
  become_pre_candidate n = (n', acts) → elects n i n'.
Proof using ML.
  unfold become_pre_candidate. destruct (has_pre_election_quorum _).
  - destruct (become_candidate _) as [n1 a] eqn:E. intros [<- _]%pair_inv.
    apply (become_candidate_elects i) in E as [[(Hr & _)|?]|[[Hr Hs]|[Hr (vs & Q & Hvs & ? & ? & HQ)]]].
    + left. right. rewrite Hr. done.
    + left. by right.
    + right; left. split; [done|]. intros x Hx.
      destruct (Hs x Hx) as [(? & _)|[?|(? & _ & _ & _ & _ & ?)]]; [done|by right; left|done].
    + right; right. split; [done|]. exists vs, Q. split_and!; try done. intros x Hx.
      destruct (HQ x Hx) as [? [(? & _)|[?|(? & _ & _ & _ & _ & ?)]]]; [done| |done].
      split; [done|by right; left].
  - intros [<- _]%pair_inv. left. by right.
Qed.

Lemma handle_vote_response_elects from resp n n' acts :
  handle_vote_response from resp n = (n', acts) → elects n (InVoteResponse from resp) n'.
Proof using ML.
  unfold handle_vote_response.
  case_decide; [intros [<- _]%pair_inv; by left; left|].
  destruct (negb _); [intros [<- _]%pair_inv; by left; left|].
  case_decide; [intros ?%become_follower_calm; by left|].
  destruct (decide (role n ≠ Candidate ∨ vrs_term resp ≠ term n)) as [|Hc];
    [intros [<- _]%pair_inv; by left; left|].
  assert (role n = Candidate ∧ vrs_term resp = term n) as [Hr Ht]
    by (split; apply dec_stable; tauto). clear Hc.
  destruct (vrs_vote_granted resp) eqn:Hg; [|intros [<- _]%pair_inv; by left; left].
  set (n1 := n <| votes_received := _ |>).
  assert (∀ n', term n' = term n → ∀ x, x ∈ vg_iter (votes_received n1) →
            supports n (InVoteResponse from resp) n' x) as Hs.
  { intros m Hm x. subst n1. cbn. rewrite vg_insert_iter. intros [->|Hx]; [|by left].
    right; right. exists resp. split_and!; congruence. }
  destruct (has_election_quorum n1) eqn:Hq.
  - intros (Hr' & Hh & _ & _)%become_leader_facts. right; right. split; [done|].
    apply (tally_quorum n1); [done|]. apply Hs. unfold term. by rewrite Hh.
  - intros [<- _]%pair_inv. right; left. split; [done|]. by apply Hs.
Qed.

Lemma handle_vote_request_calm req n n' acts :
  handle_vote_request req n = (n', acts) → calm n n'.
Proof.
  intros [(_ & -> & _)|(_ & _ & _ & [(_ & -> & _)|
    (Hle & n1 & g & pre & -> & _ & Ht & _ & Hr & _ & _ & _ & Hvr & _)])]%handle_vote_request_shape;
    [apply calm_refl..|].
  destruct (decide (term n < vrq_term req)); [right; by rewrite Hr|].
  left. split_and!; [done..|]. rewrite Ht. lia.
Qed.

Lemma handle_pre_vote_response_elects i from resp n n' acts :
  handle_pre_vote_response from resp n = (n', acts) → elects n i n'.
Proof using ML.
  unfold handle_pre_vote_response.
  case_decide; [intros [<- _]%pair_inv; by left; left|].
  destruct (negb _); [intros [<- _]%pair_inv; by left; left|].
  case_decide; [intros ?%become_follower_calm; by left|].
  destruct (decide (role n ≠ PreCandidate)) as [|Hc%dec_stable];
    [intros [<- _]%pair_inv; by left; left|].
  destruct (pvs_vote_granted resp); [|intros [<- _]%pair_inv; by left; left].
  set (n1 := n <| pre_votes_received := _ |>).
  destruct (has_pre_election_quorum n1); [|intros [<- _]%pair_inv; by left; left].
  intros [?|[?|?]]%(become_candidate_elects i); [by left|by right; left|by right; right].
Qed.

Lemma handle_fetch_request_calm req n n' acts :
  handle_fetch_request req n = (n', acts) → calm n n'.
Proof.
  unfold handle_fetch_request.
  case_decide; [by intros [<- _]%pair_inv; left|].
  destruct (is_self _ _); [by intros [<- _]%pair_inv; left|].
  destruct (_ && _); [by intros [<- _]%pair_inv; left|].
  case_decide; [apply become_follower_calm|].
  case_decide; [by intros [<- _]%pair_inv; left|].
  case_decide; [by intros [<- _]%pair_inv; left|].
  destruct (last_snapshot_meta _); [case_decide|]; by intros [<- _]%pair_inv; left.
Qed.

Lemma propagate_calm hw n n' acts : propagate_high_watermark hw n = (n', acts) → calm n n'.
Proof.
  unfold propagate_high_watermark. case_decide; [|by intros [<- _]%pair_inv; left].
  by intros (f & -> & _)%drain_shape; left.
Qed.

Lemma process_fetch_payload_calm resp n n' acts :
  process_fetch_payload resp n = (n', acts) → calm n n'.
Proof.
  unfold process_fetch_payload, accept_entries.
  destruct (frs_snapshot_redirect resp); [by intros [<- _]%pair_inv; left|].
  destruct (frs_diverging_epoch resp); [by intros [<- _]%pair_inv; left|].
  destruct (last _); [|apply propagate_calm].
  destruct (negb _); [by intros [<- _]%pair_inv; left|].
  destruct (propagate_high_watermark _ _) as [n1 d] eqn:E. intros [<- _]%pair_inv.
  by apply propagate_calm in E.
Qed.

Lemma adopt_leader_calm l n n' acts : adopt_leader l n = (n', acts) → calm n n'.
Proof.
  unfold adopt_leader. destruct (role n) eqn:Hr; try apply become_follower_calm;
    destruct (leader_id n); by intros [<- _]%pair_inv; left.
Qed.

Lemma handle_fetch_response_calm resp n n' acts :
  handle_fetch_response resp n = (n', acts) → calm n n'.
Proof.
  unfold handle_fetch_response.
  case_decide; [by intros [<- _]%pair_inv; left|].
  destruct (negb _); [by intros [<- _]%pair_inv; left|].
  destruct (negb _); [by intros [<- _]%pair_inv; left|].
  case_decide; [by intros [<- _]%pair_inv; left|].
  set (first := if decide (term n < _) then _ else _).
  assert (∃ n1 a1, first = (n1, a1) ∧ calm n n1) as (n1 & a1 & -> & Hn1).
  { subst first. case_decide; [|by eexists _, _; split; [done|left]].
    destruct (become_follower _ _ n) as [n1 a1] eqn:E. eexists _, _; split; [done|].
    by eapply become_follower_calm. }
  case_decide; [by intros [<- _]%pair_inv|].
  destruct (match leader_id n1 with Some _ => _ | None => _ end); [by intros [<- _]%pair_inv|].
  destruct (adopt_leader _ n1) as [n2 a2] eqn:E2.
  destruct (process_fetch_payload resp _) as [n3 a3] eqn:E3.
  intros [<- _]%pair_inv. eapply calm_trans; [done|].
  eapply calm_trans; [by eapply adopt_leader_calm|].
  eapply calm_trans; [|by eapply process_fetch_payload_calm]. by left.
Qed.

Lemma check_quorum_tick_calm n n' o : check_quorum_tick n = (n', o) → calm n n'.
Proof.
  unfold check_quorum_tick. destruct (_ && _); [|by intros [<- _]%pair_inv; left].
  case_decide; [|by intros [<- _]%pair_inv; left].
  destruct (check_quorum_reachable _); [by intros [<- _]%pair_inv; left|].
  destruct (become_follower _ _ _) as [n1 a] eqn:E. intros [<- _]%pair_inv.
  apply become_follower_calm in E. eapply calm_trans; [|done]. by left.
Qed.

(** The check-quorum block and the fetch scheduling come before any
    candidacy and keep the identity. *)
Lemma check_quorum_tick_id n n' o :
  check_quorum_tick n = (n', o) → id n' = id n ∧ voter_set n' = voter_set n.
Proof.
  unfold check_quorum_tick. destruct (_ && _); [|by intros [<- _]%pair_inv].
  case_decide; [|by intros [<- _]%pair_inv].
  destruct (check_quorum_reachable _); [by intros [<- _]%pair_inv|].
  destruct (become_follower _ _ _) as [n1 a] eqn:E. intros [<- _]%pair_inv.
  by apply become_follower_fields in E as (-> & _ & -> & _).
Qed.

(** An operation run after a calm prefix has the same election effect, as
    long as it does not read the old tally. *)
Lemma elects_after n1 n2 n' i :
  calm n1 n2 → id n2 = id n1 → voter_set n2 = voter_set n1 →
  (∀ x r, i ≠ InVoteResponse x r) → elects n2 i n' → elects n1 i n'.
Proof.
  intros Hc Hid Hvs Hi.
  assert (∀ x, supports n2 i n' x → supports n1 i n' x) as Hs.
  { intros x [(Hr & Ht & Hx)|[[-> Hv]|(r & -> & _)]]; [|right; left; by rewrite <-Hid|by destruct (Hi x r)].
    destruct Hc as [(Hr1 & Hv1 & Ht1)|[Hr1 _]]; [left|done]. split_and!; congruence. }
  intros [Hc'|[[Hr Hx]|[Hr (vs & Q & ? & ? & ? & HQ)]]].
  - left. by eapply calm_trans.
  - right; left. eauto.
  - right; right. split; [done|]. exists vs, Q. rewrite <-Hvs. split_and!; try done.
    intros x Hx. destruct (HQ x Hx). eauto.
Qed.

Lemma handle_tick_elects n n' acts : handle_tick n = (n', acts) → elects n InTick n'.
Proof using ML.
  unfold handle_tick. set (n0 := n <| logical_tick := _ |> <| election_timer := _ |>).
  destruct (schedule_fetch n0) as [n1 f] eqn:E1. apply schedule_fetch_shape in E1 as [[v ->] _].
  destruct (check_quorum_tick _) as [n2 o] eqn:E2.
  pose proof (check_quorum_tick_calm _ _ _ E2) as Hc.
  apply check_quorum_tick_id in E2 as [Hi Hv]. intros Hres.
  assert (calm n n2) as Hc2 by (eapply calm_trans; [|done]; by left). clear Hc.
  destruct o as [a|]; [apply pair_inv in Hres as [<- _]; by left|].
  destruct (negb _); [apply pair_inv in Hres as [<- _]; by left|].
  destruct (role n2).
  all: try (apply pair_inv in Hres as [<- _]; by left).
  all: destruct (become_pre_candidate n2) as [n3 a] eqn:E3; apply pair_inv in Hres as [<- _];
    by eapply elects_after, become_pre_candidate_elects.
Qed.

Lemma step_elects i n n' acts : step i n = (n', acts) → elects n i n'.
Proof using ML.
  destruct i; simpl; intros Hs.
  - by eapply handle_tick_elects.
  - left. by eapply handle_vote_request_calm.
  - by eapply handle_vote_response_elects.
  - apply pair_inv in Hs as [<- _]. by left; left.
  - by eapply handle_pre_vote_response_elects.
  - left. by eapply handle_fetch_request_calm.
  - left. by eapply handle_fetch_response_calm.
  - left. unfold handle_client_propose in Hs.
    case_decide; [by apply pair_inv in Hs as [<- _]; left|].
    destruct (advance_and_drain _) as [n1 d] eqn:E. apply pair_inv in Hs as [<- _].
    apply advance_and_drain_calm in E. eapply calm_trans; [|done]. by left.
  - left. unfold handle_fetch_request_acked in Hs.
    case_decide; [by apply pair_inv in Hs as [<- _]; left|].
    destruct (_ && _); [by apply pair_inv in Hs as [<- _]; left|].
    apply advance_and_drain_calm in Hs. eapply calm_trans; [|done]. by left.
  - left. unfold handle_snapshot_complete in Hs.
    destruct (negb _); by apply pair_inv in Hs as [<- _]; left.
  - left. unfold handle_snapshot_installed in Hs. pose proof (installed_core m n) as Hcore.
    cbv zeta in Hcore. rewrite Hcore in Hs. apply pair_inv in Hs as [<- _].
    destruct (is_snapshot_meta_newer _ m); by left.
  - left. unfold handle_fetch_snapshot_received in Hs.
    case_decide; apply pair_inv in Hs as [<- _]; by left.
Qed.

(** ** Only [handle_vote_request] answers vote requests *)

Definition no_reply (a : Action) : Prop := ∀ to r, a ≠ SendMessage to (MsgVoteResponse r).

Lemma passive_no_reply acts : Forall passive acts → Forall no_reply acts.
Proof. intros Hp. eapply Forall_impl; [exact Hp|]. intros a Ha to r ->. by apply Ha. Qed.

Lemma advance_and_drain_no_reply n n' acts :
  advance_and_drain n = (n', acts) → Forall no_reply acts.
Proof.
  intros (c & a & f & _ & _ & _ & _ & Hq & _)%advance_and_drain_shape.
  by apply passive_no_reply, quiet_passive.
Qed.

Lemma become_leader_no_reply n n' acts : become_leader n = (n', acts) → Forall no_reply acts.
Proof.
  unfold become_leader. destruct (advance_and_drain _) as [n1 d] eqn:E. intros [_ <-]%pair_inv.
  do 2 (constructor; [done|]). by eapply advance_and_drain_no_reply.
Qed.

Lemma broadcast_no_reply n m : (∀ r, m ≠ MsgVoteResponse r) → Forall no_reply (broadcast n m).
Proof.
  intros Hm. apply Forall_forall. intros a ([i p] & -> & _)%list_elem_of_fmap to r. naive_solver.
Qed.

Lemma become_candidate_no_reply n n' acts : become_candidate n = (n', acts) → Forall no_reply acts.
Proof.
  unfold become_candidate. destruct (has_election_quorum _).
  - destruct (become_leader _) as [n1 a] eqn:E. intros [_ <-]%pair_inv.
    constructor; [done|]. apply Forall_app; split; [by apply broadcast_no_reply|].
    by eapply become_leader_no_reply.
  - intros [_ <-]%pair_inv. constructor; [done|]. rewrite (right_id_L [] (++)).
    by apply broadcast_no_reply.
Qed.

Lemma become_pre_candidate_no_reply n n' acts :
  become_pre_candidate n = (n', acts) → Forall no_reply acts.
Proof.
  unfold become_pre_candidate. destruct (has_pre_election_quorum _).
  - destruct (become_candidate _) as [n1 a] eqn:E. intros [_ <-]%pair_inv.
    apply Forall_app; split; [by apply broadcast_no_reply|]. by eapply become_candidate_no_reply.
  - intros [_ <-]%pair_inv. rewrite (right_id_L [] (++)). by apply broadcast_no_reply.
Qed.

Lemma become_follower_no_reply t l n n' acts :
  become_follower t l n = (n', acts) → Forall no_reply acts.
Proof. intros H. by eapply passive_no_reply, become_follower_passive. Qed.

Lemma handle_fetch_response_no_reply resp n n' acts :
  handle_fetch_response resp n = (n', acts) → Forall no_reply acts.
Proof.
  unfold handle_fetch_response.
  case_decide; [by intros [_ <-]%pair_inv|].
  destruct (negb _); [by intros [_ <-]%pair_inv|].
  destruct (negb _); [by intros [_ <-]%pair_inv|].
  case_decide; [by intros [_ <-]%pair_inv|].
  set (first := if decide (term n < _) then _ else _).
  assert (∃ n1 a1, first = (n1, a1) ∧ Forall no_reply a1) as (n1 & a1 & -> & Hn1).
  { subst first. case_decide; [|exists n, []; split; [done|constructor]].
    destruct (become_follower _ _ n) as [n1 a1] eqn:E. eexists _, _; split; [done|].
    by eapply become_follower_no_reply. }
  case_decide; [by intros [_ <-]%pair_inv|].
  destruct (match leader_id n1 with Some _ => _ | None => _ end); [by intros [_ <-]%pair_inv|].
  destruct (adopt_leader _ n1) as [n2 a2] eqn:E2.
  destruct (process_fetch_payload resp _) as [n3 a3] eqn:E3.
  intros [_ <-]%pair_inv. rewrite !Forall_app. split_and!; [done|..].
  - unfold adopt_leader in E2. destruct (role n1); try done; try by eapply become_follower_no_reply.
    all: destruct (leader_id n1); by apply pair_inv in E2 as [_ <-].
  - apply process_fetch_payload_passive in E3 as [_ Hp]. by apply passive_no_reply.
Qed.

Lemma handle_tick_no_reply n n' acts : handle_tick n = (n', acts) → Forall no_reply acts.
Proof.
  unfold handle_tick. set (n0 := n <| logical_tick := _ |> <| election_timer := _ |>).
  destruct (schedule_fetch n0) as [n1 f] eqn:E1. apply schedule_fetch_shape in E1 as [[v ->] Hf].
  assert (Forall no_reply f) as Hnf.
  { apply Forall_forall. intros a Ha. by destruct (Hf a Ha) as (to & req & ->). }
  destruct (check_quorum_tick _) as [n2 o] eqn:E2. intros Hres.
  destruct o as [a|].
  { apply pair_inv in Hres as [_ <-]. apply Forall_app; split; [done|]. revert E2.
    unfold check_quorum_tick. destruct (_ && _); [|by intros [= _ <-]].
    case_decide; [|done]. destruct (check_quorum_reachable _); [done|].
    destruct (become_follower _ _ _) as [n3 b] eqn:E. intros [= _ <-].
    by eapply become_follower_no_reply. }
  destruct (negb _); [by apply pair_inv in Hres as [_ <-]|].
  destruct (role n2).
  all: try (by apply pair_inv in Hres as [_ <-]).
  all: destruct (become_pre_candidate n2) as [n3 a] eqn:E3; apply pair_inv in Hres as [_ <-];
    apply Forall_app; split; [done|]; by eapply become_pre_candidate_no_reply.
Qed.

Lemma handle_vote_response_no_reply from r n n' acts :
  handle_vote_response from r n = (n', acts) → Forall no_reply acts.
Proof.
  unfold handle_vote_response.
  case_decide; [by intros [_ <-]%pair_inv|].
  destruct (negb _); [by intros [_ <-]%pair_inv|].
  case_decide; [apply become_follower_no_reply|].
  case_decide; [by intros [_ <-]%pair_inv|].
  destruct (vrs_vote_granted r); [|by intros [_ <-]%pair_inv].
  destruct (has_election_quorum _); [apply become_leader_no_reply|by intros [_ <-]%pair_inv].
Qed.
Lemma handle_pre_vote_request_no_reply r n : Forall no_reply (handle_pre_vote_request r n).
Proof. unfold handle_pre_vote_request. repeat (case_match; [done|]). by repeat constructor. Qed.
Lemma handle_pre_vote_response_no_reply from r n n' acts :
  handle_pre_vote_response from r n = (n', acts) → Forall no_reply acts.
Proof.
  unfold handle_pre_vote_response.
  case_decide; [by intros [_ <-]%pair_inv|].
  destruct (negb _); [by intros [_ <-]%pair_inv|].
  case_decide; [apply become_follower_no_reply|].
  case_decide; [by intros [_ <-]%pair_inv|].
  destruct (pvs_vote_granted r); [|by intros [_ <-]%pair_inv].
  destruct (has_pre_election_quorum _); [apply become_candidate_no_reply|by intros [_ <-]%pair_inv].
Qed.
Lemma handle_fetch_request_no_reply r n n' acts :
  handle_fetch_request r n = (n', acts) → Forall no_reply acts.
Proof.
  unfold handle_fetch_request.
  case_decide; [by intros [_ <-]%pair_inv|].
  destruct (is_self _ _); [by intros [_ <-]%pair_inv|].
  destruct (_ && _); [by intros [_ <-]%pair_inv|].
  case_decide; [apply become_follower_no_reply|].
  case_decide; [by intros [_ <-]%pair_inv|].
  case_decide; [by intros [_ <-]%pair_inv|].
  destruct (last_snapshot_meta _); [case_decide|]; intros [_ <-]%pair_inv; by repeat constructor.
Qed.
Lemma handle_client_propose_no_reply c n n' acts :
  handle_client_propose c n = (n', acts) → Forall no_reply acts.
Proof.
  unfold handle_client_propose. case_decide; [by intros [_ <-]%pair_inv|].
  destruct (advance_and_drain _) as [n1 d] eqn:E. intros [_ <-]%pair_inv.
  constructor; [done|]. by eapply advance_and_drain_no_reply.
Qed.
Lemma handle_fetch_request_acked_no_reply x y n n' acts :
  handle_fetch_request_acked x y n = (n', acts) → Forall no_reply acts.
Proof.
  unfold handle_fetch_request_acked. case_decide; [by intros [_ <-]%pair_inv|].
  destruct (_ && _); [by intros [_ <-]%pair_inv|]. apply advance_and_drain_no_reply.
Qed.

(** A granted vote in the output is the vote of the state after the step. *)
Lemma step_grant i n n' acts to r :
  step i n = (n', acts) → SendMessage to (MsgVoteResponse r) ∈ acts →
  vrs_vote_granted r = true → vrs_term r = term n' ∧ vote n' = Some to.
Proof.
  intros Hs Hin Hg.
  assert (Forall no_reply acts → vrs_term r = term n' ∧ vote n' = Some to) as Hno.
  { rewrite Forall_forall. intros Hall. by destruct (Hall _ Hin to r). }
  assert (∀ a, Forall no_reply [a] ↔ no_reply a) as Hone by (intros a; by rewrite Forall_singleton).
  destruct i; simpl in Hs.
  - by eapply Hno, handle_tick_no_reply.
  - apply handle_vote_request_shape in Hs as [(-> & _)|(_ & _ & _ & [(_ & _ & ->)|
      (_ & n1 & g & pre & _ & _ & _ & Hv & _ & _ & _ & _ & _ & Hpre & ->)])].
    + by apply not_elem_of_nil in Hin.
    + apply list_elem_of_singleton in Hin as [= -> ->]. done.
    + apply elem_of_app in Hin as [Hin|[= -> ->]%list_elem_of_singleton];
        [by eapply no_grant_in in Hin|]. simpl in Hg. by rewrite Hv, Hg.
  - by eapply Hno, handle_vote_response_no_reply.
  - apply pair_inv in Hs as [_ <-]. apply Hno, handle_pre_vote_request_no_reply.
  - by eapply Hno, handle_pre_vote_response_no_reply.
  - by eapply Hno, handle_fetch_request_no_reply.
  - by eapply Hno, handle_fetch_response_no_reply.
  - by eapply Hno, handle_client_propose_no_reply.
  - by eapply Hno, handle_fetch_request_acked_no_reply.
  - apply Hno. revert Hs. unfold handle_snapshot_complete.
    destruct (negb _); intros [_ <-]%pair_inv; [done|by apply Hone].
  - apply Hno. revert Hs. unfold handle_snapshot_installed. by intros [_ <-]%pair_inv.
  - apply Hno. revert Hs. unfold handle_fetch_snapshot_received.
    case_decide; intros [_ <-]%pair_inv; [done|by apply Hone].
Qed.

(** Leadership needs a quorum: when a step makes a node leader (or keeps
    a leader into another term, which never happens), a quorum of distinct
    voters backs it in its term, each of them the node itself, holder of
    that term's vote, or a voter whose grant for that term was received. *)
Theorem leader_only_by_quorum i n n' acts :
  step i n = (n', acts) → role n' = Leader → (role n ≠ Leader ∨ term n' ≠ term n) →
  quorum_of n (λ x,
    (role n = Candidate ∧ term n' = term n ∧ x ∈ vg_iter (votes_received n)) ∨
    (x = id n ∧ vote n' = Some (id n)) ∨
    (∃ r, i = InVoteResponse x r ∧ vrs_vote_granted r = true ∧ vrs_term r = term n' ∧
          term n' = term n ∧ role n = Candidate)).
Proof using ML.
  intros Hs Hr Hnew. destruct (step_elects _ _ _ _ Hs) as [[(Hr' & _ & Ht)|[_ ?]]|[[Hr' _]|[_ HQ]]].
  - exfalso. rewrite Hr in Hr'. naive_solver.
  - done.
  - congruence.
  - exact HQ.
Qed.
End Elections.

Import Concrete.

Lemma leader_only_by_quorum_witness :
  role cand1 = Candidate ∧ role lead1 = Leader ∧
  ∃ i, quorum_of cand1 (λ x,
      (role cand1 = Candidate ∧ term lead1 = term cand1 ∧ x ∈ vg_iter (votes_received cand1)) ∨
      (x = id cand1 ∧ vote lead1 = Some (id cand1)) ∨
      (∃ r, i = InVoteResponse x r ∧ vrs_vote_granted r = true ∧ vrs_term r = term lead1 ∧
            term lead1 = term cand1 ∧ role cand1 = Candidate)).
Proof.
  split; [vm_compute; reflexivity|]. split; [vm_compute; reflexivity|].
  exists (InVoteResponse 2 (grant 1)).
  apply (leader_only_by_quorum _ cand1 lead1 (step (InVoteResponse 2 (grant 1)) cand1).2).
  - vm_compute. reflexivity.
  - vm_compute. reflexivity.
  - left. vm_compute. discriminate.
Defined.
