(* ===== verification/Cluster.v ===== *)
(** * A cluster of engines: election safety

    Several [RaftNode]s, a network that may lose, delay, duplicate, reorder
    and forge everything except granted vote responses, and crashes.  The
    [ballots] and [elected] fields are ghost state: they record the votes held
    and the leaderships won, and no transition reads them. *)

From S2P Require Import Prelude CoreTypes Message Text Config ElectionTimer RaftNode NodeFacts NodeInvariant NodeSafety Elections Concrete.

Section Cluster.
Context {MA : MembershipApi} {RA : RngApi} {HI : HashIter} {ML : MembershipLaws MA}
  {RL : RngLaws RA}.
(** Membership is static: every node is configured with the same voters. *)
Context (vs : VoterSet).

Record cluster : Type := mkCluster {
  nodes : gmap N RaftNode;
  (** Vote responses sent: (sender, addressee, response). *)
  soup : list (N * N * VoteResponse);
  ballots : list (N * N * N);
  elected : list (N * N);
}.

Definition sent (x : N) (acts : list Action) : list (N * N * VoteResponse) :=
  omap (λ a, match a with
             | SendMessage to (MsgVoteResponse r) => Some (x, to, r)
             | _ => None
             end) acts.
Definition ballot_of (x : N) (n : RaftNode) : list (N * N * N) :=
  match vote n with Some c => [(x, term n, c)] | None => [] end.
Definition crown (x : N) (n n' : RaftNode) : list (N * N) :=
  if decide (role n' = Leader ∧ (role n ≠ Leader ∨ term n' ≠ term n)) then [(term n', x)] else [].

(** The network may hand a node any input at all, except a granted vote
    response its sender never addressed to it. *)
Definition authentic (c : cluster) (x : N) (i : Input) : Prop :=
  match i with
  | InVoteResponse from r => vrs_vote_granted r = true → (from, x, r) ∈ soup c
  | _ => True
  end.

(** A rebooted node: same identity and configuration, the persisted hard
    state, not contending; everything else is whatever recovery rebuilt.  A
    crash between the promises of one action list loses messages, which the
    network may do anyway; a crash before [PersistHardState] is executed is
    a reboot from the state before the step. *)
Definition reboots (n n' : RaftNode) : Prop :=
  node_wf n' ∧ id n' = id n ∧ voter_set n' = voter_set n ∧ hard_state n' = hard_state n ∧
  role n' ≠ Candidate ∧ role n' ≠ Leader.

Inductive cstep : cluster → cluster → Prop :=
| CDeliver c x n i n' acts :
    nodes c !! x = Some n → authentic c x i → input_u64 i → step i n = (n', acts) →
    term n' < u64_max →
    cstep c (mkCluster (<[x := n']> (nodes c)) (sent x acts ++ soup c)
               (ballot_of x n' ++ ballots c) (crown x n n' ++ elected c))
| CReboot c x n n' :
    nodes c !! x = Some n → reboots n n' →
    cstep c (mkCluster (<[x := n']> (nodes c)) (soup c) (ballots c) (elected c)).

(** A fresh cluster: every node just constructed, nothing sent. *)
Definition fresh (c : cluster) : Prop :=
  soup c = [] ∧ ballots c = [] ∧ elected c = [] ∧
  ∀ x n, nodes c !! x = Some n →
    id n = x ∧ voter_set n = Some vs ∧ ∃ cfg s, new_with_seed cfg s = Ok n.

Definition reachable (c : cluster) : Prop := ∃ c0, fresh c0 ∧ rtc cstep c0 c.

(** ** The invariant *)

Record inv (c : cluster) : Prop := {
  inv_node x n : nodes c !! x = Some n →
    id n = x ∧ voter_set n = Some vs ∧ node_wf n ∧ term n < u64_max;
  (** A recorded ballot binds its voter up to and including its term. *)
  inv_ballot v t a : (v, t, a) ∈ ballots c →
    ∃ n, nodes c !! v = Some n ∧ t ≤ term n ∧ (term n = t → vote n = Some a);
  inv_unique v t a b : (v, t, a) ∈ ballots c → (v, t, b) ∈ ballots c → a = b;
  inv_soup v a r : (v, a, r) ∈ soup c → vrs_vote_granted r = true →
    (v, vrs_term r, a) ∈ ballots c;
  inv_tally x n y : nodes c !! x = Some n → role n = Candidate →
    y ∈ vg_iter (votes_received n) → (y, term n, x) ∈ ballots c;
  inv_elected t a : (t, a) ∈ elected c →
    ∃ Q, NoDup Q ∧ (quorum_size vs ≤ length Q)%nat ∧
      ∀ y, y ∈ Q → y ∈ voter_ids vs ∧ (y, t, a) ∈ ballots c;
  inv_leader x n : nodes c !! x = Some n → role n = Leader → (term n, x) ∈ elected c;
}.

Lemma fresh_inv c : fresh c → inv c.
Proof using RL.
  intros (Hs & Hb & He & Hn).
  assert (∀ x n, nodes c !! x = Some n → node_wf n ∧ term n = 0 ∧ role n ≠ Candidate ∧ role n ≠ Leader)
    as Hboot.
  { intros x n (_ & _ & cfg & s & Hnew)%Hn. split; [by apply new_inner_wf in Hnew as [? _]|].
    unfold new_with_seed, new_inner in Hnew. revert Hnew.
    destruct (validate cfg); [|done]. cbn. destruct (build_voter_set cfg) as [o|]; [|done]. cbn.
    destruct (next_u64 _). destruct (Timer.from_config_ms _ _ _ _) as [[]|]; [|done].
    destruct (next_u64 _). intros [= <-]. cbn. by case_decide. }
  constructor.
  - intros x n Hx. destruct (Hn x n Hx) as (? & ? & _), (Hboot x n Hx) as (? & Ht & _).
    rewrite Ht. done.
  - rewrite Hb. by intros v t a ?%not_elem_of_nil.
  - rewrite Hb. by intros v t a b ?%not_elem_of_nil.
  - rewrite Hs. by intros v a r ?%not_elem_of_nil.
  - intros x n y Hx Hr. by destruct (Hboot x n Hx) as (_ & _ & ? & _).
  - rewrite He. by intros t a ?%not_elem_of_nil.
  - intros x n Hx Hr. by destruct (Hboot x n Hx) as (_ & _ & _ & ?).
Qed.

Lemma reboot_inv c x n n' :
  inv c → nodes c !! x = Some n → reboots n n' →
  inv (mkCluster (<[x := n']> (nodes c)) (soup c) (ballots c) (elected c)).
Proof.
  intros Hinv Hx (Hwf & Hid & Hvs & Hh & Hc & Hl).
  assert (term n' = term n ∧ vote n' = vote n) as [Ht Hv] by (unfold term, vote; by rewrite Hh).
  destruct (inv_node _ Hinv x n Hx) as (Hi & Hvs0 & _ & Hmax).
  constructor; cbn.
  - intros y m. rewrite lookup_insert_Some. intros [[<- <-]|[_ Hy]]; [|by apply Hinv].
    split_and!; [congruence..|done|by rewrite Ht].
  - intros v t a (m & Hm & Hle & Heq)%(inv_ballot _ Hinv). destruct (decide (x = v)) as [<-|Hne].
    + exists n'. rewrite lookup_insert_eq, Ht, Hv. by simplify_eq.
    + exists m. by rewrite lookup_insert_ne.
  - apply Hinv.
  - apply Hinv.
  - intros y m z. rewrite lookup_insert_Some. intros [[<- <-]|[_ Hy]]; [done|by eapply inv_tally].
  - apply Hinv.
  - intros y m. rewrite lookup_insert_Some. intros [[<- <-]|[_ Hy]]; [done|by eapply inv_leader].
Qed.

Lemma elem_of_sent x acts v a r :
  (v, a, r) ∈ sent x acts ↔ v = x ∧ SendMessage a (MsgVoteResponse r) ∈ acts.
Proof.
  unfold sent. rewrite list_elem_of_omap. split.
  - intros ([] & Hin & Heq); try done. destruct m; try done. by simplify_eq.
  - intros [-> Hin]. by eexists.
Qed.

Lemma elem_of_ballot_of x n v t a :
  (v, t, a) ∈ ballot_of x n ↔ v = x ∧ t = term n ∧ vote n = Some a.
Proof.
  unfold ballot_of. destruct (vote n) as [b|].
  - rewrite list_elem_of_singleton. naive_solver.
  - rewrite elem_of_nil. naive_solver.
Qed.

(** Whoever supports the node after a step has a ballot for it. *)
Lemma supports_ballot c x n i n' y :
  inv c → nodes c !! x = Some n → authentic c x i → id n = x →
  supports n i n' y → (y, term n', x) ∈ ballot_of x n' ++ ballots c.
Proof.
  intros Hinv Hx Ha Hid Hs. apply elem_of_app.
  destruct Hs as [(Hr & -> & Hy)|[[-> Hv]|(r & -> & Hg & <- & _)]].
  - right. by eapply inv_tally.
  - left. apply elem_of_ballot_of. rewrite Hid in *. by split_and!.
  - right. eapply inv_soup; [done| |done]. by apply Ha.
Qed.

(** The ballots of a voter up to its term are what it votes for after a step. *)
Lemma step_binds c x n n' t a :
  inv c → nodes c !! x = Some n → evolves n n' → term n' < u64_max → (x, t, a) ∈ ballots c →
  t ≤ term n' ∧ (term n' = t → vote n' = Some a).
Proof.
  intros Hinv Hx Hev Hmax (m & Hm & Hle & Heq)%(inv_ballot _ Hinv). simplify_eq.
  pose proof (ev_term _ _ Hev). split; [lia|]. intros <-.
  apply (ev_vote _ _ Hev); [lia..|]. apply Heq. lia.
Qed.

(** Whoever is crowned by a step has a quorum of ballots. *)
Lemma deliver_elected c x n i n' acts t a :
  inv c → nodes c !! x = Some n → authentic c x i → step i n = (n', acts) →
  (t, a) ∈ crown x n n' ++ elected c →
  ∃ Q, NoDup Q ∧ (quorum_size vs ≤ length Q)%nat ∧
    ∀ y, y ∈ Q → y ∈ voter_ids vs ∧ (y, t, a) ∈ ballot_of x n' ++ ballots c.
Proof using ML.
  intros Hinv Hx Hau Hs. destruct (inv_node _ Hinv x n Hx) as (Hid & Hvs & _ & _).
  pose proof (λ y, supports_ballot c x n i n' y Hinv Hx Hau Hid) as Hsup. unfold crown.
  intros [Hcr|(Q & ? & ? & HQ)%(inv_elected _ Hinv)]%elem_of_app.
  - case_decide as Hc; [|by apply not_elem_of_nil in Hcr].
    apply list_elem_of_singleton in Hcr as [= -> ->]. destruct Hc as [Hr Hc].
    destruct (step_elects _ _ _ _ Hs) as [[(Hr' & _ & Ht)|[_ ?]]|[[? _]|[_ (vs' & Q & Hvs' & HQ & Hq & Hall)]]].
    + rewrite Hr in Hr'. naive_solver.
    + done.
    + congruence.
    + assert (vs' = vs) as -> by congruence. exists Q. split_and!; [done..|].
      intros y Hy. destruct (Hall y Hy). auto.
  - exists Q. split_and!; [done..|]. intros y Hy. destruct (HQ y Hy).
    split; [done|]. apply elem_of_app. by right.
Qed.

Lemma deliver_inv c x n i n' acts :
  inv c → nodes c !! x = Some n → authentic c x i → input_u64 i → step i n = (n', acts) →
  term n' < u64_max →
  inv (mkCluster (<[x := n']> (nodes c)) (sent x acts ++ soup c)
         (ballot_of x n' ++ ballots c) (crown x n n' ++ elected c)).
Proof using ML RL.
  intros Hinv Hx Hau Hu Hs Hmax. destruct (inv_node _ Hinv x n Hx) as (Hid & Hvs & Hwf & _).
  destruct (step_preserves _ _ _ _ Hu Hs Hwf) as [Hwf' Hev].
  pose proof (step_elects _ _ _ _ Hs) as Hel.
  pose proof (λ y, supports_ballot c x n i n' y Hinv Hx Hau Hid) as Hsup.
  pose proof (λ t a, step_binds c x n n' t a Hinv Hx Hev Hmax) as Hold.
  constructor; cbn.
  - intros y m. rewrite lookup_insert_Some. intros [[<- <-]|[_ Hy]]; [|by apply Hinv].
    rewrite (ev_id _ _ Hev), (ev_voter_set _ _ Hev). by split_and!.
  - intros v t a [(-> & -> & Hv)%elem_of_ballot_of|Hb]%elem_of_app.
    { exists n'. by rewrite lookup_insert_eq. }
    destruct (decide (x = v)) as [<-|Hne].
    + exists n'. rewrite lookup_insert_eq. naive_solver.
    + rewrite lookup_insert_ne by done. by apply Hinv.
  - intros v t a b [(-> & -> & Ha)%elem_of_ballot_of|Ha]%elem_of_app
      [(Hvx & Ht & Hb)%elem_of_ballot_of|Hb]%elem_of_app; subst.
    + congruence.
    + apply Hold in Hb as [_ Hb]. rewrite Hb in Ha by done. congruence.
    + apply Hold in Ha as [_ Ha]. rewrite Ha in Hb by done. congruence.
    + by eapply (inv_unique _ Hinv).
  - intros v a r [[-> Hin]%elem_of_sent|Hin]%elem_of_app Hg; apply elem_of_app.
    + left. apply elem_of_ballot_of. destruct (step_grant _ _ _ _ _ _ Hs Hin Hg). by split_and!.
    + right. by apply Hinv.
  - intros y m z. rewrite lookup_insert_Some. intros [[<- <-]|[_ Hy]] Hr Hz.
    + destruct Hel as [[(Hr' & Hv & Ht)|[? _]]|[[_ Hall]|[? _]]]; [|done|by apply Hsup, Hall|congruence].
      apply elem_of_app. right. rewrite Ht. eapply (inv_tally _ Hinv); [done|congruence|congruence].
    + apply elem_of_app. right. by eapply (inv_tally _ Hinv).
  - intros t a. by eapply deliver_elected.
  - intros y m. rewrite lookup_insert_Some. intros [[<- <-]|[_ Hy]] Hr; apply elem_of_app.
    + unfold crown. case_decide as Hc; [left; by apply list_elem_of_singleton|right].
      assert (role n = Leader ∧ term n' = term n) as [Hr' ->].
      { split; apply dec_stable; tauto. }
      by eapply inv_leader.
    + right. by eapply inv_leader.
Qed.

Lemma reachable_inv c : reachable c → inv c.
Proof using ML RL.
  intros (c0 & Hf & Hr). apply fresh_inv in Hf. induction Hr as [|c1 c2 c3 Hs _ IH]; [done|].
  apply IH. destruct Hs; [by eapply deliver_inv|by eapply reboot_inv].
Qed.

(** ** Quorums intersect *)

Lemma quorums_intersect (Q1 Q2 : list N) :
  NoDup Q1 → NoDup Q2 → (∀ y, y ∈ Q1 → y ∈ voter_ids vs) → (∀ y, y ∈ Q2 → y ∈ voter_ids vs) →
  (quorum_size vs ≤ length Q1)%nat → (quorum_size vs ≤ length Q2)%nat →
  ∃ y, y ∈ Q1 ∧ y ∈ Q2.
Proof using ML.
  intros H1 H2 Hv1 Hv2 Hq1 Hq2. rewrite quorum_size_spec, unique_node_count_spec in *.
  destruct (decide (Exists (λ y, y ∈ Q2) Q1)) as [He|Hn].
  { apply Exists_exists in He as (y & ? & ?). by exists y. }
  exfalso. rewrite Exists_exists in Hn.
  assert (Q1 ++ Q2 ⊆+ remove_dups (voter_ids vs)) as Hsub%submseteq_length.
  { apply NoDup_submseteq.
    - apply NoDup_app. split_and!; [done| |done]. naive_solver.
    - intros y. rewrite elem_of_app, elem_of_remove_dups. naive_solver. }
  rewrite length_app in Hsub.
  set (u := length (remove_dups (voter_ids vs))) in *. clearbody u.
  pose proof (Nat.div_mod_eq u 2) as Hdm. pose proof (Nat.mod_upper_bound u 2 ltac:(lia)).
  lia.
Qed.

(** C1: Election safety: in every reachable state of a cluster of engines
    with the same static voter set (any number of nodes, any interleaving of
    ticks, proposals, messages that are lost, duplicated, reordered, delayed
    or, granted vote responses apart, forged, and any crashes and recoveries
    that keep the persisted hard state), at most one node has ever been
    elected leader in a term. *)
Theorem election_safety c t a b :
  reachable c → (t, a) ∈ elected c → (t, b) ∈ elected c → a = b.
Proof using ML RL.
  intros Hinv%reachable_inv (Q1 & HQ1 & Hq1 & Hb1)%(inv_elected _ Hinv)
    (Q2 & HQ2 & Hq2 & Hb2)%(inv_elected _ Hinv).
  destruct (quorums_intersect Q1 Q2) as (y & Hy1 & Hy2); [done..|naive_solver|naive_solver|done|done|].
  eapply (inv_unique _ Hinv); [by apply Hb1|by apply Hb2].
Qed.

(** Two nodes of a reachable cluster that are leaders in the same term
    are the same node, whatever the network did. *)
Theorem at_most_one_leader c x y n m :
  reachable c → nodes c !! x = Some n → nodes c !! y = Some m →
  role n = Leader → role m = Leader → term n = term m → x = y.
Proof using ML RL.
  intros Hinv%reachable_inv Hx Hy Hn Hm Ht.
  destruct (inv_elected _ Hinv _ _ (inv_leader _ Hinv _ _ Hx Hn)) as (Q1 & HQ1 & Hq1 & Hb1).
  destruct (inv_elected _ Hinv _ _ (inv_leader _ Hinv _ _ Hy Hm)) as (Q2 & HQ2 & Hq2 & Hb2).
  destruct (quorums_intersect Q1 Q2) as (z & Hz1 & Hz2); [done..|naive_solver|naive_solver|done|done|].
  eapply (inv_unique _ Hinv z (term n)); [by apply Hb1|]. rewrite Ht. by apply Hb2.
Qed.
End Cluster.

Import Concrete.

(** ** Executable runs, for the witnesses *)

#[local] Instance VoteResponse_eq_dec : EqDecision VoteResponse.
Proof. solve_decision. Defined.

Definition input_u64b (i : Input) : bool :=
  match i with
  | InVoteRequest r => vrq_term r <=? u64_max
  | InVoteResponse _ r => vrs_term r <=? u64_max
  | InPreVoteResponse _ r => pvs_term r <=? u64_max
  | InFetchRequest r => frq_leader_epoch r <=? u64_max
  | InFetchResponse r => frs_leader_epoch r <=? u64_max
  | InSnapshotInstalled m => last_included_index m <=? u64_max
  | _ => true
  end.
Definition authenticb (c : cluster) (x : N) (i : Input) : bool :=
  match i with
  | InVoteResponse from r =>
      if vrs_vote_granted r then bool_decide ((from, x, r) ∈ soup c) else true
  | _ => true
  end.

Fixpoint deliver_all (c : cluster) (l : list (N * Input)) : option cluster :=
  match l with
  | [] => Some c
  | (x, i) :: l =>
      match nodes c !! x with
      | None => None
      | Some n =>
          let '(n', acts) := step i n in
          if authenticb c x i && input_u64b i && (term n' <? u64_max) then
            deliver_all (mkCluster (<[x := n']> (nodes c)) (sent x acts ++ soup c)
                           (ballot_of x n' ++ ballots c) (crown x n n' ++ elected c)) l
          else None
      end
  end.

Lemma deliver_all_rtc c l c' : deliver_all c l = Some c' → rtc cstep c c'.
Proof.
  revert c. induction l as [|[x i] l IH]; intros c; simpl; [by intros [= ->]|].
  destruct (nodes c !! x) as [n|] eqn:Hx; [|done].
  destruct (step i n) as [n' acts] eqn:Hs.
  destruct (authenticb c x i) eqn:Ha; [|done]. destruct (input_u64b i) eqn:Hu; [|done].
  destruct (term n' <? u64_max) eqn:Ht; [|done]. simpl. intros Hl.
  eapply rtc_l; [|by apply IH]. apply (CDeliver c x n i n' acts); [done| | |done|by apply N.ltb_lt].
  - destruct i; try done. simpl in *. intros Hg. rewrite Hg in Ha. by apply bool_decide_eq_true in Ha.
  - unfold u64. destruct i; simpl in *; try done; by apply N.leb_le.
Qed.

Definition cluster0 : cluster := mkCluster {[1 := node1; 2 := node2]} [] [] [].
Definition pre_granted : PreVoteResponse := mkPreVoteResponse "c" 0 0 true None.
Definition script : list (N * Input) :=
  replicate (N.to_nat (timeout_ticks (election_timer node1))) (1, InTick) ++
  [(1, InPreVoteResponse 2 pre_granted);
   (2, InVoteRequest (mkVoteRequest "c" 0 1 1 0 0));
   (1, InVoteResponse 2 (mkVoteResponse "c" 0 1 true None))].
Definition cluster1 : cluster := default cluster0 (deliver_all cluster0 script).

Example cluster1_led :
  (λ n, (role n, term n)) <$> nodes cluster1 !! 1 = Some (Leader, 1) ∧ elected cluster1 = [(1, 1)].
Proof. split; vm_compute; reflexivity. Qed.

Lemma cluster1_reachable : reachable (voters_of node1) cluster1.
Proof.
  exists cluster0. split.
  - split_and!; [done..|]. intros x n Hx.
    assert ((x = 1 ∧ n = node1) ∨ (x = 2 ∧ n = node2)) as [[-> ->]|[-> ->]].
    { unfold cluster0 in Hx. cbn [nodes] in Hx. rewrite lookup_insert_Some in Hx.
      destruct Hx as [[<- <-]|[_ Hx]]; [by left|]. apply lookup_singleton_Some in Hx as [<- <-].
      by right. }
    + split; [vm_compute; reflexivity|]. split; [vm_compute; reflexivity|].
      exists (base 1 three []), 7. vm_compute. reflexivity.
    + split; [vm_compute; reflexivity|]. split; [vm_compute; reflexivity|].
      exists (base 2 three []), 7. vm_compute. reflexivity.
  - apply (deliver_all_rtc _ script). vm_compute. reflexivity.
Qed.

Lemma election_safety_witness : (1, 1) ∈ elected cluster1 ∧ 1 = 1.
Proof.
  assert ((1, 1) ∈ elected cluster1) as H by (apply (bool_decide_unpack _); vm_compute; exact I).
  split; [exact H|].
  exact (election_safety (voters_of node1) cluster1 1 1 1 cluster1_reachable H H).
Defined.

Lemma at_most_one_leader_witness :
  ∃ n, nodes cluster1 !! 1 = Some n ∧ role n = Leader ∧ 1 = 1.
Proof.
  exists (default fallback (nodes cluster1 !! 1)).
  assert (nodes cluster1 !! 1 = Some (default fallback (nodes cluster1 !! 1))) as Hx
    by (vm_compute; reflexivity).
  assert (role (default fallback (nodes cluster1 !! 1)) = Leader) as Hr by (vm_compute; reflexivity).
  split; [exact Hx|]. split; [exact Hr|].
  exact (at_most_one_leader (voters_of node1) cluster1 1 1 _ _ cluster1_reachable Hx Hx Hr Hr eq_refl).
Defined.
