(* ===== verification/Timing.v ===== *)
(** * Timing: election timeout, leader stickiness, Check-Quorum and the lease

    Behaviour over sequences of [InTick]: when an election starts, why a live
    leader is not disturbed, and when a leader may believe in its quorum. *)

From S2P Require Import Prelude CoreTypes Message Text Config ElectionTimer RaftNode NodeFacts NodeInvariant NodeSafety Concrete.

Section Timing.
Context {MA : MembershipApi} {RA : RngApi} {HI : HashIter}.
Implicit Types n : RaftNode.

(** ** Silence *)

(** [k] ticks with nothing received in between. *)
Fixpoint ticks (k : nat) n : RaftNode * list Action :=
  match k with
  | O => (n, [])
  | S k => let '(n, a1) := handle_tick n in let '(n, a2) := ticks k n in (n, a1 ++ a2)
  end.

Definition is_fetch (a : Action) : Prop := ∃ to req, a = SendMessage to (MsgFetchRequest req).

(** One tick of a follower before its timer expires. *)
Lemma tick_follower n n' acts :
  role n = Follower → sat_add (elapsed_ticks (election_timer n)) 1 < timeout_ticks (election_timer n) →
  handle_tick n = (n', acts) →
  (∃ v, n' = n <| logical_tick := sat_add (logical_tick n) 1 |>
              <| election_timer := Timer.tick (election_timer n) |> <| last_fetch_tick := v |>) ∧
  Forall is_fetch acts.
Proof.
  intros Hr Hlt. unfold handle_tick.
  set (n0 := n <| logical_tick := _ |> <| election_timer := _ |>).
  destruct (schedule_fetch n0) as [n1 f] eqn:E1. apply schedule_fetch_shape in E1 as [[v ->] Hf].
  unfold check_quorum_tick. rewrite bool_decide_false by (simpl; congruence). cbn [andb].
  assert (Timer.is_expired (election_timer (n0 <| last_fetch_tick := v |>)) = false) as ->.
  { apply bool_decide_eq_false. cbn. lia. }
  intros [<- <-]%pair_inv. split; [by exists v|by apply Forall_forall].
Qed.

Lemma ticks_follower k n n' acts :
  role n = Follower →
  elapsed_ticks (election_timer n) + N.of_nat k < timeout_ticks (election_timer n) →
  ticks k n = (n', acts) →
  role n' = Follower ∧ hard_state n' = hard_state n ∧ leader_id n' = leader_id n ∧
  last_leader_contact_tick n' = last_leader_contact_tick n ∧ voter_set n' = voter_set n ∧
  id n' = id n ∧ peers n' = peers n ∧ config n' = config n ∧
  election_timer n' = (election_timer n) <| elapsed_ticks := elapsed_ticks (election_timer n')|> ∧
  elapsed_ticks (election_timer n') ≤ elapsed_ticks (election_timer n) + N.of_nat k ∧
  (timeout_ticks (election_timer n) ≤ u64_max →
   elapsed_ticks (election_timer n') = elapsed_ticks (election_timer n) + N.of_nat k) ∧
  logical_tick n' ≤ logical_tick n + N.of_nat k ∧ Forall is_fetch acts.
Proof.
  revert n acts. induction k as [|k IH]; intros n acts Hr Hlt; simpl.
  - intros [<- <-]%pair_inv. split_and!; try done; try lia. by destruct (election_timer n).
  - destruct (handle_tick n) as [n1 a1] eqn:E1. destruct (ticks k n1) as [n2 a2] eqn:E2.
    intros [<- <-]%pair_inv.
    assert (sat_add (elapsed_ticks (election_timer n)) 1 ≤ elapsed_ticks (election_timer n) + 1) as Hs
      by (unfold sat_add; lia).
    apply tick_follower in E1 as [[v ->] Hf1]; [|done|lia].
    apply IH in E2 as (? & ? & ? & ? & ? & ? & ? & ? & ? & Hel & Hex & Htk & Hf2); [|done|cbn; lia].
    cbn in *. split_and!; try done.
    + lia.
    + intros Hu. rewrite Hex by done. rewrite sat_add_exact by lia. lia.
    + unfold sat_add in *. lia.
    + by apply Forall_app.
Qed.

(** No premature election: a follower whose randomised timeout has not
    yet elapsed stays a follower through any number of silent ticks, keeps
    its term, vote and leader, and emits nothing but fetch requests. *)
Theorem no_election_before_timeout k n n' acts :
  role n = Follower →
  elapsed_ticks (election_timer n) + N.of_nat k < timeout_ticks (election_timer n) →
  ticks k n = (n', acts) →
  role n' = Follower ∧ hard_state n' = hard_state n ∧ leader_id n' = leader_id n ∧
  (∀ a, a ∈ acts → ∃ to req, a = SendMessage to (MsgFetchRequest req)).
Proof.
  intros Hr Hlt (? & ? & ? & _ & _ & _ & _ & _ & _ & _ & _ & _ & Hf)%ticks_follower; [|done..].
  rewrite Forall_forall in Hf. by split_and!.
Qed.

Lemma elem_of_broadcast_iff `{!HashIterLaws HI} n m i :
  SendMessage i m ∈ broadcast n m ↔ is_voter <$> peers n !! i = Some true.
Proof.
  unfold broadcast. rewrite list_elem_of_fmap. split.
  - intros ([j p] & [= ->] & [Hv Hin]%list_elem_of_filter). simpl in *.
    rewrite hash_iter_perm, elem_of_map_to_list in Hin. rewrite Hin. simpl. by rewrite Hv.
  - intros Hp. destruct (peers n !! i) as [p|] eqn:E; [|done]. simpl in Hp. injection Hp as Hv.
    exists (i, p). split; [done|]. apply list_elem_of_filter. split; [done|].
    by rewrite hash_iter_perm, elem_of_map_to_list.
Qed.

Lemma pre_candidate_tally `{!MembershipLaws MA} n x :
  x ∈ vg_iter (pre_votes_received (pre_candidate_state n)) → x = id n.
Proof.
  unfold pre_candidate_state. cbn. rewrite vg_insert_iter, vg_clear_iter.
  intros [?|?%not_elem_of_nil]; done.
Qed.

Lemma pre_candidate_same n :
  voter_set (pre_candidate_state n) = voter_set n ∧ peers (pre_candidate_state n) = peers n ∧
  pre_vote_request_of (pre_candidate_state n) = pre_vote_request_of n.
Proof. split_and!; reflexivity. Qed.

Lemma pre_candidate_no_quorum `{!MembershipLaws MA} n vs :
  voter_set n = Some vs → (2 ≤ quorum_size vs)%nat →
  has_pre_election_quorum (pre_candidate_state n) = false.
Proof.
  destruct (pre_candidate_same n) as (Hv & _ & _).
  intros Hvs Hq. unfold has_pre_election_quorum. rewrite Hv, Hvs.
  apply bool_decide_eq_false. unfold count_voters.
  pose proof (pre_candidate_tally n) as Ht. revert Ht.
  generalize (pre_votes_received (pre_candidate_state n)). intros s Ht.
  assert (filter (λ i, i ∈ voter_ids vs) (vg_iter s) ⊆+ [id n]) as H%submseteq_length.
  { apply NoDup_submseteq; [apply NoDup_filter, vg_iter_NoDup|].
    intros x [_ Hx]%list_elem_of_filter. rewrite (Ht x Hx). by apply list_elem_of_singleton. }
  simpl in H. lia.
Qed.

(** The pre-candidacy of a cluster with a real quorum. *)
Lemma become_pre_candidate_alone `{!MembershipLaws MA} n n' acts vs :
  voter_set n = Some vs → (2 ≤ quorum_size vs)%nat →
  become_pre_candidate n = (n', acts) →
  n' = pre_candidate_state n ∧
  acts = broadcast n (MsgPreVoteRequest (pre_vote_request_of n)).
Proof.
  intros Hvs Hq. unfold become_pre_candidate. rewrite (pre_candidate_no_quorum n vs Hvs Hq).
  destruct (pre_candidate_same n) as (_ & Hp & ->).
  intros [<- <-]%pair_inv. split; [reflexivity|]. rewrite (right_id_L [] (++)).
  unfold broadcast. by rewrite Hp.
Qed.

(** The last of several ticks. *)
Lemma ticks_snoc j n m a :
  ticks (S j) n = (m, a) →
  ∃ n1 a1 a2, ticks j n = (n1, a1) ∧ handle_tick n1 = (m, a2) ∧ a = a1 ++ a2.
Proof.
  revert n m a. induction j as [|j IH]; intros n m a.
  - simpl. destruct (handle_tick n) as [n1 a1] eqn:E. intros [<- <-]%pair_inv.
    exists n, [], a1. split_and!; [done..|]. by rewrite (right_id_L [] (++)).
  - cbn [ticks]. destruct (handle_tick n) as [n1 a1] eqn:E.
    change (match handle_tick n1 with (n2, b1) => let '(n3, b2) := ticks j n2 in (n3, b1 ++ b2) end)
      with (ticks (S j) n1).
    destruct (ticks (S j) n1) as [n2 a2] eqn:E2. intros [<- <-]%pair_inv.
    apply IH in E2 as (n3 & b1 & b2 & E3 & E4 & ->). rewrite E3.
    exists n3, (a1 ++ b1), b2. split_and!; [done..|]. by rewrite (assoc_L (++)).
Qed.

(** The ticks until the timer expires. *)
Definition ticks_left n : nat :=
  N.to_nat (timeout_ticks (election_timer n) - elapsed_ticks (election_timer n)).

(** What a follower does at the tick that completes its timeout. *)
Lemma elects_when_due `{!MembershipLaws MA} `{!HashIterLaws HI} n n' acts vs :
  role n = Follower → voter_set n = Some vs → (2 ≤ quorum_size vs)%nat →
  elapsed_ticks (election_timer n) < timeout_ticks (election_timer n) →
  u64 (timeout_ticks (election_timer n)) → ticks (ticks_left n) n = (n', acts) →
  role n' = PreCandidate ∧ hard_state n' = hard_state n ∧
  (∀ i, is_voter <$> peers n !! i = Some true →
    ∃ r, SendMessage i (MsgPreVoteRequest r) ∈ acts ∧ pvq_candidate_id r = id n ∧
         pvq_next_term r = sat_add (term n) 1).
Proof.
  intros Hr Hvs Hq Hlt Hu. unfold ticks_left.
  destruct (N.to_nat _) as [|k] eqn:Hk; [lia|].
  intros (n1 & a1 & a2 & E1 & E2 & ->)%ticks_snoc.
  apply ticks_follower in E1 as
    (Hr1 & Hh1 & _ & _ & Hvs1 & Hid1 & Hp1 & _ & Htm1 & _ & Hel & _ & _); [|done|lia].
  specialize (Hel Hu). revert E2. unfold handle_tick.
  set (n0 := n1 <| logical_tick := _ |> <| election_timer := _ |>).
  destruct (schedule_fetch n0) as [n2 f] eqn:E. apply schedule_fetch_shape in E as [[v ->] _].
  unfold check_quorum_tick. rewrite bool_decide_false by (simpl; congruence). cbn [andb].
  set (n2 := n0 <| last_fetch_tick := v |>).
  assert (Timer.is_expired (election_timer n2) = true) as ->.
  { apply bool_decide_eq_true. cbn. rewrite Hel, Htm1. cbn. unfold u64, sat_add in *. lia. }
  cbn [negb]. change (role n2) with (role n1). rewrite Hr1.
  destruct (become_pre_candidate n2) as [n3 a3] eqn:E3. intros [<- <-]%pair_inv.
  apply (become_pre_candidate_alone n2 n3 a3 vs) in E3 as [-> ->]; [|cbn; congruence|done].
  split_and!; [done..|]. intros i Hi.
  exists (pre_vote_request_of n2). split_and!; [|by cbn|].
  - apply elem_of_app; right. apply elem_of_app; right. apply elem_of_broadcast_iff.
    change (peers n2) with (peers n1). by rewrite Hp1.
  - change (sat_add (current_term (hard_state n1)) 1 = sat_add (term n) 1). by rewrite Hh1.
Qed.

(** C37: Elections start exactly on time: a follower whose voter set needs a
    quorum of at least two, and whose timer is running with a timeout of at
    least a tick, stays a follower through every number of silent ticks short
    of its timeout, with its term, vote and leader, and sends nothing but
    fetch requests; at the tick that completes the timeout it becomes a
    pre-candidate, in the same term and with the same vote, and asks every
    voter peer for a pre-vote for the next term. *)
Theorem election_at_timeout `{!MembershipLaws MA} `{!HashIterLaws HI} n vs :
  role n = Follower → voter_set n = Some vs → (2 ≤ quorum_size vs)%nat →
  elapsed_ticks (election_timer n) < timeout_ticks (election_timer n) →
  u64 (timeout_ticks (election_timer n)) →
  (∀ k n' acts, (k < ticks_left n)%nat → ticks k n = (n', acts) →
    role n' = Follower ∧ hard_state n' = hard_state n ∧ leader_id n' = leader_id n ∧
    (∀ a, a ∈ acts → ∃ to req, a = SendMessage to (MsgFetchRequest req))) ∧
  (∀ n' acts, ticks (ticks_left n) n = (n', acts) →
    role n' = PreCandidate ∧ hard_state n' = hard_state n ∧
    (∀ i, is_voter <$> peers n !! i = Some true →
      ∃ r, SendMessage i (MsgPreVoteRequest r) ∈ acts ∧ pvq_candidate_id r = id n ∧
           pvq_next_term r = sat_add (term n) 1)).
Proof.
  intros Hr Hvs Hq Hlt Hu. split.
  - intros k n' acts Hk Ht. unfold ticks_left in Hk.
    apply ticks_follower in Ht as (? & ? & ? & _ & _ & _ & _ & _ & _ & _ & _ & _ & Hf); [|done|lia].
    rewrite Forall_forall in Hf. by split_and!.
  - intros n' acts. by eapply elects_when_due.
Qed.

(** ** Leader stickiness *)

Lemma process_fetch_payload_timing resp n n' acts :
  process_fetch_payload resp n = (n', acts) →
  role n' = role n ∧ election_timer n' = election_timer n ∧ logical_tick n' = logical_tick n ∧
  last_leader_contact_tick n' = last_leader_contact_tick n.
Proof.
  unfold process_fetch_payload, accept_entries, propagate_high_watermark.
  destruct (frs_snapshot_redirect resp); [by intros [<- _]%pair_inv|].
  destruct (frs_diverging_epoch resp); [by intros [<- _]%pair_inv|].
  destruct (last _) as [l|].
  - destruct (negb _); [by intros [<- _]%pair_inv|].
    case_decide; [|by intros [<- _]%pair_inv].
    destruct (drain_apply_pipeline _) as [n1 d] eqn:E. intros [<- _]%pair_inv.
    by apply drain_shape in E as (f & -> & _).
  - case_decide; [|by intros [<- _]%pair_inv]. by intros (f & -> & _)%drain_shape.
Qed.

(** A fetch response accepted by a follower in its own term. *)
Lemma accepted_contact resp n n' acts :
  role n = Follower → frs_cluster_id resp = cluster_id (config n) → frs_is_leader resp = true →
  is_known_voter n (frs_leader_id resp) = true → frs_leader_epoch resp = term n →
  (leader_id n = None ∨ leader_id n = Some (frs_leader_id resp)) →
  handle_fetch_response resp n = (n', acts) →
  role n' = Follower ∧ elapsed_ticks (election_timer n') = 0 ∧
  last_leader_contact_tick n' = Some (logical_tick n').
Proof.
  intros Hr Hc Hl Hk He Hli. unfold handle_fetch_response.
  rewrite (decide_False (P:=frs_cluster_id resp ≠ _)) by (intros Hne; done).
  rewrite Hl, Hk. cbn [negb]. rewrite (decide_False (P:=frs_leader_epoch resp < term n)) by lia.
  rewrite (decide_False (P:=term n < frs_leader_epoch resp)) by lia.
  rewrite decide_False by congruence.
  assert ((match leader_id n with
           | Some known => bool_decide (known ≠ frs_leader_id resp)
           | None => false end) = false) as ->.
  { destruct Hli as [-> | ->]; [done|]. by apply bool_decide_eq_false; intros []. }
  unfold adopt_leader. rewrite Hr.
  set (m := match leader_id n with None => _ | Some _ => _ end).
  assert (∃ n2, m = (n2, []) ∧ role n2 = Follower ∧ logical_tick n2 = logical_tick n)
    as (n2 & -> & Hr2 & Ht2) by (subst m; destruct (leader_id n); eauto).
  destruct (process_fetch_payload resp _) as [n3 a3] eqn:E. intros [<- _]%pair_inv.
  apply process_fetch_payload_timing in E as (-> & -> & -> & ->).
  split_and!; [done| |done]. unfold reset_timer, Timer.reset. cbn.
  by destruct (Timer.pick_in_range _ _ _).
Qed.

(** A live leader is not disturbed: after a follower accepts a fetch
    response from its leader, it grants no pre-vote, whatever the request
    claims, until as many ticks as its (fresh) election timeout have passed
    without hearing from the leader again. *)
Theorem leader_contact_blocks_pre_votes resp n n1 a1 k n2 a2 req to r :
  role n = Follower → frs_cluster_id resp = cluster_id (config n) → frs_is_leader resp = true →
  is_known_voter n (frs_leader_id resp) = true → frs_leader_epoch resp = term n →
  (leader_id n = None ∨ leader_id n = Some (frs_leader_id resp)) →
  handle_fetch_response resp n = (n1, a1) → ticks k n1 = (n2, a2) →
  N.of_nat k < timeout_ticks (election_timer n1) →
  SendMessage to (MsgPreVoteResponse r) ∈ handle_pre_vote_request req n2 →
  pvs_vote_granted r = false.
Proof.
  intros Hr Hc Hl Hk He Hli Hf Ht Hlt.
  apply accepted_contact in Hf as (Hr1 & He1 & Hct1); [|done..].
  apply ticks_follower in Ht as
    (Hr2 & _ & _ & Hct2 & _ & _ & _ & _ & Htm2 & _ & _ & Htk & _); [|done|rewrite He1; lia].
  assert (leader_recently_active n2 = true) as Hact.
  { unfold leader_recently_active. rewrite decide_False by congruence.
    rewrite Hct2, Hct1, Htm2. apply bool_decide_eq_true. cbn. lia. }
  unfold handle_pre_vote_request. intros Hin.
  case_decide; [by apply not_elem_of_nil in Hin|].
  case_decide; [by apply not_elem_of_nil in Hin|].
  destruct (negb (is_known_voter n2 _)); [by apply not_elem_of_nil in Hin|].
  apply list_elem_of_singleton in Hin. injection Hin as _ ->. cbn.
  rewrite Hact. by rewrite andb_false_r.
Qed.

(** ** Check-Quorum *)

Lemma tick_leader n :
  role n = Leader →
  let n0 := n <| logical_tick := sat_add (logical_tick n) 1 |>
              <| election_timer := Timer.tick (election_timer n) |> in
  schedule_fetch n0 = (n0, []).
Proof.
  intros Hr n0. unfold schedule_fetch. rewrite decide_False; [done|]. subst n0. cbn.
  rewrite Hr. by intros [].
Qed.

(** Check-Quorum: on a tick a leader steps down, unpersisted and without
    a known leader, exactly when the check is enabled, its interval is
    complete, and the leader has not heard from a quorum within the interval;
    otherwise it stays leader and emits nothing. *)
Theorem check_quorum_step_down n n' acts :
  role n = Leader → handle_tick n = (n', acts) →
  if decide (enable_check_quorum (config n) = true ∧
             check_quorum_interval_ticks n ≤ sat_add (check_quorum_elapsed_ticks n) 1 ∧
             check_quorum_reachable (n <| logical_tick := sat_add (logical_tick n) 1 |>) = false)
  then role n' = Follower ∧ leader_id n' = None ∧ leader_no_op_index n' = None ∧
       hard_state n' = hard_state n ∧ acts = [StepDown]
  else role n' = Leader ∧ hard_state n' = hard_state n ∧ leader_id n' = leader_id n ∧ acts = [].
Proof.
  intros Hr. unfold handle_tick. rewrite (tick_leader n Hr).
  set (n0 := n <| logical_tick := _ |> <| election_timer := _ |>).
  unfold check_quorum_tick.
  rewrite (bool_decide_true (role n0 = Leader)) by done. cbn [andb].
  change (enable_check_quorum (config n0)) with (enable_check_quorum (config n)).
  set (n1 := n0 <| check_quorum_elapsed_ticks := _ |>).
  change (check_quorum_interval_ticks n1) with (check_quorum_interval_ticks n).
  change (check_quorum_elapsed_ticks n1) with (sat_add (check_quorum_elapsed_ticks n) 1).
  set (n2 := n1 <| check_quorum_elapsed_ticks := 0 |>).
  change (check_quorum_reachable n2) with
    (check_quorum_reachable (n <| logical_tick := sat_add (logical_tick n) 1 |>)).
  assert (∀ m, role m = Leader → hard_state m = hard_state n → leader_id m = leader_id n →
    ∀ n' acts, (if negb (Timer.is_expired (election_timer m)) then (m, [])
     else match role m with
          | Follower | PreCandidate | Candidate =>
              let '(m, a) := become_pre_candidate m in (m, [] ++ a)
          | Leader | Observer => (m, []) end) = (n', acts) →
    role n' = Leader ∧ hard_state n' = hard_state n ∧ leader_id n' = leader_id n ∧ acts = []) as Hstay.
  { intros m Hm Hh Hld n3 a3. rewrite Hm.
    destruct (negb _); intros [<- <-]%pair_inv; by split_and!. }
  destruct (enable_check_quorum (config n)); [|rewrite decide_False by naive_solver; by apply Hstay].
  destruct (decide (check_quorum_interval_ticks n ≤ _)) as [Hle|Hle];
    [|rewrite decide_False by naive_solver; by apply Hstay].
  destruct (check_quorum_reachable _); [rewrite decide_False by naive_solver; by apply Hstay|].
  rewrite decide_True by done.
  destruct (become_follower (term n2) None n2) as [n3 a] eqn:E. intros [<- <-]%pair_inv.
  pose proof (become_follower_same _ _ _ _ E) as Hh.
  apply become_follower_fields in E as
    (_ & _ & _ & _ & Hr3 & _ & _ & _ & _ & Hl3 & _ & _ & _ & Hno & _ & _ & _ & _ & _ & _ & ->).
  change (role n2) with (role n) in *. rewrite Hr in *.
  rewrite decide_False in Hr3 by done. rewrite decide_False by lia. by split_and!.
Qed.

(** ** Counting contacts *)

(** [x] counts for the node: itself, or a tracked peer satisfying [p]. *)
Definition counted n (p : PeerState → bool) (x : N) : bool :=
  bool_decide (x = id n) || match peers n !! x with Some ps => p ps | None => false end.

Lemma count_fold (V : list N) (p : PeerState → bool) (l : list (N * PeerState)) acc :
  foldl (λ (acc : nat) '(i, ps), if decide (i ∈ V) then (if p ps then S acc else acc) else acc)
    acc l =
  (acc + length (filter (λ ip : N * PeerState, ip.1 ∈ V ∧ p ip.2 = true) l))%nat.
Proof.
  revert acc. induction l as [|[i ps] l IH]; intros acc; simpl; [lia|].
  rewrite IH, filter_cons. simpl.
  destruct (decide (i ∈ V)), (p ps) eqn:Hp;
    [rewrite decide_True by done|rewrite decide_False by naive_solver..]; simpl; lia.
Qed.

Lemma NoDup_fst_filter {K V} (P : K * V → Prop) `{∀ x, Decision (P x)} (l : list (K * V)) :
  NoDup l.*1 → NoDup (filter P l).*1.
Proof.
  induction l as [|[k v] l IH]; [done|]. cbn [fmap list_fmap fst]. intros [Hk Hl]%NoDup_cons.
  rewrite filter_cons. destruct (decide (P (k, v))); [|by apply IH]. cbn.
  apply NoDup_cons. split; [|by apply IH]. intros ([k' v'] & -> & [_ Hin]%list_elem_of_filter)%list_elem_of_fmap.
  apply Hk. apply list_elem_of_fmap. by exists (k', v').
Qed.

(** The counting loop counts distinct voters, each once. *)
Lemma count_peers_spec `{!HashIterLaws HI} vs n p :
  peers n !! id n = None →
  count_peers vs n p = length (filter (λ x, counted n p x = true) (remove_dups (voter_ids vs))).
Proof.
  intros Hself. unfold count_peers. rewrite count_fold.
  set (F := filter _ (hash_iter (peers n))).
  set (L := (if decide (id n ∈ voter_ids vs) then [id n] else []) ++ F.*1).
  transitivity (length L).
  { subst L. rewrite length_app, length_fmap. by case_decide. }
  assert (∀ x, x ∈ F.*1 ↔ x ∈ voter_ids vs ∧ ∃ ps, peers n !! x = Some ps ∧ p ps = true) as HF.
  { intros x. rewrite list_elem_of_fmap. split.
    - intros ([i ps] & -> & [[Hv Hp] Hin]%list_elem_of_filter).
      rewrite hash_iter_perm, elem_of_map_to_list in Hin. eauto.
    - intros (Hv & ps & Hx & Hp). exists (x, ps). split; [done|].
      apply list_elem_of_filter. split; [done|]. by rewrite hash_iter_perm, elem_of_map_to_list. }
  apply Permutation_length, NoDup_Permutation.
  - apply NoDup_app. split_and!.
    + case_decide; [apply NoDup_singleton|apply NoDup_nil_2].
    + intros x Hx [_ (ps & Hps & _)]%HF. case_decide; [|by apply not_elem_of_nil in Hx].
      apply list_elem_of_singleton in Hx as ->. congruence.
    + subst F. assert (NoDup (hash_iter (peers n)).*1) as Hnd
        by (rewrite hash_iter_perm; apply NoDup_fst_map_to_list).
      by apply NoDup_fst_filter.
  - apply NoDup_filter, NoDup_remove_dups.
  - intros x. unfold L. rewrite elem_of_app, HF, list_elem_of_filter, elem_of_remove_dups.
    unfold counted. rewrite orb_true_iff, bool_decide_eq_true.
    destruct (decide (id n ∈ voter_ids vs)); rewrite ?list_elem_of_singleton, ?elem_of_nil;
      destruct (peers n !! x); naive_solver.
Qed.

(** A leader lease is honest: when [has_active_lease] answers yes, the
    node is leader and a quorum of distinct voters (itself included) has
    contacted it after it became leader and within the last Check-Quorum
    interval; in particular Check-Quorum would not depose it. *)
Theorem lease_has_recent_quorum `{!HashIterLaws HI} n :
  peers n !! id n = None → has_active_lease n = true →
  role n = Leader ∧ check_quorum_reachable n = true ∧
  ∃ vs started Q, voter_set n = Some vs ∧ leader_started_tick n = Some started ∧
    NoDup Q ∧ (quorum_size vs ≤ length Q)%nat ∧
    ∀ x, x ∈ Q → x ∈ voter_ids vs ∧
      (x = id n ∨ ∃ ps, peers n !! x = Some ps ∧ started < last_fetch_time ps ∧
         logical_tick n - last_fetch_time ps < check_quorum_interval_ticks n).
Proof.
  intros Hself. unfold has_active_lease, check_quorum_reachable.
  destruct (enable_leader_lease _); [|done]. cbn [negb].
  destruct (decide (role n ≠ Leader)) as [|Hr%dec_stable]; [done|].
  destruct (voter_set n) as [vs|]; [|done].
  destruct (leader_started_tick n) as [st|]; [|done].
  rewrite !bool_decide_eq_true, !count_peers_spec by done.
  set (pl := λ ps, if decide (last_fetch_time ps ≤ st) then false else in_window n ps).
  intros Hq. split; [done|]. split.
  - etransitivity; [exact Hq|]. apply submseteq_length, NoDup_submseteq;
      [apply NoDup_filter, NoDup_remove_dups|].
    intros x. rewrite !list_elem_of_filter. intros [Hc Hx]. split; [|done]. revert Hc.
    unfold counted. destruct (bool_decide (x = id n)); [done|]. simpl.
    destruct (peers n !! x) as [ps|]; [|done]. unfold pl. by case_decide.
  - exists vs, st, (filter (λ x, counted n pl x = true) (remove_dups (voter_ids vs))).
    split; [reflexivity|]. split; [reflexivity|].
    split; [apply NoDup_filter, NoDup_remove_dups|]. split; [exact Hq|].
    intros x [Hc Hx]%list_elem_of_filter. rewrite elem_of_remove_dups in Hx. split; [done|].
    revert Hc. unfold counted. rewrite orb_true_iff, bool_decide_eq_true.
    intros [Hc|Hc]; [by left|]. right. destruct (peers n !! x) as [ps|]; [|done].
    exists ps. split; [done|]. unfold pl, in_window in Hc.
    case_decide; [done|]. apply bool_decide_eq_true in Hc. lia.
Qed.
End Timing.

Import Concrete.

(** ** Witnesses *)

Lemma no_election_before_timeout_witness :
  role (ticks 3 node1).1 = Follower ∧ hard_state (ticks 3 node1).1 = hard_state node1.
Proof.
  destruct (no_election_before_timeout 3 node1 (ticks 3 node1).1 (ticks 3 node1).2)
    as (H1 & H2 & _);
    [vm_compute; reflexivity|vm_compute; reflexivity|apply surjective_pairing|]. split; [exact H1|exact H2].
Defined.

(** A tick short of its timeout [node1] still follows; the next one makes it
    ask node 2. *)
Lemma election_at_timeout_witness :
  role (ticks (pred (ticks_left node1)) node1).1 = Follower ∧
  role (ticks (ticks_left node1) node1).1 = PreCandidate ∧
  ∃ r, SendMessage 2 (MsgPreVoteRequest r) ∈ (ticks (ticks_left node1) node1).2 ∧ pvq_next_term r = 1.
Proof.
  destruct (election_at_timeout node1 (voters_of node1)) as [Hbefore Hat].
  - vm_compute. reflexivity.
  - vm_compute. reflexivity.
  - vm_compute. apply le_n.
  - vm_compute. reflexivity.
  - vm_compute. discriminate.
  - destruct (Hat _ _ (surjective_pairing (ticks (ticks_left node1) node1))) as (H1 & _ & H2).
    split; [|split; [exact H1|]].
    + apply (Hbefore _ _ _ ltac:(vm_compute; apply le_n)
               (surjective_pairing (ticks (pred (ticks_left node1)) node1))).
    + destruct (H2 2 ltac:(vm_compute; reflexivity)) as (r & Hr & _ & Hn). exists r. split; [exact Hr|].
      rewrite Hn. vm_compute. reflexivity.
Defined.

Definition contact : FetchResponse := mkFetchResponse "c" 0 1 0 [] None None true.
Definition followed : RaftNode := (handle_fetch_response contact node2).1.
Definition probe : PreVoteRequest := mkPreVoteRequest "c" 0 9 3 100 100.

Lemma leader_contact_blocks_pre_votes_witness :
  ∃ to r, SendMessage to (MsgPreVoteResponse r) ∈ handle_pre_vote_request probe (ticks 3 followed).1 ∧
    pvs_vote_granted r = false.
Proof.
  assert (SendMessage 3 (MsgPreVoteResponse (build_pre_vote_response (ticks 3 followed).1 false)) ∈
    handle_pre_vote_request probe (ticks 3 followed).1) as Hin.
  { replace (handle_pre_vote_request probe (ticks 3 followed).1) with
      [SendMessage 3 (MsgPreVoteResponse (build_pre_vote_response (ticks 3 followed).1 false))]
      by (vm_compute; reflexivity). by apply list_elem_of_singleton. }
  eexists _, _. split; [exact Hin|].
  apply (leader_contact_blocks_pre_votes contact node2 followed (handle_fetch_response contact node2).2
           3 (ticks 3 followed).1 (ticks 3 followed).2 probe 3 _);
    [vm_compute; reflexivity..|left; vm_compute; reflexivity|apply surjective_pairing
    |apply surjective_pairing|vm_compute; reflexivity|exact Hin].
Defined.

Definition weary : RaftNode :=
  lead1 <| check_quorum_elapsed_ticks := check_quorum_interval_ticks lead1 |>
        <| logical_tick := 1000 |>.

Lemma check_quorum_step_down_witness :
  role (handle_tick weary).1 = Follower ∧ (handle_tick weary).2 = [StepDown].
Proof.
  pose proof (check_quorum_step_down weary (handle_tick weary).1 (handle_tick weary).2
    ltac:(vm_compute; reflexivity) ltac:(apply surjective_pairing)) as H.
  rewrite decide_True in H by (vm_compute; split_and!; [reflexivity|discriminate|reflexivity]).
  destruct H as (H1 & _ & _ & _ & H2). split; [exact H1|exact H2].
Defined.

(** A leader that has just been contacted by node 2. *)
Definition leased : RaftNode :=
  (run (lead1 <| logical_tick := 5 |>) [InFetchRequest (mkFetchRequest "c" 1 2 1 0)]).1.

Lemma lease_has_recent_quorum_witness :
  has_active_lease leased = true ∧ check_quorum_reachable leased = true.
Proof.
  assert (has_active_lease leased = true) as H by (vm_compute; reflexivity).
  split; [exact H|]. apply (lease_has_recent_quorum leased); [vm_compute; reflexivity|exact H].
Defined.
