(* ===== verification/Replication.v ===== *)
(** * Replication

    What a leader does with fetch requests and confirmations, and what a
    follower accepts from a fetch response. *)

From S2P Require Import Prelude CoreTypes Message Text Config ElectionTimer RaftNode NodeFacts NodeInvariant NodeSafety Timing Concrete.

Section Replication.
Context {MA : MembershipApi} {RA : RngApi} {HI : HashIter}.
Implicit Types n : RaftNode.

(** ** Follower side *)

(** Consecutive indices from [from], terms that never go down. *)
Inductive batch : N → list Entry → Prop :=
| batch_one i t p : batch i [mkEntry i t p]
| batch_cons i t p e es :
    batch (i + 1) (e :: es) → t ≤ e_term e → batch i (mkEntry i t p :: e :: es).

Lemma windows_ok_batch e es :
  windows_ok e es = true → u64 (e_index e) →
  (∀ l, last (e :: es) = Some l → e_index l < u64_max) → batch (e_index e) (e :: es).
Proof.
  revert e. induction es as [|e' es IH]; intros [i t p] Hw Hu Hl; [constructor|].
  simpl in Hw. apply andb_true_iff in Hw as [Hw Hw'].
  apply andb_true_iff in Hw as [Hi%bool_decide_eq_true Ht%bool_decide_eq_true].
  cbn [e_index e_term] in *.
  assert (u64 (e_index e')) as Hu' by (rewrite Hi; apply sat_add_u64).
  destruct (last (e' :: es)) as [l|] eqn:El; [|by apply last_None in El].
  destruct (windows_ok_last e' es Hw' Hu' l El) as [Hle _].
  assert (e_index l < u64_max) as Hm by by apply Hl.
  assert (e_index e' = i + 1) as He by (unfold sat_add, u64 in *; lia).
  constructor; [|done]. rewrite <-He. apply IH; [done..|]. intros l' Hl'. by apply Hl.
Qed.

Lemma propagate_commit hw n n' acts :
  propagate_high_watermark hw n = (n', acts) →
  commit_index n' = N.max (commit_index n) (N.min hw (last_log_index n)) ∧
  last_log_index n' = last_log_index n ∧ Forall quiet acts.
Proof.
  unfold propagate_high_watermark. case_decide.
  - intros Hd. pose proof (drain_quiet _ _ _ Hd). apply drain_shape in Hd as (f & -> & _).
    cbn. split_and!; [lia|done..].
  - intros [<- <-]%pair_inv. split_and!; [lia|done|constructor].
Qed.

Lemma quiet_no_append acts es : Forall quiet acts → AppendEntries es ∉ acts.
Proof. rewrite Forall_forall. intros Hq Hin. by apply Hq in Hin. Qed.

(** An accepted batch continues the log. *)
Lemma batch_ok_batch n es l :
  batch_ok n es = true → u64 (last_log_index n) → last es = Some l → e_index l < u64_max →
  batch (last_log_index n + 1) es.
Proof.
  intros Hb Hu Hl Hm. destruct es as [|e es]; [done|]. simpl in Hb.
  apply andb_true_iff in Hb as [Hi%bool_decide_eq_true Hw].
  assert (u64 (e_index e)) as Hue by (rewrite Hi; apply sat_add_u64).
  destruct (windows_ok_last e es Hw Hue l Hl) as [Hle _].
  assert (e_index e = last_log_index n + 1) as <- by (rewrite Hi in *; unfold sat_add, u64 in *; lia).
  apply windows_ok_batch; [done..|]. intros l' Hl'. rewrite Hl in Hl'. by injection Hl' as <-.
Qed.

(** The payload of an accepted response. *)
Lemma payload_appends resp n n' acts es :
  process_fetch_payload resp n = (n', acts) → u64 (last_log_index n) →
  (AppendEntries es ∈ acts →
    es = frs_entries resp ∧ batch_ok n es = true ∧
    (∃ l, last es = Some l ∧ last_log_index n' = e_index l) ∧
    commit_index n' ≤ N.max (commit_index n) (N.min (frs_high_watermark resp) (last_log_index n'))) ∧
  ((∀ es, AppendEntries es ∉ acts) → last_log_index n' = last_log_index n).
Proof.
  unfold process_fetch_payload, accept_entries. intros Hp Hu. revert Hp.
  assert (∀ a b : Action, AppendEntries es ∈ [a; b] → AppendEntries es = a ∨ AppendEntries es = b) as H2
    by (intros; set_solver).
  destruct (frs_snapshot_redirect resp).
  { intros [<- <-]%pair_inv. split; [by intros ?%list_elem_of_singleton|done]. }
  destruct (frs_diverging_epoch resp).
  { intros [<- <-]%pair_inv. split; [by intros [?|?]%H2|done]. }
  destruct (last (frs_entries resp)) as [l|] eqn:Hl.
  - destruct (batch_ok n (frs_entries resp)) eqn:Hb; cbn [negb].
    + destruct (propagate_high_watermark _ _) as [n1 d] eqn:E. intros [<- <-]%pair_inv.
      apply propagate_commit in E as (Hc & Ht & Hq). cbn in Hc, Ht. split.
      * intros [[= ->]|Hin]%elem_of_cons; [|by apply quiet_no_append in Hin].
        split_and!; [done..|by exists l|]. rewrite Hc, Ht. lia.
      * intros Hno. exfalso. apply (Hno (frs_entries resp)), elem_of_cons. by left.
    + intros [<- <-]%pair_inv. split; [by intros ?%not_elem_of_nil|done].
  - intros (Hc & Ht & Hq)%propagate_commit. split; [by intros ?%quiet_no_append|done].
Qed.

Lemma become_follower_no_append t l n n' acts es :
  become_follower t l n = (n', acts) → AppendEntries es ∉ acts ∧ last_log_index n' = last_log_index n ∧
    commit_index n' = commit_index n.
Proof.
  unfold become_follower. case_decide; intros [<- <-]%pair_inv; (split_and!; [|done..]);
    destruct (stepping_down _); set_solver.
Qed.

Lemma adopt_leader_no_append l n n' acts es :
  adopt_leader l n = (n', acts) → AppendEntries es ∉ acts ∧ last_log_index n' = last_log_index n ∧
    commit_index n' = commit_index n.
Proof.
  unfold adopt_leader. destruct (role n); try apply become_follower_no_append;
    destruct (leader_id n); intros [<- <-]%pair_inv; (split_and!; [set_solver|done..]).
Qed.

(** A replica appends only what continues its log: if a fetch response
    makes it append entries, then they are exactly the response's entries,
    sent by a known voter claiming leadership in this cluster at no older
    term, numbered consecutively from the replica's last index plus one with
    non-decreasing terms; its tail becomes the last of them; and its commit
    index never passes the smaller of the leader's high watermark and its own
    tail.  If it appends nothing, its tail is unchanged. *)
Theorem fetch_response_appends resp n n' acts :
  u64 (last_log_index n) → last_log_index n' < u64_max →
  handle_fetch_response resp n = (n', acts) →
  (∀ es, AppendEntries es ∈ acts →
    es = frs_entries resp ∧ batch (last_log_index n + 1) es ∧
    (∃ l, last es = Some l ∧ last_log_index n' = e_index l) ∧
    frs_cluster_id resp = cluster_id (config n) ∧ frs_is_leader resp = true ∧
    is_known_voter n (frs_leader_id resp) = true ∧ term n ≤ frs_leader_epoch resp ∧
    commit_index n' ≤ N.max (commit_index n) (N.min (frs_high_watermark resp) (last_log_index n'))) ∧
  ((∀ es, AppendEntries es ∉ acts) → last_log_index n' = last_log_index n).
Proof.
  intros Hu Hm. unfold handle_fetch_response.
  assert (∀ n1 n' (acts : list Action), (n1, []) = (n', acts) → last_log_index n1 = last_log_index n →
    ∀ P : list Entry → Prop, (∀ es, AppendEntries es ∈ acts → P es) ∧
    ((∀ es, AppendEntries es ∉ acts) → last_log_index n' = last_log_index n)) as Hnone.
  { intros n1 m a [<- <-]%pair_inv Hn1 P. split; [by intros es ?%not_elem_of_nil|done]. }
  destruct (decide (frs_cluster_id resp ≠ _)) as [|Hc%dec_stable]; [intros Hx; by apply (Hnone _ _ _ Hx)|].
  destruct (frs_is_leader resp) eqn:Hl; cbn [negb]; [|intros Hx; by apply (Hnone _ _ _ Hx)].
  destruct (is_known_voter n (frs_leader_id resp)) eqn:Hk; cbn [negb]; [|intros Hx; by apply (Hnone _ _ _ Hx)].
  case_decide as He; [intros Hx; by apply (Hnone _ _ _ Hx)|].
  set (first := if decide (term n < _) then _ else _).
  assert (∃ n1 a1, first = (n1, a1) ∧ (∀ es, AppendEntries es ∉ a1) ∧
    last_log_index n1 = last_log_index n ∧ commit_index n1 = commit_index n)
    as (n1 & a1 & -> & Ha1 & Ht1 & Hc1).
  { subst first. case_decide; [|exists n, []; split_and!; [done|intros es; apply not_elem_of_nil|done..]].
    destruct (become_follower _ _ n) as [n1 a1] eqn:E. exists n1, a1.
    pose proof (λ es, become_follower_no_append _ _ _ _ _ es E) as Hb.
    split_and!; [done|intros es; apply Hb|apply (Hb [])..]. }
  case_decide; [intros Hx; by apply (Hnone _ _ _ Hx)|].
  destruct (match leader_id n1 with Some _ => _ | None => _ end); [intros Hx; by apply (Hnone _ _ _ Hx)|].
  destruct (adopt_leader _ n1) as [n2 a2] eqn:E2.
  pose proof (λ es, adopt_leader_no_append _ _ _ _ es E2) as Ha2.
  destruct (Ha2 []) as (_ & Ht2 & Hc2).
  set (n2' := reset_timer (n2 <| last_leader_contact_tick := Some (logical_tick n2) |>)).
  destruct (process_fetch_payload resp n2') as [n3 a3] eqn:E3. intros [<- <-]%pair_inv.
  assert (last_log_index n2' = last_log_index n) as Ht by (change (last_log_index n2 = last_log_index n); congruence).
  assert (commit_index n2' = commit_index n) as Hcm by (change (commit_index n2 = commit_index n); congruence).
  pose proof (λ es, payload_appends resp n2' n3 a3 es E3 ltac:(by rewrite Ht)) as Hpay.
  split.
  - intros es [Hin|[Hin|Hin]%elem_of_app]%elem_of_app; [by apply Ha1 in Hin|by apply Ha2 in Hin|].
    destruct (Hpay es) as [Hp _]. destruct (Hp Hin) as (-> & Hb & (l & Hll & Htl) & Hcl).
    rewrite Hcm in Hcl. split_and!; try done; [|by exists l|lia].
    rewrite <-Ht. apply (batch_ok_batch n2' _ l); [done|by rewrite Ht|done|by rewrite <-Htl].
  - intros Hno. destruct (Hpay []) as [_ Hp]. rewrite Hp; [done|].
    intros es Hin. apply (Hno es). rewrite !elem_of_app. auto.
Qed.

(** ** Leader side *)

(** A leader answers a valid fetch from a tracked replica with exactly
    one action, a snapshot redirect when the offset lies inside the
    compacted prefix of a named snapshot and a serve otherwise, and the
    replica's claims change no commit index, no log and no confirmed offset:
    only the contact clock of that peer moves. *)
Theorem fetch_request_served req n n' acts :
  role n = Leader → frq_cluster_id req = cluster_id (config n) → frq_replica_id req ≠ id n →
  is_Some (peers n !! frq_replica_id req) → frq_leader_epoch req ≤ term n →
  1 ≤ frq_fetch_offset req →
  handle_fetch_request req n = (n', acts) →
  acts = [match last_snapshot_meta n with
          | Some snap =>
              if decide (frq_fetch_offset req ≤ last_included_index snap ∧ sm_id snap ≠ "")
              then RedirectToSnapshot (frq_replica_id req) (cluster_id (config n)) (term n) (id n)
                     (commit_index n) snap
              else ServeFetch (frq_replica_id req) (cluster_id (config n)) (term n) (id n)
                     (commit_index n) (frq_fetch_offset req) (frq_last_fetched_epoch req)
          | None => ServeFetch (frq_replica_id req) (cluster_id (config n)) (term n) (id n)
                     (commit_index n) (frq_fetch_offset req) (frq_last_fetched_epoch req)
          end] ∧
  role n' = Leader ∧ hard_state n' = hard_state n ∧ commit_index n' = commit_index n ∧
  last_log_index n' = last_log_index n ∧ last_applied n' = last_applied n ∧
  (∀ i, last_fetch_offset <$> peers n' !! i = last_fetch_offset <$> peers n !! i) ∧
  last_fetch_time <$> peers n' !! frq_replica_id req = Some (logical_tick n).
Proof.
  intros Hr Hc Hid [p Hp] He Ho. unfold handle_fetch_request.
  rewrite decide_False by (by intros []). unfold is_self. rewrite bool_decide_false by done.
  rewrite (bool_decide_false (peers n !! _ = None)) by (by rewrite Hp). rewrite andb_false_r.
  rewrite decide_False by lia. rewrite decide_False by (by rewrite Hr; intros []).
  rewrite decide_False by lia.
  set (n1 := n <| fetch_seq := _ |>). set (n2 := n1 <| peers := _ |>).
  set (n3 := n2 <| last_leader_contact_tick := _ |>).
  intros H'.
  assert (n' = n3 ∧ acts = [match last_snapshot_meta n with
          | Some snap =>
              if decide (frq_fetch_offset req ≤ last_included_index snap ∧ sm_id snap ≠ "")
              then RedirectToSnapshot (frq_replica_id req) (cluster_id (config n)) (term n) (id n)
                     (commit_index n) snap
              else ServeFetch (frq_replica_id req) (cluster_id (config n)) (term n) (id n)
                     (commit_index n) (frq_fetch_offset req) (frq_last_fetched_epoch req)
          | None => ServeFetch (frq_replica_id req) (cluster_id (config n)) (term n) (id n)
                     (commit_index n) (frq_fetch_offset req) (frq_last_fetched_epoch req)
          end]) as [-> ->].
  { revert H'. change (last_snapshot_meta n3) with (last_snapshot_meta n).
    destruct (last_snapshot_meta n); [destruct (decide _)|]; by intros [<- <-]%pair_inv. }
  split; [done|]. split_and!; [done..| |].
  - intros i. subst n3 n2. cbn. destruct (decide (i = frq_replica_id req)) as [->|Hne].
    + rewrite lookup_alter_eq. by destruct (peers n !! frq_replica_id req).
    + by rewrite lookup_alter_ne.
  - subst n3 n2. cbn. rewrite lookup_alter_eq, Hp. done.
Qed.

(** C39: Acknowledged offsets only rise and never pass the leader's log: after
    a confirmation the replica's offset is the greater of its old value and
    the confirmed index clamped to the log tail, and no other peer's moves. *)
Theorem fetch_ack_clamped r o n n' acts p :
  role n = Leader → peers n !! r = Some p →
  handle_fetch_request_acked r o n = (n', acts) →
  last_fetch_offset <$> peers n' !! r =
    Some (N.max (last_fetch_offset p) (N.min o (last_log_index n))) ∧
  (∀ i, i ≠ r → peers n' !! i = peers n !! i) ∧ commit_index n ≤ commit_index n'.
Proof.
  intros Hr Hp. unfold handle_fetch_request_acked.
  rewrite decide_False by (by rewrite Hr; intros []).
  rewrite (bool_decide_false (peers n !! r = None)) by (by rewrite Hp). rewrite andb_false_r.
  intros (c & a & f & -> & Hc & _)%advance_and_drain_shape. cbn in *. split_and!; [|..|done].
  - rewrite lookup_alter_eq, Hp. cbn. repeat case_decide; cbn in *; f_equal; lia.
  - intros i Hi. by rewrite lookup_alter_ne.
Qed.
End Replication.

Import Concrete.

(** ** Witnesses *)

Definition feed : FetchResponse :=
  mkFetchResponse "c" 1 1 1 [mkEntry 1 1 NoOp; mkEntry 2 1 (Command [])] None None true.

Lemma fetch_response_appends_witness :
  AppendEntries (frs_entries feed) ∈ (handle_fetch_response feed node2).2 ∧
  last_log_index (handle_fetch_response feed node2).1 = 2 ∧
  batch (last_log_index node2 + 1) (frs_entries feed).
Proof.
  assert (AppendEntries (frs_entries feed) ∈ (handle_fetch_response feed node2).2) as Hin.
  { replace (handle_fetch_response feed node2).2 with
      [PersistHardState; AppendEntries (frs_entries feed); ApplyToStateMachine 1 1]
      by (vm_compute; reflexivity). apply elem_of_cons; right. apply elem_of_cons; left. reflexivity. }
  split; [exact Hin|]. split; [vm_compute; reflexivity|].
  destruct (fetch_response_appends feed node2 (handle_fetch_response feed node2).1
              (handle_fetch_response feed node2).2) as [H _];
    [vm_compute; discriminate|vm_compute; reflexivity|apply surjective_pairing|].
  destruct (H _ Hin) as (_ & Hb & _). exact Hb.
Defined.

Definition fetch2 : FetchRequest := mkFetchRequest "c" 1 2 1 0.

Lemma fetch_request_served_witness :
  commit_index (handle_fetch_request fetch2 lead1).1 = commit_index lead1 ∧
  length (handle_fetch_request fetch2 lead1).2 = 1%nat.
Proof.
  destruct (fetch_request_served fetch2 lead1 (handle_fetch_request fetch2 lead1).1
              (handle_fetch_request fetch2 lead1).2) as (Ha & _ & _ & Hc & _).
  - vm_compute. reflexivity.
  - vm_compute. reflexivity.
  - vm_compute. discriminate.
  - apply (bool_decide_unpack _). vm_compute. exact I.
  - vm_compute. discriminate.
  - vm_compute. discriminate.
  - apply surjective_pairing.
  - split; [exact Hc|]. rewrite Ha. reflexivity.
Defined.

Lemma fetch_ack_clamped_witness :
  last_fetch_offset <$> peers (handle_fetch_request_acked 2 99 lead1).1 !! 2 = Some 1.
Proof.
  destruct (fetch_ack_clamped 2 99 lead1 (handle_fetch_request_acked 2 99 lead1).1
              (handle_fetch_request_acked 2 99 lead1).2 (default (new_peer true) (peers lead1 !! 2)))
    as (H & _).
  - vm_compute. reflexivity.
  - vm_compute. reflexivity.
  - apply surjective_pairing.
  - rewrite H. vm_compute. reflexivity.
Defined.
