(* ===== verification/Boot.v ===== *)
(** * Construction

    [RaftNode::new] on a validated configuration: it cannot hit the timer's
    assertions, and the node it builds is the documented initial one. *)

From S2P Require Import Prelude CoreTypes Message Text Config ElectionTimer RaftNode NodeFacts NodeInvariant Concrete.

(** ** The peer map *)

Lemma voter_fold_lookup self (ids : list N) (m : gmap N PeerState) i :
  foldl (λ m j, if decide (j ≠ self) then <[j := new_peer true]> m else m) m ids !! i =
  if decide (i ∈ ids ∧ i ≠ self) then Some (new_peer true) else m !! i.
Proof.
  revert m. induction ids as [|j ids IH]; intros m; cbn [foldl].
  - rewrite decide_False; [done|]. by intros [?%not_elem_of_nil _].
  - rewrite IH. destruct (decide (i ∈ ids ∧ i ≠ self)) as [[Hin Hne]|Hno].
    + rewrite decide_True; [done|]. split; [by apply elem_of_cons; right|done].
    + destruct (decide (j ≠ self)) as [Hj|Hj].
      * destruct (decide (i = j)) as [->|Hij].
        { rewrite lookup_insert_eq, decide_True; [done|]. split; [by apply elem_of_cons; left|done]. }
        rewrite lookup_insert_ne, decide_False by set_solver. done.
      * rewrite decide_False; [done|]. set_solver.
Qed.

Lemma observer_fold_lookup self (ids : list N) (m : gmap N PeerState) i :
  foldl (λ m j, if decide (j = self) then m
                else match m !! j with Some _ => m | None => <[j := new_peer false]> m end) m ids !! i =
  match m !! i with
  | Some p => Some p
  | None => if decide (i ∈ ids ∧ i ≠ self) then Some (new_peer false) else None
  end.
Proof.
  revert m. induction ids as [|j ids IH]; intros m; cbn [foldl].
  - rewrite decide_False; [by destruct (m !! i)|]. by intros [?%not_elem_of_nil _].
  - rewrite IH. destruct (decide (j = self)) as [Hj|Hj].
    { destruct (m !! i); [done|].
      destruct (decide (i ∈ ids ∧ i ≠ self)), (decide (i ∈ j :: ids ∧ i ≠ self)); set_solver. }
    destruct (m !! j) as [q|] eqn:Hmj.
    + destruct (m !! i) eqn:Hmi; [done|]. assert (i ≠ j) by congruence.
      destruct (decide (i ∈ ids ∧ i ≠ self)), (decide (i ∈ j :: ids ∧ i ≠ self)); set_solver.
    + destruct (decide (i = j)) as [->|Hij].
      * rewrite lookup_insert_eq, Hmj, decide_True; [done|]. split; [by apply elem_of_cons; left|done].
      * rewrite lookup_insert_ne by done. destruct (m !! i); [done|].
        destruct (decide (i ∈ ids ∧ i ≠ self)), (decide (i ∈ j :: ids ∧ i ≠ self)); set_solver.
Qed.

Section Boot.
Context {MA : MembershipApi} {RA : RngApi} {HI : HashIter} {ML : MembershipLaws MA}
  {RL : RngLaws RA}.

(** ** The voter set *)

Lemma build_voter_set_ids c vs :
  build_voter_set c = Ok vs →
  match vs with
  | Some vs => voter_ids vs = vc_node_id <$> cfg_voters c
  | None => cfg_voters c = []
  end.
Proof using ML.
  unfold build_voter_set. destruct (cfg_voters c) as [|v l]; [by intros [= <-]|].
  rewrite rbind_Ok. intros (rs & Hrs%collect_Ok_Forall2 & H).
  destruct (try_new rs) as [s|] eqn:Hs; [|done]. injection H as <-.
  unfold voter_ids. rewrite (try_new_voters _ _ Hs). clear Hs.
  induction Hrs as [|a b l1 l2 Hab _ IH]; [done|]. cbn. rewrite IH. f_equal.
  destruct (uuid_parse_str _); [|done]. by injection Hab as <-.
Qed.

Lemma collect_Ok {E A B} (f : A → result E B) (l : list A) :
  (∀ a, a ∈ l → ∃ b, f a = Ok b) → ∃ bs, collect f l = Ok bs ∧ length bs = length l.
Proof.
  induction l as [|a l IH]; intros Hf; [by exists []|]. cbn.
  destruct (Hf a) as [b ->]; [by apply elem_of_cons; left|]. cbn.
  destruct IH as (bs & -> & Hl); [intros a' Ha; apply Hf; by apply elem_of_cons; right|].
  cbn. exists (b :: bs). split; [done|]. cbn. by rewrite Hl.
Qed.

(** On a validated configuration only [try_new] can fail. *)
Lemma build_voter_set_Err c e :
  validate c = Ok tt → build_voter_set c = Err e →
  ∃ rs, rs ≠ [] ∧ try_new rs = None ∧ e = Config "invalid voter set".
Proof.
  intros (Hb & _ & _)%validate_parts. unfold build_voter_set.
  unfold validate_voter_block in Hb. destruct (cfg_voters c) as [|v l]; [done|].
  rewrite rbind_Ok in Hb. destruct Hb as (u & Hv & _).
  apply validate_voters_Ok in Hv as (_ & _ & Hall).
  set (f := λ v : VoterConfig, _).
  destruct (collect_Ok f (v :: l)) as (rs & -> & Hlen).
  { intros w Hw. destruct (Hall w Hw) as (_ & _ & _ & uu & Huu & _). subst f. cbn.
    rewrite Huu. eauto. }
  cbn. destruct (try_new rs) eqn:Hs; [done|]. intros [= <-].
  exists rs. split_and!; [by destruct rs|done|done].
Qed.

(** The peer map a node starts with tracks exactly the other members:
    every other voter as a voting peer, every other observer that is not a
    voter as a non-voting one, and never the node itself. *)
Theorem seed_peers_lookup c vs i :
  seed_peers c vs !! i =
  if decide (i = node_id c) then None
  else if (match vs with Some s => contains s i | None => false end) then Some (new_peer true)
  else if decide (i ∈ observers c) then Some (new_peer false) else None.
Proof using ML.
  unfold seed_peers. rewrite observer_fold_lookup.
  destruct vs as [s|]; [rewrite voter_fold_lookup|]; rewrite lookup_empty;
    (destruct (decide (i = node_id c)) as [->|Hne];
     [rewrite !decide_False by naive_solver; done|]).
  - destruct (contains s i) eqn:Hc.
    + apply contains_spec in Hc. by rewrite decide_True.
    + rewrite decide_False.
      * by destruct (decide (i ∈ observers c ∧ i ≠ node_id c)), (decide (i ∈ observers c)); naive_solver.
      * rewrite <-contains_spec. intros [? _]. congruence.
  - by destruct (decide (i ∈ observers c ∧ i ≠ node_id c)), (decide (i ∈ observers c)); naive_solver.
Qed.

(** Construction succeeds on a valid configuration: [new] never trips an
    assertion and fails only when the membership type itself refuses the
    voters; the node starts at term 0 without a vote, as an observer exactly
    when it is listed as one, with the configured voters, and with a timeout
    no shorter than the configured minimum and an untouched clock. *)
Theorem new_inner_spec c r :
  validate c = Ok tt →
  (∃ rs, rs ≠ [] ∧ try_new rs = None ∧ new_inner c r = Err (Config "invalid voter set")) ∨
  (∃ n, new_inner c r = Ok n ∧ id n = node_id c ∧ config n = c ∧
     role n = (if decide (node_id c ∈ observers c) then Observer else Follower) ∧
     hard_state n = mkHardState 0 None 0 ∧ commit_index n = 0 ∧ last_applied n = 0 ∧
     last_log_index n = 0 ∧ leader_id n = None ∧ peers n !! id n = None ∧
     (match voter_set n with
      | Some vs => voter_ids vs = vc_node_id <$> cfg_voters c
      | None => cfg_voters c = []
      end) ∧
     elapsed_ticks (election_timer n) = 0 ∧
     election_timeout_min_ms c ≤ timeout_ticks (election_timer n) * tick_interval_ms c).
Proof using ML RL.
  intros Hval. unfold new_inner. rewrite Hval. cbn.
  destruct (build_voter_set c) as [vs|e] eqn:Hb; cbn.
  - right. destruct (next_u64 r) as [s1 r1].
    destruct (Timer.from_config_ms_total (election_timeout_min_ms c) (election_timeout_max_ms c)
      (tick_interval_ms c) (seed_from_u64 s1)) as (t & r' & -> & [Hpos [Hlo Hhi]] & Hel & Hmin).
    destruct (next_u64 r1) as [s2 r2]. eexists. split; [reflexivity|].
    split_and!; try reflexivity; try done.
    + cbn. unfold seed_peers. rewrite observer_fold_lookup.
      assert (match vs with
        | Some vs0 => foldl (λ m i, if decide (i ≠ node_id c) then <[i := new_peer true]> m else m) ∅ (voter_ids vs0)
        | None => ∅ end !! node_id c = None) as ->; [|by rewrite decide_False by naive_solver].
      destruct vs; [|apply lookup_empty]. rewrite voter_fold_lookup.
      by rewrite decide_False by naive_solver.
    + cbn. by eapply build_voter_set_ids.
    + cbn. destruct (validate_parts c tt Hval) as (_ & Ht & _).
      apply validate_timing_Ok in Ht as (_ & _ & Htick & _).
      replace (N.max (tick_interval_ms c) 1) with (tick_interval_ms c) in Hmin by lia.
      pose proof (div_ceil_mul (election_timeout_min_ms c) (tick_interval_ms c) Htick) as Hd.
      etransitivity; [exact Hd|]. apply N.mul_le_mono_r. lia.
  - left. destruct (build_voter_set_Err c e Hval Hb) as (rs & Hne & Hrs & ->). eauto.
Qed.
End Boot.

Import Concrete.

Lemma new_inner_spec_witness :
  validate (base 1 three []) = Ok tt ∧
  ∃ n, new_inner (base 1 three []) (@seed_from_u64 Concrete.rng 7) = Ok n ∧ hard_state n = mkHardState 0 None 0.
Proof.
  assert (validate (base 1 three []) = Ok tt) as H by (vm_compute; reflexivity).
  split; [exact H|].
  destruct (new_inner_spec (base 1 three []) (@seed_from_u64 Concrete.rng 7) H) as [(rs & _ & _ & Herr)|(n & Hn & _ & _ & _ & Hh & _)].
  - exfalso. vm_compute in Herr. discriminate Herr.
  - exists n. split; [exact Hn|exact Hh].
Defined.

Lemma seed_peers_lookup_witness :
  seed_peers (base 1 three []) (Some (voters_of node1)) !! 2 = Some (new_peer true).
Proof.
  rewrite (seed_peers_lookup (base 1 three []) (Some (voters_of node1)) 2).
  vm_compute. reflexivity.
Defined.
