(* ===== verification/Wire.v ===== *)
(** * Wire conversions ([xraft-core/src/message.rs], [proto/raft.proto])

    The in-memory messages to and from the structs [prost] generates from
    [raft.proto], field by field.  [bincode] is a parameter: a serialiser with
    its inverse. *)

From S2P Require Import Prelude CoreTypes Message Concrete.

(** The generated structs. *)
Module Proto.
Record VoteRequest := mkVoteRequest {
  vq_cluster_id : string; vq_leader_epoch : N; vq_candidate_id : N; vq_term : N;
  vq_last_log_index : N; vq_last_log_term : N }.
Record VoteResponse := mkVoteResponse {
  vp_cluster_id : string; vp_leader_epoch : N; vp_term : N; vp_vote_granted : bool;
  vp_leader_hint : option N }.
Record PreVoteRequest := mkPreVoteRequest {
  pq_cluster_id : string; pq_leader_epoch : N; pq_candidate_id : N; pq_term : N;
  pq_last_log_index : N; pq_last_log_term : N }.
Record PreVoteResponse := mkPreVoteResponse {
  pp_cluster_id : string; pp_leader_epoch : N; pp_term : N; pp_vote_granted : bool;
  pp_leader_hint : option N }.
Record FetchRequest := mkFetchRequest {
  fq_cluster_id : string; fq_leader_epoch : N; fq_replica_id : N; fq_fetch_offset : N;
  fq_last_fetched_epoch : N }.
Record DivergingEpoch := mkDivergingEpoch { d_epoch : N; d_end_offset : N }.
Record SnapshotRedirect := mkSnapshotRedirect {
  r_snapshot_id : string; r_last_included_index : N; r_last_included_term : N }.
(** [entry_type] is carried as the enum's [i32] discriminant. *)
Record LogEntry := mkLogEntry { l_index : N; l_term : N; l_entry_type : Z; l_data : bytes }.
Record FetchResponse := mkFetchResponse {
  fp_cluster_id : string; fp_leader_epoch : N; fp_leader_id : N; fp_high_watermark : N;
  fp_entries : list LogEntry; fp_diverging_epoch : option DivergingEpoch;
  fp_snapshot_redirect : option SnapshotRedirect; fp_is_leader : bool }.
Record Endpoint := mkEndpoint { ep_host : string; ep_port : N }.
Record VoterRecord := mkVoterRecord {
  v_node_id : N; v_directory_id : string; v_endpoints : list Endpoint }.
Record VoterSet := mkVoterSet { voters : list VoterRecord }.
Record SnapshotMetadata := mkSnapshotMetadata {
  m_last_included_index : N; m_last_included_term : N; m_voter_set : option VoterSet;
  m_snapshot_id : string; m_size_bytes : option N; m_checksum : option N }.
Record FetchSnapshotRequest := mkFetchSnapshotRequest {
  sq_cluster_id : string; sq_leader_epoch : N; sq_replica_id : N; sq_snapshot_id : string;
  sq_offset : N; sq_max_bytes : N }.
Record FetchSnapshotChunk := mkFetchSnapshotChunk {
  c_cluster_id : string; c_leader_epoch : N; c_chunk_index : N; c_data : bytes;
  c_done : bool; c_metadata : option SnapshotMetadata }.

(** [enum EntryType] and prost's [TryFrom<i32>]. *)
Inductive EntryType := COMMAND | NO_OP | CONFIG.
Definition entry_type_as_i32 (t : EntryType) : Z :=
  match t with COMMAND => 0 | NO_OP => 1 | CONFIG => 2 end%Z.
Definition entry_type_try_from (z : Z) : option EntryType :=
  match z with
  | 0%Z => Some COMMAND
  | 1%Z => Some NO_OP
  | 2%Z => Some CONFIG
  | _ => None
  end.
End Proto.

Section Wire.
Context {MA : MembershipApi} {BV : Bincode VoterSet}.

(** Conversion errors are strings; their static part. *)
Abbreviation Conv := (result string).

(** ** Infallible conversions *)

Definition vote_request_to_proto (r : VoteRequest) : Proto.VoteRequest :=
  Proto.mkVoteRequest (vrq_cluster_id r) (vrq_leader_epoch r) (vrq_candidate_id r) (vrq_term r)
    (vrq_last_log_index r) (vrq_last_log_term r).
Definition vote_request_of_proto (p : Proto.VoteRequest) : VoteRequest :=
  mkVoteRequest (Proto.vq_cluster_id p) (Proto.vq_leader_epoch p) (Proto.vq_term p)
    (Proto.vq_candidate_id p) (Proto.vq_last_log_index p) (Proto.vq_last_log_term p).

Definition vote_response_to_proto (r : VoteResponse) : Proto.VoteResponse :=
  Proto.mkVoteResponse (vrs_cluster_id r) (vrs_leader_epoch r) (vrs_term r) (vrs_vote_granted r)
    (vrs_leader_hint r).
Definition vote_response_of_proto (p : Proto.VoteResponse) : VoteResponse :=
  mkVoteResponse (Proto.vp_cluster_id p) (Proto.vp_leader_epoch p) (Proto.vp_term p)
    (Proto.vp_vote_granted p) (Proto.vp_leader_hint p).

Definition pre_vote_request_to_proto (r : PreVoteRequest) : Proto.PreVoteRequest :=
  Proto.mkPreVoteRequest (pvq_cluster_id r) (pvq_leader_epoch r) (pvq_candidate_id r)
    (pvq_next_term r) (pvq_last_log_index r) (pvq_last_log_term r).
Definition pre_vote_request_of_proto (p : Proto.PreVoteRequest) : PreVoteRequest :=
  mkPreVoteRequest (Proto.pq_cluster_id p) (Proto.pq_leader_epoch p) (Proto.pq_term p)
    (Proto.pq_candidate_id p) (Proto.pq_last_log_index p) (Proto.pq_last_log_term p).

Definition pre_vote_response_to_proto (r : PreVoteResponse) : Proto.PreVoteResponse :=
  Proto.mkPreVoteResponse (pvs_cluster_id r) (pvs_leader_epoch r) (pvs_term r)
    (pvs_vote_granted r) (pvs_leader_hint r).
Definition pre_vote_response_of_proto (p : Proto.PreVoteResponse) : PreVoteResponse :=
  mkPreVoteResponse (Proto.pp_cluster_id p) (Proto.pp_leader_epoch p) (Proto.pp_term p)
    (Proto.pp_vote_granted p) (Proto.pp_leader_hint p).

Definition fetch_request_to_proto (r : FetchRequest) : Proto.FetchRequest :=
  Proto.mkFetchRequest (frq_cluster_id r) (frq_leader_epoch r) (frq_replica_id r)
    (frq_fetch_offset r) (frq_last_fetched_epoch r).
Definition fetch_request_of_proto (p : Proto.FetchRequest) : FetchRequest :=
  mkFetchRequest (Proto.fq_cluster_id p) (Proto.fq_leader_epoch p) (Proto.fq_replica_id p)
    (Proto.fq_fetch_offset p) (Proto.fq_last_fetched_epoch p).

Definition diverging_epoch_to_proto (d : DivergingEpoch) : Proto.DivergingEpoch :=
  Proto.mkDivergingEpoch (de_epoch d) (de_end_offset d).
Definition diverging_epoch_of_proto (p : Proto.DivergingEpoch) : DivergingEpoch :=
  mkDivergingEpoch (Proto.d_epoch p) (Proto.d_end_offset p).

Definition snapshot_redirect_to_proto (r : SnapshotRedirect) : Proto.SnapshotRedirect :=
  Proto.mkSnapshotRedirect (sr_snapshot_id r) (sr_last_included_index r)
    (sr_last_included_term r).
Definition snapshot_redirect_of_proto (p : Proto.SnapshotRedirect) : SnapshotRedirect :=
  mkSnapshotRedirect (Proto.r_snapshot_id p) (Proto.r_last_included_index p)
    (Proto.r_last_included_term p).

Definition fetch_snapshot_request_to_proto (r : FetchSnapshotRequest) :
    Proto.FetchSnapshotRequest :=
  Proto.mkFetchSnapshotRequest (fsq_cluster_id r) (fsq_leader_epoch r) (fsq_replica_id r)
    (fsq_snapshot_id r) (fsq_offset r) (fsq_max_bytes r).
Definition fetch_snapshot_request_of_proto (p : Proto.FetchSnapshotRequest) :
    FetchSnapshotRequest :=
  mkFetchSnapshotRequest (Proto.sq_cluster_id p) (Proto.sq_leader_epoch p)
    (Proto.sq_replica_id p) (Proto.sq_snapshot_id p) (Proto.sq_offset p) (Proto.sq_max_bytes p).

(** ** Log entries *)

Definition entry_to_proto (e : Entry) : Conv Proto.LogEntry :=
  let? td := (match e_payload e with
    | Command b => Ok (Proto.COMMAND, b)
    | NoOp => Ok (Proto.NO_OP, [])
    | ConfigChange vs => Ok (Proto.CONFIG, bin_ser vs)
    | SnapshotMarker _ => Err "EntryPayload::Snapshot must not be serialised to the wire"
    end) in
  Ok (Proto.mkLogEntry (e_index e) (e_term e) (Proto.entry_type_as_i32 td.1) td.2).

Definition entry_of_proto (p : Proto.LogEntry) : Conv Entry :=
  match Proto.entry_type_try_from (Proto.l_entry_type p) with
  | None => Err "unknown entry_type discriminant"
  | Some t =>
      let? payload := (match t with
        | Proto.COMMAND => Ok (Command (Proto.l_data p))
        | Proto.NO_OP => Ok NoOp
        | Proto.CONFIG =>
            match bin_de (Proto.l_data p) with
            | Some vs => Ok (ConfigChange vs)
            | None => Err "failed to deserialise VoterSet"
            end
        end) in
      Ok (mkEntry (Proto.l_index p) (Proto.l_term p) payload)
  end.

(** ** Fetch responses *)

Definition fetch_response_to_proto (r : FetchResponse) : Conv Proto.FetchResponse :=
  let? entries := collect entry_to_proto (frs_entries r) in
  Ok (Proto.mkFetchResponse (frs_cluster_id r) (frs_leader_epoch r) (frs_leader_id r)
        (frs_high_watermark r) entries (diverging_epoch_to_proto <$> frs_diverging_epoch r)
        (snapshot_redirect_to_proto <$> frs_snapshot_redirect r) (frs_is_leader r)).
Definition fetch_response_of_proto (p : Proto.FetchResponse) : Conv FetchResponse :=
  let? entries := collect entry_of_proto (Proto.fp_entries p) in
  Ok (mkFetchResponse (Proto.fp_cluster_id p) (Proto.fp_leader_epoch p) (Proto.fp_leader_id p)
        (Proto.fp_high_watermark p) entries
        (diverging_epoch_of_proto <$> Proto.fp_diverging_epoch p)
        (snapshot_redirect_of_proto <$> Proto.fp_snapshot_redirect p) (Proto.fp_is_leader p)).

(** ** Snapshot metadata *)

Definition endpoint_to_proto (e : Endpoint) : Proto.Endpoint :=
  Proto.mkEndpoint (ep_host e) (ep_port e).
Definition endpoint_of_proto (p : Proto.Endpoint) : Conv Endpoint :=
  if decide (Proto.ep_port p ≤ 65535) then Ok (mkEndpoint (Proto.ep_host p) (Proto.ep_port p))
  else Err "port out of range".

Definition voter_to_proto (v : N * Uuid * list Endpoint) : Proto.VoterRecord :=
  Proto.mkVoterRecord (vr_node_id v) (uuid_to_string (vr_directory_id v))
    (endpoint_to_proto <$> vr_endpoints v).
Definition voter_of_proto (p : Proto.VoterRecord) : Conv (N * Uuid * list Endpoint) :=
  match uuid_parse_str (Proto.v_directory_id p) with
  | None => Err "invalid directory_id UUID"
  | Some d =>
      let? eps := collect endpoint_of_proto (Proto.v_endpoints p) in
      Ok (Proto.v_node_id p, d, eps)
  end.

Definition snapshot_meta_to_proto (m : SnapshotMeta) : Proto.SnapshotMetadata :=
  Proto.mkSnapshotMetadata (last_included_index m) (last_included_term m)
    ((λ vs, Proto.mkVoterSet (voter_to_proto <$> voters vs)) <$> sm_voter_set m)
    (sm_id m) (sm_size_bytes m) (sm_checksum m).
Definition snapshot_meta_of_proto (p : Proto.SnapshotMetadata) : Conv SnapshotMeta :=
  let? vs := (match Proto.m_voter_set p with
    | None => Ok None
    | Some vs =>
        let? records := collect voter_of_proto (Proto.voters vs) in
        match records with
        | [] => Ok None
        | _ => match try_new records with
               | Some s => Ok (Some s)
               | None => Err "invalid voter set"
               end
        end
    end) in
  Ok (mkSnapshotMeta MA (Proto.m_last_included_index p) (Proto.m_last_included_term p)
        (Proto.m_snapshot_id p) vs (Proto.m_size_bytes p) (Proto.m_checksum p)).

Definition chunk_to_proto (c : FetchSnapshotChunk) : Proto.FetchSnapshotChunk :=
  Proto.mkFetchSnapshotChunk (fsc_cluster_id c) (fsc_leader_epoch c) (fsc_chunk_index c)
    (fsc_data c) (fsc_done c) (snapshot_meta_to_proto <$> fsc_metadata c).
Definition chunk_of_proto (p : Proto.FetchSnapshotChunk) : Conv FetchSnapshotChunk :=
  let? metadata := (match Proto.c_metadata p with
    | Some m => let? m := snapshot_meta_of_proto m in Ok (Some m)
    | None => Ok None
    end) in
  Ok (mkFetchSnapshotChunk (Proto.c_cluster_id p) (Proto.c_leader_epoch p)
        (Proto.c_chunk_index p) (Proto.c_data p) (Proto.c_done p) metadata).

(** ** Round trips *)
Section RoundTrips.
Context {BL : BincodeLaws VoterSet BV} {ML : MembershipLaws MA}.

(** Conversion succeeds on everything but compaction markers. *)
Definition marker_free (es : list Entry) : bool :=
  forallb (λ e, match e_payload e with SnapshotMarker _ => false | _ => true end) es.

Lemma entry_type_roundtrip t :
  Proto.entry_type_try_from (Proto.entry_type_as_i32 t) = Some t.
Proof. by destruct t. Qed.

Lemma entry_roundtrip e :
  match entry_to_proto e with
  | Ok p => entry_of_proto p = Ok e ∧ ∀ m, e_payload e ≠ SnapshotMarker m
  | Err _ => ∃ m, e_payload e = SnapshotMarker m
  end.
Proof using BL.
  destruct e as [i t p]. unfold entry_to_proto, entry_of_proto. destruct p; simpl; try done.
  - by rewrite bin_roundtrip.
  - eauto.
Qed.

Lemma collect_roundtrip {E A B} (f : A → result E B) (g : B → result E A) (l : list A) :
  (∀ a b, f a = Ok b → g b = Ok a) → ∀ bs, collect f l = Ok bs → collect g bs = Ok l.
Proof.
  intros Hfg bs Hbs%collect_Ok_Forall2. apply collect_Ok_Forall2.
  apply Forall2_flip. eapply Forall2_impl; [exact Hbs|]. simpl. auto.
Qed.

(** A fetch response survives the wire: it is encoded exactly when it
    carries no compaction marker, and whatever is encoded decodes to the
    same response, entries, divergence, redirect and authority flag
    included. *)
Theorem fetch_response_roundtrip r :
  if marker_free (frs_entries r)
  then ∃ p, fetch_response_to_proto r = Ok p ∧ fetch_response_of_proto p = Ok r
  else ∃ e, fetch_response_to_proto r = Err e.
Proof using BL.
  assert (if marker_free (frs_entries r)
    then ∃ ps, collect entry_to_proto (frs_entries r) = Ok ps
    else ∃ e, collect entry_to_proto (frs_entries r) = Err e) as Hc.
  { induction (frs_entries r) as [|e es IH]; [by exists []|]. cbn.
    pose proof (entry_roundtrip e) as He. destruct (entry_to_proto e) as [p|x]; cbn.
    - destruct He as [_ Hm]. destruct (e_payload e) eqn:Hp; [..|by destruct (Hm m)].
      all: cbn; fold (marker_free es);
        destruct (marker_free es); destruct IH as [y ->]; cbn; eauto.
    - destruct He as [m ->]. cbn. eauto. }
  unfold fetch_response_to_proto. destruct (marker_free _).
  - destruct Hc as [ps Hps]. rewrite Hps. cbn. eexists. split; [reflexivity|].
    unfold fetch_response_of_proto. cbn.
    rewrite (collect_roundtrip entry_to_proto entry_of_proto (frs_entries r)); [|..|done].
    + cbn. destruct r as [? ? ? ? ? [[]|] [[]|] ?]; done.
    + intros e p He. pose proof (entry_roundtrip e) as Hr. rewrite He in Hr. by destruct Hr.
  - destruct Hc as [x ->]. cbn. eauto.
Qed.

(** A voter set as [try_new] builds it: it has records, they rebuild it,
    and every port is a [u16]. *)
Definition voter_set_valid (vs : VoterSet) : Prop :=
  voters vs ≠ [] ∧ try_new (voters vs) = Some vs ∧
  ∀ v e, v ∈ voters vs → e ∈ vr_endpoints v → ep_port e ≤ 65535.

Lemma voter_roundtrip v :
  (∀ e, e ∈ vr_endpoints v → ep_port e ≤ 65535) → voter_of_proto (voter_to_proto v) = Ok v.
Proof using ML.
  intros Hp. unfold voter_of_proto, voter_to_proto. cbn. rewrite uuid_parse_to_string.
  assert (collect endpoint_of_proto (endpoint_to_proto <$> vr_endpoints v) = Ok (vr_endpoints v)) as ->.
  { apply collect_Ok_Forall2, Forall2_fmap_l, Forall_Forall2_diag, Forall_forall.
    intros e He. unfold endpoint_of_proto. cbn. rewrite decide_True by auto. by destruct e. }
  cbn. by destruct v as [[? ?] ?].
Qed.

Lemma snapshot_meta_roundtrip_aux m :
  (∀ vs, sm_voter_set m = Some vs → voter_set_valid vs) →
  snapshot_meta_of_proto (snapshot_meta_to_proto m) = Ok m.
Proof using ML.
  intros Hv. unfold snapshot_meta_of_proto, snapshot_meta_to_proto. cbn.
  destruct m as [? ? ? [vs|] ? ?]; [|done]. cbn in *.
  destruct (Hv vs eq_refl) as (Hne & Hnew & Hports).
  assert (collect voter_of_proto (voter_to_proto <$> voters vs) = Ok (voters vs)) as ->.
  { apply collect_Ok_Forall2, Forall2_fmap_l, Forall_Forall2_diag, Forall_forall.
    intros v Hin. apply voter_roundtrip. eauto. }
  cbn. destruct (voters vs) eqn:Hvs; [done|]. by rewrite Hnew.
Qed.

(** A snapshot chunk survives the wire with its metadata: for every
    valid voter set (and for metadata without one), decoding the encoded
    chunk gives back the chunk. *)
Theorem chunk_roundtrip c :
  (∀ m vs, fsc_metadata c = Some m → sm_voter_set m = Some vs → voter_set_valid vs) →
  chunk_of_proto (chunk_to_proto c) = Ok c.
Proof using ML.
  intros Hv. unfold chunk_of_proto, chunk_to_proto. destruct c as [? ? ? ? ? [m|]]; [|done].
  cbn. rewrite snapshot_meta_roundtrip_aux by naive_solver. done.
Qed.

(** The election and fetch requests and responses survive the wire
    unchanged, although the protobuf messages order their fields
    differently and rename the pre-vote's [next_term] to [term]. *)
Theorem rpc_roundtrip a b c d e f :
  vote_request_of_proto (vote_request_to_proto a) = a ∧
  vote_response_of_proto (vote_response_to_proto b) = b ∧
  pre_vote_request_of_proto (pre_vote_request_to_proto c) = c ∧
  pre_vote_response_of_proto (pre_vote_response_to_proto d) = d ∧
  fetch_request_of_proto (fetch_request_to_proto e) = e ∧
  fetch_snapshot_request_of_proto (fetch_snapshot_request_to_proto f) = f.
Proof. by destruct a, b, c, d, e, f. Qed.
End RoundTrips.
End Wire.

Import Concrete.

Definition sample_vs : @VoterSet Concrete.membership :=
  ([(1, "a", [mkEndpoint "host" 5001])] : list (N * string * list Endpoint)).
Definition sample_chunk : FetchSnapshotChunk :=
  mkFetchSnapshotChunk "c" 1 0 [Byte.x01] true
    (Some (mkSnapshotMeta Concrete.membership 5 2 "s" (Some sample_vs) (Some 1) None)).

Lemma fetch_response_roundtrip_witness :
  ∃ p, fetch_response_to_proto (mkFetchResponse "c" 1 1 0 [mkEntry 1 1 (ConfigChange sample_vs)]
         None None true) = Ok p ∧
    fetch_response_of_proto p =
      Ok (mkFetchResponse "c" 1 1 0 [mkEntry 1 1 (ConfigChange sample_vs)] None None true).
Proof.
  exact (fetch_response_roundtrip
           (mkFetchResponse "c" 1 1 0 [mkEntry 1 1 (ConfigChange sample_vs)] None None true)).
Defined.

Lemma chunk_roundtrip_witness : chunk_of_proto (chunk_to_proto sample_chunk) = Ok sample_chunk.
Proof.
  apply (chunk_roundtrip sample_chunk). intros m vs [= <-] [= <-].
  split; [discriminate|]. split; [reflexivity|].
  intros v e Hv He. unfold sample_vs in Hv. cbn in Hv. apply list_elem_of_singleton in Hv as ->.
  cbn in He. apply list_elem_of_singleton in He as ->. vm_compute. discriminate.
Defined.
