(* ===== verification/LogStore.v ===== *)
(** * Log stores

    The [LogStore] trait of [xraft-core/src/storage.rs] as an interface with
    the laws its documentation states, and the leader-epoch lookup both stores of
    [xraft-storage/src/log.rs] share. *)

From S2P Require Import Prelude CoreTypes Message Concrete.

(** ** Logs *)

Section Logs.
Context {MA : MembershipApi}.

(** Consecutive indices from [i], terms that never fall below [t] or go down. *)
Fixpoint contig_from (i t : N) (l : list Entry) : Prop :=
  match l with
  | [] => True
  | e :: l => e_index e = i ∧ t ≤ e_term e ∧ contig_from (i + 1) (e_term e) l
  end.
Definition contig (l : list Entry) : Prop := ∃ i t, 1 ≤ i ∧ contig_from i t l.

Lemma contig_from_weaken i t t' l : t' ≤ t → contig_from i t l → contig_from i t' l.
Proof. destruct l; simpl; [done|]. intros ? (? & ? & ?). split_and!; [done|lia|done]. Qed.

Lemma contig_from_bounds i t l e : contig_from i t l → e ∈ l → i ≤ e_index e ∧ t ≤ e_term e.
Proof.
  revert i t. induction l as [|x l IH]; intros i t; simpl; [by intros _ ?%not_elem_of_nil|].
  intros (Hi & Ht & Hl) [->|Hin]%elem_of_cons; [lia|]. destruct (IH _ _ Hl Hin). lia.
Qed.

Lemma filter_all {A} (P : A → Prop) `{∀ x, Decision (P x)} (l : list A) :
  (∀ x, x ∈ l → P x) → filter P l = l.
Proof.
  induction l as [|x l IH]; [done|]. intros HP. rewrite filter_cons_True by (apply HP; by left).
  f_equal. apply IH. intros y Hy. apply HP. by right.
Qed.
Lemma filter_nothing {A} (P : A → Prop) `{∀ x, Decision (P x)} (l : list A) :
  (∀ x, x ∈ l → ¬ P x) → filter P l = [].
Proof.
  induction l as [|x l IH]; [done|]. intros HP. rewrite filter_cons_False by (apply HP; by left).
  apply IH. intros y Hy. apply HP. by right.
Qed.

Lemma find_nothing {A} (f : A → bool) (l : list A) :
  (∀ x, x ∈ l → f x = false) → find f l = None.
Proof.
  induction l as [|x l IH]; [done|]. intros Hf. simpl. rewrite Hf by (by left).
  apply IH. intros y Hy. apply Hf. by right.
Qed.

(** Truncation keeps a prefix, purging keeps a suffix. *)
Lemma contig_from_truncate i t b l :
  contig_from i t l → contig_from i t (filter (λ e, e_index e < b) l).
Proof.
  revert i t. induction l as [|x l IH]; intros i t; [done|]. cbn [contig_from].
  intros (Hi & Ht & Hl). destruct (decide (e_index x < b)) as [Hb|Hb].
  - rewrite filter_cons_True by done. cbn. auto.
  - rewrite filter_cons_False by done. rewrite filter_nothing; [done|].
    intros y Hy. destruct (contig_from_bounds _ _ _ _ Hl Hy). lia.
Qed.
Lemma contig_from_purge i t b l :
  contig_from i t l → ∃ i', i ≤ i' ∧ contig_from i' t (filter (λ e, b < e_index e) l).
Proof.
  revert i t. induction l as [|x l IH]; intros i t; [by exists i|]. cbn [contig_from].
  intros (Hi & Ht & Hl). destruct (decide (b < e_index x)) as [Hb|Hb].
  - exists i. split; [done|]. rewrite filter_all; [done|].
    intros y [->|Hy]%elem_of_cons; [done|]. destruct (contig_from_bounds _ _ _ _ Hl Hy). lia.
  - rewrite filter_cons_False by done. destruct (IH _ _ Hl) as (i' & ? & Hc).
    exists i'. split; [lia|]. by eapply contig_from_weaken.
Qed.
Lemma contig_truncate b l : contig l → contig (filter (λ e, e_index e < b) l).
Proof. intros (i & t & ? & Hl). exists i, t. split; [done|]. by apply contig_from_truncate. Qed.
Lemma contig_purge b l : contig l → contig (filter (λ e, b < e_index e) l).
Proof.
  intros (i & t & ? & Hl). destruct (contig_from_purge _ _ b _ Hl) as (i' & ? & ?).
  exists i', t. split; [lia|done].
Qed.

Definition is_marker (e : Entry) : bool :=
  match e_payload e with SnapshotMarker _ => true | _ => false end.

(** The last log position: index and term, zero when empty. *)
Definition tail_index (l : list Entry) : N :=
  match last l with Some e => e_index e | None => 0 end.
Definition tail_term (l : list Entry) : N :=
  match last l with Some e => e_term e | None => 0 end.

(** What [end_offset_for_epoch] documents: the index of the last entry of the
    epoch; failing that, the snapshot anchor for epochs it covers. *)
Definition epoch_end (l : list Entry) (anchor : option (N * N)) (epoch : N) : option N :=
  match last (filter (λ e, e_term e = epoch) l) with
  | Some e => Some (e_index e)
  | None => match anchor with
            | Some (t, i) => if decide (epoch ≤ t) then Some i else None
            | None => None
            end
  end.
End Logs.

(** ** The interface *)

Class LogStoreApi {MA : MembershipApi} (St : Type) : Type := {
  ls_append : list Entry → St → St * Result unit;
  ls_get : N → St → option Entry;
  (** [None] is a panic: [BTreeMap::range] refuses a reversed range. *)
  ls_get_range : N → N → St → option (list Entry);
  ls_last_index : St → N;
  ls_last_term : St → N;
  ls_truncate_from : N → St → St * Result unit;
  ls_term_at : N → St → option N;
  ls_flush : St → St * Result unit;
  ls_purge_prefix : N → St → St * Result unit;
  ls_update_snapshot_anchor : N → N → St → St * Result unit;
  ls_end_offset_for_epoch : N → St → option N;
}.

(** The laws, over an abstract log and snapshot anchor; [admits] is what a
    store needs of a batch to append it. *)
Class LogStoreLaws {MA : MembershipApi} (St : Type) (A : LogStoreApi St)
    (inv : St → Prop) (log : St → list Entry) (anchor : St → option (N * N))
    (admits : St → list Entry → Prop) : Prop := {
  ls_contig s : inv s → contig (log s);
  ls_append_ok es s : inv s → admits s es →
    ∃ s', ls_append es s = (s', Ok tt) ∧ inv s' ∧ log s' = log s ++ es ∧ anchor s' = anchor s;
  ls_append_marker es s : inv s → existsb is_marker es = true →
    ∃ s' msg, ls_append es s = (s', Err (Storage msg));
  ls_get_spec i s : inv s → ls_get i s = find (λ e, e_index e =? i) (log s);
  ls_get_range_spec a b s : inv s → a ≤ b →
    ls_get_range a b s = Some $ filter (λ e, a ≤ e_index e ∧ e_index e < b) (log s);
  ls_last_index_spec s : inv s → ls_last_index s = tail_index (log s);
  ls_last_term_spec s : inv s → ls_last_term s = tail_term (log s);
  ls_truncate_ok i s : inv s → u64 i →
    ∃ s', ls_truncate_from i s = (s', Ok tt) ∧ inv s' ∧
      log s' = filter (λ e, e_index e < i) (log s) ∧ anchor s' = anchor s;
  ls_term_at_spec i s : inv s → ls_term_at i s = e_term <$> find (λ e, e_index e =? i) (log s);
  ls_flush_ok s : inv s →
    ∃ s', ls_flush s = (s', Ok tt) ∧ inv s' ∧ log s' = log s ∧ anchor s' = anchor s;
  ls_purge_ok i s : inv s → u64 i →
    ∃ s', ls_purge_prefix i s = (s', Ok tt) ∧ inv s' ∧
      log s' = filter (λ e, i < e_index e) (log s) ∧ anchor s' = anchor s;
  ls_anchor_ok t i s : inv s → u64 t → u64 i →
    ∃ s', ls_update_snapshot_anchor t i s = (s', Ok tt) ∧ inv s' ∧ log s' = log s ∧
      anchor s' = match anchor s with
                  | Some (t0, i0) => if decide (i ≤ i0) then Some (t0, i0) else Some (t, i)
                  | None => Some (t, i)
                  end;
  ls_end_offset_spec e s : inv s → ls_end_offset_for_epoch e s = epoch_end (log s) (anchor s) e;
}.

(** ** The leader-epoch checkpoint *)

Section Epochs.
Context {MA : MembershipApi}.

(** [self.epoch_starts.entry(e.term).or_insert(e.index)]. *)
Definition note_epoch (m : gmap N N) (e : Entry) : gmap N N :=
  match m !! e_term e with Some _ => m | None => <[e_term e := e_index e]> m end.
(** [rebuild_epoch_starts]. *)
Definition rebuild_epoch_starts (l : list Entry) : gmap N N := foldl note_epoch ∅ l.

(** [epoch_starts.range((Excluded(epoch), Unbounded)).next()]: the value at the
    least key above [epoch]. *)
Definition next_above (m : gmap N N) (epoch : N) : option N :=
  match merge_sort N.le (filter (λ k, epoch < k) (map_to_list m).*1) with
  | k :: _ => m !! k
  | [] => None
  end.

(** [end_offset_lookup]. *)
Definition end_offset_lookup (epoch_starts : gmap N N) (log_last_index : N)
    (snapshot_anchor : option (N * N)) (epoch : N) : option N :=
  match epoch_starts !! epoch with
  | Some _ =>
      Some (match next_above epoch_starts epoch with
            | Some next => next - 1
            | None => log_last_index
            end)
  | None =>
      match snapshot_anchor with
      | Some (anchor_term, anchor_idx) =>
          if decide (epoch ≤ anchor_term) then Some anchor_idx else None
      | None => None
      end
  end.

Lemma note_epochs_lookup (l : list Entry) m t :
  foldl note_epoch m l !! t =
  match m !! t with
  | Some i => Some i
  | None => e_index <$> head (filter (λ e, e_term e = t) l)
  end.
Proof.
  revert m. induction l as [|e l IH]; intros m; cbn [foldl]; [by destruct (m !! t)|].
  rewrite IH. unfold note_epoch. destruct (decide (e_term e = t)) as [<-|Hne].
  - rewrite filter_cons_True by done. cbn.
    destruct (m !! e_term e) eqn:Hm; rewrite ?Hm, ?lookup_insert_eq; done.
  - rewrite filter_cons_False by done.
    destruct (m !! e_term e); [done|]. by rewrite lookup_insert_ne.
Qed.

Lemma rebuild_lookup l t :
  rebuild_epoch_starts l !! t = e_index <$> head (filter (λ e, e_term e = t) l).
Proof. unfold rebuild_epoch_starts. by rewrite note_epochs_lookup, lookup_empty. Qed.

Lemma next_above_None m epoch :
  (∀ k, epoch < k → m !! k = None) → next_above m epoch = None.
Proof.
  intros Hm. unfold next_above. rewrite filter_nothing; [done|].
  intros k ([k' v] & -> & Hin%elem_of_map_to_list)%list_elem_of_fmap Hk. cbn in Hk.
  rewrite Hm in Hin; done.
Qed.

Lemma next_above_Some m epoch k v :
  epoch < k → m !! k = Some v → (∀ j, epoch < j → is_Some (m !! j) → k ≤ j) →
  next_above m epoch = Some v.
Proof.
  intros Hk Hv Hmin. unfold next_above.
  set (l := filter _ _). assert (k ∈ l) as Hin.
  { apply list_elem_of_filter. split; [done|]. apply list_elem_of_fmap. exists (k, v).
    split; [done|]. by apply elem_of_map_to_list. }
  assert (∀ j, j ∈ l → k ≤ j) as Hall.
  { intros j [Hj ([j' w] & -> & Hw%elem_of_map_to_list)%list_elem_of_fmap]%list_elem_of_filter.
    apply Hmin; [done|by eexists]. }
  pose proof (merge_sort_Permutation N.le l) as Hperm.
  pose proof (StronglySorted_merge_sort N.le l) as Hs.
  destruct (merge_sort N.le l) as [|x s] eqn:E.
  - apply Permutation_nil in Hperm. rewrite Hperm in Hin. by apply not_elem_of_nil in Hin.
  - assert (x ∈ l) as Hx by (rewrite <-Hperm; by left).
    assert (x = k) as ->; [|done].
    rewrite <-Hperm in Hin. apply elem_of_cons in Hin as [->|Hin]; [done|].
    apply StronglySorted_inv in Hs as [_ Hf]. rewrite Forall_forall in Hf.
    specialize (Hf _ Hin). specialize (Hall x Hx). lia.
Qed.

(** A log with ordered terms splits at any term. *)
Lemma contig_from_split i t l epoch :
  contig_from i t l →
  ∃ l1 l2, l = l1 ++ l2 ∧ (∀ e, e ∈ l1 → e_term e ≤ epoch) ∧
    (∀ e, e ∈ l2 → epoch < e_term e) ∧ contig_from (i + N.of_nat (length l1)) t l2.
Proof.
  revert i t. induction l as [|x l IH]; intros i t Hl.
  { exists [], []. split_and!; [done|set_solver..|done]. }
  pose proof Hl as (Hi & Ht & Hl').
  destruct (decide (e_term x ≤ epoch)) as [Hx|Hx].
  - destruct (IH _ _ Hl') as (l1 & l2 & -> & H1 & H2 & Hc). exists (x :: l1), l2. split_and!; [done|..].
    + intros e [->|He]%elem_of_cons; auto.
    + done.
    + cbn [length]. rewrite Nat2N.inj_succ. eapply contig_from_weaken; [exact Ht|].
      by replace (i + N.succ (N.of_nat (length l1))) with (i + 1 + N.of_nat (length l1)) by lia.
  - exists [], (x :: l). split_and!; [done|set_solver| |].
    + intros e [->|He]%elem_of_cons; [lia|].
      destruct (contig_from_bounds _ _ _ _ Hl' He). lia.
    + cbn [length]. by rewrite N.add_0_r.
Qed.

Lemma contig_from_last i t l e :
  contig_from i t l → last l = Some e → e_index e + 1 = i + N.of_nat (length l).
Proof.
  revert i t. induction l as [|x l IH]; intros i t; [done|]. intros (Hi & _ & Hl) Hlast.
  destruct l as [|y l]; [cbn in Hlast; injection Hlast as <-; cbn; lia|].
  rewrite (IH (i + 1) (e_term x) Hl); [|done]. cbn [length]. lia.
Qed.

Lemma contig_from_below i t l e :
  contig_from i t l → e ∈ l → e_index e + 1 ≤ i + N.of_nat (length l).
Proof.
  revert i t. induction l as [|x l IH]; intros i t; [by intros _ ?%not_elem_of_nil|].
  intros (Hi & _ & Hl) [->|Hin]%elem_of_cons; cbn [length]; [lia|].
  specialize (IH _ _ Hl Hin). lia.
Qed.

Lemma contig_from_app_l i t l1 l2 : contig_from i t (l1 ++ l2) → contig_from i t l1.
Proof.
  revert i t. induction l1 as [|x l1 IH]; intros i t; [done|]. cbn. intros (? & ? & ?).
  split_and!; auto.
Qed.

(** In an ordered log whose terms reach [epoch] at most, the last entry of
    [epoch], if any, is the last entry. *)
Lemma last_of_epoch i t l epoch :
  contig_from i t l → (∀ e, e ∈ l → e_term e ≤ epoch) →
  (∃ e, e ∈ l ∧ e_term e = epoch) → last (filter (λ e, e_term e = epoch) l) = last l.
Proof.
  revert i t. induction l as [|x l IH]; intros i t Hl Hle (e & He & Hte).
  { by apply not_elem_of_nil in He. }
  destruct Hl as (Hi & Ht & Hl).
  assert (∀ y, y ∈ l → e_term y ≤ epoch) as Hle' by (intros y Hy; apply Hle; by right).
  destruct (decide (e_term x = epoch)) as [Hx|Hx].
  - rewrite filter_cons_True by done. rewrite filter_all; [done|].
    intros y Hy. destruct (contig_from_bounds _ _ _ _ Hl Hy). specialize (Hle' y Hy). lia.
  - rewrite filter_cons_False by done.
    apply elem_of_cons in He as [->|He]; [done|]. rewrite (IH (i + 1) (e_term x)); eauto.
    destruct l; [by apply not_elem_of_nil in He|done].
Qed.

Lemma end_offset_lookup_correct l anchor epoch :
  contig l → end_offset_lookup (rebuild_epoch_starts l) (tail_index l) anchor epoch =
             epoch_end l anchor epoch.
Proof.
  intros (i & t & Hi & Hl). unfold end_offset_lookup, epoch_end.
  rewrite rebuild_lookup.
  destruct (filter (λ e, e_term e = epoch) l) as [|x f] eqn:Hf; [done|]. cbn [head fmap option_fmap option_map].
  assert (∃ e, e ∈ l ∧ e_term e = epoch) as (e0 & He0 & Hte0).
  { exists x. assert (x ∈ filter (λ e, e_term e = epoch) l) as Hx by (rewrite Hf; by left).
    apply list_elem_of_filter in Hx as [? ?]. done. }
  rewrite <-Hf. clear x f Hf.
  destruct (contig_from_split i t l epoch Hl) as (l1 & l2 & -> & H1 & H2 & Hc2).
  pose proof (contig_from_app_l _ _ _ _ Hl) as Hc1.
  assert (e0 ∈ l1) as He01.
  { apply elem_of_app in He0 as [?|He0]; [done|]. specialize (H2 _ He0). lia. }
  rewrite filter_app, (filter_nothing _ l2), (right_id_L [] (++))
    by (intros y Hy; specialize (H2 y Hy); lia).
  rewrite (last_of_epoch i t l1) by eauto.
  destruct (last l1) as [z|] eqn:Hz; [|apply last_None in Hz; subst; by apply not_elem_of_nil in He01].
  pose proof (contig_from_last _ _ _ _ Hc1 Hz) as Hzi. f_equal.
  destruct l2 as [|y l2].
  - rewrite next_above_None.
    + unfold tail_index. by rewrite (right_id_L [] (++)), Hz.
    + intros k Hk. rewrite rebuild_lookup, (right_id_L [] (++)), filter_nothing; [done|].
      intros w Hw. specialize (H1 w Hw). lia.
  - destruct Hc2 as (Hyi & Hyt & Hc2). rewrite (next_above_Some _ _ (e_term y) (e_index y)); [lia|..].
    + apply H2. by left.
    + rewrite rebuild_lookup, filter_app, (filter_nothing _ l1), (left_id_L [] (++)).
      * by rewrite filter_cons_True by done.
      * intros w Hw. specialize (H1 w Hw). specialize (H2 y ltac:(by left)). lia.
    + intros j Hj [v Hv]. rewrite rebuild_lookup in Hv.
      destruct (filter (λ e, e_term e = j) (l1 ++ y :: l2)) as [|w f] eqn:Hf; [done|].
      assert (w ∈ filter (λ e, e_term e = j) (l1 ++ y :: l2)) as Hw by (rewrite Hf; by left).
      apply list_elem_of_filter in Hw as [<- [Hw|[->|Hw]%elem_of_cons]%elem_of_app].
      * specialize (H1 w Hw). lia.
      * done.
      * by destruct (contig_from_bounds _ _ _ _ Hc2 Hw).
Qed.
End Epochs.
