(* ===== verification/MemoryLog.v ===== *)
(** * The in-memory log store ([MemoryLogStore] of [xraft-storage/src/log.rs])

    The [Vec]-backed store, and the proof that it implements the [LogStore]
    interface. *)

From S2P Require Import Prelude CoreTypes Message LogStore Concrete.

Module Mem.
Section Mem.
Context {MA : MembershipApi}.

Record MemoryLogStore : Type := mkMemoryLogStore {
  entries : list Entry;
  epoch_starts : gmap N N;
  snapshot_anchor : option (N * N);
}.

Definition new : MemoryLogStore := mkMemoryLogStore [] ∅ None.

Definition append (es : list Entry) (s : MemoryLogStore) : MemoryLogStore * Result unit :=
  if existsb is_marker es then
    (s, Err (Storage "EntryPayload::Snapshot must not be written to WAL"))
  else
    (mkMemoryLogStore (entries s ++ es) (foldl note_epoch (epoch_starts s) es)
       (snapshot_anchor s), Ok tt).

Definition get (index : N) (s : MemoryLogStore) : option Entry :=
  if index =? 0 then None else find (λ e, e_index e =? index) (entries s).

Definition get_range (start stop : N) (s : MemoryLogStore) : option (list Entry) :=
  Some (filter (λ e, start ≤ e_index e ∧ e_index e < stop) (entries s)).

Definition last_index (s : MemoryLogStore) : N :=
  match last (entries s) with Some e => e_index e | None => 0 end.
Definition last_term (s : MemoryLogStore) : N :=
  match last (entries s) with Some e => e_term e | None => 0 end.

Definition truncate_from (index : N) (s : MemoryLogStore) : MemoryLogStore * Result unit :=
  let es := filter (λ e, e_index e < index) (entries s) in
  (mkMemoryLogStore es (rebuild_epoch_starts es) (snapshot_anchor s), Ok tt).

Definition term_at (index : N) (s : MemoryLogStore) : option N :=
  e_term <$> find (λ e, e_index e =? index) (entries s).

Definition purge_prefix (through : N) (s : MemoryLogStore) : MemoryLogStore * Result unit :=
  let es := filter (λ e, through < e_index e) (entries s) in
  (mkMemoryLogStore es (rebuild_epoch_starts es) (snapshot_anchor s), Ok tt).

Definition update_snapshot_anchor (t index : N) (s : MemoryLogStore)
    : MemoryLogStore * Result unit :=
  let a := match snapshot_anchor s with
           | Some (t0, prior_idx) =>
               if decide (index ≤ prior_idx) then Some (t0, prior_idx) else Some (t, index)
           | None => Some (t, index)
           end in
  (mkMemoryLogStore (entries s) (epoch_starts s) a, Ok tt).

Definition end_offset_for_epoch (epoch : N) (s : MemoryLogStore) : option N :=
  end_offset_lookup (epoch_starts s) (last_index s) (snapshot_anchor s) epoch.

Definition flush (s : MemoryLogStore) : MemoryLogStore * Result unit := (s, Ok tt).

#[export] Instance api : LogStoreApi MemoryLogStore := {
  ls_append := append;
  ls_get := get;
  ls_get_range := get_range;
  ls_last_index := last_index;
  ls_last_term := last_term;
  ls_truncate_from := truncate_from;
  ls_term_at := term_at;
  ls_flush := flush;
  ls_purge_prefix := purge_prefix;
  ls_update_snapshot_anchor := update_snapshot_anchor;
  ls_end_offset_for_epoch := end_offset_for_epoch;
}.

(** The checkpoint always describes the entries. *)
Definition inv (s : MemoryLogStore) : Prop :=
  contig (entries s) ∧ epoch_starts s = rebuild_epoch_starts (entries s).

(** A batch is appended whatever it holds, but for compaction markers. *)
Definition admits (s : MemoryLogStore) (es : list Entry) : Prop :=
  contig (entries s ++ es) ∧ existsb is_marker es = false.

Lemma new_inv : inv new.
Proof. split; [|done]. exists 1, 0. split; [lia|done]. Qed.

Lemma get_find i s :
  inv s → get i s = find (λ e, e_index e =? i) (entries s).
Proof.
  intros [(j & t & Hj & Hc) _]. unfold get. destruct (N.eqb_spec i 0) as [->|]; [|done].
  symmetry. apply find_nothing. intros e He. apply N.eqb_neq. destruct (contig_from_bounds _ _ _ _ Hc He). lia.
Qed.

(** The laws, as the instance the interface's clients use. *)
Lemma memory_store_laws : LogStoreLaws MemoryLogStore api inv entries snapshot_anchor admits.
Proof.
  split; simpl.
  - by intros s [? _].
  - intros es s [Hc He] [Hc' Hm]. unfold append. rewrite Hm. eexists. split; [reflexivity|].
    split_and!; [|done..]. split; [done|]. cbn. rewrite He. unfold rebuild_epoch_starts.
    by rewrite foldl_app.
  - intros es s _ Hm. unfold append. rewrite Hm. by eexists _, _.
  - by intros i s ?%(get_find i).
  - done.
  - done.
  - done.
  - intros i s [Hc He] _. eexists. split; [reflexivity|]. split_and!; [|done..].
    split; [by apply contig_truncate|done].
  - done.
  - intros s Hs. exists s. done.
  - intros i s [Hc He] _. eexists. split; [reflexivity|]. split_and!; [|done..].
    split; [by apply contig_purge|done].
  - intros t i s [Hc He] _ _. eexists. split; [reflexivity|]. split_and!; [by split|done|done].
  - intros e s [Hc He]. unfold end_offset_for_epoch, last_index. rewrite He.
    by apply end_offset_lookup_correct.
Qed.
(** [MemoryLogStore] implements the [LogStore] contract: on every store
    whose log is contiguous, each operation has exactly the documented effect
    on the abstract log and snapshot anchor and keeps the log contiguous,
    appends of compaction markers are refused, and the checkpoint lookup
    answers every epoch query as a scan of the log would. *)
Theorem memory_store_refines_log_store :
  LogStoreLaws MemoryLogStore api inv entries snapshot_anchor admits.
Proof. exact memory_store_laws. Qed.
End Mem.
End Mem.

(** ** A client of the interface *)

Section Client.
Context {MA : MembershipApi} {St : Type} {A : LogStoreApi St} {inv : St → Prop}
  {log : St → list Entry} {anchor : St → option (N * N)} {admits : St → list Entry → Prop}.
Context {L : LogStoreLaws St A inv log anchor admits}.

(** Divergence answers are exact for every log store: for an epoch present
    in the log, [end_offset_for_epoch] returns an index that separates the
    log, the entries up to it being exactly those of this epoch or older ones,
    so truncating a follower just above it removes only newer epochs. *)
Theorem end_offset_separates_epochs s epoch :
  inv s → (∃ x, x ∈ log s ∧ e_term x = epoch) →
  ∃ i, ls_end_offset_for_epoch epoch s = Some i ∧
    ∀ x, x ∈ log s → e_index x ≤ i ↔ e_term x ≤ epoch.
Proof using L.
  intros Hs (x & Hx & Hxe). rewrite ls_end_offset_spec by done. unfold epoch_end.
  destruct (ls_contig s Hs) as (i & t & _ & Hc). revert Hc Hx.
  generalize (log s). intros l Hc Hx.
  destruct (contig_from_split i t l epoch Hc) as (l1 & l2 & -> & H1 & H2 & Hc2).
  pose proof (contig_from_app_l _ _ _ _ Hc) as Hc1.
  assert (x ∈ l1) as Hx1.
  { apply elem_of_app in Hx as [?|Hx]; [done|]. specialize (H2 _ Hx). lia. }
  rewrite filter_app, (filter_nothing _ l2), (right_id_L [] (++))
    by (intros y Hy; specialize (H2 y Hy); lia).
  rewrite (last_of_epoch i t l1) by eauto.
  destruct (last l1) as [z|] eqn:Hz; [|apply last_None in Hz; subst; by apply not_elem_of_nil in Hx1].
  pose proof (contig_from_last _ _ _ _ Hc1 Hz) as Hzi.
  exists (e_index z). split; [done|]. intros y [Hy|Hy]%elem_of_app.
  - specialize (H1 y Hy). split; [done|]. intros _.
    pose proof (contig_from_below i t l1 y Hc1 Hy). lia.
  - specialize (H2 y Hy). destruct (contig_from_bounds _ _ _ _ Hc2 Hy). lia.
Qed.
End Client.

Import Concrete.

Definition sample_store : Mem.MemoryLogStore :=
  (Mem.append [mkEntry 1 1 NoOp; mkEntry 2 1 NoOp; mkEntry 3 4 NoOp] Mem.new).1.

Lemma sample_store_inv : Mem.inv sample_store.
Proof.
  split; [|vm_compute; reflexivity]. exists 1, 0. split; [lia|]. cbn. split_and!; try done; lia.
Qed.

Lemma end_offset_separates_epochs_witness :
  ∃ i, Mem.end_offset_for_epoch 1 sample_store = Some i ∧
    ∀ x, x ∈ Mem.entries sample_store → e_index x ≤ i ↔ e_term x ≤ 1.
Proof.
  refine (end_offset_separates_epochs (L := Mem.memory_store_laws) sample_store 1 _ _).
  - exact sample_store_inv.
  - exists (mkEntry 1 1 NoOp). split; [left|reflexivity].
Defined.
