(* ===== verification/Bytes.v ===== *)
(** * Little-endian integers

    [to_le_bytes] and [from_le_bytes] of Rust's unsigned integers, and the
    slices the on-disk codecs take. *)

From S2P Require Import Prelude Message.

(** One byte as a number, and back. *)
Definition byte_n (b : Byte.byte) : N := Byte.to_N b.
Definition n_byte (x : N) : Byte.byte :=
  match Byte.of_N (x mod 256) with Some b => b | None => Byte.x00 end.

Lemma byte_n_lt b : byte_n b < 256.
Proof. unfold byte_n. pose proof (Byte.to_N_bounded b). lia. Qed.
Lemma n_byte_n b : n_byte (byte_n b) = b.
Proof.
  unfold n_byte, byte_n. rewrite N.mod_small by apply byte_n_lt. by rewrite Byte.of_to_N.
Qed.
Lemma byte_n_byte x : byte_n (n_byte x) = x mod 256.
Proof.
  unfold n_byte, byte_n. destruct (Byte.of_N (x mod 256)) as [b|] eqn:E.
  - by apply Byte.to_of_N in E.
  - apply Byte.of_N_None_iff in E. pose proof (N.mod_lt x 256 ltac:(lia)). lia.
Qed.

(** [k] bytes, least significant first. *)
Fixpoint le_bytes (k : nat) (x : N) : bytes :=
  match k with
  | O => []
  | S k => n_byte x :: le_bytes k (x / 256)
  end.
Fixpoint le_num (b : bytes) : N :=
  match b with
  | [] => 0
  | x :: b => byte_n x + 256 * le_num b
  end.

Lemma length_le_bytes k x : length (le_bytes k x) = k.
Proof. revert x. induction k as [|k IH]; intros x; simpl; [done|]. by rewrite IH. Qed.

Lemma le_num_bytes k x : x < 256 ^ N.of_nat k → le_num (le_bytes k x) = x.
Proof.
  revert x. induction k as [|k IH]; intros x Hx.
  - cbn in *. lia.
  - cbn [le_bytes le_num]. rewrite byte_n_byte, IH.
    + pose proof (N.div_mod' x 256) as Hd. lia.
    + rewrite Nat2N.inj_succ, N.pow_succ_r' in Hx.
      apply N.Div0.div_lt_upper_bound. lia.
Qed.

Lemma le_num_lt b : le_num b < 256 ^ N.of_nat (length b).
Proof.
  induction b as [|x b IH]; [done|]. cbn [le_num length].
  rewrite Nat2N.inj_succ, N.pow_succ_r'. pose proof (byte_n_lt x) as Hx. revert Hx.
  revert IH. generalize (byte_n x) (256 ^ N.of_nat (length b)) (le_num b). intros y p q Hy Hlt.
  nia.
Qed.

Lemma le_bytes_num b : le_bytes (length b) (le_num b) = b.
Proof.
  induction b as [|x b IH]; [done|]. cbn [le_num length le_bytes].
  assert (n_byte (byte_n x + 256 * le_num b) = x) as ->.
  { rewrite <-(n_byte_n x) at 2. unfold n_byte.
    rewrite N.mul_comm, N.Div0.mod_add. done. }
  assert ((byte_n x + 256 * le_num b) / 256 = le_num b) as ->; [|by rewrite IH].
  rewrite N.mul_comm, N.div_add by lia. by rewrite N.div_small by apply byte_n_lt.
Qed.

Definition u32_bytes (x : N) : bytes := le_bytes 4 x.
Definition u64_bytes (x : N) : bytes := le_bytes 8 x.
(** [x as u32]. *)
Definition as_u32 (x : N) : N := x mod 4294967296.

Lemma u32_roundtrip x : x < 4294967296 → le_num (u32_bytes x) = x.
Proof. intros Hx. by apply le_num_bytes. Qed.
Lemma u64_roundtrip x : u64 x → le_num (u64_bytes x) = x.
Proof. intros Hx. apply le_num_bytes. unfold u64, u64_max in Hx. cbn. lia. Qed.
Lemma length_u32 x : length (u32_bytes x) = 4%nat.
Proof. apply length_le_bytes. Qed.
Lemma length_u64 x : length (u64_bytes x) = 8%nat.
Proof. apply length_le_bytes. Qed.

(** [buf[a..b]]. *)
Definition slice (buf : bytes) (a b : nat) : bytes := take (b - a) (drop a buf).

Lemma slice_app_l (p q r : bytes) a b :
  a = length p → b = (length p + length q)%nat → slice (p ++ q ++ r) a b = q.
Proof.
  intros -> ->. unfold slice. rewrite drop_app_length.
  replace (length p + length q - length p)%nat with (length q) by lia.
  apply take_app_length.
Qed.

#[export] Hint Rewrite length_u32 length_u64 : bytes.

Lemma length_slice (buf : bytes) a b : (b ≤ length buf)%nat → length (slice buf a b) = (b - a)%nat.
Proof. intros Hb. unfold slice. rewrite length_take, length_drop. lia. Qed.
Lemma slice_app_prefix (p q : bytes) a b : (b ≤ length p)%nat → slice (p ++ q) a b = slice p a b.
Proof.
  intros Hb. unfold slice. destruct (decide (a ≤ length p)%nat).
  - rewrite drop_app_le by done. rewrite take_app_le; [done|]. rewrite length_drop. lia.
  - by replace (b - a)%nat with 0%nat by lia.
Qed.
Lemma slice_split (buf : bytes) a b c :
  (a ≤ b)%nat → (b ≤ c)%nat → slice buf a c = slice buf a b ++ slice buf b c.
Proof.
  intros Hab Hbc. unfold slice. replace (c - a)%nat with ((b - a) + (c - b))%nat by lia.
  rewrite <-take_take_drop, drop_drop. by replace (a + (b - a))%nat with b by lia.
Qed.
Lemma slice_all (buf : bytes) : slice buf 0 (length buf) = buf.
Proof. unfold slice. rewrite drop_0. apply take_ge. lia. Qed.
