(* ===== verification/WalCodec.v ===== *)
(** * The write-ahead-log codec ([xraft-storage/src/log.rs])

    The binary frame of an entry, [encode_frame] and [decode_frame], and
    [recover_segment], the loop that replays a segment file after a crash.
    [crc32fast] and [bincode] are parameters. *)

From S2P Require Import Prelude CoreTypes Message Bytes LogStore Concrete.

(** [crc32fast]: a checksum that fits a [u32]. *)
Class Crc32 : Type := { crc32_of : bytes → N }.
Class Crc32Laws (CR : Crc32) : Prop := { crc32_lt b : crc32_of b < 4294967296 }.

Section Codec.
Context {MA : MembershipApi} {BV : Bincode VoterSet} {CR : Crc32}.

Definition PAYLOAD_TAG_NOOP : N := 0.
Definition PAYLOAD_TAG_COMMAND : N := 1.
Definition PAYLOAD_TAG_SNAPSHOT : N := 2.
Definition PAYLOAD_TAG_CONFIG_CHANGE : N := 3.
Definition ENTRY_HEADER_LEN : nat := 21.

(** [serialize_entry]; [None] is the panic on a compaction marker. *)
Definition serialize_entry (e : Entry) : option bytes :=
  match (match e_payload e with
         | NoOp => Some (PAYLOAD_TAG_NOOP, [])
         | Command b => Some (PAYLOAD_TAG_COMMAND, b)
         | SnapshotMarker _ => None
         | ConfigChange vs => Some (PAYLOAD_TAG_CONFIG_CHANGE, bin_ser vs)
         end) with
  | None => None
  | Some (tag, payload_bytes) =>
      Some (u64_bytes (e_index e) ++ u64_bytes (e_term e) ++ [n_byte tag] ++
            u32_bytes (as_u32 (N.of_nat (length payload_bytes))) ++ payload_bytes)
  end.

(** [deserialize_entry]. *)
Definition deserialize_entry (data : bytes) : Result Entry :=
  if decide (length data < ENTRY_HEADER_LEN)%nat then Err (Storage "entry data too short")
  else
    let index := le_num (slice data 0 8) in
    let t := le_num (slice data 8 16) in
    let tag := match data !! 16%nat with Some b => byte_n b | None => 0 end in
    let payload_len := N.to_nat (le_num (slice data 17 21)) in
    if decide (length data < ENTRY_HEADER_LEN + payload_len)%nat
    then Err (Storage "entry payload truncated")
    else
      let payload_data := slice data ENTRY_HEADER_LEN (ENTRY_HEADER_LEN + payload_len) in
      let? payload :=
        (if tag =? PAYLOAD_TAG_NOOP then Ok NoOp
         else if tag =? PAYLOAD_TAG_COMMAND then Ok (Command payload_data)
         else if tag =? PAYLOAD_TAG_SNAPSHOT then
           Err (Storage "EntryPayload::Snapshot found in WAL segment")
         else if tag =? PAYLOAD_TAG_CONFIG_CHANGE then
           match bin_de payload_data with
           | Some vs => Ok (ConfigChange vs)
           | None => Err (Storage "VoterSet decode failed")
           end
         else Err (Storage "unknown payload tag")) in
      Ok (mkEntry index t payload).

(** [encode_frame]. *)
Definition encode_frame (e : Entry) : option bytes :=
  match serialize_entry e with
  | None => None
  | Some data =>
      Some (u32_bytes (as_u32 (N.of_nat (length data))) ++ data ++ u32_bytes (crc32_of data))
  end.

(** [decode_frame]: the entry and the offset behind its frame. *)
Definition decode_frame (buf : bytes) (offset : nat) : Result (Entry * nat) :=
  let remaining := (length buf - offset)%nat in
  if decide (remaining < 4)%nat then Err (Storage "truncated frame: missing data_len")
  else
    let data_len := N.to_nat (le_num (slice buf offset (offset + 4))) in
    let total := (4 + data_len + 4)%nat in
    if decide (remaining < total)%nat then Err (Storage "truncated frame: incomplete body")
    else
      let data_start := (offset + 4)%nat in
      let data_end := (data_start + data_len)%nat in
      let data := slice buf data_start data_end in
      let stored_crc := le_num (slice buf data_end (data_end + 4)) in
      if decide (stored_crc ≠ crc32_of data) then Err (Storage "CRC mismatch")
      else
        let? e := deserialize_entry data in
        Ok (e, (offset + total)%nat).

(** What a recovery fills in: the entries, and where each one lies. *)
Record recovered : Type := mkRecovered {
  rec_entries : gmap N Entry;
  rec_offsets : gmap N (nat * N);
}.

(** Recording one replayed frame, unless a purge has covered its index. *)
Definition note_frame (floor : N) (seg_idx : nat) (e : Entry) (frame_start : nat)
    (r : recovered) : recovered :=
  if decide (floor < e_index e) then
    mkRecovered (<[e_index e := e]> (rec_entries r))
                (<[e_index e := (seg_idx, N.of_nat frame_start)]> (rec_offsets r))
  else r.

(** The [while cursor < buf.len()] loop of [recover_segment]; the second
    component of the answer is the file's length afterwards ([set_len] trims a
    torn tail of the last segment). [None] is out of fuel. *)
Fixpoint recover_loop (fuel : nat) (floor : N) (seg_idx : nat) (is_last : bool) (buf : bytes)
    (cursor : nat) (r : recovered) : option (Result (recovered * nat)) :=
  match fuel with
  | O => None
  | S fuel =>
      if decide (cursor < length buf)%nat then
        match decode_frame buf cursor with
        | Ok (e, next) =>
            recover_loop fuel floor seg_idx is_last buf next (note_frame floor seg_idx e cursor r)
        | Err err => if is_last then Some (Ok (r, cursor)) else Some (Err err)
        end
      else Some (Ok (r, length buf))
  end.

(** [recover_segment]. *)
Definition recover_segment (floor : N) (seg_idx : nat) (is_last : bool) (buf : bytes)
    (r : recovered) : option (Result (recovered * nat)) :=
  recover_loop (S (length buf)) floor seg_idx is_last buf 0 r.

(** ** Round trip *)

(** The payload bytes of an entry. *)
Definition payload_bytes (e : Entry) : bytes :=
  match e_payload e with
  | NoOp | SnapshotMarker _ => []
  | Command b => b
  | ConfigChange vs => bin_ser vs
  end.

(** Entries the format can hold: no marker, scalars of a [u64], and a data
    section whose length fits the [u32] header. *)
Definition storable (e : Entry) : Prop :=
  is_marker e = false ∧ u64 (e_index e) ∧ u64 (e_term e) ∧
  N.of_nat (21 + length (payload_bytes e)) < 4294967296.

Context {BL : BincodeLaws VoterSet BV} {CL : Crc32Laws CR}.

Lemma as_u32_small x : x < 4294967296 → as_u32 x = x.
Proof. intros. unfold as_u32. by rewrite N.mod_small. Qed.

Definition tag_of (e : Entry) : N :=
  match e_payload e with
  | NoOp => PAYLOAD_TAG_NOOP
  | Command _ => PAYLOAD_TAG_COMMAND
  | SnapshotMarker _ => PAYLOAD_TAG_SNAPSHOT
  | ConfigChange _ => PAYLOAD_TAG_CONFIG_CHANGE
  end.

Lemma serialize_storable e :
  storable e →
  serialize_entry e = Some (u64_bytes (e_index e) ++ u64_bytes (e_term e) ++ [n_byte (tag_of e)] ++
    u32_bytes (N.of_nat (length (payload_bytes e))) ++ payload_bytes e).
Proof.
  intros (Hm & _ & _ & Hl). unfold serialize_entry, tag_of, payload_bytes, is_marker in *.
  destruct (e_payload e); try done; rewrite as_u32_small; try done; lia.
Qed.

Lemma length_serialized e data :
  storable e → serialize_entry e = Some data → length data = (21 + length (payload_bytes e))%nat.
Proof.
  intros Hs. rewrite serialize_storable by done. intros Heq. apply (inj Some) in Heq as <-.
  rewrite !length_app, !length_u64, length_u32. simpl. lia.
Qed.

Lemma entry_codec_roundtrip e data :
  storable e → serialize_entry e = Some data → deserialize_entry data = Ok e.
Proof using BL.
  intros Hs Hd. pose proof (length_serialized _ _ Hs Hd) as Hlen.
  rewrite serialize_storable in Hd by done. apply (inj Some) in Hd as <-.
  destruct Hs as (Hm & Hi & Ht & Hl). unfold deserialize_entry. rewrite Hlen.
  set (p := payload_bytes e) in *. unfold ENTRY_HEADER_LEN.
  rewrite decide_False by lia.
  set (I := u64_bytes (e_index e)). set (T := u64_bytes (e_term e)).
  set (L := u32_bytes (N.of_nat (length p))).
  assert (slice (I ++ T ++ [n_byte (tag_of e)] ++ L ++ p) 0 8 = I) as ->.
  { apply (slice_app_l [] I _); [done|]. unfold I. by rewrite length_u64. }
  assert (slice (I ++ T ++ [n_byte (tag_of e)] ++ L ++ p) 8 16 = T) as ->.
  { apply slice_app_l; unfold I, T; by rewrite ?length_u64. }
  assert ((I ++ T ++ [n_byte (tag_of e)] ++ L ++ p) !! 16%nat = Some (n_byte (tag_of e))) as ->.
  { rewrite lookup_app_r by (unfold I; rewrite length_u64; lia).
    rewrite lookup_app_r by (unfold I, T; rewrite !length_u64; lia).
    unfold I, T. by rewrite !length_u64. }
  assert (slice (I ++ T ++ [n_byte (tag_of e)] ++ L ++ p) 17 21 = L) as ->.
  { rewrite (assoc_L (++) I), (assoc_L (++) (I ++ T)). apply slice_app_l; unfold I, T, L;
      by rewrite !length_app, !length_u64, ?length_u32. }
  assert (le_num L = N.of_nat (length p)) as -> by (apply u32_roundtrip; lia).
  rewrite Nat2N.id. rewrite decide_False by lia.
  assert (slice (I ++ T ++ [n_byte (tag_of e)] ++ L ++ p) 21 (21 + length p) = p) as ->.
  { rewrite (assoc_L (++) I), (assoc_L (++) (I ++ T)), (assoc_L (++) _ L).
    rewrite <-(right_id_L [] (++) p) at 1. apply slice_app_l; unfold I, T, L;
      by rewrite !length_app, !length_u64, length_u32. }
  unfold I, T. rewrite !u64_roundtrip by done. rewrite byte_n_byte.
  unfold tag_of, p, payload_bytes, is_marker in *. destruct e as [i t []]; cbn in *; try done.
  by rewrite bin_roundtrip.
Qed.

Lemma encode_storable e :
  storable e → ∃ data, serialize_entry e = Some data ∧
    encode_frame e = Some (u32_bytes (N.of_nat (length data)) ++ data ++ u32_bytes (crc32_of data)) ∧
    N.of_nat (length data) < 4294967296.
Proof.
  intros Hs. pose proof (serialize_storable e Hs) as Hd. eexists. split; [exact Hd|].
  unfold encode_frame. rewrite Hd. pose proof (length_serialized _ _ Hs Hd) as Hlen.
  destruct Hs as (_ & _ & _ & Hl). rewrite as_u32_small by (rewrite Hlen; lia).
  split; [done|rewrite Hlen; lia].
Qed.

Lemma decode_encoded pre post e frame :
  storable e → encode_frame e = Some frame →
  decode_frame (pre ++ frame ++ post) (length pre) = Ok (e, (length pre + length frame)%nat).
Proof using BL CL.
  intros Hs Hf. destruct (encode_storable e Hs) as (data & Hd & Hf' & Hl).
  rewrite Hf in Hf'. apply (inj Some) in Hf' as ->. clear Hf. unfold decode_frame.
  set (L := u32_bytes (N.of_nat (length data))). set (K := u32_bytes (crc32_of data)).
  assert (length L = 4%nat ∧ length K = 4%nat) as [HL HK] by (split; apply length_u32).
  rewrite !length_app, HL, HK. rewrite decide_False by lia.
  assert (slice (pre ++ (L ++ data ++ K) ++ post) (length pre) (length pre + 4) = L) as ->.
  { rewrite <-!(assoc_L (++)). apply slice_app_l; lia. }
  assert (le_num L = N.of_nat (length data)) as -> by by apply u32_roundtrip.
  rewrite Nat2N.id. rewrite decide_False by lia.
  assert (slice (pre ++ (L ++ data ++ K) ++ post) (length pre + 4) (length pre + 4 + length data) = data) as ->.
  { rewrite <-!(assoc_L (++)). rewrite (assoc_L (++) pre). apply slice_app_l; rewrite length_app; lia. }
  assert (slice (pre ++ (L ++ data ++ K) ++ post) (length pre + 4 + length data)
            (length pre + 4 + length data + 4) = K) as ->.
  { rewrite <-!(assoc_L (++)). rewrite (assoc_L (++) pre), (assoc_L (++) (pre ++ L)).
    apply slice_app_l; rewrite !length_app; lia. }
  assert (le_num K = crc32_of data) as -> by (apply u32_roundtrip, crc32_lt).
  rewrite decide_False by (by intros []). rewrite (entry_codec_roundtrip e data) by done.
  done.
Qed.

(** A proper prefix of a frame, at the end of the file, never decodes. *)
Lemma decode_torn pre e frame k :
  storable e → encode_frame e = Some frame → (k < length frame)%nat →
  ∃ msg, decode_frame (pre ++ take k frame) (length pre) = Err (Storage msg).
Proof.
  intros Hs Hf Hk. destruct (encode_storable e Hs) as (data & Hd & Hf' & Hl).
  rewrite Hf in Hf'. apply (inj Some) in Hf' as ->. clear Hf. unfold decode_frame.
  rewrite length_app, length_take_le by lia.
  replace (length pre + k - length pre)%nat with k by lia.
  case_decide as H4; [by eexists|].
  set (L := u32_bytes (N.of_nat (length data))) in *.
  assert (length L = 4%nat) as HL by apply length_u32.
  assert (slice (pre ++ take k (L ++ data ++ u32_bytes (crc32_of data))) (length pre)
            (length pre + 4) = L) as ->.
  { rewrite take_app_ge by lia. apply slice_app_l; lia. }
  assert (le_num L = N.of_nat (length data)) as -> by by apply u32_roundtrip.
  rewrite Nat2N.id. rewrite !length_app, HL, length_u32 in Hk.
  rewrite decide_True by lia. by eexists.
Qed.

(** ** Recovery *)

Definition frame_bytes (e : Entry) : bytes := default [] (encode_frame e).
(** A segment file: the frames of its entries, one after the other. *)
Definition log_bytes (es : list Entry) : bytes := concat (frame_bytes <$> es).

Lemma frame_bytes_Some e : storable e → encode_frame e = Some (frame_bytes e).
Proof. intros (data & _ & Hf & _)%encode_storable. unfold frame_bytes. by rewrite Hf. Qed.
Lemma frame_bytes_length e : storable e → (8 ≤ length (frame_bytes e))%nat.
Proof.
  intros He. destruct (encode_storable e He) as (data & _ & Hf & _).
  rewrite frame_bytes_Some in Hf by done. apply (inj Some) in Hf as ->.
  rewrite !length_app, !length_u32. lia.
Qed.
Lemma log_bytes_app es es' : log_bytes (es ++ es') = log_bytes es ++ log_bytes es'.
Proof. unfold log_bytes. by rewrite fmap_app, concat_app. Qed.
Lemma log_bytes_cons e es : log_bytes (e :: es) = frame_bytes e ++ log_bytes es.
Proof. done. Qed.

(** What replaying [es], laid out from [off], records. *)
Fixpoint replayed (floor : N) (seg_idx : nat) (es : list Entry) (off : nat) (r : recovered)
    : recovered :=
  match es with
  | [] => r
  | e :: es => replayed floor seg_idx es (off + length (frame_bytes e))
                 (note_frame floor seg_idx e off r)
  end.

(** A crash leaves a proper prefix of the frame being written. *)
Definition torn (t : bytes) : Prop :=
  ∃ e k, storable e ∧ (k < length (frame_bytes e))%nat ∧ t = take k (frame_bytes e).

Lemma recover_loop_frames fuel floor seg_idx is_last pre es t r :
  Forall storable es → (length (log_bytes es ++ t) < fuel)%nat →
  recover_loop fuel floor seg_idx is_last (pre ++ log_bytes es ++ t) (length pre) r =
  recover_loop (fuel - length es) floor seg_idx is_last (pre ++ log_bytes es ++ t)
    (length pre + length (log_bytes es)) (replayed floor seg_idx es (length pre) r).
Proof using BL CL.
  intros Hs. revert fuel pre r. induction Hs as [|e es He Hs IH]; intros fuel pre r Hf.
  - cbn. by rewrite Nat.sub_0_r, Nat.add_0_r.
  - rewrite log_bytes_cons in *. destruct fuel as [|fuel]; [lia|].
    pose proof (frame_bytes_length e He) as Hl. rewrite !length_app in Hf.
    cbn [recover_loop replayed length]. rewrite decide_True by (rewrite !length_app; lia).
    rewrite <-(assoc_L (++) (frame_bytes e)).
    rewrite (decode_encoded pre _ e (frame_bytes e) He (frame_bytes_Some e He)).
    rewrite !(assoc_L (++) pre). rewrite <-!length_app.
    rewrite (IH fuel (pre ++ frame_bytes e)) by (rewrite length_app; lia).
    rewrite !length_app. cbn [Nat.sub]. f_equal. lia.
Qed.

Lemma log_bytes_length es : Forall storable es → (length es ≤ length (log_bytes es))%nat.
Proof.
  induction 1 as [|e es He _ IH]; [done|]. rewrite log_bytes_cons, length_app. cbn [length].
  pose proof (frame_bytes_length e He). lia.
Qed.

Lemma recover_segment_clean floor seg_idx is_last es r :
  Forall storable es →
  recover_segment floor seg_idx is_last (log_bytes es) r =
    Some (Ok (replayed floor seg_idx es 0 r, length (log_bytes es))).
Proof using BL CL.
  intros Hs. unfold recover_segment.
  pose proof (recover_loop_frames (S (length (log_bytes es ++ []))) floor seg_idx is_last [] es [] r Hs) as Hl.
  cbn [app length] in Hl. rewrite (right_id_L [] (++)) in Hl. rewrite Hl by lia. clear Hl.
  assert (length es ≤ length (log_bytes es))%nat as Hle by by apply log_bytes_length.
  destruct (S (length (log_bytes es)) - length es)%nat as [|fuel] eqn:Hfuel; [lia|].
  cbn [recover_loop Nat.add]. by rewrite decide_False by lia.
Qed.

Lemma recover_segment_torn floor seg_idx es t r :
  Forall storable es → t = [] ∨ torn t →
  recover_segment floor seg_idx true (log_bytes es ++ t) r =
    Some (Ok (replayed floor seg_idx es 0 r, length (log_bytes es))).
Proof using BL CL.
  intros Hs Ht. unfold recover_segment.
  pose proof (recover_loop_frames (S (length (log_bytes es ++ t))) floor seg_idx true [] es t r Hs) as Hl.
  cbn [app length] in Hl. rewrite Hl by lia. clear Hl.
  assert (length es ≤ length (log_bytes es))%nat as Hle by by apply log_bytes_length.
  rewrite length_app. destruct (S (length (log_bytes es) + length t) - length es)%nat as [|fuel] eqn:Hfuel;
    [lia|]. cbn [recover_loop Nat.add].
  destruct Ht as [->|(e & k & He & Hk & ->)].
  - rewrite (right_id_L [] (++)), decide_False by lia. done.
  - rewrite length_app, length_take_le by lia. case_decide as Hd.
    + destruct (decode_torn (log_bytes es) e (frame_bytes e) k He (frame_bytes_Some e He) Hk) as [msg Hm].
      by rewrite Hm.
    + do 4 f_equal. lia.
Qed.

(** Crash recovery of a segment loses nothing that was completely written:
    for any entries written as frames and followed by any torn frame (or
    nothing), recovery of the last segment replays exactly those entries in
    order at their byte offsets, skips those a purge has covered, and trims the
    file back to the end of the last complete frame. *)
Theorem recover_torn_tail floor seg_idx es t r :
  Forall storable es → t = [] ∨ torn t →
  recover_segment floor seg_idx true (log_bytes es ++ t) r =
    Some (Ok (replayed floor seg_idx es 0 r, length (log_bytes es))).
Proof using BL CL. apply recover_segment_torn. Qed.

(** Corruption is never skipped over in a sealed segment: when a segment
    that is not the last ends in a torn frame, recovery fails with a storage
    error instead of silently dropping entries. *)
Theorem recover_sealed_torn floor seg_idx es t r :
  Forall storable es → torn t → t ≠ [] →
  ∃ msg, recover_segment floor seg_idx false (log_bytes es ++ t) r = Some (Err (Storage msg)).
Proof using BL CL.
  intros Hs (e & k & He & Hk & ->) Hne. unfold recover_segment.
  set (t := take k (frame_bytes e)) in *.
  pose proof (recover_loop_frames (S (length (log_bytes es ++ t))) floor seg_idx false [] es t r Hs) as Hl.
  cbn [app length] in Hl. rewrite Hl by lia. clear Hl.
  assert (length es ≤ length (log_bytes es))%nat as Hle by by apply log_bytes_length.
  rewrite length_app. destruct (S (length (log_bytes es) + length t) - length es)%nat as [|fuel] eqn:Hfuel;
    [lia|]. cbn [recover_loop Nat.add].
  assert (0 < length t)%nat by (destruct t; [done|cbn; lia]).
  rewrite decide_True by (rewrite length_app; lia).
  destruct (decode_torn (log_bytes es) e (frame_bytes e) k He (frame_bytes_Some e He) Hk) as [msg Hm].
  fold t in Hm. exists msg. by rewrite Hm.
Qed.

(** ** Termination *)

Lemma decode_frame_progress buf offset e next :
  decode_frame buf offset = Ok (e, next) → (offset + 8 ≤ next ≤ length buf)%nat.
Proof.
  unfold decode_frame. case_decide; [done|]. case_decide; [done|]. case_decide; [done|].
  rewrite rbind_Ok. intros (e' & _ & [= _ <-]). lia.
Qed.

Lemma recover_loop_total fuel floor seg_idx is_last buf cursor r :
  (length buf - cursor < fuel)%nat →
  ∃ res, recover_loop fuel floor seg_idx is_last buf cursor r = Some res.
Proof.
  revert cursor r. induction fuel as [|fuel IH]; intros cursor r Hf; [lia|]. cbn [recover_loop].
  case_decide; [|by eexists]. destruct (decode_frame buf cursor) as [[e next]|err] eqn:Hd.
  - apply decode_frame_progress in Hd. apply IH. lia.
  - destruct is_last; by eexists.
Qed.

(** Recovery terminates on every file, whatever its bytes: the replay loop
    always ends within one iteration per byte, and either reports an error or
    a trimmed length within the file; on the last segment it never fails. *)
Theorem recover_segment_total floor seg_idx is_last buf r :
  ∃ res, recover_segment floor seg_idx is_last buf r = Some res ∧
    match res with
    | Ok (_, len) => (len ≤ length buf)%nat
    | Err _ => is_last = false
    end.
Proof.
  unfold recover_segment.
  destruct (recover_loop_total (S (length buf)) floor seg_idx is_last buf 0 r) as [res Hres]; [lia|].
  exists res. split; [done|]. revert Hres. generalize (S (length buf)).
  assert (0 ≤ length buf)%nat as Hc by lia. revert Hc. generalize 0%nat.
  intros cursor Hc fuel. revert cursor Hc r.
  induction fuel as [|fuel IH]; intros cursor Hc r; [done|]. cbn [recover_loop].
  case_decide; [|by intros [= <-]]. destruct (decode_frame buf cursor) as [[e next]|err] eqn:Hd.
  - apply decode_frame_progress in Hd. apply IH. lia.
  - destruct is_last; by intros [= <-].
Qed.

(** ** What recovery exposes *)

Lemma replayed_entries floor seg_idx es off r i :
  NoDup (e_index <$> es) →
  rec_entries (replayed floor seg_idx es off r) !! i =
  match find (λ e, e_index e =? i) es with
  | Some e => if decide (floor < i) then Some e else rec_entries r !! i
  | None => rec_entries r !! i
  end.
Proof.
  revert off r. induction es as [|e es IH]; intros off r Hnd; [done|]. cbn in Hnd.
  apply NoDup_cons in Hnd as [Hni Hnd]. cbn [replayed find]. rewrite IH by done.
  destruct (N.eqb_spec (e_index e) i) as [<-|Hne].
  - rewrite find_nothing.
    + unfold note_frame. destruct (decide (floor < e_index e)); [|done].
      cbn [rec_entries]. by rewrite lookup_insert_eq.
    + intros x Hx. apply N.eqb_neq. intros Heq. apply Hni. rewrite <-Heq.
      by apply list_elem_of_fmap_2.
  - assert (rec_entries (note_frame floor seg_idx e off r) !! i = rec_entries r !! i) as ->; [|done].
    unfold note_frame. destruct (decide (floor < e_index e)); [|done].
    cbn [rec_entries]. by rewrite lookup_insert_ne.
Qed.

(** After a restart the log is exactly what was written and not purged: an
    empty store recovering one segment, torn or not, holds an entry at an index
    if and only if that entry was written there and the index lies above the
    purge floor. *)
Theorem recovered_log_is_written_log floor seg_idx es t i e :
  Forall storable es → NoDup (e_index <$> es) → t = [] ∨ torn t →
  ∃ r len, recover_segment floor seg_idx true (log_bytes es ++ t) (mkRecovered ∅ ∅) = Some (Ok (r, len)) ∧
    (rec_entries r !! i = Some e ↔ e ∈ es ∧ e_index e = i ∧ floor < i).
Proof using BL CL.
  intros Hs Hnd Ht. do 2 eexists. split; [by apply recover_segment_torn|].
  rewrite replayed_entries by done. cbn. rewrite lookup_empty.
  assert (find (λ x, e_index x =? i) es = Some e ↔ e ∈ es ∧ e_index e = i) as Hf.
  { clear -Hnd. induction es as [|x es IH]; cbn.
    - split; [done|]. by intros [?%not_elem_of_nil _].
    - cbn in Hnd. apply NoDup_cons in Hnd as [Hni Hnd]. destruct (N.eqb_spec (e_index x) i) as [<-|Hne].
      + split; [intros [= ->]; split; [by left|done]|].
        intros [[->|Hin]%elem_of_cons Heq]; [done|]. exfalso. apply Hni. rewrite <-Heq.
        by apply list_elem_of_fmap_2.
      + rewrite IH by done. rewrite elem_of_cons. naive_solver. }
  destruct (find _ es) as [x|] eqn:Hx; [case_decide|]; naive_solver.
Qed.
End Codec.

Import Concrete.

(** A checksum to run the codec with: the sum of the bytes. *)
#[export] Instance sum_crc : Crc32 := {
  crc32_of b := as_u32 (foldr (λ x acc, byte_n x + acc) 0 b);
}.
#[export] Instance sum_crc_laws : Crc32Laws sum_crc.
Proof. split. intros b. unfold crc32_of, sum_crc, as_u32. by apply N.mod_lt. Qed.

Definition wal_sample : list Entry :=
  [mkEntry 1 1 NoOp; mkEntry 2 1 (Command [Byte.x2a; Byte.x2b])].
Definition wal_next : Entry := mkEntry 3 2 (Command [Byte.x07]).
Definition wal_torn : bytes := take 11 (frame_bytes wal_next).

Lemma storable_b e :
  bool_decide (is_marker e = false) && (e_index e <=? u64_max) && (e_term e <=? u64_max) &&
  (N.of_nat (21 + length (payload_bytes e)) <? 4294967296) = true → storable e.
Proof.
  rewrite !andb_true_iff, bool_decide_eq_true, !N.leb_le, N.ltb_lt. unfold storable, u64. tauto.
Qed.
Lemma wal_sample_storable : Forall storable wal_sample.
Proof. repeat constructor; apply storable_b; vm_compute; reflexivity. Qed.
Lemma wal_torn_torn : torn wal_torn.
Proof.
  exists wal_next, 11%nat. split_and!; [apply storable_b; vm_compute; reflexivity| |done].
  apply (bool_decide_unpack _). vm_compute. exact I.
Qed.
Lemma wal_sample_distinct : NoDup (e_index <$> wal_sample).
Proof. apply (bool_decide_unpack _). vm_compute. exact I. Qed.

Lemma recover_torn_tail_witness :
  recover_segment 0 0 true (log_bytes wal_sample ++ wal_torn) (mkRecovered ∅ ∅) =
    Some (Ok (replayed 0 0 wal_sample 0 (mkRecovered ∅ ∅), 60%nat)).
Proof.
  rewrite (recover_torn_tail 0 0 wal_sample wal_torn (mkRecovered ∅ ∅) wal_sample_storable
             (or_intror wal_torn_torn)).
  vm_compute. reflexivity.
Defined.

Lemma recover_sealed_torn_witness :
  ∃ msg, recover_segment 0 0 false (log_bytes wal_sample ++ wal_torn) (mkRecovered ∅ ∅) =
    Some (Err (Storage msg)).
Proof.
  apply (recover_sealed_torn 0 0 wal_sample wal_torn (mkRecovered ∅ ∅) wal_sample_storable
           wal_torn_torn).
  vm_compute. discriminate.
Defined.

Lemma recovered_log_is_written_log_witness :
  ∃ r len, recover_segment 1 0 true (log_bytes wal_sample ++ wal_torn) (mkRecovered ∅ ∅) =
      Some (Ok (r, len)) ∧
    (rec_entries r !! 2 = Some (mkEntry 2 1 (Command [Byte.x2a; Byte.x2b])) ↔
     mkEntry 2 1 (Command [Byte.x2a; Byte.x2b]) ∈ wal_sample ∧ 2 = 2 ∧ 1 < 2).
Proof.
  apply (recovered_log_is_written_log 1 0 wal_sample wal_torn 2
           (mkEntry 2 1 (Command [Byte.x2a; Byte.x2b])) wal_sample_storable wal_sample_distinct
           (or_intror wal_torn_torn)).
Defined.
