(* ===== verification/BTree.v ===== *)
(** * Ordered maps

    Rust's [BTreeMap] with [u64] keys: a finite map, and its iteration in
    ascending key order. *)

From S2P Require Import Prelude.

Section BTree.
Context {A : Type}.
Implicit Types m : gmap N A.

Definition key_le : relation (N * A) := λ a b, a.1 ≤ b.1.
Definition key_lt : relation (N * A) := λ a b, a.1 < b.1.
#[export] Instance key_le_dec : RelDecision key_le := λ a b, decide (a.1 ≤ b.1).
#[export] Instance key_le_trans : Transitive key_le.
Proof. unfold key_le. intros a b c; lia. Qed.
#[export] Instance key_le_total : Total key_le.
Proof. unfold key_le. intros a b; lia. Qed.

(** [iter()], [values()], [keys()]. *)
Definition in_order m : list (N * A) := merge_sort key_le (map_to_list m).
Definition values m : list A := (in_order m).*2.
Definition keys m : list N := (in_order m).*1.
(** [range(i..).next()] and [values().next_back()]. *)
Definition range_first m (i : N) : option (N * A) := head (filter (λ p, i ≤ p.1) (in_order m)).
Definition last_pair m : option (N * A) := last (in_order m).

Lemma in_order_perm m : in_order m ≡ₚ map_to_list m.
Proof. apply merge_sort_Permutation. Qed.

Lemma elem_of_in_order m k x : (k, x) ∈ in_order m ↔ m !! k = Some x.
Proof. by rewrite in_order_perm, elem_of_map_to_list. Qed.

Lemma in_order_NoDup m : NoDup (in_order m).*1.
Proof. rewrite in_order_perm. apply NoDup_fst_map_to_list. Qed.

(** Strictly ascending. *)
Lemma in_order_sorted m : StronglySorted key_lt (in_order m).
Proof.
  assert (StronglySorted key_le (in_order m)) as Hs by apply (StronglySorted_merge_sort key_le).
  pose proof (in_order_NoDup m) as Hnd.
  induction Hs as [|[k x] l Hs IH Hall]; constructor.
  - apply IH. by apply NoDup_cons in Hnd as [_ ?].
  - apply NoDup_cons in Hnd as [Hn _]. rewrite Forall_forall in Hall |- *.
    intros [k' x'] Hin. specialize (Hall _ Hin). unfold key_le, key_lt in *. cbn in *.
    assert (k ≠ k'); [|lia]. intros <-. apply Hn. apply list_elem_of_fmap. by exists (k, x').
Qed.

(** A strictly ascending list with the same pairs is the iteration. *)
Lemma in_order_unique m l :
  StronglySorted key_lt l → (∀ k x, (k, x) ∈ l ↔ m !! k = Some x) → in_order m = l.
Proof.
  intros Hl Hm. apply (StronglySorted_unique_strong key_lt).
  - intros x y _ _ H1 H2. unfold key_lt in *. lia.
  - apply in_order_sorted.
  - done.
  - assert (∀ l', StronglySorted key_lt l' → NoDup l') as Hnd.
    { induction 1 as [|p l' _ IH Hp]; constructor; [|done].
      intros Hin. rewrite Forall_forall in Hp. specialize (Hp _ Hin). unfold key_lt in Hp. lia. }
    apply NoDup_Permutation; [apply Hnd, in_order_sorted|by apply Hnd|].
    intros [k x]. by rewrite elem_of_in_order, Hm.
Qed.

Lemma StronglySorted_filter {B} (R : relation B) (P : B → Prop) `{∀ x, Decision (P x)} l :
  StronglySorted R l → StronglySorted R (filter P l).
Proof.
  induction 1 as [|x l Hl IH Hx]; [constructor|]. destruct (decide (P x)).
  - rewrite filter_cons_True by done. constructor; [done|].
    rewrite Forall_forall in Hx |- *. intros y [_ Hy]%list_elem_of_filter. auto.
  - by rewrite filter_cons_False.
Qed.

Lemma in_order_empty : in_order (∅ : gmap N A) = [].
Proof.
  apply in_order_unique; [constructor|]. intros k x. rewrite lookup_empty.
  split; [by intros ?%not_elem_of_nil|done].
Qed.

Lemma in_order_filter (P : N → Prop) `{∀ k, Decision (P k)} m :
  in_order (filter (λ p, P p.1) m) = filter (λ p, P p.1) (in_order m).
Proof.
  apply in_order_unique; [apply StronglySorted_filter, in_order_sorted|].
  intros k x. rewrite list_elem_of_filter, elem_of_in_order, map_lookup_filter_Some. cbn. tauto.
Qed.

Lemma in_order_insert_last m i x :
  (∀ k y, m !! k = Some y → k < i) → in_order (<[i := x]> m) = in_order m ++ [(i, x)].
Proof.
  intros Hlt. apply in_order_unique.
  - apply StronglySorted_app_2; [|apply in_order_sorted|repeat constructor].
    intros [k y] p Hk%elem_of_in_order ->%list_elem_of_singleton. by eapply Hlt.
  - intros k y. rewrite elem_of_app, elem_of_in_order, list_elem_of_singleton.
    rewrite lookup_insert_Some. split.
    + intros [Hk|[= -> ->]]; [|by left]. right. split; [|done]. apply Hlt in Hk. lia.
    + intros [[-> ->]|[_ Hk]]; auto.
Qed.

Lemma range_first_Some m i p :
  range_first m i = Some p →
  m !! p.1 = Some p.2 ∧ i ≤ p.1 ∧ ∀ k, is_Some (m !! k) → i ≤ k → p.1 ≤ k.
Proof.
  unfold range_first. intros Hh.
  pose proof (StronglySorted_filter key_lt (λ p, i ≤ p.1) _ (in_order_sorted m)) as Hs.
  destruct (filter _ _) as [|q l] eqn:E; [done|]. cbn in Hh. injection Hh as ->.
  assert (p ∈ filter (λ p, i ≤ p.1) (in_order m)) as Hp by (rewrite E; by left).
  apply list_elem_of_filter in Hp as [Hi Hp]. destruct p as [k x]. cbn.
  split_and!; [by apply elem_of_in_order|done|].
  intros k' [x' Hx'] Hik. apply elem_of_in_order in Hx'.
  assert ((k', x') ∈ (k, x) :: l) as Hin by (rewrite <-E; by apply list_elem_of_filter).
  apply elem_of_cons in Hin as [[= -> ->]|Hin]; [done|].
  apply StronglySorted_inv in Hs as [_ Hf]. rewrite Forall_forall in Hf.
  specialize (Hf _ Hin). unfold key_lt in Hf. cbn in Hf. lia.
Qed.

Lemma range_first_None m i : range_first m i = None → ∀ k, is_Some (m !! k) → k < i.
Proof.
  unfold range_first. intros Hh k [x Hx]. apply elem_of_in_order in Hx.
  destruct (decide (i ≤ k)); [|lia]. exfalso.
  assert ((k, x) ∈ filter (λ p, i ≤ p.1) (in_order m)) as Hin by by apply list_elem_of_filter.
  destruct (filter _ _); [by apply not_elem_of_nil in Hin|done].
Qed.

(** ** Values that carry their key *)

Context (key : A → N).
Definition keyed m : Prop := ∀ k x, m !! k = Some x → key x = k.

Lemma keyed_in_order m : keyed m → in_order m = (λ x, (key x, x)) <$> values m.
Proof.
  intros Hk. unfold values. rewrite <-list_fmap_compose. symmetry. rewrite <-(list_fmap_id (in_order m)) at 2.
  apply list_fmap_ext. intros i [k x] Hi. cbn. f_equal. apply Hk.
  apply elem_of_in_order. by eapply list_elem_of_lookup_2.
Qed.

Lemma keyed_values_filter (P : N → Prop) `{∀ k, Decision (P k)} m :
  keyed m → values (filter (λ p, P p.1) m) = filter (λ x, P (key x)) (values m).
Proof.
  intros Hk. unfold values at 1. rewrite in_order_filter, (keyed_in_order m Hk).
  induction (values m) as [|x l IH]; [done|]. cbn [fmap list_fmap]. rewrite !filter_cons. cbn [fst].
  destruct (decide (P (key x))); cbn; by rewrite IH.
Qed.

Lemma keyed_find m i : keyed m → find (λ x, key x =? i) (values m) = m !! i.
Proof.
  intros Hk. destruct (find _ _) as [x|] eqn:Hf.
  - apply find_some in Hf as [Hin Hi%N.eqb_eq]. apply list_elem_of_In in Hin.
    unfold values in Hin. apply list_elem_of_fmap in Hin as ([k y] & -> & Hy%elem_of_in_order).
    cbn in *. rewrite <-Hi, (Hk _ _ Hy). done.
  - symmetry. destruct (m !! i) as [x|] eqn:Hx; [|done].
    eapply find_none in Hf; [|apply list_elem_of_In, list_elem_of_fmap; exists (i, x);
      split; [done|by apply elem_of_in_order]].
    cbn in Hf. apply N.eqb_neq in Hf. by rewrite (Hk _ _ Hx) in Hf.
Qed.

Lemma elem_of_values m x : keyed m → x ∈ values m ↔ m !! key x = Some x.
Proof.
  intros Hk. unfold values. rewrite list_elem_of_fmap. split.
  - intros ([k y] & -> & Hy%elem_of_in_order). cbn. by rewrite (Hk _ _ Hy).
  - intros Hx. exists (key x, x). by rewrite elem_of_in_order.
Qed.

Lemma values_insert_last m x :
  keyed m → (∀ y, y ∈ values m → key y < key x) →
  values (<[key x := x]> m) = values m ++ [x] ∧ keyed (<[key x := x]> m).
Proof.
  intros Hk Hlt. split.
  - unfold values at 1. rewrite in_order_insert_last.
    + by rewrite fmap_app.
    + intros k y Hy. rewrite <-(Hk _ _ Hy). apply Hlt. apply elem_of_values; [done|].
      by rewrite (Hk _ _ Hy).
  - intros k y. rewrite lookup_insert_Some. intros [[<- <-]|[_ Hy]]; [done|by apply Hk].
Qed.

Lemma keyed_filter (P : N * A → Prop) `{∀ p, Decision (P p)} m : keyed m → keyed (filter P m).
Proof. intros Hk k x. rewrite map_lookup_filter_Some. intros [Hx _]. by apply Hk. Qed.
Lemma keyed_empty : keyed ∅.
Proof. intros k x. by rewrite lookup_empty. Qed.
End BTree.
