(* ===== verification/EpochFile.v ===== *)
(** * The leader-epoch checkpoint file ([xraft-storage/src/log.rs])

    [persist_epoch_checkpoint] writes the epoch starts as text, version, count
    and one [epoch start] line each, in epoch order; [load_epoch_checkpoint]
    parses it. *)

From S2P Require Import Prelude CoreTypes Text BTree.

(** ** [str::lines], [str::split_whitespace] *)

Definition newline : ascii := Ascii.ascii_of_N 10.
Definition carriage_return : ascii := Ascii.ascii_of_N 13.

(** Segments ended by a newline; a last one without it counts if non-empty. *)
Fixpoint split_lines (l acc : list ascii) : list (list ascii) :=
  match l with
  | [] => match acc with [] => [] | _ => [rev acc] end
  | x :: l =>
      if Ascii.eqb x newline then
        rev (match acc with
             | y :: acc' => if Ascii.eqb y carriage_return then acc' else acc
             | [] => [] end) :: split_lines l []
      else split_lines l (x :: acc)
  end.
Definition lines (s : string) : list string := of_chars <$> split_lines (chars s) [].

Fixpoint split_spaces (l acc : list ascii) : list (list ascii) :=
  match l with
  | [] => match acc with [] => [] | _ => [rev acc] end
  | x :: l =>
      if is_whitespace x then
        match acc with [] => split_spaces l [] | _ => rev acc :: split_spaces l [] end
      else split_spaces l (x :: acc)
  end.
Definition split_whitespace (s : string) : list string := of_chars <$> split_spaces (chars s) [].

(** ** Writing and reading *)

(** One [push_str] of a line. *)
Definition line (cs : list ascii) : list ascii := cs ++ [newline].
Definition digits (n : N) : list ascii := chars (pretty n).
Definition epoch_line (p : N * N) : list ascii :=
  line (digits p.1 ++ [" "%char] ++ digits p.2).

(** The buffer [persist_epoch_checkpoint] builds. *)
Definition epoch_checkpoint_text (m : gmap N N) : string :=
  of_chars (line (digits 0) ++ line (digits (N.of_nat (size m))) ++
            concat (epoch_line <$> in_order m)).

(** One iteration of the [for _ in 0..count] loop. *)
Definition parse_epoch_line (l : string) : Result (N * N) :=
  match split_whitespace l with
  | [] => Err (Storage "empty entry line")
  | [_] => Err (Storage "missing start_offset")
  | epoch_str :: start_str :: _ =>
      match parse_u64 epoch_str, parse_u64 start_str with
      | None, _ => Err (Storage "invalid epoch")
      | Some _, None => Err (Storage "invalid start_offset")
      | Some epoch, Some start => Ok (epoch, start)
      end
  end.
Fixpoint parse_epoch_lines (count : nat) (ls : list string) (out : gmap N N)
    : Result (gmap N N) :=
  match count with
  | O => Ok out
  | S count =>
      match ls with
      | [] => Err (Storage "file ended early")
      | l :: ls => let? p := parse_epoch_line l in parse_epoch_lines count ls (<[p.1 := p.2]> out)
      end
  end.

(** [load_epoch_checkpoint] on the file's contents; [None] is no file. *)
Definition load_epoch_checkpoint (content : option string) : Result (gmap N N) :=
  match content with
  | None => Ok ∅
  | Some content =>
      match lines content with
      | [] => Err (Storage "empty")
      | version_line :: ls =>
          match parse_uint 4294967295 (trim version_line) with
          | None => Err (Storage "invalid version line")
          | Some version =>
              if decide (version ≠ 0) then Err (Storage "unsupported version") else
              match ls with
              | [] => Err (Storage "missing entry-count line")
              | count_line :: ls =>
                  match parse_u64 (trim count_line) with
                  | None => Err (Storage "invalid count line")
                  | Some count => parse_epoch_lines (N.to_nat count) ls ∅
                  end
              end
          end
      end
  end.

(** ** Printing then parsing *)

Lemma is_digit_char x : x < 10 → is_digit (pretty_N_char x) = true ∧ digit_val (pretty_N_char x) = x.
Proof.
  intros Hx. assert (x = 0 ∨ x = 1 ∨ x = 2 ∨ x = 3 ∨ x = 4 ∨ x = 5 ∨ x = 6 ∨ x = 7 ∨ x = 8 ∨ x = 9)
    as Hc by lia. by destruct_or! Hc; subst.
Qed.

Lemma parse_digits_go max x s :
  x ≤ max → parse_digits max 0 (chars (pretty_N_go x s)) = parse_digits max x (chars s).
Proof.
  revert s. induction (N.lt_wf_0 x) as [x _ IH]; intros s Hx.
  destruct (decide (x = 0)) as [->|Hne]; [done|].
  rewrite pretty_N_go_step by lia.
  assert (x / 10 < x) by (apply N.div_lt; lia).
  rewrite IH by lia. cbn [chars String.list_ascii_of_string parse_digits].
  destruct (is_digit_char (x mod 10)) as [-> ->]; [by apply N.mod_lt|].
  assert (x / 10 * 10 + x mod 10 = x) as -> by (pose proof (N.div_mod' x 10); lia).
  by rewrite decide_True by done.
Qed.

(** The characters a number is printed with. *)
Lemma digits_go_digits x s :
  Forall (λ c, is_digit c = true) (chars s) → Forall (λ c, is_digit c = true) (chars (pretty_N_go x s)).
Proof.
  revert s. induction (N.lt_wf_0 x) as [x _ IH]; intros s Hs.
  destruct (decide (x = 0)) as [->|Hne]; [done|].
  rewrite pretty_N_go_step by lia. apply IH; [apply N.div_lt; lia|].
  constructor; [|done]. by destruct (is_digit_char (x mod 10)); [apply N.mod_lt|].
Qed.
Lemma digits_go_nonempty x s : chars s ≠ [] → chars (pretty_N_go x s) ≠ [].
Proof.
  revert s. induction (N.lt_wf_0 x) as [x _ IH]; intros s Hs.
  destruct (decide (x = 0)) as [->|Hne]; [done|].
  rewrite pretty_N_go_step by lia. apply IH; [apply N.div_lt; lia|]. done.
Qed.

Lemma digits_all n : Forall (λ c, is_digit c = true) (digits n).
Proof.
  unfold digits, pretty, pretty_N. case_decide; [by repeat constructor|]. by apply digits_go_digits.
Qed.
Lemma digits_nonempty n : digits n ≠ [].
Proof.
  unfold digits, pretty, pretty_N. destruct (decide (n = 0)) as [->|Hn]; [done|].
  rewrite pretty_N_go_step by lia. by apply digits_go_nonempty.
Qed.

Lemma parse_uint_digits max n : n ≤ max → parse_uint max (of_chars (digits n)) = Some n.
Proof.
  intros Hn. unfold parse_uint. rewrite chars_of_chars.
  pose proof (digits_all n) as Hall. pose proof (digits_nonempty n) as Hne.
  destruct (digits n) as [|c cs] eqn:Hd; [done|].
  assert (Ascii.eqb c "+" = false) as ->.
  { apply Forall_cons in Hall as [Hc _]. destruct (Ascii.eqb_spec c "+") as [->|]; done. }
  rewrite <-Hd. unfold digits, pretty, pretty_N. clear Hall Hne Hd.
  destruct (decide (n = 0)) as [->|H0].
  - cbn. destruct (decide _) as [|Hc]; [done|]. by destruct Hc.
  - by rewrite parse_digits_go.
Qed.

Lemma digit_not c : is_digit c = true → is_whitespace c = false ∧ c ≠ newline ∧ c ≠ carriage_return.
Proof.
  unfold is_digit, is_whitespace, newline, carriage_return. intros Hd.
  apply andb_true_iff in Hd as [H1%N.leb_le H2%N.leb_le]. split_and!.
  - apply orb_false_iff. split; [apply andb_false_iff; right; apply N.leb_gt; lia|apply N.eqb_neq; lia].
  - intros ->. cbn in *. lia.
  - intros ->. cbn in *. lia.
Qed.

(** Characters a line may hold. *)
Definition plain (c : ascii) : Prop := c ≠ newline ∧ c ≠ carriage_return.

Lemma split_lines_line cs acc rest :
  Forall plain cs → Forall plain acc →
  split_lines (cs ++ [newline] ++ rest) acc = (rev acc ++ cs) :: split_lines rest [].
Proof.
  intros Hcs. revert acc. induction Hcs as [|c cs [Hn Hr] Hcs IH]; intros acc Hacc.
  - cbn. rewrite app_nil_r. destruct acc as [|y acc]; [done|].
    apply Forall_cons in Hacc as [[_ Hy] _].
    assert (Ascii.eqb y carriage_return = false) as He by by apply Ascii.eqb_neq.
    cbn in He |- *. by rewrite He.
  - cbn [app split_lines]. destruct (Ascii.eqb_spec c newline) as [Hnl|]; [by destruct Hn|].
    rewrite IH by (by constructor). cbn [rev]. by rewrite <-app_assoc.
Qed.

Lemma lines_line cs rest :
  Forall plain cs → lines (of_chars (line cs ++ rest)) = of_chars cs :: lines (of_chars rest).
Proof.
  intros Hcs. unfold lines, line. rewrite !chars_of_chars, <-app_assoc.
  rewrite split_lines_line by done. done.
Qed.

Lemma plain_digits n : Forall plain (digits n).
Proof. eapply Forall_impl; [apply digits_all|]. intros c Hc. by destruct (digit_not c Hc) as (? & ? & ?). Qed.

Lemma split_spaces_word cs acc rest :
  Forall (λ c, is_whitespace c = false) cs →
  split_spaces (cs ++ rest) acc = split_spaces rest (rev cs ++ acc).
Proof.
  intros Hcs. revert acc. induction Hcs as [|c cs Hc Hcs IH]; intros acc; [done|].
  cbn [app split_spaces]. rewrite Hc, IH. cbn [rev]. by rewrite <-app_assoc.
Qed.

Lemma solid_digits n : Forall (λ c, is_whitespace c = false) (digits n).
Proof. eapply Forall_impl; [apply digits_all|]. intros c Hc. by destruct (digit_not c Hc) as (? & ? & ?). Qed.

Lemma rev_nonempty {A} (l : list A) : l ≠ [] → ∃ x k, rev l = x :: k.
Proof.
  intros Hl. destruct (rev l) as [|x k] eqn:E; [|eauto].
  apply (f_equal (@rev A)) in E. rewrite rev_involutive in E. done.
Qed.

Lemma split_epoch_line e s :
  split_whitespace (of_chars (digits e ++ [" "%char] ++ digits s)) =
  [of_chars (digits e); of_chars (digits s)].
Proof.
  unfold split_whitespace. rewrite chars_of_chars.
  rewrite split_spaces_word by apply solid_digits. rewrite app_nil_r. cbn [app split_spaces].
  destruct (rev_nonempty (digits e) (digits_nonempty e)) as (x & k & Hr). rewrite Hr, <-Hr.
  assert (is_whitespace " " = true) as -> by done.
  rewrite rev_involutive. rewrite <-(app_nil_r (digits s)) at 1.
  rewrite split_spaces_word by apply solid_digits. cbn [split_spaces]. rewrite app_nil_r.
  destruct (rev_nonempty (digits s) (digits_nonempty s)) as (y & j & Hs). rewrite Hs, <-Hs.
  by rewrite rev_involutive.
Qed.

Lemma parse_epoch_line_print e s :
  u64 e → u64 s → parse_epoch_line (of_chars (digits e ++ [" "%char] ++ digits s)) = Ok (e, s).
Proof.
  intros He Hs. unfold parse_epoch_line. rewrite split_epoch_line.
  unfold parse_u64. by rewrite !parse_uint_digits by done.
Qed.

Lemma drop_spaces_solid l : Forall (λ c, is_whitespace c = false) l → drop_spaces l = l.
Proof. intros [|c l' Hc _]; [done|]. cbn. by rewrite Hc. Qed.
Lemma trim_digits n : trim (of_chars (digits n)) = of_chars (digits n).
Proof.
  unfold trim. rewrite chars_of_chars. pose proof (solid_digits n) as Hs.
  rewrite (drop_spaces_solid (digits n)) by done.
  rewrite drop_spaces_solid; [by rewrite rev_involutive|]. rewrite Forall_forall in Hs |- *.
  intros c Hc. apply Hs. rewrite list_elem_of_In in Hc |- *. by apply in_rev.
Qed.

Lemma parse_printed_lines (l : list (N * N)) out :
  Forall (λ p, u64 p.1 ∧ u64 p.2) l →
  parse_epoch_lines (length l) (lines (of_chars (concat (epoch_line <$> l)))) out =
  Ok (foldl (λ m p, <[p.1 := p.2]> m) out l).
Proof.
  intros Hl. revert out. induction Hl as [|[e s] l [He Hs] Hl IH]; intros out; [done|].
  cbn [length fmap list_fmap concat app]. unfold epoch_line at 1. cbn [fst snd] in *.
  rewrite lines_line.
  - cbn [parse_epoch_lines]. rewrite parse_epoch_line_print by done. cbn. apply IH.
  - rewrite !Forall_app. split_and!; [apply plain_digits| |apply plain_digits].
    by repeat constructor.
Qed.

Lemma foldl_insert_lookup (l : list (N * N)) (m : gmap N N) k :
  NoDup l.*1 →
  foldl (λ m p, <[p.1 := p.2]> m) m l !! k =
  match (list_to_map l : gmap N N) !! k with Some v => Some v | None => m !! k end.
Proof.
  revert m. induction l as [|[a b] l IH]; intros m Hnd.
  { by rewrite list_to_map_nil, lookup_empty. }
  cbn in Hnd. apply NoDup_cons in Hnd as [Ha Hnd]. cbn [foldl fst snd]. rewrite IH by done.
  rewrite list_to_map_cons. destruct (decide (a = k)) as [->|Hne].
  - rewrite !lookup_insert_eq.
    by rewrite (not_elem_of_list_to_map_1 _ _ Ha).
  - by rewrite !lookup_insert_ne by done.
Qed.

Lemma epoch_checkpoint_text_loads (m : gmap N N) :
  map_Forall (λ e s, u64 e ∧ u64 s) m → u64 (N.of_nat (size m)) →
  load_epoch_checkpoint (Some (epoch_checkpoint_text m)) = Ok m.
Proof.
  intros Hm Hsize. unfold load_epoch_checkpoint, epoch_checkpoint_text.
  rewrite lines_line by apply plain_digits. rewrite trim_digits, parse_uint_digits by done.
  rewrite decide_False by (by intros []).
  rewrite lines_line by apply plain_digits. unfold parse_u64.
  rewrite trim_digits, parse_uint_digits by done. rewrite Nat2N.id.
  assert (in_order m ≡ₚ map_to_list m) as Hp by apply in_order_perm.
  assert (size m = length (in_order m)) as ->.
  { rewrite (Permutation_length Hp). by rewrite length_map_to_list. }
  rewrite parse_printed_lines.
  - f_equal. apply map_eq. intros k. rewrite foldl_insert_lookup.
    + rewrite lookup_empty. rewrite (list_to_map_proper _ (map_to_list m)).
      * rewrite list_to_map_to_list. by destruct (m !! k).
      * rewrite Hp. apply NoDup_fst_map_to_list.
      * done.
    + rewrite Hp. apply NoDup_fst_map_to_list.
  - rewrite Forall_forall. intros [e s] Hin. rewrite Hp in Hin.
    apply elem_of_map_to_list in Hin. by apply (Hm e s).
Qed.

(** the checkpoint file is read back exactly: for every map of [u64]
    epochs to [u64] starts, whatever its size, the text
    [persist_epoch_checkpoint] writes is accepted by [load_epoch_checkpoint]
    and parses to the same map, so a checkpoint this code wrote never makes a
    store fail to open. *)
Theorem epoch_checkpoint_roundtrip (m : gmap N N) :
  map_Forall (λ e s, u64 e ∧ u64 s) m → u64 (N.of_nat (size m)) →
  load_epoch_checkpoint (Some (epoch_checkpoint_text m)) = Ok m.
Proof. apply epoch_checkpoint_text_loads. Qed.

Definition epochs_sample : gmap N N := {[ 1 := 1; 4 := 17; 12 := 340 ]}.

Example epochs_sample_text :
  lines (epoch_checkpoint_text epochs_sample) = ["0"; "3"; "1 1"; "4 17"; "12 340"]%string.
Proof. vm_compute. reflexivity. Qed.

Lemma epoch_checkpoint_roundtrip_witness :
  load_epoch_checkpoint (Some (epoch_checkpoint_text epochs_sample)) = Ok epochs_sample.
Proof.
  apply (epoch_checkpoint_roundtrip epochs_sample).
  - apply (bool_decide_unpack _). vm_compute. exact I.
  - vm_compute. discriminate.
Defined.
