(* ===== verification/DirIo.v ===== *)
(** * Programs over a store with a directory

    A store of [xraft-storage] is a value and a directory it changes by
    file-system calls, any of which can fail.  Its methods run in a monad that
    carries the store, which keeps the changes made before an error, and at
    most one fault.  [wp] is the program logic of that monad, with one
    condition for success and one for the directory a fault leaves. *)

From S2P Require Import Prelude CoreTypes.

(** The calls [Op] that change a directory [D]. *)
Class DirOps (D Op : Type) : Type := {
  (** [None] is an error of the call itself. *)
  op_apply : Op → D → option D;
  (** What a call broken off by a fault leaves. *)
  op_cut : nat → Op → D → D;
}.
(** The directory of a store. *)
Class HasDir (St D : Type) : Type := {
  dir_of : St → D;
  with_dir : D → St → St;
  dir_of_with d s : dir_of (with_dir d s) = d;
  with_dir_of s : with_dir (dir_of s) s = s;
  with_dir_with d d' s : with_dir d (with_dir d' s) = with_dir d s;
}.
#[export] Hint Mode HasDir ! - : typeclass_instances.
#[export] Hint Mode DirOps - ! : typeclass_instances.

Section Monad.
Context {St : Type}.

(** The store and the fault still ahead: [Some (k, cut)] lets [k] calls
    through and breaks the next one. *)
Definition world : Type := St * option (nat * nat).
Definition io (A : Type) : Type := world → world * Result A.

Definition io_ret {A} (a : A) : io A := λ w, (w, Ok a).
Definition io_err {A} (msg : string) : io A := λ w, (w, Err (Storage msg)).
Definition io_bind {A B} (m : io A) (k : A → io B) : io B := λ w,
  match m w with
  | (w, Ok a) => k a w
  | (w, Err e) => (w, Err e)
  end.
Definition gets {A} (f : St → A) : io A := λ w, (w, Ok (f w.1)).
Definition modify (f : St → St) : io unit := λ w, ((f w.1, w.2), Ok tt).
Definition lift {A} (r : Result A) : io A := λ w, (w, r).
(** [if let Err(e) = m { log }]. *)
Definition ignore_error {A} (m : io A) : io unit := λ w, ((m w).1, Ok tt).
(** [if let Err(e) = m { undo; return Err(e) }]. *)
Definition on_error {A} (m : io A) (undo : St → St) : io A := λ w,
  match m w with
  | (w, Ok a) => (w, Ok a)
  | (w, Err e) => ((undo w.1, w.2), Err e)
  end.
(** The same with calls in the cleanup, their errors ignored. *)
Definition or_else {A} (m : io A) (cleanup : io unit) : io A := λ w,
  match m w with
  | (w, Ok a) => (w, Ok a)
  | (w, Err e) => ((cleanup w).1, Err e)
  end.

Fixpoint for_each {A} (f : A → io unit) (l : list A) : io unit :=
  match l with
  | [] => io_ret tt
  | a :: l => io_bind (f a) (λ _, for_each f l)
  end.

(** A run without a fault. *)
Definition run {A} (m : io A) (s : St) : St * Result A :=
  let '((s, _), r) := m (s, None) in (s, r).

Definition call {D Op : Type} {HD : HasDir St D} {DO : DirOps D Op} (op : Op) : io unit := λ '(s, fault),
  match fault with
  | Some (O, cut) => ((with_dir (op_cut cut op (dir_of s)) s, None), Err (Storage "io"))
  | Some (S k, cut) =>
      match op_apply op (dir_of s) with
      | Some d => ((with_dir d s, Some (k, cut)), Ok tt)
      | None => ((s, Some (k, cut)), Err (Storage "io"))
      end
  | None =>
      match op_apply op (dir_of s) with
      | Some d => ((with_dir d s, None), Ok tt)
      | None => ((s, None), Err (Storage "io"))
      end
  end.
End Monad.
Arguments world : clear implicits.
Arguments io : clear implicits.

Declare Scope io_scope.
Notation "'let!' x := m 'in' k" := (io_bind m (λ x, k))
  (at level 10, x name, m at level 100, k at level 200,
   format "'let!'  x  :=  m  'in' '//' k") : io_scope.
Notation "'seq!' m 'in' k" := (io_bind m (λ _, k))
  (at level 10, m at level 100, k at level 200, format "'seq!'  m  'in' '//' k") : io_scope.

(** ** The program logic

    [wp m s Q C]: run from [s], [m] without a fault succeeds in a state [Q]
    describes; with a fault it either still does, or fails and leaves a
    directory that satisfies the crash condition [C].  [wpb false] is the same
    for runs without a fault only. *)

Section Wp.
Context {St D Op : Type} {HD : HasDir St D} {DO : DirOps D Op}.
Implicit Types (s : St) (op : Op) (b : bool).

Definition wpb b {A} (m : io St A) s (Q : A → St → Prop) (C : D → Prop) : Prop :=
  ∀ fault, (b = false → fault = None) →
    match m (s, fault) with
    | ((s', fault'), Ok a) => Q a s' ∧ (fault = None → fault' = None)
    | ((s', _), Err _) => fault ≠ None ∧ C (dir_of s')
    end.

Lemma wp_ret {b A} (a : A) s Q C : Q a s → wpb b (io_ret a) s Q C.
Proof. intros HQ f _. done. Qed.

Lemma wp_bind {b A B} (m : io St A) (k : A → io St B) s Q C :
  wpb b m s (λ a s', wpb b (k a) s' Q C) C → wpb b (io_bind m k) s Q C.
Proof.
  intros Hm f Hf. specialize (Hm f Hf). unfold io_bind.
  destruct (m (s, f)) as [[s' f'] [a|e]]; [|done]. destruct Hm as [Hk Hn].
  specialize (Hk f' ltac:(auto)). destruct (k a (s', f')) as [[s'' f''] [c|e]]; naive_solver.
Qed.

Lemma wp_conseq {b A} (m : io St A) s Q Q' (C C' : D → Prop) :
  wpb b m s Q C → (∀ a s', Q a s' → Q' a s') → (∀ d, C d → C' d) → wpb b m s Q' C'.
Proof.
  intros Hm HQ HC f Hf. specialize (Hm f Hf).
  destruct (m (s, f)) as [[s' f'] [a|e]]; naive_solver.
Qed.

Lemma wp_gets {b A} (g : St → A) s Q C : Q (g s) s → wpb b (gets g) s Q C.
Proof. intros HQ f _. done. Qed.
Lemma wp_modify {b} g s (Q : unit → St → Prop) C : Q tt (g s) → wpb b (modify g) s Q C.
Proof. intros HQ f _. done. Qed.
Lemma wp_lift {b A} (a : A) s Q C : Q a s → wpb b (lift (Ok a)) s Q C.
Proof. intros HQ f _. done. Qed.

Lemma wp_op {b} op s d (Q : unit → St → Prop) (C : D → Prop) :
  op_apply op (dir_of s) = Some d → Q tt (with_dir d s) →
  (∀ cut, C (op_cut cut op (dir_of s))) → wpb b (call op) s Q C.
Proof.
  intros Ha HQ HC f _. unfold call. destruct f as [[[|k] cut]|]; rewrite ?Ha; [|done..].
  split; [done|]. rewrite dir_of_with. apply HC.
Qed.

Lemma wp_on_error {b A} (m : io St A) undo s Q C :
  wpb b m s Q C → (∀ s', dir_of (undo s') = dir_of s') → wpb b (on_error m undo) s Q C.
Proof.
  intros Hm Hu f Hf. specialize (Hm f Hf). unfold on_error.
  destruct (m (s, f)) as [[s' f'] [a|e]]; [done|]. cbn. by rewrite Hu.
Qed.

Lemma wp_or_else {b A} (m : io St A) cleanup s Q C C' :
  wpb b m s Q C' → (∀ s', C' (dir_of s') → wpb true cleanup s' (λ _ s'', C (dir_of s'')) C) →
  wpb b (or_else m cleanup) s Q C.
Proof.
  intros Hm Hc f Hf. specialize (Hm f Hf). unfold or_else.
  destruct (m (s, f)) as [[s' f'] [a|e]]; [done|]. destruct Hm as [Hn Hm].
  specialize (Hc s' Hm f' ltac:(done)). destruct (cleanup (s', f')) as [[s'' f''] [c|e']]; cbn; by destruct Hc.
Qed.

(** The error of an ignored call leaves what the call could leave. *)
Lemma wp_ignore_call {b} op s d (Q : unit → St → Prop) (C : D → Prop) :
  op_apply op (dir_of s) = Some d → Q tt (with_dir d s) →
  (b = true → ∀ cut, Q tt (with_dir (op_cut cut op (dir_of s)) s)) → wpb b (ignore_error (call op)) s Q C.
Proof.
  intros Ha HQ HC f Hf. unfold ignore_error, call.
  destruct f as [[[|k] cut]|]; rewrite ?Ha; cbn; try done.
  destruct b; [by auto|]. by specialize (Hf eq_refl).
Qed.

(** Programs that change nothing of the store but its directory. *)
Definition only_dir {A} (m : io St A) : Prop := ∀ s f, ∃ d, (m (s, f)).1.1 = with_dir d s.

Lemma only_dir_call op : only_dir (call op).
Proof.
  intros s f. unfold call. destruct f as [[[|k] cut]|]; cbn; [by eexists|..];
    (destruct (op_apply op (dir_of s)); cbn; [by eexists|exists (dir_of s); by rewrite with_dir_of]).
Qed.
Lemma only_dir_bind {A B} (m : io St A) (k : A → io St B) :
  only_dir m → (∀ a, only_dir (k a)) → only_dir (io_bind m k).
Proof.
  intros Hm Hk s f. destruct (Hm s f) as [d Hd]. unfold io_bind.
  destruct (m (s, f)) as [[s1 f1] [a|e]]; cbn in Hd; subst s1.
  - destruct (Hk a (with_dir d s) f1) as [d' Hd']. exists d'. by rewrite Hd', with_dir_with.
  - by exists d.
Qed.
Lemma only_dir_gets {A} (g : St → A) : only_dir (gets g).
Proof. intros s f. exists (dir_of s). by rewrite with_dir_of. Qed.

Lemma wp_ignore_error {b A} (m : io St A) s (Q : unit → St → Prop) (C C' : D → Prop) :
  only_dir m → wpb b m s (λ _ s', C (dir_of s')) C → (∀ d, C d → Q tt (with_dir d s)) →
  wpb b (ignore_error m) s Q C'.
Proof.
  intros Ho Hm HQ f Hf. specialize (Hm f Hf). destruct (Ho s f) as [d Hd]. unfold ignore_error.
  destruct (m (s, f)) as [[s1 f1] [a|e]]; cbn in *; subst s1; rewrite dir_of_with in Hm.
  - destruct Hm as [HC Hn]. split; [by apply HQ|done].
  - destruct Hm as [Hn HC]. split; [by apply HQ|]. intros ->. done.
Qed.

Lemma wp_for_each {b A} (f : A → io St unit) (l : list A) (I : list A → St → Prop) s Q C :
  I [] s →
  (∀ l1 a l2 s', l = l1 ++ a :: l2 → I l1 s' → wpb b (f a) s' (λ _ s'', I (l1 ++ [a]) s'') C) →
  (∀ s', I l s' → Q tt s') → wpb b (for_each f l) s Q C.
Proof.
  intros H0 Hs HQ.
  assert (∀ l2 l1 s', l = l1 ++ l2 → I l1 s' → wpb b (for_each f l2) s' (λ _ s'', I l s'') C) as Hgen.
  { induction l2 as [|a l2 IH]; intros l1 s' Heq Hl1; cbn [for_each].
    - apply wp_ret. rewrite app_nil_r in Heq. by subst l1.
    - apply wp_bind. eapply wp_conseq; [by eapply Hs| |done]. intros ? s'' Hl'.
      apply (IH (l1 ++ [a])); [|done]. by rewrite <-app_assoc. }
  eapply wp_conseq; [by apply (Hgen l [])| |done]. intros [] s'. apply HQ.
Qed.

Lemma wp_run {b A} (m : io St A) s Q C :
  wpb b m s Q C → ∃ s' a, run m s = (s', Ok a) ∧ Q a s'.
Proof.
  intros Hm. specialize (Hm None ltac:(done)). unfold run.
  destruct (m (s, None)) as [[s' f'] [a|e]]; [|by destruct Hm].
  destruct Hm. eauto.
Qed.

Lemma wp_outcome {A} (m : io St A) s fault s' fault' r Q C :
  wpb true m s Q C → m (s, fault) = ((s', fault'), r) →
  (∃ a, r = Ok a ∧ Q a s' ∧ (fault = None → fault' = None)) ∨ ((∃ e, r = Err e) ∧ fault ≠ None ∧ C (dir_of s')).
Proof.
  intros Hm Heq. specialize (Hm fault ltac:(done)). rewrite Heq in Hm.
  destruct r; [left|right]; naive_solver.
Qed.

(** ** Errors *)

Definition storage_errors {A} (m : io St A) : Prop :=
  ∀ w w' e, m w = (w', Err e) → ∃ msg, e = Storage msg.

Lemma storage_call op : storage_errors (call op).
Proof.
  intros [s f] w' e. unfold call. destruct f as [[[|k] cut]|]; [by intros [= _ <-]; eauto|..];
    destruct (op_apply op (dir_of s)); intros [= _ <-]; eauto.
Qed.
Lemma storage_bind {A B} (m : io St A) (k : A → io St B) :
  storage_errors m → (∀ a, storage_errors (k a)) → storage_errors (io_bind m k).
Proof.
  intros Hm Hk w w' e. unfold io_bind. destruct (m w) as [w1 [a|e1]] eqn:Heq.
  - apply Hk.
  - intros [= _ <-]. by eapply Hm.
Qed.
Lemma storage_ok {A} (m : io St A) : (∀ w, ∃ w' a, m w = (w', Ok a)) → storage_errors m.
Proof. intros Hm w w' e He. destruct (Hm w) as (? & ? & Heq). congruence. Qed.
End Wp.
Abbreviation wp := (wpb true).

Lemma outcome_eta {St A} (o : world St * Result A) : o = ((o.1.1, o.1.2), o.2).
Proof. by destruct o as [[??]?]. Qed.
