(* ===== verification/FileLog.v ===== *)
(** * The durable log store ([FileLogStore] of [xraft-storage/src/log.rs])

    The store over its directory: segment files with rotation, the purge,
    truncation and snapshot-anchor markers, the epoch checkpoint, recovery,
    suffix truncation and prefix purge.  A segment file
    [{base_index:020}.wal] is keyed by its base index, in whose order the
    zero-padded names sort; files with other names in the directory, which
    make [open] fail, are left out.  Every call on the directory can fail: the methods run in the
    monad of [DirIo.v]. *)

From S2P Require Import Prelude CoreTypes Message Text BTree Bytes LogStore EpochFile WalCodec DirIo.

(** ** The directory *)

Record waldir : Type := mkWaldir {
  wd_segs : gmap N bytes;
  wd_files : gmap string bytes;
}.
#[export] Instance waldir_settable : Settable waldir := λ d, mkWaldir (wd_segs d) (wd_files d).

Inductive walop : Type :=
| FileCreate (name : string)
| FileWrite (name : string) (data : bytes)
| FileRename (src dst : string)
| FileRemove (name : string)
| SegCreate (base : N)
| SegOpen (base : N)
| SegWrite (base : N) (data : bytes)
| SegSetLen (base : N) (len : nat)
| SegRemove (base : N)
| SyncAll.

(** [None] is an error of the call itself: opening or renaming a file that is
    not there.  Removing such a file is a [NotFound] every caller forgives. *)
Definition wal_apply (op : walop) (d : waldir) : option waldir :=
  match op with
  | FileCreate f => Some (d <| wd_files := <[f := []]> (wd_files d) |>)
  | FileWrite f data => Some (d <| wd_files := alter (λ b, b ++ data) f (wd_files d) |>)
  | FileRename f g =>
      b ← wd_files d !! f; Some (d <| wd_files := <[g := b]> (delete f (wd_files d)) |>)
  | FileRemove f => Some (d <| wd_files := delete f (wd_files d) |>)
  | SegCreate b =>
      Some (d <| wd_segs := <[b := default [] (wd_segs d !! b)]> (wd_segs d) |>)
  | SegOpen b => _ ← wd_segs d !! b; Some d
  | SegWrite b data => Some (d <| wd_segs := alter (λ c, c ++ data) b (wd_segs d) |>)
  | SegSetLen b len =>
      _ ← wd_segs d !! b; Some (d <| wd_segs := alter (resize len Byte.x00) b (wd_segs d) |>)
  | SegRemove b => Some (d <| wd_segs := delete b (wd_segs d) |>)
  | SyncAll => Some d
  end.

(** What a failing call leaves: a write may have written a prefix; the other
    calls took effect or not ([cut = 0]). *)
Definition wal_apply_cut (cut : nat) (op : walop) (d : waldir) : waldir :=
  match op with
  | FileWrite f data => default d (wal_apply (FileWrite f (take cut data)) d)
  | SegWrite b data => default d (wal_apply (SegWrite b (take cut data)) d)
  | _ => match cut with O => d | S _ => default d (wal_apply op d) end
  end.

(** ** The store *)

Section Store.
Context {MA : MembershipApi}.

Record FileLogStore : Type := mkFileLogStore {
  dir : waldir;
  (** The base indices of [Vec<SegmentInfo>]. *)
  segments : list N;
  (** The segment the open handle appends to. *)
  active_writer : option N;
  active_segment_size : N;
  entries : gmap N Entry;
  offsets : gmap N (nat * N);
  max_segment_size : N;
  first_valid_index : N;
  epoch_starts : gmap N N;
  snapshot_anchor : option (N * N);
}.
#[export] Instance FileLogStore_settable : Settable FileLogStore :=
  λ s, mkFileLogStore (dir s) (segments s) (active_writer s) (active_segment_size s) (entries s)
         (offsets s) (max_segment_size s) (first_valid_index s) (epoch_starts s) (snapshot_anchor s).

#[export] Instance wal_dir : HasDir FileLogStore waldir := {|
  dir_of := dir;
  with_dir d s := s <| dir := d |>;
  dir_of_with _ _ := eq_refl;
  with_dir_of s := match s with mkFileLogStore _ _ _ _ _ _ _ _ _ _ => eq_refl end;
  with_dir_with _ _ _ := eq_refl;
|}.
End Store.
#[export] Instance wal_ops : DirOps waldir walop := {| op_apply := wal_apply; op_cut := wal_apply_cut |}.

Section FileLog.
Context {MA : MembershipApi} {BV : Bincode VoterSet} {CR : Crc32}.
#[local] Open Scope io_scope.

Abbreviation io := (io FileLogStore).

(** ** Marker files *)

Definition PURGE_MARKER_FILE : string := "purge.idx".
Definition EPOCH_CHECKPOINT_FILE : string := "leader-epoch-checkpoint".
Definition SNAPSHOT_ANCHOR_FILE : string := "snapshot-anchor.idx".
Definition TRUNCATE_MARKER_FILE : string := "truncate-suffix.marker".

(** Write a [.tmp] sibling, sync it, rename it. *)
Definition tmp_of (name : string) : string := name +:+ ".tmp".
Definition persist_file (name : string) (data : bytes) : io unit :=
  seq! call (FileCreate (tmp_of name)) in
  seq! call (FileWrite (tmp_of name) data) in
  seq! call SyncAll in
  call (FileRename (tmp_of name) name).

Definition persist_purge_marker : io unit :=
  let! floor := gets first_valid_index in
  persist_file PURGE_MARKER_FILE (u64_bytes floor).
Definition persist_snapshot_anchor : io unit :=
  let! a := gets snapshot_anchor in
  match a with
  | None => io_ret tt
  | Some (t, i) => persist_file SNAPSHOT_ANCHOR_FILE (u64_bytes t ++ u64_bytes i)
  end.
Definition persist_truncate_marker (target_last_index : N) : io unit :=
  persist_file TRUNCATE_MARKER_FILE (u64_bytes target_last_index).
Definition clear_truncate_marker : io unit := call (FileRemove TRUNCATE_MARKER_FILE).
Definition string_bytes : string → bytes := String.list_byte_of_string.
Definition bytes_string : bytes → string := String.string_of_list_byte.
Definition persist_epoch_checkpoint : io unit :=
  let! m := gets epoch_starts in
  persist_file EPOCH_CHECKPOINT_FILE (string_bytes (epoch_checkpoint_text m)).

Definition load_purge_marker (d : waldir) : Result N :=
  match wd_files d !! PURGE_MARKER_FILE with
  | None => Ok 0
  | Some buf => if decide (length buf ≠ 8%nat) then Err (Storage "purge marker has wrong length")
                else Ok (le_num buf)
  end.
Definition load_snapshot_anchor (d : waldir) : Result (option (N * N)) :=
  match wd_files d !! SNAPSHOT_ANCHOR_FILE with
  | None => Ok None
  | Some buf => if decide (length buf ≠ 16%nat) then Err (Storage "snapshot anchor has wrong length")
                else Ok (Some (le_num (slice buf 0 8), le_num (slice buf 8 16)))
  end.
Definition load_truncate_marker (d : waldir) : Result (option N) :=
  match wd_files d !! TRUNCATE_MARKER_FILE with
  | None => Ok None
  | Some buf => if decide (length buf ≠ 8%nat) then Err (Storage "truncate marker has wrong length")
                else Ok (Some (le_num buf))
  end.

(** ** Segment management *)

Definition rebuild_starts (s : FileLogStore) : FileLogStore :=
  s <| epoch_starts := rebuild_epoch_starts (values (entries s)) |>.

Definition should_rotate (additional : nat) (s : FileLogStore) : bool :=
  bool_decide (is_Some (active_writer s)) &&
  bool_decide (max_segment_size s < active_segment_size s + N.of_nat additional).

Definition create_segment (base_index : N) : io unit :=
  seq! call (SegCreate base_index) in
  modify (λ s, s <| segments := segments s ++ [base_index] |>
                 <| active_writer := Some base_index |>
                 <| active_segment_size := 0 |>).

Definition rotate_segment (next_base : N) : io unit :=
  let! w := gets active_writer in
  seq! match w with Some _ => call SyncAll | None => io_ret tt end in
  seq! modify (λ s, s <| active_writer := None |> <| active_segment_size := 0 |>) in
  create_segment next_base.

Definition reopen_active_writer : io unit :=
  let! segs := gets segments in
  match last segs with
  | Some b =>
      seq! call (SegOpen b) in
      modify (λ s, s <| active_segment_size := N.of_nat (length (default [] (wd_segs (dir s) !! b))) |>
                     <| active_writer := Some b |>)
  | None => modify (λ s, s <| active_writer := None |> <| active_segment_size := 0 |>)
  end.

(** ** The [LogStore] methods *)

(** The segment an entry goes to: rotate a full one, create a first one. *)
Definition ensure_segment (base : N) (additional : nat) : io unit :=
  let! rotate := gets (should_rotate additional) in
  seq! (if rotate then rotate_segment base else io_ret tt) in
  let! w := gets active_writer in
  match w with None => create_segment base | Some _ => io_ret tt end.

(** One iteration of [append]; the [None] branches are the panics of
    [encode_frame] and [unwrap], which the guards above them rule out. *)
Definition append_one (e : Entry) : io unit :=
  if is_marker e then io_err "EntryPayload::Snapshot must not be written to WAL segment files"
  else match encode_frame e with
  | None => io_err "panic"
  | Some frame =>
      seq! ensure_segment (e_index e) (length frame) in
      let! s := gets id in
      match active_writer s with
      | None => io_err "panic"
      | Some w =>
          let offset := active_segment_size s in
          let seg_idx := (length (segments s) - 1)%nat in
          seq! call (SegWrite w frame) in
          let new_epoch_seen := bool_decide (epoch_starts s !! e_term e = None) in
          seq! modify (λ s, s <| active_segment_size := active_segment_size s + N.of_nat (length frame) |>
                            <| entries := <[e_index e := e]> (entries s) |>
                            <| offsets := <[e_index e := (seg_idx, offset)]> (offsets s) |>
                            <| epoch_starts := note_epoch (epoch_starts s) e |>) in
          if new_epoch_seen then persist_epoch_checkpoint else io_ret tt
      end
  end.
Definition append (es : list Entry) : io unit := for_each append_one es.

Definition get (index : N) (s : FileLogStore) : option Entry :=
  if index =? 0 then None else entries s !! index.
Definition get_range (start stop : N) (s : FileLogStore) : option (list Entry) :=
  if decide (start ≤ stop) then
    Some (filter (λ p : N * Entry, start ≤ p.1 ∧ p.1 < stop) (in_order (entries s))).*2
  else None.
Definition last_index (s : FileLogStore) : N :=
  match last_pair (entries s) with Some p => p.1 | None => 0 end.
Definition last_term (s : FileLogStore) : N :=
  match last (values (entries s)) with Some e => e_term e | None => 0 end.
Definition term_at (index : N) (s : FileLogStore) : option N := e_term <$> entries s !! index.
Definition flush : io unit :=
  let! w := gets active_writer in
  match w with Some _ => call SyncAll | None => io_ret tt end.

(** The deletion of [truncate_from]'s emptied boundary segment. *)
Definition drop_empty_boundary (byte_offset : N) : io unit :=
  let! segs := gets segments in
  match last segs with
  | Some b =>
      if byte_offset =? 0 then
        seq! call (SegRemove b) in
        modify (λ s, s <| segments := take (length (segments s) - 1) (segments s) |>)
      else io_ret tt
  | None => io_ret tt
  end.
Definition truncate_from (index : N) : io unit :=
  let! offs := gets offsets in
  match range_first offs index with
  | None => clear_truncate_marker
  | Some (_, (seg_idx, byte_offset)) =>
      seq! persist_truncate_marker (index - 1) in
      seq! modify (λ s, s <| active_writer := None |>) in
      let! segs := gets segments in
      seq! for_each (λ b, call (SegRemove b)) (drop (S seg_idx) segs) in
      match segs !! seg_idx with
      | None => io_err "panic"
      | Some b =>
          seq! call (SegSetLen b (N.to_nat byte_offset)) in
          seq! call SyncAll in
          seq! modify (λ s, s <| segments := take (S seg_idx) (segments s) |>) in
          seq! drop_empty_boundary byte_offset in
          seq! modify (λ s, s <| offsets := filter (λ p, ¬ (index ≤ p.1 ∧ is_Some (entries s !! p.1))) (offsets s) |>
                            <| entries := filter (λ p, ¬ index ≤ p.1) (entries s) |>) in
          seq! modify rebuild_starts in
          seq! persist_epoch_checkpoint in
          seq! reopen_active_writer in
          clear_truncate_marker
      end
  end.

(** The segments [purge_prefix] may delete: how many from the front, looking
    at each one's successor and never at the last. *)
Fixpoint covered_prefix (segs : list N) (through : N) : nat :=
  match segs with
  | _ :: (next_base :: _) as rest =>
      if decide (next_base = 0 ∨ next_base - 1 ≤ through) then S (covered_prefix rest through) else O
  | _ => O
  end.
Definition purge_prefix (through : N) : io unit :=
  let! prior_floor := gets first_valid_index in
  if decide (through ≤ prior_floor) then io_ret tt
  else
    seq! modify (λ s, s <| first_valid_index := through |>) in
    seq! on_error persist_purge_marker (λ s, s <| first_valid_index := prior_floor |>) in
    seq! modify (λ s, s <| offsets := filter (λ p, ¬ (p.1 ≤ through ∧ is_Some (entries s !! p.1))) (offsets s) |>
                      <| entries := filter (λ p, ¬ p.1 ≤ through) (entries s) |>) in
    let! segs := gets segments in
    let drop_count := covered_prefix segs through in
    seq! (if decide (drop_count = O) then io_ret tt
        else
          seq! modify (λ s, s <| segments := drop drop_count (segments s) |>) in
          seq! for_each (λ b, call (SegRemove b)) (take drop_count segs) in
          let! offs := gets offsets in
          if decide (map_Forall (λ _ p, drop_count ≤ p.1)%nat offs) then
            modify (λ s, s <| offsets := (λ p, (p.1 - drop_count, p.2)%nat) <$> offs |>)
          else io_err "panic") in
    seq! modify rebuild_starts in
    persist_epoch_checkpoint.

Definition update_snapshot_anchor (t index : N) : io unit :=
  let! a := gets snapshot_anchor in
  let raised := match a with
                | Some (_, prior_idx) => negb (bool_decide (index ≤ prior_idx))
                | None => true
                end in
  if raised then
    seq! modify (λ s, s <| snapshot_anchor := Some (t, index) |>) in
    persist_snapshot_anchor
  else io_ret tt.

Definition end_offset_for_epoch (epoch : N) (s : FileLogStore) : option N :=
  end_offset_lookup (epoch_starts s) (last_index s) (snapshot_anchor s) epoch.

(** ** Opening *)

(** The segment loop of [recover]. *)
Definition recover_one (total : nat) (i : nat) (b : N) : io unit :=
  let! s := gets id in
  let seg_idx := length (segments s) in
  seq! modify (λ s, s <| segments := segments s ++ [b] |>) in
  let buf := default [] (wd_segs (dir s) !! b) in
  match recover_segment (first_valid_index s) seg_idx (bool_decide (i = total - 1)%nat) buf
          (mkRecovered (entries s) (offsets s)) with
  | None => io_err "out of fuel"
  | Some (Err e) => lift (Err e)
  | Some (Ok (r, len)) =>
      seq! modify (λ s, s <| entries := rec_entries r |> <| offsets := rec_offsets r |>) in
      if decide (len < length buf)%nat then call (SegSetLen b len) else io_ret tt
  end.
Fixpoint recover_all (total i : nat) (bases : list N) : io unit :=
  match bases with
  | [] => io_ret tt
  | b :: bases => seq! recover_one total i b in recover_all total (S i) bases
  end.
Definition recover : io unit :=
  let! d := gets dir in
  let wal_files := keys (wd_segs d) in
  seq! recover_all (length wal_files) 0 wal_files in
  let! segs := gets segments in
  match last segs with Some _ => reopen_active_writer | None => io_ret tt end.

Definition empty_store (d : waldir) (max : N) : FileLogStore :=
  mkFileLogStore d [] None 0 ∅ ∅ max 0 ∅ None.

(** [open_with_max_segment_size]: run on [empty_store]. *)
Definition open_store : io unit :=
  let! d := gets dir in
  let! floor := lift (load_purge_marker d) in
  seq! modify (λ s, s <| first_valid_index := floor |>) in
  let! a := lift (load_snapshot_anchor d) in
  seq! modify (λ s, s <| snapshot_anchor := a |>) in
  let! pending := lift (load_truncate_marker d) in
  seq! lift (load_epoch_checkpoint (bytes_string <$> wd_files d !! EPOCH_CHECKPOINT_FILE)) in
  seq! recover in
  seq! match pending with
     | Some target => truncate_from (sat_add target 1)
     | None => io_ret tt
     end in
  seq! modify rebuild_starts in
  ignore_error persist_epoch_checkpoint.
Definition open_with_max_segment_size (d : waldir) (max : N) (fault : option (nat * nat))
    : world FileLogStore * Result unit :=
  open_store (empty_store d max, fault).
Definition DEFAULT_MAX_SEGMENT_SIZE : N := 64 * 1024 * 1024.

(** ** The interface, on a disk that does not fail *)

#[export] Instance file_api : LogStoreApi FileLogStore := {
  ls_append es := run (append es);
  ls_get := get;
  ls_get_range := get_range;
  ls_last_index := last_index;
  ls_last_term := last_term;
  ls_truncate_from i := run (truncate_from i);
  ls_term_at := term_at;
  ls_flush := run flush;
  ls_purge_prefix i := run (purge_prefix i);
  ls_update_snapshot_anchor t i := run (update_snapshot_anchor t i);
  ls_end_offset_for_epoch := end_offset_for_epoch;
}.
End FileLog.
