(* ===== verification/FileLogWp.v ===== *)
(** * The program logic at the durable log store

    [DirIo.wp] for the calls on the log's directory and for replacing one
    marker file. *)

From S2P Require Import Prelude CoreTypes Message Text BTree Bytes LogStore EpochFile WalCodec DirIo FileLog.

Section Wp.
Context {MA : MembershipApi} {BV : Bincode VoterSet} {CR : Crc32}.
Implicit Types s : FileLogStore.

Lemma wp_call op s d (Q : unit → FileLogStore → Prop) (C : waldir → Prop) :
  wal_apply op (dir s) = Some d → Q tt (s <| dir := d |>) →
  (∀ cut, C (wal_apply_cut cut op (dir s))) → wp (call op) s Q C.
Proof. intros Ha HQ HC. exact (wp_op op s d Q C Ha HQ HC). Qed.

(** Most calls have only two outcomes. *)
Lemma wp_call_atomic op s d (Q : unit → FileLogStore → Prop) (C : waldir → Prop) :
  match op with FileWrite _ _ | SegWrite _ _ => False | _ => True end →
  wal_apply op (dir s) = Some d → Q tt (s <| dir := d |>) → C (dir s) → C d → wp (call op) s Q C.
Proof.
  intros Hop Ha HQ H0 H1. eapply wp_call; [done..|]. intros [|cut]; destruct op; try done;
    unfold wal_apply_cut; by rewrite Ha.
Qed.

(** ** Marker files *)

Definition markers : list string :=
  [PURGE_MARKER_FILE; EPOCH_CHECKPOINT_FILE; SNAPSHOT_ANCHOR_FILE; TRUNCATE_MARKER_FILE].

(** Same segments, same marker files: only temporaries differ. *)
Definition same_markers (d d' : waldir) : Prop :=
  wd_segs d' = wd_segs d ∧ ∀ f, f ∈ markers → wd_files d' !! f = wd_files d !! f.
(** [d] with marker [name] holding [data]. *)
Definition with_marker (name : string) (c : option bytes) (d d' : waldir) : Prop :=
  wd_segs d' = wd_segs d ∧ wd_files d' !! name = c ∧
  ∀ f, f ∈ markers → f ≠ name → wd_files d' !! f = wd_files d !! f.

Lemma tmp_not_marker name f : name ∈ markers → f ∈ markers → f ≠ tmp_of name.
Proof.
  unfold markers. intros Hn Hf.
  rewrite !elem_of_cons in Hn, Hf.
  destruct_or! Hn; try (by apply not_elem_of_nil in Hn); subst;
    destruct_or! Hf; try (by apply not_elem_of_nil in Hf); subst; done.
Qed.

Lemma wp_persist_file name data s (Q : unit → FileLogStore → Prop) (C : waldir → Prop) :
  name ∈ markers →
  (∀ d', same_markers (dir s) d' → C d') →
  (∀ d', with_marker name (Some data) (dir s) d' → C d' ∧ Q tt (s <| dir := d' |>)) →
  wp (persist_file name data) s Q C.
Proof.
  intros Hn Htmp Hfin. unfold persist_file.
  assert (∀ fs : gmap string bytes,
    (∀ f, f ≠ tmp_of name → fs !! f = wd_files (dir s) !! f) →
    C (mkWaldir (wd_segs (dir s)) fs)) as HC.
  { intros fs Hfs. apply Htmp. split; [done|]. intros f Hf. cbn. apply Hfs. by apply tmp_not_marker. }
  apply wp_bind. eapply wp_call_atomic; [done|reflexivity| | |].
  2:{ destruct (dir s). by apply HC. }
  2:{ apply HC. intros f Hf. by rewrite lookup_insert_ne. }
  apply wp_bind. eapply wp_call; [reflexivity| |].
  2:{ intros cut. apply HC. intros f Hf. cbn. rewrite lookup_alter_ne by done. by rewrite lookup_insert_ne. }
  apply wp_bind. eapply wp_call_atomic; [done|reflexivity| | |].
  2,3: apply HC; intros f Hf; cbn; rewrite lookup_alter_ne by done; by rewrite lookup_insert_ne.
  set (fs := alter _ _ _).
  assert (wd_files (mkWaldir (wd_segs (dir s)) fs) !! tmp_of name = Some data) as Hl.
  { cbn. unfold fs. rewrite lookup_alter_eq. cbn. by rewrite lookup_insert_eq. }
  set (d' := mkWaldir (wd_segs (dir s)) (<[name := data]> (delete (tmp_of name) fs))).
  assert (with_marker name (Some data) (dir s) d') as Hw.
  { split_and!; [done|by cbn; rewrite lookup_insert_eq|]. intros f Hf Hne. cbn.
    pose proof (tmp_not_marker name f Hn Hf) as Ht.
    rewrite lookup_insert_ne by done. rewrite lookup_delete_ne by done.
    unfold fs. rewrite lookup_alter_ne by done. cbn. by rewrite lookup_insert_ne. }
  destruct (Hfin d' Hw) as [HCd HQ].
  eapply (wp_call_atomic _ _ d'); [done| |done| |done].
  - cbn -[fs] in Hl |- *. rewrite Hl. reflexivity.
  - apply HC. intros f Hf. cbn. unfold fs. rewrite lookup_alter_ne by done. cbn.
    by rewrite lookup_insert_ne.
Qed.
End Wp.
