(* ===== verification/FileLogLayout.v ===== *)
(** * The layout of the write-ahead log

    What the segment files, the entry cache and the offset table say about one
    sequence of chunks: the entries of each segment in file order. *)

From S2P Require Import Prelude CoreTypes Message Text BTree Bytes LogStore EpochFile WalCodec DirIo FileLog.

(** A segment: its base index and the entries written to it. *)
Notation chunk := (N * list Entry)%type.

Lemma resize_app_all {A} (x : A) (l k : list A) : resize (length l) x (l ++ k) = l.
Proof. by rewrite resize_app_le, resize_all. Qed.

Section Layout.
Context {MA : MembershipApi} {BV : Bincode VoterSet} {CR : Crc32}.

Implicit Types cs : list chunk.

Definition all_entries cs : list Entry := concat cs.*2.

(** Indices strictly ascending from [lo]. *)
Fixpoint inc_from (lo : N) (es : list Entry) : Prop :=
  match es with
  | [] => True
  | e :: es => lo ≤ e_index e ∧ inc_from (e_index e + 1) es
  end.
(** The first index free for the segment after [(b, es)]. *)
Definition chunk_end (b : N) (es : list Entry) : N :=
  match last es with Some e => e_index e + 1 | None => b + 1 end.
Fixpoint chunks_from (lo : N) cs : Prop :=
  match cs with
  | [] => True
  | (b, es) :: cs => lo ≤ b ∧ inc_from b es ∧ chunks_from (chunk_end b es) cs
  end.

(** Entry [e] lies in the [p.1]-th segment at byte [p.2]. *)
Definition at_pos cs (p : nat * N) (e : Entry) : Prop :=
  ∃ b es1 es2, cs !! p.1 = Some (b, es1 ++ e :: es2) ∧ p.2 = N.of_nat (length (log_bytes es1)).

(** The segment files. *)
Definition segs_of cs : gmap N bytes := list_to_map ((λ c : chunk, (c.1, log_bytes c.2)) <$> cs).

(** The cache and the offset table, exposing the entries above the floor. *)
Definition table (floor : N) cs (r : recovered) : Prop :=
  (∀ i e, rec_entries r !! i = Some e ↔ floor < i ∧ e_index e = i ∧ e ∈ all_entries cs) ∧
  (∀ i p, rec_offsets r !! i = Some p ↔ floor < i ∧ ∃ e, e_index e = i ∧ at_pos cs p e).

Definition live (floor : N) cs : list Entry := filter (λ e, floor < e_index e) (all_entries cs).

(** ** Ascending indices *)

Lemma inc_from_weaken lo lo' es : lo' ≤ lo → inc_from lo es → inc_from lo' es.
Proof. destruct es; cbn; [done|]. intros ? [? ?]. split; [lia|done]. Qed.

Lemma inc_from_app lo es1 es2 :
  inc_from lo (es1 ++ es2) ↔
  inc_from lo es1 ∧ inc_from (match last es1 with Some e => e_index e + 1 | None => lo end) es2.
Proof.
  revert lo. induction es1 as [|e es1 IH]; intros lo; [by cbn; tauto|]. cbn [app inc_from].
  rewrite IH. destruct es1 as [|x es1]; [cbn; tauto|]. rewrite last_cons_cons.
  destruct (last (x :: es1)) eqn:Hl; [tauto|]. by apply last_None in Hl.
Qed.

Lemma inc_from_ge lo es e : inc_from lo es → e ∈ es → lo ≤ e_index e.
Proof.
  revert lo. induction es as [|x es IH]; intros lo; [by intros _ ?%not_elem_of_nil|].
  intros [Hx Hes] [->|Hin]%elem_of_cons; [done|]. specialize (IH _ Hes Hin). lia.
Qed.

Lemma inc_from_before lo es1 e es2 x :
  inc_from lo (es1 ++ e :: es2) →
  (x ∈ es1 → e_index x < e_index e) ∧ (x ∈ es2 → e_index e < e_index x).
Proof.
  intros H. split.
  - revert lo H. induction es1 as [|y es1 IH]; intros lo; [by intros _ ?%not_elem_of_nil|].
    intros [_ Hes] [->|Hin]%elem_of_cons; [|by eapply IH].
    assert (e_index y + 1 ≤ e_index e); [|lia].
    eapply inc_from_ge; [exact Hes|]. rewrite elem_of_app, elem_of_cons. auto.
  - apply inc_from_app in H as [_ [_ H]]. intros Hx. pose proof (inc_from_ge _ _ _ H Hx). lia.
Qed.

Lemma chunk_end_gt b es : inc_from b es → b < chunk_end b es.
Proof.
  unfold chunk_end. intros H. destruct (last es) as [e|] eqn:Hl; [|lia].
  apply last_Some_elem_of in Hl. pose proof (inc_from_ge _ _ _ H Hl). lia.
Qed.

Lemma chunk_end_ge b es e : inc_from b es → e ∈ es → e_index e < chunk_end b es.
Proof.
  intros H Hin. unfold chunk_end. destruct (last es) as [x|] eqn:Hl.
  - apply last_Some in Hl as [es' ->]. apply elem_of_app in Hin as [Hin|Hin].
    + destruct (inc_from_before _ _ _ _ e H) as [Hb _]. specialize (Hb Hin). lia.
    + apply list_elem_of_singleton in Hin as ->. lia.
  - apply last_None in Hl as ->. by apply not_elem_of_nil in Hin.
Qed.

Lemma chunks_from_weaken lo lo' cs : lo' ≤ lo → chunks_from lo cs → chunks_from lo' cs.
Proof. destruct cs as [|[b es] cs]; cbn; [done|]. intros ? (? & ? & ?). split_and!; [lia|done..]. Qed.

(** The last index bound of a sequence of chunks. *)
Fixpoint chunks_end (lo : N) cs : N :=
  match cs with [] => lo | (b, es) :: cs => chunks_end (chunk_end b es) cs end.

Lemma chunks_from_app lo cs1 cs2 :
  chunks_from lo (cs1 ++ cs2) ↔ chunks_from lo cs1 ∧ chunks_from (chunks_end lo cs1) cs2.
Proof.
  revert lo. induction cs1 as [|[b es] cs1 IH]; intros lo; [by cbn; tauto|].
  cbn [app chunks_from chunks_end]. rewrite IH. tauto.
Qed.
Lemma chunks_end_app lo cs1 cs2 : chunks_end lo (cs1 ++ cs2) = chunks_end (chunks_end lo cs1) cs2.
Proof. revert lo. induction cs1 as [|[b es] cs1 IH]; intros lo; [done|]. cbn. apply IH. Qed.

Lemma chunks_end_ge lo cs : chunks_from lo cs → lo ≤ chunks_end lo cs.
Proof.
  revert lo. induction cs as [|[b es] cs IH]; intros lo; [done|]. cbn. intros (? & He & Hc).
  specialize (IH _ Hc). pose proof (chunk_end_gt _ _ He). lia.
Qed.

Lemma all_entries_app cs1 cs2 : all_entries (cs1 ++ cs2) = all_entries cs1 ++ all_entries cs2.
Proof. unfold all_entries. by rewrite fmap_app, concat_app. Qed.
Lemma all_entries_cons b es cs : all_entries ((b, es) :: cs) = es ++ all_entries cs.
Proof. done. Qed.
Lemma all_entries_snoc cs b es : all_entries (cs ++ [(b, es)]) = all_entries cs ++ es.
Proof. rewrite all_entries_app, all_entries_cons. by rewrite app_nil_r. Qed.

Lemma inc_from_join lo es1 es2 m :
  inc_from lo es1 → inc_from m es2 → lo ≤ m → (∀ e, e ∈ es1 → e_index e < m) →
  inc_from lo (es1 ++ es2).
Proof.
  intros H1 H2 Hlo Hm. apply inc_from_app. split; [done|].
  destruct (last es1) as [x|] eqn:Hl; [|by eapply inc_from_weaken].
  apply last_Some_elem_of in Hl. specialize (Hm _ Hl). eapply inc_from_weaken; [|done]. lia.
Qed.

Lemma chunks_from_inc lo cs : chunks_from lo cs → inc_from lo (all_entries cs).
Proof.
  revert lo. induction cs as [|[b es] cs IH]; intros lo; [done|]. intros (Hb & He & Hc).
  rewrite all_entries_cons. eapply (inc_from_weaken b); [done|].
  eapply inc_from_join; [done|by apply IH| |].
  - pose proof (chunk_end_gt _ _ He). lia.
  - intros e Hin. by eapply chunk_end_ge.
Qed.

Lemma chunks_from_entry lo cs e : chunks_from lo cs → e ∈ all_entries cs → e_index e < chunks_end lo cs.
Proof.
  revert lo. induction cs as [|[b es] cs IH]; intros lo; [by intros _ ?%not_elem_of_nil|].
  intros (Hb & He & Hc). rewrite all_entries_cons. cbn [chunks_end].
  intros [Hin|Hin]%elem_of_app; [|by apply IH].
  pose proof (chunk_end_ge _ _ _ He Hin). pose proof (chunks_end_ge _ _ Hc). lia.
Qed.
Lemma chunks_from_base lo cs c : chunks_from lo cs → c ∈ cs → lo ≤ c.1 < chunks_end lo cs.
Proof.
  revert lo. induction cs as [|[b es] cs IH]; intros lo; [by intros _ ?%not_elem_of_nil|].
  intros (Hb & He & Hc) [->|Hin]%elem_of_cons; cbn [chunks_end];
    pose proof (chunk_end_gt _ _ He); pose proof (chunks_end_ge _ _ Hc).
  - cbn. lia.
  - specialize (IH _ Hc Hin). lia.
Qed.
Lemma chunks_from_lower lo cs e : chunks_from lo cs → e ∈ all_entries cs → lo ≤ e_index e.
Proof. intros H Hin. eapply inc_from_ge; [by apply chunks_from_inc|done]. Qed.

Lemma inc_from_unique lo es x y :
  inc_from lo es → x ∈ es → y ∈ es → e_index x = e_index y → x = y.
Proof.
  intros H Hx Hy Heq. apply list_elem_of_split in Hx as (es1 & es2 & ->).
  destruct (inc_from_before _ _ _ _ y H) as [Hb Ha].
  apply elem_of_app in Hy as [Hy|[->|Hy]%elem_of_cons]; [|done|].
  - specialize (Hb Hy). lia.
  - specialize (Ha Hy). lia.
Qed.

(** The bases of a layout are distinct. *)
Lemma chunks_from_NoDup lo cs : chunks_from lo cs → NoDup cs.*1.
Proof.
  revert lo. induction cs as [|[b es] cs IH]; intros lo; [constructor|]. intros (Hb & He & Hc).
  cbn. constructor; [|by eapply IH].
  intros ([b' es'] & -> & Hin)%list_elem_of_fmap. cbn in *.
  destruct (chunks_from_base _ _ _ Hc Hin) as [Hge _].
  pose proof (chunk_end_gt _ _ He). cbn in *. lia.
Qed.

Lemma chunks_from_sorted lo cs : chunks_from lo cs → StronglySorted (λ c c' : chunk, c.1 < c'.1) cs.
Proof.
  revert lo. induction cs as [|[b es] cs IH]; intros lo; [constructor|]. intros (Hb & He & Hc).
  constructor; [by eapply IH|]. rewrite Forall_forall. intros c Hin.
  destruct (chunks_from_base _ _ _ Hc Hin). pose proof (chunk_end_gt _ _ He). cbn. lia.
Qed.

(** ** Segment files *)

Lemma segs_of_lookup cs b c :
  NoDup cs.*1 → segs_of cs !! b = Some c ↔ ∃ es, (b, es) ∈ cs ∧ c = log_bytes es.
Proof.
  intros Hnd. unfold segs_of. rewrite <-elem_of_list_to_map.
  - rewrite list_elem_of_fmap. split.
    + intros ([b' es] & [= -> ->] & Hin). eauto.
    + intros (es & Hin & ->). by exists (b, es).
  - rewrite <-list_fmap_compose. done.
Qed.

Lemma segs_of_snoc cs b es :
  NoDup (cs ++ [(b, es)]).*1 → segs_of (cs ++ [(b, es)]) = <[b := log_bytes es]> (segs_of cs).
Proof.
  intros Hnd. rewrite fmap_app in Hnd. apply NoDup_app in Hnd as (_ & Hb & _).
  unfold segs_of. rewrite fmap_app, list_to_map_app. cbn. rewrite map_union_comm.
  - by rewrite insert_empty, <-insert_union_singleton_l.
  - apply map_disjoint_spec. intros i x y Hx Hy. rewrite insert_empty in Hy.
    apply lookup_singleton_Some in Hy as [-> _].
    apply elem_of_list_to_map_2 in Hx. apply list_elem_of_fmap in Hx as (c & [= -> _] & Hc).
    apply (Hb c.1); [|by left]. by apply list_elem_of_fmap_2.
Qed.

Lemma segs_of_app_delete cs1 cs2 :
  NoDup (cs1 ++ cs2).*1 → foldr delete (segs_of (cs1 ++ cs2)) cs2.*1 = segs_of cs1.
Proof.
  revert cs1. induction cs2 as [|[b es] cs2 IH] using rev_ind; intros cs1 Hnd; [by rewrite app_nil_r|].
  rewrite fmap_app, foldr_app. cbn [fmap list_fmap foldr fst].
  rewrite (assoc_L (++)) in Hnd |- *. rewrite segs_of_snoc by done.
  rewrite fmap_app in Hnd. apply NoDup_app in Hnd as (Hnd & Hb & _).
  rewrite delete_insert_id; [by apply IH|].
  apply eq_None_not_Some. intros [c (es' & Hin & _)%segs_of_lookup]; [|done].
  apply (Hb b); [|by left]. apply list_elem_of_fmap. by exists (b, es').
Qed.

Lemma segs_of_delete_head b es cs : NoDup ((b, es) :: cs).*1 → delete b (segs_of ((b, es) :: cs)) = segs_of cs.
Proof.
  intros Hnd. apply map_eq. intros i. apply NoDup_cons in Hnd as [Hb Hnd].
  destruct (decide (i = b)) as [->|Hne].
  - rewrite lookup_delete_eq. symmetry. apply eq_None_not_Some.
    intros [c (es' & Hin & _)%segs_of_lookup]; [|done]. apply Hb.
    apply list_elem_of_fmap. by exists (b, es').
  - rewrite lookup_delete_ne by done. unfold segs_of. cbn. by rewrite lookup_insert_ne.
Qed.

Lemma segs_of_keys lo cs : chunks_from lo cs → keys (segs_of cs) = cs.*1.
Proof.
  intros H. unfold keys. rewrite (in_order_unique (segs_of cs) ((λ c : chunk, (c.1, log_bytes c.2)) <$> cs)).
  - rewrite <-list_fmap_compose. done.
  - eapply StronglySorted_fmap; [|by eapply chunks_from_sorted]. done.
  - intros b c. unfold segs_of. apply elem_of_list_to_map.
    rewrite <-list_fmap_compose. by eapply chunks_from_NoDup.
Qed.

(** ** Positions *)

Lemma at_pos_entry cs p e : at_pos cs p e → e ∈ all_entries cs.
Proof.
  intros (b & es1 & es2 & Hc & _). apply list_elem_of_lookup_2 in Hc.
  apply list_elem_of_split in Hc as (cs1 & cs2 & ->). rewrite all_entries_app, all_entries_cons.
  set_solver.
Qed.
Lemma entry_at_pos cs e : e ∈ all_entries cs → ∃ p, at_pos cs p e.
Proof.
  intros Hin. unfold all_entries in Hin. apply list_elem_of_In, in_concat in Hin as (es & Hes & Hin).
  apply list_elem_of_In in Hes, Hin.
  apply list_elem_of_fmap in Hes as ([b es'] & Heq & Hc). cbn in Heq. subst es'.
  apply list_elem_of_lookup in Hc as [k Hk].
  apply list_elem_of_split in Hin as (es1 & es2 & ->). cbn in *.
  exists (k, N.of_nat (length (log_bytes es1))). by exists b, es1, es2.
Qed.

Lemma at_pos_app_l cs1 cs2 p e : at_pos cs1 p e → at_pos (cs1 ++ cs2) p e.
Proof.
  intros (b & es1 & es2 & Hc & Hp). exists b, es1, es2. split; [|done].
  by apply lookup_app_l_Some.
Qed.
Lemma at_pos_app cs1 cs2 p e :
  at_pos (cs1 ++ cs2) p e ↔
  at_pos cs1 p e ∨ (length cs1 ≤ p.1)%nat ∧ at_pos cs2 (p.1 - length cs1, p.2)%nat e.
Proof.
  unfold at_pos. cbn. split.
  - intros (b & es1 & es2 & Hc & Hp). apply lookup_app_Some in Hc as [Hc|[Hl Hc]]; [left|right]; eauto 10.
  - intros [(b & es1 & es2 & Hc & Hp)|(Hl & b & es1 & es2 & Hc & Hp)]; exists b, es1, es2; (split; [|done]).
    + by apply lookup_app_l_Some.
    + by rewrite lookup_app_r.
Qed.

Lemma snoc_split {A} (es : list A) x es1 y es2 :
  es ++ [x] = es1 ++ y :: es2 →
  (es2 = [] ∧ es1 = es ∧ y = x) ∨ (∃ es2', es2 = es2' ++ [x] ∧ es = es1 ++ y :: es2').
Proof.
  destruct es2 as [|z es2 _] using rev_ind.
  - intros H. apply app_inj_tail in H as [-> ->]. by left.
  - rewrite app_comm_cons, (assoc_L (++)). intros H. apply app_inj_tail in H as [-> ->]. right. eauto.
Qed.

(** Adding one frame to the last segment adds one position. *)
Lemma at_pos_snoc cs b es e p x :
  at_pos (cs ++ [(b, es ++ [e])]) p x ↔
  at_pos (cs ++ [(b, es)]) p x ∨ (x = e ∧ p = (length cs, N.of_nat (length (log_bytes es)))).
Proof.
  rewrite !at_pos_app. split.
  - intros [?|(Hl & b' & es1 & es2 & Hc & Hp)]; [by left; left|].
    destruct (p.1 - length cs)%nat as [|k] eqn:Hk; cbn in Hc; [|done]. injection Hc as <- Hes.
    apply snoc_split in Hes as [(-> & -> & ->)|(es2' & -> & ->)].
    + right. split; [done|]. destruct p as [k o]. cbn in *. f_equal; [lia|done].
    + left. right. split; [done|]. by exists b, es1, es2'.
  - intros [[?|(Hl & b' & es1 & es2 & Hc & Hp)]|[-> ->]]; [by left|right..].
    + split; [done|]. destruct (p.1 - length cs)%nat as [|k] eqn:Hk; cbn in Hc; [|done].
      injection Hc as <- ->. exists b, es1, (es2 ++ [e]). cbn. split; [|done].
      cbn. by rewrite <-app_assoc.
    + cbn. split; [lia|]. exists b, es, []. cbn. by rewrite Nat.sub_diag.
Qed.

Lemma at_pos_empty_chunk cs b p x : at_pos (cs ++ [(b, [])]) p x ↔ at_pos cs p x.
Proof.
  rewrite at_pos_app. split; [|by left]. intros [?|(Hl & b' & es1 & es2 & Hc & _)]; [done|].
  destruct (p.1 - length cs)%nat; cbn in Hc; [|done]. injection Hc as _ Hc.
  by destruct es1.
Qed.

(** ** The tables *)

Lemma table_empty floor : table floor [] (mkRecovered ∅ ∅).
Proof.
  split; cbn; intros i x; rewrite lookup_empty; (split; [done|]).
  - by intros (_ & _ & ?%not_elem_of_nil).
  - intros (_ & e & _ & b & es1 & es2 & Hc & _). by rewrite lookup_nil in Hc.
Qed.
Lemma table_empty_chunk floor cs b r : table floor cs r → table floor (cs ++ [(b, [])]) r.
Proof.
  intros [He Ho]. split.
  - intros i e. rewrite He, all_entries_snoc, app_nil_r. done.
  - intros i p. rewrite Ho. by setoid_rewrite at_pos_empty_chunk.
Qed.

(** Recording a frame whose index is above all others. *)
Lemma table_note floor cs b es e r :
  table floor (cs ++ [(b, es)]) r →
  (∀ x, x ∈ all_entries (cs ++ [(b, es)]) → e_index x < e_index e) →
  table floor (cs ++ [(b, es ++ [e])]) (note_frame floor (length cs) e (length (log_bytes es)) r).
Proof.
  intros [He Ho] Hlt. unfold note_frame.
  assert (∀ x, x ∈ all_entries (cs ++ [(b, es ++ [e])]) ↔ x ∈ all_entries (cs ++ [(b, es)]) ∨ x = e) as Hall.
  { intros x. rewrite !all_entries_snoc, (assoc_L (++)), elem_of_app, list_elem_of_singleton. done. }
  destruct (decide (floor < e_index e)) as [Hf|Hf]; split; cbn; intros i x.
  - rewrite lookup_insert_Some, He, Hall. split.
    + intros [[<- <-]|(Hne & ? & ? & ?)]; auto.
    + intros (Hi & Hx & [Hin| ->]); [|by left]. right. split; [|done].
      specialize (Hlt _ Hin). lia.
  - rewrite lookup_insert_Some, Ho. setoid_rewrite at_pos_snoc. split.
    + intros [[<- <-]|(Hne & Hi & y & Hy & Hp)]; [|by eauto 10].
      split; [done|]. exists e. eauto.
    + intros (Hi & y & Hy & [Hp|[-> ->]]); [|by left]. right. split; [|by eauto].
      specialize (Hlt _ (at_pos_entry _ _ _ Hp)). lia.
  - rewrite He, Hall. split; [by intros (?&?&?); auto|]. intros (Hi & Hx & [Hin| ->]); [done|]. lia.
  - rewrite Ho. setoid_rewrite at_pos_snoc. split; [by intros (Hi & y & ? & ?); eauto|].
    intros (Hi & y & Hy & [Hp|[-> _]]); [by eauto|lia].
Qed.

Lemma table_replayed floor cs b es1 es2 lo r :
  chunks_from lo (cs ++ [(b, es1 ++ es2)]) → table floor (cs ++ [(b, es1)]) r →
  table floor (cs ++ [(b, es1 ++ es2)])
    (replayed floor (length cs) es2 (length (log_bytes es1)) r).
Proof.
  revert es1 r. induction es2 as [|e es2 IH]; intros es1 r Hc Ht; [by rewrite app_nil_r|].
  cbn [replayed]. replace (length (log_bytes es1) + length (frame_bytes e))%nat
    with (length (log_bytes (es1 ++ [e]))).
  2:{ rewrite log_bytes_app, length_app. unfold log_bytes at 2. cbn. by rewrite app_nil_r. }
  rewrite (cons_middle e es1 es2), (assoc_L (++) es1) in Hc |- *. apply IH; [done|].
  apply table_note; [done|]. intros x Hx.
  apply chunks_from_inc in Hc. rewrite all_entries_snoc in Hc, Hx.
  replace (all_entries cs ++ (es1 ++ [e]) ++ es2) with ((all_entries cs ++ es1) ++ e :: es2) in Hc
    by by rewrite <-!(assoc_L (++)).
  destruct (inc_from_before _ _ _ _ x Hc) as [Hb _]. by apply Hb.
Qed.

Lemma inc_from_filter floor lo es : inc_from lo es → inc_from (floor + 1) (filter (λ e, floor < e_index e) es).
Proof.
  revert lo. induction es as [|e es IH]; intros lo; [done|]. intros [_ Hes]. rewrite filter_cons.
  case_decide; [|by eapply IH]. cbn. split; [lia|]. specialize (IH _ Hes).
  rewrite filter_all in IH |- *; [done|..]; intros x Hx; pose proof (inc_from_ge _ _ _ Hes Hx); lia.
Qed.
Lemma live_inc floor cs : chunks_from 0 cs → inc_from (floor + 1) (live floor cs).
Proof. intros Hc. eapply inc_from_filter. by apply chunks_from_inc. Qed.

Lemma live_storable floor cs : Forall storable (all_entries cs) → Forall storable (live floor cs).
Proof.
  rewrite !Forall_forall. intros Hs e [_ He]%list_elem_of_filter. auto.
Qed.

(** The cache in key order is the live part of the log. *)
Lemma table_values floor cs r lo :
  chunks_from lo cs → table floor cs r → values (rec_entries r) = live floor cs.
Proof.
  intros Hc [He _]. unfold values, live.
  rewrite (in_order_unique (rec_entries r)
    ((λ e, (e_index e, e)) <$> filter (λ e, floor < e_index e) (all_entries cs))).
  - rewrite <-list_fmap_compose. apply list_fmap_id.
  - apply chunks_from_inc in Hc. revert Hc. generalize (all_entries cs). clear.
    intros es. revert lo. induction es as [|e es IH]; intros lo; [constructor|]. intros [_ Hes].
    rewrite filter_cons. case_decide; [|by eapply IH]. cbn. constructor; [by eapply IH|].
    rewrite Forall_fmap, Forall_forall. intros x [_ Hx]%list_elem_of_filter.
    pose proof (inc_from_ge _ _ _ Hes Hx). unfold key_lt. cbn. lia.
  - intros k x. rewrite He, list_elem_of_fmap. setoid_rewrite list_elem_of_filter. split.
    + intros (y & [= -> ->] & ? & ?). done.
    + intros (? & <- & ?). by exists x.
Qed.
Lemma table_keyed floor cs r : table floor cs r → keyed e_index (rec_entries r).
Proof. intros [He _] i e. rewrite He. tauto. Qed.

(** ** Cutting a layout *)

Lemma chunks_from_remove lo cs1 mid cs2 :
  chunks_from lo (cs1 ++ mid ++ cs2) → chunks_from lo (cs1 ++ cs2).
Proof.
  rewrite !chunks_from_app. intros (H1 & H2 & H3). split; [done|].
  eapply chunks_from_weaken; [|exact H3]. by apply chunks_end_ge.
Qed.

Lemma segs_of_delete cs1 b es cs2 :
  NoDup (cs1 ++ (b, es) :: cs2).*1 → delete b (segs_of (cs1 ++ (b, es) :: cs2)) = segs_of (cs1 ++ cs2).
Proof.
  intros Hnd. assert (NoDup (cs1 ++ cs2).*1) as Hnd'.
  { rewrite fmap_app in Hnd |- *. cbn in Hnd. apply NoDup_app in Hnd as (H1 & H2 & H3).
    apply NoDup_cons in H3 as [_ H3]. apply NoDup_app. split_and!; [done| |done].
    intros x Hx Hx'. apply (H2 x Hx). by right. }
  assert (∀ es', (b, es') ∈ cs1 ++ cs2 → False) as Hb.
  { intros es' Hin. rewrite fmap_app in Hnd. cbn in Hnd. apply NoDup_app in Hnd as (_ & H2 & H3).
    apply NoDup_cons in H3 as [H3 _]. apply elem_of_app in Hin as [Hin|Hin];
      apply (list_elem_of_fmap_2 fst) in Hin; cbn in Hin; [|done]. apply (H2 b Hin). by left. }
  apply map_eq. intros i. apply option_eq. intros c. rewrite lookup_delete_Some, !segs_of_lookup by done.
  split.
  - intros (Hne & es' & Hin & ->). exists es'. split; [|done].
    rewrite !elem_of_app, elem_of_cons in *. destruct Hin as [?|[[= <- <-]|?]]; [by left|done|by right].
  - intros (es' & Hin & ->). split; [intros <-; by eapply Hb|]. exists es'. split; [|done].
    rewrite !elem_of_app, elem_of_cons in *. tauto.
Qed.

Lemma split_before {A} (es1 : list A) e es2 f1 x f2 :
  es1 ++ e :: es2 = f1 ++ x :: f2 → (length f1 < length es1)%nat → ∃ g, es1 = f1 ++ x :: g.
Proof.
  revert f1. induction es1 as [|y es1 IH]; intros f1; cbn; [lia|].
  destruct f1 as [|z f1]; cbn; intros [= -> Heq] Hl; [by exists es1|].
  destruct (IH f1 Heq) as [g ->]; [lia|]. by exists g.
Qed.

Lemma split_after {A} (es1 : list A) e es2 f1 x f2 :
  es1 ++ e :: es2 = f1 ++ x :: f2 → (length es1 ≤ length f1)%nat → (x = e ∧ f1 = es1) ∨ x ∈ es2.
Proof.
  revert f1. induction es1 as [|y es1 IH]; intros f1; cbn.
  - destruct f1 as [|z f1]; cbn; intros [= -> Heq] _; [by left|]. right. rewrite Heq.
    apply elem_of_app. right. by left.
  - destruct f1 as [|z f1]; cbn; intros Heq Hl; [lia|]. injection Heq as -> Heq.
    destruct (IH f1 Heq) as [[-> ->]|?]; [lia|by left|by right].
Qed.

(** Positions before an entry [e] are those of the layout cut at [e]. *)
Lemma at_pos_cut cs1 b es1 e es2 cs2 lo p x :
  chunks_from lo (cs1 ++ (b, es1 ++ e :: es2) :: cs2) →
  at_pos (cs1 ++ [(b, es1)]) p x ↔
  at_pos (cs1 ++ (b, es1 ++ e :: es2) :: cs2) p x ∧ e_index x < e_index e.
Proof.
  intros Hc. pose proof (chunks_from_inc _ _ Hc) as Hinc.
  rewrite all_entries_app, all_entries_cons in Hinc.
  replace (all_entries cs1 ++ (es1 ++ e :: es2) ++ all_entries cs2)
    with ((all_entries cs1 ++ es1) ++ e :: (es2 ++ all_entries cs2)) in Hinc
    by by rewrite <-!(assoc_L (++)).
  destruct (inc_from_before _ _ _ _ x Hinc) as [Hbef Haft].
  rewrite !at_pos_app. split.
  - intros [Hp|(Hl & b' & f1 & f2 & Hf & Ho)].
    + split; [by left|]. apply Hbef, elem_of_app. left. by eapply at_pos_entry.
    + destruct (p.1 - length cs1)%nat as [|k] eqn:Hk; cbn in Hf; [|done]. injection Hf as <- ->.
      split; [|apply Hbef; rewrite !elem_of_app, elem_of_cons; auto].
      right. split; [done|]. exists b, f1, (f2 ++ e :: es2). cbn. split; [|done].
      by rewrite <-(assoc_L (++)).
  - intros [[Hp|(Hl & b' & f1 & f2 & Hf & Ho)] Hlt]; [by left|]. right. split; [done|].
    destruct (p.1 - length cs1)%nat as [|k] eqn:Hk; cbn in Hf.
    + injection Hf as <- Heq. destruct (decide (length f1 < length es1)%nat) as [Hlen|Hlen].
      * destruct (split_before _ _ _ _ _ _ Heq Hlen) as [g ->]. exists b, f1, g. done.
      * exfalso. assert (x = e ∨ x ∈ es2) as [-> |Hin]; [| lia |].
        { destruct (split_after _ _ _ _ _ _ Heq ltac:(lia)) as [[? ?]|?]; auto. }
        specialize (Haft ltac:(apply elem_of_app; auto)). lia.
    + exfalso. apply list_elem_of_lookup_2 in Hf.
      assert (x ∈ all_entries cs2) as Hin.
      { apply list_elem_of_split in Hf as (c1 & c2 & ->). rewrite all_entries_app, all_entries_cons.
        rewrite !elem_of_app, elem_of_cons. auto. }
      specialize (Haft ltac:(apply elem_of_app; auto)). lia.
Qed.
End Layout.
