(* ===== verification/FileLogState.v ===== *)
(** * States of the durable log store and its directory

    The invariant of an open store, what a directory must look like for
    [open] to bring back a given log, and the marker files. *)

From S2P Require Import Prelude CoreTypes Message Text BTree Bytes LogStore EpochFile WalCodec DirIo FileLog FileLogWp FileLogLayout.

Section State.
Context {MA : MembershipApi} {BV : Bincode VoterSet} {CR : Crc32}.
Implicit Types (s : FileLogStore) (cs : list chunk) (d : waldir).

(** ** Definitions *)

(** Cache, offsets, segment list and segment files agree on [cs]. *)
Record cached (floor : N) cs s : Prop := {
  ca_segments : segments s = cs.*1;
  ca_files : wd_segs (dir s) = segs_of cs;
  ca_storable : Forall storable (all_entries cs);
  ca_chunks : chunks_from 0 cs;
  ca_table : table floor cs (mkRecovered (entries s) (offsets s));
  ca_floor : first_valid_index s = floor;
}.
(** The writer appends to the last segment, whose length it knows. *)
Definition writing cs s : Prop :=
  active_writer s = fst <$> last cs ∧
  active_segment_size s = match last cs with Some c => N.of_nat (length (log_bytes c.2)) | None => 0 end.

(** What [open] reads from the marker files. *)
Record markers_ok d (floor : N) (anchor : option (N * N)) (trunc : option N) : Prop := {
  mk_purge : load_purge_marker d = Ok floor;
  mk_anchor : load_snapshot_anchor d = Ok anchor;
  mk_trunc : load_truncate_marker d = Ok trunc;
  mk_epochs : ∃ m, load_epoch_checkpoint (bytes_string <$> wd_files d !! EPOCH_CHECKPOINT_FILE) = Ok m;
}.

(** The index after a log that starts behind the floor. *)
Definition next_index (floor : N) (l : list Entry) : N := floor + N.of_nat (length l) + 1.
Definition log_from (floor : N) (l : list Entry) : Prop := contig_from (floor + 1) 0 l.

(** The state of an open store: its layout, floor and anchor. *)
Record open_ok (floor : N) (anchor : option (N * N)) cs s : Prop := {
  op_cached : cached floor cs s;
  op_writing : writing cs s;
  op_markers : markers_ok (dir s) floor anchor None;
  op_epochs : epoch_starts s = rebuild_epoch_starts (values (entries s));
  op_anchor : snapshot_anchor s = anchor;
  op_log : log_from floor (live floor cs);
  op_bases : ∀ c, c ∈ cs → c.1 ≤ next_index floor (live floor cs);
  op_u64 : u64 floor;
}.
(** The invariant between calls. *)
Definition store_inv s : Prop := ∃ cs, open_ok (first_valid_index s) (snapshot_anchor s) cs s.

(** The entries a pending truncation keeps. *)
Definition kept (trunc : option N) (l : list Entry) : list Entry :=
  match trunc with None => l | Some t => filter (λ e, e_index e ≤ t) l end.
(** The segment files when the last one ends in the torn frame [t]. *)
Definition torn_segs cs (t : bytes) : gmap N bytes :=
  match last cs with
  | Some (b, es) => <[b := log_bytes es ++ t]> (segs_of cs)
  | None => segs_of cs
  end.
(** No segment starts beyond the log, but for those a truncation removes. *)
Definition bases_ok (floor : N) cs (l : list Entry) : Prop :=
  (∃ e, e ∈ all_entries cs ∧ e_index e = next_index floor l) ∨
  (∀ c, c ∈ cs → c.1 ≤ next_index floor l).

Record dir_ok d (floor : N) (anchor : option (N * N)) (trunc : option N) cs (t : bytes) : Prop := {
  do_segs : wd_segs d = torn_segs cs t;
  do_torn : t = [] ∨ torn t;
  do_storable : Forall storable (all_entries cs);
  do_chunks : chunks_from 0 cs;
  do_markers : markers_ok d floor anchor trunc;
  do_trunc : ∀ x, trunc = Some x → x < u64_max;
  do_log : log_from floor (kept trunc (live floor cs));
  do_bases : bases_ok floor cs (kept trunc (live floor cs));
  do_floor : u64 floor;
}.

(** A directory from which [open] brings back the log [l]. *)
Definition recoverable (floor : N) (anchor : option (N * N)) (l : list Entry) d : Prop :=
  ∃ trunc cs t, dir_ok d floor anchor trunc cs t ∧ kept trunc (live floor cs) = l.

(** ** Segment files *)

Lemma torn_segs_nil cs lo : chunks_from lo cs → torn_segs cs [] = segs_of cs.
Proof.
  intros Hc. unfold torn_segs. destruct (last cs) as [[b es]|] eqn:Hl; [|done].
  rewrite app_nil_r. apply insert_id. apply segs_of_lookup; [by eapply chunks_from_NoDup|].
  apply last_Some_elem_of in Hl. eauto.
Qed.
Lemma torn_segs_snoc cs b es t lo :
  chunks_from lo (cs ++ [(b, es)]) → torn_segs (cs ++ [(b, es)]) t = <[b := log_bytes es ++ t]> (segs_of cs).
Proof.
  intros Hc. unfold torn_segs. rewrite last_snoc.
  rewrite segs_of_snoc by by eapply chunks_from_NoDup. by rewrite insert_insert_eq.
Qed.
Lemma torn_segs_keys cs t lo : chunks_from lo cs → keys (torn_segs cs t) = cs.*1.
Proof.
  intros Hc. destruct cs as [|[b es] cs _] using rev_ind.
  { exact (segs_of_keys lo [] Hc). }
  rewrite (torn_segs_snoc _ _ _ _ lo) by done. unfold keys.
  assert (∀ k y, segs_of cs !! k = Some y → k < b) as Hlt.
  { pose proof (chunks_from_NoDup _ _ Hc) as Hnd. rewrite fmap_app in Hnd.
    apply NoDup_app in Hnd as (Hnd & _).
    intros k y (es' & Hin & _)%segs_of_lookup; [|done].
    apply chunks_from_app in Hc as [Hc1 (Hb & _)].
    destruct (chunks_from_base _ _ _ Hc1 Hin). cbn in *. lia. }
  rewrite in_order_insert_last by done. rewrite !fmap_app. cbn. f_equal.
  apply chunks_from_app in Hc as [Hc1 _]. by apply (segs_of_keys lo).
Qed.

(** ** Logs behind a floor *)

Lemma next_index_snoc floor l e : next_index floor (l ++ [e]) = next_index floor l + 1.
Proof. unfold next_index. rewrite length_app. cbn. lia. Qed.

Lemma log_from_below floor l e : log_from floor l → e ∈ l → floor < e_index e < next_index floor l.
Proof.
  intros Hl Hin. destruct (contig_from_bounds _ _ _ _ Hl Hin) as [? _].
  pose proof (contig_from_below _ _ _ _ Hl Hin). unfold next_index. lia.
Qed.

Lemma log_from_snoc_index floor l e : log_from floor (l ++ [e]) → e_index e = next_index floor l.
Proof.
  intros Hl. pose proof (contig_from_last _ _ _ e Hl (last_snoc _ _)) as Hq.
  rewrite length_app in Hq. cbn in Hq. unfold next_index. lia.
Qed.

Lemma elem_of_live floor cs e : e ∈ live floor cs ↔ e ∈ all_entries cs ∧ floor < e_index e.
Proof. unfold live. rewrite list_elem_of_filter. tauto. Qed.

Lemma entries_below floor cs e :
  log_from floor (live floor cs) → e ∈ all_entries cs → e_index e < next_index floor (live floor cs).
Proof.
  intros Hl Hin. destruct (decide (floor < e_index e)).
  - eapply log_from_below; [done|]. by apply elem_of_live.
  - unfold next_index. lia.
Qed.

Lemma dir_ok_open floor anchor cs d t :
  wd_segs d = torn_segs cs t → t = [] ∨ torn t → Forall storable (all_entries cs) → chunks_from 0 cs →
  markers_ok d floor anchor None → log_from floor (live floor cs) →
  (∀ c, c ∈ cs → c.1 ≤ next_index floor (live floor cs)) → u64 floor →
  dir_ok d floor anchor None cs t.
Proof. intros. split; try done. by right. Qed.

Lemma recoverable_open floor anchor cs d t :
  dir_ok d floor anchor None cs t → recoverable floor anchor (live floor cs) d.
Proof. intros. by exists None, cs, t. Qed.

Lemma open_recoverable floor anchor cs s :
  open_ok floor anchor cs s → recoverable floor anchor (live floor cs) (dir s).
Proof.
  intros [H1 H2 H3 H4 H5 H6 H7 H8]. eapply (recoverable_open _ _ _ _ []), dir_ok_open; try done.
  - rewrite (torn_segs_nil _ 0); apply H1.
  - by left.
  - apply H1.
  - apply H1.
Qed.

(** ** Markers *)

Lemma markers_ok_same d d' floor anchor trunc :
  same_markers d d' → markers_ok d floor anchor trunc → markers_ok d' floor anchor trunc.
Proof.
  intros [_ Hf] [H1 H2 H3 H4]. split;
    unfold load_purge_marker, load_snapshot_anchor, load_truncate_marker in *;
    rewrite Hf; try done; unfold markers; set_solver.
Qed.
Lemma same_files_markers d d' :
  wd_files d' = wd_files d → ∀ floor anchor trunc,
  markers_ok d floor anchor trunc → markers_ok d' floor anchor trunc.
Proof.
  intros Hf floor anchor trunc [H1 H2 H3 H4]. split;
    unfold load_purge_marker, load_snapshot_anchor, load_truncate_marker in *; by rewrite Hf.
Qed.

Lemma markers_purge d d' floor floor' anchor trunc :
  with_marker PURGE_MARKER_FILE (Some (u64_bytes floor')) d d' → u64 floor' →
  markers_ok d floor anchor trunc → markers_ok d' floor' anchor trunc.
Proof.
  intros (_ & Hl & Hf) Hu [H1 H2 H3 H4]. split;
    unfold load_purge_marker, load_snapshot_anchor, load_truncate_marker in *.
  - rewrite Hl. rewrite decide_False by (by rewrite length_u64; intros []). by rewrite u64_roundtrip.
  - rewrite Hf; [done|unfold markers; set_solver|done].
  - rewrite Hf; [done|unfold markers; set_solver|done].
  - rewrite Hf; [done|unfold markers; set_solver|done].
Qed.
Lemma markers_trunc d d' floor anchor trunc t :
  with_marker TRUNCATE_MARKER_FILE (Some (u64_bytes t)) d d' → u64 t →
  markers_ok d floor anchor trunc → markers_ok d' floor anchor (Some t).
Proof.
  intros (_ & Hl & Hf) Hu [H1 H2 H3 H4]. split;
    unfold load_purge_marker, load_snapshot_anchor, load_truncate_marker in *.
  - rewrite Hf; [done|unfold markers; set_solver|done].
  - rewrite Hf; [done|unfold markers; set_solver|done].
  - rewrite Hl. rewrite decide_False by (by rewrite length_u64; intros []). by rewrite u64_roundtrip.
  - rewrite Hf; [done|unfold markers; set_solver|done].
Qed.
Lemma markers_untrunc d floor anchor trunc :
  markers_ok d floor anchor trunc →
  markers_ok (d <| wd_files := delete TRUNCATE_MARKER_FILE (wd_files d) |>) floor anchor None.
Proof.
  intros [H1 H2 H3 H4]. split;
    unfold load_purge_marker, load_snapshot_anchor, load_truncate_marker in *;
    change (wd_files (d <| wd_files := delete TRUNCATE_MARKER_FILE (wd_files d) |>)) with (delete TRUNCATE_MARKER_FILE (wd_files d)).
  - by rewrite lookup_delete_ne.
  - by rewrite lookup_delete_ne.
  - by rewrite lookup_delete_eq.
  - by rewrite lookup_delete_ne.
Qed.
Lemma markers_anchor d d' floor anchor trunc t i :
  with_marker SNAPSHOT_ANCHOR_FILE (Some (u64_bytes t ++ u64_bytes i)) d d' → u64 t → u64 i →
  markers_ok d floor anchor trunc → markers_ok d' floor (Some (t, i)) trunc.
Proof.
  intros (_ & Hl & Hf) Ht Hi [H1 H2 H3 H4]. split;
    unfold load_purge_marker, load_snapshot_anchor, load_truncate_marker in *.
  - rewrite Hf; [done|unfold markers; set_solver|done].
  - rewrite Hl. rewrite decide_False by (rewrite length_app, !length_u64; by intros []).
    assert (slice (u64_bytes t ++ u64_bytes i) 0 8 = u64_bytes t) as ->.
    { apply (slice_app_l [] (u64_bytes t) _); [done|by rewrite length_u64]. }
    assert (slice (u64_bytes t ++ u64_bytes i) 8 16 = u64_bytes i) as ->.
    { rewrite <-(app_nil_r (u64_bytes i)) at 1. apply slice_app_l; by rewrite !length_u64. }
    by rewrite !u64_roundtrip.
  - rewrite Hf; [done|unfold markers; set_solver|done].
  - rewrite Hf; [done|unfold markers; set_solver|done].
Qed.
Lemma markers_epochs d d' floor anchor trunc m :
  with_marker EPOCH_CHECKPOINT_FILE (Some (string_bytes (epoch_checkpoint_text m))) d d' →
  load_epoch_checkpoint (Some (epoch_checkpoint_text m)) = Ok m →
  markers_ok d floor anchor trunc → markers_ok d' floor anchor trunc.
Proof.
  intros (_ & Hl & Hf) Hm [H1 H2 H3 H4]. split;
    unfold load_purge_marker, load_snapshot_anchor, load_truncate_marker in *.
  - rewrite Hf; [done|unfold markers; set_solver|done].
  - rewrite Hf; [done|unfold markers; set_solver|done].
  - rewrite Hf; [done|unfold markers; set_solver|done].
  - rewrite Hl. exists m. cbn [fmap option_fmap option_map]. unfold bytes_string, string_bytes.
    by rewrite String.string_of_list_byte_of_string.
Qed.

(** ** The checkpoint of a storable log is well formed *)

Lemma inc_from_length lo es : inc_from lo es → Forall storable es → lo ≤ u64_max + 1 →
  lo + N.of_nat (length es) ≤ u64_max + 1.
Proof.
  revert lo. induction es as [|e es IH]; intros lo; [cbn; lia|].
  intros [He Hes] (Hst & Hs)%Forall_cons Hlo. cbn [length].
  destruct Hst as (_ & Hi & _). unfold u64 in Hi.
  specialize (IH _ Hes Hs ltac:(lia)). lia.
Qed.

Lemma rebuild_size (es : list Entry) : (size (rebuild_epoch_starts es) ≤ length es)%nat.
Proof.
  unfold rebuild_epoch_starts. rewrite <-(Nat.add_0_r (length es)).
  assert (size (∅ : gmap N N) ≤ 0)%nat as H0 by by rewrite map_size_empty.
  revert H0. generalize (∅ : gmap N N) 0%nat. induction es as [|e es IH]; intros m n Hn; [done|].
  cbn [foldl length]. etrans; [apply (IH _ (S n))|lia]. unfold note_epoch.
  destruct (m !! e_term e) eqn:Hm; [lia|]. rewrite map_size_insert_None by done. lia.
Qed.

Lemma rebuild_loads lo es :
  inc_from lo es → 1 ≤ lo → lo ≤ u64_max + 1 → Forall storable es →
  load_epoch_checkpoint (Some (epoch_checkpoint_text (rebuild_epoch_starts es))) = Ok (rebuild_epoch_starts es).
Proof.
  intros Hi Hlo Hlo' Hs. apply epoch_checkpoint_text_loads.
  - intros t i. rewrite rebuild_lookup. destruct (head _) as [e|] eqn:Hh; [|done]. intros [= <-].
    assert (e ∈ filter (λ e, e_term e = t) es) as Hin.
    { destruct (filter _ es); [done|]. injection Hh as <-. by left. }
    apply list_elem_of_filter in Hin as [<- Hin]. rewrite Forall_forall in Hs.
    by destruct (Hs _ Hin) as (_ & ? & ? & _).
  - pose proof (inc_from_length _ _ Hi Hs Hlo'). pose proof (rebuild_size es). unfold u64. lia.
Qed.
End State.
