(* ===== verification/FileLogOps.v ===== *)
(** * The operations of the durable log store, with faults

    What each method of [FileLogStore] does to the layout, and what a failure
    at any of its calls leaves on disk. *)

From S2P Require Import Prelude CoreTypes Message Text BTree Bytes LogStore EpochFile WalCodec DirIo FileLog FileLogWp FileLogLayout FileLogState.

Section Ops.
#[local] Open Scope io_scope.
Context {MA : MembershipApi} {BV : Bincode VoterSet} {CR : Crc32}.
Context {BL : BincodeLaws VoterSet BV} {CL : Crc32Laws CR}.
Implicit Types (s : FileLogStore) (cs : list chunk) (d : waldir).

(** ** The writer *)

Lemma cached_same floor cs s s' :
  cached floor cs s → segments s' = segments s → wd_segs (dir s') = wd_segs (dir s) →
  entries s' = entries s → offsets s' = offsets s → first_valid_index s' = first_valid_index s →
  cached floor cs s'.
Proof. intros [H1 H2 H3 H4 H5 H6] E1 E2 E3 E4 E5. split; try done; congruence. Qed.

Lemma wp_reopen floor cs s Q (C : waldir → Prop) :
  cached floor cs s → C (dir s) →
  (∀ s', cached floor cs s' → writing cs s' → dir s' = dir s → epoch_starts s' = epoch_starts s →
     snapshot_anchor s' = snapshot_anchor s → max_segment_size s' = max_segment_size s →
     entries s' = entries s → Q tt s') →
  wp reopen_active_writer s Q C.
Proof.
  intros Hc HC HQ. unfold reopen_active_writer. apply wp_bind, wp_gets.
  rewrite (ca_segments _ _ _ Hc), fmap_last.
  destruct (last cs) as [[b es]|] eqn:Hl; cbn [fmap option_fmap option_map fst].
  - assert (wd_segs (dir s) !! b = Some (log_bytes es)) as Hb.
    { rewrite (ca_files _ _ _ Hc). apply segs_of_lookup.
      - eapply chunks_from_NoDup, Hc.
      - apply last_Some_elem_of in Hl. eauto. }
    apply wp_bind. eapply (wp_call_atomic _ _ (dir s)); [done| | |done..].
    { cbn. by rewrite Hb. }
    apply wp_modify. apply HQ; try done.
    + by eapply cached_same.
    + unfold writing. cbn -[log_bytes]. rewrite Hl, Hb. done.
  - apply wp_modify. apply HQ; try done; [by eapply cached_same|]. unfold writing. by rewrite Hl.
Qed.

(** The deletion of the segments [rm], one after the other: [layout q] is the
    directory's layout while those of [q] are left. *)
Lemma wp_remove_segs (layout : list chunk → list chunk) (rm : list chunk) s
    (Q : unit → FileLogStore → Prop) (C : waldir → Prop) :
  wd_segs (dir s) = segs_of (layout rm) →
  (∀ b es q, suffix ((b, es) :: q) rm → delete b (segs_of (layout ((b, es) :: q))) = segs_of (layout q)) →
  (∀ q d, suffix q rm → wd_segs d = segs_of (layout q) → wd_files d = wd_files (dir s) → C d) →
  (∀ d, wd_segs d = segs_of (layout []) → wd_files d = wd_files (dir s) → Q tt (s <| dir := d |>)) →
  wp (for_each (λ b, call (SegRemove b)) rm.*1) s Q C.
Proof.
  intros Hd Hdel HC HQ.
  apply (wp_for_each _ _ (λ done s', ∃ q, rm.*1 = done ++ q.*1 ∧ suffix q rm ∧
    ∃ d, s' = s <| dir := d |> ∧ wd_segs d = segs_of (layout q) ∧ wd_files d = wd_files (dir s))).
  - exists rm. split_and!; [done|done|]. exists (dir s). by destruct s.
  - intros l1 a l2 s' Heq (q & Hq & Hsuf & d & -> & Hdq & Hf).
    rewrite Heq in Hq. apply app_inv_head in Hq. destruct q as [|[b' es'] q]; [done|].
    injection Hq as <- Hq. cbn in Hq.
    assert (suffix q rm) as Hsuf' by (etrans; [|exact Hsuf]; by exists [(a, es')]).
    set (d' := d <| wd_segs := delete a (wd_segs d) |>).
    assert (wd_segs d' = segs_of (layout q)) as Hd'.
    { change (wd_segs d') with (delete a (wd_segs d)). rewrite Hdq. by apply (Hdel a es'). }
    eapply (wp_call_atomic _ _ d'); [done|reflexivity| | |].
    + exists q. split_and!; [rewrite Heq, <-(assoc_L (++)); by rewrite Hq|done|]. by exists d'.
    + by apply (HC _ d Hsuf).
    + by apply (HC q d').
  - intros s' (q & Hq & _ & d & -> & Hdq & Hf).
    apply (f_equal length) in Hq. rewrite length_app, !length_fmap in Hq.
    destruct q; [|cbn in Hq; lia]. by apply HQ.
Qed.

(** ** Recovery *)

Lemma torn_segs_lookup_last cs b es t lo :
  chunks_from lo (cs ++ [(b, es)]) → torn_segs (cs ++ [(b, es)]) t !! b = Some (log_bytes es ++ t).
Proof. intros Hc. rewrite (torn_segs_snoc _ _ _ _ lo) by done. by rewrite lookup_insert_eq. Qed.
Lemma torn_segs_lookup_other cs1 b es cs2 t lo :
  chunks_from lo (cs1 ++ (b, es) :: cs2) → cs2 ≠ [] →
  torn_segs (cs1 ++ (b, es) :: cs2) t !! b = Some (log_bytes es).
Proof.
  intros Hc Hne. destruct cs2 as [|[b' es'] cs2 _] using rev_ind; [done|].
  rewrite app_comm_cons, (assoc_L (++)) in Hc |- *.
  rewrite (torn_segs_snoc _ _ _ _ lo) by done.
  pose proof (chunks_from_NoDup _ _ Hc) as Hnd. rewrite fmap_app in Hnd.
  apply NoDup_app in Hnd as (Hnd & Hd & _).
  assert ((b, es) ∈ cs1 ++ (b, es) :: cs2) as Hin by (rewrite elem_of_app, elem_of_cons; auto).
  rewrite lookup_insert_ne.
  - apply segs_of_lookup; [done|eauto].
  - intros <-. apply (Hd b'); [by apply (list_elem_of_fmap_2 fst) in Hin|by left].
Qed.

Lemma dir_ok_untorn d d' floor anchor trunc cs t :
  dir_ok d floor anchor trunc cs t → wd_segs d' = segs_of cs → wd_files d' = wd_files d →
  dir_ok d' floor anchor trunc cs [].
Proof.
  intros [H1 H2 H3 H4 H5 H6 H7 H8 H9] E1 E2. split; try done; [|by left|].
  - by rewrite (torn_segs_nil _ _ H4).
  - by eapply same_files_markers.
Qed.

(** The fields recovery leaves alone. *)
Record same_rest s s' : Prop := mkSameRest {
  sr_floor : first_valid_index s' = first_valid_index s;
  sr_writer : active_writer s' = active_writer s;
  sr_size : active_segment_size s' = active_segment_size s;
  sr_epochs : epoch_starts s' = epoch_starts s;
  sr_anchor : snapshot_anchor s' = snapshot_anchor s;
  sr_max : max_segment_size s' = max_segment_size s;
  sr_files : wd_files (dir s') = wd_files (dir s);
}.
Lemma same_rest_trans s1 s2 s3 : same_rest s1 s2 → same_rest s2 s3 → same_rest s1 s3.
Proof. intros [] []. split; congruence. Qed.

(** The segment [b] in turn: what its file holds and replays to. *)
Lemma recover_one_replay floor cs done b es todo t s :
  cs = done ++ (b, es) :: todo → chunks_from 0 cs → Forall storable (all_entries cs) → t = [] ∨ torn t →
  wd_segs (dir s) = torn_segs cs t →
  let r := mkRecovered (entries s) (offsets s) in
  ∃ buf, wd_segs (dir s) !! b = Some buf ∧
    recover_segment floor (length done) (bool_decide (length done = length cs - 1)%nat) buf r =
      Some (Ok (replayed floor (length done) es 0 r, length (log_bytes es))) ∧
    buf = log_bytes es ++ (if decide (todo = []) then t else []).
Proof using BL CL.
  intros Hcs Hc Hst Ht Hd r.
  assert (Forall storable es) as Hes.
  { rewrite Hcs, all_entries_app, all_entries_cons, !Forall_app in Hst. tauto. }
  rewrite Hd. destruct (decide (todo = [])) as [->|Hne].
  - exists (log_bytes es ++ t). rewrite Hcs in *. split_and!; [by eapply torn_segs_lookup_last| |done].
    rewrite bool_decide_true by (rewrite length_app; cbn; lia). by apply recover_segment_torn.
  - exists (log_bytes es). split_and!; [|by apply recover_segment_clean|by rewrite app_nil_r].
    rewrite Hcs in *. by eapply torn_segs_lookup_other.
Qed.

Lemma wp_recover_one floor cs done b es todo t s (Q : unit → FileLogStore → Prop) (C : waldir → Prop) :
  cs = done ++ (b, es) :: todo → chunks_from 0 cs → Forall storable (all_entries cs) → t = [] ∨ torn t →
  segments s = done.*1 → table floor done (mkRecovered (entries s) (offsets s)) →
  first_valid_index s = floor → wd_segs (dir s) = torn_segs cs t →
  C (dir s) → (∀ d', wd_segs d' = segs_of cs → wd_files d' = wd_files (dir s) → C d') →
  (∀ s', segments s' = (done ++ [(b, es)]).*1 →
     table floor (done ++ [(b, es)]) (mkRecovered (entries s') (offsets s')) →
     wd_segs (dir s') = (if decide (todo = []) then segs_of cs else torn_segs cs t) →
     C (dir s') → same_rest s s' → Q tt s') →
  wp (recover_one (length cs) (length done) b) s Q C.
Proof using BL CL.
  intros Hcs Hc Hst Ht Hsg Htab Hfl Hd HC HC' HQ.
  destruct (recover_one_replay floor _ _ _ _ _ t s Hcs Hc Hst Ht Hd) as (buf & Hb & Hrec & Hbuf).
  set (r := mkRecovered (entries s) (offsets s)) in *.
  assert (table floor (done ++ [(b, es)]) (replayed floor (length done) es 0 r)) as Htab'.
  { apply (table_replayed floor done b [] es 0); [|by apply table_empty_chunk].
    rewrite Hcs, cons_middle, (assoc_L (++)), chunks_from_app in Hc. tauto. }
  destruct (replayed floor (length done) es 0 r) as [ents offs].
  unfold recover_one. apply wp_bind, wp_gets. cbn [id]. apply wp_bind, wp_modify. cbn zeta.
  rewrite Hsg, Hfl, length_fmap, Hb. cbn [default]. unfold id. fold r. rewrite Hrec.
  apply wp_bind, wp_modify.
  destruct (decide (length (log_bytes es) < length buf)%nat) as [Hlt|Hnlt].
  - destruct (decide (todo = [])) as [->|Hne]; [|exfalso; rewrite Hbuf, app_nil_r in Hlt; lia].
    assert (segs_of cs = alter (resize (length (log_bytes es)) Byte.x00) b (wd_segs (dir s))) as Halt.
    { rewrite Hd, Hcs. rewrite Hcs in Hc. rewrite (torn_segs_snoc _ _ _ _ 0) by done.
      rewrite segs_of_snoc by by eapply chunks_from_NoDup. by rewrite alter_insert_eq, resize_app_all. }
    eapply (wp_call_atomic _ _ (mkWaldir (segs_of cs) (wd_files (dir s)))); [done| | |done|by apply HC'].
    + cbn. rewrite Hb. cbn. by rewrite Halt.
    + apply HQ; try done; [by rewrite fmap_app|by apply HC'].
  - apply wp_ret. apply HQ; try done; [by rewrite fmap_app|]. cbn. rewrite Hd.
    destruct (decide (todo = [])) as [->|]; [|done].
    assert (t = []) as -> by (apply nil_length_inv; rewrite Hbuf, length_app in Hnlt; lia).
    by rewrite (torn_segs_nil _ 0).
Qed.

(** The loop over the segment files. *)
Lemma wp_recover_all floor cs t todo done s (Q : unit → FileLogStore → Prop) (C : waldir → Prop) :
  cs = done ++ todo → chunks_from 0 cs → Forall storable (all_entries cs) → t = [] ∨ torn t →
  segments s = done.*1 → table floor done (mkRecovered (entries s) (offsets s)) →
  first_valid_index s = floor →
  wd_segs (dir s) = (if decide (todo = []) then segs_of cs else torn_segs cs t) →
  C (dir s) → (∀ d', wd_segs d' = segs_of cs → wd_files d' = wd_files (dir s) → C d') →
  (∀ s', cached floor cs s' → C (dir s') → same_rest s s' → Q tt s') →
  wp (recover_all (length cs) (length done) todo.*1) s Q C.
Proof using BL CL.
  revert done s. induction todo as [|[b es] todo IH]; intros done s Hcs Hc Hst Ht Hsg Htab Hfl Hd HC HC' HQ.
  { cbn. apply wp_ret. rewrite app_nil_r in Hcs. subst done. by apply HQ. }
  cbn [fmap list_fmap fst recover_all]. rewrite decide_False in Hd by done.
  apply wp_bind. eapply wp_recover_one; [done..|]. intros s1 Hsg1 Htab1 Hd1 HC1 Hr1.
  replace (S (length done)) with (length (done ++ [(b, es)])) by (rewrite length_app; cbn; lia).
  apply IH; try done; [by rewrite <-(assoc_L (++))|by rewrite (sr_floor _ _ Hr1)| |].
  - intros d' ? Hf. apply HC'; [done|]. by rewrite Hf, (sr_files _ _ Hr1).
  - intros s2 Hca HC2 Hr2. apply HQ; [done..|]. by eapply same_rest_trans.
Qed.

Lemma wp_recover d floor anchor trunc cs t s Q (C : waldir → Prop) :
  dir_ok d floor anchor trunc cs t → dir s = d → segments s = [] → entries s = ∅ → offsets s = ∅ →
  first_valid_index s = floor → active_writer s = None → active_segment_size s = 0 →
  (∀ d' t', dir_ok d' floor anchor trunc cs t' → C d') →
  (∀ s', cached floor cs s' → writing cs s' → dir_ok (dir s') floor anchor trunc cs [] →
     snapshot_anchor s' = snapshot_anchor s → max_segment_size s' = max_segment_size s → Q tt s') →
  wp recover s Q C.
Proof using BL CL.
  intros Hok Hd E1 E2 E3 E4 E5 E6 HC HQ. unfold recover. apply wp_bind, wp_gets. cbn zeta.
  rewrite Hd, (do_segs _ _ _ _ _ _ Hok). rewrite (torn_segs_keys _ _ 0) by apply Hok.
  rewrite length_fmap. apply wp_bind.
  apply (wp_recover_all floor cs t cs []); try done; try apply Hok.
  - rewrite E2, E3. apply table_empty.
  - rewrite Hd, (do_segs _ _ _ _ _ _ Hok). case_decide as Hn; [|done]. by subst.
  - rewrite Hd. by eapply HC.
  - intros d' Hs Hf. eapply (HC _ []), dir_ok_untorn; [done..|]. by rewrite Hf, Hd.
  - intros s1 Hc HC1 [A0 A1 A2 A3 A4 A5 Hf]. apply wp_bind, wp_gets.
    assert (dir_ok (dir s1) floor anchor trunc cs []) as Hok1.
    { eapply dir_ok_untorn; [done|apply Hc|]. by rewrite Hf, Hd. }
    destruct (last (segments s1)) as [b|] eqn:Hl.
    + eapply wp_reopen; [done..|]. intros s2 Hc2 Hw Hd2 B1 B2 B3 _. apply HQ; try done; congruence.
    + apply wp_ret. apply HQ; try done.
      rewrite (ca_segments _ _ _ Hc), fmap_last in Hl. unfold writing.
      destruct (last cs); [done|]. rewrite A1, A2. done.
Qed.
(** ** Append *)

Lemma open_values floor anchor cs s : open_ok floor anchor cs s → values (entries s) = live floor cs.
Proof.
  intros [[_ _ _ Hc Ht _] _ _ _ _ _ _ _]. by apply (table_values _ _ _ 0 Hc Ht).
Qed.

Lemma wp_persist_epochs s (Q : unit → FileLogStore → Prop) (C : waldir → Prop) lo es :
  epoch_starts s = rebuild_epoch_starts es → inc_from lo es → 1 ≤ lo → lo ≤ u64_max + 1 →
  Forall storable es →
  (∀ d', wd_segs d' = wd_segs (dir s) →
     (∀ floor anchor trunc, markers_ok (dir s) floor anchor trunc → markers_ok d' floor anchor trunc) →
     C d' ∧ Q tt (s <| dir := d' |>)) →
  wp persist_epoch_checkpoint s Q C.
Proof.
  intros He Hi H1 H2 Hst HQ. unfold persist_epoch_checkpoint. apply wp_bind, wp_gets.
  apply wp_persist_file; [unfold markers; rewrite !elem_of_cons; auto| |].
  - intros d' Hd'. apply HQ; [apply Hd'|]. intros floor anchor trunc. by apply markers_ok_same.
  - intros d' Hd'. apply HQ; [apply Hd'|]. intros floor anchor trunc Hm.
    eapply markers_epochs; [done| |done]. rewrite He. by apply (rebuild_loads lo).
Qed.

(** Creating a segment for index [i]. *)
Lemma wp_create_segment floor cs i s Q (C : waldir → Prop) :
  cached floor cs s → chunks_end 0 cs ≤ i → C (dir s) →
  (∀ s', cached floor (cs ++ [(i, [])]) s' → writing (cs ++ [(i, [])]) s' →
     wd_files (dir s') = wd_files (dir s) → epoch_starts s' = epoch_starts s →
     snapshot_anchor s' = snapshot_anchor s → max_segment_size s' = max_segment_size s →
     entries s' = entries s → C (dir s') ∧ Q tt s') →
  wp (create_segment i) s Q C.
Proof.
  intros Hc Hi HC HQ. unfold create_segment. apply wp_bind.
  assert (chunks_from 0 (cs ++ [(i, [])])) as Hcf.
  { apply chunks_from_app. split; [apply Hc|]. by split_and!. }
  set (d' := dir s <| wd_segs := segs_of (cs ++ [(i, [])]) |>).
  set (s' := s <| dir := d' |> <| segments := segments s ++ [i] |>
               <| active_writer := Some i |> <| active_segment_size := 0 |>).
  assert (cached floor (cs ++ [(i, [])]) s') as Hc'.
  { destruct Hc as [H1 H2 H3 H4 H5 H6]. split; try done.
    - cbn. by rewrite H1, fmap_app.
    - rewrite all_entries_snoc. by rewrite app_nil_r.
    - by apply table_empty_chunk. }
  destruct (HQ s') as [HC' HQ']; try done.
  { unfold writing. rewrite last_snoc. done. }
  eapply (wp_call_atomic _ _ d'); [done| | |done|done].
  - cbn. f_equal. unfold d'. rewrite (ca_files _ _ _ Hc).
    rewrite segs_of_snoc by by eapply chunks_from_NoDup.
    replace (segs_of cs !! i) with (@None bytes); [done|]. symmetry. apply eq_None_not_Some.
    pose proof (ca_chunks _ _ _ Hc) as H4.
    intros [c (es & Hin & _)%segs_of_lookup]; [|by eapply chunks_from_NoDup].
    destruct (chunks_from_base _ _ _ H4 Hin). cbn in *. lia.
  - apply wp_modify. done.
Qed.

(** Rotation and first-segment creation: afterwards the last segment takes the
    entry. *)
Definition takes (i : N) cs : Prop :=
  ∃ cs0 b es, cs = cs0 ++ [(b, es)] ∧ inc_from b es ∧ (∀ x, x ∈ es → e_index x < i) ∧ b ≤ i.

Lemma wp_ensure_segment floor cs i frame s (Q : unit → FileLogStore → Prop) (C : waldir → Prop) :
  cached floor cs s → writing cs s → (∀ c, c ∈ cs → c.1 ≤ i) →
  (∀ x, x ∈ all_entries cs → e_index x < i) → N.of_nat (length (frame : bytes)) ≤ max_segment_size s →
  C (dir s) →
  (∀ cs' s', cached floor cs' s' → writing cs' s' → takes i cs' → all_entries cs' = all_entries cs →
     (∀ c, c ∈ cs' → c.1 ≤ i) →
     wd_files (dir s') = wd_files (dir s) → epoch_starts s' = epoch_starts s →
     snapshot_anchor s' = snapshot_anchor s → max_segment_size s' = max_segment_size s →
     entries s' = entries s → C (dir s') ∧ Q tt s') →
  wp (ensure_segment i (length frame)) s Q C.
Proof.
  intros Hc Hw Hb Hlt Hfit HC HQ.
  assert (∀ s1, cached floor cs s1 → chunks_end 0 cs ≤ i → dir s1 = dir s → epoch_starts s1 = epoch_starts s →
    snapshot_anchor s1 = snapshot_anchor s → max_segment_size s1 = max_segment_size s →
    entries s1 = entries s →
    wp (create_segment i) s1 (λ _ s2, active_writer s2 = Some i ∧ Q tt s2) C) as Hcreate.
  { intros s1 Hc1 Hend E1 E2 E3 E4 E5. eapply wp_create_segment; [done..|by rewrite E1|].
    intros s2 Hc2 Hw2 F1 F2 F3 F4 F5.
    assert (active_writer s2 = Some i) as Hai.
    { destruct Hw2 as [-> _]. by rewrite last_snoc. }
    destruct (HQ (cs ++ [(i, [])]) s2) as [HC2 HQ2]; try done; try congruence.
    - exists cs, i, []. split_and!; [done|done|by intros x ?%not_elem_of_nil|done].
    - rewrite all_entries_snoc. by rewrite app_nil_r.
    - intros c [Hin|Hin]%elem_of_app; [by apply Hb|]. apply list_elem_of_singleton in Hin as ->. done. }
  destruct Hw as [Hw1 Hw2].
  assert (∀ cs0 b es, cs = cs0 ++ [(b, es)] → inc_from b es ∧ (∀ x, x ∈ es → e_index x < i) ∧ b ≤ i) as Hlast.
  { intros cs0 b es ->. split_and!.
    - pose proof (ca_chunks _ _ _ Hc) as [_ (_ & ? & _)]%chunks_from_app. done.
    - intros x Hx. apply Hlt. rewrite all_entries_snoc. apply elem_of_app. by right.
    - apply (Hb (b, es)). apply elem_of_app. right. by left. }
  unfold ensure_segment. apply wp_bind, wp_gets. apply wp_bind.
  destruct (should_rotate (length frame) s) eqn:Hrot.
  - unfold should_rotate in Hrot. apply andb_true_iff in Hrot as [Hr1%bool_decide_eq_true Hr2%bool_decide_eq_true].
    rewrite Hw1 in Hr1. rewrite Hw2 in Hr2.
    destruct cs as [|[b es] cs0 _] using rev_ind; [by destruct Hr1|].
    rewrite last_snoc in Hr2. cbn [snd] in Hr2.
    destruct (Hlast cs0 b es eq_refl) as (Hes & Hx & Hbi).
    assert (chunks_end 0 (cs0 ++ [(b, es)]) ≤ i) as Hend.
    { rewrite chunks_end_app. cbn. unfold chunk_end. destruct (last es) as [x|] eqn:Hl.
      - apply last_Some_elem_of in Hl. specialize (Hx _ Hl). lia.
      - apply last_None in Hl as ->. change (length (log_bytes [])) with 0%nat in Hr2. lia. }
    unfold rotate_segment. apply wp_bind, wp_gets. rewrite Hw1, last_snoc. cbn [fmap option_fmap option_map fst].
    apply wp_bind. eapply (wp_call_atomic _ _ (dir s)); [done|reflexivity| |done..].
    apply wp_bind, wp_modify. eapply wp_conseq; [apply Hcreate; try done| |done].
    { eapply cached_same; [exact Hc|done..]. }
    intros ? s2 [Hai HQ2]. apply wp_bind, wp_gets. rewrite Hai. by apply wp_ret.
  - apply wp_ret. apply wp_bind, wp_gets. rewrite Hw1.
    destruct cs as [|[b es] cs0 _] using rev_ind; cbn [last fmap option_fmap option_map].
    + eapply wp_conseq; [apply Hcreate; try done; cbn; lia| |done]. by intros [] s2 [_ ?].
    + rewrite last_snoc. cbn. apply wp_ret.
      destruct (HQ (cs0 ++ [(b, es)]) s) as [_ ?]; try done.
      exists cs0, b, es. split; [done|]. by apply (Hlast cs0).
Qed.

Lemma frame_nonempty es : Forall storable es → log_bytes es = [] → es = [].
Proof.
  intros Hs Hl. destruct es as [|e es]; [done|]. apply Forall_cons in Hs as [He _].
  pose proof (frame_bytes_length e He). rewrite log_bytes_cons in Hl.
  apply (f_equal length) in Hl. rewrite length_app in Hl. cbn in Hl. lia.
Qed.

Lemma log_bytes_snoc es e : log_bytes (es ++ [e]) = log_bytes es ++ frame_bytes e.
Proof. rewrite log_bytes_app. f_equal. unfold log_bytes. cbn. by rewrite app_nil_r. Qed.

(** The layout with [e] added to its last segment. *)
Lemma grown floor cs0 b es e l :
  chunks_from 0 (cs0 ++ [(b, es)]) → Forall storable (all_entries (cs0 ++ [(b, es)])) →
  live floor (cs0 ++ [(b, es)]) = l → log_from floor (l ++ [e]) → storable e →
  inc_from b es → (∀ x, x ∈ es → e_index x < e_index e) → b ≤ e_index e →
  chunks_from 0 (cs0 ++ [(b, es ++ [e])]) ∧ Forall storable (all_entries (cs0 ++ [(b, es ++ [e])])) ∧
  live floor (cs0 ++ [(b, es ++ [e])]) = l ++ [e] ∧
  e_index e = next_index floor l.
Proof.
  intros Hc Hst Hl Hlog He Hes Hx Hb.
  assert (e_index e = next_index floor l) as Hidx by by apply log_from_snoc_index.
  apply chunks_from_app in Hc as [Hc (Hlo & _)]. split_and!; [| | |done].
  - apply chunks_from_app. split; [done|]. split_and!; [done| |done].
    apply inc_from_app. split; [done|]. destruct (last es) as [y|] eqn:Hy; cbn; (split; [|done]).
    + apply last_Some_elem_of in Hy. specialize (Hx _ Hy). lia.
    + done.
  - rewrite all_entries_snoc in Hst |- *. rewrite (assoc_L (++)). apply Forall_app. split; [done|]. by constructor.
  - rewrite <-Hl. unfold live. rewrite !all_entries_snoc, (assoc_L (++)), filter_app. f_equal.
    rewrite filter_cons_True; [done|]. rewrite Hidx. unfold next_index. lia.
Qed.

(** ** One more frame *)

Section Frame.
Context {floor : N} {anchor : option (N * N)} {cs0 : list chunk} {b : N} {es : list Entry} {e : Entry} {l : list Entry}.
#[local] Abbreviation before := (cs0 ++ [(b, es)]).
#[local] Abbreviation after := (cs0 ++ [(b, es ++ [e])]).
Context (Hl : live floor before = l) (Hlog0 : log_from floor l) (Hlog : log_from floor (l ++ [e])) (He : storable e)
  (Hes : inc_from b es) (Hx : ∀ x, x ∈ es → e_index x < e_index e) (Hbi : b ≤ e_index e)
  (Hb : ∀ c, c ∈ before → c.1 ≤ e_index e) (Hu : u64 floor).

(** While the frame is being written the log is still the old one. *)
Lemma append_torn_recoverable d t :
  chunks_from 0 before → Forall storable (all_entries before) →
  wd_segs d = torn_segs before t → t = [] ∨ torn t → markers_ok d floor anchor None → recoverable floor anchor l d.
Proof using Hl Hlog0 Hlog Hb Hu.
  intros Hc Hst Hd Ht Hm. rewrite <-Hl. apply (recoverable_open _ _ _ _ t), dir_ok_open; try done; rewrite Hl; [done|].
  intros c Hin. rewrite <-(log_from_snoc_index _ _ _ Hlog). by apply Hb.
Qed.

Lemma after_bases c : c ∈ after → c.1 ≤ next_index floor (l ++ [e]).
Proof using Hlog Hb Hbi.
  intros Hin. rewrite next_index_snoc, <-(log_from_snoc_index _ _ _ Hlog).
  assert (c.1 ≤ e_index e); [|lia]. apply elem_of_app in Hin as [Hin|Hin].
  - apply Hb, elem_of_app. by left.
  - by apply list_elem_of_singleton in Hin as ->.
Qed.

(** Once it is there the entry is in. *)
Lemma append_full_recoverable d :
  chunks_from 0 before → Forall storable (all_entries before) →
  wd_segs d = segs_of after → markers_ok d floor anchor None → recoverable floor anchor (l ++ [e]) d.
Proof using Hl Hlog He Hes Hx Hbi Hb Hu.
  intros Hc Hst Hd Hm. destruct (grown floor cs0 b es e l) as (Hg1 & Hg2 & Hg3 & _); try done.
  rewrite <-Hg3. apply (recoverable_open _ _ _ _ []), dir_ok_open; try done; rewrite ?Hg3; try done.
  - by rewrite (torn_segs_nil _ 0).
  - by left.
  - apply after_bases.
Qed.

Lemma append_files s data :
  cached floor before s → alter (λ c, c ++ data) b (wd_segs (dir s)) = torn_segs before data.
Proof.
  intros Hc. rewrite (ca_files _ _ _ Hc), (torn_segs_snoc _ _ _ _ 0) by apply Hc.
  rewrite segs_of_snoc by (eapply chunks_from_NoDup, Hc). by rewrite alter_insert_eq.
Qed.
Lemma torn_segs_full : chunks_from 0 before → chunks_from 0 after → torn_segs before (frame_bytes e) = segs_of after.
Proof.
  intros Hc1 Hc2. rewrite (torn_segs_snoc _ _ _ _ 0) by done.
  rewrite segs_of_snoc by by eapply chunks_from_NoDup. by rewrite log_bytes_snoc.
Qed.

(** The store after the frame is written and noted. *)
Definition noted s (d : waldir) : FileLogStore :=
  s <| dir := d |> <| active_segment_size := active_segment_size s + N.of_nat (length (frame_bytes e)) |>
    <| entries := <[e_index e := e]> (entries s) |>
    <| offsets := <[e_index e := (length cs0, N.of_nat (length (log_bytes es)))]> (offsets s) |>
    <| epoch_starts := note_epoch (epoch_starts s) e |>.

Lemma noted_open s d :
  cached floor before s → writing before s → epoch_starts s = rebuild_epoch_starts l → snapshot_anchor s = anchor →
  wd_segs d = segs_of after → markers_ok d floor anchor None → open_ok floor anchor after (noted s d).
Proof using Hl Hlog0 Hlog He Hes Hx Hbi Hb Hu.
  intros Hc [Hw1 Hw2] Hep Han Hd Hm.
  destruct (grown floor cs0 b es e l) as (Hg1 & Hg2 & Hg3 & Hidx); try done; try apply Hc.
  assert (cached floor after (noted s d)) as Hc2.
  { split; try done.
    - change (segments (noted s d)) with (segments s). rewrite (ca_segments _ _ _ Hc). by rewrite !fmap_app.
    - pose proof (table_note floor cs0 b es e _ (ca_table _ _ _ Hc)) as Ht.
      unfold note_frame in Ht. rewrite decide_True in Ht by (rewrite Hidx; unfold next_index; lia).
      apply Ht. intros x Hin. rewrite Hidx. subst l. by apply entries_below.
    - apply Hc. }
  assert (values (entries (noted s d)) = l ++ [e]) as Hval.
  { rewrite <-Hg3. by apply (table_values _ _ _ 0 Hg1 (ca_table _ _ _ Hc2)). }
  split; try done; rewrite ?Hg3; try done.
  - rewrite last_snoc in Hw1, Hw2. split; rewrite last_snoc; [done|].
    cbn -[frame_bytes log_bytes]. rewrite Hw2. cbn -[frame_bytes log_bytes]. rewrite log_bytes_snoc, length_app. lia.
  - rewrite Hval. cbn -[note_epoch]. rewrite Hep. unfold rebuild_epoch_starts. by rewrite foldl_app.
  - apply after_bases.
Qed.

(** From the write of the frame on. *)
Lemma wp_append_frame s (Q : unit → FileLogStore → Prop) (C : waldir → Prop) :
  cached floor before s → writing before s → epoch_starts s = rebuild_epoch_starts l → snapshot_anchor s = anchor →
  markers_ok (dir s) floor anchor None →
  (∀ d, recoverable floor anchor l d ∨ recoverable floor anchor (l ++ [e]) d → C d) →
  (∀ d, open_ok floor anchor after (noted s d) → Q tt (noted s d)) →
  wp (let offset := active_segment_size s in
      let seg_idx := (length (segments s) - 1)%nat in
      seq! call (SegWrite b (frame_bytes e)) in
      let new_epoch_seen := bool_decide (epoch_starts s !! e_term e = None) in
      seq! modify (λ s, s <| active_segment_size := active_segment_size s + N.of_nat (length (frame_bytes e)) |>
                        <| entries := <[e_index e := e]> (entries s) |>
                        <| offsets := <[e_index e := (seg_idx, offset)]> (offsets s) |>
                        <| epoch_starts := note_epoch (epoch_starts s) e |>) in
      if new_epoch_seen then persist_epoch_checkpoint else io_ret tt) s Q C.
Proof using Hl Hlog0 Hlog He Hes Hx Hbi Hb Hu.
  intros Hc Hw Hep Han Hm HC HQ. pose proof (ca_chunks _ _ _ Hc) as Hc1. pose proof (ca_storable _ _ _ Hc) as Hst1.
  destruct (grown floor cs0 b es e l) as (Hg1 & Hg2 & Hg3 & _); try done.
  assert (∀ d, wd_files d = wd_files (dir s) → markers_ok d floor anchor None) as Hmk
    by (intros d ?; by eapply same_files_markers).
  cbn zeta. apply wp_bind. eapply wp_call; [reflexivity| |].
  2:{ intros cut. cbn -[frame_bytes]. apply HC. destruct (decide (length (frame_bytes e) ≤ cut)%nat).
      - rewrite take_ge by done. right. apply append_full_recoverable; [done..| |by apply Hmk]. cbn.
        rewrite (append_files _ _ Hc). by apply torn_segs_full.
      - left. apply (append_torn_recoverable _ (take cut (frame_bytes e))); [done..|cbn; by apply append_files| |by apply Hmk].
        right. exists e, cut. split_and!; [done|lia|done]. }
  apply wp_bind, wp_modify. rewrite (ca_segments _ _ _ Hc), length_fmap, (proj2 Hw), last_snoc, length_app.
  cbn [length fmap option_fmap option_map snd]. rewrite Nat.add_sub.
  match goal with |- context [with_dir ?d s] => set (d1 := d) | |- context [s <| dir := ?d |>] => set (d1 := d) end.
  assert (wd_segs d1 = segs_of after) as Hs1.
  { unfold d1. change (wd_segs _) with (alter (λ c, c ++ frame_bytes e) b (wd_segs (dir s))).
    rewrite (append_files _ _ Hc). by apply torn_segs_full. }
  assert (∀ d, wd_segs d = wd_segs d1 → markers_ok d floor anchor None → C d ∧ Q tt (noted s d)) as Hend.
  { intros d Hd Hmd. rewrite Hs1 in Hd. split; [apply HC; right; by apply append_full_recoverable|].
    by apply HQ, noted_open. }
  assert (markers_ok d1 floor anchor None) as Hm1 by by apply Hmk.
  destruct (bool_decide _).
  - eapply (wp_persist_epochs (noted s d1) _ _ (floor + 1) (l ++ [e])); [| | | | |].
    + cbn -[note_epoch]. rewrite Hep. unfold rebuild_epoch_starts. by rewrite foldl_app.
    + rewrite <-Hg3. by apply live_inc.
    + lia.
    + unfold u64 in Hu. lia.
    + rewrite <-Hg3. by apply live_storable.
    + intros d' Hd' Hmm. apply Hend; [done|]. by apply Hmm.
  - apply wp_ret. by apply (Hend d1).
Qed.
End Frame.

(** Appending one admissible entry. *)
Lemma wp_append_one floor anchor cs e s (Q : unit → FileLogStore → Prop) (C : waldir → Prop) :
  let l := live floor cs in
  open_ok floor anchor cs s → storable e → log_from floor (l ++ [e]) →
  N.of_nat (length (frame_bytes e)) ≤ max_segment_size s →
  (∀ d, recoverable floor anchor l d ∨ recoverable floor anchor (l ++ [e]) d → C d) →
  (∀ cs' s', open_ok floor anchor cs' s' → live floor cs' = l ++ [e] →
     max_segment_size s' = max_segment_size s → Q tt s') →
  wp (append_one e) s Q C.
Proof using BL CL.
  intros l Hok He Hlog Hfit HC HQ. unfold append_one.
  pose proof (open_values _ _ _ _ Hok) as Hval. pose proof (open_recoverable _ _ _ _ Hok) as Hrec.
  assert (is_marker e = false) as -> by apply He. rewrite (frame_bytes_Some e He).
  assert (e_index e = next_index floor l) as Hidx by by apply log_from_snoc_index.
  destruct Hok as [Hca Hw Hm Hep Han Hl Hb Hu].
  apply wp_bind. eapply (wp_ensure_segment floor cs); try done.
  - intros c Hin. rewrite Hidx. by apply Hb.
  - intros x Hin. rewrite Hidx. by apply entries_below.
  - apply HC. by left.
  - intros cs1 s1 Hc1 Hw1 (cs0 & b & es & -> & Hes & Hx & Hbi) Hall Hb1 Hf1 He1 Ha1 Hmax1 Hen1.
    assert (live floor (cs0 ++ [(b, es)]) = l) as Hl1 by (unfold l, live; by rewrite Hall).
    assert (markers_ok (dir s1) floor anchor None) as Hm1 by by eapply same_files_markers.
    destruct (grown floor cs0 b es e l) as (_ & _ & Hg3 & _); try done; try apply Hc1. split.
    { apply HC. left. apply (append_torn_recoverable Hl1 Hl Hlog Hb1 Hu _ []); try done; try apply Hc1; [|by left].
      rewrite (torn_segs_nil _ 0); apply Hc1. }
    apply wp_bind, wp_gets. change (id s1) with s1. rewrite (proj1 Hw1), last_snoc. cbn [fmap option_fmap option_map fst].
    eapply (wp_append_frame Hl1 Hl Hlog He Hes Hx Hbi Hb1 Hu s1 Q C); [done|done|by rewrite He1, Hep, Hval|by rewrite Ha1|done|done|].
    intros d Hopen. by apply (HQ (cs0 ++ [(b, es ++ [e])])).
Qed.
End Ops.
