(* ===== verification/FileLogTrunc.v ===== *)
(** * Suffix truncation of the durable log store

    [truncate_from] under faults: it cuts the layout at the first live entry
    at or above the index, and wherever it is interrupted the truncation
    marker makes the next [open] finish it. *)

From S2P Require Import Prelude CoreTypes Message Text BTree Bytes LogStore EpochFile WalCodec DirIo FileLog FileLogWp FileLogLayout FileLogState FileLogOps.

Section Trunc.
Context {MA : MembershipApi} {BV : Bincode VoterSet} {CR : Crc32}.
#[local] Open Scope io_scope.
Implicit Types (s : FileLogStore) (cs : list chunk) (d : waldir).

(** What survives a truncation from [index]. *)
Definition cut (index : N) (l : list Entry) : list Entry := filter (λ e, e_index e < index) l.

Lemma filter_iff {A} (P Q : A → Prop) `{∀ x, Decision (P x), ∀ x, Decision (Q x)} (l : list A) :
  (∀ x, x ∈ l → P x ↔ Q x) → filter P l = filter Q l.
Proof.
  induction l as [|x l IH]; [done|]. intros HPQ. rewrite !filter_cons.
  assert (filter P l = filter Q l) as -> by (apply IH; intros y Hy; apply HPQ; by right).
  assert (P x ↔ Q x) as Hx by (apply HPQ; by left).
  destruct (decide (P x)), (decide (Q x)); tauto.
Qed.

(** A log is cut at its own next index. *)
Lemma log_cut floor l index :
  log_from floor l → cut index l = l ∨ ∃ e, e ∈ l ∧ e_index e = next_index floor (cut index l).
Proof.
  unfold log_from, next_index, cut. revert floor. generalize 0 at 1. induction l as [|x l IH]; intros t floor; [by left|].
  intros (Hi & Ht & Hl). rewrite filter_cons. case_decide as Hx.
  - replace (floor + 1 + 1) with ((floor + 1) + 1) in Hl by lia.
    destruct (IH _ _ Hl) as [->|(e & He & Hei)]; [by left|]. right. exists e. split; [by right|].
    cbn [length]. lia.
  - right. exists x. split; [by left|]. rewrite filter_nothing; [cbn; lia|].
    intros y Hy. destruct (contig_from_bounds _ _ _ _ Hl Hy). lia.
Qed.

Lemma log_from_cut floor l index : log_from floor l → log_from floor (cut index l).
Proof. apply contig_from_truncate. Qed.

(** In a log behind the floor every index up to the next one occurs. *)
Lemma log_from_covers floor l i :
  log_from floor l → floor < i → i < next_index floor l → ∃ e, e ∈ l ∧ e_index e = i.
Proof.
  unfold log_from, next_index. revert floor. generalize 0 at 1. induction l as [|x l IH]; intros t floor.
  { cbn. lia. }
  intros (Hi & Ht & Hl) Hf Hlt. destruct (decide (i = floor + 1)) as [->|Hne].
  { exists x. split; [by left|done]. }
  destruct (IH _ (floor + 1) Hl) as (e & He & Hei); [lia|cbn in Hlt; lia|].
  exists e. split; [by right|done].
Qed.

(** A truncation marker stands for the cut. *)
Lemma kept_cut index l :
  (∀ e, e ∈ l → 0 < e_index e) → kept (Some (index - 1)) l = cut index l.
Proof. intros Hl. apply filter_iff. intros e He. specialize (Hl e He). lia. Qed.

Lemma bases_ok_cut floor cs index :
  log_from floor (live floor cs) → (∀ c, c ∈ cs → c.1 ≤ next_index floor (live floor cs)) →
  bases_ok floor cs (cut index (live floor cs)).
Proof.
  intros Hl Hb. destruct (log_cut floor _ index Hl) as [->|(e & He & Hei)]; [by right|].
  left. exists e. split; [|done]. apply elem_of_live in He. by destruct He.
Qed.

(** ** The cut of a layout *)

(** [cs] with the first entry to remove, [e], at [at_pos]. *)
Record cut_at (floor index : N) cs cs1 b es1 e es2 cs2 : Prop := {
  cu_layout : cs = cs1 ++ (b, es1 ++ e :: es2) :: cs2;
  cu_live : floor < e_index e;
  cu_index : index ≤ e_index e;
  cu_least : ∀ x, x ∈ all_entries cs → floor < e_index x → index ≤ e_index x → e_index e ≤ e_index x;
}.

Definition cut_layout cs1 b es1 : list chunk := cs1 ++ (match es1 with [] => [] | _ => [(b, es1)] end).

Lemma cut_layout_subset cs1 b es1 (c : chunk) : c ∈ cut_layout cs1 b es1 → c ∈ cs1 ++ [(b, es1)].
Proof.
  unfold cut_layout. destruct es1; [|done]. rewrite app_nil_r. intros ?. apply elem_of_app. by left.
Qed.

Lemma cut_all_entries cs1 b es1 : all_entries (cut_layout cs1 b es1) = all_entries cs1 ++ es1.
Proof.
  unfold cut_layout. destruct es1 as [|x es1]; [by rewrite !app_nil_r|]. by rewrite all_entries_snoc.
Qed.

Section Cut.
Context {floor index : N} {cs cs1 : list chunk} {b : N} {es1 : list Entry} {e : Entry}
  {es2 : list Entry} {cs2 : list chunk}.
Context (Hcut : cut_at floor index cs cs1 b es1 e es2 cs2) (Hc : chunks_from 0 cs).

Lemma cut_split : all_entries cs = (all_entries cs1 ++ es1) ++ e :: es2 ++ all_entries cs2.
Proof using Hcut.
  rewrite (cu_layout _ _ _ _ _ _ _ _ _ Hcut), all_entries_app, all_entries_cons.
  by rewrite <-!(assoc_L (++)).
Qed.

Lemma cut_order x :
  (x ∈ all_entries cs1 ++ es1 → e_index x < e_index e) ∧
  (x ∈ es2 ++ all_entries cs2 → e_index e < e_index x).
Proof using Hcut Hc.
  pose proof (chunks_from_inc _ _ Hc) as Hi. rewrite cut_split in Hi.
  by apply (inc_from_before _ _ _ _ x Hi).
Qed.

(** Before the cut and live is below the index and live. *)
Lemma cut_below x :
  x ∈ all_entries cs → floor < e_index x → e_index x < index ↔ x ∈ all_entries cs1 ++ es1.
Proof using Hcut Hc.
  intros Hin Hf. split.
  - intros Hlt. rewrite cut_split in Hin. apply elem_of_app in Hin as [?|[->|Hin]%elem_of_cons]; [done|..].
    + pose proof (cu_index _ _ _ _ _ _ _ _ _ Hcut). lia.
    + destruct (cut_order x) as [_ Ho]. specialize (Ho Hin).
      pose proof (cu_index _ _ _ _ _ _ _ _ _ Hcut). lia.
  - intros Hx. destruct (cut_order x) as [Ho _]. specialize (Ho Hx).
    destruct (decide (index ≤ e_index x)); [|lia].
    pose proof (cu_least _ _ _ _ _ _ _ _ _ Hcut x Hin Hf). lia.
Qed.

Lemma cut_live : cut index (live floor cs) = filter (λ x, floor < e_index x) (all_entries cs1 ++ es1).
Proof using Hcut Hc.
  unfold cut, live. rewrite list_filter_filter. rewrite cut_split at 1.
  pose proof (cu_index _ _ _ _ _ _ _ _ _ Hcut) as Hi.
  rewrite filter_app, (filter_nothing _ (e :: es2 ++ all_entries cs2)), app_nil_r.
  - apply filter_iff. intros x Hx. split; [tauto|]. intros Hf.
    assert (x ∈ all_entries cs) as Hin by (rewrite cut_split; apply elem_of_app; by left).
    assert (e_index x < index) by by apply cut_below. tauto.
  - intros x [->|Hx]%elem_of_cons; [lia|]. destruct (cut_order x) as [_ Ho]. specialize (Ho Hx). lia.
Qed.

(** Dropping segments behind the cut changes nothing that a truncation keeps. *)
Lemma cut_drop q :
  suffix q cs2 → chunks_from 0 (cs1 ++ (b, es1 ++ e :: es2) :: q) ∧
  (∀ x, x ∈ all_entries (cs1 ++ (b, es1 ++ e :: es2) :: q) → x ∈ all_entries cs) ∧
  cut_at floor index (cs1 ++ (b, es1 ++ e :: es2) :: q) cs1 b es1 e es2 q.
Proof using Hcut Hc.
  intros [p ->]. destruct Hcut as [-> H2 H3 H4].
  assert (∀ x, x ∈ all_entries (cs1 ++ (b, es1 ++ e :: es2) :: q) →
    x ∈ all_entries (cs1 ++ (b, es1 ++ e :: es2) :: p ++ q)) as Hsub.
  { intros x. rewrite !all_entries_app, !all_entries_cons, !all_entries_app, !elem_of_app. tauto. }
  split_and!; [|done|split; auto].
  pose proof (chunks_from_remove 0 (cs1 ++ [(b, es1 ++ e :: es2)]) p q) as Hr.
  rewrite <-!(assoc_L (++)) in Hr. by apply Hr.
Qed.

(** The cut layout. *)
Lemma cut_chunks : chunks_from 0 (cs1 ++ [(b, es1)]) ∧ chunks_from 0 (cut_layout cs1 b es1).
Proof using Hcut Hc.
  assert (chunks_from 0 (cs1 ++ [(b, es1)])) as H1.
  { pose proof Hc as H. rewrite (cu_layout _ _ _ _ _ _ _ _ _ Hcut) in H.
    apply chunks_from_app in H as (H1 & H2 & H3 & _). apply chunks_from_app.
    split; [done|]. split_and!; [done| |done]. by apply inc_from_app in H3 as [? _]. }
  split; [done|]. unfold cut_layout. destruct es1; [|done]. rewrite app_nil_r.
  by apply chunks_from_app in H1 as [? _].
Qed.
Lemma cut_storable : Forall storable (all_entries cs) → Forall storable (all_entries cs1 ++ es1).
Proof using Hcut. rewrite cut_split, Forall_app. tauto. Qed.

Lemma cut_bases c : c ∈ cs1 ++ [(b, es1)] → c.1 ≤ e_index e.
Proof using Hcut Hc.
  pose proof Hc as H. rewrite (cu_layout _ _ _ _ _ _ _ _ _ Hcut) in H.
  apply chunks_from_app in H as (H1 & H2 & H3 & _).
  assert (b ≤ e_index e) as Hb.
  { eapply inc_from_ge; [exact H3|]. apply elem_of_app. right. by left. }
  intros [Hin|Hin]%elem_of_app.
  - destruct (chunks_from_base _ _ _ H1 Hin). lia.
  - by apply list_elem_of_singleton in Hin as ->.
Qed.

(** If the kept log is contiguous, the cut is at its next index. *)
Lemma cut_next :
  log_from floor (cut index (live floor cs)) → bases_ok floor cs (cut index (live floor cs)) →
  (e_index e = next_index floor (cut index (live floor cs)) ∨
    ∀ c, c ∈ cs → c.1 ≤ next_index floor (cut index (live floor cs))).
Proof using Hcut Hc.
  intros Hlog [(x & Hx & Hxi)|Hb]; [left|by right].
  set (l := cut index (live floor cs)) in *.
  assert (¬ e_index x < index) as Hxn.
  { intros Hlt. assert (x ∈ l) as Hin.
    { apply list_elem_of_filter. split; [done|]. apply elem_of_live. split; [done|].
      rewrite Hxi. unfold next_index. lia. }
    pose proof (log_from_below _ _ _ Hlog Hin). lia. }
  pose proof (cu_least _ _ _ _ _ _ _ _ _ Hcut x Hx) as Hle.
  rewrite Hxi in Hle, Hxn. unfold next_index in Hle, Hxn.
  destruct (decide (e_index e < next_index floor l)) as [Hlt|]; [exfalso|unfold next_index in *; lia].
  destruct (log_from_covers floor l (e_index e) Hlog) as (y & Hy & Hye); [apply Hcut|done|].
  apply list_elem_of_filter in Hy as [Hy _]. pose proof (cu_index _ _ _ _ _ _ _ _ _ Hcut). lia.
Qed.

Lemma cut_bases_next l c :
  cut index (live floor cs) = l → log_from floor l → bases_ok floor cs l →
  c ∈ cs1 ++ [(b, es1)] → c.1 ≤ next_index floor l.
Proof using Hcut Hc.
  intros <- Hlog Hb Hin. destruct (cut_next Hlog Hb) as [Hn|Hn].
  - pose proof (cut_bases _ Hin). lia.
  - pose proof (cu_layout _ _ _ _ _ _ _ _ _ Hcut) as Hcs. apply elem_of_app in Hin as [Hin|Hin].
    + apply Hn. rewrite Hcs. apply elem_of_app. by left.
    + apply list_elem_of_singleton in Hin as ->. apply (Hn (b, es1 ++ e :: es2)).
      rewrite Hcs. apply elem_of_app. right. by left.
Qed.
(** The tables after the caches are filtered. *)
Lemma cut_table ents offs :
  table floor cs (mkRecovered ents offs) →
  table floor (cut_layout cs1 b es1)
    (mkRecovered (filter (λ p, ¬ index ≤ p.1) ents)
                 (filter (λ p, ¬ (index ≤ p.1 ∧ is_Some (ents !! p.1))) offs)).
Proof using Hcut Hc.
  intros [He Ho]. cbn in He, Ho.
  assert (∀ p x, at_pos (cut_layout cs1 b es1) p x ↔ at_pos cs p x ∧ e_index x < e_index e) as Hpos.
  { intros p x. pose proof Hc as H. rewrite (cu_layout _ _ _ _ _ _ _ _ _ Hcut) in H |- *.
    rewrite <-(at_pos_cut _ _ _ _ _ _ _ _ _ H). unfold cut_layout.
    destruct es1; [|done]. by rewrite app_nil_r, at_pos_empty_chunk. }
  split; cbn; intros i x; rewrite map_lookup_filter_Some; cbn.
  - rewrite He, cut_all_entries. split.
    + intros ((Hi & <- & Hx) & Hlt). split_and!; [done|done|]. apply cut_below; [done|done|lia].
    + intros (Hi & <- & Hx). assert (x ∈ all_entries cs) as Hin.
      { rewrite cut_split. apply elem_of_app. by left. }
      split_and!; [done|done|done|]. apply cut_below in Hx; [lia|done|done].
  - rewrite Ho. split.
    + intros ((Hi & y & <- & Hp) & Hn). split; [done|]. exists y. split; [done|].
      apply Hpos. split; [done|]. pose proof (at_pos_entry _ _ _ Hp) as Hin.
      assert (¬ index ≤ e_index y) as Hlt.
      { intros Hge. apply Hn. split; [done|]. exists y. by apply He. }
      apply cut_order. apply cut_below; [done|done|lia].
    + intros (Hi & y & <- & Hp). apply Hpos in Hp as [Hp Hlt].
      pose proof (at_pos_entry _ _ _ Hp) as Hin. split; [by eauto|]. intros [Hge _].
      pose proof (cu_least _ _ _ _ _ _ _ _ _ Hcut y Hin Hi Hge). lia.
Qed.

End Cut.

(** ** [truncate_from] *)

(** A directory in the middle of a truncation, its marker on disk. *)
Lemma mid_recoverable floor anchor index cs d l :
  u64 index → u64 floor → wd_segs d = segs_of cs → chunks_from 0 cs → Forall storable (all_entries cs) →
  markers_ok d floor anchor (Some (index - 1)) → cut index (live floor cs) = l →
  log_from floor l → bases_ok floor cs l → recoverable floor anchor l d.
Proof.
  intros Hu Huf Hd Hc Hst Hm Hl Hlog Hb.
  assert (kept (Some (index - 1)) (live floor cs) = l) as Hk.
  { rewrite kept_cut; [done|]. intros e [_ He]%elem_of_live. lia. }
  exists (Some (index - 1)), cs, []. split; [|done]. split; try done.
  - by rewrite (torn_segs_nil _ 0).
  - by left.
  - intros x [= <-]. unfold u64, u64_max in *. lia.
  - by rewrite Hk.
  - by rewrite Hk.
Qed.

Lemma cut_files cs1 b es1 x lo :
  chunks_from lo (cs1 ++ [(b, es1 ++ x)]) → chunks_from lo (cs1 ++ [(b, es1)]) →
  alter (resize (length (log_bytes es1)) Byte.x00) b (segs_of (cs1 ++ [(b, es1 ++ x)])) = segs_of (cs1 ++ [(b, es1)]).
Proof.
  intros H1 H2. rewrite !segs_of_snoc by by eapply chunks_from_NoDup.
  rewrite alter_insert_eq, log_bytes_app. by rewrite resize_app_all.
Qed.

(** ** A truncation under way *)

Section Run.
Context {floor : N} {anchor : option (N * N)} {index : N} {cs cs1 : list chunk} {b : N} {es1 : list Entry}
  {e : Entry} {es2 : list Entry} {cs2 : list chunk} {l : list Entry}.
Context (Hcut : cut_at floor index cs cs1 b es1 e es2 cs2) (Hc : chunks_from 0 cs)
  (Hst : Forall storable (all_entries cs)) (Hu : u64 index) (Huf : u64 floor)
  (Hl : cut index (live floor cs) = l) (Hlog : log_from floor l) (Hb : bases_ok floor cs l).

Lemma cut_layout_live : live floor (cut_layout cs1 b es1) = l.
Proof using Hcut Hc Hl. unfold live. rewrite cut_all_entries, <-Hl. by rewrite (cut_live Hcut Hc). Qed.

(** Some of the segments behind the boundary are gone. *)
Lemma tail_recoverable q d :
  suffix q cs2 → wd_segs d = segs_of (cs1 ++ (b, es1 ++ e :: es2) :: q) →
  markers_ok d floor anchor (Some (index - 1)) → recoverable floor anchor l d.
Proof using Hcut Hc Hst Hu Huf Hl Hlog Hb.
  intros Hq Hdq Hm. destruct (cut_drop Hcut Hc q Hq) as (Hcq & Hsub & Hcutq).
  eapply (mid_recoverable _ _ index (cs1 ++ (b, es1 ++ e :: es2) :: q)); try done.
  - rewrite Forall_forall in Hst |- *. auto.
  - rewrite <-Hl, (cut_live Hcut Hc). by apply (cut_live Hcutq Hcq).
  - subst l. destruct (cut_next Hcut Hc Hlog Hb) as [Hn|Hn].
    + left. exists e. split; [|done]. rewrite all_entries_app, all_entries_cons, !elem_of_app, elem_of_cons. auto.
    + right. intros c Hin. apply Hn. rewrite (cu_layout _ _ _ _ _ _ _ _ _ Hcut).
      destruct Hq as [p ->]. rewrite !elem_of_app, !elem_of_cons, elem_of_app in *. tauto.
Qed.

(** They all are, and the boundary is cut; its file may be empty or gone. *)
Lemma boundary_recoverable csx d trunc :
  csx = cs1 ++ [(b, es1)] ∨ csx = cut_layout cs1 b es1 → wd_segs d = segs_of csx →
  trunc = None ∨ trunc = Some (index - 1) → markers_ok d floor anchor trunc → recoverable floor anchor l d.
Proof using Hcut Hc Hst Hu Huf Hl Hlog Hb.
  intros Hcsx Hdx Htr Hmx. destruct (cut_chunks Hcut Hc) as [Hc1 Hc2].
  assert (all_entries csx = all_entries cs1 ++ es1 ∧ chunks_from 0 csx) as [Hall Hcx].
  { destruct Hcsx as [->| ->]; [by rewrite all_entries_snoc|by rewrite cut_all_entries]. }
  assert (live floor csx = l) as Hlx.
  { unfold live. rewrite Hall, <-Hl. by rewrite (cut_live Hcut Hc). }
  assert (∀ c, c ∈ csx → c.1 ≤ next_index floor l) as Hbx.
  { intros c Hin. apply (cut_bases_next Hcut Hc); [done..|]. destruct Hcsx as [->| ->]; [done|].
    by apply cut_layout_subset. }
  assert (Forall storable (all_entries csx)) as Hsx by (rewrite Hall; by apply (cut_storable Hcut)).
  destruct Htr as [->| ->].
  - rewrite <-Hlx. apply (recoverable_open _ _ _ _ []), dir_ok_open; try done; rewrite ?Hlx; try done; [|by left].
    by rewrite (torn_segs_nil _ 0).
  - eapply (mid_recoverable _ _ index csx); try done; [|by right].
    rewrite Hlx, <-Hl. unfold cut. rewrite list_filter_filter. apply filter_iff. intros x _. tauto.
Qed.

Context (C : waldir → Prop) (HC : ∀ d, recoverable floor anchor l d → C d).

Lemma wp_remove_tail s (Q : unit → FileLogStore → Prop) :
  wd_segs (dir s) = segs_of cs → markers_ok (dir s) floor anchor (Some (index - 1)) →
  (∀ d, wd_segs d = segs_of (cs1 ++ [(b, es1 ++ e :: es2)]) → wd_files d = wd_files (dir s) →
     Q tt (s <| dir := d |>)) →
  wp (for_each (λ x, call (SegRemove x)) cs2.*1) s Q C.
Proof using Hcut Hc Hst Hu Huf Hl Hlog Hb HC.
  intros Hd Hm HQ. apply (wp_remove_segs (λ q, cs1 ++ (b, es1 ++ e :: es2) :: q)).
  - rewrite Hd. by rewrite (cu_layout _ _ _ _ _ _ _ _ _ Hcut).
  - intros a es' q Hsuf. destruct (cut_drop Hcut Hc _ Hsuf) as (Hcq & _ & _).
    pose proof (chunks_from_NoDup _ _ Hcq) as Hnd.
    rewrite (cons_middle _ cs1), (assoc_L (++)) in Hnd.
    pose proof (segs_of_delete _ a es' q Hnd) as Hdel. by rewrite <-!(assoc_L (++)) in Hdel.
  - intros q d Hsuf Hdq Hf. eapply HC, tail_recoverable; [done..|]. by eapply same_files_markers.
  - done.
Qed.

(** The emptied boundary file goes. *)
Lemma wp_drop_boundary s (Q : unit → FileLogStore → Prop) :
  segments s = (cs1 ++ [(b, es1)]).*1 → wd_segs (dir s) = segs_of (cs1 ++ [(b, es1)]) →
  markers_ok (dir s) floor anchor (Some (index - 1)) →
  (∀ s', segments s' = (cut_layout cs1 b es1).*1 → wd_segs (dir s') = segs_of (cut_layout cs1 b es1) →
     wd_files (dir s') = wd_files (dir s) → entries s' = entries s → offsets s' = offsets s →
     first_valid_index s' = first_valid_index s → snapshot_anchor s' = snapshot_anchor s →
     max_segment_size s' = max_segment_size s → Q tt s') →
  wp (drop_empty_boundary (N.of_nat (length (log_bytes es1)))) s Q C.
Proof using Hcut Hc Hst Hu Huf Hl Hlog Hb HC.
  intros Hseg Hd Hm HQ. destruct (cut_chunks Hcut Hc) as [Hc1 Hc2].
  unfold drop_empty_boundary. apply wp_bind, wp_gets.
  rewrite Hseg, fmap_app. cbn [fmap list_fmap fst]. rewrite last_snoc.
  destruct (N.eqb_spec (N.of_nat (length (log_bytes es1))) 0) as [Hz|Hnz].
  - assert (es1 = []) as Hes.
    { apply frame_nonempty; [|apply nil_length_inv; lia].
      by apply (cut_storable Hcut), Forall_app in Hst as [_ ?]. }
    assert (cut_layout cs1 b es1 = cs1) as Hcl by (rewrite Hes; apply app_nil_r).
    set (d' := dir s <| wd_segs := delete b (wd_segs (dir s)) |>).
    assert (wd_segs d' = segs_of cs1) as Hd'.
    { change (wd_segs d') with (delete b (wd_segs (dir s))). rewrite Hd.
      rewrite segs_of_delete by by eapply chunks_from_NoDup. by rewrite app_nil_r. }
    apply wp_bind. eapply (wp_call_atomic _ _ d'); [done|reflexivity| | |].
    + apply wp_modify. apply HQ; rewrite ?Hcl; try done.
      change (take (length (segments s) - 1) (segments s) = cs1.*1).
      rewrite Hseg, fmap_app, length_app. cbn [fmap list_fmap fst length].
      by rewrite Nat.add_sub, take_app_length.
    + eapply HC, boundary_recoverable; [by left|done|by right|done].
    + eapply HC, (boundary_recoverable cs1); [by right|done|by right|]. by apply (same_files_markers (dir s)).
  - assert (cut_layout cs1 b es1 = cs1 ++ [(b, es1)]) as Hcl by by destruct es1.
    apply wp_ret. apply HQ; rewrite ?Hcl; done.
Qed.

(** The epochs are written, the writer is reopened and the marker goes. *)
Lemma wp_truncate_seal s (Q : unit → FileLogStore → Prop) :
  cached floor (cut_layout cs1 b es1) s → markers_ok (dir s) floor anchor (Some (index - 1)) →
  (∀ s', cached floor (cut_layout cs1 b es1) s' → writing (cut_layout cs1 b es1) s' →
     markers_ok (dir s') floor anchor None → epoch_starts s' = rebuild_epoch_starts (values (entries s')) →
     snapshot_anchor s' = snapshot_anchor s → max_segment_size s' = max_segment_size s → Q tt s') →
  wp (seq! modify rebuild_starts in
      seq! persist_epoch_checkpoint in
      seq! reopen_active_writer in
      clear_truncate_marker) s Q C.
Proof using Hcut Hc Hst Hu Huf Hl Hlog Hb HC.
  intros Hca Hm HQ. destruct (cut_chunks Hcut Hc) as [_ Hc2].
  assert (values (entries s) = l) as Hval.
  { rewrite <-cut_layout_live. by apply (table_values _ _ _ 0 Hc2 (ca_table _ _ _ Hca)). }
  apply wp_bind, wp_modify. apply wp_bind.
  assert (∀ d trunc, wd_segs d = segs_of (cut_layout cs1 b es1) → trunc = None ∨ trunc = Some (index - 1) →
    markers_ok d floor anchor trunc → C d) as HCd.
  { intros d trunc Hd Htr Hmd. eapply HC, boundary_recoverable; [by right|done..]. }
  eapply (wp_persist_epochs _ _ _ (floor + 1) l).
  - rewrite <-Hval. done.
  - rewrite <-cut_layout_live. by apply live_inc.
  - lia.
  - unfold u64 in Huf. lia.
  - rewrite <-cut_layout_live. apply live_storable. rewrite cut_all_entries. by apply (cut_storable Hcut).
  - intros d' Hd' Hmk. specialize (Hmk _ _ _ Hm).
    assert (wd_segs d' = segs_of (cut_layout cs1 b es1)) as Hsd by (rewrite Hd'; apply Hca).
    assert (C d') as HCd' by (eapply HCd; [done|by right|done]).
    split; [done|]. apply wp_bind. eapply wp_reopen; [eapply cached_same; [exact Hca|done..]|done|].
    intros s3 Hca3 Hw3 F1 F2 F3 F4 F5. unfold clear_truncate_marker.
    assert (markers_ok (dir s3) floor anchor (Some (index - 1))) as Hm3 by by rewrite F1.
    set (d4 := dir s3 <| wd_files := delete TRUNCATE_MARKER_FILE (wd_files (dir s3)) |>).
    assert (markers_ok d4 floor anchor None) as Hm4 by by eapply markers_untrunc.
    eapply (wp_call_atomic _ _ d4); [done|reflexivity| | |].
    + apply HQ; try done.
      * eapply cached_same; [exact Hca3|done..].
      * change (epoch_starts s3 = rebuild_epoch_starts (values (entries s3))). by rewrite F2, F5.
    + eapply HCd; [apply Hca3|by right|done].
    + eapply HCd; [apply Hca3|by left|done].
Qed.

(** The rest of a truncation, once the tail is gone and the boundary cut. *)
Lemma wp_truncate_finish s (Q : unit → FileLogStore → Prop) :
  segments s = (cs1 ++ [(b, es1)]).*1 → wd_segs (dir s) = segs_of (cs1 ++ [(b, es1)]) →
  table floor cs (mkRecovered (entries s) (offsets s)) → first_valid_index s = floor →
  markers_ok (dir s) floor anchor (Some (index - 1)) →
  (∀ s', cached floor (cut_layout cs1 b es1) s' → writing (cut_layout cs1 b es1) s' →
     markers_ok (dir s') floor anchor None → epoch_starts s' = rebuild_epoch_starts (values (entries s')) →
     snapshot_anchor s' = snapshot_anchor s → max_segment_size s' = max_segment_size s → Q tt s') →
  wp (seq! drop_empty_boundary (N.of_nat (length (log_bytes es1))) in
      seq! modify (λ s, s <| offsets := filter (λ p, ¬ (index ≤ p.1 ∧ is_Some (entries s !! p.1))) (offsets s) |>
                          <| entries := filter (λ p, ¬ index ≤ p.1) (entries s) |>) in
      seq! modify rebuild_starts in
      seq! persist_epoch_checkpoint in
      seq! reopen_active_writer in
      clear_truncate_marker) s Q C.
Proof using Hcut Hc Hst Hu Huf Hl Hlog Hb HC.
  intros Hseg Hd Htab Hfl Hm HQ. apply wp_bind. eapply wp_drop_boundary; [done..|].
  intros s1 E1 E2 E3 E4 E5 E6 E7 E8. apply wp_bind, wp_modify.
  eapply wp_truncate_seal.
  - split; try done; try by destruct (cut_chunks Hcut Hc).
    + rewrite cut_all_entries. by apply (cut_storable Hcut).
    + cbn. rewrite E4, E5. by apply (cut_table Hcut Hc).
    + cbn. by rewrite E6.
  - by apply (same_files_markers (dir s)).
  - intros s' G1 G2 G3 G4 G5 G6. apply HQ; try done; by etrans.
Qed.

(** The boundary's file is cut at the first entry to remove. *)
Lemma wp_cut_boundary s (Q : unit → FileLogStore → Prop) :
  wd_segs (dir s) = segs_of (cs1 ++ [(b, es1 ++ e :: es2)]) → markers_ok (dir s) floor anchor (Some (index - 1)) →
  (∀ d, wd_segs d = segs_of (cs1 ++ [(b, es1)]) → wd_files d = wd_files (dir s) → C d ∧ Q tt (s <| dir := d |>)) →
  wp (call (SegSetLen b (length (log_bytes es1)))) s Q C.
Proof using Hcut Hc Hst Hu Huf Hl Hlog Hb HC.
  intros Hd Hm HQ. destruct (cut_chunks Hcut Hc) as [Hc1 _].
  assert (chunks_from 0 (cs1 ++ [(b, es1 ++ e :: es2)])) as Hc2.
  { destruct (cut_drop Hcut Hc []) as [? _]; [by apply suffix_nil|done]. }
  set (d' := dir s <| wd_segs := segs_of (cs1 ++ [(b, es1)]) |>).
  destruct (HQ d') as [HC' HQ']; [done..|].
  eapply (wp_call_atomic _ _ d'); [done| |done| |done].
  - cbn -[log_bytes]. rewrite Hd, segs_of_snoc by by eapply chunks_from_NoDup.
    rewrite lookup_insert_eq. cbn -[log_bytes]. unfold d'.
    rewrite <-segs_of_snoc by by eapply chunks_from_NoDup. by rewrite (cut_files _ _ _ _ 0).
  - eapply HC, (tail_recoverable []); [apply suffix_nil|done..].
Qed.

(** The body of [truncate_from] behind its marker. *)
Lemma wp_truncate_body s (Q : unit → FileLogStore → Prop) :
  cached floor cs s → markers_ok (dir s) floor anchor (Some (index - 1)) →
  (∀ s', cached floor (cut_layout cs1 b es1) s' → writing (cut_layout cs1 b es1) s' →
     markers_ok (dir s') floor anchor None → epoch_starts s' = rebuild_epoch_starts (values (entries s')) →
     snapshot_anchor s' = snapshot_anchor s → max_segment_size s' = max_segment_size s → Q tt s') →
  wp (seq! modify (λ s, s <| active_writer := None |>) in
      let! segs := gets segments in
      seq! for_each (λ b, call (SegRemove b)) (drop (S (length cs1)) segs) in
      match segs !! length cs1 with
      | None => io_err "panic"
      | Some b =>
          seq! call (SegSetLen b (N.to_nat (N.of_nat (length (log_bytes es1))))) in
          seq! call SyncAll in
          seq! modify (λ s, s <| segments := take (S (length cs1)) (segments s) |>) in
          seq! drop_empty_boundary (N.of_nat (length (log_bytes es1))) in
          seq! modify (λ s, s <| offsets := filter (λ p, ¬ (index ≤ p.1 ∧ is_Some (entries s !! p.1))) (offsets s) |>
                            <| entries := filter (λ p, ¬ index ≤ p.1) (entries s) |>) in
          seq! modify rebuild_starts in
          seq! persist_epoch_checkpoint in
          seq! reopen_active_writer in
          clear_truncate_marker
      end) s Q C.
Proof using Hcut Hc Hst Hu Huf Hl Hlog Hb HC.
  intros Hca Hm HQ. pose proof (cu_layout _ _ _ _ _ _ _ _ _ Hcut) as Hcs.
  apply wp_bind, wp_modify. apply wp_bind, wp_gets. apply wp_bind.
  change (segments (_ <| active_writer := None |>)) with (segments s).
  rewrite (ca_segments _ _ _ Hca), Hcs, fmap_app. cbn [fmap list_fmap fst].
  rewrite drop_app_ge, length_fmap by (rewrite length_fmap; lia).
  replace (S (length cs1) - length cs1)%nat with 1%nat by lia. cbn [drop].
  apply wp_remove_tail; [apply Hca|done|]. intros d2 Hs2 Hf2.
  rewrite lookup_app_r, length_fmap, Nat.sub_diag by (by rewrite length_fmap). cbn [lookup list_lookup].
  rewrite Nat2N.id. apply wp_bind.
  assert (markers_ok d2 floor anchor (Some (index - 1))) as Hm2 by by apply (same_files_markers (dir s)).
  apply wp_cut_boundary; [done..|]. intros d3 Hs3 Hf3.
  assert (markers_ok d3 floor anchor (Some (index - 1))) as Hm3 by by apply (same_files_markers d2).
  assert (C d3) as HC3 by (eapply HC, boundary_recoverable; [by left|done|by right|done]).
  split; [done|]. apply wp_bind. eapply (wp_call_atomic _ _ d3); [done|reflexivity| |done|done].
  apply wp_bind, wp_modify. eapply wp_truncate_finish; try done.
  - cbn. rewrite (ca_segments _ _ _ Hca), Hcs, !fmap_app. cbn.
    rewrite (cons_middle b cs1.*1), (assoc_L (++)), take_app_length'; [done|].
    rewrite length_app, length_fmap. cbn. lia.
  - apply Hca.
  - apply Hca.
Qed.
End Run.

(** Nothing at or above the index: only a marker can go. *)
Lemma wp_truncate_none floor anchor trunc index cs s l (Q : unit → FileLogStore → Prop) (C : waldir → Prop) :
  cached floor cs s → writing cs s → dir_ok (dir s) floor anchor trunc cs [] →
  cut index (live floor cs) = live floor cs → live floor cs = l → log_from floor l → bases_ok floor cs l →
  (∀ d, recoverable floor anchor (kept trunc (live floor cs)) d ∨ recoverable floor anchor l d → C d) →
  (∀ s', cached floor cs s' → writing cs s' → markers_ok (dir s') floor anchor None →
     (∀ c, c ∈ cs → c.1 ≤ next_index floor l) → s' = s <| dir := dir s' |> → Q tt s') →
  wp clear_truncate_marker s Q C.
Proof.
  intros Hca Hw Hok Hcut Hl Hlog Hb HC HQ.
  assert (∀ c, c ∈ cs → c.1 ≤ next_index floor l) as Hbases.
  { destruct Hb as [(x & Hx & Hxi)|Hb]; [|done]. exfalso.
    assert (x ∈ l) as Hin.
    { rewrite <-Hl. apply elem_of_live. split; [done|]. rewrite Hxi. unfold next_index. lia. }
    pose proof (log_from_below _ _ _ Hlog Hin). lia. }
  unfold clear_truncate_marker.
  set (d1 := dir s <| wd_files := delete TRUNCATE_MARKER_FILE (wd_files (dir s)) |>).
  assert (markers_ok d1 floor anchor None) as Hm1 by (eapply markers_untrunc, Hok).
  eapply (wp_call_atomic _ _ d1); [done|reflexivity| | |].
  - apply HQ; try done. eapply cached_same; [exact Hca|done..].
  - apply HC. left. by exists trunc, cs, [].
  - apply HC. right. rewrite <-Hl. apply (recoverable_open _ _ _ _ []), dir_ok_open; rewrite ?Hl; try done; try apply Hca.
    + rewrite (torn_segs_nil _ 0); apply Hca.
    + by left.
    + apply Hok.
Qed.

(** [truncate_from], on a store whose directory may already carry the marker
    of the same truncation. *)
Lemma wp_truncate floor anchor trunc index cs s l (Q : unit → FileLogStore → Prop) (C : waldir → Prop) :
  cached floor cs s → writing cs s → dir_ok (dir s) floor anchor trunc cs [] →
  trunc = None ∨ trunc = Some (index - 1) → u64 index →
  cut index (live floor cs) = l → log_from floor l → bases_ok floor cs l →
  (∀ d, recoverable floor anchor (kept trunc (live floor cs)) d ∨ recoverable floor anchor l d → C d) →
  (∀ cs' s', cached floor cs' s' → writing cs' s' → markers_ok (dir s') floor anchor None →
     live floor cs' = l → (∀ c, c ∈ cs' → c.1 ≤ next_index floor l) →
     (epoch_starts s = rebuild_epoch_starts (values (entries s)) →
      epoch_starts s' = rebuild_epoch_starts (values (entries s'))) →
     snapshot_anchor s' = snapshot_anchor s → max_segment_size s' = max_segment_size s → Q tt s') →
  wp (truncate_from index) s Q C.
Proof.
  intros Hca Hw Hok Htr Hu Hl Hlog Hb HC HQ. unfold truncate_from. apply wp_bind, wp_gets.
  pose proof (ca_chunks _ _ _ Hca) as Hc. pose proof (ca_storable _ _ _ Hca) as Hst.
  destruct (ca_table _ _ _ Hca) as [Hte Hto]. cbn in Hte, Hto.
  pose proof (do_floor _ _ _ _ _ _ Hok) as Huf.
  assert (∀ x, x ∈ all_entries cs → floor < e_index x → ∃ p, offsets s !! e_index x = Some p) as Hoff.
  { intros x Hx Hf. destruct (entry_at_pos _ _ Hx) as [p Hp]. exists p. apply Hto. eauto. }
  destruct (range_first (offsets s) index) as [[j [k off]]|] eqn:Hr.
  - apply range_first_Some in Hr as (Hj & Hij & Hleast). cbn [fst snd] in *.
    apply Hto in Hj as (Hfj & e & <- & b & es1 & es2 & Hk & Hoe). cbn [fst snd] in *. subst off.
    apply list_elem_of_split_length in Hk as (cs1 & cs2 & Hcs & ->).
    assert (cut_at floor index cs cs1 b es1 e es2 cs2) as Hcut.
    { split; try done. intros x Hx Hf Hi. destruct (Hoff x Hx Hf) as [p Hp]. by apply Hleast. }
    apply wp_bind. unfold persist_truncate_marker.
    apply wp_persist_file; [unfold markers; rewrite !elem_of_cons; auto 10| |].
    { intros d' Hd'. apply HC. left. exists trunc, cs, []. split; [|done].
      destruct Hok as [H1 H2 H3 H4 H5 H6 H7 H8 H9]. split; try done; [by rewrite (proj1 Hd')|].
      by eapply markers_ok_same. }
    intros d1 Hd1.
    assert (markers_ok d1 floor anchor (Some (index - 1))) as Hm1.
    { eapply markers_trunc; [done| |apply Hok]. unfold u64 in *. lia. }
    assert (wd_segs d1 = segs_of cs) as Hs1 by (rewrite (proj1 Hd1); apply Hca).
    split; [by apply HC; right; apply (mid_recoverable _ _ index cs)|].
    eapply (wp_truncate_body Hcut Hc Hst Hu Huf Hl Hlog Hb); [intros d ?; apply HC; by right| |done|].
    { eapply cached_same; [exact Hca|done|apply Hd1|done..]. }
    intros s' G1 G2 G3 G4 G5 G6. apply (HQ (cut_layout cs1 b es1)); try done.
    + by apply (cut_layout_live Hcut Hc).
    + intros c Hin. apply (cut_bases_next Hcut Hc); try done. by apply cut_layout_subset.
  - pose proof (range_first_None _ _ Hr) as Hbelow.
    assert (cut index (live floor cs) = live floor cs) as Hlive.
    { apply filter_all. intros x [Hx Hf]%elem_of_live. apply Hbelow. by apply Hoff. }
    assert (live floor cs = l) as Hll by congruence.
    eapply (wp_truncate_none floor anchor trunc index cs); [done..|]. intros s' G1 G2 G3 G4 G5.
    apply (HQ cs); try done; by rewrite G5.
Qed.
End Trunc.
