(* ===== verification/FileLogPurge.v ===== *)
(** * Prefix purge, snapshot anchor and opening of the durable log store

    The remaining operations under faults, and [open] itself, which may be
    interrupted like any other operation. *)

From S2P Require Import Prelude CoreTypes Message Text BTree Bytes LogStore EpochFile WalCodec DirIo FileLog FileLogWp FileLogLayout FileLogState FileLogOps FileLogTrunc.

Section Purge.
Context {MA : MembershipApi} {BV : Bincode VoterSet} {CR : Crc32}.
#[local] Open Scope io_scope.
Implicit Types (s : FileLogStore) (cs : list chunk) (d : waldir).

(** What survives a purge through [i]. *)
Definition above (i : N) (l : list Entry) : list Entry := filter (λ e, i < e_index e) l.

Lemma live_above floor through cs : floor ≤ through → live through cs = above through (live floor cs).
Proof.
  intros Hle. unfold above, live. rewrite list_filter_filter. apply filter_iff. intros x _. lia.
Qed.

Lemma log_from_above floor through l :
  log_from floor l → floor ≤ through →
  log_from through (above through l) ∧ next_index floor l ≤ next_index through (above through l).
Proof.
  unfold log_from, next_index, above. revert floor. generalize 0 at 1 2. induction l as [|x l IH]; intros t floor.
  { cbn. lia. }
  intros (Hi & Ht & Hl) Hle. rewrite filter_cons. destruct (decide (through < e_index x)) as [Hx|Hx].
  - assert (through = floor) as -> by lia. rewrite filter_all.
    + cbn [contig_from length]. split; [done|lia].
    + intros y Hy. destruct (contig_from_bounds _ _ _ _ Hl Hy). lia.
  - destruct (IH _ (floor + 1) Hl ltac:(lia)) as [H1 H2]. split.
    + by eapply contig_from_weaken.
    + cbn [length]. lia.
Qed.

(** The segments a purge deletes hold nothing above it, and the last segment
    is never one of them. *)
Lemma covered_prefix_split lo cs through :
  chunks_from lo cs →
  ∃ pre post, cs = pre ++ post ∧ length pre = covered_prefix cs.*1 through ∧
    (∀ e, e ∈ all_entries pre → e_index e ≤ through) ∧ last cs = last post.
Proof.
  revert lo. induction cs as [|[b es] cs IH]; intros lo Hc.
  { exists [], []. split_and!; try done. by intros e ?%not_elem_of_nil. }
  destruct Hc as (Hb & He & Hc). destruct cs as [|[b' es'] cs].
  { exists [], [(b, es)]. split_and!; try done. by intros e ?%not_elem_of_nil. }
  cbn [fmap list_fmap fst covered_prefix]. case_decide as Hd.
  - destruct (IH _ Hc) as (pre & post & Heq & Hl & Hall & Hlast).
    exists ((b, es) :: pre), post. split_and!.
    + by rewrite Heq.
    + cbn. by rewrite Hl.
    + intros e. rewrite all_entries_cons. intros [Hin|Hin]%elem_of_app; [|by apply Hall].
      pose proof (chunk_end_ge _ _ _ He Hin). destruct Hc as (Hb' & _).
      pose proof (chunk_end_gt _ _ He). lia.
    + rewrite <-Hlast. done.
  - exists [], ((b, es) :: (b', es') :: cs). split_and!; try done. by intros e ?%not_elem_of_nil.
Qed.

Lemma at_pos_drop pre post p x :
  at_pos post p x ↔ at_pos (pre ++ post) (length pre + p.1, p.2)%nat x.
Proof.
  unfold at_pos. cbn. split; intros (b & es1 & es2 & Hk & Hp); exists b, es1, es2; (split; [|done]).
  - rewrite lookup_app_r by lia. by replace (length pre + p.1 - length pre)%nat with p.1 by lia.
  - rewrite lookup_app_r in Hk by lia. by replace (length pre + p.1 - length pre)%nat with p.1 in Hk by lia.
Qed.

(** The tables after the purge. *)
Lemma purge_table floor through cs ents offs :
  floor ≤ through → table floor cs (mkRecovered ents offs) →
  table through cs (mkRecovered (filter (λ p, ¬ p.1 ≤ through) ents)
                                (filter (λ p, ¬ (p.1 ≤ through ∧ is_Some (ents !! p.1))) offs)).
Proof.
  intros Hle [He Ho]. cbn in He, Ho. split; cbn; intros i x; rewrite map_lookup_filter_Some; cbn.
  - rewrite He. split; [intros ((? & ? & ?) & ?)|intros (? & ? & ?)]; split_and!; try done; lia.
  - rewrite Ho. split.
    + intros ((Hi & y & <- & Hp) & Hn). split; [|by eauto].
      destruct (decide (e_index y ≤ through)); [|lia]. exfalso. apply Hn. split; [done|].
      exists y. apply He. split_and!; [done|done|by eapply at_pos_entry].
    + intros (Hi & y & <- & Hp). split; [split; [lia|by eauto]|]. intros [? _]. lia.
Qed.

Lemma purge_shift through pre post ents offs :
  table through (pre ++ post) (mkRecovered ents offs) → (∀ e, e ∈ all_entries pre → e_index e ≤ through) →
  map_Forall (λ _ p, length pre ≤ p.1)%nat offs ∧
  table through post (mkRecovered ents ((λ p, (p.1 - length pre, p.2)%nat) <$> offs)).
Proof.
  intros [He Ho] Hpre. cbn in He, Ho.
  assert (∀ i p, offs !! i = Some p → (length pre ≤ p.1)%nat) as Hall.
  { intros i p (Hi & y & <- & Hp)%Ho. apply at_pos_app in Hp as [Hp|[? _]]; [|done].
    apply at_pos_entry in Hp. specialize (Hpre _ Hp). lia. }
  split; [exact Hall|]. split; cbn; intros i x.
  - rewrite He, all_entries_app, elem_of_app. split; [|by intros (? & ? & ?); auto].
    intros (Hi & <- & [Hin|Hin]); [|done]. specialize (Hpre _ Hin). lia.
  - rewrite lookup_fmap, fmap_Some. split.
    + intros (p & Hp & ->). pose proof (Hall _ _ Hp) as Hk. apply Ho in Hp as (Hi & y & <- & Hp).
      split; [done|]. exists y. split; [done|]. apply (at_pos_drop pre). cbn.
      replace (length pre + (p.1 - length pre))%nat with p.1 by lia. by destruct p.
    + intros (Hi & y & <- & Hp). exists (length pre + x.1, x.2)%nat. split.
      * apply Ho. split; [done|]. exists y. split; [done|]. by apply at_pos_drop.
      * cbn. replace (length pre + x.1 - length pre)%nat with x.1 by lia. by destruct x.
Qed.

(** ** A purge under way *)

Section Run.
Context {floor : N} {anchor : option (N * N)} {through : N} {cs pre post : list chunk}.
#[local] Abbreviation kept_log := (above through (live floor cs)).
Context (Hc : chunks_from 0 cs) (Hst : Forall storable (all_entries cs)) (Hlog : log_from floor (live floor cs))
  (Hb : ∀ c, c ∈ cs → c.1 ≤ next_index floor (live floor cs)) (Hlt : floor < through) (Hu : u64 through).
Context (Hcs : cs = pre ++ post) (Hpre : ∀ e, e ∈ all_entries pre → e_index e ≤ through).

(** The layout when part of the covered segments is gone. *)
Record purging (csx : list chunk) : Prop := mkPurging {
  pu_chunks : chunks_from 0 csx;
  pu_storable : Forall storable (all_entries csx);
  pu_live : live through csx = kept_log;
  pu_bases : ∀ c, c ∈ csx → c.1 ≤ next_index through kept_log;
}.

Lemma purging_suffix pre2 : suffix pre2 pre → purging (pre2 ++ post).
Proof using Hc Hst Hlog Hb Hlt Hcs Hpre.
  intros [pre1 Hp]. destruct (log_from_above floor through _ Hlog ltac:(lia)) as [_ Hnext].
  assert (cs = pre1 ++ pre2 ++ post) as Hcs' by (rewrite Hcs, Hp; by rewrite <-(assoc_L (++))).
  split.
  - rewrite Hcs' in Hc. by apply (chunks_from_remove 0 [] pre1).
  - rewrite Hcs', (all_entries_app pre1), Forall_app in Hst. tauto.
  - rewrite <-(live_above floor through cs) by lia. rewrite Hcs'. unfold live.
    rewrite (all_entries_app pre1), filter_app.
    rewrite (filter_nothing _ (all_entries pre1)); [done|]. intros x Hx.
    assert (e_index x ≤ through); [|lia]. apply Hpre. rewrite Hp, all_entries_app, elem_of_app. auto.
  - intros c Hin. assert (c.1 ≤ next_index floor (live floor cs)); [|lia]. apply Hb.
    rewrite Hcs', !elem_of_app in *. tauto.
Qed.

Lemma purging_recoverable csx d :
  purging csx → wd_segs d = segs_of csx → markers_ok d through anchor None → recoverable through anchor kept_log d.
Proof using Hlog Hlt Hu.
  intros [H1 H2 H3 H4] Hd Hm. destruct (log_from_above floor through _ Hlog ltac:(lia)) as [Hlog' _].
  rewrite <-H3. apply (recoverable_open _ _ _ _ []), dir_ok_open; rewrite ?H3; try done.
  - by rewrite (torn_segs_nil _ 0).
  - by left.
Qed.

Context (C : waldir → Prop) (HC : ∀ d, recoverable through anchor kept_log d → C d).

(** The covered segments are gone: the epochs are rebuilt and written. *)
Lemma wp_purge_seal s (Q : unit → FileLogStore → Prop) :
  cached through post s → writing post s → markers_ok (dir s) through anchor None → snapshot_anchor s = anchor →
  (∀ s', open_ok through anchor post s' → max_segment_size s' = max_segment_size s → Q tt s') →
  wp (seq! modify rebuild_starts in persist_epoch_checkpoint) s Q C.
Proof using Hc Hst Hlog Hb Hlt Hu Hcs Hpre HC.
  intros Hca Hw Hm Han HQ.
  pose proof (purging_suffix [] (suffix_nil _)) as Hpu. pose proof Hpu as [Hc2 Hst2 Hl2 Hb2].
  destruct (log_from_above floor through _ Hlog ltac:(lia)) as [Hlog' _]. cbn [app] in *.
  assert (values (entries s) = kept_log) as Hval.
  { rewrite <-Hl2. by apply (table_values _ _ _ 0 Hc2 (ca_table _ _ _ Hca)). }
  apply wp_bind, wp_modify. eapply (wp_persist_epochs _ _ _ (through + 1) kept_log).
  - rewrite <-Hval. done.
  - rewrite <-Hl2. by apply live_inc.
  - lia.
  - unfold u64 in Hu. lia.
  - rewrite <-Hl2. by apply live_storable.
  - intros d' Hd' Hmk. specialize (Hmk _ _ _ Hm).
    assert (wd_segs d' = segs_of post) as Hsd by (rewrite Hd'; apply Hca). split.
    { eapply HC, purging_recoverable; [exact Hpu|done|done]. }
    apply HQ; [|done]. split; try done; rewrite ?Hl2; try done. destruct Hca. by split.
Qed.

(** The covered segments are deleted, and the offsets are shifted. *)
Lemma wp_purge_segments s (Q : unit → FileLogStore → Prop) :
  segments s = cs.*1 → wd_segs (dir s) = segs_of cs → first_valid_index s = through →
  table through cs (mkRecovered (entries s) (offsets s)) → writing cs s → last cs = last post →
  markers_ok (dir s) through anchor None →
  (∀ s', cached through post s' → writing post s' → markers_ok (dir s') through anchor None →
     snapshot_anchor s' = snapshot_anchor s → max_segment_size s' = max_segment_size s → Q tt s') →
  wp (if decide (length pre = O) then io_ret tt
      else
        seq! modify (λ s, s <| segments := drop (length pre) (segments s) |>) in
        seq! for_each (λ b, call (SegRemove b)) (take (length pre) cs.*1) in
        let! offs := gets offsets in
        if decide (map_Forall (λ _ p, length pre ≤ p.1)%nat offs) then
          modify (λ s, s <| offsets := (λ p, (p.1 - length pre, p.2)%nat) <$> offs |>)
        else io_err "panic") s Q C.
Proof using Hc Hst Hlog Hb Hlt Hu Hcs Hpre HC.
  intros Hsg Hd Hfl Ht [Hw1 Hw2] Hlast Hm HQ. destruct (decide (length pre = 0%nat)) as [Hz|Hnz].
  - apply nil_length_inv in Hz as ->. cbn [app] in Hcs. subst post. apply wp_ret. by apply HQ.
  - apply wp_bind, wp_modify. apply wp_bind.
    rewrite Hcs, fmap_app, take_app_length' by by rewrite length_fmap.
    apply (wp_remove_segs (λ q, q ++ post)).
    + by rewrite <-Hcs.
    + intros a es' q Hsuf. apply (segs_of_delete_head a es').
      pose proof (pu_chunks _ (purging_suffix _ Hsuf)) as Hcd. by apply chunks_from_NoDup in Hcd.
    + intros q d Hsuf Hdq Hf. eapply HC, purging_recoverable; [by apply purging_suffix|done|].
      by apply (same_files_markers (dir s)).
    + intros d Hdq Hf. cbn [app] in Hdq. apply wp_bind, wp_gets.
      rewrite Hcs in Ht. destruct (purge_shift _ _ _ _ _ Ht Hpre) as [Hall Ht2].
      change (offsets (_ <| dir := d |>)) with (offsets s). rewrite decide_True by done. apply wp_modify.
      destruct (purging_suffix [] (suffix_nil _)) as [Hc2 Hst2 _ _].
      apply HQ; try done.
      * split; try done. change (drop (length pre) (segments s) = post.*1).
        rewrite Hsg, Hcs, fmap_app, drop_app_length' by by rewrite length_fmap. done.
      * split; by rewrite <-Hlast.
      * by apply (same_files_markers (dir s)).
Qed.
End Run.

Lemma wp_purge floor anchor cs through s (Q : unit → FileLogStore → Prop) (C : waldir → Prop) :
  let l := live floor cs in
  open_ok floor anchor cs s → floor < through → u64 through →
  (∀ d, recoverable floor anchor l d ∨ recoverable through anchor (above through l) d → C d) →
  (∀ cs' s', open_ok through anchor cs' s' → live through cs' = above through l →
     max_segment_size s' = max_segment_size s → Q tt s') →
  wp (purge_prefix through) s Q C.
Proof.
  intros l Hok Hlt Hu HC HQ. destruct Hok as [Hca Hw Hm Hep Han Hlog Hb Huf]. fold l in Hlog, Hb.
  pose proof (ca_chunks _ _ _ Hca) as Hc. pose proof (ca_storable _ _ _ Hca) as Hst.
  destruct (covered_prefix_split 0 cs through Hc) as (pre & post & Hcs & Hn & Hpre & Hlast).
  assert (∀ d, recoverable through anchor (above through l) d → C d) as HC' by (intros d ?; apply HC; by right).
  unfold purge_prefix. apply wp_bind, wp_gets. rewrite (ca_floor _ _ _ Hca), decide_False by lia.
  apply wp_bind, wp_modify. apply wp_bind. apply wp_on_error; [|done].
  unfold persist_purge_marker. apply wp_bind, wp_gets.
  apply wp_persist_file; [unfold markers; rewrite !elem_of_cons; auto| |].
  { intros d' Hd'. apply HC. left. apply (recoverable_open _ _ cs _ []), dir_ok_open; try done.
    - rewrite (torn_segs_nil _ 0 Hc), (proj1 Hd'). apply Hca.
    - by left.
    - by eapply markers_ok_same. }
  intros d1 Hd1.
  assert (markers_ok d1 through anchor None) as Hm1 by by eapply markers_purge.
  assert (wd_segs d1 = segs_of cs) as Hs1 by (rewrite (proj1 Hd1); apply Hca).
  pose proof (purging_suffix Hc Hst Hlog Hb Hlt Hcs Hpre) as Hpu.
  split; [eapply HC', purging_recoverable; [done..|by apply (Hpu pre)|by rewrite <-Hcs|done]|].
  apply wp_bind, wp_modify. apply wp_bind, wp_gets. cbn zeta. apply wp_bind.
  match goal with |- wp _ ?x _ _ => change (segments x) with (segments s) end. rewrite (ca_segments _ _ _ Hca), <-Hn.
  eapply (wp_purge_segments (floor := floor)); try done; [apply Hca|apply (purge_table floor); [lia|apply Hca]|].
  intros s2 Hca2 Hw2 Hm2 E1 E2. eapply (wp_purge_seal (floor := floor)); try done; [by rewrite E1|].
  intros s' Hok' Hmax. apply (HQ post); [done| |by rewrite Hmax, E2].
  by destruct (Hpu [] (suffix_nil _)).
Qed.
End Purge.
