(* ===== verification/FileLogOpen.v ===== *)
(** * Batches, the snapshot anchor, and opening the durable log store

    The operations that combine the single steps, and [open], which repairs
    what an interrupted operation left and may be interrupted itself. *)

From S2P Require Import Prelude CoreTypes Message Text BTree Bytes LogStore EpochFile WalCodec DirIo FileLog FileLogWp FileLogLayout FileLogState FileLogOps FileLogTrunc FileLogPurge.

Section Opening.
Context {MA : MembershipApi} {BV : Bincode VoterSet} {CR : Crc32}.
Context {BL : BincodeLaws VoterSet BV} {CL : Crc32Laws CR}.
#[local] Open Scope io_scope.
Implicit Types (s : FileLogStore) (cs : list chunk) (d : waldir).

(** ** Batches *)

(** What a batch needs: storable entries that continue the log, and frames
    that fit a segment. *)
Definition batch_admitted (floor max : N) (l es : list Entry) : Prop :=
  Forall storable es ∧ log_from floor (l ++ es) ∧
  Forall (λ e, N.of_nat (length (frame_bytes e)) ≤ max) es.

Lemma wp_append floor anchor cs es s (Q : unit → FileLogStore → Prop) (C : waldir → Prop) :
  open_ok floor anchor cs s → batch_admitted floor (max_segment_size s) (live floor cs) es →
  (∀ k d, recoverable floor anchor (live floor cs ++ take k es) d → C d) →
  (∀ cs' s', open_ok floor anchor cs' s' → live floor cs' = live floor cs ++ es →
     max_segment_size s' = max_segment_size s → Q tt s') →
  wp (append es) s Q C.
Proof using BL CL.
  intros Hok (Hst & Hlog & Hfit) HC HQ. unfold append.
  apply (wp_for_each _ _ (λ done s', ∃ cs', open_ok floor anchor cs' s' ∧
    live floor cs' = live floor cs ++ done ∧ max_segment_size s' = max_segment_size s)).
  - exists cs. by rewrite app_nil_r.
  - intros es1 e es2 s' -> (cs' & Hok' & Hl & Hmax).
    apply Forall_app in Hst as [_ [He _]%Forall_cons].
    apply Forall_app in Hfit as [_ [Hf _]%Forall_cons].
    eapply (wp_append_one floor anchor cs'); [done|done| |by rewrite Hmax| |].
    + rewrite Hl. unfold log_from in *. rewrite cons_middle, !(assoc_L (++)) in Hlog.
      by apply contig_from_app_l in Hlog.
    + intros d. rewrite Hl. intros [Hr|Hr].
      * apply (HC (length es1)). by rewrite take_app_length.
      * apply (HC (S (length es1))). rewrite <-(assoc_L (++)) in Hr.
        replace (take (S (length es1)) (es1 ++ e :: es2)) with (es1 ++ [e]); [done|].
        rewrite (cons_middle e es1 es2), (assoc_L (++)), take_app_length'; [done|].
        rewrite length_app. cbn. lia.
    + intros cs'' s'' Hok'' Hl'' Hmax''. exists cs''. split_and!; [done| |congruence].
      by rewrite Hl'', Hl, <-(assoc_L (++)).
  - intros s' (cs' & Hok' & Hl & Hmax). by eapply HQ.
Qed.

(** ** The snapshot anchor *)

(** The anchor only rises. *)
Definition raised_anchor (a : option (N * N)) (t i : N) : option (N * N) :=
  match a with
  | Some (t0, i0) => if decide (i ≤ i0) then Some (t0, i0) else Some (t, i)
  | None => Some (t, i)
  end.

Lemma wp_anchor floor anchor cs t i s (Q : unit → FileLogStore → Prop) (C : waldir → Prop) :
  open_ok floor anchor cs s → u64 t → u64 i →
  (∀ d, recoverable floor anchor (live floor cs) d ∨
        recoverable floor (raised_anchor anchor t i) (live floor cs) d → C d) →
  (∀ s', open_ok floor (raised_anchor anchor t i) cs s' → max_segment_size s' = max_segment_size s →
     entries s' = entries s → Q tt s') →
  wp (update_snapshot_anchor t i) s Q C.
Proof.
  intros Hok Ht Hi HC HQ. unfold update_snapshot_anchor. apply wp_bind, wp_gets.
  rewrite (op_anchor _ _ _ _ Hok).
  destruct (match anchor with Some (_, prior_idx) => negb (bool_decide (i ≤ prior_idx)) | None => true end) eqn:Hr.
  - assert (raised_anchor anchor t i = Some (t, i)) as Ha.
    { unfold raised_anchor. destruct anchor as [[t0 i0]|]; [|done].
      apply negb_true_iff, bool_decide_eq_false in Hr. by rewrite decide_False. }
    rewrite Ha in HC, HQ. apply wp_bind, wp_modify. unfold persist_snapshot_anchor.
    apply wp_bind, wp_gets. change (snapshot_anchor (s <| snapshot_anchor := Some (t, i) |>)) with (Some (t, i)).
    pose proof (open_recoverable _ _ _ _ Hok) as Hrec. destruct Hok as [Hca Hw Hm Hep Han Hlog Hb Huf].
    assert (∀ d a, wd_segs d = wd_segs (dir s) → markers_ok d floor a None →
      recoverable floor a (live floor cs) d) as Hr'.
    { intros d a Hd Hmd. apply (recoverable_open _ _ cs _ []), dir_ok_open; try done; try apply Hca; [|by left].
      rewrite (torn_segs_nil _ 0) by apply Hca. rewrite Hd. apply Hca. }
    apply wp_persist_file; [unfold markers; rewrite !elem_of_cons; auto 10| |].
    + intros d' Hd'. apply HC. left. apply Hr'; [apply Hd'|]. by eapply markers_ok_same.
    + intros d' Hd'. assert (markers_ok d' floor (Some (t, i)) None) as Hm' by by eapply markers_anchor.
      split; [apply HC; right; by apply Hr'; [apply Hd'|]|].
      apply HQ; [|done|done]. split; try done.
      destruct Hca. split; try done. change (wd_segs d' = segs_of cs). by rewrite (proj1 Hd').
  - assert (raised_anchor anchor t i = anchor) as Ha.
    { unfold raised_anchor. destruct anchor as [[t0 i0]|]; [|done].
      apply negb_false_iff, bool_decide_eq_true in Hr. by rewrite decide_True. }
    rewrite Ha in HQ. apply wp_ret. by apply HQ.
Qed.

Lemma only_dir_persist_epochs : only_dir persist_epoch_checkpoint.
Proof.
  unfold persist_epoch_checkpoint, persist_file.
  repeat first [apply only_dir_call | apply only_dir_gets | apply only_dir_bind; [|intros ?]].
Qed.

(** ** [open] *)

Lemma bases_ok_live floor cs :
  log_from floor (live floor cs) → bases_ok floor cs (live floor cs) →
  ∀ c, c ∈ cs → c.1 ≤ next_index floor (live floor cs).
Proof.
  intros Hlog [(x & Hx & Hxi)|Hb]; [exfalso|done].
  assert (x ∈ live floor cs) as Hin.
  { apply elem_of_live. split; [done|]. rewrite Hxi. unfold next_index. lia. }
  pose proof (log_from_below _ _ _ Hlog Hin). lia.
Qed.

(** The end of [open], once any truncation is replayed. *)
Lemma wp_open_rest floor anchor l cs s (Q : unit → FileLogStore → Prop) :
  cached floor cs s → writing cs s → markers_ok (dir s) floor anchor None → u64 floor →
  live floor cs = l → log_from floor l → (∀ c, c ∈ cs → c.1 ≤ next_index floor l) →
  snapshot_anchor s = anchor →
  (∀ s', open_ok floor anchor cs s' → max_segment_size s' = max_segment_size s → Q tt s') →
  wp (seq! modify rebuild_starts in ignore_error persist_epoch_checkpoint) s Q (recoverable floor anchor l).
Proof.
  intros Hca Hw Hm Huf Hl Hlog Hb Han HQ. apply wp_bind, wp_modify.
  assert (values (entries s) = l) as Hval.
  { rewrite <-Hl. by apply (table_values _ _ _ 0 (ca_chunks _ _ _ Hca) (ca_table _ _ _ Hca)). }
  eapply (wp_ignore_error _ _ _ (λ d', wd_segs d' = wd_segs (dir s) ∧ markers_ok d' floor anchor None)).
  - apply only_dir_persist_epochs.
  - eapply (wp_persist_epochs _ _ _ (floor + 1) l).
    + rewrite <-Hval. done.
    + rewrite <-Hl. apply live_inc, Hca.
    + lia.
    + unfold u64 in Huf. lia.
    + rewrite <-Hl. apply live_storable, Hca.
    + intros d' Hd' Hmk. by specialize (Hmk _ _ _ Hm).
  - intros d' [Hd' Hm']. apply HQ; [|done]. split; try done; rewrite ?Hl; try done.
    destruct Hca. split; try done. change (wd_segs d' = segs_of cs). by rewrite Hd'.
Qed.

Lemma wp_open floor anchor l d max (Q : unit → FileLogStore → Prop) :
  recoverable floor anchor l d →
  (∀ cs s', open_ok floor anchor cs s' → live floor cs = l → max_segment_size s' = max → Q tt s') →
  wp open_store (empty_store d max) Q (recoverable floor anchor l).
Proof using BL CL.
  intros (trunc & cs & t & Hok & Hl) HQ. unfold open_store.
  pose proof (do_markers _ _ _ _ _ _ Hok) as [M1 M2 M3 [m M4]].
  apply wp_bind, wp_gets. change (dir (empty_store d max)) with d.
  rewrite M1. apply wp_bind, wp_lift. apply wp_bind, wp_modify.
  rewrite M2. apply wp_bind, wp_lift. apply wp_bind, wp_modify.
  rewrite M3. apply wp_bind, wp_lift. rewrite M4. apply wp_bind, wp_lift.
  apply wp_bind. eapply (wp_recover d floor anchor trunc cs t); try done.
  { intros d' t' Hd'. by exists trunc, cs, t'. }
  intros s1 Hca Hw Hok1 Ha1 Hmax1. cbn in Ha1, Hmax1.
  apply wp_bind. destruct trunc as [tr|].
  - (* replay the interrupted truncation *)
    pose proof (do_trunc _ _ _ _ _ _ Hok tr eq_refl) as Htr.
    assert (sat_add tr 1 = tr + 1) as Hsat by by apply sat_add_lt.
    assert (cut (sat_add tr 1) (live floor cs) = l) as Hcut.
    { rewrite <-Hl. cbn. apply filter_iff. intros x _. rewrite Hsat. lia. }
    eapply (wp_truncate floor anchor (Some tr) _ cs); try done.
    + right. rewrite Hsat. f_equal. lia.
    + apply sat_add_u64.
    + rewrite <-Hl. apply Hok.
    + rewrite <-Hl. apply Hok.
    + intros d' [Hd'|Hd']; [|done]. by rewrite Hl in Hd'.
    + intros cs2 s2 Hca2 Hw2 Hm2 Hl2 Hb2 _ F1 F2. eapply wp_open_rest; [done..|apply Hok|done| |done|congruence|].
      * rewrite <-Hl. apply Hok.
      * intros s' Hs' Hmax'. apply (HQ cs2); [done..|congruence].
  - apply wp_ret. cbn in Hl. subst l. eapply wp_open_rest; [done..|apply Hok1|apply Hok|done|apply Hok| |congruence|].
    + pose proof (do_log _ _ _ _ _ _ Hok) as H1. pose proof (do_bases _ _ _ _ _ _ Hok) as H2.
      by apply bases_ok_live.
    + intros s' Hs' Hmax'. apply (HQ cs); [done..|congruence].
Qed.
End Opening.
