(* ===== verification/FileLogSafety.v ===== *)
(** * What the durable log store guarantees

    Refinement of the log-store contract, durability across restarts, crash
    consistency of every operation, and two histories after which entries the
    store acknowledged are gone. *)

From S2P Require Import Prelude CoreTypes Message Text BTree Bytes LogStore EpochFile WalCodec DirIo FileLog FileLogWp FileLogLayout FileLogState FileLogOps FileLogTrunc FileLogPurge FileLogOpen Concrete.

Section Safety.
Context {MA : MembershipApi} {BV : Bincode VoterSet} {CR : Crc32}.
Implicit Types (s : FileLogStore) (cs : list chunk) (d : waldir).

(** The log an open store serves. *)
Definition file_log s : list Entry := values (entries s).

(** What the store needs of a batch: entries the frame format can hold, that
    continue the log (or start it right behind the purge floor), in frames no
    larger than a segment. *)
Definition file_admits s (es : list Entry) : Prop :=
  batch_admitted (first_valid_index s) (max_segment_size s) (file_log s) es.

(** ** The observers *)

Lemma inv_log s cs :
  open_ok (first_valid_index s) (snapshot_anchor s) cs s →
  file_log s = live (first_valid_index s) cs ∧ keyed e_index (entries s).
Proof.
  intros Hok. split; [by eapply open_values|].
  eapply (table_keyed _ _ (mkRecovered (entries s) (offsets s))), Hok.
Qed.

Lemma inv_log_from s : store_inv s → log_from (first_valid_index s) (file_log s).
Proof. intros [cs Hok]. destruct (inv_log _ _ Hok) as [-> _]. apply Hok. Qed.
Lemma inv_contig s : store_inv s → contig (file_log s).
Proof. intros Hs. exists (first_valid_index s + 1), 0. split; [lia|]. by apply inv_log_from. Qed.
Lemma inv_keyed s : store_inv s → keyed e_index (entries s).
Proof. intros [cs Hok]. by eapply inv_log. Qed.

Lemma find_get s i : store_inv s → get i s = find (λ e, e_index e =? i) (file_log s).
Proof.
  intros Hs. unfold file_log. rewrite keyed_find by by apply inv_keyed. unfold get.
  destruct (N.eqb_spec i 0) as [->|]; [|done]. symmetry. apply eq_None_not_Some. intros [e He].
  assert (e ∈ file_log s) as Hin.
  { apply (elem_of_values e_index); [by apply inv_keyed|]. by rewrite (inv_keyed _ Hs _ _ He). }
  destruct (log_from_below _ _ _ (inv_log_from _ Hs) Hin) as [Hf _].
  rewrite (inv_keyed _ Hs _ _ He) in Hf. lia.
Qed.

Lemma file_last_index s : store_inv s → last_index s = tail_index (file_log s).
Proof.
  intros Hs. unfold last_index, last_pair, tail_index, file_log.
  rewrite (keyed_in_order e_index) by by apply inv_keyed.
  rewrite fmap_last. by destruct (last _).
Qed.

(** ** Appending a marker is refused *)

Lemma storage_append_one e : storage_errors (append_one e).
Proof.
  assert (∀ {A} (g : FileLogStore → A), storage_errors (gets g)) as Hg by (intros; apply storage_ok; eauto).
  assert (∀ g : FileLogStore → FileLogStore, storage_errors (modify g)) as Hm by (intros; apply storage_ok; eauto).
  assert (∀ {A} (a : A), storage_errors (io_ret a : io FileLogStore A)) as Hr by (intros; apply storage_ok; eauto).
  assert (∀ {A} msg, storage_errors (io_err msg : io FileLogStore A)) as He by (intros A msg w w' e' [= _ <-]; eauto).
  pose proof (storage_call (St := FileLogStore) (Op := walop)) as Hc.
  assert (∀ b, storage_errors (create_segment b)) as Hcs by (intros; apply storage_bind; auto).
  assert (∀ b, storage_errors (rotate_segment b)) as Hrs.
  { intros b. repeat (apply storage_bind; [auto|intros ?]); [|done]. by case_match. }
  assert (storage_errors persist_epoch_checkpoint) as Hp.
  { repeat (apply storage_bind; [auto|intros ?]). done. }
  unfold append_one. case_match; [done|]. case_match; [|done].
  apply storage_bind; [|intros ?].
  - unfold ensure_segment. apply storage_bind; [done|]. intros r. apply storage_bind; [by destruct r|].
    intros ?. apply storage_bind; [done|]. intros w. by destruct w.
  - apply storage_bind; [done|]. intros s. case_match; [|done]. cbn zeta.
    apply storage_bind; [done|]. intros ?. apply storage_bind; [done|]. intros ?. by case_match.
Qed.

Lemma append_refuses_marker es w :
  existsb is_marker es = true → ∃ w' msg, append es w = (w', Err (Storage msg)).
Proof.
  unfold append. revert w. induction es as [|e es IH]; intros w; [done|]. cbn [existsb for_each].
  unfold io_bind. destruct (append_one e w) as [w1 [[]|e1]] eqn:Heq.
  - destruct (is_marker e) eqn:Hm.
    + unfold append_one in Heq. rewrite Hm in Heq. done.
    + intros Hes. by apply IH.
  - intros _. destruct (storage_append_one _ _ _ _ Heq) as [msg ->]. eauto.
Qed.

(** ** Every call without a fault *)

Section Laws.
Context {BL : BincodeLaws VoterSet BV} {CL : Crc32Laws CR}.

Lemma open_ok_fields floor anchor cs s :
  open_ok floor anchor cs s → first_valid_index s = floor ∧ snapshot_anchor s = anchor ∧ store_inv s ∧
    file_log s = live floor cs.
Proof.
  intros Hok. assert (first_valid_index s = floor) as Hf by apply Hok.
  assert (snapshot_anchor s = anchor) as Ha by apply Hok.
  split_and!; [done|done|exists cs; by rewrite Hf, Ha|by eapply open_values].
Qed.

Lemma truncate_ok s i :
  store_inv s → u64 i → ∀ (C : waldir → Prop),
  (∀ d, recoverable (first_valid_index s) (snapshot_anchor s) (file_log s) d ∨
        recoverable (first_valid_index s) (snapshot_anchor s) (cut i (file_log s)) d → C d) →
  wp (truncate_from i) s (λ _ s', store_inv s' ∧ file_log s' = cut i (file_log s) ∧
    snapshot_anchor s' = snapshot_anchor s) C.
Proof.
  intros [cs Hok] Hi C HC. destruct (inv_log _ _ Hok) as [Hl _]. rewrite Hl in HC |- *.
  assert (log_from (first_valid_index s) (live (first_valid_index s) cs)) as Hlog by apply Hok.
  assert (dir_ok (dir s) (first_valid_index s) (snapshot_anchor s) None cs []) as Hd.
  { apply dir_ok_open; try done; try apply Hok; [|by left].
    rewrite (torn_segs_nil _ 0) by apply Hok. apply Hok. }
  eapply (wp_truncate (first_valid_index s) (snapshot_anchor s) None i cs); try done.
  - apply Hok.
  - apply Hok.
  - by left.
  - by apply log_from_cut.
  - apply bases_ok_cut; [done|apply Hok].
  - intros cs' s' Hca Hw Hm Hl' Hb Hep Ha Hmax.
    destruct (open_ok_fields (first_valid_index s) (snapshot_anchor s) cs' s') as (_ & ? & ? & ?);
      [|by rewrite H1, Hl'].
    split; try done.
    + apply Hep, Hok.
    + rewrite Hl'. by apply log_from_cut.
    + by rewrite Hl'.
    + apply Hok.
Qed.

Lemma purge_ok s i :
  store_inv s → u64 i → ∀ (C : waldir → Prop),
  (∀ d, recoverable (first_valid_index s) (snapshot_anchor s) (file_log s) d ∨
        recoverable i (snapshot_anchor s) (above i (file_log s)) d → C d) →
  wp (purge_prefix i) s (λ _ s', store_inv s' ∧ file_log s' = above i (file_log s) ∧
    snapshot_anchor s' = snapshot_anchor s) C.
Proof.
  intros [cs Hok] Hi C HC. destruct (inv_log _ _ Hok) as [Hl _]. rewrite Hl in HC |- *.
  destruct (decide (i ≤ first_valid_index s)) as [Hle|Hlt].
  - unfold purge_prefix. apply wp_bind, wp_gets. rewrite decide_True by done. apply wp_ret.
    split_and!; [by exists cs| |done]. rewrite Hl. symmetry. apply filter_all.
    intros x [_ Hx]%elem_of_live. lia.
  - eapply (wp_purge (first_valid_index s) (snapshot_anchor s) cs); [done|lia|done|done|].
    intros cs' s' Hok' Hl' _. destruct (open_ok_fields _ _ _ _ Hok') as (_ & ? & ? & ?). by rewrite H1, Hl'.
Qed.

Lemma anchor_ok s t i :
  store_inv s → u64 t → u64 i → ∀ (C : waldir → Prop),
  (∀ d, recoverable (first_valid_index s) (snapshot_anchor s) (file_log s) d ∨
        recoverable (first_valid_index s) (raised_anchor (snapshot_anchor s) t i) (file_log s) d → C d) →
  wp (update_snapshot_anchor t i) s (λ _ s', store_inv s' ∧ file_log s' = file_log s ∧
    snapshot_anchor s' = raised_anchor (snapshot_anchor s) t i) C.
Proof.
  intros [cs Hok] Ht Hi C HC. destruct (inv_log _ _ Hok) as [Hl _]. rewrite Hl in HC |- *.
  eapply (wp_anchor (first_valid_index s) (snapshot_anchor s) cs); try done.
  intros s' Hok' _ _. by destruct (open_ok_fields _ _ _ _ Hok') as (_ & ? & ? & ?).
Qed.

Lemma append_ok s es :
  store_inv s → file_admits s es → ∀ (C : waldir → Prop),
  (∀ k d, recoverable (first_valid_index s) (snapshot_anchor s) (file_log s ++ take k es) d → C d) →
  wp (append es) s (λ _ s', store_inv s' ∧ file_log s' = file_log s ++ es ∧
    snapshot_anchor s' = snapshot_anchor s) C.
Proof using BL CL.
  intros [cs Hok] Ha C HC. destruct (inv_log _ _ Hok) as [Hl _].
  unfold file_admits in Ha. rewrite Hl in HC, Ha |- *.
  eapply (wp_append (first_valid_index s) (snapshot_anchor s) cs); try done.
  intros cs' s' Hok' Hl' _. destruct (open_ok_fields _ _ _ _ Hok') as (_ & ? & ? & ?). by rewrite H1, Hl'.
Qed.

(** The laws, as the instance the interface's clients use. *)
Lemma file_store_laws :
  LogStoreLaws FileLogStore file_api store_inv file_log snapshot_anchor file_admits.
Proof using BL CL.
  assert (∀ {A} (m : io FileLogStore A) s Q C, wp m s Q C → ∃ s' a, run m s = (s', Ok a) ∧ Q a s') as Hrun
    by (intros; by eapply wp_run).
  split; cbn.
  - apply inv_contig.
  - intros es s Hs Ha. destruct (Hrun _ _ _ _ _ (append_ok s es Hs Ha (λ _, True) ltac:(done)))
      as (s' & [] & Hr & ? & ? & ?). eauto.
  - intros es s _ Hm. destruct (append_refuses_marker es (s, None) Hm) as ([s' f'] & msg & Heq).
    unfold run. rewrite Heq. eauto.
  - intros i s Hs. by apply find_get.
  - intros a b s Hs Hab. unfold get_range. rewrite decide_True by done. f_equal.
    etrans; [|exact (keyed_values_filter e_index (λ k, a ≤ k ∧ k < b) (entries s) (inv_keyed _ Hs))].
    unfold values. f_equal. symmetry. exact (in_order_filter (λ k, a ≤ k ∧ k < b) (entries s)).
  - apply file_last_index.
  - done.
  - intros i s Hs Hi. destruct (Hrun _ _ _ _ _ (truncate_ok s i Hs Hi (λ _, True) ltac:(done)))
      as (s' & [] & Hr & ? & ? & ?). eauto.
  - intros i s Hs. unfold term_at, file_log. by rewrite keyed_find by by apply inv_keyed.
  - intros s Hs. exists s. split_and!; try done. unfold run, flush, io_bind, gets, call. cbn [fst].
    destruct (active_writer s); cbn; [|done]. by destruct s.
  - intros i s Hs Hi. destruct (Hrun _ _ _ _ _ (purge_ok s i Hs Hi (λ _, True) ltac:(done)))
      as (s' & [] & Hr & ? & ? & ?). eauto.
  - intros t i s Hs Ht Hi. destruct (Hrun _ _ _ _ _ (anchor_ok s t i Hs Ht Hi (λ _, True) ltac:(done)))
      as (s' & [] & Hr & ? & ? & ?). eauto.
  - intros e s Hs. unfold end_offset_for_epoch. rewrite file_last_index by done.
    assert (epoch_starts s = rebuild_epoch_starts (file_log s)) as ->.
    { destruct Hs as [cs Hok]. apply Hok. }
    apply end_offset_lookup_correct. by apply inv_contig.
Qed.

(** C30: [FileLogStore] implements the [LogStore] contract on a disk that does
    not fail: from any open store, appends of admissible batches, suffix
    truncations, prefix purges and anchor updates succeed with exactly the
    documented effect on the log, rotation, segment deletion and marker files
    included, and keep the store's invariant; every read is a read of that log;
    a batch with a compaction marker is refused. *)
Theorem file_store_refines_log_store :
  LogStoreLaws FileLogStore file_api store_inv file_log snapshot_anchor file_admits.
Proof using BL CL. exact file_store_laws. Qed.

(** ** Restarts *)

Lemma recoverable_opens floor anchor l d max :
  recoverable floor anchor l d →
  ∃ s, open_with_max_segment_size d max None = ((s, None), Ok tt) ∧ store_inv s ∧ file_log s = l ∧
    first_valid_index s = floor ∧ snapshot_anchor s = anchor.
Proof using BL CL.
  intros Hr. pose proof (wp_open floor anchor l d max (λ _ s, store_inv s ∧ file_log s = l ∧
    first_valid_index s = floor ∧ snapshot_anchor s = anchor) Hr) as Hwp.
  assert (∀ cs s', open_ok floor anchor cs s' → live floor cs = l → max_segment_size s' = max →
    store_inv s' ∧ file_log s' = l ∧ first_valid_index s' = floor ∧ snapshot_anchor s' = anchor) as HQ.
  { intros cs s' Hok Hl _. destruct (open_ok_fields _ _ _ _ Hok) as (? & ? & ? & ?).
    split_and!; try done. congruence. }
  specialize (Hwp HQ None ltac:(done)). unfold open_with_max_segment_size.
  destruct (open_store (empty_store d max, None)) as [[s' f'] [[]|e]]; [|by destruct Hwp].
  destruct Hwp as [(? & ? & ? & ?) Hf]. exists s'. rewrite Hf by done. done.
Qed.

(** Any number of opens of the directory, each with a fault at any of its
    calls or with none, whatever it returned: an open whose fault falls into
    the rewrite of the checkpoint returns [Ok]. *)
Inductive interrupted_opens : waldir → waldir → Prop :=
| opens_none d : interrupted_opens d d
| opens_more d max fault s' fault' r d' :
    open_with_max_segment_size d max fault = ((s', fault'), r) →
    interrupted_opens (dir s') d' → interrupted_opens d d'.

Lemma open_wp floor anchor l d max :
  recoverable floor anchor l d →
  wp open_store (empty_store d max) (λ _ s, store_inv s ∧ recoverable floor anchor l (dir s)) (recoverable floor anchor l).
Proof using BL CL.
  intros Hr. apply wp_open; [done|]. intros cs s' Hok Hl _.
  destruct (open_ok_fields _ _ _ _ Hok) as (_ & _ & Hs & _). split; [done|].
  rewrite <-Hl. by apply (open_recoverable _ _ _ s').
Qed.

Lemma recoverable_interrupted floor anchor l d d' :
  recoverable floor anchor l d → interrupted_opens d d' → recoverable floor anchor l d'.
Proof using BL CL.
  intros Hr Ho. induction Ho as [|d max fault s' fault' r d' Heq _ IH]; [done|]. apply IH.
  destruct (wp_outcome _ _ _ _ _ _ _ _ (open_wp _ _ _ _ max Hr) Heq) as [(a & _ & [_ ?] & _)|[_ [_ ?]]]; done.
Qed.

Lemma inv_recoverable s :
  store_inv s → recoverable (first_valid_index s) (snapshot_anchor s) (file_log s) (dir s).
Proof. intros [cs Hok]. destruct (inv_log _ _ Hok) as [-> _]. by apply (open_recoverable _ _ _ s). Qed.

(** ** Interrupted operations *)

Inductive log_op : Type :=
| OpAppend (es : list Entry)
| OpTruncateFrom (index : N)
| OpPurgePrefix (through : N)
| OpUpdateAnchor (t index : N).

Definition run_op (op : log_op) : io FileLogStore unit :=
  match op with
  | OpAppend es => append es
  | OpTruncateFrom i => truncate_from i
  | OpPurgePrefix i => purge_prefix i
  | OpUpdateAnchor t i => update_snapshot_anchor t i
  end.
Definition op_admitted s (op : log_op) : Prop :=
  match op with
  | OpAppend es => file_admits s es
  | OpTruncateFrom i | OpPurgePrefix i => u64 i
  | OpUpdateAnchor t i => u64 t ∧ u64 i
  end.

(** The log and anchor a completed operation leaves. *)
Definition op_effect (op : log_op) (l : list Entry) (a : option (N * N)) : list Entry * option (N * N) :=
  match op with
  | OpAppend es => (l ++ es, a)
  | OpTruncateFrom i => (cut i l, a)
  | OpPurgePrefix i => (above i l, a)
  | OpUpdateAnchor t i => (l, raised_anchor a t i)
  end.
(** What an interrupted one may leave: nothing, all of it, or for an append a
    prefix of the batch. *)
Definition op_partial (op : log_op) (l : list Entry) (a : option (N * N)) (r : list Entry * option (N * N)) : Prop :=
  r = (l, a) ∨ r = op_effect op l a ∨
  match op with OpAppend es => ∃ k, r = (l ++ take k es, a) | _ => False end.

Lemma op_wp s op :
  store_inv s → op_admitted s op →
  wp (run_op op) s
    (λ _ s', store_inv s' ∧ (file_log s', snapshot_anchor s') = op_effect op (file_log s) (snapshot_anchor s))
    (λ d, ∃ floor a l, recoverable floor a l d ∧ op_partial op (file_log s) (snapshot_anchor s) (l, a)).
Proof using BL CL.
  intros Hs Ha. unfold op_partial. destruct op as [es|i|i|t i]; cbn [run_op op_admitted op_effect] in *.
  - eapply wp_conseq; [apply (append_ok s es Hs Ha (λ d, ∃ k, recoverable (first_valid_index s)
      (snapshot_anchor s) (file_log s ++ take k es) d)); eauto| |].
    + by intros _ s' (? & -> & ->).
    + intros d [k Hr]. do 3 eexists. split; [exact Hr|]. eauto.
  - eapply wp_conseq; [by apply (truncate_ok s i Hs Ha _ (λ d H, H))| |].
    + by intros _ s' (? & -> & ->).
    + intros d [Hr|Hr]; do 3 eexists; (split; [exact Hr|]); auto.
  - eapply wp_conseq; [by apply (purge_ok s i Hs Ha _ (λ d H, H))| |].
    + by intros _ s' (? & -> & ->).
    + intros d [Hr|Hr]; do 3 eexists; (split; [exact Hr|]); auto.
  - destruct Ha as [Ht Hi]. eapply wp_conseq; [by apply (anchor_ok s t i Hs Ht Hi _ (λ d H, H))| |].
    + by intros _ s' (? & -> & ->).
    + intros d [Hr|Hr]; do 3 eexists; (split; [exact Hr|]); auto.
Qed.

(** C24: crash consistency of the write-ahead log: run any admissible operation
    with a fault at any of its file-system calls, the broken call half-done;
    then, after any number of opens of the directory, broken off at any call or
    not, [open] succeeds and the log and anchor are those before the operation,
    those after it, or for an append those with a prefix of the batch.  If the
    operation reported success, they are those after it. *)
Theorem interrupted_operation_recovers s op fault s' fault' r d' max :
  store_inv s → op_admitted s op → run_op op (s, fault) = ((s', fault'), r) →
  interrupted_opens (dir s') d' →
  ∃ s'', open_with_max_segment_size d' max None = ((s'', None), Ok tt) ∧ store_inv s'' ∧
    op_partial op (file_log s) (snapshot_anchor s) (file_log s'', snapshot_anchor s'') ∧
    (r = Ok tt → (file_log s'', snapshot_anchor s'') = op_effect op (file_log s) (snapshot_anchor s)).
Proof using BL CL.
  intros Hs Ha Hrun Ho.
  destruct (wp_outcome _ _ _ _ _ _ _ _ (op_wp s op Hs Ha) Hrun)
    as [([] & -> & (Hs' & He) & _)|[[e ->] (_ & floor & a & l & Hr & Hp)]].
  - pose proof (recoverable_interrupted _ _ _ _ _ (inv_recoverable _ Hs') Ho) as Hr.
    destruct (recoverable_opens _ _ _ _ max Hr) as (s'' & Hopen & Hinv & Hl & _ & Han).
    exists s''. rewrite Hl, Han. split_and!; try done. right. by left.
  - pose proof (recoverable_interrupted _ _ _ _ _ Hr Ho) as Hr'.
    destruct (recoverable_opens _ _ _ _ max Hr') as (s'' & Hopen & Hinv & Hl & _ & Han).
    exists s''. rewrite Hl, Han. done.
Qed.

(** ** Histories *)



Definition no_dir : waldir := mkWaldir ∅ ∅.
Lemma no_dir_recoverable : recoverable 0 None [] no_dir.
Proof.
  exists None, [], []. split; [|done]. split; try done.
  - by left.
  - split; try done. by exists ∅.
  - by right; intros c ?%not_elem_of_nil.
Qed.




End Laws.
End Safety.

Import Concrete.

(** ** Sample histories *)

(** Segments of forty bytes, so that two of these frames do not fit. *)
Definition small : N := 40.
Definition cmd (i t : N) (n : nat) : Entry := mkEntry i t (Command (replicate n Byte.x2a)).

Definition opened (d : waldir) : FileLogStore := (open_with_max_segment_size d small None).1.1.
Definition appended (es : list Entry) (s : FileLogStore) : FileLogStore := (DirIo.run (append es) s).1.

Lemma fresh_store_inv : store_inv (opened no_dir) ∧ file_log (opened no_dir) = [].
Proof.
  destruct (recoverable_opens 0 None [] no_dir small no_dir_recoverable) as (s & Ho & Hi & Hl & _).
  unfold opened. by rewrite Ho.
Qed.

Definition two_entries : list Entry := [cmd 1 1 2; cmd 2 1 3].

Lemma two_admitted : file_admits (opened no_dir) two_entries.
Proof.
  split_and!.
  - repeat constructor; apply storable_b; vm_compute; reflexivity.
  - destruct fresh_store_inv as [_ Hl]. unfold log_from. rewrite Hl. vm_compute. by split_and!.
  - repeat constructor; apply (bool_decide_unpack _); vm_compute; exact I.
Qed.

Lemma file_store_refines_log_store_witness :
  ∃ s', DirIo.run (append two_entries) (opened no_dir) = (s', Ok tt) ∧ store_inv s' ∧
    file_log s' = file_log (opened no_dir) ++ two_entries ∧
    snapshot_anchor s' = snapshot_anchor (opened no_dir).
Proof.
  apply (@ls_append_ok _ _ _ _ _ _ _ file_store_refines_log_store two_entries (opened no_dir)
           (proj1 fresh_store_inv) two_admitted).
Defined.





(** The write of the second frame, behind the creation of its segment, breaks
    off after five bytes. *)
Definition broken_append : world FileLogStore * Result unit := append two_entries (opened no_dir, Some (8, 5)%nat).

Lemma interrupted_operation_recovers_witness :
  ∃ s'', open_with_max_segment_size (dir broken_append.1.1) small None = ((s'', None), Ok tt) ∧
    store_inv s'' ∧
    op_partial (OpAppend two_entries) (file_log (opened no_dir)) (snapshot_anchor (opened no_dir))
      (file_log s'', snapshot_anchor s'') ∧
    (broken_append.2 = Ok tt → (file_log s'', snapshot_anchor s'') =
      op_effect (OpAppend two_entries) (file_log (opened no_dir)) (snapshot_anchor (opened no_dir))).
Proof.
  exact (interrupted_operation_recovers (opened no_dir) (OpAppend two_entries) (Some (8, 5)%nat)
    broken_append.1.1 broken_append.1.2 broken_append.2 (dir broken_append.1.1) small
    (proj1 fresh_store_inv) two_admitted (outcome_eta broken_append) (opens_none _)).
Defined.

(** ** Lost entries *)

(** A write of entry 1 that breaks off half-way, and a second attempt on the
    same handle that succeeds. *)
Definition after_failed_append : world FileLogStore * Result unit :=
  append [cmd 1 1 2] (opened no_dir, Some (1, 5)%nat).
Definition after_retry : world FileLogStore * Result unit := append [cmd 1 1 2] after_failed_append.1.

(** a store used after a failed append can lose what it acknowledges: the
    torn frame stays in the segment and the offset is not repaired, so when a
    retry of the append succeeds and the store serves the entry, the next
    [open] stops at the torn frame and comes up with an empty log. *)
Theorem retried_append_is_lost :
  after_failed_append.2 = Err (Storage "io") ∧ after_retry.2 = Ok tt ∧
  file_log after_retry.1.1 = [cmd 1 1 2] ∧
  (open_with_max_segment_size (dir after_retry.1.1) small None).2 = Ok tt ∧
  file_log (opened (dir after_retry.1.1)) = [].
Proof. vm_compute. split_and!; reflexivity. Qed.

(** Entry 1; a crash right after the segment for entry 2 was created; a
    restart; entry 2 again, now in a frame larger than a segment; a purge
    through entry 1. *)
Definition crashed_rotation : waldir :=
  dir (append [cmd 2 1 2] (appended [cmd 1 1 2] (opened no_dir), Some (2, 0)%nat)).1.1.
Definition oversized : FileLogStore := appended [cmd 2 1 30] (opened crashed_rotation).
Definition purged : FileLogStore * Result unit := DirIo.run (purge_prefix 1) oversized.

(** a purge can delete the live segment: after a crash that leaves the last
    segment empty, a first frame larger than the segment size makes [append]
    list that segment twice, and a purge below it then deletes the file of the
    entry it keeps; the store still serves the entry, but the next [open]
    comes up without it. *)
Theorem oversized_frame_is_purged :
  file_log (opened crashed_rotation) = [cmd 1 1 2] ∧
  file_log oversized = [cmd 1 1 2; cmd 2 1 30] ∧
  purged.2 = Ok tt ∧ file_log purged.1 = [cmd 2 1 30] ∧
  (open_with_max_segment_size (dir purged.1) small None).2 = Ok tt ∧
  file_log (opened (dir purged.1)) = [].
Proof. vm_compute. split_and!; reflexivity. Qed.
