(* ===== verification/SnapshotNames.v ===== *)
(** * Names of snapshot files ([xraft-storage/src/snapshot_store.rs])

    The canonical id and file name of a snapshot, the parser of file names,
    and the temporary and backup siblings of a file. *)

From S2P Require Import Prelude Text EpochFile.

(** [format!("{:0w$}", n)]. *)
Definition padded (w : nat) (n : N) : list ascii :=
  replicate (w - length (digits n)) "0"%char ++ digits n.

Definition SNAPSHOT_EXT : string := "bin".
Definition canonical_id (t index : N) : string :=
  "snapshot-" +:+ of_chars (padded 10 t ++ ["-"%char] ++ padded 20 index).
Definition snapshot_filename (t index : N) : string :=
  canonical_id t index +:+ "." +:+ SNAPSHOT_EXT.

(** [Path::file_stem] and [Path::extension] of a single path component. *)
Definition file_stem (name : string) : string :=
  match rsplit_char "." name with
  | Some (b, _) => if decide (b = "") then name else b
  | None => name
  end.
Definition extension (name : string) : option string :=
  match rsplit_char "." name with
  | Some (b, a) => if decide (b = "") then None else Some a
  | None => None
  end.
(** [str::strip_prefix], [str::strip_suffix]. *)
Fixpoint strip_chars (p l : list ascii) : option (list ascii) :=
  match p, l with
  | [], _ => Some l
  | x :: p, y :: l => if Ascii.eqb x y then strip_chars p l else None
  | _ :: _, [] => None
  end.
Definition strip_prefix (p s : string) : option string :=
  of_chars <$> strip_chars (chars p) (chars s).

Definition strip_suffix (p s : string) : option string :=
  (λ l, of_chars (rev l)) <$> strip_chars (rev (chars p)) (rev (chars s)).

(** [parse_snapshot_filename]; [splitn(2, '-')] cuts at the first dash. *)
Definition parse_snapshot_filename (name : string) : option (N * N) :=
  rest ← strip_prefix "snapshot-" (file_stem name);
  '(t_part, i_part) ← split_first "-" (chars rest);
  t ← parse_u64 (of_chars t_part);
  index ← parse_u64 (of_chars i_part);
  Some (t, index).

(** [path.with_extension("bin.tmp")], [path.with_extension("bin.bak")]. *)
Definition tmp_path (name : string) : string := file_stem name +:+ ".bin.tmp".
Definition bak_path (name : string) : string := file_stem name +:+ ".bin.bak".
(** [path_str.ends_with(".bin.bak")], and the path without [".bak"]: what
    precedes ends in [".bin"], so [trim_end_matches] strips one suffix. *)
Definition backup_of (name : string) : option string :=
  match strip_suffix ".bin.bak" name with
  | Some _ => strip_suffix ".bak" name
  | None => None
  end.

(** ** Padding and parsing *)

Lemma chars_app a b : chars (a +:+ b) = chars a ++ chars b.
Proof. induction a as [|c a IH]; [done|]. change (c :: chars (a +:+ b) = c :: chars a ++ chars b). by rewrite IH. Qed.
Lemma chars_inj a b : chars a = chars b → a = b.
Proof. intros H. by rewrite <-(of_chars_chars a), H, of_chars_chars. Qed.

Lemma padded_digits w n : Forall (λ c, is_digit c = true) (padded w n).
Proof. apply Forall_app. split; [by apply Forall_replicate|apply digits_all]. Qed.
Lemma padded_nonempty w n : padded w n ≠ [].
Proof. unfold padded. intros [_ H]%app_eq_nil. by apply (digits_nonempty n). Qed.

Lemma parse_uint_all max cs :
  Forall (λ c, is_digit c = true) cs → cs ≠ [] → parse_uint max (of_chars cs) = parse_digits max 0 cs.
Proof.
  intros Hall Hne. unfold parse_uint. rewrite chars_of_chars. destruct cs as [|c cs]; [done|].
  apply Forall_cons in Hall as [Hc _]. destruct (Ascii.eqb_spec c "+") as [->|]; [done|]. done.
Qed.
Lemma parse_digits_zeros max k cs :
  parse_digits max 0 (replicate k "0"%char ++ cs) = parse_digits max 0 cs.
Proof.
  induction k as [|k IH]; [done|]. cbn [replicate app parse_digits].
  change (is_digit "0") with true. cbv iota. change (0 * 10 + digit_val "0") with 0.
  by rewrite decide_True by lia.
Qed.
Lemma parse_padded w n : u64 n → parse_u64 (of_chars (padded w n)) = Some n.
Proof.
  intros Hn. unfold parse_u64. rewrite parse_uint_all; [|apply padded_digits|apply padded_nonempty].
  unfold padded. rewrite parse_digits_zeros.
  rewrite <-parse_uint_all; [|apply digits_all|apply digits_nonempty]. by apply parse_uint_digits.
Qed.

(** ** Canonical names *)

Lemma digit_not_in c cs : is_digit c = false → Forall (λ x, is_digit x = true) cs → c ∉ cs.
Proof. intros Hc Hall Hin. rewrite Forall_forall in Hall. rewrite (Hall _ Hin) in Hc. done. Qed.

Lemma rsplit_ext a b : "."%char ∉ chars b → rsplit_char "." (a +:+ "." +:+ b) = Some (a, b).
Proof. intros Hb. apply rsplit_char_spec. split; [by rewrite chars_app|done]. Qed.

Lemma canonical_id_nonempty t i : canonical_id t i ≠ "".
Proof. done. Qed.

Lemma file_stem_dotted a b : "."%char ∉ chars b → a ≠ "" → file_stem (a +:+ "." +:+ b) = a.
Proof. intros Hb Ha. unfold file_stem. rewrite rsplit_ext by done. by rewrite decide_False. Qed.
Lemma extension_dotted a b : "."%char ∉ chars b → a ≠ "" → extension (a +:+ "." +:+ b) = Some b.
Proof. intros Hb Ha. unfold extension. rewrite rsplit_ext by done. by rewrite decide_False. Qed.

Lemma not_dot s : bool_decide ("."%char ∉ chars s) = true → "."%char ∉ chars s.
Proof. apply bool_decide_eq_true. Qed.

Lemma file_stem_canonical t i : file_stem (snapshot_filename t i) = canonical_id t i.
Proof. by apply file_stem_dotted; [apply not_dot|]. Qed.
Lemma extension_canonical t i : extension (snapshot_filename t i) = Some "bin".
Proof. by apply extension_dotted; [apply not_dot|]. Qed.

Lemma strip_chars_app p l : strip_chars p (p ++ l) = Some l.
Proof. induction p as [|x p IH]; [done|]. cbn. by rewrite Ascii.eqb_refl. Qed.
Lemma strip_chars_Some p l r : strip_chars p l = Some r → l = p ++ r.
Proof.
  revert l. induction p as [|x p IH]; intros l; [by intros [= ->]|]. cbn. destruct l as [|y l]; [done|].
  destruct (Ascii.eqb_spec x y) as [->|]; [|done]. intros H. by rewrite (IH _ H).
Qed.
Lemma strip_suffix_app a p : strip_suffix p (a +:+ p) = Some a.
Proof.
  unfold strip_suffix. rewrite chars_app, rev_app_distr, strip_chars_app. cbn.
  by rewrite rev_involutive, of_chars_chars.
Qed.

Lemma parse_canonical_id t i name :
  u64 t → u64 i → file_stem name = canonical_id t i → parse_snapshot_filename name = Some (t, i).
Proof.
  intros Ht Hi Hs. unfold parse_snapshot_filename. rewrite Hs.
  assert (strip_prefix "snapshot-" (canonical_id t i) =
    Some (of_chars (padded 10 t ++ "-"%char :: padded 20 i))) as ->.
  { unfold strip_prefix, canonical_id. rewrite chars_app, chars_of_chars, strip_chars_app. done. }
  cbn. rewrite chars_of_chars.
  rewrite (proj2 (split_first_app "-" _ (padded 10 t) (padded 20 i))).
  2:{ split; [done|]. apply digit_not_in; [done|apply padded_digits]. }
  cbn. rewrite !parse_padded by done. done.
Qed.
Lemma parse_snapshot_filename_canonical t i :
  u64 t → u64 i → parse_snapshot_filename (snapshot_filename t i) = Some (t, i).
Proof. intros Ht Hi. by apply parse_canonical_id, file_stem_canonical. Qed.

Lemma snapshot_filename_inj t i t' i' :
  u64 t → u64 i → u64 t' → u64 i' → snapshot_filename t i = snapshot_filename t' i' → t = t' ∧ i = i'.
Proof.
  intros ???? Heq. pose proof (parse_snapshot_filename_canonical t i) as Hp.
  rewrite Heq, parse_snapshot_filename_canonical in Hp by done.
  specialize (Hp ltac:(done) ltac:(done)). by simplify_eq.
Qed.
Lemma canonical_id_inj t i t' i' :
  u64 t → u64 i → u64 t' → u64 i' → canonical_id t i = canonical_id t' i' → t = t' ∧ i = i'.
Proof.
  intros ???? Heq. apply snapshot_filename_inj; try done. unfold snapshot_filename. by rewrite Heq.
Qed.

(** Siblings. *)
Lemma tmp_path_eq t i : tmp_path (snapshot_filename t i) = snapshot_filename t i +:+ ".tmp".
Proof. unfold tmp_path. rewrite file_stem_canonical. apply chars_inj. unfold snapshot_filename. by rewrite !chars_app, <-!app_assoc. Qed.
Lemma bak_path_eq t i : bak_path (snapshot_filename t i) = snapshot_filename t i +:+ ".bak".
Proof. unfold bak_path. rewrite file_stem_canonical. apply chars_inj. unfold snapshot_filename. by rewrite !chars_app, <-!app_assoc. Qed.
Lemma extension_tmp t i : extension (tmp_path (snapshot_filename t i)) = Some "tmp".
Proof. rewrite tmp_path_eq. by apply (extension_dotted _ "tmp"); [apply not_dot|]. Qed.
Lemma extension_bak t i : extension (bak_path (snapshot_filename t i)) = Some "bak".
Proof. rewrite bak_path_eq. by apply (extension_dotted _ "bak"); [apply not_dot|]. Qed.
Lemma backup_of_bak t i : backup_of (bak_path (snapshot_filename t i)) = Some (snapshot_filename t i).
Proof.
  unfold backup_of. unfold bak_path at 1. rewrite strip_suffix_app, bak_path_eq. apply strip_suffix_app.
Qed.
Lemma backup_of_Some name p : backup_of name = Some p → extension name = Some "bak" ∧ name = p +:+ ".bak".
Proof.
  unfold backup_of. destruct (strip_suffix ".bin.bak" name) as [q|] eqn:Hq; [|done].
  unfold strip_suffix in *. intros Hp.
  apply fmap_Some in Hq as (lq & Hq%strip_chars_Some & ->).
  apply fmap_Some in Hp as (lp & Hp%strip_chars_Some & ->).
  assert (∀ p l, rev (chars name) = rev (chars p) ++ l → name = of_chars (rev l) +:+ p) as Hn.
  { intros x l Hl. apply chars_inj. rewrite chars_app, chars_of_chars.
    by rewrite <-(rev_involutive (chars name)), Hl, rev_app_distr, rev_involutive. }
  split; [|by apply (Hn ".bak")].
  rewrite (Hn _ _ Hq).
  assert (of_chars (rev lq) +:+ ".bin.bak" = (of_chars (rev lq) +:+ ".bin") +:+ "." +:+ "bak") as ->.
  { apply chars_inj. by rewrite !chars_app, <-!app_assoc. }
  apply extension_dotted; [by apply not_dot|]. by destruct (rev lq).
Qed.

(** A number is parsed from digits, after a plus sign at most. *)
Lemma parse_digits_Some max acc cs n :
  parse_digits max acc cs = Some n → Forall (λ c, is_digit c = true) cs.
Proof.
  revert acc. induction cs as [|c cs IH]; intros acc; [by constructor|]. cbn.
  destruct (is_digit c) eqn:Hc; [|done]. case_decide; [|done]. intros H1. constructor; [done|by eapply IH].
Qed.
Lemma parse_u64_no_dot s n : parse_u64 s = Some n → "."%char ∉ chars s.
Proof.
  unfold parse_u64, parse_uint. destruct (chars s) as [|c cs]; [done|].
  destruct (Ascii.eqb_spec c "+") as [->|].
  - destruct cs as [|c' cs]; [done|]. intros Hp%parse_digits_Some. apply not_elem_of_cons. split; [done|].
    by apply digit_not_in.
  - intros Hp%parse_digits_Some. by apply digit_not_in.
Qed.

(** With the extension appended, an id parses only if it parses itself. *)
Lemma parse_with_ext id k :
  parse_snapshot_filename (id +:+ ".bin") = Some k → parse_snapshot_filename id = Some k.
Proof.
  intros Hp. assert (id ≠ "") as Hne by (intros ->; vm_compute in Hp; done).
  assert (file_stem (id +:+ ".bin") = id) as Hstem by (by apply (file_stem_dotted id "bin"); [apply not_dot|]).
  assert (file_stem id = id) as Hid; [|unfold parse_snapshot_filename in *; by rewrite Hid; rewrite Hstem in Hp].
  unfold parse_snapshot_filename in Hp. rewrite Hstem in Hp.
  apply bind_Some in Hp as (rest & (lr & Hrest%strip_chars_Some & ->)%fmap_Some & Hp).
  apply bind_Some in Hp as ([a b] & Hs & Hp).
  apply bind_Some in Hp as (t & Ht%parse_u64_no_dot & Hp).
  apply bind_Some in Hp as (i & Hi%parse_u64_no_dot & _).
  rewrite chars_of_chars in *. apply split_first_app in Hs as [-> _].
  unfold file_stem. destruct (rsplit_char "." id) as [[x y]|] eqn:He; [|done].
  apply rsplit_char_spec in He as [Hd _].
  assert ("."%char ∉ chars id) as Hno; [|destruct Hno; rewrite Hd; apply elem_of_app; right; by left].
  rewrite Hrest. rewrite !not_elem_of_app, not_elem_of_cons. by split; [apply not_dot|].
Qed.
