(* ===== verification/SnapshotCodec.v ===== *)
(** * The snapshot file format ([xraft-storage/src/snapshot_store.rs])

    [encode_snapshot] and [decode_snapshot], and the two readers that stop short of the payload or stream it:
    [decode_header_for_streaming] and [read_meta_from_file].  [usize] is 64
    bits wide.  Additions that the format's own limits keep below [u64] are
    written plainly. *)

From S2P Require Import Prelude CoreTypes Message Text Bytes WalCodec SnapshotNames Concrete.

(** [u64::checked_add]. *)
Definition checked_add (a b : N) : option N :=
  if decide (a + b ≤ u64_max) then Some (a + b) else None.

(** ** The binary format *)

Definition SNAPSHOT_MAGIC : N := 1347310424.
Definition SNAPSHOT_VERSION : N := 1.
Definition FIXED_HEADER_SIZE : nat := 26.
Definition MAX_VOTER_SET_LEN : N := 100000000.

(** [crc32fast::Hasher]: hashing chunk by chunk is hashing their
    concatenation. *)
Class Crc32Hasher : Type := {
  Hasher : Type;
  hasher_new : Hasher;
  hasher_update : bytes → Hasher → Hasher;
  hasher_finalize : Hasher → N;
}.
Class Crc32HasherLaws {CR : Crc32} (CH : Crc32Hasher) : Prop := {
  hasher_chunks (bs : list bytes) :
    hasher_finalize (foldl (λ h b, hasher_update b h) hasher_new bs) = crc32_of (concat bs);
}.

Section Codec.
Context {MA : MembershipApi} {BV : Bincode VoterSet} {CR : Crc32} {CH : Crc32Hasher}.

Definition encode_snapshot (meta : SnapshotMeta) (data : bytes) : Result bytes :=
  let voter_set_bytes := match sm_voter_set meta with Some vs => bin_ser vs | None => [] end in
  let voter_set_len := N.of_nat (length voter_set_bytes) in
  if decide (4294967295 < voter_set_len) then Err (Storage "voter_set too large")
  else
    let data_len := N.of_nat (length data) in
    if decide (u64_max < data_len) then Err (Storage "snapshot data length exceeds u64")
    else if decide (u64_max < 26 + voter_set_len + 8 + data_len + 4)
    then Err (Storage "overflow computing snapshot encoding size")
    else Ok (u32_bytes SNAPSHOT_MAGIC ++ le_bytes 2 SNAPSHOT_VERSION ++
             u64_bytes (last_included_index meta) ++ u64_bytes (last_included_term meta) ++
             u32_bytes voter_set_len ++ voter_set_bytes ++
             u64_bytes data_len ++ data ++ u32_bytes (crc32_of data)).

(** The checks on the fixed header every reader makes: the snapshot's index
    and term and the length of the voter set. *)
Definition fixed_header (hdr : bytes) : Result (N * N * N) :=
  if decide (le_num (slice hdr 0 4) ≠ SNAPSHOT_MAGIC) then Err (Storage "bad snapshot magic")
  else if decide (le_num (slice hdr 4 6) ≠ SNAPSHOT_VERSION)
  then Err (Storage "unsupported snapshot version")
  else
    let voter_set_len := le_num (slice hdr 22 26) in
    if decide (MAX_VOTER_SET_LEN < voter_set_len) then Err (Storage "voter_set_len too large")
    else Ok (le_num (slice hdr 6 14), le_num (slice hdr 14 22), voter_set_len).

Definition voter_set_field (vs_bytes : bytes) : Result (option VoterSet) :=
  match vs_bytes with
  | [] => Ok None
  | _ => match bin_de vs_bytes with
         | Some vs => Ok (Some vs)
         | None => Err (Storage "voter_set decode")
         end
  end.

(** The metadata the readers return. *)
Definition file_meta (index t : N) (vs : option VoterSet) (data_len crc : N) : SnapshotMeta :=
  mkSnapshotMeta MA index t (canonical_id t index) vs (Some data_len) (Some crc).

Definition decode_snapshot (raw : bytes) : Result (SnapshotMeta * bytes) :=
  let len := N.of_nat (length raw) in
  if decide (length raw < FIXED_HEADER_SIZE)%nat
  then Err (Storage "snapshot file too short for header")
  else
    let? (index, t, voter_set_len) := fixed_header raw in
    let vs_end := 26 + voter_set_len in
    let data_start := vs_end + 8 in
    if decide (len < data_start) then Err (Storage "snapshot file truncated in voter-set or data-len")
    else
      let? vs := voter_set_field (slice raw FIXED_HEADER_SIZE (N.to_nat vs_end)) in
      let data_len := le_num (slice raw (N.to_nat vs_end) (N.to_nat data_start)) in
      match checked_add data_start data_len with
      | None => Err (Storage "overflow in data_len")
      | Some data_end =>
          match checked_add data_end 4 with
          | None => Err (Storage "overflow in crc offset")
          | Some crc_end =>
              if decide (len < crc_end) then Err (Storage "snapshot file truncated in payload data or crc")
              else if decide (crc_end < len) then Err (Storage "snapshot has trailing bytes after crc")
              else
                let data := slice raw (N.to_nat data_start) (N.to_nat data_end) in
                let stored_crc := le_num (slice raw (N.to_nat data_end) (N.to_nat crc_end)) in
                if decide (stored_crc ≠ crc32_of data) then Err (Storage "snapshot payload CRC mismatch")
                else Ok (file_meta index t vs data_len (crc32_of data), data)
          end
      end.

(** ** Readers on an open file: what is left to read is the state *)

(** [Read::read_exact]: the bytes read and the rest. *)
Definition read_exact (n : N) (r : bytes) : Result (bytes * bytes) :=
  if decide (N.of_nat (length r) < n) then Err (Storage "failed to fill whole buffer")
  else Ok (take (N.to_nat n) r, drop (N.to_nat n) r).

(** Up to the payload, file size checked: the fields of the header, the
    length of the payload, the header's size and the payload with its CRC. *)
Definition read_header (file : bytes) : Result (N * N * option VoterSet * N * N * bytes) :=
  let? (hdr, r) := read_exact 26 file in
  let? (index, t, voter_set_len) := fixed_header hdr in
  let? (vs_buf, r) := read_exact voter_set_len r in
  let? vs := voter_set_field vs_buf in
  let? (dl, r) := read_exact 8 r in
  let data_len := le_num dl in
  let header_size := 26 + voter_set_len + 8 in
  match checked_add header_size data_len with
  | None => Err (Storage "overflow computing expected file size")
  | Some data_end =>
      match checked_add data_end 4 with
      | None => Err (Storage "overflow computing expected file size")
      | Some expected_len =>
          if decide (N.of_nat (length file) ≠ expected_len) then Err (Storage "snapshot file size mismatch")
          else Ok (index, t, vs, data_len, header_size, r)
      end
  end.

(** The metadata, header size, payload length and stored CRC, and the reader
    at the payload. *)
Definition decode_header_for_streaming (file : bytes)
    : Result (SnapshotMeta * N * N * N * bytes) :=
  let? (index, t, vs, data_len, header_size, r) := read_header file in
  let? (crc_buf, _) := read_exact 4 (drop (N.to_nat (header_size + data_len)) file) in
  let stored_crc := le_num crc_buf in
  Ok (file_meta index t vs data_len stored_crc, header_size, data_len, stored_crc, r).

(** The loop that hashes the payload 64 KiB at a time; [None] is out of fuel. *)
Fixpoint crc_loop (fuel : nat) (buf_len remaining : N) (r : bytes) (h : Hasher)
    : option (Result (Hasher * bytes)) :=
  match fuel with
  | O => None
  | S fuel =>
      if decide (0 < remaining) then
        let to_read := N.min buf_len remaining in
        match read_exact to_read r with
        | Err e => Some (Err e)
        | Ok (b, r) => crc_loop fuel buf_len (remaining - to_read) r (hasher_update b h)
        end
      else Some (Ok (h, r))
  end.

(** [read_meta_from_file]; every iteration reads at least one byte. *)
Definition read_meta_from_file (file : bytes) : Result SnapshotMeta :=
  let? (index, t, vs, data_len, _, r) := read_header file in
  match crc_loop (S (length r)) (N.min data_len 65536) data_len r hasher_new with
  | None => Err (Storage "out of fuel")
  | Some (Err e) => Err e
  | Some (Ok (h, r)) =>
      let? (crc_buf, _) := read_exact 4 r in
      let stored_crc := le_num crc_buf in
      if decide (hasher_finalize h ≠ stored_crc)
      then Err (Storage "snapshot payload CRC mismatch during indexing")
      else Ok (file_meta index t vs data_len stored_crc)
  end.

(** ** The layout every reader agrees on *)

(** [raw] is a fixed header, the voter set's bytes, the payload's length, the
    payload and four bytes of checksum. *)
Record layout (raw : bytes) (index t : N) (vs : option VoterSet) (vs_len : N) (data : bytes) (crc : N)
    : Prop := {
  ly_parts : ∃ hdr vsb dlb crcb, raw = hdr ++ vsb ++ dlb ++ data ++ crcb ∧
    length hdr = 26%nat ∧ length vsb = N.to_nat vs_len ∧ length dlb = 8%nat ∧ length crcb = 4%nat ∧
    fixed_header hdr = Ok (index, t, vs_len) ∧ voter_set_field vsb = Ok vs ∧
    le_num dlb = N.of_nat (length data) ∧ le_num crcb = crc;
  ly_fits : N.of_nat (length raw) ≤ u64_max;
}.

Lemma fixed_header_app (hdr x : bytes) : length hdr = 26%nat → fixed_header (hdr ++ x) = fixed_header hdr.
Proof. intros Hh. unfold fixed_header. rewrite !slice_app_prefix by lia. done. Qed.
Lemma fixed_header_len hdr index t n : fixed_header hdr = Ok (index, t, n) → n ≤ MAX_VOTER_SET_LEN.
Proof. unfold fixed_header. repeat case_decide; intros; simplify_eq; lia. Qed.

Lemma checked_add_Some a b c : checked_add a b = Some c ↔ c = a + b ∧ a + b ≤ u64_max.
Proof. unfold checked_add. case_decide; naive_solver. Qed.

Lemma layout_length raw index t vs n data crc :
  layout raw index t vs n data crc → N.of_nat (length raw) = 26 + n + 8 + N.of_nat (length data) + 4.
Proof. intros [(h & v & d & c & -> & ?&?&?&?&_) _]. rewrite !length_app. lia. Qed.

(** The slices a layout is made of. *)
Lemma layout_slices raw index t vs n data crc :
  layout raw index t vs n data crc →
  let a := (26 + N.to_nat n)%nat in let e := (a + 8 + length data)%nat in
  fixed_header raw = Ok (index, t, n) ∧ voter_set_field (slice raw 26 a) = Ok vs ∧
  le_num (slice raw a (a + 8)) = N.of_nat (length data) ∧ slice raw (a + 8) e = data ∧
  le_num (slice raw e (e + 4)) = crc.
Proof.
  intros [(h & v & d & c & -> & Hh & Hv & Hd & Hc & Hf & Hvs & Hn & Hcrc) _]. cbn zeta. split_and!.
  - by rewrite fixed_header_app.
  - by rewrite (slice_app_l h v) by lia.
  - rewrite (app_assoc h v), (slice_app_l (h ++ v) d); [done|rewrite length_app; lia..].
  - rewrite (app_assoc h v), (app_assoc (h ++ v) d), (slice_app_l _ data); [done|rewrite !length_app; lia..].
  - rewrite (app_assoc h v), (app_assoc (h ++ v) d), (app_assoc _ data), <-(app_nil_r c) at 1.
    rewrite (slice_app_l _ c []); [done|rewrite !length_app; lia..].
Qed.

Lemma layout_of_slices raw index t vs n data :
  let a := (26 + N.to_nat n)%nat in let e := (a + 8 + length data)%nat in
  fixed_header raw = Ok (index, t, n) → voter_set_field (slice raw 26 a) = Ok vs →
  le_num (slice raw a (a + 8)) = N.of_nat (length data) → slice raw (a + 8) e = data →
  length raw = (e + 4)%nat → N.of_nat (length raw) ≤ u64_max →
  layout raw index t vs n data (le_num (slice raw e (e + 4))).
Proof.
  intros a e Hf Hv Hn Hd Hlen Hfit. split; [|done].
  assert (raw = slice raw 0 26 ++ slice raw 26 a ++ slice raw a (a + 8) ++ data ++ slice raw e (e + 4)) as Hraw.
  { rewrite <-Hd at 1. rewrite <-!slice_split by lia. by rewrite <-Hlen, slice_all. }
  assert (length (slice raw 0 26) = 26%nat) as Hh by (rewrite length_slice; lia).
  exists (slice raw 0 26), (slice raw 26 a), (slice raw a (a + 8)), (slice raw e (e + 4)).
  split; [done|]. rewrite !length_slice by lia. split_and!; try done; try lia.
  rewrite Hraw, fixed_header_app in Hf; done.
Qed.

Lemma decode_snapshot_layout raw m data :
  decode_snapshot raw = Ok (m, data) ↔
  ∃ index t vs n, layout raw index t vs n data (crc32_of data) ∧
    m = file_meta index t vs (N.of_nat (length data)) (crc32_of data).
Proof.
  unfold decode_snapshot. split.
  - case_decide as H26; [done|]. intros [[[index t] n] [Hf Hd]]%rbind_Ok. revert Hd.
    case_decide as Hds; [done|]. intros [vs [Hv Hd]]%rbind_Ok. revert Hd.
    destruct (checked_add _ _) as [de|] eqn:Hde; [|done].
    destruct (checked_add de 4) as [ce|] eqn:Hce; [|done].
    apply checked_add_Some in Hde as [-> _]. apply checked_add_Some in Hce as [-> Hfit].
    case_decide; [done|]. case_decide; [done|]. case_decide as Hcrc; [done|]. intros Heq.
    set (dl := le_num (slice raw (N.to_nat (26 + n)) (N.to_nat (26 + n + 8)))) in *.
    injection Heq as <- <-.
    set (data := slice raw (N.to_nat (26 + n + 8)) (N.to_nat (26 + n + 8 + dl))) in *.
    assert (length data = N.to_nat dl) as Hlen by (unfold data; rewrite length_slice; lia).
    exists index, t, vs, n. rewrite Hlen, N2Nat.id. split; [|done]. rewrite <-Hcrc.
    replace (N.to_nat (26 + n + 8 + dl)) with (26 + N.to_nat n + 8 + length data)%nat by lia.
    replace (N.to_nat (26 + n + 8 + dl + 4)) with (26 + N.to_nat n + 8 + length data + 4)%nat by lia.
    apply layout_of_slices; try done; try lia.
    + by replace (26 + N.to_nat n)%nat with (N.to_nat (26 + n)) by lia.
    + replace (26 + N.to_nat n)%nat with (N.to_nat (26 + n)) by lia.
      replace (N.to_nat (26 + n) + 8)%nat with (N.to_nat (26 + n + 8)) by lia. rewrite Hlen. fold dl. lia.
    + replace (26 + N.to_nat n + 8)%nat with (N.to_nat (26 + n + 8)) by lia. rewrite Hlen.
      unfold data. f_equal. lia.
  - intros (index & t & vs & n & Hl & ->). pose proof (layout_length _ _ _ _ _ _ _ Hl) as Hlen.
    pose proof (ly_fits _ _ _ _ _ _ _ Hl) as Hfit.
    destruct (layout_slices _ _ _ _ _ _ _ Hl) as (Hf & Hv & Hn & Hd & Hc).
    rewrite decide_False by (unfold FIXED_HEADER_SIZE; lia). rewrite Hf. cbn [rbind].
    rewrite decide_False by lia.
    replace (N.to_nat (26 + n)) with (26 + N.to_nat n)%nat by lia.
    replace (N.to_nat (26 + n + 8)) with (26 + N.to_nat n + 8)%nat by lia.
    change FIXED_HEADER_SIZE with 26%nat. rewrite Hv. cbn [rbind]. rewrite Hn.
    rewrite (proj2 (checked_add_Some _ _ (26 + n + 8 + N.of_nat (length data)))) by lia.
    rewrite (proj2 (checked_add_Some _ _ (26 + n + 8 + N.of_nat (length data) + 4))) by lia.
    rewrite decide_False by lia. rewrite decide_False by lia.
    replace (N.to_nat (26 + n + 8 + N.of_nat (length data))) with (26 + N.to_nat n + 8 + length data)%nat by lia.
    replace (N.to_nat (26 + n + 8 + N.of_nat (length data) + 4)) with (26 + N.to_nat n + 8 + length data + 4)%nat by lia.
    rewrite Hd, Hc. by rewrite decide_False by (intros H; by apply H).
Qed.

Lemma read_exact_Ok n r b r' :
  read_exact n r = Ok (b, r') ↔ r = b ++ r' ∧ N.of_nat (length b) = n.
Proof.
  unfold read_exact. split.
  - case_decide; [done|]. intros [= <- <-]. rewrite take_drop, length_take. split; [done|lia].
  - intros [-> <-]. rewrite length_app, decide_False by lia.
    by rewrite Nat2N.id, take_app_length, drop_app_length.
Qed.

Lemma layout_payload raw index t vs n data crc :
  layout raw index t vs n data crc →
  ∃ crcb, drop (N.to_nat (26 + n + 8)) raw = data ++ crcb ∧ length crcb = 4%nat ∧ le_num crcb = crc.
Proof.
  intros [(h & v & d & c & -> & Hh & Hv & Hd & Hc & _ & _ & _ & Hcrc) _]. exists c.
  split; [|done]. rewrite !(app_assoc _ _ (data ++ c)), (app_assoc h). apply drop_app_length'.
  rewrite !length_app. lia.
Qed.

Lemma read_header_layout file index t vs dl hs r :
  read_header file = Ok (index, t, vs, dl, hs, r) ↔
  ∃ n data crc, layout file index t vs n data crc ∧ dl = N.of_nat (length data) ∧
    hs = 26 + n + 8 ∧ r = drop (N.to_nat hs) file.
Proof.
  unfold read_header. split.
  - intros [[hdr r1] [[-> Hh]%read_exact_Ok H]]%rbind_Ok.
    apply rbind_Ok in H as [[[i t'] n] [Hf H]].
    apply rbind_Ok in H as [[vsb r2] [[-> Hv]%read_exact_Ok H]].
    apply rbind_Ok in H as [vs' [Hvs H]].
    apply rbind_Ok in H as [[dlb r3] [[-> Hd]%read_exact_Ok H]].
    destruct (checked_add _ _) as [de|] eqn:Hde; [|done].
    destruct (checked_add de 4) as [ce|] eqn:Hce; [|done].
    apply checked_add_Some in Hde as [-> _]. apply checked_add_Some in Hce as [-> Hfit].
    revert H. case_decide as Hlen; [done|]. intros [= <- <- <- <- <- <-].
    rewrite !length_app in Hlen.
    set (k := N.to_nat (le_num dlb)) in *.
    exists n, (take k r3), (le_num (drop k r3)). split_and!.
    + split; [|rewrite !length_app; lia].
      exists hdr, vsb, dlb, (drop k r3).
      rewrite (take_drop k r3), length_take, length_drop. split_and!; try done; lia.
    + rewrite length_take. lia.
    + done.
    + rewrite !(app_assoc _ _ r3), (app_assoc hdr). symmetry. apply drop_app_length'.
      rewrite !length_app. lia.
  - intros (n & data & crc & Hl & -> & -> & ->).
    pose proof (layout_length _ _ _ _ _ _ _ Hl) as Hlen.
    pose proof (ly_fits _ _ _ _ _ _ _ Hl) as Hfit.
    destruct (ly_parts _ _ _ _ _ _ _ Hl) as (h & v & d & c & -> & Hh & Hv & Hd & Hc & Hf & Hvs & Hn & _).
    rewrite (proj2 (read_exact_Ok 26 _ h _)) by (split; [done|lia]). cbn [rbind].
    rewrite Hf. cbn [rbind].
    rewrite (proj2 (read_exact_Ok n _ v _)) by (split; [done|lia]). cbn [rbind].
    rewrite Hvs. cbn [rbind].
    rewrite (proj2 (read_exact_Ok 8 _ d _)) by (split; [done|lia]). cbn [rbind].
    rewrite Hn, (proj2 (checked_add_Some _ _ (26 + n + 8 + N.of_nat (length data)))) by lia.
    rewrite (proj2 (checked_add_Some _ _ (26 + n + 8 + N.of_nat (length data) + 4))) by lia.
    rewrite decide_False by lia. do 2 f_equal.
    rewrite !(app_assoc _ _ (data ++ c)), (app_assoc h). symmetry. apply drop_app_length'.
    rewrite !length_app. lia.
Qed.

(** The streaming header reader accepts every layout, right or wrong CRC. *)
Lemma decode_header_layout file m hs dl crc r :
  decode_header_for_streaming file = Ok (m, hs, dl, crc, r) ↔
  ∃ index t vs n data, layout file index t vs n data crc ∧ dl = N.of_nat (length data) ∧
    hs = 26 + n + 8 ∧ r = drop (N.to_nat hs) file ∧ m = file_meta index t vs dl crc.
Proof.
  unfold decode_header_for_streaming. split.
  - intros [[[[[[i t] vs] dl'] hs'] r'] [Hr H]]%rbind_Ok.
    apply rbind_Ok in H as [[cb r2] [[Hdr Hcb]%read_exact_Ok [= <- <- <- <- <-]]].
    apply read_header_layout in Hr as (n & data & crc & Hl & -> & -> & ->).
    exists i, t, vs, n, data. split_and!; try done.
    destruct (layout_payload _ _ _ _ _ _ _ Hl) as (crcb & Hp & Hc & Hcc).
    rewrite (N2Nat.inj_add (26 + n + 8)), Nat2N.id, <-drop_drop, Hp, drop_app_length in Hdr.
    assert (r2 = []) as ->.
    { apply nil_length_inv. apply (f_equal length) in Hdr. rewrite length_app in Hdr. lia. }
    rewrite app_nil_r in Hdr. by rewrite <-Hdr, Hcc.
  - intros (index & t & vs & n & data & Hl & -> & -> & -> & ->).
    rewrite (proj2 (read_header_layout file index t vs _ _ _)) by eauto 10. cbn [rbind].
    destruct (layout_payload _ _ _ _ _ _ _ Hl) as (crcb & Hp & Hc & Hcc).
    rewrite (N2Nat.inj_add (26 + n + 8)), Nat2N.id, <-drop_drop, Hp, drop_app_length.
    rewrite (proj2 (read_exact_Ok 4 _ crcb [])) by (rewrite app_nil_r; split; [done|lia]).
    cbn [rbind]. by rewrite Hcc.
Qed.

Context {HL : Crc32HasherLaws CH}.

(** The hashing loop ends and hashes the payload. *)
Lemma crc_loop_spec fuel buf_len data rest bs :
  (length data < fuel)%nat → (data = [] ∨ 0 < buf_len) →
  ∃ h, crc_loop fuel buf_len (N.of_nat (length data)) (data ++ rest)
         (foldl (λ h b, hasher_update b h) hasher_new bs) = Some (Ok (h, rest)) ∧
    hasher_finalize h = crc32_of (concat bs ++ data).
Proof using HL.
  revert data bs. induction fuel as [|fuel IH]; intros data bs Hf Hb; [lia|]. cbn [crc_loop].
  case_decide as Hr; [|].
  - assert (0 < buf_len) as Hbl by (destruct Hb as [->|]; [cbn in Hr; lia|done]).
    set (n := N.min buf_len (N.of_nat (length data))).
    rewrite (proj2 (read_exact_Ok n _ (take (N.to_nat n) data) (drop (N.to_nat n) data ++ rest))).
    2:{ rewrite app_assoc, take_drop, length_take. split; [done|lia]. }
    replace (N.of_nat (length data) - n) with (N.of_nat (length (drop (N.to_nat n) data)))
      by (rewrite length_drop; lia).
    destruct (IH (drop (N.to_nat n) data) (bs ++ [take (N.to_nat n) data])) as (h & Hl & Hh).
    { rewrite length_drop. lia. }
    { by right. }
    exists h. rewrite foldl_snoc in Hl. split; [done|].
    by rewrite Hh, concat_app, <-app_assoc; cbn; rewrite app_nil_r, take_drop.
  - destruct data; [|cbn in Hr; lia]. eexists. split; [done|].
    by rewrite hasher_chunks, app_nil_r.
Qed.

Lemma read_meta_layout file m :
  read_meta_from_file file = Ok m ↔
  ∃ index t vs n data, layout file index t vs n data (crc32_of data) ∧
    m = file_meta index t vs (N.of_nat (length data)) (crc32_of data).
Proof using HL.
  unfold read_meta_from_file. split.
  - intros [[[[[[i t] vs] dl] hs] r] [Hr H]]%rbind_Ok.
    apply read_header_layout in Hr as (n & data & crc & Hl & -> & -> & ->).
    destruct (layout_payload _ _ _ _ _ _ _ Hl) as (crcb & Hp & Hc & Hcc). rewrite Hp in H.
    destruct (crc_loop_spec (S (length (data ++ crcb))) (N.min (N.of_nat (length data)) 65536) data crcb [])
      as (h & Hlp & Hh).
    { rewrite length_app. lia. }
    { destruct data; [by left|right; cbn; lia]. }
    cbn [foldl] in Hlp. rewrite Hlp in H.
    rewrite (proj2 (read_exact_Ok 4 _ crcb [])) in H by (rewrite app_nil_r; split; [done|lia]).
    cbn [rbind] in H. revert H. case_decide as He; [done|]. intros [= <-].
    cbn in Hh. rewrite Hcc, Hh in He. subst crc.
    exists i, t, vs, n, data. by rewrite He.
  - intros (index & t & vs & n & data & Hl & ->).
    rewrite (proj2 (read_header_layout file index t vs _ _ _)) by eauto 10. cbn [rbind].
    destruct (layout_payload _ _ _ _ _ _ _ Hl) as (crcb & -> & Hc & Hcc).
    destruct (crc_loop_spec (S (length (data ++ crcb))) (N.min (N.of_nat (length data)) 65536) data crcb [])
      as (h & Hlp & Hh).
    { rewrite length_app. lia. }
    { destruct data; [by left|right; cbn; lia]. }
    cbn [foldl] in Hlp. rewrite Hlp.
    rewrite (proj2 (read_exact_Ok 4 _ crcb [])) by (rewrite app_nil_r; split; [done|lia]).
    cbn [rbind]. cbn in Hh. rewrite Hh, Hcc. by rewrite decide_False by (intros Hn; by apply Hn).
Qed.

(** The index scan, which streams a file's payload through the checksum
    64 KiB at a time, accepts exactly the files the full decoder accepts, and
    reads the same metadata from them. *)
Theorem index_scan_agrees file m :
  read_meta_from_file file = Ok m ↔ ∃ data, decode_snapshot file = Ok (m, data).
Proof using HL.
  rewrite read_meta_layout. setoid_rewrite decode_snapshot_layout. naive_solver.
Qed.

(** ** Writing and reading back *)

(** Snapshots the format holds: a voter set whose encoding is neither empty
    nor above the limit the readers enforce, and sizes of a [u64]. *)
Definition saveable (meta : SnapshotMeta) (data : bytes) : Prop :=
  u64 (last_included_index meta) ∧ u64 (last_included_term meta) ∧
  (∃ vs, sm_voter_set meta = Some vs ∧
     0 < N.of_nat (length (bin_ser vs)) ≤ MAX_VOTER_SET_LEN) ∧
  N.of_nat (length data) + MAX_VOTER_SET_LEN + 38 ≤ u64_max.

(** The metadata as a store keeps it. *)
Definition normalised (meta : SnapshotMeta) (data : bytes) : SnapshotMeta :=
  meta <| sm_id := canonical_id (last_included_term meta) (last_included_index meta) |>
       <| sm_size_bytes := Some (N.of_nat (length data)) |>
       <| sm_checksum := Some (crc32_of data) |>.

Context {BL : BincodeLaws VoterSet BV} {CL : Crc32Laws CR}.

Lemma encoded_header index t n :
  u64 index → u64 t → n ≤ MAX_VOTER_SET_LEN →
  fixed_header (u32_bytes SNAPSHOT_MAGIC ++ le_bytes 2 SNAPSHOT_VERSION ++ u64_bytes index ++
                u64_bytes t ++ u32_bytes n) = Ok (index, t, n).
Proof.
  intros Hi Ht Hn. unfold fixed_header.
  pose proof (length_u64 index) as L1. pose proof (length_u64 t) as L2.
  pose proof (length_u32 n) as L3. pose proof (u64_roundtrip _ Hi) as R1.
  pose proof (u64_roundtrip _ Ht) as R2.
  assert (le_num (u32_bytes n) = n) as R3 by (apply u32_roundtrip; unfold MAX_VOTER_SET_LEN in Hn; lia).
  revert L1 L2 L3 R1 R2 R3. generalize (u64_bytes index) (u64_bytes t) (u32_bytes n).
  intros bi bt bn L1 L2 L3 R1 R2 R3.
  rewrite (slice_app_prefix (u32_bytes SNAPSHOT_MAGIC) _ 0 4) by (cbn; lia).
  rewrite (slice_app_l (u32_bytes SNAPSHOT_MAGIC) (le_bytes 2 SNAPSHOT_VERSION) _ 4 6) by done.
  rewrite (app_assoc (u32_bytes _)).
  set (p := u32_bytes SNAPSHOT_MAGIC ++ le_bytes 2 SNAPSHOT_VERSION).
  assert (length p = 6%nat) as Lp by done.
  rewrite (slice_app_l p bi _ 6 14) by lia.
  rewrite (app_assoc p), (slice_app_l (p ++ bi) bt _ 14 22) by (rewrite length_app; lia).
  rewrite (app_assoc (p ++ bi)), <-(app_nil_r bn),
    (slice_app_l ((p ++ bi) ++ bt) bn [] 22 26) by (rewrite !length_app; lia).
  rewrite R1, R2, R3. rewrite decide_False by (intros H; by apply H).
  rewrite decide_False by (intros H; by apply H). by rewrite decide_False by lia.
Qed.

Lemma encode_snapshot_layout meta data :
  saveable meta data →
  ∃ raw n, encode_snapshot meta data = Ok raw ∧
    layout raw (last_included_index meta) (last_included_term meta) (sm_voter_set meta) n data (crc32_of data).
Proof using BL CL.
  intros (Hi & Ht & (vs & Hvs & Hn) & Hfit). unfold encode_snapshot. rewrite Hvs.
  unfold MAX_VOTER_SET_LEN in Hn, Hfit.
  assert (bin_de (bin_ser vs) = Some vs) as Hde by apply bin_roundtrip.
  revert Hn Hde. generalize (bin_ser vs). intros vsb Hn Hde.
  rewrite decide_False by lia. rewrite decide_False by lia. rewrite decide_False by lia.
  eexists _, (N.of_nat (length vsb)). split; [reflexivity|]. split.
  - exists (u32_bytes SNAPSHOT_MAGIC ++ le_bytes 2 SNAPSHOT_VERSION ++ u64_bytes (last_included_index meta) ++
      u64_bytes (last_included_term meta) ++ u32_bytes (N.of_nat (length vsb))),
      vsb, (u64_bytes (N.of_nat (length data))), (u32_bytes (crc32_of data)).
    split_and!.
    + by rewrite <-!app_assoc.
    + rewrite !length_app, !length_u64, !length_u32, length_le_bytes. done.
    + lia.
    + apply length_u64.
    + apply length_u32.
    + apply encoded_header; [done..|unfold MAX_VOTER_SET_LEN; lia].
    + unfold voter_set_field. rewrite Hde. destruct vsb; [cbn in Hn; lia|done].
    + apply u64_roundtrip. unfold u64. lia.
    + apply u32_roundtrip, crc32_lt.
  - rewrite !length_app, !length_u64, !length_u32, length_le_bytes. lia.
Qed.

Lemma file_meta_normalised meta data :
  file_meta (last_included_index meta) (last_included_term meta) (sm_voter_set meta)
    (N.of_nat (length data)) (crc32_of data) = normalised meta data.
Proof. done. Qed.

(** What [encode_snapshot] writes, all three readers accept: the decoder
    returns the payload and the metadata under its canonical id, with size and
    checksum; the index scan returns the same metadata; and the streaming
    reader too, positioned at the payload, whatever the caller's id was. *)
Theorem snapshot_roundtrip meta data :
  saveable meta data →
  ∃ raw, encode_snapshot meta data = Ok raw ∧
    decode_snapshot raw = Ok (normalised meta data, data) ∧
    read_meta_from_file raw = Ok (normalised meta data) ∧
    ∃ hs crcb, decode_header_for_streaming raw =
      Ok (normalised meta data, hs, N.of_nat (length data), crc32_of data, data ++ crcb).
Proof using BL CL HL.
  intros Hs. destruct (encode_snapshot_layout meta data Hs) as (raw & n & He & Hl).
  exists raw. split_and!.
  - done.
  - apply decode_snapshot_layout. by eauto 8.
  - apply read_meta_layout. by eauto 8.
  - destruct (layout_payload _ _ _ _ _ _ _ Hl) as (crcb & Hp & _). exists (26 + n + 8), crcb.
    apply decode_header_layout. rewrite Hp. by eauto 12.
Qed.

(** A snapshot file cut short anywhere, even by one byte, is refused by
    the decoder: no prefix of a file a snapshot was written to is a snapshot. *)
Theorem torn_snapshot_rejected meta data raw k :
  saveable meta data → encode_snapshot meta data = Ok raw → (k < length raw)%nat →
  ∃ e, decode_snapshot (take k raw) = Err e.
Proof using BL CL.
  intros Hs He Hk. destruct (encode_snapshot_layout meta data Hs) as (raw' & n & He' & Hl).
  rewrite He in He'. injection He' as <-.
  destruct (decode_snapshot (take k raw)) as [[m' data']|e] eqn:Hd; [|by exists e]. exfalso.
  apply decode_snapshot_layout in Hd as (i' & t' & vs' & n' & Hl' & _).
  pose proof (layout_length _ _ _ _ _ _ _ Hl) as L. pose proof (layout_length _ _ _ _ _ _ _ Hl') as L'.
  destruct (layout_slices _ _ _ _ _ _ _ Hl) as (Hf & _ & Hn & _).
  destruct (layout_slices _ _ _ _ _ _ _ Hl') as (Hf' & _ & Hn' & _).
  rewrite length_take_le in L' by lia.
  rewrite <-(take_drop k raw) in Hf, Hn.
  assert (fixed_header (take k raw) = Ok (last_included_index meta, last_included_term meta, n)) as Hf2.
  { rewrite <-Hf. unfold fixed_header. rewrite !slice_app_prefix; rewrite ?length_take_le; try done; lia. }
  rewrite Hf' in Hf2. simplify_eq.
  rewrite slice_app_prefix in Hn by (rewrite length_take_le; lia). rewrite Hn' in Hn. lia.
Qed.
End Codec.

Import Concrete.

(** A hasher that keeps what it is fed. *)
#[export] Instance bytes_hasher : Crc32Hasher := {
  Hasher := bytes;
  hasher_new := [];
  hasher_update b h := h ++ b;
  hasher_finalize h := crc32_of h;
}.
#[export] Instance bytes_hasher_laws : Crc32HasherLaws bytes_hasher.
Proof.
  split. intros bs. cbn [hasher_finalize hasher_update hasher_new bytes_hasher]. f_equal.
  assert (∀ h, foldl (λ h b, h ++ b) h bs = h ++ concat bs) as H; [|apply H].
  induction bs as [|b bs IH]; intros h; cbn; [by rewrite app_nil_r|]. by rewrite IH, app_assoc.
Qed.

Definition one_voter : @VoterSet membership := [(1, "d", [])].
Definition snap_meta (index t : N) : SnapshotMeta :=
  mkSnapshotMeta membership index t "a name" (Some one_voter) None None.

Lemma saveable_b meta data :
  bool_decide (u64 (last_included_index meta)) && bool_decide (u64 (last_included_term meta)) &&
  match sm_voter_set meta with
  | Some vs => bool_decide (0 < N.of_nat (length (bin_ser vs)) ≤ MAX_VOTER_SET_LEN)
  | None => false
  end && bool_decide (N.of_nat (length data) + MAX_VOTER_SET_LEN + 38 ≤ u64_max) = true →
  saveable meta data.
Proof.
  rewrite !andb_true_iff, !bool_decide_eq_true. destruct (sm_voter_set meta) as [vs|] eqn:Hvs.
  - rewrite bool_decide_eq_true. intros [[[H1 H2] H3] H4]. split; [done|]. split; [done|]. split; [by exists vs|done].
  - by intros [[_ ?] _].
Qed.

Lemma snapshot_roundtrip_witness :
  saveable (snap_meta 10 2) [Byte.x2a; Byte.x07] ∧
  ∃ raw, encode_snapshot (snap_meta 10 2) [Byte.x2a; Byte.x07] = Ok raw ∧
    decode_snapshot raw = Ok (normalised (snap_meta 10 2) [Byte.x2a; Byte.x07], [Byte.x2a; Byte.x07]) ∧
    read_meta_from_file raw = Ok (normalised (snap_meta 10 2) [Byte.x2a; Byte.x07]) ∧
    ∃ hs crcb, decode_header_for_streaming raw =
      Ok (normalised (snap_meta 10 2) [Byte.x2a; Byte.x07], hs, 2, crc32_of [Byte.x2a; Byte.x07], [Byte.x2a; Byte.x07] ++ crcb).
Proof.
  assert (saveable (snap_meta 10 2) [Byte.x2a; Byte.x07]) as Hs by (apply saveable_b; vm_compute; reflexivity).
  exact (conj Hs (snapshot_roundtrip _ _ Hs)).
Defined.

Definition sample_file : bytes :=
  match encode_snapshot (snap_meta 10 2) [Byte.x2a; Byte.x07] with Ok raw => raw | Err _ => [] end.
Lemma torn_snapshot_rejected_witness : ∃ e, decode_snapshot (take (length sample_file - 1) sample_file) = Err e.
Proof.
  refine (torn_snapshot_rejected (snap_meta 10 2) [Byte.x2a; Byte.x07] sample_file (length sample_file - 1) _ _ _).
  - apply saveable_b. vm_compute. reflexivity.
  - vm_compute. reflexivity.
  - apply Nat.ltb_lt. vm_compute. reflexivity.
Defined.

Lemma index_scan_agrees_witness :
  read_meta_from_file sample_file = Ok (normalised (snap_meta 10 2) [Byte.x2a; Byte.x07]) ∧
  ∃ data, decode_snapshot sample_file = Ok (normalised (snap_meta 10 2) [Byte.x2a; Byte.x07], data).
Proof.
  assert (read_meta_from_file sample_file = Ok (normalised (snap_meta 10 2) [Byte.x2a; Byte.x07])) as H
    by (vm_compute; reflexivity).
  exact (conj H (proj1 (index_scan_agrees _ _) H)).
Defined.
