(* ===== verification/SnapshotStore.v ===== *)
(** * The snapshot-store interface ([xraft-core/src/storage.rs])

    [SnapshotStore] as a class of operations, the window of chunks its default
    reader cuts a snapshot into, and the laws of the trait over an abstract
    list of snapshots, newest first. *)

From S2P Require Import Prelude CoreTypes Message Text Bytes WalCodec SnapshotNames SnapshotCodec.

(** ** Ordered lists of snapshots *)

Section Sorted.
Context {A : Type} (key : A → N).

Definition newer : relation A := λ a b, key b < key a.
Definition newest_first (l : list A) : Prop := StronglySorted newer l.

(** [insert] at the [position] of the first older element. *)
Fixpoint insert_newest (x : A) (l : list A) : list A :=
  match l with
  | [] => [x]
  | y :: l => if decide (key y < key x) then x :: y :: l else y :: insert_newest x l
  end.

Lemma insert_newest_perm x l : insert_newest x l ≡ₚ x :: l.
Proof.
  induction l as [|y l IH]; cbn; [done|]. case_decide; [done|].
  rewrite IH. apply Permutation_swap.
Qed.
Lemma insert_newest_sorted x l :
  newest_first l → (∀ y, y ∈ l → key y ≠ key x) → newest_first (insert_newest x l).
Proof.
  intros Hl. induction Hl as [|y l Hl IH Hy]; intros Hne; cbn.
  - repeat constructor.
  - case_decide as Hlt.
    + constructor; [by constructor|]. constructor; [done|].
      eapply Forall_impl; [exact Hy|]. unfold newer. intros z Hz. lia.
    + assert (key y ≠ key x) by (apply Hne; by left).
      constructor; [apply IH; intros z Hz; apply Hne; by right|].
      rewrite insert_newest_perm. constructor; [unfold newer; lia|done].
Qed.
Lemma newest_first_filter (P : A → Prop) `{∀ x, Decision (P x)} l :
  newest_first l → newest_first (filter P l).
Proof.
  intros Hl. induction Hl as [|y l Hl IH Hy]; [constructor|]. rewrite filter_cons.
  case_decide; [|done]. constructor; [done|]. apply Forall_forall. intros z [_ Hz]%list_elem_of_filter.
  rewrite Forall_forall in Hy. by apply Hy.
Qed.
Lemma newest_first_take n l : newest_first l → newest_first (take n l).
Proof.
  intros Hl. revert n. induction Hl as [|y l Hl IH Hy]; intros [|n]; [constructor..| |].
  - constructor.
  - cbn. constructor; [apply IH|]. by apply Forall_take.
Qed.
Lemma newest_first_unique l1 l2 :
  newest_first l1 → newest_first l2 → l1 ≡ₚ l2 → l1 = l2.
Proof. intros H1 H2 Hp. eapply StronglySorted_unique; eauto. unfold newer. intros x y ??. lia. Qed.
Lemma newest_first_NoDup l : newest_first l → NoDup l.
Proof.
  intros Hl. induction Hl as [|x l Hl IH Hx]; constructor; [|done]. intros Hin.
  rewrite Forall_forall in Hx. specialize (Hx x Hin). unfold newer in Hx. lia.
Qed.
Lemma newest_first_key l x y :
  newest_first l → x ∈ l → y ∈ l → key x = key y → x = y.
Proof.
  intros Hl. induction Hl as [|z l Hl IH Hz]; [by intros ?%not_elem_of_nil|].
  rewrite !elem_of_cons. unfold newer in Hz. rewrite Forall_forall in Hz.
  intros [->|Hx] [->|Hy] Heq; [done| | |by apply IH].
  - specialize (Hz _ Hy). lia.
  - specialize (Hz _ Hx). lia.
Qed.
End Sorted.

(** ** Chunks *)

Section Interface.
Context {MA : MembershipApi} {CR : Crc32}.

Definition snap : Type := SnapshotMeta * bytes.
Definition snap_index (p : snap) : N := last_included_index p.1.
Definition snap_term (p : snap) : N := last_included_term p.1.

(** [SnapshotChunkItem]. *)
Record SnapshotChunkItem : Type := mkSnapshotChunkItem {
  ci_chunk_index : N;
  ci_data : bytes;
  ci_done : bool;
  ci_metadata : option SnapshotMeta;
}.
Definition into_fetch_chunk (c : SnapshotChunkItem) (cluster_id : string) (leader_epoch : N)
    : FetchSnapshotChunk :=
  mkFetchSnapshotChunk cluster_id leader_epoch (ci_chunk_index c) (ci_data c) (ci_done c)
    (ci_metadata c).

Definition DEFAULT_CHUNK_SIZE : N := 1048576.
(** [if chunk_size == 0 { default }]. *)
Definition chunk_size_or_default (chunk_size : N) : N :=
  if decide (chunk_size = 0) then DEFAULT_CHUNK_SIZE else chunk_size.

(** [slice.chunks(n)]. *)
Definition chunks (n : N) (l : bytes) : list bytes :=
  (λ i, take (N.to_nat n) (drop (i * N.to_nat n) l)) <$>
    seq 0 (N.to_nat (div_ceil (N.of_nat (length l)) n)).

(** The default [snapshot_reader_from_offset], as the list of items its
    iterator yields, on the snapshot [load_snapshot] found. *)
Definition default_chunks (loaded : snap) (chunk_size offset : N) (max_bytes : option N)
    : list SnapshotChunkItem :=
  let '(loaded_meta, full_data) := loaded in
  let chunk_size := chunk_size_or_default chunk_size in
  let len := N.of_nat (length full_data) in
  let effective_max := match max_bytes with
                       | Some mb => if decide (0 < mb) then mb else u64_max
                       | None => u64_max
                       end in
  if decide (len ≤ offset ∧ (0 < offset ∨ len = 0)) then
    let base_ci := if decide (len = 0) then 0 else offset / chunk_size in
    [mkSnapshotChunkItem base_ci [] true (Some loaded_meta)]
  else
    let stop := N.min len (sat_add offset effective_max) in
    let data := slice full_data (N.to_nat offset) (N.to_nat stop) in
    let base_chunk_index := offset / chunk_size in
    let window_covers_tail := bool_decide (len ≤ offset + N.of_nat (length data)) in
    match data with
    | [] => [mkSnapshotChunkItem base_chunk_index [] true (Some loaded_meta)]
    | _ =>
        let total := N.to_nat (div_ceil (N.of_nat (length data)) chunk_size) in
        imap (λ i chunk_data,
                mkSnapshotChunkItem (base_chunk_index + N.of_nat i) chunk_data
                  (bool_decide (i = total - 1)%nat && window_covers_tail)
                  (match i with O => Some loaded_meta | S _ => None end))
             (chunks chunk_size data)
    end.

(** ** The interface *)

Class SnapshotStoreApi (St : Type) : Type := {
  ss_save_snapshot : SnapshotMeta → bytes → St → St * Result unit;
  ss_load_latest_snapshot : St → Result (option snap);
  ss_load_snapshot : N → N → St → Result (option snap);
  ss_list_snapshots : St → Result (list SnapshotMeta);
  ss_delete_snapshot : string → St → St * Result unit;
  ss_snapshot_exists : N → N → St → bool;
  ss_find_by_id : string → St → Result (option SnapshotMeta);
  (** The items the returned iterator yields. *)
  ss_reader_from_offset :
    SnapshotMeta → N → N → option N → St → Result (list (Result SnapshotChunkItem));
}.
(** The default [snapshot_reader]. *)
Definition ss_reader {St} {A : SnapshotStoreApi St} (meta : SnapshotMeta) (chunk_size : N) (s : St)
    : Result (list (Result SnapshotChunkItem)) :=
  ss_reader_from_offset meta chunk_size 0 None s.

(** The default [snapshot_reader_from_offset] of the trait. *)
Definition default_reader_from_offset {St} {A : SnapshotStoreApi St}
    (meta : SnapshotMeta) (chunk_size offset : N) (max_bytes : option N) (s : St)
    : Result (list (Result SnapshotChunkItem)) :=
  let? found := ss_load_snapshot (last_included_index meta) (last_included_term meta) s in
  match found with
  | None => Err (Storage "snapshot_reader: no snapshot found")
  | Some loaded => Ok (Ok <$> default_chunks loaded chunk_size offset max_bytes)
  end.

(** ** The laws *)

(** What every stored snapshot satisfies. *)
Definition stored (p : snap) : Prop :=
  p.1 = normalised p.1 p.2 ∧ u64 (snap_index p) ∧ u64 (snap_term p) ∧
  is_Some (sm_voter_set p.1) ∧ N.of_nat (length p.2) ≤ u64_max.

(** In a list of stored snapshots, ids are index and term. *)
Lemma stored_canonical p : stored p → sm_id p.1 = canonical_id (snap_term p) (snap_index p).
Proof. intros [Hn _]. by rewrite Hn. Qed.
Lemma stored_id p t i :
  stored p → u64 i → u64 t →
  bool_decide (sm_id p.1 = canonical_id t i) = (snap_index p =? i) && (snap_term p =? t).
Proof.
  intros Hs Ui Ut. rewrite stored_canonical by done. destruct Hs as (_ & Hi & Ht & _).
  case_bool_decide as Heq.
  - apply canonical_id_inj in Heq as [-> ->]; try done. by rewrite !N.eqb_refl.
  - symmetry. apply andb_false_iff. rewrite !N.eqb_neq.
    destruct (decide (snap_index p = i)) as [<-|]; [|by left]. right. by intros <-.
Qed.

(** [max_retained] snapshots are kept, all for zero. *)
Definition retain_newest (keep : nat) (l : list snap) : list snap :=
  match keep with O => l | _ => take keep l end.
Definition saved (keep : nat) (meta : SnapshotMeta) (data : bytes) (l : list snap) : list snap :=
  retain_newest keep (insert_newest snap_index (normalised meta data, data)
    (filter (λ p, snap_index p ≠ last_included_index meta) l)).

Definition regresses (meta : SnapshotMeta) (l : list snap) : bool :=
  match find (λ p, snap_index p =? last_included_index meta) l with
  | Some p => bool_decide (last_included_term meta < snap_term p)
  | None => false
  end.

(** The id a caller's string names: itself, or the canonical form of a
    [snapshot-term-index] name with or without its extension. *)
Definition resolve_id (ids : list string) (id : string) : option string :=
  if decide (id ∈ ids) then Some id
  else
    let parsed := match parse_snapshot_filename (id +:+ ".bin") with
                  | Some p => Some p
                  | None => parse_snapshot_filename id
                  end in
    '(t, index) ← parsed;
    if decide (canonical_id t index ∈ ids) then Some (canonical_id t index) else None.

Lemma resolve_listed ids id : id ∈ ids → resolve_id ids id = Some id.
Proof. intros Hin. unfold resolve_id. by rewrite decide_True. Qed.

(** What the documentation of the trait promises and the stores keep: deletion
    by the canonical id, an error for an id that names nothing, and a reader
    at an offset within the payload. *)
Class SnapshotStoreContract (St : Type) (A : SnapshotStoreApi St) (inv : St → Prop)
    (snaps : St → list snap) (keep : nat) (admits : SnapshotMeta → bytes → Prop) : Prop := {
  sl_newest_first s : inv s → newest_first snap_index (snaps s);
  sl_stored s : inv s → Forall stored (snaps s);
  sl_save_no_voters m d s : inv s → sm_voter_set m = None →
    ∃ msg, ss_save_snapshot m d s = (s, Err (Storage msg));
  sl_save_regression m d s : inv s → is_Some (sm_voter_set m) → regresses m (snaps s) = true →
    ∃ msg, ss_save_snapshot m d s = (s, Err (Storage msg));
  sl_save_ok m d s : inv s → is_Some (sm_voter_set m) → regresses m (snaps s) = false → admits m d →
    ∃ s', ss_save_snapshot m d s = (s', Ok tt) ∧ inv s' ∧ snaps s' = saved keep m d (snaps s);
  sl_load_latest s : inv s → ss_load_latest_snapshot s = Ok (head (snaps s));
  sl_load i t s : inv s → u64 i → u64 t →
    ss_load_snapshot i t s = Ok (find (λ p, (snap_index p =? i) && (snap_term p =? t)) (snaps s));
  sl_list s : inv s → ss_list_snapshots s = Ok (snaps s).*1;
  sl_delete id s : inv s → id ∈ sm_id <$> (snaps s).*1 →
    ∃ s', ss_delete_snapshot id s = (s', Ok tt) ∧ inv s' ∧
      snaps s' = filter (λ p, sm_id p.1 ≠ id) (snaps s);
  sl_delete_unknown id s : inv s → resolve_id (sm_id <$> (snaps s).*1) id = None →
    ∃ msg, ss_delete_snapshot id s = (s, Err (Storage msg));
  sl_exists i t s : inv s → u64 i → u64 t →
    ss_snapshot_exists i t s =
      existsb (λ p, (snap_index p =? i) && (snap_term p =? t)) (snaps s);
  sl_find_by_id id s : inv s →
    ss_find_by_id id s = Ok (find (λ m, bool_decide (sm_id m = id)) (snaps s).*1);
  sl_reader p cs off mb s : inv s → p ∈ snaps s → off < N.of_nat (length p.2) →
    chunk_size_or_default cs + N.of_nat (length p.2) ≤ u64_max →
    ss_reader_from_offset p.1 cs off mb s = Ok (Ok <$> default_chunks p cs off mb);
}.

(** The contract, and what the code does against the documentation: an id that
    is not canonical but names a snapshot deletes it instead of being an
    error, and a reader at or past the end yields one empty final chunk with
    the metadata instead of nothing. *)
Class SnapshotStoreLaws (St : Type) (A : SnapshotStoreApi St) (inv : St → Prop)
    (snaps : St → list snap) (keep : nat) (admits : SnapshotMeta → bytes → Prop) : Prop := {
  #[global] sl_contract :: SnapshotStoreContract St A inv snaps keep admits;
  sl_delete_alias id cid s : inv s →
    id ∉ sm_id <$> (snaps s).*1 → resolve_id (sm_id <$> (snaps s).*1) id = Some cid →
    ∃ s', ss_delete_snapshot id s = (s', Ok tt) ∧ inv s' ∧
      snaps s' = filter (λ p, sm_id p.1 ≠ cid) (snaps s);
  sl_read_past_end p cs off mb s : inv s → p ∈ snaps s → u64 off →
    chunk_size_or_default cs + N.of_nat (length p.2) ≤ u64_max → N.of_nat (length p.2) ≤ off →
    ss_reader_from_offset p.1 cs off mb s =
      Ok [Ok (mkSnapshotChunkItem
                (if decide (N.of_nat (length p.2) = 0) then 0 else off / chunk_size_or_default cs)
                [] true (Some p.1))];
}.

Lemma default_chunks_past_end p cs off mb :
  N.of_nat (length p.2) ≤ off →
  default_chunks p cs off mb =
    [mkSnapshotChunkItem
       (if decide (N.of_nat (length p.2) = 0) then 0 else off / chunk_size_or_default cs)
       [] true (Some p.1)].
Proof. intros Hle. destruct p as [m data]. cbn in *. unfold default_chunks. rewrite decide_True by lia. done. Qed.

(** Deletion as the stores implement it, in the three cases of the laws. *)
Definition delete_resolves {St} {A : SnapshotStoreApi St} (inv : St → Prop) (snaps : St → list snap) id s : Prop :=
  match resolve_id (sm_id <$> (snaps s).*1) id with
  | Some cid => ∃ s', ss_delete_snapshot id s = (s', Ok tt) ∧ inv s' ∧
                  snaps s' = filter (λ p, sm_id p.1 ≠ cid) (snaps s)
  | None => ∃ msg, ss_delete_snapshot id s = (s, Err (Storage msg))
  end.
Lemma delete_listed {St} {A : SnapshotStoreApi St} inv (snaps : St → list snap) id s :
  delete_resolves inv snaps id s → id ∈ sm_id <$> (snaps s).*1 →
  ∃ s', ss_delete_snapshot id s = (s', Ok tt) ∧ inv s' ∧
    snaps s' = filter (λ p, sm_id p.1 ≠ id) (snaps s).
Proof. intros Hd Hin. unfold delete_resolves in Hd. by rewrite (resolve_listed _ _ Hin) in Hd. Qed.

(** The reader at any offset. *)
Lemma sl_reader_any {St} {A : SnapshotStoreApi St} {inv snaps keep admits}
    {SL : SnapshotStoreLaws St A inv snaps keep admits} p cs off mb s :
  inv s → p ∈ snaps s → u64 off → chunk_size_or_default cs + N.of_nat (length p.2) ≤ u64_max →
  ss_reader_from_offset p.1 cs off mb s = Ok (Ok <$> default_chunks p cs off mb).
Proof.
  intros Hs Hp Ho Hfit. destruct (N.lt_ge_cases off (N.of_nat (length p.2))) as [Hlt|Hge].
  - by apply sl_reader.
  - by rewrite sl_read_past_end, default_chunks_past_end.
Qed.
End Interface.
