(* ===== verification/MemorySnapshots.v ===== *)
(** * The in-memory snapshot store ([MemorySnapshotStore])

    The [Vec]-backed store of [xraft-storage/src/snapshot_store.rs], and the
    proof that it implements the [SnapshotStore] interface without pruning. *)

From S2P Require Import Prelude CoreTypes Message Text Bytes WalCodec SnapshotNames SnapshotCodec SnapshotStore.

Module MemSnap.
Section MemSnap.
Context {MA : MembershipApi} {CR : Crc32}.

Record MemorySnapshotStore : Type := mkMemorySnapshotStore { snapshots : list snap }.
Definition new : MemorySnapshotStore := mkMemorySnapshotStore [].

Definition save_snapshot (meta : SnapshotMeta) (data : bytes) (s : MemorySnapshotStore)
    : MemorySnapshotStore * Result unit :=
  match sm_voter_set meta with
  | None => (s, Err (Storage "save_snapshot: voter_set is required for new snapshots"))
  | Some _ =>
      match find (λ p, snap_index p =? last_included_index meta) (snapshots s) with
      | Some existing =>
          if decide (last_included_term meta < snap_term existing)
          then (s, Err (Storage "refusing to replace snapshot with lower term"))
          else
            let meta := normalised meta data in
            (mkMemorySnapshotStore
               (filter (λ p, snap_index p ≠ last_included_index meta) (snapshots s) ++ [(meta, data)]),
             Ok tt)
      | None =>
          let meta := normalised meta data in
          (mkMemorySnapshotStore
             (filter (λ p, snap_index p ≠ last_included_index meta) (snapshots s) ++ [(meta, data)]),
           Ok tt)
      end
  end.

(** [max_by_key]: the last of the greatest. *)
Definition max_by_index (l : list snap) : option snap :=
  foldl (λ best p, match best with
                   | Some b => if decide (snap_index p < snap_index b) then Some b else Some p
                   | None => Some p
                   end) None l.
Definition load_latest_snapshot (s : MemorySnapshotStore) : Result (option snap) :=
  Ok (max_by_index (snapshots s)).
Definition load_snapshot (index t : N) (s : MemorySnapshotStore) : Result (option snap) :=
  Ok (find (λ p, bool_decide (sm_id p.1 = canonical_id t index)) (snapshots s)).

(** [sort_by_key(Reverse(last_included_index))], a stable sort. *)
Definition meta_newer : relation SnapshotMeta :=
  λ a b, last_included_index b ≤ last_included_index a.
#[local] Instance meta_newer_dec : RelDecision meta_newer :=
  λ a b, decide (last_included_index b ≤ last_included_index a).
Definition list_snapshots (s : MemorySnapshotStore) : Result (list SnapshotMeta) :=
  Ok (merge_sort meta_newer (snapshots s).*1).

Definition delete_snapshot (sid : string) (s : MemorySnapshotStore)
    : MemorySnapshotStore * Result unit :=
  let left := filter (λ p : snap, sm_id p.1 ≠ sid) (snapshots s) in
  if decide (length left = length (snapshots s)) then
    let parsed := match parse_snapshot_filename (sid +:+ ".bin") with
                  | Some p => Some p
                  | None => parse_snapshot_filename sid
                  end in
    match parsed with
    | Some (t, index) =>
        let left2 := filter (λ p : snap, sm_id p.1 ≠ canonical_id t index) left in
        (mkMemorySnapshotStore left2,
         if decide (length left2 = length left) then Err (Storage "snapshot not found") else Ok tt)
    | None => (mkMemorySnapshotStore left, Err (Storage "snapshot not found"))
    end
  else (mkMemorySnapshotStore left, Ok tt).

Definition snapshot_exists (index t : N) (s : MemorySnapshotStore) : bool :=
  existsb (λ p, bool_decide (sm_id p.1 = canonical_id t index)) (snapshots s).
Definition find_by_id (sid : string) (s : MemorySnapshotStore) : Result (option SnapshotMeta) :=
  Ok (fst <$> find (λ p, bool_decide (sm_id p.1 = sid)) (snapshots s)).

(** The reader is the trait's default. *)
Definition reader_from_offset (meta : SnapshotMeta) (chunk_size offset : N) (max_bytes : option N)
    (s : MemorySnapshotStore) : Result (list (Result SnapshotChunkItem)) :=
  let? found := load_snapshot (last_included_index meta) (last_included_term meta) s in
  match found with
  | None => Err (Storage "snapshot_reader: no snapshot found")
  | Some loaded => Ok (Ok <$> default_chunks loaded chunk_size offset max_bytes)
  end.

#[export] Instance api : SnapshotStoreApi MemorySnapshotStore := {
  ss_save_snapshot := save_snapshot;
  ss_load_latest_snapshot := load_latest_snapshot;
  ss_load_snapshot := load_snapshot;
  ss_list_snapshots := list_snapshots;
  ss_delete_snapshot := delete_snapshot;
  ss_snapshot_exists := snapshot_exists;
  ss_find_by_id := find_by_id;
  ss_reader_from_offset := reader_from_offset;
}.

(** ** Refinement *)

(** The abstract list: the snapshots, newest first. *)
Fixpoint by_age (l : list snap) : list snap :=
  match l with
  | [] => []
  | p :: l => insert_newest snap_index p (by_age l)
  end.
Definition snaps (s : MemorySnapshotStore) : list snap := by_age (snapshots s).
Definition inv (s : MemorySnapshotStore) : Prop :=
  NoDup (snap_index <$> snapshots s) ∧ Forall stored (snapshots s).
(** Only what is needed of the arguments as [u64]s. *)
Definition admits (meta : SnapshotMeta) (data : bytes) : Prop :=
  u64 (last_included_index meta) ∧ u64 (last_included_term meta) ∧ N.of_nat (length data) ≤ u64_max.

Lemma by_age_perm l : by_age l ≡ₚ l.
Proof. induction l as [|p l IH]; [done|]. cbn. by rewrite insert_newest_perm, IH. Qed.
Lemma by_age_sorted l : NoDup (snap_index <$> l) → newest_first snap_index (by_age l).
Proof.
  induction l as [|p l IH]; [constructor|]. cbn. intros [Hni Hnd]%NoDup_cons.
  apply insert_newest_sorted; [by apply IH|]. intros y Hy Heq. rewrite by_age_perm in Hy.
  apply Hni. rewrite <-Heq. by apply list_elem_of_fmap_2.
Qed.

Lemma nodup_key l p q :
  NoDup (snap_index <$> l) → p ∈ l → q ∈ l → snap_index p = snap_index q → p = q.
Proof.
  intros Hnd Hp Hq. eapply newest_first_key; [by apply by_age_sorted|by rewrite by_age_perm..].
Qed.

Lemma max_by_index_spec l :
  match max_by_index l with
  | Some p => p ∈ l ∧ ∀ q, q ∈ l → snap_index q ≤ snap_index p
  | None => l = []
  end.
Proof.
  unfold max_by_index. induction l as [|q l IH] using rev_ind; [done|]. rewrite foldl_snoc.
  destruct (foldl _ None l) as [b|].
  - destruct IH as [Hb Hm]. case_decide; setoid_rewrite elem_of_app; setoid_rewrite list_elem_of_singleton.
    + split; [by left|]. intros x [Hx| ->]; [by apply Hm|lia].
    + split; [by right|]. intros x [Hx| ->]; [|lia]. specialize (Hm _ Hx). lia.
  - subst l. split; [apply elem_of_app; right; by apply list_elem_of_singleton|].
    intros x Hx%list_elem_of_singleton. by subst.
Qed.

Lemma normalised_twice m d : normalised (normalised m d) d = normalised m d.
Proof. done. Qed.
Lemma stored_normalised m d : admits m d → is_Some (sm_voter_set m) → stored (normalised m d, d).
Proof. intros (Hi & Ht & Hd) Hv. by split_and!. Qed.

Lemma save_ok m d s :
  inv s → is_Some (sm_voter_set m) → regresses m (snaps s) = false → admits m d →
  ∃ s', save_snapshot m d s = (s', Ok tt) ∧ inv s' ∧ snaps s' = saved 0 m d (snaps s).
Proof.
  intros [Hnd Hst] [vs Hv] Hr Had.
  set (l' := filter (λ p, snap_index p ≠ last_included_index m) (snapshots s) ++ [(normalised m d, d)]).
  assert (save_snapshot m d s = (mkMemorySnapshotStore l', Ok tt)) as ->.
  { unfold save_snapshot. rewrite Hv.
    assert (find (λ p, snap_index p =? last_included_index m) (snapshots s) =
            find (λ p, snap_index p =? last_included_index m) (snaps s)) as ->.
    { apply find_perm; [symmetry; apply by_age_perm|].
      intros x y Hx Hy Ex%N.eqb_eq Ey%N.eqb_eq. apply (nodup_key (snapshots s)); [done..|congruence]. }
    revert Hr. unfold regresses. destruct (find _ _) as [e|]; [|done].
    intros Hd%bool_decide_eq_false. by rewrite decide_False. }
  eexists. split; [done|].
  assert (NoDup (snap_index <$> l')) as Hnd'.
  { unfold l'. rewrite fmap_app. apply NoDup_app. split_and!.
    - eapply sublist_NoDup; [exact Hnd|]. apply fmap_sublist, sublist_filter.
    - intros x (p & -> & [Hne _]%list_elem_of_filter)%list_elem_of_fmap Hx%list_elem_of_singleton.
      by apply Hne.
    - apply NoDup_singleton. }
  split; [split; [done|]|].
  - cbn. apply Forall_app. split; [by apply Forall_filter_sub|]. constructor; [|done].
    apply stored_normalised; [done|by exists vs].
  - unfold snaps, saved, retain_newest. cbn [snapshots].
    apply (newest_first_unique snap_index).
    + by apply by_age_sorted.
    + apply insert_newest_sorted; [apply newest_first_filter; by apply by_age_sorted|].
      by intros y [Hne _]%list_elem_of_filter.
    + rewrite insert_newest_perm, by_age_perm. unfold l'. rewrite Permutation_app_comm. cbn.
      apply perm_skip. by rewrite by_age_perm.
Qed.

Lemma load_spec i t s :
  inv s → u64 i → u64 t →
  load_snapshot i t s = Ok (find (λ p, (snap_index p =? i) && (snap_term p =? t)) (snaps s)).
Proof.
  intros [Hnd Hst] Hi Ht. unfold load_snapshot. f_equal.
  etrans; [apply (find_ext _ (λ p, (snap_index p =? i) && (snap_term p =? t)))|].
  { eapply Forall_impl; [exact Hst|]. intros p Hp. by apply stored_id. }
  apply find_perm; [symmetry; apply by_age_perm|].
  intros x y Hx Hy [Ex%N.eqb_eq _]%andb_true_iff [Ey%N.eqb_eq _]%andb_true_iff.
  apply (nodup_key (snapshots s)); [done..|congruence].
Qed.

Lemma meta_sort l :
  NoDup (snap_index <$> l) → merge_sort meta_newer l.*1 = (by_age l).*1.
Proof.
  intros Hnd. 
  assert (∀ k : list SnapshotMeta, NoDup (last_included_index <$> k) → StronglySorted meta_newer k →
    newest_first last_included_index k) as Hstrict.
  { intros k Hk Hs. induction Hs as [|m k Hs IH Hm]; [constructor|].
    cbn in Hk. apply NoDup_cons in Hk as [Hni Hk]. constructor; [by apply IH|].
    apply Forall_forall. intros x Hx. rewrite Forall_forall in Hm. specialize (Hm _ Hx).
    unfold meta_newer in Hm. unfold newer.
    assert (last_included_index x ≠ last_included_index m); [|lia].
    intros Heq. apply Hni. rewrite <-Heq. by apply list_elem_of_fmap_2. }
  apply (newest_first_unique last_included_index).
  - apply Hstrict.
    + rewrite merge_sort_Permutation, <-list_fmap_compose. exact Hnd.
    + apply StronglySorted_merge_sort.
      * intros a b c. unfold meta_newer. lia.
      * intros a b. unfold meta_newer. lia.
  - pose proof (by_age_sorted l Hnd) as Hs. induction Hs as [|p k Hs IH Hp]; [constructor|].
    cbn. constructor; [done|]. apply Forall_fmap. exact Hp.
  - by rewrite merge_sort_Permutation, by_age_perm.
Qed.

Lemma delete_spec sid s :
  inv s →
  match resolve_id (sm_id <$> (snaps s).*1) sid with
  | Some cid => ∃ s', delete_snapshot sid s = (s', Ok tt) ∧ inv s' ∧
                  snaps s' = filter (λ p, sm_id p.1 ≠ cid) (snaps s)
  | None => ∃ msg, delete_snapshot sid s = (s, Err (Storage msg))
  end.
Proof.
  intros [Hnd Hst]. unfold delete_snapshot, resolve_id.
  assert (∀ cid, cid ∈ (sm_id <$> (snaps s).*1) ↔ ∃ p, p ∈ snapshots s ∧ sm_id p.1 = cid) as Hin.
  { intros cid. unfold snaps. rewrite by_age_perm, <-list_fmap_compose, list_elem_of_fmap. naive_solver. }
  assert (∀ cid, cid ∉ (sm_id <$> (snaps s).*1) → filter (λ p : snap, sm_id p.1 ≠ cid) (snapshots s) = snapshots s) as Hkeep.
  { intros cid Hc. apply filter_full. clear -Hin Hc. 
    assert (Forall (λ p : snap, sm_id p.1 ≠ cid) (snapshots s)) as Hall.
    { apply Forall_forall. intros p Hp Heq. apply Hc, Hin. eauto. }
    clear Hin Hc. induction Hall as [|p l Hp _ IH]; [done|]. rewrite filter_cons_True by done. cbn. by rewrite IH. }
  assert (∀ cid, cid ∈ (sm_id <$> (snaps s).*1) →
    length (filter (λ p : snap, sm_id p.1 ≠ cid) (snapshots s)) ≠ length (snapshots s)) as Hdrop.
  { intros cid (p & Hp & Heq)%Hin Hlen%filter_full. rewrite <-Hlen in Hp.
    by apply list_elem_of_filter in Hp as [? _]. }
  assert (∀ cid, let s' := mkMemorySnapshotStore (filter (λ p : snap, sm_id p.1 ≠ cid) (snapshots s)) in
    inv s' ∧ snaps s' = filter (λ p, sm_id p.1 ≠ cid) (snaps s)) as Hfil.
  { intros cid. assert (NoDup (snap_index <$> filter (λ p : snap, sm_id p.1 ≠ cid) (snapshots s))) as Hnd'.
    { eapply sublist_NoDup; [exact Hnd|]. apply fmap_sublist, sublist_filter. }
    split; [split; [done|by apply Forall_filter_sub]|].
    apply (newest_first_unique snap_index); [by apply by_age_sorted|..].
    - apply newest_first_filter. by apply by_age_sorted.
    - unfold snaps. cbn. by rewrite !by_age_perm. }
  destruct (decide (sid ∈ _)) as [Hs|Hs].
  - rewrite decide_False by by apply Hdrop. eexists. split; [done|]. apply Hfil.
  - rewrite !Hkeep by done. rewrite decide_True by done.
    destruct s as [l]; cbn [snapshots] in *.
    set (parsed := match parse_snapshot_filename (sid +:+ ".bin") with Some _ => _ | None => _ end).
    destruct parsed as [[t i]|]; cbn; [|by eexists].
    case_decide as Hc.
    + rewrite decide_False by by apply Hdrop. eexists. split; [done|]. apply Hfil.
    + rewrite !Hkeep by done. rewrite decide_True by done. by eexists.
Qed.

Lemma reader_spec p cs off mb s :
  inv s → p ∈ snaps s → reader_from_offset p.1 cs off mb s = Ok (Ok <$> default_chunks p cs off mb).
Proof.
  intros Hi Hp. unfold reader_from_offset.
  pose proof Hi as [Hnd Hst].
  assert (stored p) as (_ & Ui & Ut & _).
  { rewrite Forall_forall in Hst. apply Hst. by rewrite <-by_age_perm. }
  rewrite load_spec by done. cbn [rbind].
  rewrite (find_unique _ _ p); [done|done|by rewrite !N.eqb_refl|].
  intros q Hq [Eq%N.eqb_eq _]%andb_true_iff.
  eapply newest_first_key; [by apply by_age_sorted|done|done|done].
Qed.

Lemma memory_snapshot_contract :
  SnapshotStoreContract MemorySnapshotStore api inv snaps 0 admits.
Proof.
  split; cbn.
  - intros s [Hnd _]. by apply by_age_sorted.
  - intros s [_ Hst]. unfold snaps. by rewrite by_age_perm.
  - intros m d s _ Hv. unfold save_snapshot. rewrite Hv. by eexists.
  - intros m d s [Hnd _] [vs Hv]. unfold regresses, save_snapshot. rewrite Hv.
    rewrite <-(find_perm _ (snapshots s) (snaps s)).
    + destruct (find _ _) as [e|]; [|done]. intros Hd%bool_decide_eq_true. rewrite decide_True by done. by eexists.
    + symmetry. apply by_age_perm.
    + intros x y Hx Hy Ex%N.eqb_eq Ey%N.eqb_eq. apply (nodup_key (snapshots s)); [done..|congruence].
  - apply save_ok.
  - intros s [Hnd _]. unfold load_latest_snapshot. f_equal.
    pose proof (max_by_index_spec (snapshots s)) as Hm.
    pose proof (by_age_perm (snapshots s)) as Hp. pose proof (by_age_sorted _ Hnd) as Hs.
    unfold snaps. destruct (by_age (snapshots s)) as [|p l] eqn:Hl.
    + destruct (snapshots s); [done|]. by apply Permutation_nil_cons in Hp.
    + destruct (max_by_index _) as [q|].
      * destruct Hm as [Hq Hmax]. cbn. f_equal.
        assert (p ∈ snapshots s) as Hps by (rewrite <-Hp; by left).
        apply (nodup_key (snapshots s)); try done.
        rewrite <-Hp in Hq. apply elem_of_cons in Hq as [->|Hq]; [done|].
        inversion Hs as [|? ? _ Hall]; subst. rewrite Forall_forall in Hall. specialize (Hall _ Hq).
        unfold newer in Hall. specialize (Hmax p Hps). lia.
      * rewrite Hm in Hp. symmetry in Hp. by apply Permutation_nil_cons in Hp.
  - apply load_spec.
  - intros s [Hnd _]. unfold list_snapshots. f_equal. by apply meta_sort.
  - intros sid s Hs. apply (delete_listed (A := api) inv snaps sid s). by apply delete_spec.
  - intros sid s Hs Hn. pose proof (delete_spec sid s Hs) as Hd. by rewrite Hn in Hd.
  - intros i t s [Hnd Hst] Hi Ht. unfold snapshot_exists.
    etrans; [apply (existsb_ext_in _ (λ p, (snap_index p =? i) && (snap_term p =? t)))|].
    { eapply Forall_impl; [exact Hst|]. intros p Hp. by apply stored_id. }
    apply existsb_perm. symmetry. apply by_age_perm.
  - intros sid s [Hnd Hst]. unfold find_by_id. f_equal. rewrite find_fmap. f_equal.
    apply find_perm; [symmetry; apply by_age_perm|].
    intros x y Hx Hy Ex%bool_decide_eq_true Ey%bool_decide_eq_true.
    apply (nodup_key (snapshots s)); [done..|].
    rewrite Forall_forall in Hst. pose proof (Hst _ Hx) as Sx. pose proof (Hst _ Hy) as Sy.
    rewrite stored_canonical in Ex, Ey by done. rewrite <-Ey in Ex.
    destruct Sx as (_ & ? & ? & _), Sy as (_ & ? & ? & _). by apply canonical_id_inj in Ex as [_ ?].
  - intros p cs off mb s Hi Hp _ _. by apply reader_spec.
Qed.

(** The laws, as the instance the interface's clients use. *)
Lemma memory_snapshot_laws :
  SnapshotStoreLaws MemorySnapshotStore api inv snaps 0 admits.
Proof.
  split; [exact memory_snapshot_contract|..].
  - intros sid cid s Hs _ Hc. pose proof (delete_spec sid s Hs) as Hd. by rewrite Hc in Hd.
  - intros p cs off mb s Hi Hp _ _ Hle. etrans; [by apply reader_spec|]. by rewrite default_chunks_past_end.
Qed.

(** [MemorySnapshotStore] implements the [SnapshotStore] contract: saves
    need a voter set, never replace a snapshot by one of a lower term, and
    otherwise put the normalised snapshot in its place; loads, listings,
    deletions by canonical id and the chunk reader are reads and updates of
    the list of snapshots, newest first. Like the durable store it departs
    from the documentation of the trait in two places, a deletion by an id
    that is not canonical and a reader at or past the end. *)
Theorem memory_store_refines_snapshot_store :
  SnapshotStoreLaws MemorySnapshotStore api inv snaps 0 admits.
Proof. exact memory_snapshot_laws. Qed.
End MemSnap.
End MemSnap.
