(* ===== verification/SnapshotChunks.v ===== *)
(** * Chunked snapshot transfer ([xraft-storage/src/snapshot_store.rs])

    [SnapshotChunkReader], which streams the payload of a snapshot file from
    an offset, and its equivalence with the default reader of the trait; what
    a window of chunks contains. *)

From S2P Require Import Prelude CoreTypes Message Text Bytes WalCodec SnapshotNames SnapshotCodec SnapshotStore Concrete.

(** ** [slice.chunks] *)

Lemma div_ceil_0 n : 0 < n → div_ceil 0 n = 0.
Proof. intros Hn. unfold div_ceil. rewrite N.mod_small, N.div_small by lia. by case_decide. Qed.
Lemma div_ceil_step a n : 0 < n → 0 < a → div_ceil a n = div_ceil (a - n) n + 1.
Proof.
  intros Hn Ha.
  assert (∀ x q, 0 < x → q * n < x → x ≤ (q + 1) * n → div_ceil x n = q + 1) as Huniq.
  { intros x q Hx H1 H2. pose proof (div_ceil_mul x n Hn). pose proof (div_ceil_tight x n Hn Hx).
    destruct (N.lt_trichotomy (div_ceil x n) (q + 1)) as [|[|]]; [|done|]; nia. }
  destruct (decide (a ≤ n)) as [Hle|Hgt].
  - replace (a - n) with 0 by lia. rewrite div_ceil_0 by done. apply Huniq; lia.
  - apply Huniq; [done|..].
    + pose proof (div_ceil_tight (a - n) n Hn ltac:(lia)) as H1. revert H1.
      generalize (div_ceil (a - n) n). intros q H1.
      destruct (decide (q = 0)); [lia|]. assert ((q - 1) * n + n = q * n) by nia. lia.
    + pose proof (div_ceil_mul (a - n) n Hn). rewrite N.mul_add_distr_r. lia.
Qed.

Lemma chunks_nil n : 0 < n → chunks n [] = [].
Proof. intros Hn. unfold chunks. cbn [length]. by rewrite div_ceil_0. Qed.
Lemma chunks_cons n l :
  0 < n → l ≠ [] → chunks n l = take (N.to_nat n) l :: chunks n (drop (N.to_nat n) l).
Proof.
  intros Hn Hl. unfold chunks. rewrite div_ceil_step by (destruct l; [done|cbn; lia]).
  rewrite N2Nat.inj_add, Nat.add_1_r. cbn [seq fmap list_fmap]. f_equal.
  rewrite <-fmap_S_seq, <-list_fmap_compose, length_drop.
  replace (N.of_nat (length l - N.to_nat n)) with (N.of_nat (length l) - n) by lia.
  apply list_fmap_ext. intros _ i _. cbn. rewrite drop_drop. f_equal.
Qed.

(** Induction along the chunks of a list. *)
Lemma chunks_ind (P : bytes → Prop) n :
  0 < n → P [] → (∀ l, l ≠ [] → P (drop (N.to_nat n) l) → P l) → ∀ l, P l.
Proof.
  intros Hn H0 Hs l. remember (length l) as k eqn:Hk. revert l Hk.
  induction (lt_wf k) as [k _ IH]. intros l ->. destruct l as [|x l]; [done|].
  apply Hs; [done|]. eapply IH; [|done]. rewrite length_drop. cbn. lia.
Qed.

Lemma chunks_concat n l : 0 < n → concat (chunks n l) = l.
Proof.
  intros Hn. revert l. apply (chunks_ind _ n Hn); [|intros l Hl IH].
  - by rewrite chunks_nil.
  - rewrite chunks_cons by done. cbn. by rewrite IH, take_drop.
Qed.
Lemma chunks_sizes n l : 0 < n → Forall (λ c, c ≠ [] ∧ N.of_nat (length c) ≤ n) (chunks n l).
Proof.
  intros Hn. revert l. apply (chunks_ind _ n Hn); [|intros l Hl IH].
  - by rewrite chunks_nil.
  - rewrite chunks_cons by done. constructor; [|done]. split.
    + destruct l; [done|]. assert (∃ k, N.to_nat n = S k) as [k ->] by (exists (N.to_nat n - 1)%nat; lia). done.
    + rewrite length_take. lia.
Qed.
Lemma length_chunks n l : length (chunks n l) = N.to_nat (div_ceil (N.of_nat (length l)) n).
Proof. unfold chunks. by rewrite length_fmap, length_seq. Qed.
Lemma chunks_is_nil n l : 0 < n → chunks n l = [] ↔ l = [].
Proof. intros Hn. split; [|intros ->; by apply chunks_nil]. intros H. by rewrite <-(chunks_concat n l), H. Qed.

Section Chunks.
Context {MA : MembershipApi} {CR : Crc32}.

(** ** The items of a window *)

(** The chunks [ws] from chunk index [base] on; the metadata goes with the
    first one. *)
Fixpoint window_items (meta : option SnapshotMeta) (base : N) (covers : bool) (ws : list bytes)
    : list SnapshotChunkItem :=
  match ws with
  | [] => []
  | w :: ws => mkSnapshotChunkItem base w (bool_decide (ws = []) && covers) meta ::
               window_items None (base + 1) covers ws
  end.

Lemma window_items_imap m base covers ws :
  imap (λ i w, mkSnapshotChunkItem (base + N.of_nat i) w (bool_decide (i = length ws - 1)%nat && covers)
                 (match i with O => m | S _ => None end)) ws = window_items m base covers ws.
Proof.
  assert (∀ ws0 base m0, imap (λ i w, mkSnapshotChunkItem (base + N.of_nat i) w
      (bool_decide (i = length ws0 - 1)%nat && covers) (match i with O => m0 | S _ => None end)) ws0
      = window_items m0 base covers ws0) as Hgen; [|by apply Hgen].
  clear. induction ws0 as [|w ws IH]; intros base m; [done|]. cbn [imap window_items].
  rewrite N.add_0_r. f_equal.
  - f_equal. f_equal. apply bool_decide_ext. rewrite <-length_zero_iff_nil. cbn. lia.
  - rewrite <-IH. apply imap_ext. intros i x Hx. cbn. f_equal; [lia|..].
    + f_equal. apply bool_decide_ext. apply lookup_lt_Some in Hx. lia.
    + by destruct i.
Qed.

(** The window a request names. *)
Definition window (data : bytes) (offset : N) (max_bytes : option N) : bytes :=
  let rest := drop (N.to_nat offset) data in
  match max_bytes with
  | Some mb => if decide (0 < mb) then take (N.to_nat mb) rest else rest
  | None => rest
  end.

(** The window by its length, at the end and as a prefix of what is left. *)
Lemma window_length data offset mb :
  let rest := N.of_nat (length data) - offset in
  N.of_nat (length (window data offset mb)) =
    match mb with Some b => if decide (0 < b) then N.min rest b else rest | None => rest end.
Proof. unfold window. destruct mb; [case_decide|]; rewrite ?length_take, ?length_drop; lia. Qed.
Lemma window_past_end data offset mb : N.of_nat (length data) ≤ offset → window data offset mb = [].
Proof. intros H. apply nil_length_inv, Nat2N.inj. rewrite window_length. destruct mb; [case_decide|]; lia. Qed.
Lemma window_prefix data offset mb : ∃ rest, drop (N.to_nat offset) data = window data offset mb ++ rest.
Proof.
  unfold window. destruct mb as [b|]; [case_decide|]; [|by exists []; rewrite app_nil_r..].
  exists (drop (N.to_nat b) (drop (N.to_nat offset) data)). by rewrite take_drop.
Qed.
Lemma window_whole data mb :
  N.of_nat (length data) ≤ N.of_nat (length (window data 0 mb)) → window data 0 mb = data.
Proof.
  unfold window. rewrite drop_0. destruct mb as [b|]; [case_decide|]; try done.
  intros Hlen. apply take_ge. rewrite length_take in Hlen. lia.
Qed.

Lemma default_chunks_window m data cs offset mb :
  u64 offset → N.of_nat (length data) ≤ u64_max →
  default_chunks (m, data) cs offset mb =
    let cs := chunk_size_or_default cs in
    let w := window data offset mb in
    match w with
    | [] => [mkSnapshotChunkItem (if decide (data = []) then 0 else offset / cs) [] true (Some m)]
    | _ => window_items (Some m) (offset / cs)
             (bool_decide (N.of_nat (length data) ≤ offset + N.of_nat (length w))) (chunks cs w)
    end.
Proof.
  intros Ho Hd. unfold default_chunks, u64 in *. cbn zeta.
  set (c := chunk_size_or_default cs).
  assert (0 < c) as Hc by (unfold c, chunk_size_or_default; case_decide; unfold DEFAULT_CHUNK_SIZE; lia).
  case_decide as Hout.
  - assert (drop (N.to_nat offset) data = []) as Hnil by (apply drop_ge; lia).
    assert (window data offset mb = []) as ->.
    { unfold window. rewrite Hnil. destruct mb; [case_decide|]; by rewrite ?take_nil. }
    do 2 f_equal. destruct data; cbn; repeat case_decide; try done; lia.
  - assert (N.to_nat offset < length data)%nat as Hlt by lia.
    set (em := match mb with Some mb => _ | None => u64_max end).
    assert (slice data (N.to_nat offset) (N.to_nat (N.min (N.of_nat (length data)) (sat_add offset em)))
      = window data offset mb) as ->.
    { unfold slice, window, sat_add. 
      assert (∀ k, N.of_nat (length data) ≤ k + offset → 
        take (N.to_nat (N.min (N.of_nat (length data)) (N.min (offset + k) u64_max)) - N.to_nat offset)
          (drop (N.to_nat offset) data) = drop (N.to_nat offset) data) as Hall.
      { intros k Hk. apply take_ge. rewrite length_drop. lia. }
      subst em. destruct mb as [b|]; [case_decide|]; try (by apply Hall; lia).
      destruct (decide (N.of_nat (length data) ≤ b + offset)).
      - rewrite Hall by done. symmetry. apply take_ge. rewrite length_drop. lia.
      - f_equal. lia. }
    assert (window data offset mb ≠ []) as Hne.
    { unfold window. intros Hnil. apply (f_equal length) in Hnil. destruct mb; [case_decide|];
      rewrite ?length_take, ?length_drop in Hnil; cbn in Hnil; lia. }
    destruct (window data offset mb) as [|x w] eqn:Hw; [done|]. rewrite <-Hw.
    rewrite <-length_chunks. apply window_items_imap.
Qed.

Lemma window_items_data m base covers ws : ci_data <$> window_items m base covers ws = ws.
Proof. revert m base. induction ws as [|w ws IH]; intros m base; [done|]. cbn. by rewrite IH. Qed.
Lemma window_items_meta base covers ws :
  Forall (λ c, ci_metadata c = None) (window_items None base covers ws).
Proof. revert base. induction ws as [|w ws IH]; intros base; [constructor|]. cbn. constructor; [done|apply IH]. Qed.
Lemma window_items_lookup m base covers ws i c :
  window_items m base covers ws !! i = Some c →
  ci_chunk_index c = base + N.of_nat i ∧ ci_done c = bool_decide (i = length ws - 1)%nat && covers.
Proof.
  rewrite <-window_items_imap, list_lookup_imap. intros (w & _ & ->)%fmap_Some. done.
Qed.
Lemma length_window_items m base covers ws : length (window_items m base covers ws) = length ws.
Proof. rewrite <-(window_items_data m base covers ws) at 2. by rewrite length_fmap. Qed.

Lemma chunk_size_pos cs : 0 < chunk_size_or_default cs.
Proof. unfold chunk_size_or_default, DEFAULT_CHUNK_SIZE. case_decide; lia. Qed.

(** A window of chunks, on either store: concatenated, the chunks are the
    requested bytes, each of at least one and at most [chunk_size] of them (an
    empty window is one empty chunk); indices count up from the offset's;
    the first chunk carries the metadata; and [done] marks the last chunk of a
    window that reaches the end of the payload and no other. *)
Theorem chunk_window_spec m data cs offset mb :
  u64 offset → N.of_nat (length data) ≤ u64_max →
  let items := default_chunks (m, data) cs offset mb in
  let w := window data offset mb in
  concat (ci_data <$> items) = w ∧
  (∀ c, c ∈ items → N.of_nat (length (ci_data c)) ≤ chunk_size_or_default cs ∧ (ci_data c = [] → w = [])) ∧
  (∃ c rest, items = c :: rest ∧ ci_metadata c = Some m ∧ Forall (λ c, ci_metadata c = None) rest) ∧
  (data ≠ [] → ∀ i c, items !! i = Some c →
     ci_chunk_index c = offset / chunk_size_or_default cs + N.of_nat i) ∧
  (∀ i c, items !! i = Some c →
     ci_done c = true ↔ i = (length items - 1)%nat ∧ N.of_nat (length data) ≤ offset + N.of_nat (length w)).
Proof.
  intros Ho Hd. cbn zeta. rewrite default_chunks_window by done. cbn zeta.
  pose proof (chunk_size_pos cs) as Hc. revert Hc. generalize (chunk_size_or_default cs). intros c Hc.
  destruct (window data offset mb) as [|x w'] eqn:Hw.
  - split_and!; [done| | | |].
    + intros it ->%list_elem_of_singleton. cbn. split; [lia|done].
    + by eexists _, [].
    + intros Hne [|i] it [= <-]. cbn. rewrite decide_False by done. lia.
    + intros [|i] it [= <-]. cbn. split; [|done]. intros _. split; [done|].
      unfold window in Hw. apply (f_equal length) in Hw.
      destruct mb as [b|]; [case_decide|]; rewrite ?length_take, ?length_drop in Hw; cbn in Hw; lia.
  - rewrite <-Hw. set (w := window data offset mb) in *. assert (w ≠ []) as Hne by (by rewrite Hw).
    split_and!.
    + by rewrite window_items_data, chunks_concat.
    + intros it Hin. pose proof (chunks_sizes c w Hc) as Hall. rewrite Forall_forall in Hall.
      destruct (Hall (ci_data it)) as [Hn Hl].
      { rewrite <-(window_items_data (Some m) (offset / c) (bool_decide
          (N.of_nat (length data) ≤ offset + N.of_nat (length w))) (chunks c w)).
        by apply list_elem_of_fmap_2. }
      done.
    + rewrite (chunks_cons c w) by done. cbn. eexists _, _. split; [done|]. split; [done|]. apply window_items_meta.
    + intros _ i it Hi. by apply window_items_lookup in Hi as [-> _].
    + intros i it Hi. apply window_items_lookup in Hi as [_ ->].
      by rewrite andb_true_iff, !bool_decide_eq_true, length_window_items.
Qed.
End Chunks.

(** ** The streaming reader *)

Section Reader.
Context {MA : MembershipApi} {BV : Bincode VoterSet} {CR : Crc32} {CH : Crc32Hasher}.

(** [rd_reader] is what is left of the file behind the read position. *)
Record SnapshotChunkReader : Type := mkSnapshotChunkReader {
  rd_reader : bytes;
  rd_meta : option SnapshotMeta;
  rd_chunk_size : N;
  rd_remaining : N;
  rd_data_len : N;
  rd_chunk_index : N;
  rd_total_chunks : N;
  rd_finished : bool;
  rd_crc_hasher : Hasher;
  rd_stored_crc : N;
  rd_skip_crc : bool;
  rd_window_covers_tail : bool;
  rd_first_emitted : bool;
}.
#[export] Instance SnapshotChunkReader_settable : Settable SnapshotChunkReader :=
  λ r, mkSnapshotChunkReader (rd_reader r) (rd_meta r) (rd_chunk_size r) (rd_remaining r)
         (rd_data_len r) (rd_chunk_index r) (rd_total_chunks r) (rd_finished r) (rd_crc_hasher r)
         (rd_stored_crc r) (rd_skip_crc r) (rd_window_covers_tail r) (rd_first_emitted r).

Definition total_size (r : SnapshotChunkReader) : N := rd_data_len r.
Definition chunk_count (r : SnapshotChunkReader) : N := rd_total_chunks r.

Definition crc_mismatch (r : SnapshotChunkReader) : bool :=
  negb (rd_skip_crc r) && negb (bool_decide (hasher_finalize (rd_crc_hasher r) = rd_stored_crc r)).

(** [Iterator::next]. *)
Definition next (r : SnapshotChunkReader) : SnapshotChunkReader * option (Result SnapshotChunkItem) :=
  if rd_finished r then (r, None)
  else if decide (rd_data_len r = 0) then
    let r := r <| rd_finished := true |> in
    if crc_mismatch r then (r, Some (Err (Storage "snapshot payload CRC mismatch during streaming")))
    else (r <| rd_meta := None |>,
          Some (Ok (mkSnapshotChunkItem (rd_chunk_index r) [] true (rd_meta r))))
  else if decide (rd_remaining r = 0) then (r, None)
  else
    let to_read := N.min (rd_chunk_size r) (rd_remaining r) in
    match read_exact to_read (rd_reader r) with
    | Err _ => (r <| rd_finished := true |>, Some (Err (Storage "chunk read error")))
    | Ok (buf, rest) =>
        let idx := rd_chunk_index r in
        let r := r <| rd_reader := rest |>
                   <| rd_crc_hasher := hasher_update buf (rd_crc_hasher r) |>
                   <| rd_remaining := rd_remaining r - to_read |>
                   <| rd_chunk_index := idx + 1 |> in
        let window_exhausted := bool_decide (rd_remaining r = 0) in
        let is_done := window_exhausted && rd_window_covers_tail r in
        let r := if window_exhausted then r <| rd_finished := true |> else r in
        if window_exhausted && crc_mismatch r
        then (r, Some (Err (Storage "snapshot payload CRC mismatch during streaming")))
        else
          let metadata := if rd_first_emitted r then None else rd_meta r in
          let r := if rd_first_emitted r then r
                   else r <| rd_first_emitted := true |> <| rd_meta := None |> in
          (r, Some (Ok (mkSnapshotChunkItem idx buf is_done metadata)))
    end.

(** Everything the iterator yields. *)
Fixpoint drain (fuel : nat) (r : SnapshotChunkReader) : list (Result SnapshotChunkItem) :=
  match fuel with
  | O => []
  | S fuel => match next r with
              | (_, None) => []
              | (r, Some item) => item :: drain fuel r
              end
  end.
(** Each item but an error or an empty one takes a byte of the window. *)
Definition all_items (r : SnapshotChunkReader) : list (Result SnapshotChunkItem) :=
  drain (N.to_nat (rd_remaining r) + 2) r.

(** [chunked_reader_from_offset] on the contents of the snapshot's file. *)
Definition chunked_reader_from_offset (file : bytes) (meta : SnapshotMeta) (chunk_size offset : N)
    (max_bytes : option N) : Result SnapshotChunkReader :=
  let? (file_meta, header_size, data_len, stored_crc, reader) := decode_header_for_streaming file in
  if decide (last_included_index file_meta ≠ last_included_index meta ∨
             last_included_term file_meta ≠ last_included_term meta)
  then Err (Storage "caller metadata does not match file metadata")
  else
    let chunk_size := chunk_size_or_default chunk_size in
    if decide (data_len ≤ offset ∧ 0 < data_len) then
      Ok (mkSnapshotChunkReader reader (Some file_meta) chunk_size 0 0 (offset / chunk_size) 1 false
            hasher_new stored_crc true true false)
    else if decide (data_len = 0 ∧ 0 < offset) then
      Ok (mkSnapshotChunkReader reader (Some file_meta) chunk_size 0 0 0 1 false
            hasher_new stored_crc true true false)
    else
      let remaining_from_offset := data_len - offset in
      let effective_window := match max_bytes with
                              | Some mb => if decide (0 < mb) then N.min remaining_from_offset mb
                                           else remaining_from_offset
                              | None => remaining_from_offset
                              end in
      let reader := if decide (0 < offset) then drop (N.to_nat (header_size + offset)) file else reader in
      match (if decide (effective_window = 0) then Some 1
             else (λ v, v / chunk_size) <$> checked_add effective_window (chunk_size - 1)) with
      | None => Err (Storage "overflow computing chunk count")
      | Some total_chunks =>
          let is_partial := bool_decide (0 < offset ∨ effective_window < data_len) in
          let window_covers_tail := bool_decide (data_len ≤ offset + effective_window) in
          Ok (mkSnapshotChunkReader reader (Some file_meta) chunk_size effective_window data_len
                (offset / chunk_size) total_chunks false hasher_new stored_crc is_partial
                window_covers_tail false)
      end.

(** [chunked_reader]. *)
Definition chunked_reader (file : bytes) (meta : SnapshotMeta) (chunk_size : N)
    : Result SnapshotChunkReader :=
  let? (file_meta, _, data_len, stored_crc, reader) := decode_header_for_streaming file in
  if decide (last_included_index file_meta ≠ last_included_index meta ∨
             last_included_term file_meta ≠ last_included_term meta)
  then Err (Storage "caller metadata does not match file metadata")
  else
    let chunk_size := chunk_size_or_default chunk_size in
    match (if decide (data_len = 0) then Some 1
           else (λ v, v / chunk_size) <$> checked_add data_len (chunk_size - 1)) with
    | None => Err (Storage "overflow computing chunk count")
    | Some total_chunks =>
        Ok (mkSnapshotChunkReader reader (Some file_meta) chunk_size data_len data_len 0 total_chunks
              false hasher_new stored_crc false true false)
    end.

(** ** Equivalence with the default reader *)

Context {HL : Crc32HasherLaws CH}.

(** Streaming [w] to the end passes the checksum, or it is not checked. *)
Definition crc_good (r : SnapshotChunkReader) (w : bytes) : Prop :=
  rd_skip_crc r = true ∨
  ∃ bs, rd_crc_hasher r = foldl (λ h b, hasher_update b h) hasher_new bs ∧
    crc32_of (concat bs ++ w) = rd_stored_crc r.

Lemma crc_good_end r : crc_good r [] → crc_mismatch r = false.
Proof using HL.
  unfold crc_mismatch. intros [->|(bs & -> & Hb)]; [done|].
  rewrite hasher_chunks. rewrite app_nil_r in Hb. rewrite bool_decide_true by done.
  by rewrite andb_false_r.
Qed.

(** A reader about to stream [w]. *)
Record streaming (r : SnapshotChunkReader) (w : bytes) (m : option SnapshotMeta) : Prop := {
  st_live : rd_finished r = false;
  st_data : rd_data_len r ≠ 0;
  st_size : 0 < rd_chunk_size r;
  st_remaining : rd_remaining r = N.of_nat (length w);
  st_reader : ∃ rest, rd_reader r = w ++ rest;
  st_meta : (if rd_first_emitted r then None else rd_meta r) = m;
  st_crc : crc_good r w;
}.

(** One chunk: the reader yields it and streams the rest, or is done. *)
Lemma next_chunk r w m :
  w ≠ [] → streaming r w m →
  let n := N.to_nat (rd_chunk_size r) in
  ∃ r', next r = (r', Some (Ok (mkSnapshotChunkItem (rd_chunk_index r) (take n w)
          (bool_decide (drop n w = []) && rd_window_covers_tail r) m))) ∧
    rd_chunk_size r' = rd_chunk_size r ∧ rd_chunk_index r' = rd_chunk_index r + 1 ∧
    rd_window_covers_tail r' = rd_window_covers_tail r ∧
    (drop n w = [] → rd_finished r' = true) ∧ (drop n w ≠ [] → streaming r' (drop n w) None).
Proof using HL.
  intros Hw [Hl Hd Hc Hr [rest Hrd] Hm Hcrc] n. unfold next. rewrite Hl, decide_False by done.
  rewrite decide_False by (rewrite Hr; destruct w; [done|cbn; lia]).
  rewrite (proj2 (read_exact_Ok _ _ (take n w) (drop n w ++ rest))).
  2:{ rewrite app_assoc, take_drop, Hrd, length_take, Hr. split; [done|lia]. }
  cbn zeta.
  match goal with |- context [set rd_chunk_index ?f ?x] => set (r1 := set rd_chunk_index f x) end.
  assert (rd_remaining r1 = N.of_nat (length (drop n w))) as Hr1.
  { cbn. rewrite Hr, length_drop. lia. }
  assert (bool_decide (rd_remaining r1 = 0) = bool_decide (drop n w = [])) as Hex.
  { apply bool_decide_ext. rewrite Hr1, <-length_zero_iff_nil. lia. }
  rewrite Hex.
  assert (crc_good r1 (drop n w)) as Hcrc1.
  { destruct Hcrc as [Hs|(bs & Hh & Hcc)]; [by left|right]. exists (bs ++ [take n w]). split.
    - rewrite foldl_snoc. cbn. by rewrite Hh.
    - rewrite concat_app, <-app_assoc. cbn. by rewrite app_nil_r, take_drop. }
  assert (rd_first_emitted r1 = rd_first_emitted r ∧ rd_meta r1 = rd_meta r ∧
    rd_window_covers_tail r1 = rd_window_covers_tail r ∧ rd_finished r1 = false ∧
    rd_data_len r1 = rd_data_len r ∧ rd_chunk_size r1 = rd_chunk_size r ∧
    rd_reader r1 = drop n w ++ rest ∧ rd_chunk_index r1 = rd_chunk_index r + 1)
    as (E1 & E2 & E3 & E4 & E5 & E6 & E7 & E8) by done.
  clearbody r1.
  destruct (bool_decide (drop n w = [])) eqn:Hend;
    [apply bool_decide_eq_true in Hend|apply bool_decide_eq_false in Hend]; cbn [andb].
  - assert (crc_mismatch (r1 <| rd_finished := true |>) = false) as ->.
    { apply crc_good_end. rewrite Hend in Hcrc1. exact Hcrc1. }
    cbn [rd_first_emitted rd_meta rd_window_covers_tail set]. rewrite E1, E2, E3, Hm.
    eexists. split; [reflexivity|]. by destruct (rd_first_emitted r); cbn; split_and!.
  - rewrite E1, E2, Hm. eexists. split; [reflexivity|].
    assert (∀ r2, rd_finished r2 = rd_finished r1 → rd_data_len r2 = rd_data_len r1 →
      rd_chunk_size r2 = rd_chunk_size r1 → rd_remaining r2 = rd_remaining r1 → rd_reader r2 = rd_reader r1 →
      rd_first_emitted r2 = true → crc_good r2 (drop n w) → streaming r2 (drop n w) None) as Hst.
    { intros r2 F1 F2 F3 F4 F5 F6 F7. split; try congruence; try done.
      - rewrite F5. by eexists.
      - by rewrite F6. }
    destruct (rd_first_emitted r) eqn:Hfe; split_and!; try done; intros _; apply Hst; try done.
Qed.

Lemma drain_window r w m fuel :
  w ≠ [] → streaming r w m → (length w + 1 < fuel)%nat →
  drain fuel r = Ok <$> window_items m (rd_chunk_index r) (rd_window_covers_tail r) (chunks (rd_chunk_size r) w).
Proof using HL.
  intros Hne Hst. remember (rd_chunk_size r) as c eqn:Hc.
  assert (0 < c) as Hcp by (subst c; apply Hst).
  revert r m fuel Hne Hst Hc. revert w.
  apply (chunks_ind (λ w, ∀ r m fuel, w ≠ [] → streaming r w m → c = rd_chunk_size r → (length w + 1 < fuel)%nat →
    drain fuel r = Ok <$> window_items m (rd_chunk_index r) (rd_window_covers_tail r) (chunks c w)) c Hcp); [done|].
  intros w Hw IH r m fuel _ Hst Hc Hf. destruct fuel as [|fuel]; [lia|].
  destruct (next_chunk r w m Hw Hst) as (r' & Hn & F1 & F2 & F3 & F4 & F5). rewrite <-Hc in *.
  cbn [drain]. rewrite Hn, (chunks_cons c w) by done. cbn [window_items fmap list_fmap]. f_equal.
  - do 3 f_equal. apply bool_decide_ext. by rewrite chunks_is_nil.
  - destruct (decide (drop (N.to_nat c) w = [])) as [Hd|Hd].
    + rewrite Hd, chunks_nil by done. cbn. destruct fuel as [|fuel]; [done|]. cbn. unfold next.
      by rewrite F4.
    + rewrite (IH r' None); [by rewrite F2, F3|done|by apply F5|congruence|].
      rewrite length_drop. destruct w; [done|]. cbn in Hf |- *. lia.
Qed.

Lemma drain_empty r fuel :
  rd_finished r = false → rd_data_len r = 0 → crc_good r [] →
  drain (fuel + 2) r = [Ok (mkSnapshotChunkItem (rd_chunk_index r) [] true (rd_meta r))].
Proof using HL.
  intros Hf Hd Hc. rewrite Nat.add_comm. cbn [Nat.add drain]. unfold next at 1.
  rewrite Hf, decide_True by done.
  assert (crc_mismatch (r <| rd_finished := true |>) = false) as -> by by apply crc_good_end.
  by destruct fuel.
Qed.

(** The streaming reader of the file store yields exactly what the
    trait's default reader, which loads and slices the snapshot, yields: on
    every file the decoder accepts, for every chunk size, offset and limit
    (as long as the chunk count is computed without overflow), item by item,
    metadata, indices and [done] included. *)
Theorem streaming_reader_is_default file m data meta cs offset mb :
  decode_snapshot file = Ok (m, data) →
  last_included_index meta = last_included_index m → last_included_term meta = last_included_term m →
  u64 offset → chunk_size_or_default cs + N.of_nat (length data) ≤ u64_max →
  rmap all_items (chunked_reader_from_offset file meta cs offset mb) =
    Ok (Ok <$> default_chunks (m, data) cs offset mb).
Proof using HL.
  intros Hdec Hi Ht Ho Hfit.
  apply decode_snapshot_layout in Hdec as (index & t & vs & n & Hl & ->).
  rewrite default_chunks_window by (first [done|lia]).
  unfold chunked_reader_from_offset.
  rewrite (proj2 (decode_header_layout file _ _ _ _ _)) by eauto 12. cbn [rbind].
  rewrite decide_False by (intros [H|H]; by apply H). cbn zeta.
  destruct (layout_payload _ _ _ _ _ _ _ Hl) as (crcb & Hp & _).
  pose proof (chunk_size_pos cs) as Hc. revert Hfit Hc. generalize (chunk_size_or_default cs). intros c Hfit Hc.
  set (m := file_meta _ _ _ _ _). set (len := N.of_nat (length data)) in *.
  destruct (decide (len ≤ offset ∧ 0 < len)) as [[Hge Hpos]|Hin1].
  { rewrite window_past_end by done. cbn. unfold all_items. cbn. rewrite decide_False; [done|]. intros ->. cbn in *. lia. }
  destruct (decide (len = 0 ∧ 0 < offset)) as [[H0 Hpos]|Hin2].
  { destruct data; [|cbn in *; lia]. by rewrite window_past_end by (cbn; lia). }
  set (ew := match mb with Some _ => _ | None => len - offset end).
  assert (ew = N.of_nat (length (window data offset mb))) as Hew by (symmetry; apply window_length).
  destruct (decide (data = [])) as [->|Hne].
  { (* the empty payload *)
    assert (offset = 0) as -> by (cbn in *; lia).
    rewrite (window_past_end [] 0 mb) in Hew |- * by done. change (ew = 0) in Hew. clearbody ew. subst ew.
    rewrite (decide_True (P := 0 = 0)) by done. cbn [rmap]. f_equal. unfold all_items.
    etrans; [apply drain_empty; [done..|right; by exists []]|].
    cbn [rd_chunk_index rd_meta]. by rewrite N.div_0_l by lia. }
  assert (0 < len) as Hlen by (unfold len; destruct data; [done|cbn; lia]).
  assert (offset < len) as Hoff by lia.
  assert (ew ≠ 0) as Hew0 by (unfold ew; destruct mb; [case_decide|]; lia).
  assert (window data offset mb ≠ []) as Hwne by (intros Hw; by rewrite Hw in Hew).
  rewrite decide_False by done.
  assert (ew ≤ len) as Hel by (unfold ew; destruct mb; [case_decide|]; lia).
  rewrite (proj2 (checked_add_Some _ _ (ew + (c - 1)))) by lia. cbn [fmap option_fmap option_map rmap].
  f_equal. unfold all_items.
  set (rd := if decide (0 < offset) then _ else _).
  assert (∃ rest, rd = window data offset mb ++ rest) as [rest Hrd].
  { assert (rd = drop (N.to_nat offset) data ++ crcb) as ->.
    { unfold rd. case_decide as Hpos.
      - rewrite N2Nat.inj_add, <-drop_drop, Hp. apply drop_app_le. lia.
      - assert (offset = 0) as -> by lia. by rewrite Hp. }
    destruct (window_prefix data offset mb) as [r0 ->]. rewrite <-app_assoc. by eexists. }
  etrans; [apply (drain_window _ (window data offset mb) (Some m)); [done|split|]|].
  all: cbn [rd_finished rd_data_len rd_chunk_size rd_remaining rd_reader rd_first_emitted rd_meta]; try done; try lia.
  - by rewrite Hrd; eexists.
  - unfold crc_good. cbn [rd_skip_crc rd_crc_hasher rd_stored_crc].
    case_bool_decide as Hpart; [by left|right]. exists []. split; [done|]. cbn.
    assert (offset = 0) as -> by lia.
    rewrite window_whole; [done|]. rewrite <-Hew. lia.
  - cbn [rd_chunk_index rd_window_covers_tail]. destruct (window data offset mb) as [|x w]; [done|].
    do 3 f_equal. apply bool_decide_ext. rewrite Hew. done.
Qed.

(** [chunked_reader] is the window of the whole payload. *)
Lemma chunked_reader_whole file meta cs :
  chunked_reader file meta cs = chunked_reader_from_offset file meta cs 0 None.
Proof.
  unfold chunked_reader, chunked_reader_from_offset.
  destruct (decode_header_for_streaming file) as [[[[[m hs] dl] crc] r]|]; [|done]. cbn [rbind].
  case_decide; [done|]. cbn zeta.
  rewrite (decide_False (P := dl ≤ 0 ∧ 0 < dl)) by lia.
  rewrite (decide_False (P := dl = 0 ∧ 0 < 0)) by lia.
  rewrite (decide_False (P := 0 < 0)) by lia. rewrite N.sub_0_r.
  rewrite (N.div_0_l (chunk_size_or_default cs)) by (pose proof (chunk_size_pos cs); lia).
  rewrite (bool_decide_false (0 < 0 ∨ dl < dl)) by lia.
  rewrite (bool_decide_true (dl ≤ 0 + dl)) by lia. done.
Qed.
End Reader.

Import Concrete.

Lemma chunk_window_spec_witness :
  concat (ci_data <$> default_chunks (snap_meta 10 2, replicate 7 Byte.x2a) 3 2 (Some 4)) =
    window (replicate 7 Byte.x2a) 2 (Some 4) ∧
  ci_chunk_index <$> default_chunks (snap_meta 10 2, replicate 7 Byte.x2a) 3 2 (Some 4) = [0; 1].
Proof.
  split; [|vm_compute; reflexivity].
  refine (proj1 (chunk_window_spec (snap_meta 10 2) (replicate 7 Byte.x2a) 3 2 (Some 4) _ _)); vm_compute; discriminate.
Defined.

Lemma streaming_reader_is_default_witness :
  rmap all_items (chunked_reader_from_offset sample_file (snap_meta 10 2) 1 0 None) =
    Ok (Ok <$> default_chunks (normalised (snap_meta 10 2) [Byte.x2a; Byte.x07], [Byte.x2a; Byte.x07]) 1 0 None).
Proof.
  refine (streaming_reader_is_default sample_file _ _ (snap_meta 10 2) 1 0 None _ _ _ _ _);
    [vm_compute; reflexivity|reflexivity|reflexivity|vm_compute; discriminate|vm_compute; discriminate].
Defined.
