(* ===== verification/SnapshotFile.v ===== *)
(** * The durable snapshot store ([FileSnapshotStore])

    The store of [xraft-storage/src/snapshot_store.rs] over its directory of
    named files, in the monad of [DirIo.v].  Calls that change the directory
    can fail; reads and [exists] do not.  The order in which [read_dir] lists a
    directory is a parameter.  Names are single path components. *)

From S2P Require Import Prelude CoreTypes Message Text Config Bytes WalCodec DirIo SnapshotNames SnapshotCodec SnapshotStore SnapshotChunks.

(** ** The directory *)

Notation files := (gmap string bytes).

Inductive fileop : Type :=
| Create (name : string)
| Write (name : string) (data : bytes)
| Rename (src dst : string)
| Remove (name : string)
| Sync.

(** [None] is an error of the call itself: a file that is not there. *)
Definition file_apply (op : fileop) (d : files) : option files :=
  match op with
  | Create f => Some (<[f := []]> d)
  | Write f data => b ← d !! f; Some (<[f := b ++ data]> d)
  | Rename f g => b ← d !! f; Some (<[g := b]> (delete f d))
  | Remove f => _ ← d !! f; Some (delete f d)
  | Sync => Some d
  end.
(** What a failing call leaves: a write may have written a prefix; the other
    calls took effect or not ([cut = 0]). *)
Definition file_cut (cut : nat) (op : fileop) (d : files) : files :=
  match op with
  | Write f data => default d (file_apply (Write f (take cut data)) d)
  | _ => match cut with O => d | S _ => default d (file_apply op d) end
  end.
#[export] Instance file_ops : DirOps files fileop := {| op_apply := file_apply; op_cut := file_cut |}.

(** [fs::read_dir]. *)
Class ReadDir : Type := { read_dir : files → list string }.
Class ReadDirLaws (RD : ReadDir) : Prop := {
  read_dir_perm d : read_dir d ≡ₚ (map_to_list d).*1;
}.

(** ** The store *)

Section Store.
Context {MA : MembershipApi}.

Record FileSnapshotStore : Type := mkFileSnapshotStore {
  dir : files;
  (** Newest first. *)
  index : list SnapshotMeta;
  max_retained : nat;
}.
#[export] Instance FileSnapshotStore_settable : Settable FileSnapshotStore :=
  λ s, mkFileSnapshotStore (dir s) (index s) (max_retained s).
#[export] Instance snapshot_dir : HasDir FileSnapshotStore files := {|
  dir_of := dir;
  with_dir d s := s <| dir := d |>;
  dir_of_with _ _ := eq_refl;
  with_dir_of s := match s with mkFileSnapshotStore _ _ _ => eq_refl end;
  with_dir_with _ _ _ := eq_refl;
|}.
End Store.

Section FileSnapshots.
Context {MA : MembershipApi} {BV : Bincode VoterSet} {CR : Crc32} {CH : Crc32Hasher} {RD : ReadDir}.
#[local] Open Scope io_scope.
Abbreviation io := (io FileSnapshotStore).

Definition DEFAULT_MAX_RETAINED : nat := 3.

(** [path.exists()]. *)
Definition exists_ (name : string) : io bool := gets (λ s, bool_decide (is_Some (dir s !! name))).
Definition when_exists (name : string) (m : io unit) : io unit :=
  let! e := exists_ name in if e then m else io_ret tt.

Definition snapshot_path_from_meta (m : SnapshotMeta) : string :=
  snapshot_filename (last_included_term m) (last_included_index m).

(** ** Opening *)

Definition recover_backup (name : string) : io unit :=
  match backup_of name with
  | None => io_ret tt
  | Some bin_path =>
      let! e := exists_ bin_path in
      if e then ignore_error (call (Remove name)) else call (Rename name bin_path)
  end.
Definition recover_incomplete_writes : io unit :=
  let! d := gets dir in
  let entries := read_dir d in
  seq! for_each (λ name, if decide (extension name = Some "tmp")
                         then ignore_error (call (Remove name)) else io_ret tt) entries in
  for_each recover_backup entries.

(** The scan's variables: the greatest [(index, term)] among the file names,
    the keys skipped and the files to clean up. *)
Record scan : Type := mkScan {
  highest_fname : option (N * N);
  skipped_keys : list (N * N);
  corrupt_paths : list string;
}.
(** [(LogIndex, Term)] compares lexicographically. *)
Definition key_lt (a b : N * N) : bool :=
  bool_decide (a.1 < b.1 ∨ a.1 = b.1 ∧ a.2 < b.2).

Definition is_snapshot_file (name : string) : bool :=
  bool_decide (extension name = Some SNAPSHOT_EXT) &&
  bool_decide (is_Some (parse_snapshot_filename name)).

Definition skip (key : N * N) (name : string) (sc : scan) : scan :=
  mkScan (highest_fname sc) (key :: skipped_keys sc) (corrupt_paths sc ++ [name]).
(** One iteration of the scan of [rebuild_index]. *)
Definition scan_one (name : string) (sc : scan) : io scan :=
  match parse_snapshot_filename name with
  | None => io_ret sc
  | Some (fname_term, fname_index) =>
      let key := (fname_index, fname_term) in
      let sc := mkScan (match highest_fname sc with
                        | None => Some key
                        | Some h => if key_lt h key then Some key else Some h
                        end) (skipped_keys sc) (corrupt_paths sc) in
      let! d := gets dir in
      match read_meta_from_file (default [] (d !! name)) with
      | Err _ => io_ret (skip key name sc)
      | Ok meta =>
          if decide (last_included_term meta ≠ fname_term ∨ last_included_index meta ≠ fname_index)
          then io_ret (skip key name sc)
          else
            let canonical := snapshot_filename fname_term fname_index in
            if decide (name = canonical) then
              seq! modify (λ s, s <| index := index s ++ [meta] |>) in io_ret sc
            else
              let! e := exists_ canonical in
              if e then seq! call (Remove name) in io_ret sc
              else
                seq! call (Rename name canonical) in
                seq! modify (λ s, s <| index := index s ++ [meta] |>) in io_ret sc
      end
  end.
Fixpoint scan_all (names : list string) (sc : scan) : io scan :=
  match names with
  | [] => io_ret sc
  | name :: names => let! sc := scan_one name sc in scan_all names sc
  end.

(** [sort_by]: by index, then term, descending. *)
Definition newest : relation SnapshotMeta := λ a b,
  last_included_index b < last_included_index a ∨
  last_included_index a = last_included_index b ∧ last_included_term b ≤ last_included_term a.
#[export] Instance newest_dec : RelDecision newest.
Proof. intros a b. unfold newest. apply _. Defined.

(** The deduplication loop: [seen_indices] and [keep]. *)
Fixpoint dedup_all (metas : list SnapshotMeta) (seen : list N) : io (list SnapshotMeta) :=
  match metas with
  | [] => io_ret []
  | meta :: metas =>
      if decide (last_included_index meta ∈ seen) then
        let stale_path := snapshot_path_from_meta meta in
        seq! when_exists stale_path (call (Remove stale_path)) in
        dedup_all metas seen
      else
        let! kept := dedup_all metas (last_included_index meta :: seen) in
        io_ret (meta :: kept)
  end.

Definition rebuild_index : io unit :=
  seq! modify (λ s, s <| index := [] |>) in
  let! d := gets dir in
  let entries := filter (λ name, is_snapshot_file name = true) (read_dir d) in
  let! sc := scan_all entries (mkScan None [] []) in
  seq! modify (λ s, s <| index := merge_sort newest (index s) |>) in
  let! idx := gets index in
  let have_valid highest := match head idx with
                            | Some m => negb (key_lt (last_included_index m, last_included_term m) highest)
                            | None => false
                            end in
  let refuse := match highest_fname sc with
                | Some highest => bool_decide (highest ∈ skipped_keys sc) && negb (have_valid highest)
                | None => false
                end in
  if refuse then io_err "latest snapshot is corrupt or has header/filename mismatch; refusing to fall back"
  else
    seq! modify (λ s, s <| index := [] |>) in
    let! kept := dedup_all idx [] in
    seq! modify (λ s, s <| index := kept |>) in
    for_each (λ path, when_exists path (call (Remove path))) (corrupt_paths sc).

(** The loop of [prune]: as many iterations as there are entries too many. *)
Fixpoint prune_loop (n : nat) : io unit :=
  match n with
  | O => io_ret tt
  | S n =>
      let! idx := gets index in
      match last idx with
      | None => io_ret tt
      | Some old =>
          let path := snapshot_path_from_meta old in
          seq! when_exists path (call (Remove path)) in
          seq! modify (λ s, s <| index := take (length (index s) - 1) (index s) |>) in
          prune_loop n
      end
  end.
Definition prune : io unit :=
  let! s := gets id in
  if decide (max_retained s = 0%nat) then io_ret tt
  else prune_loop (length (index s) - max_retained s).

Definition open_store : io unit :=
  seq! recover_incomplete_writes in
  seq! rebuild_index in
  prune.
(** [open_with_retention]. *)
Definition open_with_retention (d : files) (retained : nat) (fault : option (nat * nat))
    : world FileSnapshotStore * Result unit :=
  open_store (mkFileSnapshotStore d [] retained, fault).
Definition open (d : files) : option (nat * nat) → world FileSnapshotStore * Result unit :=
  open_with_retention d DEFAULT_MAX_RETAINED.
Definition from_config (c : ClusterConfig) (d : files)
    : option (nat * nat) → world FileSnapshotStore * Result unit :=
  open_with_retention d (N.to_nat (snapshot_retention_count c)).

(** ** Saving *)

Definition atomic_write (path : string) (blob : bytes) : io unit :=
  let tmp := tmp_path path in
  let bak := bak_path path in
  let drop_tmp := ignore_error (call (Remove tmp)) in
  seq! call (Create tmp) in
  seq! call (Write tmp blob) in
  seq! call Sync in
  seq! when_exists path (when_exists bak (or_else (call (Remove bak)) drop_tmp)) in
  seq! when_exists path (or_else (call (Rename path bak)) drop_tmp) in
  seq! or_else (call (Rename tmp path))
         (seq! when_exists bak (ignore_error (call (Rename bak path))) in drop_tmp) in
  seq! when_exists bak (ignore_error (call (Remove bak))) in
  ignore_error (call Sync).

Definition save_snapshot (meta : SnapshotMeta) (data : bytes) : io unit :=
  match sm_voter_set meta with
  | None => io_err "save_snapshot: voter_set is required for new snapshots"
  | Some _ =>
      let! idx := gets index in
      let stored_at := find (λ m, last_included_index m =? last_included_index meta) idx in
      if (match stored_at with
          | Some existing => bool_decide (last_included_term meta < last_included_term existing)
          | None => false
          end)
      then io_err "refusing to replace snapshot with lower term"
      else
        let meta := normalised meta data in
        let path := snapshot_path_from_meta meta in
        let! blob := lift (encode_snapshot meta data) in
        seq! atomic_write path blob in
        let! idx := gets index in
        let stale := filter (λ m, last_included_index m = last_included_index meta) idx in
        seq! for_each (λ old,
               let old_path := snapshot_path_from_meta old in
               if decide (old_path = path) then io_ret tt
               else when_exists old_path (call (Remove old_path))) stale in
        seq! modify (λ s, s <| index := insert_newest last_included_index meta
               (filter (λ m, last_included_index m ≠ last_included_index meta) (index s)) |>) in
        prune
  end.

(** ** Reading *)

(** [read_snapshot_file]. *)
Definition read_snapshot_file (name : string) (s : FileSnapshotStore) : Result snap :=
  match dir s !! name with
  | None => Err (Storage "No such file or directory")
  | Some raw => decode_snapshot raw
  end.
Definition load_latest_snapshot (s : FileSnapshotStore) : Result (option snap) :=
  match index s with
  | [] => Ok None
  | latest :: _ => let? p := read_snapshot_file (snapshot_path_from_meta latest) s in Ok (Some p)
  end.
Definition load_snapshot (i t : N) (s : FileSnapshotStore) : Result (option snap) :=
  match find (λ m, bool_decide (sm_id m = canonical_id t i)) (index s) with
  | None => Ok None
  | Some m => let? p := read_snapshot_file (snapshot_path_from_meta m) s in Ok (Some p)
  end.
Definition list_snapshots (s : FileSnapshotStore) : Result (list SnapshotMeta) := Ok (index s).
Definition snapshot_exists (i t : N) (s : FileSnapshotStore) : bool :=
  existsb (λ m, bool_decide (sm_id m = canonical_id t i)) (index s).
Definition find_by_id (sid : string) (s : FileSnapshotStore) : Result (option SnapshotMeta) :=
  Ok (find (λ m, bool_decide (sm_id m = sid)) (index s)).

(** [iter().position(..)]. *)
Definition position (P : SnapshotMeta → bool) (l : list SnapshotMeta) : option nat :=
  fst <$> list_find (λ m, P m = true) l.
Definition position_of_name (parsed : option (N * N)) (l : list SnapshotMeta) : option nat :=
  '(t, i) ← parsed; position (λ m, bool_decide (sm_id m = canonical_id t i)) l.
Definition delete_snapshot (sid : string) : io unit :=
  let! idx := gets index in
  let pos := match position (λ m, bool_decide (sm_id m = sid)) idx with
             | Some pos => Some pos
             | None => match position_of_name (parse_snapshot_filename (sid +:+ ".bin")) idx with
                       | Some pos => Some pos
                       | None => position_of_name (parse_snapshot_filename sid) idx
                       end
             end in
  match pos ≫= λ pos, (λ m, (pos, m)) <$> idx !! pos with
  | Some (pos, m) =>
      let path := snapshot_path_from_meta m in
      seq! when_exists path (call (Remove path)) in
      modify (λ s, s <| index := delete pos (index s) |>)
  | None => io_err "snapshot not found"
  end.

(** [snapshot_reader_from_offset], as the items its iterator yields. *)
Definition reader_from_offset (meta : SnapshotMeta) (chunk_size offset : N) (max_bytes : option N)
    (s : FileSnapshotStore) : Result (list (Result SnapshotChunkItem)) :=
  match dir s !! snapshot_path_from_meta meta with
  | None => Err (Storage "No such file or directory")
  | Some file => rmap all_items (chunked_reader_from_offset file meta chunk_size offset max_bytes)
  end.
(** [snapshot_reader]. *)
Definition snapshot_reader (meta : SnapshotMeta) (chunk_size : N) (s : FileSnapshotStore)
    : Result (list (Result SnapshotChunkItem)) :=
  match dir s !! snapshot_path_from_meta meta with
  | None => Err (Storage "No such file or directory")
  | Some file => rmap all_items (chunked_reader file meta chunk_size)
  end.

#[export] Instance file_snapshot_api : SnapshotStoreApi FileSnapshotStore := {
  ss_save_snapshot m d := run (save_snapshot m d);
  ss_load_latest_snapshot := load_latest_snapshot;
  ss_load_snapshot := load_snapshot;
  ss_list_snapshots := list_snapshots;
  ss_delete_snapshot sid := run (delete_snapshot sid);
  ss_snapshot_exists := snapshot_exists;
  ss_find_by_id := find_by_id;
  ss_reader_from_offset := reader_from_offset;
}.
End FileSnapshots.
