(* ===== verification/SnapshotState.v ===== *)
(** * What a snapshot directory holds

    The snapshots a directory gives back when it is opened, backups of
    interrupted writes included, and how single calls change them. *)

From S2P Require Import Prelude CoreTypes Message Text Bytes WalCodec DirIo SnapshotNames SnapshotCodec SnapshotStore SnapshotChunks SnapshotFile.

#[local] Opaque canonical_id snapshot_filename bak_path tmp_path extension backup_of parse_snapshot_filename.

Section State.
Context {MA : MembershipApi} {BV : Bincode VoterSet} {CR : Crc32}.
Implicit Types (d : files) (p q : snap) (l : list snap) (keep : nat).

Definition file_of p : string := snapshot_filename (snap_term p) (snap_index p).
Definition bak_of p : string := bak_path (file_of p).
Definition key_of p : N * N := (snap_index p, snap_term p).

(** ** Names *)

Lemma file_of_inj p q : stored p → stored q → file_of p = file_of q → key_of p = key_of q.
Proof.
  intros (_ & Hi & Ht & _) (_ & Hi' & Ht' & _) Heq.
  destruct (snapshot_filename_inj _ _ _ _ Ht Hi Ht' Hi' Heq) as [H1 H2].
  unfold key_of. by rewrite H1, H2.
Qed.
Lemma file_of_key p q : key_of p = key_of q → file_of p = file_of q.
Proof. unfold key_of, file_of. by intros [= -> ->]. Qed.
Lemma bak_of_inj p q : stored p → stored q → bak_of p = bak_of q → key_of p = key_of q.
Proof.
  intros Hp Hq Heq. apply file_of_inj; try done. unfold bak_of in Heq.
  pose proof (backup_of_bak (snap_term p) (snap_index p)) as H1.
  pose proof (backup_of_bak (snap_term q) (snap_index q)) as H2.
  fold (file_of p) in H1. fold (file_of q) in H2. rewrite Heq, H2 in H1. congruence.
Qed.
Lemma ext_file p : extension (file_of p) = Some "bin".
Proof. unfold file_of. apply extension_canonical. Qed.
Lemma ext_bak p : extension (bak_of p) = Some "bak".
Proof. unfold bak_of, file_of. apply extension_bak. Qed.
Lemma ext_tmp p : extension (tmp_path (file_of p)) = Some "tmp".
Proof. unfold file_of. apply extension_tmp. Qed.
Lemma backup_of_file p : backup_of (file_of p) = None.
Proof. destruct (backup_of (file_of p)) eqn:H; [|done]. apply backup_of_Some in H as [H _]. by rewrite ext_file in H. Qed.
Lemma backup_of_bak_of p : backup_of (bak_of p) = Some (file_of p).
Proof. unfold bak_of, file_of. apply backup_of_bak. Qed.
Lemma file_ne_bak p q : file_of p ≠ bak_of q.
Proof. intros H. pose proof (ext_file p) as E. by rewrite H, ext_bak in E. Qed.
Lemma snapshot_file_of p : stored p → is_snapshot_file (file_of p) = true.
Proof.
  intros (_ & ? & ? & _). unfold is_snapshot_file. rewrite ext_file. apply andb_true_iff.
  split; apply bool_decide_eq_true; [done|].
  unfold file_of. rewrite parse_snapshot_filename_canonical by done. by eexists.
Qed.
Lemma snapshot_file_ext n : is_snapshot_file n = true → extension n = Some "bin".
Proof. by intros [H%bool_decide_eq_true _]%andb_true_iff. Qed.

(** ** Contents *)

(** [raw] is the file of [p]. *)
Definition decodes (raw : bytes) p : Prop := decode_snapshot raw = Ok p ∧ stored p.

Record wf d : Prop := {
  wf_bins n c : d !! n = Some c → is_snapshot_file n = true → ∃ p, decodes c p ∧ n = file_of p;
  wf_baks n c b : d !! n = Some c → backup_of n = Some b → ∃ p, decodes c p ∧ n = bak_of p;
}.

(** [p] is among the snapshots of [d]: its file, or failing that its backup. *)
Definition has d p : Prop :=
  (∃ raw, d !! file_of p = Some raw ∧ decodes raw p) ∨
  (d !! file_of p = None ∧ ∃ raw, d !! bak_of p = Some raw ∧ decodes raw p).

(** The snapshots a directory opens with: for each index the one of the
    greatest term, of these the [keep] newest. *)
Record durable keep l d : Prop := {
  du_wf : wf d;
  du_sorted : newest_first snap_index l;
  du_has p : p ∈ l → has d p;
  du_all q : has d q → (∃ p, p ∈ l ∧ snap_index p = snap_index q ∧ snap_term q ≤ snap_term p) ∨
    (keep ≠ 0%nat ∧ length l = keep ∧ ∀ p, p ∈ l → snap_index q < snap_index p);
  du_keep : keep ≠ 0%nat → (length l ≤ keep)%nat;
}.

Lemma has_stored d p : has d p → stored p.
Proof. intros [(? & _ & ? & ?)|(_ & ? & _ & ? & ?)]; done. Qed.
Lemma has_fun d p q : has d p → has d q → key_of p = key_of q → p = q.
Proof.
  intros Hp Hq Hk%file_of_key. unfold has, bak_of in *. rewrite Hk in Hp.
  destruct Hp as [(r & H1 & H2 & _)|(H0 & r & H1 & H2 & _)], Hq as [(r' & H1' & H2' & _)|(H0' & r' & H1' & H2' & _)];
    congruence.
Qed.

Lemma sorted_key l p q : newest_first snap_index l → p ∈ l → q ∈ l → snap_index p = snap_index q → p = q.
Proof. apply newest_first_key. Qed.

(** Only files that are not temporaries count. *)
Definition core_eq d d' : Prop := ∀ n, extension n ≠ Some "tmp" → d' !! n = d !! n.

Lemma core_eq_has d d' p : core_eq d d' → has d' p ↔ has d p.
Proof.
  intros Hc. unfold has.
  rewrite (Hc (file_of p)) by (by rewrite ext_file). by rewrite (Hc (bak_of p)) by (by rewrite ext_bak).
Qed.
Lemma core_eq_wf d d' : core_eq d d' → wf d → wf d'.
Proof.
  intros Hc [Hb Hk]. split.
  - intros n c Hn Hf. eapply Hb; [|done]. rewrite <-Hc; [done|]. by rewrite (snapshot_file_ext _ Hf).
  - intros n c b Hn Hf. eapply Hk; [|done]. rewrite <-Hc; [done|]. by destruct (backup_of_Some _ _ Hf) as [-> _].
Qed.
Lemma durable_core keep l d d' : core_eq d d' → durable keep l d → durable keep l d'.
Proof.
  intros Hc [H1 H2 H3 H4 H5]. split; [by eapply core_eq_wf|done| | |done].
  - intros p Hp. apply (core_eq_has d); auto.
  - intros q Hq%(core_eq_has d); auto.
Qed.

(** A change that keeps the keys, and the snapshots of [l]. *)
Lemma durable_change keep l d d' :
  durable keep l d → wf d' → (∀ p, p ∈ l → has d' p) →
  (∀ q, has d' q → ∃ q', has d q' ∧ key_of q' = key_of q) → durable keep l d'.
Proof.
  intros [H1 H2 H3 H4 H5] Hw Hl Hk. split; try done.
  intros q (q' & Hq' & Hkey)%Hk. unfold key_of in Hkey. injection Hkey as E1 E2. rewrite <-E1, <-E2. auto.
Qed.

Lemma wf_delete d n : wf d → wf (delete n d).
Proof.
  intros [Hb Hk]. split; intros n' c; intros; match goal with H : delete _ _ !! _ = _ |- _ => apply lookup_delete_Some in H as [_ H] end; eauto.
Qed.
Lemma wf_rename d a b c : wf d → d !! a = Some c →
  (is_snapshot_file b = true → ∃ p, decodes c p ∧ b = file_of p) →
  (∀ x, backup_of b = Some x → ∃ p, decodes c p ∧ b = bak_of p) →
  wf (<[b := c]> (delete a d)).
Proof.
  intros Hw Ha H1 H2. pose proof (wf_delete d a Hw) as [Hb Hk]. split.
  - intros n c' [[<- <-]|[_ Hn]]%lookup_insert_Some Hf; eauto.
  - intros n c' x [[<- <-]|[_ Hn]]%lookup_insert_Some Hf; eauto.
Qed.

(** Deleting the file of a snapshot outside [l]. *)
Lemma durable_remove keep l d q :
  durable keep l d → stored q → (∀ p, p ∈ l → key_of p ≠ key_of q) →
  durable keep l (delete (file_of q) d).
Proof.
  intros Hd Hq Hl.
  assert (∀ p, stored p → key_of p ≠ key_of q → has (delete (file_of q) d) p ↔ has d p) as Hother.
  { intros p Hp Hne. assert (file_of p ≠ file_of q) by (by intros ?%file_of_inj).
    pose proof (file_ne_bak q p). unfold has. rewrite !lookup_delete_ne by done. done. }
  apply (durable_change keep l d); [done|apply wf_delete, Hd| |].
  - intros p Hp. pose proof (du_has _ _ _ Hd p Hp) as Hh. apply Hother; auto. by eapply has_stored.
  - intros p Hp. pose proof (has_stored _ _ Hp) as Hs.
    destruct (decide (key_of p = key_of q)) as [Hk|Hne]; [|exists p; split; [by apply Hother|done]].
    destruct Hp as [(r & H1 & _)|(_ & r & H1 & H2)].
    + rewrite (file_of_key _ _ Hk), lookup_delete_eq in H1. done.
    + rewrite lookup_delete_ne in H1 by (intros E; by apply (file_ne_bak q p)).
      destruct (d !! file_of p) as [c|] eqn:Hc.
      * destruct (wf_bins _ (du_wf _ _ _ Hd) _ _ Hc) as (p' & Hp' & Hn).
        { by apply snapshot_file_of. }
        exists p'. split.
        -- left. exists c. by rewrite <-Hn.
        -- symmetry. apply file_of_inj; [done|apply Hp'|done].
      * exists p. split; [|done]. right. eauto.
Qed.

(** Deleting a backup next to its file. *)
Lemma durable_drop_backup keep l d q :
  durable keep l d → stored q → is_Some (d !! file_of q) → durable keep l (delete (bak_of q) d).
Proof.
  intros Hd Hq [c Hc].
  assert (∀ p, has (delete (bak_of q) d) p ↔ has d p) as Hhas.
  { intros p. unfold has. rewrite (lookup_delete_ne d (bak_of q) (file_of p)) by (intros E; by apply (file_ne_bak p q)).
    split; (intros [Hp|(Hn & r & Hr & Hdec)]; [by left|right]).
    - apply lookup_delete_Some in Hr as [_ Hr]. eauto.
    - split; [done|]. exists r. split; [|done]. rewrite lookup_delete_ne; [done|].
      intros E%bak_of_inj; [|done|apply Hdec]. rewrite (file_of_key _ _ E) in Hc. congruence. }
  apply (durable_change keep l d); [done|apply wf_delete, Hd| |].
  - intros p Hp. apply Hhas. by apply Hd.
  - intros p Hp%Hhas. eauto.
Qed.

(** Moving a file to its backup, and the backup back. *)
Lemma durable_backup keep l d q c :
  durable keep l d → stored q → d !! file_of q = Some c → decodes c q →
  durable keep l (<[bak_of q := c]> (delete (file_of q) d)).
Proof.
  intros Hd Hq Hc Hdec.
  assert (∀ p, stored p → key_of p ≠ key_of q → has (<[bak_of q := c]> (delete (file_of q) d)) p ↔ has d p) as Hother.
  { intros p Hp Hne. assert (file_of p ≠ file_of q) by (by intros ?%file_of_inj).
    assert (bak_of p ≠ bak_of q) by (by intros ?%bak_of_inj).
    pose proof (file_ne_bak q p). pose proof (file_ne_bak p q). unfold has.
    rewrite !lookup_insert_ne, !lookup_delete_ne by done. done. }
  assert (has (<[bak_of q := c]> (delete (file_of q) d)) q) as Hhq.
  { right. rewrite lookup_insert_ne, lookup_delete_eq by (intros E; by apply (file_ne_bak q q)).
    split; [done|]. exists c. by rewrite lookup_insert_eq. }
  assert (has d q) as Hdq by (left; eauto).
  apply (durable_change keep l d); [done| | |].
  - eapply wf_rename; [apply Hd|done| |].
    + intros E%snapshot_file_ext. by rewrite ext_bak in E.
    + intros x _. exists q. done.
  - intros p Hp. pose proof (du_has _ _ _ Hd p Hp) as Hh. destruct (decide (key_of p = key_of q)) as [Hk|Hne].
    + by rewrite (has_fun d p q).
    + apply Hother; [by eapply has_stored|done..].
  - intros p Hp. destruct (decide (key_of p = key_of q)) as [Hk|Hne]; [by exists q|].
    exists p. split; [|done]. apply Hother; [by eapply has_stored|done..].
Qed.
Lemma durable_restore keep l d q c :
  durable keep l d → stored q → d !! file_of q = None → d !! bak_of q = Some c → decodes c q →
  durable keep l (<[file_of q := c]> (delete (bak_of q) d)).
Proof.
  intros Hd Hq Hn Hc Hdec.
  assert (∀ p, stored p → key_of p ≠ key_of q → has (<[file_of q := c]> (delete (bak_of q) d)) p ↔ has d p) as Hother.
  { intros p Hp Hne. assert (file_of p ≠ file_of q) by (by intros ?%file_of_inj).
    assert (bak_of p ≠ bak_of q) by (by intros ?%bak_of_inj).
    pose proof (file_ne_bak q p). pose proof (file_ne_bak p q). unfold has.
    rewrite !lookup_insert_ne, !lookup_delete_ne by done. done. }
  assert (has (<[file_of q := c]> (delete (bak_of q) d)) q) as Hhq.
  { left. exists c. by rewrite lookup_insert_eq. }
  assert (has d q) as Hdq by (right; eauto).
  apply (durable_change keep l d); [done| | |].
  - eapply wf_rename; [apply Hd|done| |].
    + intros _. by exists q.
    + intros x E. by rewrite backup_of_file in E.
  - intros p Hp. pose proof (du_has _ _ _ Hd p Hp) as Hh. destruct (decide (key_of p = key_of q)) as [Hk|Hne].
    + by rewrite (has_fun d p q).
    + apply Hother; [by eapply has_stored|done..].
  - intros p Hp. destruct (decide (key_of p = key_of q)) as [Hk|Hne]; [by exists q|].
    exists p. split; [|done]. apply Hother; [by eapply has_stored|done..].
Qed.

(** ** Open stores *)

(** The snapshot files of [d] are those of [l]. *)
Record bins d l : Prop := {
  bn_has p : p ∈ l → ∃ raw, d !! file_of p = Some raw ∧ decodes raw p;
  bn_only n : is_Some (d !! n) → is_snapshot_file n = true → ∃ p, p ∈ l ∧ n = file_of p;
}.
Definition no_backups d : Prop := ∀ n b, backup_of n = Some b → d !! n = None.

Record open_ok keep l (s : FileSnapshotStore) : Prop := {
  ok_index : index s = l.*1;
  ok_sorted : newest_first snap_index l;
  ok_stored : Forall stored l;
  ok_bins : bins (dir s) l;
  ok_keep : max_retained s = keep;
  ok_length : keep ≠ 0%nat → (length l ≤ keep)%nat;
}.

Lemma bins_has d l p : bins d l → no_backups d → has d p ↔ p ∈ l.
Proof.
  intros [Hh Ho] Hn. split; [|by left; apply Hh].
  intros [(r & Hr & Hd)|(_ & r & Hr & _)]; [|by rewrite (Hn _ _ (backup_of_bak_of p)) in Hr].
  destruct (Ho (file_of p)) as (q & Hq & Heq); [by eexists|by apply snapshot_file_of, Hd|].
  destruct (Hh q Hq) as (r' & Hr' & Hd'). rewrite <-Heq, Hr in Hr'. injection Hr' as <-.
  destruct Hd as [Hd _], Hd' as [Hd' _]. assert (p = q) as ->; [congruence|done].
Qed.

Lemma bins_wf d l : bins d l → no_backups d → wf d.
Proof.
  intros [Hh Ho] Hn. split.
  - intros n c Hc Hf. destruct (Ho n) as (p & Hp & ->); [by eexists|done|].
    destruct (Hh p Hp) as (r & Hr & Hd). exists p. split; [|done]. by simplify_eq.
  - intros n c x Hc Hb. by rewrite (Hn _ _ Hb) in Hc.
Qed.

Lemma open_ok_durable keep l s : open_ok keep l s → no_backups (dir s) → durable keep l (dir s).
Proof.
  intros [H1 H2 H3 H4 H5 H6] Hn. split; [by eapply bins_wf|done| | |done].
  - intros p Hp. by apply (bins_has _ l).
  - intros q Hq%(bins_has _ l); [|done..]. left. by exists q.
Qed.

(** ** Retention *)

Lemma retain_sorted keep l : newest_first snap_index l → newest_first snap_index (retain_newest keep l).
Proof. intros Hl. destruct keep; [done|]. by apply newest_first_take. Qed.
Lemma elem_of_retain keep l p : p ∈ retain_newest keep l → p ∈ l.
Proof. destruct keep; [done|]. intros Hp. rewrite <-(take_drop (S keep) l). apply elem_of_app. by left. Qed.
Lemma retain_length keep l : keep ≠ 0%nat → (length (retain_newest keep l) ≤ keep)%nat.
Proof. intros Hk. destruct keep; [done|]. cbn [retain_newest]. rewrite length_take. lia. Qed.

(** What is not retained is older than all that is, which is enough. *)
Lemma retain_or_older keep l x :
  newest_first snap_index l → x ∈ l →
  x ∈ retain_newest keep l ∨
  (keep ≠ 0%nat ∧ length (retain_newest keep l) = keep ∧ ∀ p, p ∈ retain_newest keep l → snap_index x < snap_index p).
Proof.
  intros Hl Hx. destruct keep as [|k]; [by left|]. cbn [retain_newest].
  rewrite <-(take_drop (S k) l) in Hx. apply elem_of_app in Hx as [Hx|Hx]; [by left|right].
  split; [done|]. split.
  - rewrite length_take. destruct (decide (S k ≤ length l)%nat); [lia|]. rewrite drop_ge in Hx by lia. by apply not_elem_of_nil in Hx.
  - intros p Hp. rewrite <-(take_drop (S k) l) in Hl.
    by apply (StronglySorted_app_1_elem_of _ _ _ p x Hl).
Qed.

(** Writing [p] into an open store's directory, its file's backup allowed. *)
Lemma durable_write keep l d d' p raw :
  newest_first snap_index l → bins d l → wf d' → decodes raw p → d' !! file_of p = Some raw →
  (∀ n, is_snapshot_file n = true → n ≠ file_of p → d' !! n = d !! n) →
  (∀ n x, backup_of n = Some x → is_Some (d' !! n) → n = bak_of p) →
  (∀ q, q ∈ l → snap_index q = snap_index p → snap_term q ≤ snap_term p) →
  durable keep (retain_newest keep (insert_newest snap_index p
    (filter (λ q, snap_index q ≠ snap_index p) l))) d'.
Proof.
  intros Hl [Hh Ho] Hw Hdec Hp Hsame Hbak Hreg.
  set (sv := insert_newest snap_index p (filter (λ q, snap_index q ≠ snap_index p) l)).
  assert (∀ r, r ∈ sv ↔ r = p ∨ (r ∈ l ∧ snap_index r ≠ snap_index p)) as Hsv.
  { intros r. unfold sv. rewrite insert_newest_perm, elem_of_cons, list_elem_of_filter. naive_solver. }
  assert (newest_first snap_index sv) as Hss.
  { apply insert_newest_sorted; [by apply newest_first_filter|]. by intros y [? _]%list_elem_of_filter. }
  assert (stored p) as Hsp by apply Hdec.
  assert (has d' p) as Hhp by (left; eauto).
  assert (∀ r, r ∈ l → key_of r ≠ key_of p → has d' r) as Hhl.
  { intros r Hr Hne. destruct (Hh r Hr) as (c & Hc & Hdc). left. exists c. split; [|done].
    rewrite Hsame; [done|by apply snapshot_file_of, Hdc|]. by intros ?%file_of_inj; [..|apply Hdc|]. }
  assert (∀ r, has d' r → r = p ∨ r ∈ l) as Hall.
  { intros r Hr. pose proof (has_stored _ _ Hr) as Hsr.
    destruct (decide (key_of r = key_of p)) as [Hk|Hne]; [left; by apply (has_fun d')|right].
    assert (file_of r ≠ file_of p) as Hf by by intros ?%file_of_inj.
    destruct Hr as [(c & Hc & Hdc)|(_ & c & Hc & _)].
    - rewrite Hsame in Hc by (try apply snapshot_file_of; done).
      destruct (Ho (file_of r)) as (q & Hq & Heq); [by eexists|by apply snapshot_file_of|].
      destruct (Hh q Hq) as (c' & Hc' & Hdq). rewrite <-Heq, Hc in Hc'. injection Hc' as <-.
      destruct Hdc as [Hdc _], Hdq as [Hdq _]. assert (r = q) as ->; [congruence|done].
    - exfalso. apply Hne. apply bak_of_inj; [done..|]. eapply Hbak; [apply backup_of_bak_of|by eexists]. }
  split; [done|by apply retain_sorted| | |apply retain_length].
  - intros r [->|[Hr Hne]]%elem_of_retain%Hsv; [done|]. apply Hhl; [done|]. by intros [=].
  - assert (∀ x, x ∈ sv → (∃ y, y ∈ retain_newest keep sv ∧ snap_index y = snap_index x ∧ snap_term x ≤ snap_term y)
      ∨ (keep ≠ 0%nat ∧ length (retain_newest keep sv) = keep ∧ ∀ y, y ∈ retain_newest keep sv → snap_index x < snap_index y)) as Hx.
    { intros x Hx. destruct (retain_or_older keep sv x Hss Hx); [left; by exists x|by right]. }
    intros q [->|Hq]%Hall; [apply Hx, Hsv; by left|].
    destruct (decide (snap_index q = snap_index p)) as [He|He]; [|apply Hx, Hsv; by right].
    specialize (Hreg q Hq He).
    destruct (Hx p) as [(y & ? & ? & ?)|(? & ? & Hy)]; [apply Hsv; by left|left|right].
    + exists y. split; [done|]. split; [congruence|lia].
    + split; [done|]. split; [done|]. intros y Hyr. specialize (Hy y Hyr). lia.
Qed.

(** Every snapshot the directory has, one per index and newest first, then
    cut: that is what it opens with. *)
Lemma durable_unique keep l d sv :
  durable keep l d → newest_first snap_index sv → (∀ p, p ∈ sv → has d p) →
  (∀ q, has d q → ∃ p, p ∈ sv ∧ snap_index p = snap_index q ∧ snap_term q ≤ snap_term p) →
  retain_newest keep sv = l.
Proof.
  intros [Hw Hl Hh Ha Hk] Hs Hsh Hsa.
  assert (∀ p, p ∈ l → p ∈ sv) as Hsub.
  { intros p Hp. destruct (Hsa p (Hh p Hp)) as (s & Hin & Hi & Ht).
    destruct (Ha s (Hsh s Hin)) as [(p' & Hp' & Hi' & Ht')|(_ & _ & Hlt)].
    - assert (p' = p) as -> by (apply (sorted_key l p' p Hl Hp' Hp); congruence).
      assert (s = p) as <-; [|done]. eapply has_fun; [by apply Hsh|by apply Hh|].
      unfold key_of. f_equal; [done|lia].
    - specialize (Hlt p Hp). lia. }
  set (rest := filter (λ q, q ∉ l) sv).
  assert (∀ q, q ∈ rest → keep ≠ 0%nat ∧ length l = keep ∧ ∀ p, p ∈ l → snap_index q < snap_index p) as Hrest.
  { intros q [Hni Hq]%list_elem_of_filter. destruct (Ha q (Hsh q Hq)) as [(p & Hp & Hi & _)|?]; [|done].
    exfalso. apply Hni. rewrite (sorted_key sv q p); auto. }
  assert (sv = l ++ rest) as Heq.
  { apply (newest_first_unique snap_index); [done| |].
    - apply StronglySorted_app_2; [|done|by apply newest_first_filter].
      intros x1 x2 H1 H2. by apply (Hrest x2 H2).
    - apply NoDup_Permutation.
      + by eapply newest_first_NoDup.
      + apply NoDup_app. split_and!.
        * by eapply newest_first_NoDup.
        * by intros x Hx [? _]%list_elem_of_filter.
        * apply NoDup_filter; by eapply newest_first_NoDup.
      + intros x. rewrite elem_of_app. unfold rest. rewrite list_elem_of_filter.
        destruct (decide (x ∈ l)); naive_solver. }
  rewrite Heq. clearbody rest. clear Heq.
  destruct keep as [|k]; cbn [retain_newest].
  - destruct rest as [|q r]; [by rewrite app_nil_r|]. by destruct (Hrest q) as [? _]; [left|].
  - destruct rest as [|q r].
    + rewrite app_nil_r. apply take_ge. by apply Hk.
    + destruct (Hrest q) as (_ & <- & _); [by left|]. apply take_app_length.
Qed.
End State.
