(* ===== verification/SnapshotSave.v ===== *)
(** * Saving, pruning and deleting snapshots

    The operations of [FileSnapshotStore] that change the directory, with and
    without faults. *)

From S2P Require Import Prelude CoreTypes Message Text Bytes WalCodec DirIo SnapshotNames SnapshotCodec SnapshotStore SnapshotChunks SnapshotFile SnapshotState.

#[local] Opaque canonical_id snapshot_filename bak_path tmp_path extension backup_of parse_snapshot_filename.

Section Save.
Context {MA : MembershipApi} {BV : Bincode VoterSet} {CR : Crc32} {CH : Crc32Hasher} {RD : ReadDir}.
Implicit Types (d : files) (p q : snap) (l : list snap) (keep : nat) (s : FileSnapshotStore).

(** ** Calls *)

Lemma wp_when_exists b name m s (Q : unit → FileSnapshotStore → Prop) (C : files → Prop) :
  (is_Some (dir s !! name) → wpb b m s Q C) → (dir s !! name = None → Q tt s) →
  wpb b (when_exists name m) s Q C.
Proof.
  intros H1 H2. unfold when_exists. apply wp_bind, wp_gets.
  case_bool_decide as He; [by apply H1|]. apply wp_ret, H2. by apply eq_None_not_Some.
Qed.

(** A call that is not a write takes effect or does not. *)
Lemma wp_file_call b op s d' (Q : unit → FileSnapshotStore → Prop) (C : files → Prop) :
  match op with Write _ _ => False | _ => True end →
  file_apply op (dir s) = Some d' → Q tt (s <| dir := d' |>) → C (dir s) → C d' →
  wpb b (call op) s Q C.
Proof.
  intros Hop Ha HQ H0 H1. eapply (wp_op op s d'); [done..|]. intros [|cut]; destruct op; try done;
    cbn [op_cut file_ops file_cut dir_of snapshot_dir]; by rewrite Ha.
Qed.

(** Ignored, it may also fail for lack of the file. *)
Lemma wp_file_ignore b op s (Q : unit → FileSnapshotStore → Prop) (C : files → Prop) :
  match op with Write _ _ => False | _ => True end →
  (∀ d', file_apply op (dir s) = Some d' → Q tt (s <| dir := d' |>)) →
  (b = true ∨ file_apply op (dir s) = None → Q tt s) →
  wpb b (ignore_error (call op)) s Q C.
Proof.
  intros Hop H1 H2.
  assert (∀ s0, s0 <| dir := dir s0 |> = s0) as Heta by (intros []; done).
  destruct (file_apply op (dir s)) as [d'|] eqn:Ha.
  - apply (wp_ignore_call op s d'); [done|by apply H1|]. intros Hb cut.
    assert (Q tt (s <| dir := dir s |>)) by (rewrite Heta; by apply H2; left).
    destruct op; try done; destruct cut; cbn [op_cut file_ops file_cut]; try done;
      cbn [with_dir snapshot_dir dir_of]; rewrite Ha; by apply H1.
  - intros f Hf. unfold ignore_error, call. cbn [dir_of snapshot_dir op_apply file_ops op_cut].
    destruct f as [[[|k] cut]|]; rewrite ?Ha; cbn; (split; [|done]); try by apply H2; right.
    assert (Q tt (s <| dir := dir s |>)) by (rewrite Heta; by apply H2; right).
    destruct op; try done; destruct cut; try done; cbn [file_cut]; rewrite Ha; done.
Qed.

Lemma wp_remove b name s (Q : unit → FileSnapshotStore → Prop) (C : files → Prop) :
  is_Some (dir s !! name) → Q tt (s <| dir := delete name (dir s) |>) →
  C (dir s) → C (delete name (dir s)) → wpb b (call (Remove name)) s Q C.
Proof.
  intros [c Hc] HQ H0 H1. apply (wp_file_call b _ s (delete name (dir s))); try done.
  cbn. by rewrite Hc.
Qed.
Lemma wp_ignore_remove b name s (Q : unit → FileSnapshotStore → Prop) (C : files → Prop) :
  Q tt (s <| dir := delete name (dir s) |>) → (b = true → Q tt s) →
  wpb b (ignore_error (call (Remove name))) s Q C.
Proof.
  intros H1 H2. apply wp_file_ignore; [done| |].
  - cbn. intros d'. destruct (dir s !! name); [|done]. by intros [= <-].
  - intros [Hb|Hn]; [by apply H2|]. cbn in Hn. destruct (dir s !! name) eqn:He; [done|].
    rewrite delete_id in H1 by done. by destruct s.
Qed.

(** ** [atomic_write] *)

Lemma core_eq_refl d : core_eq d d.
Proof. done. Qed.
Lemma core_eq_trans d1 d2 d3 : core_eq d1 d2 → core_eq d2 d3 → core_eq d1 d3.
Proof. intros H1 H2 n Hn. by rewrite H2, H1. Qed.
Lemma core_eq_tmp d p c : core_eq d (<[tmp_path (file_of p) := c]> d).
Proof. intros n Hn. rewrite lookup_insert_ne; [done|]. intros <-. by rewrite ext_tmp in Hn. Qed.
Lemma core_eq_del_tmp d p : core_eq d (delete (tmp_path (file_of p)) d).
Proof. intros n Hn. rewrite lookup_delete_ne; [done|]. intros <-. by rewrite ext_tmp in Hn. Qed.

(** The temporary is written and synced, whatever fails. *)
Lemma wp_stage b p raw s (k : io FileSnapshotStore unit) (Q : unit → FileSnapshotStore → Prop) (C : files → Prop) :
  (∀ d', core_eq (dir s) d' → C d') →
  (∀ d', core_eq (dir s) d' → d' !! tmp_path (file_of p) = Some raw → wpb b k (s <| dir := d' |>) Q C) →
  wpb b (io_bind (call (Create (tmp_path (file_of p)))) (λ _,
         io_bind (call (Write (tmp_path (file_of p)) raw)) (λ _, io_bind (call Sync) (λ _, k)))) s Q C.
Proof.
  intros HC Hk. set (tmp := tmp_path (file_of p)).
  assert (core_eq (dir s) (<[tmp := []]> (dir s))) as C1 by apply core_eq_tmp.
  assert (∀ c, core_eq (dir s) (<[tmp := c]> (<[tmp := []]> (dir s)))) as C2.
  { intros c. eapply core_eq_trans; [apply C1|apply core_eq_tmp]. }
  apply wp_bind. eapply wp_file_call; [done|reflexivity| |by apply HC|by apply HC].
  apply wp_bind. eapply (wp_op (Write tmp raw) _ (<[tmp := raw]> (<[tmp := []]> (dir s)))).
  { cbn. by rewrite lookup_insert_eq. }
  2:{ intros cut. apply HC. cbn. rewrite lookup_insert_eq. cbn. apply C2. }
  apply wp_bind. eapply wp_file_call; [done|reflexivity| |by apply HC, C2|by apply HC, C2].
  apply (Hk (<[tmp := raw]> (<[tmp := []]> (dir s)))); [apply C2|]. by rewrite lookup_insert_eq.
Qed.

(** What [atomic_write] has done when it reports success. *)
Definition written p raw d d' : Prop :=
  d' !! file_of p = Some raw ∧
  ∀ n, is_snapshot_file n = true → n ≠ file_of p → d' !! n = d !! n.

(** The two states the rename of the temporary can be cut between, and the
    cleanup after a failure: the old contents come back, or the new stay. *)
Lemma wp_cleanup p s (Q : unit → FileSnapshotStore → Prop) (C : files → Prop) :
  let path := file_of p in
  (∀ d', core_eq (dir s) d' → C d' ∧ Q tt (s <| dir := d' |>)) →
  (∀ c d', dir s !! bak_of p = Some c → core_eq (<[path := c]> (delete (bak_of p) (dir s))) d' →
     C d' ∧ Q tt (s <| dir := d' |>)) →
  wpb true (io_bind (when_exists (bak_of p) (ignore_error (call (Rename (bak_of p) path))))
              (λ _, ignore_error (call (Remove (tmp_path path))))) s Q C.
Proof.
  intros path H1 H2.
  assert (∀ d', (∀ d2, core_eq d' d2 → C d2 ∧ Q tt (s <| dir := d2 |>)) →
    wpb true (ignore_error (call (Remove (tmp_path path)))) (s <| dir := d' |>) Q C) as Htmp.
  { intros d' Hd'. apply wp_ignore_remove.
    - apply (Hd' (delete (tmp_path path) d')). apply core_eq_del_tmp.
    - intros _. by apply Hd'. }
  assert (s <| dir := dir s |> = s) as Heta by by destruct s.
  apply wp_bind, wp_when_exists.
  - intros [c Hc]. apply wp_file_ignore; [done| |].
    + cbn [file_apply]. rewrite Hc. cbn. intros d' [= <-].
      apply Htmp. intros d2 Hd2. by apply (H2 c).
    + intros _. rewrite <-Heta. by apply Htmp.
  - intros _. rewrite <-Heta. by apply Htmp.
Qed.

Lemma wp_drop_tmp p s (C : files → Prop) :
  (∀ d', core_eq (dir s) d' → C d') →
  wpb true (ignore_error (call (Remove (tmp_path (file_of p))))) s (λ _ s', C (dir s')) C.
Proof.
  intros HC. apply wp_ignore_remove; [apply HC, core_eq_del_tmp|intros _; by apply HC].
Qed.

(** Keeping or taking away the backup of [p] next to its new file. *)
Lemma wp_finish b p raw keep l' d0 s (Q : unit → FileSnapshotStore → Prop) (C : files → Prop) :
  durable keep l' (dir s) → stored p → written p raw d0 (dir s) →
  (∀ n x, backup_of n = Some x → is_Some (dir s !! n) → n = bak_of p) →
  (∀ d', durable keep l' d' → written p raw d0 d' → (b = false → no_backups d') → Q tt (s <| dir := d' |>)) →
  wpb b (io_bind (when_exists (bak_of p) (ignore_error (call (Remove (bak_of p)))))
           (λ _, ignore_error (call Sync))) s Q C.
Proof.
  intros Hd Hp Hw Hb HQ.
  assert (s <| dir := dir s |> = s) as Heta by by destruct s.
  assert (∀ d', durable keep l' d' → written p raw d0 d' → (b = false → no_backups d') →
    wpb b (ignore_error (call Sync)) (s <| dir := d' |>) Q C) as Hsync.
  { intros d' ???. apply wp_file_ignore; [done| |].
    - cbn. intros d2 [= <-]. by apply HQ.
    - intros _. by apply HQ. }
  apply wp_bind, wp_when_exists.
  - intros [c Hc]. apply wp_ignore_remove.
    + apply (Hsync (delete (bak_of p) (dir s))).
      * apply durable_drop_backup; [done|done|]. destruct Hw as [-> _]. by eexists.
      * destruct Hw as [H1 H2]. split.
        -- rewrite lookup_delete_ne; [done|]. intros E. by apply (file_ne_bak p p).
        -- intros n Hn Hne. rewrite lookup_delete_ne; [by apply H2|].
           intros <-. apply snapshot_file_ext in Hn. by rewrite ext_bak in Hn.
      * intros _ n x Hx. destruct (decide (n = bak_of p)) as [->|Hne]; [by rewrite lookup_delete_eq|].
        rewrite lookup_delete_ne by done. destruct (dir s !! n) eqn:Hn; [|done].
        destruct Hne. eapply Hb; [done|by eexists].
    + intros ->. rewrite <-Heta. by apply Hsync.
  - intros Hn. rewrite <-Heta. apply Hsync; [done..|]. intros _ n x Hx.
    destruct (dir s !! n) eqn:He; [|done]. rewrite (Hb n x Hx) in He by by eexists. congruence.
Qed.

(** The list an open store has after saving [p]. *)
Definition with_snap keep p l : list snap :=
  retain_newest keep (insert_newest snap_index p (filter (λ q, snap_index q ≠ snap_index p) l)).

(** From the temporary to the end; [d4] has the old file, if any, as backup. *)
Lemma wp_install b keep l p raw s4 d0 (Q : unit → FileSnapshotStore → Prop) (C : files → Prop) :
  let path := file_of p in let d4 := dir s4 in
  durable keep l d4 → bins d0 l → newest_first snap_index l → decodes raw p →
  (∀ q, q ∈ l → snap_index q = snap_index p → snap_term q ≤ snap_term p) →
  d4 !! tmp_path path = Some raw →
  (∀ c, d4 !! bak_of p = Some c → d4 !! path = None ∧ ∃ q, decodes c q ∧ key_of q = key_of p) →
  (∀ n x, backup_of n = Some x → is_Some (d4 !! n) → n = bak_of p) →
  (∀ n, is_snapshot_file n = true → n ≠ path → d4 !! n = d0 !! n) →
  (∀ d, durable keep l d ∨ durable keep (with_snap keep p l) d → C d) →
  (∀ d', durable keep (with_snap keep p l) d' → written p raw d0 d' → (b = false → no_backups d') →
     Q tt (s4 <| dir := d' |>)) →
  wpb b (io_bind (or_else (call (Rename (tmp_path path) path))
           (io_bind (when_exists (bak_path path) (ignore_error (call (Rename (bak_path path) path))))
              (λ _, ignore_error (call (Remove (tmp_path path))))))
         (λ _, io_bind (when_exists (bak_path path) (ignore_error (call (Remove (bak_path path)))))
              (λ _, ignore_error (call Sync)))) s4 Q C.
Proof.
  intros path d4 Hd4 Hbins Hl Hdec Hreg Htmp Hbak Honly Hsame HC HQ.
  set (d5 := <[path := raw]> (delete (tmp_path path) d4)).
  assert (stored p) as Hsp by apply Hdec.
  assert (core_eq d4 (delete (tmp_path path) d4)) as Hc4 by apply core_eq_del_tmp.
  assert (∀ n, n ≠ path → extension n ≠ Some "tmp" → d5 !! n = d4 !! n) as H5.
  { intros n Hn He. unfold d5. rewrite lookup_insert_ne by done. by apply Hc4. }
  assert (wf d5) as Hw5.
  { apply wf_rename; [apply Hd4|done| |].
    - intros _. by exists p.
    - intros x E. unfold path in E. by rewrite backup_of_file in E. }
  assert (written p raw d0 d5) as Hwr.
  { split; [by unfold d5; rewrite lookup_insert_eq|]. intros n Hn Hne. rewrite H5; [by apply Hsame|done|].
    by rewrite (snapshot_file_ext _ Hn). }
  assert (∀ n x, backup_of n = Some x → is_Some (d5 !! n) → n = bak_of p) as Ho5.
  { intros n x Hx Hn. eapply Honly; [done|]. rewrite <-H5; [done| |].
    - intros ->. unfold path in Hx. by rewrite backup_of_file in Hx.
    - by destruct (backup_of_Some _ _ Hx) as [-> _]. }
  assert (durable keep (with_snap keep p l) d5) as Hd5.
  { eapply durable_write; [done|done|done|done| | |done|done]; apply Hwr. }
  apply wp_bind. apply (wp_or_else (D := files)) with (C' := λ d, d = d4 ∨ d = d5).
  - eapply (wp_file_call _ _ _ d5); [done| | |by left|by right].
    + cbn [file_apply]. fold d4. by rewrite Htmp.
    + fold (bak_of p).
      apply (wp_finish b p raw keep (with_snap keep p l) d0 (s4 <| dir := d5 |>)); done.
  - intros s' Hs'. change (dir_of s') with (dir s') in Hs'.
    assert (∀ d', core_eq (dir s') d' → C d') as Hkeep.
    { intros d' Hc. apply HC. destruct Hs' as [Hs'|Hs']; rewrite Hs' in Hc; [left|right]; by eapply durable_core. }
    apply (wp_cleanup p).
    + intros d' Hc. split; by apply Hkeep.
    + intros c d' Hc Hcore.
      assert (dir s' !! bak_of p = d4 !! bak_of p ∧
        core_eq (<[path := c]> (delete (bak_of p) d4)) (<[path := c]> (delete (bak_of p) (dir s')))) as [Hbk Hcore'].
      { destruct Hs' as [->| ->]; [done|]. rewrite H5; [|apply not_eq_sym, file_ne_bak|by rewrite ext_bak].
        split; [done|]. intros n Hn. destruct (decide (n = path)) as [->|Hne]; [by rewrite !lookup_insert_eq|].
        rewrite !lookup_insert_ne by done. destruct (decide (n = bak_of p)) as [->|Hnb]; [by rewrite !lookup_delete_eq|].
        rewrite !lookup_delete_ne by done. by apply H5. }
      rewrite Hbk in Hc. destruct (Hbak c Hc) as (Hn & q & Hdc & Hk).
      assert (durable keep l (<[path := c]> (delete (bak_of p) d4))) as Hd.
      { unfold path, bak_of in *. rewrite <-(file_of_key _ _ Hk) in *. by apply durable_restore; [|apply Hdc|..]. }
      split; apply HC; left; (eapply durable_core; [|exact Hd]); by eapply core_eq_trans.
Qed.

(** The old file becomes the backup. *)
Lemma wp_displace b keep l p c s (Q : unit → FileSnapshotStore → Prop) (C : files → Prop) :
  let d4 := <[bak_of p := c]> (delete (file_of p) (dir s)) in
  durable keep l (dir s) → stored p → dir s !! file_of p = Some c →
  (∀ d, durable keep l d → C d) →
  ((∃ q, decodes c q ∧ key_of q = key_of p) → durable keep l d4 → Q tt (s <| dir := d4 |>)) →
  wpb b (or_else (call (Rename (file_of p) (bak_path (file_of p)))) (ignore_error (call (Remove (tmp_path (file_of p)))))) s Q C.
Proof.
  intros d4 Hd Hsp Hc HC HQ.
  destruct (wf_bins _ (du_wf _ _ _ Hd) (file_of p) c) as (q & Hdq & Hpq); [done|by apply snapshot_file_of|].
  assert (key_of q = key_of p) as Hk by (symmetry; by apply file_of_inj; [|apply Hdq|]).
  assert (durable keep l d4) as Hd4.
  { unfold d4, bak_of. rewrite <-(file_of_key _ _ Hk).
    apply durable_backup; [done|apply Hdq| |done]. by rewrite (file_of_key _ _ Hk). }
  apply (wp_or_else (D := files)) with (C' := λ d, d = dir s ∨ d = d4).
  - eapply (wp_file_call _ _ _ d4); [done| |by eauto|by left|by right]. cbn [file_apply]. by rewrite Hc.
  - intros s' Hs'. apply wp_drop_tmp. intros d' Hc'. apply HC.
    destruct Hs' as [Hs'|Hs']; change (dir_of s') with (dir s') in Hs'; rewrite Hs' in Hc'; by eapply durable_core.
Qed.

Lemma wp_atomic_write b keep l p raw s (Q : unit → FileSnapshotStore → Prop) (C : files → Prop) :
  open_ok keep l s → no_backups (dir s) → decodes raw p →
  (∀ q, q ∈ l → snap_index q = snap_index p → snap_term q ≤ snap_term p) →
  (∀ d, durable keep l d ∨ durable keep (with_snap keep p l) d → C d) →
  (∀ d', durable keep (with_snap keep p l) d' → written p raw (dir s) d' → (b = false → no_backups d') →
     Q tt (s <| dir := d' |>)) →
  wpb b (atomic_write (file_of p) raw) s Q C.
Proof.
  intros Hok Hnb Hdec Hreg HC HQ. pose proof (open_ok_durable _ _ _ Hok Hnb) as Hd0.
  assert (∀ d, core_eq (dir s) d → durable keep l d) as Hcore by (intros d Hc; by eapply durable_core).
  unfold atomic_write. cbn zeta. apply wp_stage; [intros d Hc; apply HC; left; by apply Hcore|].
  intros d3 Hc3 Htmp. set (path := file_of p) in *. fold (bak_of p).
  assert (∀ q, d3 !! bak_of q = None) as Hnb3.
  { intros q. rewrite (Hc3 (bak_of q)) by by rewrite ext_bak. eapply Hnb, backup_of_bak_of. }
  assert (∀ n x, backup_of n = Some x → d3 !! n = None) as Hnb3'.
  { intros n x Hx. rewrite (Hc3 n); [by eapply Hnb|]. by destruct (backup_of_Some _ _ Hx) as [-> _]. }
  assert (∀ n, is_snapshot_file n = true → d3 !! n = dir s !! n) as Hs3.
  { intros n Hn. apply Hc3. by rewrite (snapshot_file_ext _ Hn). }
  assert (stored p) as Hsp by apply Hdec.
  (* no stale backup to remove *)
  apply wp_bind. apply (wp_conseq _ _ (λ _ s', s' = s <| dir := d3 |>) _ C C); [|intros [] ? ->|done].
  { apply wp_when_exists; [intros _; apply wp_when_exists|]; try done.
    intros [c Hb]. change (d3 !! bak_of p = Some c) in Hb. by rewrite Hnb3 in Hb. }
  assert (∀ n, n ≠ path → is_snapshot_file n = true → n ≠ bak_of p) as Hnbk.
  { intros n _ Hn ->. apply snapshot_file_ext in Hn. by rewrite ext_bak in Hn. }
  apply wp_bind, wp_when_exists.
  - (* the old file becomes the backup *)
    intros [c Hc]. change (d3 !! path = Some c) in Hc.
    apply (wp_displace b keep l p c (s <| dir := d3 |>)); try done; [by apply Hcore|by auto|].
    intros Hq Hd4. fold path in Hd4 |- *. set (d4 := <[bak_of p := c]> (delete path d3)) in *.
    apply (wp_install b keep l p raw (s <| dir := d3 |> <| dir := d4 |>) (dir s)); try done.
    + apply Hok.
    + apply Hok.
    + change (d4 !! tmp_path path = Some raw). unfold d4.
      rewrite lookup_insert_ne, lookup_delete_ne; [done|..].
      * intros E. pose proof (ext_tmp p) as X. fold path in X. rewrite <-E in X.
         unfold path in X. by rewrite ext_file in X.
      * intros E. pose proof (ext_tmp p) as X. fold path in X. by rewrite <-E, ext_bak in X.
    + change (∀ c, d4 !! bak_of p = Some c → d4 !! path = None ∧ ∃ q, decodes c q ∧ key_of q = key_of p).
      intros c' Hc'. unfold d4 in *. rewrite lookup_insert_eq in Hc'. injection Hc' as <-.
      rewrite lookup_insert_ne, lookup_delete_eq; [done|intros E; by apply (file_ne_bak p p)].
    + intros n x Hx Hn. change (is_Some (d4 !! n)) in Hn. destruct (decide (n = bak_of p)) as [|Hne]; [done|].
      unfold d4 in Hn. rewrite lookup_insert_ne in Hn by done.
      apply lookup_delete_is_Some in Hn as [_ [y Hy]]. by rewrite (Hnb3' _ _ Hx) in Hy.
    + intros n Hn Hne. change (d4 !! n = dir s !! n). unfold d4.
      rewrite lookup_insert_ne, lookup_delete_ne; [by apply Hs3|done|].
      intros E. by apply (Hnbk n Hne Hn).
  - intros Hc. change (d3 !! path = None) in Hc.
    apply (wp_install b keep l p raw (s <| dir := d3 |>) (dir s)); try done.
    + by apply Hcore.
    + apply Hok.
    + apply Hok.
    + intros c Hb. change (d3 !! bak_of p = Some c) in Hb. by rewrite Hnb3 in Hb.
    + intros n x Hx [y Hy]. change (d3 !! n = Some y) in Hy. by rewrite (Hnb3' _ _ Hx) in Hy.
    + intros n Hn _. by apply Hs3.
Qed.

(** ** Deleting files of snapshots *)

Lemma take_app_last {A} (l : list A) x : take (length (l ++ [x]) - 1) (l ++ [x]) = l.
Proof. rewrite length_app, Nat.add_sub. apply take_app_length. Qed.

(** Removing the file of one snapshot of an open store. *)
Lemma bins_remove d l p :
  newest_first snap_index l → bins d l → p ∈ l →
  bins (delete (file_of p) d) (filter (λ q, q ≠ p) l).
Proof.
  intros Hl [Hh Ho] Hp.
  assert (stored p) as Hsp by (destruct (Hh p Hp) as (? & _ & _ & ?); done).
  assert (∀ q, q ∈ l → file_of q = file_of p → q = p) as Hinj.
  { intros q Hq Hf. destruct (Hh q Hq) as (? & _ & _ & Hsq).
    apply file_of_inj in Hf as [= Hi _]; [|done..]. by apply (sorted_key l). }
  split.
  - intros q [Hne Hq]%list_elem_of_filter. destruct (Hh q Hq) as (r & Hr & Hd). exists r. split; [|done].
    rewrite lookup_delete_ne; [done|]. intros E. by apply Hne, Hinj.
  - intros n [Hne Hn]%lookup_delete_is_Some Hf. destruct (Ho n Hn Hf) as (q & Hq & ->).
    exists q. split; [|done]. apply list_elem_of_filter. split; [|done]. by intros ->.
Qed.
Lemma bins_remove_other d l q :
  bins d l → stored q → (∀ p, p ∈ l → key_of p ≠ key_of q) → bins (delete (file_of q) d) l.
Proof.
  intros [Hh Ho] Hq Hne. split.
  - intros p Hp. destruct (Hh p Hp) as (r & Hr & Hd). exists r. split; [|done].
    rewrite lookup_delete_ne; [done|]. intros E. apply (Hne p Hp). symmetry.
    apply file_of_inj; [done|apply Hd|done].
  - intros n [_ Hn]%lookup_delete_is_Some Hf. by apply Ho.
Qed.
Lemma no_backups_delete d n : no_backups d → no_backups (delete n d).
Proof. intros Hn x b Hb. apply lookup_delete_None. right. by eapply Hn. Qed.

Lemma path_from_meta p : snapshot_path_from_meta p.1 = file_of p.
Proof. done. Qed.

Lemma filter_ne_last (l : list snap) p : p ∉ l → filter (λ q, q ≠ p) (l ++ [p]) = l.
Proof.
  intros Hp. rewrite filter_app, filter_cons_False, filter_nil, app_nil_r by (intros H; by apply H).
  induction l as [|x l IH]; [done|]. apply not_elem_of_cons in Hp as [Hx Hp].
  rewrite filter_cons_True by done. by rewrite IH.
Qed.

(** ** [prune] *)

Lemma wp_prune_loop b n keep l sv s (Q : unit → FileSnapshotStore → Prop) (C : files → Prop) :
  length sv = (n + keep)%nat → keep ≠ 0%nat → take keep sv = l → index s = sv.*1 →
  newest_first snap_index sv → Forall stored sv → bins (dir s) sv → durable keep l (dir s) →
  (∀ d, durable keep l d → C d) →
  (∀ s', index s' = l.*1 → bins (dir s') l → durable keep l (dir s') → max_retained s' = max_retained s →
     (no_backups (dir s) → no_backups (dir s')) → Q tt s') →
  wpb b (prune_loop n) s Q C.
Proof.
  intros Hlen Hk Hl. revert sv s Hlen Hl Q.
  induction n as [|n IH]; intros sv s Hlen Hl Q Hidx Hs Hst Hb Hd HC HQ; cbn [prune_loop].
  { rewrite take_ge in Hl by lia. subst sv. apply wp_ret. by apply HQ. }
  apply wp_bind, wp_gets. rewrite Hidx.
  destruct sv as [|old sv _] using rev_ind; [cbn in Hlen; lia|].
  rewrite fmap_app. change ([old].*1) with [old.1]. rewrite last_snoc, path_from_meta.
  assert (old ∈ sv ++ [old]) as Hin by (apply elem_of_app; right; by left).
  assert (stored old) as Hso by (rewrite Forall_forall in Hst; by apply Hst).
  pose proof (newest_first_NoDup _ _ Hs) as Hnd. apply NoDup_app in Hnd as (_ & Hni & _).
  assert (old ∉ sv) as Hno by (intros Ho; apply (Hni old Ho); by left).
  rewrite length_app in Hlen. cbn in Hlen.
  assert (take keep sv = l) as Hl' by (rewrite take_app_le in Hl by lia; done).
  assert (∀ p, p ∈ l → key_of p ≠ key_of old) as Hkey.
  { intros p Hp [= Hi _]. rewrite <-Hl' in Hp. assert (p ∈ sv) as Hps.
    { rewrite <-(take_drop keep sv). apply elem_of_app. by left. }
    assert (p = old) as ->; [|done]. apply (sorted_key (sv ++ [old])); try done. apply elem_of_app. by left. }
  assert (durable keep l (delete (file_of old) (dir s))) as Hd' by by apply durable_remove.
  assert (bins (delete (file_of old) (dir s)) sv) as Hb'.
  { rewrite <-(filter_ne_last sv old) by done. by apply bins_remove. }
  apply wp_bind, wp_when_exists.
  - intros Hex. change (is_Some (dir s !! file_of old)) in Hex. apply wp_remove; [done| |by apply HC|by apply HC].
    apply wp_bind, wp_modify. cbn [index set]. rewrite Hidx, fmap_app.
    apply (IH sv); try done; [lia| |by eapply StronglySorted_app_1_l|by apply Forall_app in Hst as [? _]|].
    + cbn [index]. rewrite <-fmap_app, length_fmap, <-fmap_take, take_app_last. done.
    + intros s' H1 H2 H3 H4 H5. apply HQ; try done. intros Hnb. by apply H5, no_backups_delete.
  - intros Hn. change (dir s !! file_of old = None) in Hn.
    destruct (bn_has _ _ Hb old Hin) as (r & Hr & _). congruence.
Qed.

Lemma retain_take keep l : keep ≠ 0%nat → retain_newest keep l = take keep l.
Proof. by destruct keep. Qed.

Lemma wp_prune b keep sv s (Q : unit → FileSnapshotStore → Prop) (C : files → Prop) :
  let l := retain_newest keep sv in
  index s = sv.*1 → max_retained s = keep → newest_first snap_index sv → Forall stored sv →
  bins (dir s) sv → durable keep l (dir s) → (∀ d, durable keep l d → C d) →
  (∀ s', open_ok keep l s' → durable keep l (dir s') → (no_backups (dir s) → no_backups (dir s')) → Q tt s') →
  wpb b prune s Q C.
Proof.
  intros l Hidx Hm Hs Hst Hb Hd HC HQ. unfold prune. apply wp_bind, wp_gets. change (id s) with s. rewrite Hm.
  assert (∀ s', index s' = l.*1 → bins (dir s') l → durable keep l (dir s') → max_retained s' = max_retained s →
     (no_backups (dir s) → no_backups (dir s')) → Q tt s') as HQ'.
  { intros s' H1 H2 H3 H4 H5. apply HQ; [|done|done]. split; try done.
    - by apply retain_sorted.
    - apply Forall_forall. intros p Hp%elem_of_retain. rewrite Forall_forall in Hst. by apply Hst.
    - by rewrite H4.
    - apply retain_length. }
  case_decide as Hk.
  - apply wp_ret. assert (l = sv) as Hls by (unfold l; by rewrite Hk).
    apply HQ'; rewrite ?Hls; try done. by rewrite <-Hls.
  - assert (l = take keep sv) as Hl by by apply retain_take.
    assert (length (index s) = length sv) as Hlen by (rewrite Hidx; apply length_fmap).
    rewrite Hlen. destruct (decide (length sv ≤ keep)%nat) as [Hle|Hgt].
    + assert (l = sv) as Hls by (etrans; [exact Hl|]; apply take_ge; lia).
      assert (length sv - keep = 0)%nat as H0 by lia.
      assert (Q tt s) as HQs by (apply HQ'; rewrite ?Hls; try done; by rewrite <-Hls).
      rewrite H0. by apply wp_ret.
    + eapply (wp_prune_loop b _ keep l sv); try done. lia.
Qed.
(** ** [save_snapshot] *)

Lemma filter_key_cases l k :
  newest_first snap_index l →
  (filter (λ q, snap_index q = k) l = [] ∧ ∀ q, q ∈ l → snap_index q ≠ k) ∨
  ∃ q, filter (λ q, snap_index q = k) l = [q] ∧ q ∈ l ∧ snap_index q = k.
Proof.
  intros Hl. induction Hl as [|x l Hl IH Hx].
  { left. split; [done|]. by intros q ?%not_elem_of_nil. }
  rewrite Forall_forall in Hx. destruct (decide (snap_index x = k)) as [He|He].
  - right. exists x. rewrite filter_cons_True by done. split; [|split; [by left|done]]. f_equal.
    destruct IH as [[-> _]|(q & _ & Hq & Hi)]; [done|]. specialize (Hx q Hq). unfold newer in Hx. lia.
  - rewrite filter_cons_False by done. destruct IH as [[-> Hn]|(q & -> & Hq & Hi)].
    + left. split; [done|]. intros q [->|Hq]%elem_of_cons; auto.
    + right. exists q. split; [done|]. split; [by right|done].
Qed.

(** The index is the list of the metadata. *)
Lemma index_insert p l :
  insert_newest last_included_index p.1 (filter (λ m, last_included_index m ≠ snap_index p) l.*1) =
  (insert_newest snap_index p (filter (λ q, snap_index q ≠ snap_index p) l)).*1.
Proof.
  assert (∀ x l', insert_newest last_included_index x.1 l'.*1 = (insert_newest snap_index x l').*1) as Hi.
  { intros x l'. induction l' as [|y l' IH]; [done|]. cbn [fmap list_fmap insert_newest].
    change (last_included_index y.1 < last_included_index x.1) with (snap_index y < snap_index x).
    destruct (decide (snap_index y < snap_index x)); [done|]. cbn [fmap list_fmap]. by rewrite <-IH. }
  rewrite <-Hi. f_equal. induction l as [|y l IH]; [done|]. cbn [fmap list_fmap].
  rewrite !filter_cons. change (last_included_index y.1) with (snap_index y).
  case_decide; [|done]. cbn. by rewrite IH.
Qed.
Lemma stale_metas l k :
  filter (λ m, last_included_index m = k) l.*1 = (filter (λ q, snap_index q = k) l).*1.
Proof.
  induction l as [|y l IH]; [done|]. cbn [fmap list_fmap].
  rewrite !filter_cons. change (last_included_index y.1) with (snap_index y).
  case_decide; [|done]. cbn. by rewrite IH.
Qed.

(** The snapshot files after the new one is written and the old one of its
    index removed. *)
Lemma bins_saved d0 d l p raw :
  newest_first snap_index l → bins d0 l → decodes raw p → d !! file_of p = Some raw →
  (∀ q, q ∈ l → snap_index q ≠ snap_index p → d !! file_of q = d0 !! file_of q) →
  (∀ n, is_snapshot_file n = true → n ≠ file_of p → is_Some (d !! n) →
     is_Some (d0 !! n) ∧ ∀ q, q ∈ l → snap_index q = snap_index p → n ≠ file_of q) →
  bins d (insert_newest snap_index p (filter (λ q, snap_index q ≠ snap_index p) l)).
Proof.
  intros Hl [Hh Ho] Hdec Hp H1 H2.
  assert (∀ r, r ∈ insert_newest snap_index p (filter (λ q, snap_index q ≠ snap_index p) l) ↔
    r = p ∨ (r ∈ l ∧ snap_index r ≠ snap_index p)) as Hsv.
  { intros r. rewrite insert_newest_perm, elem_of_cons, list_elem_of_filter. naive_solver. }
  split.
  - intros r [->|[Hr Hne]]%Hsv; [by exists raw|]. destruct (Hh r Hr) as (c & Hc & Hd).
    exists c. by rewrite H1.
  - intros n Hn Hf. destruct (decide (n = file_of p)) as [->|Hne]; [exists p; split; [|done]; apply Hsv; by left|].
    destruct (H2 n Hf Hne Hn) as [Hn0 Hnq]. destruct (Ho n Hn0 Hf) as (q & Hq & ->).
    exists q. split; [|done]. apply Hsv. right. split; [done|]. intros He. by apply (Hnq q Hq He).
Qed.

(** Removing the file the new snapshot replaces. *)
Lemma wp_stale b keep l p raw d0 s (Q : unit → FileSnapshotStore → Prop) (C : files → Prop) :
  let sv := insert_newest snap_index p (filter (λ q, snap_index q ≠ snap_index p) l) in
  let path := file_of p in
  newest_first snap_index l → bins d0 l → decodes raw p → written p raw d0 (dir s) →
  durable keep (with_snap keep p l) (dir s) → (∀ d, durable keep (with_snap keep p l) d → C d) →
  (∀ d', durable keep (with_snap keep p l) d' → bins d' sv → (no_backups (dir s) → no_backups d') →
     Q tt (s <| dir := d' |>)) →
  wpb b (for_each (λ old, let old_path := snapshot_path_from_meta old in
          if decide (old_path = path) then io_ret tt
          else when_exists old_path (call (Remove old_path)))
        (filter (λ m, last_included_index m = snap_index p) l.*1)) s Q C.
Proof.
  intros sv path Hl Hb Hdec [Hw1 Hw2] Hd HC HQ. cbn zeta.
  assert (stored p) as Hsp by apply Hdec.
  assert (∀ q, q ∈ l → stored q) as Hst.
  { intros q Hq. by destruct (bn_has _ _ Hb q Hq) as (? & _ & _ & ?). }
  assert (∀ q, q ∈ l → snap_index q ≠ snap_index p → file_of q ≠ path) as Hnf.
  { intros q Hq Hne Hf. apply Hne. by apply file_of_inj in Hf as [= ? _]; [|apply Hst|]. }
  assert (s <| dir := dir s |> = s) as Heta by by destruct s.
  assert ((∀ q, q ∈ l → snap_index q = snap_index p → file_of q = path ∨ d0 !! file_of q = None) → Q tt s) as HQs.
  { intros Hq0. rewrite <-Heta. apply HQ; [done| |done].
    apply (bins_saved d0 (dir s) l p raw); try done.
    - intros q Hq Hne. apply Hw2; [by apply snapshot_file_of, Hst|by apply Hnf].
    - intros n Hf Hne Hn. rewrite Hw2 in Hn by done. split; [done|]. intros q Hq Hi ->.
      destruct (Hq0 q Hq Hi) as [?|Hnone]; [done|]. rewrite Hnone in Hn. by destruct Hn. }
  rewrite stale_metas. destruct (filter_key_cases l (snap_index p) Hl) as [[-> Hno]|(q & -> & Hq & Hi)].
  { apply wp_ret, HQs. intros q Hq He. by destruct (Hno q Hq). }
  assert (∀ q', q' ∈ l → snap_index q' = snap_index p → q' = q) as Huq.
  { intros q' Hq' Hi'. apply (sorted_key l); try done. congruence. }
  change ([q].*1) with [q.1]. cbn [for_each]. rewrite path_from_meta.
  apply wp_bind. case_decide as Hpath.
  { apply wp_ret, wp_ret, HQs. intros q' Hq' Hi'. left. by rewrite (Huq q'). }
  assert (durable keep (with_snap keep p l) (delete (file_of q) (dir s))) as Hd'.
  { apply durable_remove; [done|by apply Hst|]. intros r Hr Hk. apply Hpath.
    apply elem_of_retain in Hr. rewrite insert_newest_perm, elem_of_cons, list_elem_of_filter in Hr.
    destruct Hr as [->|[Hne _]]; [symmetry; by apply file_of_key|].
    destruct Hne. by injection Hk as -> _. }
  apply wp_when_exists.
  - intros Hex. apply wp_remove; [done| |by apply HC|by apply HC]. apply wp_ret. apply HQ; [done| |].
    + apply (bins_saved d0 _ l p raw); try done.
      * by rewrite lookup_delete_ne.
      * intros r Hr Hne. rewrite lookup_delete_ne.
        -- apply Hw2; [by apply snapshot_file_of, Hst|by apply Hnf].
        -- intros E. apply Hne. apply file_of_inj in E as [= E1 _]; [congruence|by apply Hst..].
      * intros n Hf Hne [Hnq Hn]%lookup_delete_is_Some. rewrite Hw2 in Hn by done. split; [done|].
        intros q' Hq' Hi' ->. by rewrite (Huq q') in Hnq.
    + apply no_backups_delete.
  - intros Hn. apply wp_ret, HQs. intros q' Hq' Hi'. right. rewrite (Huq q' Hq' Hi').
    rewrite <-Hw2; [done|by apply snapshot_file_of, Hst|done].
Qed.

Context {BL : BincodeLaws VoterSet BV} {CL : Crc32Laws CR}.

Lemma encode_decodes m data :
  saveable m data → ∃ raw, encode_snapshot (normalised m data) data = Ok raw ∧
    decodes raw (normalised m data, data).
Proof using BL CL.
  intros Hs. destruct (encode_snapshot_layout m data Hs) as (raw & n & He & Hl). exists raw.
  split; [exact He|]. split; [apply decode_snapshot_layout; eauto 8|].
  destruct Hs as (Hi & Ht & (vs & Hvs & _) & Hfit). 
  split; [done|split; [exact Hi|split; [exact Ht|split; [by exists vs|cbn; lia]]]].
Qed.

Lemma find_regresses m l :
  match find (λ m', last_included_index m' =? last_included_index m) l.*1 with
  | Some existing => bool_decide (last_included_term m < last_included_term existing)
  | None => false
  end = regresses m l.
Proof.
  unfold regresses, snap_term, snap_index. rewrite find_fmap.
  revert l. unfold snap. intros l. by destruct (find _ l).
Qed.

Lemma regresses_false m l :
  newest_first snap_index l → regresses m l = false →
  ∀ q, q ∈ l → snap_index q = last_included_index m → snap_term q ≤ last_included_term m.
Proof.
  intros Hl Hr q Hq Hi. unfold regresses in Hr.
  rewrite (find_unique _ l q) in Hr; [by apply bool_decide_eq_false in Hr; lia|done|by apply N.eqb_eq|].
  intros y Hy Hyi%N.eqb_eq. apply (sorted_key l); try done. congruence.
Qed.

(** A save replaces the list by [saved]; broken off, the directory still has
    one of the two. *)
Lemma wp_save b keep l m data s (Q : unit → FileSnapshotStore → Prop) (C : files → Prop) :
  open_ok keep l s → no_backups (dir s) → saveable m data → regresses m l = false →
  (∀ d, durable keep l d ∨ durable keep (saved keep m data l) d → C d) →
  (∀ s', open_ok keep (saved keep m data l) s' → durable keep (saved keep m data l) (dir s') →
     (b = false → no_backups (dir s')) → Q tt s') →
  wpb b (save_snapshot m data) s Q C.
Proof using BL CL.
  intros Hok Hnb Hs Hr HC HQ. pose proof Hok as [Hidx Hl Hst Hb Hkeep Hlen].
  destruct (encode_decodes m data Hs) as (raw & He & Hdec). set (p := (normalised m data, data)) in *.
  change (saved keep m data l) with (with_snap keep p l) in *.
  destruct Hs as (_ & _ & (vs & Hvs & _) & _). unfold save_snapshot. rewrite Hvs.
  apply wp_bind, wp_gets. rewrite Hidx, find_regresses, Hr. cbn zeta iota.
  change (snapshot_path_from_meta (normalised m data)) with (file_of p).
  change (last_included_index m) with (snap_index p).
  rewrite He. apply wp_bind, wp_lift, wp_bind.
  apply (wp_atomic_write b keep l p raw); try done.
  { by apply regresses_false. }
  intros d' Hd' Hw Hnb'.
  set (sv := insert_newest snap_index p (filter (λ q, snap_index q ≠ snap_index p) l)).
  apply wp_bind, wp_gets. change (index (s <| dir := d' |>)) with (index s). rewrite Hidx.
  apply wp_bind. apply (wp_stale b keep l p raw (dir s) (s <| dir := d' |>)); try done; [by auto|].
  intros d2 Hd2 Hb2 Hnb2. apply wp_bind, wp_modify.
  eapply (wp_prune b keep sv).
  - cbn. rewrite Hidx. exact (index_insert p l).
  - done.
  - apply insert_newest_sorted; [by apply newest_first_filter|]. by intros y [? _]%list_elem_of_filter.
  - unfold sv. rewrite insert_newest_perm. constructor; [apply Hdec|]. by apply Forall_filter_sub.
  - done.
  - done.
  - auto.
  - intros s' Hok' Hd3 Hnb3. apply HQ; [done..|]. intros Hbf. apply Hnb3, Hnb2, Hnb', Hbf.
Qed.
End Save.
