(* ===== verification/SnapshotDelete.v ===== *)
(** * Deleting snapshots

    [delete_snapshot] of [FileSnapshotStore] against [resolve_id], the
    interface's reading of an id. *)

From S2P Require Import Prelude CoreTypes Message Text Bytes WalCodec DirIo SnapshotNames SnapshotCodec SnapshotStore SnapshotChunks SnapshotFile SnapshotState SnapshotSave.

#[local] Opaque canonical_id snapshot_filename bak_path tmp_path extension backup_of parse_snapshot_filename.

Section Delete.
Context {MA : MembershipApi} {BV : Bincode VoterSet} {CR : Crc32} {CH : Crc32Hasher} {RD : ReadDir}.
Implicit Types (d : files) (p q : snap) (l : list snap) (keep : nat) (s : FileSnapshotStore).

(** ** Positions *)

(** The position a handler looks up: exact, else from the parsed name. *)
Definition delete_position (sid : string) (idx : list SnapshotMeta) : option nat :=
  match position (λ m, bool_decide (sm_id m = sid)) idx with
  | Some pos => Some pos
  | None => match position_of_name (parse_snapshot_filename (sid +:+ ".bin")) idx with
            | Some pos => Some pos
            | None => position_of_name (parse_snapshot_filename sid) idx
            end
  end.

Lemma position_spec x (idx : list SnapshotMeta) :
  match position (λ m, bool_decide (sm_id m = x)) idx with
  | Some pos => ∃ m, idx !! pos = Some m ∧ sm_id m = x
  | None => x ∉ sm_id <$> idx
  end.
Proof.
  unfold position. destruct (list_find _ idx) as [[pos m]|] eqn:Hf; cbn.
  - apply list_find_Some in Hf as (Hm & Hx%bool_decide_eq_true & _). eauto.
  - apply list_find_None in Hf. intros (m & -> & Hm)%list_elem_of_fmap.
    rewrite Forall_forall in Hf. apply (Hf m Hm). by apply bool_decide_eq_true.
Qed.

Lemma delete_position_resolve sid idx :
  match resolve_id (sm_id <$> idx) sid with
  | Some cid => ∃ pos m, delete_position sid idx = Some pos ∧ idx !! pos = Some m ∧ sm_id m = cid
  | None => delete_position sid idx = None
  end.
Proof.
  unfold delete_position, resolve_id. pose proof (position_spec sid idx) as Hp.
  destruct (position _ idx) as [pos|].
  { destruct Hp as (m & Hm & Hx). rewrite decide_True; [eauto|].
    rewrite <-Hx. apply list_elem_of_fmap_2. by apply list_elem_of_lookup_2 in Hm. }
  rewrite decide_False by done.
  assert (∀ k, match (if decide (canonical_id k.1 k.2 ∈ sm_id <$> idx) then Some (canonical_id k.1 k.2) else None) with
    | Some cid => ∃ pos m, position_of_name (Some k) idx = Some pos ∧ idx !! pos = Some m ∧ sm_id m = cid
    | None => position_of_name (Some k) idx = None
    end) as Hk.
  { intros [t i]. cbn [fst snd position_of_name mbind option_bind].
    pose proof (position_spec (canonical_id t i) idx) as Hc. destruct (position _ idx) as [pos|].
    - destruct Hc as (m & Hm & Hx). rewrite decide_True; [by exists pos, m|].
      rewrite <-Hx. apply list_elem_of_fmap_2. by apply list_elem_of_lookup_2 in Hm.
    - by rewrite decide_False. }
  destruct (parse_snapshot_filename (sid +:+ ".bin")) as [k|] eqn:Hext.
  - apply parse_with_ext in Hext. specialize (Hk k). rewrite Hext. destruct k as [t i].
    cbn [mbind option_bind fst snd] in *. destruct (decide _).
    + destruct Hk as (pos & m & Hpos & ?). rewrite Hpos. eauto.
    + by rewrite Hk.
  - change (position_of_name None idx) with (@None nat). cbv iota.
    destruct (parse_snapshot_filename sid) as [[t i]|]; [|done]. apply (Hk (t, i)).
Qed.

Lemma filter_all_id {A} (P : A → Prop) `{∀ x, Decision (P x)} (l : list A) : Forall P l → filter P l = l.
Proof. intros Hl. induction Hl as [|x l Hx _ IH]; [done|]. rewrite filter_cons_True by done. by rewrite IH. Qed.
Lemma filter_ext_in {A} (P Q : A → Prop) `{∀ x, Decision (P x), ∀ x, Decision (Q x)} (l : list A) :
  Forall (λ x, P x ↔ Q x) l → filter P l = filter Q l.
Proof.
  induction 1 as [|x l Hx _ IH]; [done|]. rewrite !filter_cons. repeat case_decide; [by rewrite IH|tauto..|done].
Qed.
Lemma delete_filter l i p : NoDup l → l !! i = Some p → delete i l = filter (λ q, q ≠ p) l.
Proof.
  intros Hl. revert i. induction Hl as [|x l Hx Hl IH]; intros i Hi; [done|].
  destruct i as [|i]; cbn in Hi.
  - injection Hi as ->. rewrite filter_cons_False by (intros H; by apply H).
    change (delete 0%nat (p :: l)) with l. symmetry. apply filter_all_id, Forall_forall. by intros y Hy ->.
  - rewrite filter_cons_True; [change (delete (S i) (x :: l)) with (x :: delete i l); f_equal; by apply IH|]. intros ->.
    apply Hx. by apply list_elem_of_lookup_2 in Hi.
Qed.

(** Ids are unique in an open store. *)
Lemma filter_id_filter l p :
  newest_first snap_index l → Forall stored l → p ∈ l →
  filter (λ q, sm_id q.1 ≠ sm_id p.1) l = filter (λ q, q ≠ p) l.
Proof.
  intros Hl Hst Hp. rewrite Forall_forall in Hst.
  apply filter_ext_in. apply Forall_forall. intros q Hq. split; [by intros Hne ->|].
  intros Hne Hid. apply Hne. apply (sorted_key l); try done.
  pose proof (Hst _ Hq) as Hsq. pose proof (Hst _ Hp) as Hsp.
  rewrite !stored_canonical in Hid by done. destruct Hsq as (_ & ? & ? & _), Hsp as (_ & ? & ? & _).
  by apply canonical_id_inj in Hid as [_ ?].
Qed.

(** ** [delete_snapshot] *)

Definition dropped (cid : string) l : list snap := filter (λ p, sm_id p.1 ≠ cid) l.

Lemma delete_snapshot_missing sid l s :
  index s = l.*1 → resolve_id (sm_id <$> l.*1) sid = None →
  run (delete_snapshot sid) s = (s, Err (Storage "snapshot not found")).
Proof.
  intros Hidx Hr. pose proof (delete_position_resolve sid (index s)) as Hp. rewrite Hidx, Hr in Hp.
  unfold run, delete_snapshot, io_bind, gets. cbn. rewrite Hidx.
  fold (delete_position sid l.*1). by rewrite Hp.
Qed.

Lemma wp_delete b keep l sid cid s (Q : unit → FileSnapshotStore → Prop) (C : files → Prop) :
  open_ok keep l s → no_backups (dir s) → resolve_id (sm_id <$> l.*1) sid = Some cid →
  (∀ d, durable keep l d ∨ durable keep (dropped cid l) d → C d) →
  (∀ s', open_ok keep (dropped cid l) s' → durable keep (dropped cid l) (dir s') → no_backups (dir s') → Q tt s') →
  wpb b (delete_snapshot sid) s Q C.
Proof.
  intros Hok Hnb Hr HC HQ. pose proof Hok as [Hidx Hl Hst Hb Hkeep Hlen].
  pose proof (delete_position_resolve sid l.*1) as Hp. rewrite Hr in Hp.
  destruct Hp as (pos & m & Hpos & Hm & Hid).
  apply list_lookup_fmap_Some in Hm as (p & -> & Hp).
  assert (p ∈ l) as Hin by by apply list_elem_of_lookup_2 in Hp.
  assert (dropped cid l = filter (λ q, q ≠ p) l) as Hdrop by (rewrite <-Hid; by apply filter_id_filter).
  assert (delete pos l = dropped cid l) as Hdel.
  { rewrite Hdrop. apply delete_filter; [by eapply newest_first_NoDup|done]. }
  assert (open_ok keep (dropped cid l) (s <| dir := delete (file_of p) (dir s) |> <| index := delete pos (index s) |>)) as Hok'.
  { split.
    - cbn. by rewrite Hidx, <-Hdel, list_fmap_delete.
    - by apply newest_first_filter.
    - by apply Forall_filter_sub.
    - rewrite Hdrop. by apply bins_remove.
    - done.
    - intros Hk. etrans; [apply length_filter|auto]. }
  assert (no_backups (delete (file_of p) (dir s))) as Hnb' by by apply no_backups_delete.
  pose proof (open_ok_durable _ _ _ Hok' Hnb') as Hd'.
  unfold delete_snapshot. apply wp_bind, wp_gets. rewrite Hidx. cbn zeta.
  fold (delete_position sid l.*1). rewrite Hpos. cbn [mbind option_bind].
  rewrite list_lookup_fmap, Hp. cbn [fmap option_fmap option_map]. rewrite path_from_meta.
  apply wp_bind, wp_when_exists.
  - intros Hex. apply wp_remove; [done| | |].
    + apply wp_modify. by apply HQ.
    + apply HC. left. by apply (open_ok_durable _ _ _ Hok).
    + apply HC. by right.
  - intros Hn. destruct (bn_has _ _ Hb p Hin) as (r & Hr' & _). congruence.
Qed.
End Delete.
