(* ===== verification/SnapshotOpen.v ===== *)
(** * Opening a snapshot directory

    [open_with_retention]: temporaries go, backups of interrupted writes are
    settled, the files are scanned, sorted, deduplicated and pruned.  From any
    directory [durable] describes, the store opens with its snapshots. *)

From S2P Require Import Prelude CoreTypes Message Text Bytes WalCodec DirIo SnapshotNames SnapshotCodec SnapshotStore SnapshotChunks SnapshotFile SnapshotState SnapshotSave.

#[local] Opaque canonical_id snapshot_filename bak_path tmp_path extension backup_of parse_snapshot_filename.

Section Open.
Context {MA : MembershipApi} {BV : Bincode VoterSet} {CR : Crc32} {CH : Crc32Hasher} {RD : ReadDir}.
Context {RL : ReadDirLaws RD} {HL : Crc32HasherLaws CH}.
Implicit Types (d : files) (p q r : snap) (l : list snap) (keep : nat) (s : FileSnapshotStore).

(** ** The listing *)

Lemma elem_of_read_dir d n : n ∈ read_dir d ↔ is_Some (d !! n).
Proof using RL.
  rewrite read_dir_perm, list_elem_of_fmap. split.
  - intros ([n' c] & -> & Hc%elem_of_map_to_list). by exists c.
  - intros [c Hc]. exists (n, c). split; [done|]. by apply elem_of_map_to_list.
Qed.
Lemma NoDup_read_dir d : NoDup (read_dir d).
Proof using RL. rewrite read_dir_perm. apply NoDup_fst_map_to_list. Qed.

(** ** Interrupted writes *)

Lemma wp_remove_tmps b names s (Q : unit → FileSnapshotStore → Prop) (C : files → Prop) :
  (∀ d', core_eq (dir s) d' → Q tt (s <| dir := d' |>)) →
  wpb b (for_each (λ name, if decide (extension name = Some "tmp")
                           then ignore_error (call (Remove name)) else io_ret tt) names) s Q C.
Proof.
  intros HQ. apply (wp_for_each _ _ (λ _ s', ∃ d', core_eq (dir s) d' ∧ s' = s <| dir := d' |>)).
  - exists (dir s). split; [done|]. by destruct s.
  - intros l1 n l2 s' _ (d' & Hc & ->). case_decide as He; [|apply wp_ret; eauto].
    apply wp_ignore_remove; [|eauto].
    exists (delete n d'). split; [|done]. eapply core_eq_trans; [exact Hc|].
    intros m Hm. apply lookup_delete_ne. by intros ->.
  - intros s' (d' & Hc & ->). by apply HQ.
Qed.

(** Every backup left stands next to its file, and none after a run without
    faults. *)
Definition settled b d : Prop :=
  ∀ n x, backup_of n = Some x → is_Some (d !! n) → b = true ∧ is_Some (d !! x).

Definition settling b keep l d0 (seen : list string) d : Prop :=
  durable keep l d ∧
  (∀ n x, backup_of n = Some x → n ∉ seen → d !! n = d0 !! n) ∧
  (∀ n x, backup_of n = Some x → n ∈ seen → is_Some (d !! n) → b = true ∧ is_Some (d !! x)).

Lemma settling_snoc b keep l d0 seen p d d' :
  settling b keep l d0 seen d → durable keep l d' →
  (∀ n, n ≠ bak_of p → n ≠ file_of p → d' !! n = d !! n) →
  (is_Some (d !! file_of p) → is_Some (d' !! file_of p)) →
  (is_Some (d' !! bak_of p) → b = true ∧ is_Some (d' !! file_of p)) →
  settling b keep l d0 (seen ++ [bak_of p]) d'.
Proof.
  intros (Hd & H1 & H2) Hd' Hsame Hpres Hname.
  assert (∀ n y, backup_of n = Some y → n ≠ file_of p) as Hnx.
  { intros n y Hy ->. by rewrite backup_of_file in Hy. }
  split; [done|split].
  - intros n y Hy Hn. rewrite not_elem_of_app, list_elem_of_singleton in Hn. destruct Hn as [Hn Hne].
    rewrite Hsame; [by eapply H1|done|by eapply Hnx].
  - intros n y Hy Hn He. destruct (decide (n = bak_of p)) as [->|Hne].
    { rewrite backup_of_bak_of in Hy. simplify_eq. by apply Hname. }
    assert (n ∈ seen) as Hs by (apply elem_of_app in Hn as [?|?%list_elem_of_singleton]; done).
    rewrite Hsame in He by (try done; by eapply Hnx).
    destruct (H2 n y Hy Hs He) as [Hb Hyd]. split; [done|].
    destruct He as [c Hc]. destruct (wf_baks _ (du_wf _ _ _ Hd) n c y Hc Hy) as (q & _ & ->).
    rewrite backup_of_bak_of in Hy. injection Hy as <-.
    destruct (decide (file_of q = file_of p)) as [E|Hyx]; [rewrite E in *; by apply Hpres|].
    rewrite Hsame; [done|apply file_ne_bak|done].
Qed.

(** One backup: deleted next to its file, else renamed to it. *)
Lemma wp_recover_backup b keep l d0 seen name s (Q : unit → FileSnapshotStore → Prop) (C : files → Prop) :
  settling b keep l d0 seen (dir s) → is_Some (d0 !! name) → name ∉ seen →
  (∀ d', durable keep l d' → C d') →
  (∀ d', settling b keep l d0 (seen ++ [name]) d' → Q tt (s <| dir := d' |>)) →
  wpb b (recover_backup name) s Q C.
Proof.
  intros Hset [c Hc] Hns HC HQ. pose proof Hset as (Hd & H1 & H2).
  assert (s <| dir := dir s |> = s) as Heta by by destruct s.
  unfold recover_backup. destruct (backup_of name) as [x|] eqn:Hx.
  2:{ apply wp_ret. rewrite <-Heta. apply HQ. split; [done|split].
      - intros n y Hy Hn. apply (H1 n y Hy). rewrite not_elem_of_app in Hn. by destruct Hn.
      - intros n y Hy [Hn| ->%list_elem_of_singleton]%elem_of_app; [by apply H2|by rewrite Hx in Hy]. }
  rewrite <-(H1 name x Hx Hns) in Hc.
  destruct (wf_baks _ (du_wf _ _ _ Hd) name c x Hc Hx) as (p & Hdec & ->).
  rewrite backup_of_bak_of in Hx. injection Hx as <-. assert (stored p) as Hsp by apply Hdec.
  apply wp_bind, wp_gets. case_bool_decide as He.
  - apply wp_ignore_remove.
    + apply HQ. apply (settling_snoc b keep l d0 seen p (dir s)); [done|by apply durable_drop_backup| | |].
      * intros n Hn _. by rewrite lookup_delete_ne.
      * rewrite lookup_delete_ne; [done|]. intros E. by apply (file_ne_bak p p).
      * rewrite lookup_delete_eq. by intros [].
    + intros ->. rewrite <-Heta. apply HQ. by apply (settling_snoc _ keep l d0 seen p (dir s)).
  - assert (dir s !! file_of p = None) as Hn by by apply eq_None_not_Some.
    assert (durable keep l (<[file_of p := c]> (delete (bak_of p) (dir s)))) as Hd' by by apply durable_restore.
    eapply (wp_file_call _ _ _ (<[file_of p := c]> (delete (bak_of p) (dir s)))); [done| | |by apply HC|by apply HC].
    + cbn [file_apply]. by rewrite Hc.
    + apply HQ. apply (settling_snoc b keep l d0 seen p (dir s)); [done|done| | |].
      * intros n H3 H4. by rewrite lookup_insert_ne, lookup_delete_ne.
      * intros _. rewrite lookup_insert_eq. by eexists.
      * rewrite lookup_insert_ne, lookup_delete_eq; [by intros []|]. apply file_ne_bak.
Qed.

Lemma wp_recover_writes b keep l s (Q : unit → FileSnapshotStore → Prop) (C : files → Prop) :
  durable keep l (dir s) → (∀ d', durable keep l d' → C d') →
  (∀ d', durable keep l d' → settled b d' → Q tt (s <| dir := d' |>)) →
  wpb b recover_incomplete_writes s Q C.
Proof using RL.
  intros Hd HC HQ. unfold recover_incomplete_writes. apply wp_bind, wp_gets.
  apply wp_bind, wp_remove_tmps. intros d1 Hc1.
  assert (∀ n x, backup_of n = Some x → d1 !! n = dir s !! n) as Hb1.
  { intros n x Hx. apply Hc1. by destruct (backup_of_Some _ _ Hx) as [-> _]. }
  apply (wp_for_each _ _ (λ seen s', ∃ d', settling b keep l (dir s) seen d' ∧ s' = s <| dir := d' |>)).
  - exists d1. split; [|done]. split; [by eapply durable_core|split].
    + intros n x Hx _. by eapply Hb1.
    + by intros n x _ ?%not_elem_of_nil.
  - intros seen name l2 s' Heq (d' & Hset & ->).
    pose proof (NoDup_read_dir (dir s)) as Hnd. rewrite Heq in Hnd. apply NoDup_app in Hnd as (_ & Hnd & _).
    eapply (wp_recover_backup b keep l (dir s) seen); [exact Hset| | |done|].
    + apply elem_of_read_dir. rewrite Heq. apply elem_of_app. right. by left.
    + intros Hn. apply (Hnd name Hn). by left.
    + intros d2 Hset2. exists d2. split; [done|]. done.
  - intros s' (d' & (Hd' & H1 & H2) & ->). apply HQ; [done|]. intros n x Hx Hn.
    apply (H2 n x); [done| |done]. destruct (decide (n ∈ read_dir (dir s))) as [|Hni]; [done|].
    rewrite (H1 n x Hx Hni), <-elem_of_read_dir in Hn. done.
Qed.
(** ** The scan *)

Lemma decodes_meta raw p : decodes raw p → read_meta_from_file raw = Ok p.1.
Proof using HL.
  intros [Hd Hs]. destruct p as [m data]. apply read_meta_layout.
  apply decode_snapshot_layout in Hd as (i & t & vs & n & Hl & ->). cbn. eauto 8.
Qed.

(** [p]'s own file is there. *)
Definition filed d p : Prop := ∃ raw, d !! file_of p = Some raw ∧ decodes raw p.

Lemma wp_scan_all b ps sc s (Q : scan → FileSnapshotStore → Prop) (C : files → Prop) :
  Forall (filed (dir s)) ps →
  (∀ h, Q (mkScan h (skipped_keys sc) (corrupt_paths sc)) (s <| index := index s ++ ps.*1 |>)) →
  wpb b (scan_all (file_of <$> ps) sc) s Q C.
Proof using HL.
  revert sc s. induction ps as [|p ps IH]; intros sc s Hf HQ; cbn [fmap list_fmap scan_all].
  { apply wp_ret. specialize (HQ (highest_fname sc)). rewrite fmap_nil, app_nil_r in HQ.
    by destruct s, sc. }
  apply Forall_cons in Hf as [(raw & Hraw & Hdec) Hf].
  pose proof Hdec as [_ (Hn & Hi & Ht & _)].
  apply wp_bind. unfold scan_one.
  assert (parse_snapshot_filename (file_of p) = Some (snap_term p, snap_index p)) as ->.
  { unfold file_of. by apply parse_snapshot_filename_canonical. }
  apply wp_bind, wp_gets. rewrite Hraw. change (default [] (Some raw)) with raw. rewrite (decodes_meta _ _ Hdec).
  change (last_included_term p.1) with (snap_term p). change (last_included_index p.1) with (snap_index p).
  rewrite decide_False by (intros [H|H]; by apply H).
  change (snapshot_filename (snap_term p) (snap_index p)) with (file_of p). rewrite decide_True by done.
  apply wp_bind, wp_modify, wp_ret. apply (IH _ (s <| index := index s ++ [p.1] |>)); [done|].
  intros h. specialize (HQ h). cbn [index] in *. 
  rewrite fmap_cons, cons_middle, app_assoc in HQ. exact HQ.
Qed.

(** The files of a directory with settled backups, as snapshots. *)
Lemma scan_entries b keep l d :
  durable keep l d → settled b d →
  ∃ ps, filter (λ name, is_snapshot_file name = true) (read_dir d) = file_of <$> ps ∧
    NoDup ps ∧ Forall (filed d) ps ∧ ∀ q, has d q ↔ q ∈ ps.
Proof using RL.
  intros Hd Hset. set (entries := filter _ _).
  assert (Forall (λ n, ∃ p, n = file_of p ∧ filed d p) entries) as Hall.
  { apply Forall_forall. intros n [Hf [c Hc]%elem_of_read_dir]%list_elem_of_filter.
    destruct (wf_bins _ (du_wf _ _ _ Hd) n c Hc Hf) as (p & Hp & ->). exists p. split; [done|]. by exists c. }
  assert (∃ ps, entries = file_of <$> ps ∧ Forall (filed d) ps) as (ps & Heq & Hps).
  { clear -Hall. induction Hall as [|n es (p & -> & Hp) _ (ps & -> & Hps)]; [by exists []|].
    exists (p :: ps). split; [done|]. by constructor. }
  exists ps. split; [done|]. split; [|split; [done|]].
  - apply (NoDup_fmap_1 file_of). rewrite <-Heq. apply NoDup_filter, NoDup_read_dir.
  - intros q. rewrite Forall_forall in Hps. split; [|intros Hq; left; by apply Hps].
    intros Hq. assert (filed d q) as (c & Hc & Hdec).
    { destruct Hq as [Hq|(Hn & c & Hc & Hdec)]; [done|].
      destruct (Hset (bak_of q) (file_of q) (backup_of_bak_of q)) as [_ Hx]; [by eexists|].
      rewrite Hn in Hx. by destruct Hx. }
    assert (file_of q ∈ entries) as Hin.
    { apply list_elem_of_filter. split; [apply snapshot_file_of, Hdec|]. apply elem_of_read_dir. by eexists. }
    rewrite Heq in Hin. apply list_elem_of_fmap in Hin as (p & Hfp & Hp).
    destruct (Hps p Hp) as (c' & Hc' & Hd'). rewrite <-Hfp, Hc in Hc'. injection Hc' as <-.
    destruct Hdec as [H1 _], Hd' as [H2 _]. assert (q = p) as ->; [congruence|done].
Qed.
(** ** Sorting and deduplication *)

(** Strictly before, in the sort's order. *)
Definition above : relation snap := λ p q,
  snap_index q < snap_index p ∨ snap_index p = snap_index q ∧ snap_term q < snap_term p.

#[local] Instance newest_total : Total newest.
Proof. intros a b. unfold newest. lia. Qed.
#[local] Instance newest_trans : Transitive newest.
Proof. intros a b c. unfold newest. lia. Qed.

Lemma sort_snaps ps :
  NoDup ps → (∀ p q, p ∈ ps → q ∈ ps → key_of p = key_of q → p = q) →
  ∃ qs, merge_sort newest ps.*1 = qs.*1 ∧ ps ≡ₚ qs ∧ StronglySorted above qs.
Proof.
  intros Hnd Hinj.
  destruct (Permutation_map_inv fst ps (merge_sort_Permutation newest ps.*1)) as (qs & Heq & Hp).
  exists qs. split; [exact Heq|]. split; [done|].
  assert (StronglySorted newest qs.*1) as Hs.
  { change (qs.*1) with (map fst qs). rewrite <-Heq. apply (StronglySorted_merge_sort newest). }
  rewrite Hp in Hnd. assert (∀ p q, p ∈ qs → q ∈ qs → key_of p = key_of q → p = q) as Hinj'.
  { intros p q. rewrite <-!Hp. apply Hinj. }
  clear -Hs Hnd Hinj'. induction qs as [|x qs IH]; [constructor|].
  inversion Hs as [|? ? Hs' Hx]; subst. apply NoDup_cons in Hnd as [Hni Hnd].
  constructor; [apply IH; [done..|]; intros p q ??; apply Hinj'; by right|].
  apply Forall_forall. intros y Hy. rewrite Forall_fmap, Forall_forall in Hx. specialize (Hx y Hy).
  cbn in Hx. unfold newest in Hx. unfold above. fold (snap_index x) (snap_index y) (snap_term x) (snap_term y) in Hx.
  destruct Hx as [Hx|[Hi Ht]]; [by left|right]. split; [done|].
  destruct (decide (snap_term x = snap_term y)) as [He|]; [|lia].
  assert (x = y) as ->; [|done]. apply Hinj'; [by left|by right|]. unfold key_of. by rewrite Hi, He.
Qed.

(** What the loop returns, and leaves of the directory [d]. *)
Record deduped keep l (ps : list snap) (seen : list N) d (sv : list snap) d' : Prop := {
  dd_sub p : p ∈ sv → p ∈ ps ∧ snap_index p ∉ seen;
  dd_cover q : q ∈ ps → snap_index q ∉ seen →
    ∃ p, p ∈ sv ∧ snap_index p = snap_index q ∧ snap_term q ≤ snap_term p;
  dd_sorted : newest_first snap_index sv;
  dd_durable : durable keep l d';
  dd_same n : (∀ r, r ∈ ps → r ∉ sv → n ≠ file_of r) → d' !! n = d !! n;
  dd_gone r : r ∈ ps → r ∉ sv → d' !! file_of r = None;
}.

(** The first file is one too many and goes. *)
Lemma deduped_skip keep l x ps seen d d1 sv d' :
  x ∉ ps → (∀ r, r ∈ ps → file_of r ≠ file_of x) → snap_index x ∈ seen →
  (∀ n, n ≠ file_of x → d1 !! n = d !! n) → d1 !! file_of x = None →
  deduped keep l ps seen d1 sv d' → deduped keep l (x :: ps) seen d sv d'.
Proof.
  intros Hxps Hfx Hin Hsame Hnone [H1 H2 H3 H4 H5 H6].
  assert (x ∉ sv) as Hxsv by (intros Hi; by destruct (H1 x Hi)). split; try done.
  - intros p Hp. destruct (H1 p Hp). split; [by right|done].
  - intros q [->|Hq]%elem_of_cons Hni; [done|by apply H2].
  - intros n Hn. rewrite H5; [apply Hsame, Hn; [by left|done]|]. intros r Hr. apply Hn. by right.
  - intros r [->|Hr]%elem_of_cons Hni; [|by apply H6]. rewrite H5; [done|].
    intros r Hr _ E. by apply (Hfx r Hr).
Qed.

(** The first file is the best one of its index and stays. *)
Lemma deduped_keep keep l x ps seen d sv d' :
  (∀ r, r ∈ ps → above x r) → snap_index x ∉ seen →
  deduped keep l ps (snap_index x :: seen) d sv d' → deduped keep l (x :: ps) seen d (x :: sv) d'.
Proof.
  intros Hx Hin [H1 H2 H3 H4 H5 H6].
  assert (x ∉ ps) as Hxps by (intros Hi; specialize (Hx x Hi); unfold above in Hx; lia).
  assert (∀ r, r ∈ x :: ps → r ∉ x :: sv → r ∈ ps ∧ r ∉ sv) as Hcons.
  { intros r Hr Hn. apply not_elem_of_cons in Hn as [Hne Hn]. by apply elem_of_cons in Hr as [?|?]. }
  split; try done.
  - intros p [->|Hp]%elem_of_cons; [split; [by left|done]|]. destruct (H1 p Hp) as [Hp' Hni].
    split; [by right|]. by apply not_elem_of_cons in Hni as [_ ?].
  - intros q [->|Hq]%elem_of_cons Hni; [exists x; split; [by left|done]|].
    destruct (decide (snap_index q = snap_index x)) as [He|He].
    + exists x. split; [by left|]. split; [done|]. specialize (Hx q Hq). unfold above in Hx. lia.
    + destruct (H2 q Hq) as (p & Hp & ?); [by apply not_elem_of_cons|]. exists p. split; [by right|done].
  - constructor; [done|]. apply Forall_forall. intros p Hp. destruct (H1 p Hp) as [Hp' Hni].
    apply not_elem_of_cons in Hni as [Hne _]. specialize (Hx p Hp'). unfold above in Hx. unfold newer. lia.
  - intros n Hn. apply H5. intros r Hr Hns. apply Hn; [by right|]. apply not_elem_of_cons.
    split; [by intros ->|done].
  - intros r Hr Hns. destruct (Hcons r Hr Hns). by apply H6.
Qed.

Lemma wp_dedup b keep l ps seen (out : snap → Prop) s (Q : list SnapshotMeta → FileSnapshotStore → Prop) (C : files → Prop) :
  StronglySorted above ps → durable keep l (dir s) →
  (∀ r, r ∈ ps → snap_index r ∈ seen → out r) →
  (∀ x r, x ∈ ps → r ∈ ps → snap_index x = snap_index r → snap_term r < snap_term x → out r) →
  (∀ r, r ∈ ps → stored r) → (∀ r, out r → ∀ p, p ∈ l → key_of p ≠ key_of r) →
  (∀ d, durable keep l d → C d) →
  (∀ sv d', deduped keep l ps seen (dir s) sv d' → Q sv.*1 (s <| dir := d' |>)) →
  wpb b (dedup_all ps.*1 seen) s Q C.
Proof.
  intros Hs. revert seen s Q. induction Hs as [|x ps Hs IH Hx];
    intros seen s Q Hd Hseen Hbeat Hst Hout HC HQ; cbn [fmap list_fmap dedup_all].
  { apply wp_ret. specialize (HQ [] (dir s)).
    assert (s <| dir := dir s |> = s) as E by by destruct s. rewrite E in HQ. apply HQ.
    split; try done; try (by intros ? ?%not_elem_of_nil). constructor. }
  rewrite Forall_forall in Hx.
  assert (x ∉ ps) as Hxps by (intros Hin; specialize (Hx x Hin); unfold above in Hx; lia).
  assert (∀ r, r ∈ ps → file_of r ≠ file_of x) as Hfx.
  { intros r Hr Hf. apply file_of_inj in Hf as [= Hi Ht]; [|apply Hst; by right|apply Hst; by left].
    specialize (Hx r Hr). unfold above in Hx. lia. }
  change (last_included_index x.1) with (snap_index x). case_decide as Hin.
  - rewrite path_from_meta. apply wp_bind.
    assert (∀ d1, durable keep l d1 → (∀ n, n ≠ file_of x → d1 !! n = dir s !! n) → d1 !! file_of x = None →
      wpb b (dedup_all ps.*1 seen) (s <| dir := d1 |>) Q C) as Hnext.
    { intros d1 Hd1 Hsame Hnone. apply IH; try done.
      - intros r Hr. apply Hseen. by right.
      - intros y r Hy Hr. apply Hbeat; by right.
      - intros r Hr. apply Hst. by right.
      - intros sv d' Hdd. by apply HQ, (deduped_skip _ _ _ _ _ _ d1). }
    assert (durable keep l (delete (file_of x) (dir s))) as Hd'.
    { apply durable_remove; [done|apply Hst; by left|]. apply Hout, Hseen; [by left|done]. }
    apply wp_when_exists.
    + intros Hex. apply wp_remove; [done| |by apply HC|by apply HC]. apply Hnext; [done| |by rewrite lookup_delete_eq].
      intros n Hn. by rewrite lookup_delete_ne.
    + intros Hn. assert (s <| dir := dir s |> = s) as E by by destruct s. rewrite <-E. by apply Hnext.
  - apply wp_bind. apply IH; try done.
    + intros r Hr [Hi|Hi]%elem_of_cons; [|apply Hseen; [by right|done]].
      apply (Hbeat x); [by left|by right|done|]. specialize (Hx r Hr). unfold above in Hx. lia.
    + intros y r Hy Hr. apply Hbeat; by right.
    + intros r Hr. apply Hst. by right.
    + intros sv d' Hdd. apply wp_ret. by apply (HQ (x :: sv)), deduped_keep.
Qed.
(** What the loop keeps is what the directory opens with. *)
Lemma deduped_bins b keep l ps qs d sv d' :
  durable keep l d → settled b d → ps ≡ₚ qs →
  filter (λ name, is_snapshot_file name = true) (read_dir d) = file_of <$> ps →
  (∀ q, has d q ↔ q ∈ ps) → Forall (filed d) ps → deduped keep l qs [] d sv d' →
  retain_newest keep sv = l ∧ bins d' sv ∧ Forall stored sv ∧ (b = false → no_backups d').
Proof using RL.
  intros Hd Hset Hpq Hent Hhas Hfil [H1 H2 H3 H4 H5 H6]. rewrite Forall_forall in Hfil.
  assert (∀ p, p ∈ sv → p ∈ ps) as Hsub by (intros p Hp; rewrite Hpq; by apply H1).
  assert (∀ r n, r ∈ qs → r ∉ sv → d' !! n ≠ None → n ≠ file_of r) as Hgone.
  { intros r n Hr Hns Hn ->. by rewrite H6 in Hn. }
  assert (∀ p r, p ∈ ps → r ∈ ps → file_of p = file_of r → p = r) as Hinj.
  { intros p r Hp Hr Hf. destruct (Hfil p Hp) as (? & _ & _ & ?), (Hfil r Hr) as (? & _ & _ & ?).
    apply (has_fun d); [by apply Hhas..|by apply file_of_inj]. }
  split; [|split; [|split]].
  - apply (durable_unique keep l d); [done|done|intros p Hp; by apply Hhas, Hsub|].
    intros q Hq%Hhas. apply H2; [by rewrite <-Hpq|]. apply not_elem_of_nil.
  - split.
    + intros p Hp. destruct (Hfil p (Hsub p Hp)) as (c & Hc & Hdec). exists c. split; [|done].
      rewrite H5; [done|]. intros r Hr Hns Hf. apply Hns. rewrite <-Hpq in Hr.
      by rewrite <-(Hinj p r) by auto.
    + intros n Hn Hf. assert (is_Some (d !! n)) as Hdn.
      { rewrite <-H5; [done|]. intros r Hr Hns. apply Hgone; [done..|]. intros E. rewrite E in Hn. by destruct Hn. }
      assert (n ∈ file_of <$> ps) as Hin.
      { rewrite <-Hent. apply list_elem_of_filter. split; [done|]. by apply elem_of_read_dir. }
      apply list_elem_of_fmap in Hin as (p & -> & Hp). exists p. split; [|done].
      destruct (decide (p ∈ sv)) as [|Hns]; [done|].
      rewrite Hpq in Hp. rewrite (H6 p Hp Hns) in Hn. by destruct Hn.
  - apply Forall_forall. intros p Hp. by destruct (Hfil p (Hsub p Hp)) as (? & _ & _ & ?).
  - intros Hb n x Hx. destruct (d' !! n) eqn:Hn; [|done]. rewrite H5 in Hn.
    + destruct (Hset n x Hx) as [? _]; [by eexists|congruence].
    + intros r _ _ ->. by rewrite backup_of_file in Hx.
Qed.

(** A key that another of its index beats is not opened with. *)
Lemma beaten_out keep l d x r :
  durable keep l d → has d x → snap_index x = snap_index r → snap_term r < snap_term x →
  ∀ p, p ∈ l → key_of p ≠ key_of r.
Proof.
  intros Hd Hx Hi Ht p Hp [= Hpi Hpt]. destruct (du_all _ _ _ Hd x Hx) as [(p' & Hp' & Hi' & Ht')|(_ & _ & Hlt)].
  - assert (p' = p) as -> by (apply (sorted_key l); [apply Hd|done..|congruence]). lia.
  - specialize (Hlt p Hp). lia.
Qed.

Lemma wp_rebuild b keep l s (Q : unit → FileSnapshotStore → Prop) (C : files → Prop) :
  durable keep l (dir s) → settled b (dir s) → (∀ d', durable keep l d' → C d') →
  (∀ sv d', retain_newest keep sv = l → bins d' sv → Forall stored sv → newest_first snap_index sv →
     durable keep l d' → (b = false → no_backups d') → Q tt (s <| dir := d' |> <| index := sv.*1 |>)) →
  wpb b rebuild_index s Q C.
Proof using RL HL.
  intros Hd Hset HC HQ. destruct (scan_entries b keep l (dir s) Hd Hset) as (ps & Hent & Hnd & Hfil & Hhas).
  destruct (sort_snaps ps Hnd) as (qs & Hsort & Hpq & Habove).
  { intros p q Hp Hq. apply (has_fun (dir s)); by apply Hhas. }
  assert (∀ r, r ∈ qs → has (dir s) r) as Hq by (intros r; rewrite <-Hpq; apply Hhas).
  unfold rebuild_index. apply wp_bind, wp_modify, wp_bind, wp_gets.
  change (dir (s <| index := [] |>)) with (dir s). rewrite Hent.
  apply wp_bind, wp_scan_all; [done|]. intros h. cbn [skipped_keys corrupt_paths].
  apply wp_bind, wp_modify, wp_bind, wp_gets. cbn [index set highest_fname].
  change ([] ++ ps.*1) with ps.*1. rewrite Hsort.
  assert (∀ k, bool_decide (k ∈ ([] : list (N * N))) = false) as Hnil.
  { intros k. apply bool_decide_eq_false, not_elem_of_nil. }
  match goal with |- context [if ?c then _ else _] => replace c with false by by destruct h; rewrite ?Hnil end.
  apply wp_bind, wp_modify, wp_bind.
  set (s1 := mkFileSnapshotStore (dir s) [] (max_retained s)).
  apply (wp_dedup b keep l qs [] (λ r, stored r ∧ ∀ p, p ∈ l → key_of p ≠ key_of r) s1); try done.
  - intros r _ Hr. by apply not_elem_of_nil in Hr.
  - intros x r Hx Hr Hi Ht. split; [by eapply has_stored, Hq|].
    by apply (beaten_out keep l (dir s) x); [|apply Hq|..].
  - intros r Hr. by eapply has_stored, Hq.
  - by intros r [_ ?].
  - intros sv d' Hdd. destruct (deduped_bins b keep l ps qs (dir s) sv d') as (Hret & Hb & Hst & Hnb); try done.
    apply wp_bind, wp_modify. cbn [for_each]. apply wp_ret. apply HQ; try done; apply Hdd.
Qed.

Lemma wp_open_snapshots b keep l d (Q : unit → FileSnapshotStore → Prop) (C : files → Prop) :
  durable keep l d → (∀ d', durable keep l d' → C d') →
  (∀ s', open_ok keep l s' → durable keep l (dir s') → (b = false → no_backups (dir s')) → Q tt s') →
  wpb b open_store (mkFileSnapshotStore d [] keep) Q C.
Proof using RL HL.
  intros Hd HC HQ. unfold open_store. apply wp_bind, (wp_recover_writes b keep l); [done..|].
  intros d1 Hd1 Hset1. apply wp_bind, (wp_rebuild b keep l); [done..|].
  intros sv d2 Hret Hb Hst Hs Hd2 Hnb. subst l. apply (wp_prune b keep sv); try done.
  intros s' Hok Hd' Hnb'. apply HQ; [done..|]. intros Hbf. by apply Hnb', Hnb.
Qed.
End Open.
