(* ===== verification/SnapshotSafety.v ===== *)
(** * What the durable snapshot store guarantees

    Refinement of the snapshot-store contract, restarts, crash consistency of
    saves and deletions, and a history in which a deleted snapshot comes
    back. *)

From S2P Require Import Prelude CoreTypes Message Text Bytes WalCodec DirIo SnapshotNames SnapshotCodec SnapshotStore SnapshotChunks SnapshotFile SnapshotState SnapshotSave SnapshotDelete SnapshotOpen Concrete.

Section Safety.
Context {MA : MembershipApi} {BV : Bincode VoterSet} {CR : Crc32} {CH : Crc32Hasher} {RD : ReadDir}.
Implicit Types (d : files) (p q : snap) (l : list snap) (keep : nat) (s : FileSnapshotStore).

(** The snapshots a store holds: what its index points at. *)
Definition held s : list snap :=
  omap (λ m, match read_snapshot_file (snapshot_path_from_meta m) s with Ok p => Some p | Err _ => None end)
    (index s).

(** A store that serves what its directory has, with nothing to settle. *)
Definition file_inv keep s : Prop := open_ok keep (held s) s ∧ no_backups (dir s).

#[local] Opaque canonical_id snapshot_filename bak_path tmp_path extension backup_of parse_snapshot_filename.

Lemma read_held keep l s p : open_ok keep l s → p ∈ l → read_snapshot_file (file_of p) s = Ok p.
Proof.
  intros Hok Hp. destruct (bn_has _ _ (ok_bins _ _ _ Hok) p Hp) as (raw & Hr & Hd & _).
  unfold read_snapshot_file. by rewrite Hr.
Qed.
Lemma held_open keep l s : open_ok keep l s → held s = l.
Proof.
  intros Hok. unfold held. rewrite (ok_index _ _ _ Hok).
  assert (∀ p, p ∈ l → read_snapshot_file (file_of p) s = Ok p) as Hall by (intros p; by eapply read_held).
  clear Hok. induction l as [|p l IH]; [done|]. cbn. rewrite path_from_meta, Hall by by left.
  cbn. f_equal. apply IH. intros q Hq. apply Hall. by right.
Qed.
Lemma inv_of_open keep l s : open_ok keep l s → no_backups (dir s) → file_inv keep s ∧ held s = l.
Proof. intros Hok Hn. pose proof (held_open _ _ _ Hok) as E. split; [|done]. split; [by rewrite E|done]. Qed.

(** ** The contract *)

Section Laws.
Context {BL : BincodeLaws VoterSet BV} {CL : Crc32Laws CR} {HL : Crc32HasherLaws CH} {RL : ReadDirLaws RD}.

Lemma find_id l t i :
  Forall stored l → u64 i → u64 t →
  find (λ m, bool_decide (sm_id m = canonical_id t i)) l.*1 =
  fst <$> find (λ p, (snap_index p =? i) && (snap_term p =? t)) l.
Proof.
  intros Hst Hi Ht. rewrite find_fmap. f_equal. apply find_ext.
  eapply Forall_impl; [exact Hst|]. intros p Hp. by apply stored_id.
Qed.

Lemma file_store_refuses keep m data s :
  file_inv keep s → sm_voter_set m = None ∨ regresses m (held s) = true →
  ∃ msg, ss_save_snapshot m data s = (s, Err (Storage msg)).
Proof.
  intros [Hok _] Hc. cbn. unfold run, save_snapshot. destruct (sm_voter_set m); [|by eexists].
  destruct Hc as [|Hr]; [done|]. unfold io_bind, gets. cbn.
  rewrite (ok_index _ _ _ Hok), find_regresses, Hr. by eexists.
Qed.

Lemma file_store_reads keep s :
  file_inv keep s →
  load_latest_snapshot s = Ok (head (held s)) ∧
  (∀ i t, u64 i → u64 t →
     load_snapshot i t s = Ok (find (λ p, (snap_index p =? i) && (snap_term p =? t)) (held s)) ∧
     snapshot_exists i t s = existsb (λ p, (snap_index p =? i) && (snap_term p =? t)) (held s)) ∧
  (∀ p cs off mb, p ∈ held s → u64 off → chunk_size_or_default cs + N.of_nat (length p.2) ≤ u64_max →
     reader_from_offset p.1 cs off mb s = Ok (Ok <$> default_chunks p cs off mb)).
Proof using HL.
  intros [Hok _]. generalize dependent (held s). intros l Hok.
  pose proof (ok_index _ _ _ Hok) as Hidx. pose proof (ok_stored _ _ _ Hok) as Hst.
  assert (∀ p, p ∈ l → read_snapshot_file (file_of p) s = Ok p) as Hrd by (intros p; by eapply read_held).
  split; [|split].
  - unfold load_latest_snapshot. rewrite Hidx. destruct l as [|p l]; [done|]. cbn.
    rewrite path_from_meta, Hrd by by left. done.
  - intros i t Hi Ht. split.
    + unfold load_snapshot. rewrite Hidx, find_id by done.
      destruct (find _ l) as [p|] eqn:Hf; [|done]. apply find_some in Hf as [Hp _].
      cbn. rewrite path_from_meta, Hrd; [done|]. by apply list_elem_of_In.
    + unfold snapshot_exists. rewrite Hidx. unfold snap.
      clear -Hst Hi Ht. induction Hst as [|p l Hp _ IH]; [done|]. cbn. by rewrite IH, stored_id.
  - intros p cs off mb Hp Ho Hfit. unfold reader_from_offset. rewrite path_from_meta.
    destruct (bn_has _ _ (ok_bins _ _ _ Hok) p Hp) as (raw & -> & Hd & _). destruct p as [m data].
    by apply (streaming_reader_is_default raw m data).
Qed.

(** The overridden [snapshot_reader] is the default one. *)
Lemma file_snapshot_reader meta cs s : snapshot_reader meta cs s = ss_reader meta cs s.
Proof.
  unfold ss_reader, snapshot_reader. cbn. unfold reader_from_offset.
  destruct (dir s !! _); [|done]. by rewrite chunked_reader_whole.
Qed.

Lemma file_store_deletes keep sid s :
  file_inv keep s → delete_resolves (file_inv keep) held sid s.
Proof using BL CL.
  intros [Hok Hnb]. unfold delete_resolves. destruct (resolve_id _ sid) as [cid|] eqn:Hr.
  - destruct (wp_run (b := false) (delete_snapshot sid) s
      (λ _ s', open_ok keep (dropped cid (held s)) s' ∧ no_backups (dir s')) (λ _, True)) as (s' & [] & Hrun & Hok' & Hn').
    { apply (wp_delete false keep (held s) sid cid); auto. }
    exists s'. split; [done|]. by apply inv_of_open.
  - eexists. by apply (delete_snapshot_missing sid (held s)); [apply Hok|].
Qed.

Lemma file_snapshot_contract keep :
  SnapshotStoreContract FileSnapshotStore file_snapshot_api (file_inv keep) held keep saveable.
Proof using BL CL HL RL.
  split; cbn.
  - intros s [Hok _]. apply Hok.
  - intros s [Hok _]. apply Hok.
  - intros m d s Hi Hv. eapply file_store_refuses; eauto.
  - intros m d s Hi _ Hr. eapply file_store_refuses; eauto.
  - intros m d s [Hok Hnb] _ Hr Ha.
    destruct (wp_run (b := false) (save_snapshot m d) s
      (λ _ s', open_ok keep (saved keep m d (held s)) s' ∧ no_backups (dir s')) (λ _, True)) as (s' & [] & Hrun & Hok' & Hn').
    { apply (wp_save false keep (held s)); auto. }
    exists s'. split; [done|]. by apply inv_of_open.
  - intros s Hi. by apply (file_store_reads keep s Hi).
  - intros i t s Hi Ui Ut. by apply (file_store_reads keep s Hi).
  - intros s [Hok _]. unfold list_snapshots. by rewrite (ok_index _ _ _ Hok).
  - intros sid s Hi. apply (delete_listed (A := file_snapshot_api) (file_inv keep) held sid s). by apply file_store_deletes.
  - intros sid s Hi Hn. pose proof (file_store_deletes keep sid s Hi) as Hd. unfold delete_resolves in Hd. by rewrite Hn in Hd.
  - intros i t s Hi Ui Ut. by apply (file_store_reads keep s Hi).
  - intros sid s [Hok _]. unfold find_by_id. by rewrite (ok_index _ _ _ Hok).
  - intros p cs off mb s Hi Hp Hlt Hfit. apply (file_store_reads keep s Hi); [done| |done].
    unfold u64. lia.
Qed.

(** C31: The durable store keeps what the [SnapshotStore] trait documents, as
    the in-memory one does, with its retention limit: saves refuse a missing
    voter set and a lower term, and otherwise put the normalised snapshot in
    its place and drop the oldest beyond the limit; loads read back, through
    the file format, exactly what was saved; listings are newest first;
    deletion by canonical id removes that snapshot, and an id that names none
    is an error; the streaming reader yields the chunks from any offset within
    the payload. Where the code departs from the documentation, it says what
    the code does: an id that is not canonical but parses to a snapshot's term
    and index deletes that snapshot, where the documentation has an error, and
    at or past the end of the payload the reader yields one empty final chunk
    with the metadata, where the documentation has an empty iterator. *)
Theorem file_store_refines_snapshot_store keep :
  SnapshotStoreLaws FileSnapshotStore file_snapshot_api (file_inv keep) held keep saveable.
Proof using BL CL HL RL.
  split; [apply file_snapshot_contract|..].
  - intros sid cid s Hi _ Hc. pose proof (file_store_deletes keep sid s Hi) as Hd.
    unfold delete_resolves in Hd. by rewrite Hc in Hd.
  - intros p cs off mb s Hi Hp Ho Hfit Hle. cbn.
    destruct (file_store_reads keep s Hi) as (_ & _ & ->); [|done..]. by rewrite default_chunks_past_end.
Qed.

(** ** Restarts *)

Lemma durable_opens keep l d :
  durable keep l d → ∃ s, open_with_retention d keep None = ((s, None), Ok tt) ∧ file_inv keep s ∧ held s = l.
Proof using RL HL.
  intros Hd. assert (wpb false open_store (mkFileSnapshotStore d [] keep)
    (λ _ s', open_ok keep l s' ∧ no_backups (dir s')) (λ _, True)) as Hwp by (apply (wp_open_snapshots _ keep l); auto).
  specialize (Hwp None ltac:(done)). unfold open_with_retention.
  destruct (open_store _) as [[s' f'] [[]|e]]; [|by destruct Hwp].
  destruct Hwp as [[Hok Hn] Hf]. exists s'. rewrite Hf by done. split; [done|]. by apply inv_of_open.
Qed.

(** Any number of opens of the directory, each with a fault at any of its
    calls or with none, whatever it returned: errors of the clean-up of an
    open are ignored. *)
Inductive interrupted_opens keep : files → files → Prop :=
| opens_none d : interrupted_opens keep d d
| opens_more d fault s' fault' r d' :
    open_with_retention d keep fault = ((s', fault'), r) →
    interrupted_opens keep (dir s') d' → interrupted_opens keep d d'.

Lemma durable_interrupted keep l d d' : durable keep l d → interrupted_opens keep d d' → durable keep l d'.
Proof using RL HL.
  intros Hd Ho. induction Ho as [|d fault s' fault' r d' Heq _ IH]; [done|]. apply IH.
  assert (wp open_store (mkFileSnapshotStore d [] keep) (λ _ s, durable keep l (dir s)) (durable keep l)) as Hwp
    by by apply (wp_open_snapshots true keep l).
  destruct (wp_outcome _ _ _ _ _ _ _ _ Hwp Heq) as [(a & _ & ? & _)|[_ [_ ?]]]; done.
Qed.

(** The directory of an open store, for any retention limit. *)
Lemma open_durable_retain keep keep' l s :
  open_ok keep l s → no_backups (dir s) → durable keep' (retain_newest keep' l) (dir s).
Proof.
  intros Hok Hn. pose proof (open_ok_durable _ _ _ Hok Hn) as Hd. pose proof (ok_sorted _ _ _ Hok) as Hl.
  split; [apply Hd|by apply retain_sorted| | |apply retain_length].
  - intros p Hp%elem_of_retain. by apply Hd.
  - intros q Hq%(bins_has _ l); [|apply Hok|done].
    destruct (retain_or_older keep' l q Hl Hq); [left; by exists q|by right].
Qed.

(** A restart loses no snapshot: if the process stops between calls, then
    even after any number of opens of the directory, broken off at any call or
    not, opening succeeds and the store holds the same
    snapshots, contents included; under another retention limit, the newest of
    them it allows. *)
Theorem restart_restores_snapshots keep keep' s d' :
  file_inv keep s → interrupted_opens keep' (dir s) d' →
  ∃ s', open_with_retention d' keep' None = ((s', None), Ok tt) ∧ file_inv keep' s' ∧
    held s' = retain_newest keep' (held s).
Proof using RL HL.
  intros [Hok Hn] Ho. apply durable_opens. eapply durable_interrupted; [|done].
  by eapply open_durable_retain.
Qed.

(** ** Crashes *)

Inductive snapshot_op : Type :=
| SaveOp (meta : SnapshotMeta) (data : bytes)
| DeleteOp (sid : string).
Definition run_op (op : snapshot_op) : io FileSnapshotStore unit :=
  match op with
  | SaveOp meta data => save_snapshot meta data
  | DeleteOp sid => delete_snapshot sid
  end.
Definition op_admitted (op : snapshot_op) l : Prop :=
  match op with
  | SaveOp meta data => saveable meta data ∧ regresses meta l = false
  | DeleteOp sid => is_Some (resolve_id (sm_id <$> l.*1) sid)
  end.
Definition op_effect keep (op : snapshot_op) l : list snap :=
  match op with
  | SaveOp meta data => saved keep meta data l
  | DeleteOp sid =>
      match resolve_id (sm_id <$> l.*1) sid with
      | Some cid => dropped cid l
      | None => l
      end
  end.

Lemma snapshot_op_wp keep l s op :
  open_ok keep l s → no_backups (dir s) → op_admitted op l →
  wp (run_op op) s (λ _ s', durable keep (op_effect keep op l) (dir s'))
    (λ d, durable keep l d ∨ durable keep (op_effect keep op l) d).
Proof using BL CL.
  intros Hok Hn Ha. destruct op as [m data|sid]; cbn in *.
  - destruct Ha. by apply (wp_save true keep l).
  - destruct Ha as [cid Hr]. rewrite Hr. by apply (wp_delete true keep l sid cid).
Qed.

(** C25: Crash consistency of the snapshot directory: run any admissible save or
    deletion with a fault at any of its file-system calls, the broken call
    half-done; then, after any number of opens of the directory, broken off at
    any call or not, opening succeeds and the store holds exactly the snapshots from
    before the operation or those from after it, and those from after it if
    the operation reported success: never a torn file, never none of the two. *)
Theorem interrupted_snapshot_change_recovers keep s op fault s' fault' r d' :
  file_inv keep s → op_admitted op (held s) → run_op op (s, fault) = ((s', fault'), r) →
  interrupted_opens keep (dir s') d' →
  ∃ s'', open_with_retention d' keep None = ((s'', None), Ok tt) ∧ file_inv keep s'' ∧
    (held s'' = held s ∨ held s'' = op_effect keep op (held s)) ∧
    (r = Ok tt → held s'' = op_effect keep op (held s)).
Proof using BL CL HL RL.
  intros [Hok Hn] Ha Hrun Ho.
  destruct (wp_outcome _ _ _ _ _ _ _ _ (snapshot_op_wp keep _ s op Hok Hn Ha) Hrun)
    as [([] & -> & Hd & _)|[[e ->] (_ & [Hd|Hd])]];
    destruct (durable_opens _ _ _ (durable_interrupted _ _ _ _ Hd Ho)) as (s'' & Hopen & Hinv & Hl);
    exists s''; rewrite Hl; (split; [done|split; [done|split; [auto|done]]]).
Qed.
End Laws.
End Safety.

Import Concrete.

(** An equation by evaluation, without reading the values back. *)
Ltac by_vm := match goal with |- _ = ?b => vm_cast_no_check (eq_refl b) end.

(** ** Sample histories *)

#[export] Instance map_read_dir : ReadDir := {| read_dir d := (map_to_list d).*1 |}.
#[export] Instance map_read_dir_laws : ReadDirLaws map_read_dir.
Proof. by split. Qed.

Definition opened (keep : nat) (d : files) : FileSnapshotStore := (open_with_retention d keep None).1.1.
Definition payload (n : nat) : bytes := replicate n Byte.x2a.
Definition snap_of (index t : N) (n : nat) : snap := (normalised (snap_meta index t) (payload n), payload n).

Lemma saveable_snap_meta index t n :
  u64 index → u64 t → N.of_nat n ≤ 1000 → saveable (snap_meta index t) (payload n).
Proof.
  intros Hi Ht Hn. split; [done|]. split; [done|]. split.
  - exists one_voter. split; [done|]. vm_compute. by split.
  - unfold payload. rewrite length_replicate. etrans; [|instantiate (1 := 1000 + MAX_VOTER_SET_LEN + 38); by vm_compute].
    lia.
Qed.

Lemma empty_durable keep : durable keep [] ∅.
Proof.
  split.
  - split; intros n c; by rewrite lookup_empty.
  - constructor.
  - by intros p ?%not_elem_of_nil.
  - intros q [(r & Hr & _)|(_ & r & Hr & _)]; by rewrite lookup_empty in Hr.
  - intros _. cbn. lia.
Qed.
Lemma empty_inv keep : file_inv keep (opened keep ∅) ∧ held (opened keep ∅) = [].
Proof.
  destruct (durable_opens keep [] ∅ (empty_durable keep)) as (s & Hs & Hinv & Hl).
  unfold opened. by rewrite Hs.
Qed.

(** A store that keeps two snapshots, after three saves. *)
Definition save_all (s : FileSnapshotStore) (l : list (N * N * nat)) : FileSnapshotStore :=
  foldl (λ s x, (ss_save_snapshot (snap_meta x.1.1 x.1.2) (payload x.2) s).1) s l.
Definition three_saves : FileSnapshotStore := save_all (opened 2 ∅) [(10, 1, 3%nat); (20, 1, 2%nat); (30, 2, 1%nat)].

Lemma save_inv keep s index t n :
  file_inv keep s → u64 index → u64 t → N.of_nat n ≤ 1000 → regresses (snap_meta index t) (held s) = false →
  let s' := (ss_save_snapshot (snap_meta index t) (payload n) s).1 in
  file_inv keep s' ∧ held s' = saved keep (snap_meta index t) (payload n) (held s).
Proof.
  intros Hs Hi Ht Hn Hr. destruct (wp_run (b := false) (save_snapshot (snap_meta index t) (payload n)) s
    (λ _ s', open_ok keep (saved keep (snap_meta index t) (payload n) (held s)) s' ∧ no_backups (dir s')) (λ _, True))
    as (s' & [] & Hrun & Hok & Hn').
  - destruct Hs as [Hok Hnb]. apply (wp_save false keep (held s)); auto. by apply saveable_snap_meta.
  - assert ((ss_save_snapshot (snap_meta index t) (payload n) s).1 = s') as E by exact (f_equal fst Hrun).
    cbv zeta. rewrite E. by apply inv_of_open.
Qed.
Lemma three_saves_inv : file_inv 2 three_saves ∧ held three_saves = [snap_of 30 2 1; snap_of 20 1 2].
Proof.
  unfold three_saves, save_all. destruct (empty_inv 2) as [H0 E0]. cbn [foldl fst snd].
  destruct (save_inv 2 _ 10 1 3 H0) as [H1 E1]; [done..|by rewrite E0|]. rewrite E0 in E1.
  destruct (save_inv 2 _ 20 1 2 H1) as [H2 E2]; [done..|by rewrite E1|]. rewrite E1 in E2.
  destruct (save_inv 2 _ 30 2 1 H2) as [H3 E3]; [done..|by rewrite E2|]. rewrite E2 in E3.
  split; [exact H3|]. rewrite E3. done.
Qed.

Lemma file_store_refines_snapshot_store_witness :
  SnapshotStoreLaws FileSnapshotStore file_snapshot_api (file_inv 2) held 2 saveable ∧
  file_inv 2 three_saves ∧ snap_index <$> held three_saves = [30; 20].
Proof.
  split; [exact (file_store_refines_snapshot_store 2)|]. split; [apply three_saves_inv|]. vm_compute. reflexivity.
Defined.

(** Reopening with room for one. *)
Lemma restart_restores_snapshots_witness :
  ∃ s', open_with_retention (dir three_saves) 1 None = ((s', None), Ok tt) ∧ file_inv 1 s' ∧
    held s' = retain_newest 1 (held three_saves).
Proof.
  exact (restart_restores_snapshots 2 1 three_saves (dir three_saves) (proj1 three_saves_inv) (opens_none 1 _)).
Defined.

(** Replacing a snapshot by one of a higher term, broken off half-way through
    writing the temporary. *)
Definition broken_save : world FileSnapshotStore * Result unit :=
  save_snapshot (snap_meta 30 3) (payload 4) (three_saves, Some (1, 9)%nat).

Lemma interrupted_snapshot_change_recovers_witness :
  let op := SaveOp (snap_meta 30 3) (payload 4) in
  broken_save.2 = Err (Storage "io") ∧
  ∃ s'', open_with_retention (dir broken_save.1.1) 2 None = ((s'', None), Ok tt) ∧ file_inv 2 s'' ∧
    (held s'' = held three_saves ∨ held s'' = op_effect 2 op (held three_saves)) ∧
    (broken_save.2 = Ok tt → held s'' = op_effect 2 op (held three_saves)).
Proof.
  split; [vm_compute; reflexivity|].
  refine (interrupted_snapshot_change_recovers 2 three_saves (SaveOp (snap_meta 30 3) (payload 4))
    (Some (1, 9)%nat) broken_save.1.1 broken_save.1.2 broken_save.2 (dir broken_save.1.1)
    (proj1 three_saves_inv) _ (outcome_eta _) (opens_none 2 _)).
  split; [|vm_compute; reflexivity].
  apply saveable_snap_meta; [vm_compute; discriminate..|]. vm_compute. discriminate.
Defined.

(** Snapshot 10 is saved twice; removing the backup of the first file fails,
    which the second save ignores; then snapshot 10 is deleted. *)
Definition saved_once : FileSnapshotStore := save_all (opened 0 ∅) [(10, 1, 3%nat)].
Definition saved_twice : world FileSnapshotStore * Result unit :=
  save_snapshot (snap_meta 10 1) (payload 2) (saved_once, Some (5, 0)%nat).
Definition deleted : FileSnapshotStore * Result unit :=
  DirIo.run (delete_snapshot (canonical_id 1 10)) saved_twice.1.1.

(** A deleted snapshot can come back, with a payload that had been replaced:
    [atomic_write] reports success although it could not remove the backup of
    the file it replaced, [delete_snapshot] removes only the file, and the next
    open takes the backup for that of an interrupted write. *)
Theorem deleted_snapshot_returns :
  saved_twice.2 = Ok tt ∧ held saved_twice.1.1 = [snap_of 10 1 2] ∧
  deleted.2 = Ok tt ∧ held deleted.1 = [] ∧
  (open_with_retention (dir deleted.1) 0 None).2 = Ok tt ∧
  held (opened 0 (dir deleted.1)) = [snap_of 10 1 3].
Proof. split_and!; by_vm. Qed.

Definition sample_file_1_10 : bytes :=
  match encode_snapshot (snap_meta 10 1) (payload 2) with Ok raw => raw | Err _ => [] end.
(** A valid snapshot under a name that is not canonical, next to a torn file
    of the canonical name. *)
Definition two_names : files :=
  <["snapshot-1-10.bin" := sample_file_1_10]> {[snapshot_filename 1 10 := take 20 sample_file_1_10]}.

(** Opening deletes the valid one as a duplicate, then refuses to open; without
    the torn file it would have opened with the snapshot. *)
Lemma valid_duplicate_is_destroyed :
  (open_with_retention (delete (snapshot_filename 1 10) two_names) 3 None).2 = Ok tt ∧
  held (opened 3 (delete (snapshot_filename 1 10) two_names)) = [snap_of 10 1 2] ∧
  (∃ e, (open_with_retention two_names 3 None).2 = Err e) ∧
  dir (opened 3 two_names) = {[snapshot_filename 1 10 := take 20 sample_file_1_10]}.
Proof.
  split_and!; try by_vm.
  exists (Storage "latest snapshot is corrupt or has header/filename mismatch; refusing to fall back"). by_vm.
Qed.
