(* ===== verification/Fs.v ===== *)
(** * One directory of a file system, with failing calls and power losses

    The durable stores keep small files in one directory and replace them by
    writing a temporary sibling and renaming it.  A store's effect on disk is
    a list of calls; a call may fail half-way, and at any moment the power may
    go.  What survives a power loss is what was synced: an unsynced file may
    hold anything, an unsynced directory may show its old or its new entries. *)

From S2P Require Import Prelude Message.

(** The directory as the process sees it ([live]), as of the last directory
    sync ([stable]), and the files with unsynced contents ([dirty]). *)
Record disk : Type := Disk {
  live : gmap string bytes;
  stable : gmap string bytes;
  dirty : gset string;
}.

(** The calls: [OpenOptions::create+truncate], [write_all] at the end,
    [sync_all] on a file, [rename], [remove_file], [sync_all] on the directory. *)
Inductive fsop : Type :=
| OpCreate (name : string)
| OpWrite (name : string) (data : bytes)
| OpSync (name : string)
| OpRename (src dst : string)
| OpRemove (name : string)
| OpSyncDir.

Definition fs_apply (op : fsop) (d : disk) : disk :=
  match op with
  | OpCreate f => Disk (<[f := []]> (live d)) (stable d) ({[f]} ∪ dirty d)
  | OpWrite f data =>
      Disk (<[f := default [] (live d !! f) ++ data]> (live d)) (stable d) ({[f]} ∪ dirty d)
  | OpSync f => Disk (live d) (stable d) (dirty d ∖ {[f]})
  | OpRename f g =>
      match live d !! f with
      | Some b =>
          Disk (<[g := b]> (delete f (live d))) (stable d)
            (if decide (f ∈ dirty d) then {[g]} ∪ dirty d else dirty d ∖ {[g]})
      | None => d
      end
  | OpRemove f => Disk (delete f (live d)) (stable d) (dirty d)
  | OpSyncDir => Disk (live d) (live d) (dirty d)
  end.

(** What a failing call leaves: [write_all] may have written a prefix; the
    other calls either take effect or not ([cut = 0]). *)
Definition fs_apply_cut (cut : nat) (op : fsop) (d : disk) : disk :=
  match op with
  | OpWrite f data => fs_apply (OpWrite f (take cut data)) d
  | _ => match cut with O => d | S _ => fs_apply op d end
  end.

(** [None] is a run without a fault; [Some (k, cut)] lets [k] calls succeed
    and breaks the next one.  The flag says whether every call succeeded. *)
Fixpoint fs_run (fault : option (nat * nat)) (ops : list fsop) (d : disk) : disk * bool :=
  match ops with
  | [] => (d, true)
  | op :: ops =>
      match fault with
      | Some (O, cut) => (fs_apply_cut cut op d, false)
      | Some (S k, cut) => fs_run (Some (k, cut)) ops (fs_apply op d)
      | None => fs_run None ops (fs_apply op d)
      end
  end.

(** What file [f] may hold after a power loss. *)
Definition survives (d : disk) (f : string) (c : option bytes) : Prop :=
  c = live d !! f ∨ c = stable d !! f ∨ f ∈ dirty d.

(** A directory a power loss may leave. *)
Definition crashed (d : disk) (r : gmap string bytes) : Prop :=
  ∀ f, survives d f (r !! f).

(** The disk a process finds when it starts. *)
Definition booted (r : gmap string bytes) : disk := Disk r r ∅.

Lemma crashed_now d : crashed d (live d).
Proof. intros f. by left. Qed.

Lemma survives_booted r f c : survives (booted r) f c ↔ c = r !! f.
Proof. unfold survives, booted; cbn. set_solver. Qed.

(** Write-to-temporary, sync, rename, sync the directory. *)
Definition atomic_replace (tmp final : string) (data : bytes) : list fsop :=
  [OpCreate tmp; OpWrite tmp data; OpSync tmp; OpRename tmp final; OpSyncDir].

(** [d'] is [d] as far as the files other than [tmp] are concerned. *)
Definition same_except (tmp : string) (d d' : disk) : Prop :=
  ∀ f, f ≠ tmp →
    live d' !! f = live d !! f ∧ stable d' !! f = stable d !! f ∧ (f ∈ dirty d' ↔ f ∈ dirty d).

Lemma same_except_survives tmp d d' f c :
  same_except tmp d d' → f ≠ tmp → survives d' f c ↔ survives d f c.
Proof. intros Hs Hf. unfold survives. destruct (Hs f Hf) as (-> & -> & ->). done. Qed.

Lemma same_except_refl tmp d : same_except tmp d d.
Proof. done. Qed.

Lemma same_except_tmp_op tmp d d' op :
  same_except tmp d d' →
  (op = OpCreate tmp ∨ (∃ b, op = OpWrite tmp b) ∨ op = OpSync tmp) →
  same_except tmp d (fs_apply op d').
Proof.
  intros Hs Hop f Hf. destruct (Hs f Hf) as (H1 & H2 & H3).
  destruct Hop as [->|[[b ->]| ->]]; cbn; rewrite ?lookup_insert_ne by done;
    (split_and!; [done|done|set_solver]).
Qed.

(** The disk after the temporary is written and synced. *)
Definition staged (tmp : string) (data : bytes) (d : disk) : disk :=
  fs_apply (OpSync tmp) (fs_apply (OpWrite tmp data) (fs_apply (OpCreate tmp) d)).

Lemma staged_tmp tmp data d :
  live (staged tmp data d) !! tmp = Some data ∧ tmp ∉ dirty (staged tmp data d).
Proof. unfold staged. cbn. rewrite !lookup_insert_eq. split; [done|set_solver]. Qed.

Lemma staged_same tmp data d : same_except tmp d (staged tmp data d).
Proof. unfold staged. repeat (apply same_except_tmp_op; [|by eauto]). done. Qed.

(** The rename: the final file's live contents are the new ones, clean, and
    its stable ones still the old. *)
Lemma renamed_spec tmp final data d f :
  tmp ≠ final → f ≠ tmp →
  let d' := fs_apply (OpRename tmp final) (staged tmp data d) in
  (f = final → live d' !! f = Some data ∧ f ∉ dirty d') ∧
  (f ≠ final → live d' !! f = live d !! f ∧ (f ∈ dirty d' ↔ f ∈ dirty d)) ∧
  stable d' !! f = stable d !! f.
Proof.
  intros Hne Hf d'. destruct (staged_tmp tmp data d) as [Hl Hd].
  destruct (staged_same tmp data d f Hf) as (S1 & S2 & S3).
  subst d'. cbn -[staged]. rewrite Hl. cbn -[staged].
  destruct (decide (tmp ∈ dirty (staged tmp data d))) as [|_]; [done|].
  split_and!; [intros ->|intros Hff|done].
  - rewrite lookup_insert_eq. split; [done|set_solver].
  - rewrite lookup_insert_ne by done. rewrite lookup_delete_ne by done. set_solver.
Qed.

(** Whatever fails and whenever the power goes, the final file is one it
    might have been before or the new one, complete; other files are as
    before; and success means the new one and nothing else. *)
Lemma atomic_replace_spec fault tmp final data d d' ok :
  tmp ≠ final → fs_run fault (atomic_replace tmp final data) d = (d', ok) →
  (∀ c, survives d' final c → c = Some data ∨ survives d final c) ∧
  (ok = true → ∀ c, survives d' final c → c = Some data) ∧
  (∀ f c, f ≠ tmp → f ≠ final → survives d' f c → survives d f c) ∧
  (live d' !! final = live d !! final ∨ live d' !! final = Some data).
Proof.
  intros Hne Hrun.
  set (d3 := staged tmp data d) in *.
  set (d4 := fs_apply (OpRename tmp final) d3) in *.
  assert (same_except tmp d d' ∧ ok = false ∨ d' = d4 ∧ ok = false ∨
    d' = fs_apply OpSyncDir d4) as Hcases.
  { subst d3 d4. unfold atomic_replace, staged in *.
    assert (∀ x, OpCreate tmp = x → x = OpCreate tmp ∨ (∃ b, x = OpWrite tmp b) ∨ x = OpSync tmp)
      as Hx by eauto.
    destruct fault as [[[|[|[|[|[|k]]]]] cut]|]; cbn [fs_run] in Hrun; apply pair_inv in Hrun as [<- <-];
      cbn [fs_apply_cut]; try destruct cut; eauto;
      left; (split; [|done]); repeat (apply same_except_tmp_op; [|by eauto]); done. }
  destruct Hcases as [[Hs ->]|[[-> ->]| ->]].
  - split_and!; [| done | |].
    + intros c Hc. right. by apply (same_except_survives tmp d d').
    + intros f c Hf _ Hc. by apply (same_except_survives tmp d d').
    + left. by apply Hs.
  - destruct (renamed_spec tmp final data d final Hne) as (R1 & _ & R2); [done|].
    destruct (R1 eq_refl) as [L D]. split_and!; [| done | |].
    + intros c [Hc|[Hc|Hc]]; [left; by rewrite Hc| |done].
      right. right. left. by rewrite Hc.
    + intros f c Hf Hff. destruct (renamed_spec tmp final data d f Hne Hf) as (_ & R3 & R4).
      destruct (R3 Hff) as [E1 E2]. intros [->|[->|Hc]]; [left|right; left|right; right]; [done|done|by apply E2].
    + right. done.
  - destruct (renamed_spec tmp final data d final Hne) as (R1 & _ & _); [done|].
    destruct (R1 eq_refl) as [L D].
    assert (∀ c, survives (fs_apply OpSyncDir d4) final c → c = Some data) as Hall.
    { intros c [Hc|[Hc|Hc]]; cbn [fs_apply live stable dirty] in Hc; [by rewrite Hc|by rewrite Hc|done]. }
    split_and!; auto.
    intros f c Hf Hff. destruct (renamed_spec tmp final data d f Hne Hf) as (_ & R3 & R4).
    destruct (R3 Hff) as [E1 E2]. intros [->|[->|Hc]]; [left|left|right; right]; [done|done|by apply E2].
Qed.
