(* ===== verification/HardStore.v ===== *)
(** * The hard-state store ([xraft-storage/src/hard_state.rs])

    Term, vote, commit watermark and the bootstrap voter set share one JSON
    file that is replaced atomically; [MemoryHardStateStore] is the volatile
    reference.  Lock poisoning, which needs a panic of another holder, and
    [create_dir_all] are left out.  A call on the file store is given the
    fault it meets on disk. *)

From S2P Require Import Prelude CoreTypes Message Concrete Fs.

(** ** The data *)

Section HardStore.
Context {MA : MembershipApi}.

(** The JSON schema of the file. *)
Record OnDiskQuorumState : Type := mkOnDisk {
  od_current_term : N;
  od_voted_for : option N;
  od_voter_set : option VoterSet;
  od_commit_index : N;
}.

Record CachedQuorumState : Type := mkCached {
  cq_hard_state : option HardState;
  cq_voter_set : option VoterSet;
  cq_hard_state_persisted : bool;
}.

Definition from_cached (cached : CachedQuorumState) : OnDiskQuorumState :=
  mkOnDisk
    (default 0 (current_term <$> cq_hard_state cached))
    (cq_hard_state cached ≫= voted_for)
    (cq_voter_set cached)
    (default 0 (hs_commit_index <$> cq_hard_state cached)).

Definition carries_hard_state (d : OnDiskQuorumState) : bool :=
  bool_decide (is_Some (od_voted_for d)) || bool_decide (0 < od_current_term d)
  || bool_decide (0 < od_commit_index d).

(** [impl From<OnDiskQuorumState> for CachedQuorumState]. *)
Definition cached_of_disk (d : OnDiskQuorumState) : CachedQuorumState :=
  let hard_state_persisted := carries_hard_state d in
  let hard_state :=
    if hard_state_persisted
    then Some (mkHardState (od_current_term d) (od_voted_for d) (od_commit_index d))
    else None in
  mkCached hard_state (od_voter_set d) hard_state_persisted.

Definition cached_default : CachedQuorumState := mkCached None None false.

(** [load] and [load_voter_set], the same in both stores. *)
Definition cached_load (c : CachedQuorumState) : option HardState :=
  if cq_hard_state_persisted c then cq_hard_state c else None.

(** The two updates a [persist_*] call makes. *)
Definition put_hard_state (hs : HardState) (c : CachedQuorumState) : CachedQuorumState :=
  mkCached (Some hs) (cq_voter_set c) true.
Definition put_voter_set (vs : VoterSet) (c : CachedQuorumState) : CachedQuorumState :=
  mkCached (cq_hard_state c) (Some vs) (cq_hard_state_persisted c).

(** ** The trait *)

Class HardStateStore (S : Type) : Type := {
  persist : HardState → S → S * Result unit;
  load : S → Result (option HardState);
  persist_voter_set : VoterSet → S → S * Result unit;
  load_voter_set : S → Result (option VoterSet);
}.

(** The trait's documented contract: a successful write is what the next load
    returns, and each write keeps the other field; a failed one changes
    nothing a caller can load. *)
Class HardStateStoreLaws (S : Type) (HS : HardStateStore S) : Prop := {
  persist_ok hs s s' :
    persist hs s = (s', Ok tt) →
    load s' = Ok (Some hs) ∧ load_voter_set s' = load_voter_set s;
  persist_voter_set_ok vs s s' :
    persist_voter_set vs s = (s', Ok tt) →
    load_voter_set s' = Ok (Some vs) ∧ load s' = load s;
  persist_err hs s s' e :
    persist hs s = (s', Err e) → load s' = load s ∧ load_voter_set s' = load_voter_set s;
  persist_voter_set_err vs s s' e :
    persist_voter_set vs s = (s', Err e) →
    load s' = load s ∧ load_voter_set s' = load_voter_set s;
}.

(** ** [MemoryHardStateStore] *)

Definition MemoryHardStateStore : Type := CachedQuorumState.

#[global] Instance memory_hard_state_store : HardStateStore MemoryHardStateStore := {
  persist hs s := (put_hard_state hs s, Ok tt);
  load s := Ok (cached_load s);
  persist_voter_set vs s := (put_voter_set vs s, Ok tt);
  load_voter_set s := Ok (cq_voter_set s);
}.

#[global] Instance memory_hard_state_store_laws :
  HardStateStoreLaws MemoryHardStateStore memory_hard_state_store.
Proof. split; cbn; intros; by simplify_eq/=. Qed.

(** ** [FileHardStateStore] *)

(** [serde_json], on the file's schema. *)
Class JsonApi : Type := {
  to_string_pretty : OnDiskQuorumState → option bytes;
  from_str : bytes → option OnDiskQuorumState;
}.
Class JsonLaws (J : JsonApi) : Prop := {
  from_str_to_string d b : to_string_pretty d = Some b → from_str b = Some d;
}.
Context {J : JsonApi}.

Definition STATE_FILE_NAME : string := "quorum-state".
Definition TMP_FILE_NAME : string := "quorum-state.tmp".

(** The open handle, with the directory it works on. *)
Record FileHardStateStore : Type := mkFileHardStateStore {
  fh_cached : CachedQuorumState;
  fh_dir : disk;
}.

(** What [open] reads from the canonical file. *)
Definition load_state_file (c : option bytes) : Result CachedQuorumState :=
  match c with
  | None => Ok cached_default
  | Some raw =>
      match from_str raw with
      | Some d => Ok (cached_of_disk d)
      | None => Err (Storage "deserialise hard-state")
      end
  end.

Definition open (fault : option (nat * nat)) (d : disk) : Result FileHardStateStore :=
  let '(d, ok) :=
    match live d !! TMP_FILE_NAME with
    | Some _ => fs_run fault [OpRemove TMP_FILE_NAME] d
    | None => (d, true)
    end in
  if ok then
    let? cached := load_state_file (live d !! STATE_FILE_NAME) in
    Ok (mkFileHardStateStore cached d)
  else Err (Storage "remove stale tmp file").

Definition atomic_write (fault : option (nat * nat)) (cached : CachedQuorumState)
    (d : disk) : disk * Result unit :=
  match to_string_pretty (from_cached cached) with
  | None => (d, Err (Storage "serialise hard-state"))
  | Some serialised =>
      let '(d, ok) := fs_run fault (atomic_replace TMP_FILE_NAME STATE_FILE_NAME serialised) d in
      (d, if ok then Ok tt else Err (Storage "hard-state"))
  end.

(** Both [persist_*] bodies: rewrite the merged file, then the cache. *)
Definition replace_cached (fault : option (nat * nat)) (next : CachedQuorumState)
    (s : FileHardStateStore) : FileHardStateStore * Result unit :=
  match atomic_write fault next (fh_dir s) with
  | (d, Ok _) => (mkFileHardStateStore next d, Ok tt)
  | (d, Err e) => (mkFileHardStateStore (fh_cached s) d, Err e)
  end.

#[global] Instance file_hard_state_store (fault : option (nat * nat)) :
    HardStateStore FileHardStateStore := {
  persist hs s := replace_cached fault (put_hard_state hs (fh_cached s)) s;
  load s := Ok (cached_load (fh_cached s));
  persist_voter_set vs s := replace_cached fault (put_voter_set vs (fh_cached s)) s;
  load_voter_set s := Ok (cq_voter_set (fh_cached s));
}.

(** ** Histories of calls *)

Inductive store_call : Type :=
| CallPersist (hs : HardState)
| CallPersistVoterSet (vs : VoterSet).

Definition call_target (c : store_call) (s : CachedQuorumState) : CachedQuorumState :=
  match c with
  | CallPersist hs => put_hard_state hs s
  | CallPersistVoterSet vs => put_voter_set vs s
  end.

Definition do_call {S} (HS : HardStateStore S) (c : store_call) (s : S) : S * Result unit :=
  match c with
  | CallPersist hs => @persist S HS hs s
  | CallPersistVoterSet vs => @persist_voter_set S HS vs s
  end.

(** A history on the file store, each call with its fault; the second
    component collects the states of the failed calls since the last
    successful one. *)
Fixpoint history (calls : list (option (nat * nat) * store_call))
    (s : FileHardStateStore) (pending : list CachedQuorumState)
    : FileHardStateStore * list CachedQuorumState :=
  match calls with
  | [] => (s, pending)
  | (fault, c) :: calls =>
      match do_call (file_hard_state_store fault) c s with
      | (s', Ok _) => history calls s' []
      | (s', Err _) => history calls s' (call_target c (fh_cached s) :: pending)
      end
  end.

(** What the file remembers of a state: a hard state with nothing in it is
    read back as none. *)
Definition recoverable (c : CachedQuorumState) : CachedQuorumState :=
  cached_of_disk (from_cached c).

(** What a power loss now, and [open], may bring back. *)
Definition may_recover (d : disk) (c : CachedQuorumState) : Prop :=
  ∃ f, survives d STATE_FILE_NAME f ∧ load_state_file f = Ok c.

(** Every surviving file decodes to the cached state or a pending one. *)
Definition durable (s : FileHardStateStore) (pending : list CachedQuorumState) : Prop :=
  ∀ f, survives (fh_dir s) STATE_FILE_NAME f →
    ∃ c, load_state_file f = Ok (recoverable c) ∧ (c = fh_cached s ∨ c ∈ pending).

(** ** Lemmas *)

Lemma recoverable_voter_set c : cq_voter_set (recoverable c) = cq_voter_set c.
Proof. done. Qed.

Lemma recoverable_load c hs :
  cached_load c = Some hs → hs ≠ mkHardState 0 None 0 → cached_load (recoverable c) = Some hs.
Proof.
  unfold cached_load. destruct c as [h v [|]]; cbn; [|done]. intros ->. intros Hd.
  unfold recoverable, cached_of_disk, carries_hard_state, from_cached; cbn.
  destruct hs as [t v' ci]; cbn in *.
  destruct v'; cbn; [done|].
  destruct (decide (0 < t)); [by rewrite bool_decide_true|].
  destruct (decide (0 < ci)); [by rewrite (bool_decide_true (0 < ci)), orb_true_r|].
  exfalso. apply Hd. f_equal; lia.
Qed.

Lemma recoverable_default c :
  cached_load c = Some (mkHardState 0 None 0) → cached_load (recoverable c) = None.
Proof. unfold cached_load. destruct c as [h v [|]]; cbn; [|done]. by intros ->. Qed.

(** A state that was loaded from a file is recovered as it is. *)
Lemma recoverable_of_disk d : recoverable (cached_of_disk d) = cached_of_disk d.
Proof.
  unfold recoverable, cached_of_disk, from_cached; cbn.
  destruct (carries_hard_state d) eqn:Hc; cbn.
  - destruct d as [t v vs ci]; cbn. replace (carries_hard_state _) with true; done.
  - done.
Qed.

Lemma tmp_ne_state : TMP_FILE_NAME ≠ STATE_FILE_NAME.
Proof. done. Qed.

Lemma do_call_file fault c s :
  do_call (file_hard_state_store fault) c s = replace_cached fault (call_target c (fh_cached s)) s.
Proof. by destruct c. Qed.

Lemma open_spec r s :
  open None (booted r) = Ok s →
  load_state_file (r !! STATE_FILE_NAME) = Ok (fh_cached s) ∧
  ∀ f, survives (fh_dir s) STATE_FILE_NAME f → f = r !! STATE_FILE_NAME.
Proof.
  unfold open. cbn [live booted].
  destruct (r !! TMP_FILE_NAME) eqn:Ht; cbn [fs_run fs_apply live stable dirty booted].
  - rewrite lookup_delete_ne by apply tmp_ne_state. rewrite rbind_Ok. intros (c & Hc & [= <-]).
    cbn. split; [done|]. unfold survives; cbn. rewrite lookup_delete_ne by apply tmp_ne_state.
    set_solver.
  - rewrite rbind_Ok. intros (c & Hc & [= <-]). cbn. split; [done|].
    intros f. by rewrite survives_booted.
Qed.

Lemma open_total r c :
  load_state_file (r !! STATE_FILE_NAME) = Ok c →
  ∃ s, open None (booted r) = Ok s ∧ fh_cached s = c.
Proof.
  intros Hc. unfold open. cbn [live booted].
  destruct (r !! TMP_FILE_NAME) eqn:Ht; cbn [fs_run fs_apply live stable dirty booted];
    rewrite ?lookup_delete_ne by apply tmp_ne_state; rewrite Hc; cbn; eauto.
Qed.

Lemma open_durable r s : open None (booted r) = Ok s → durable s [].
Proof.
  intros Ho. destruct (open_spec r s Ho) as [Hl Hs].
  intros f Hf. rewrite (Hs f Hf). exists (fh_cached s). split; [|by left].
  rewrite Hl. f_equal. unfold load_state_file in Hl.
  destruct (r !! STATE_FILE_NAME) as [raw|]; [|by injection Hl as <-].
  destruct (from_str raw) as [d|]; [|done]. injection Hl as <-. by rewrite recoverable_of_disk.
Qed.

Section Laws.
Context {JL : JsonLaws J}.

Lemma replace_cached_spec fault next s s' r :
  replace_cached fault next s = (s', r) →
  (r = Ok tt ∧ fh_cached s' = next ∨ (∃ e, r = Err e) ∧ fh_cached s' = fh_cached s) ∧
  (∀ f, survives (fh_dir s') STATE_FILE_NAME f →
     load_state_file f = Ok (recoverable next) ∨
     (r ≠ Ok tt ∧ survives (fh_dir s) STATE_FILE_NAME f)).
Proof using JL.
  unfold replace_cached, atomic_write.
  destruct (to_string_pretty (from_cached next)) as [b|] eqn:Hb.
  2:{ intros [<- <-]%pair_inv. cbn. split; [eauto|]. intros f Hf. by right. }
  destruct (fs_run fault _ (fh_dir s)) as [d' ok] eqn:Hrun.
  destruct (atomic_replace_spec _ _ _ _ _ _ _ tmp_ne_state Hrun) as (H1 & H2 & _).
  assert (load_state_file (Some b) = Ok (recoverable next)) as Hl.
  { cbn. by rewrite (from_str_to_string _ _ Hb). }
  destruct ok; intros [<- <-]%pair_inv; cbn; (split; [eauto|]); intros f Hf.
  - left. by rewrite (H2 eq_refl f Hf).
  - destruct (H1 f Hf) as [->|Ho]; [by left|by right].
Qed.

Lemma history_durable calls s pending s' pending' :
  history calls s pending = (s', pending') → durable s pending → durable s' pending'.
Proof using JL.
  revert s pending. induction calls as [|[fault c] calls IH]; cbn [history]; intros s pending.
  { by intros [<- <-]%pair_inv. }
  rewrite do_call_file.
  destruct (replace_cached fault _ s) as [s1 r] eqn:Hr.
  destruct (replace_cached_spec _ _ _ _ _ Hr) as [Hc Hs].
  intros Hh Hd. destruct Hc as [[-> Hc]|[[e ->] Hc]]; (eapply IH; [exact Hh|]); intros f Hf.
  - destruct (Hs f Hf) as [Hl|[? _]]; [|done]. exists (fh_cached s1). by rewrite Hc; auto.
  - destruct (Hs f Hf) as [Hl|[_ Ho]].
    + eexists; split; [exact Hl|]. right. by left.
    + destruct (Hd f Ho) as (x & Hx & [Hxs|Hin]); exists x; (split; [done|]).
      * rewrite Hc. by left.
      * right. by right.
Qed.

(** ** Properties *)

(** C32: crash safety of the hard state over any history of calls: a store
    opened on some directory makes any number of [persist] and
    [persist_voter_set] calls, each of which may fail at any file-system call
    and leave that call half-done; then the power goes and unsynced files and
    directory entries are lost or torn arbitrarily.  [open] then succeeds and
    brings back the state of the last successful call, or that of a call that
    failed after it; never an older, mixed or torn one.  After a successful
    call nothing else is possible than what it wrote. *)
Theorem hard_state_crash_safe r s calls s' pending r' :
  open None (booted r) = Ok s →
  history calls s [] = (s', pending) →
  crashed (fh_dir s') r' →
  ∃ s'' c, open None (booted r') = Ok s'' ∧ fh_cached s'' = recoverable c ∧
    (c = fh_cached s' ∨ c ∈ pending).
Proof using JL.
  intros Ho Hh Hcr. pose proof (history_durable _ _ _ _ _ Hh (open_durable _ _ Ho)) as Hd.
  destruct (Hd _ (Hcr STATE_FILE_NAME)) as (c & Hc & Hin).
  destruct (open_total _ _ Hc) as (s'' & Hs'' & Hcc). eauto.
Qed.

(** a vote is never forgotten: once [persist] returned [Ok] for a hard
    state with a term, a vote or a commit watermark, after a power loss at any
    later moment before the next write [load] returns exactly that hard state,
    and [load_voter_set] the voter set there was; so the node cannot vote
    again in that term. *)
Theorem persisted_vote_survives fault hs s s' r' :
  @persist _ (file_hard_state_store fault) hs s = (s', Ok tt) →
  hs ≠ mkHardState 0 None 0 →
  crashed (fh_dir s') r' →
  ∃ s'', open None (booted r') = Ok s'' ∧
    @load _ (file_hard_state_store None) s'' = Ok (Some hs) ∧
    @load_voter_set _ (file_hard_state_store None) s'' =
      @load_voter_set _ (file_hard_state_store None) s.
Proof using JL.
  cbn. intros Hp Hhs Hcr.
  destruct (replace_cached_spec _ _ _ _ _ Hp) as [_ Hs].
  destruct (Hs _ (Hcr STATE_FILE_NAME)) as [Hl|[? _]]; [|done].
  destruct (open_total _ _ Hl) as (s'' & Ho & Hc). exists s''.
  split; [done|]. rewrite Hc. split; [|done]. f_equal.
  by apply recoverable_load.
Qed.

(** on every disk behaviour the file store keeps the trait's contract:
    a successful write is what is loaded next and keeps the other field, a
    failed write changes nothing a caller can load, though it may have reached
    the disk. *)
Theorem file_hard_state_contract fault :
  HardStateStoreLaws FileHardStateStore (file_hard_state_store fault).
Proof using JL.
  split; cbn; intros * Hp; destruct (replace_cached_spec _ _ _ _ _ Hp) as [[[Hr Hc]|[[e' Hr] Hc]] _];
    try done; by rewrite Hc.
Qed.
End Laws.
End HardStore.

(** ** Witnesses *)
Section Witnesses.
Import Concrete.

Definition json_tuple (d : @OnDiskQuorumState membership) :=
  (od_current_term d, od_voted_for d, od_voter_set d : option (list (N * string * list Endpoint)),
   od_commit_index d).
#[local] Instance concrete_json : @JsonApi membership := {
  to_string_pretty d := Some (pos_bytes (encode (json_tuple d)));
  from_str b :=
    '(t, v, vs, c) ← decode (bytes_pos b);
    Some (@mkOnDisk membership t v vs c);
}.
#[local] Instance concrete_json_laws : JsonLaws concrete_json.
Proof.
  split. intros d b [= <-]. cbn -[encode decode]. rewrite bytes_pos_bytes, decode_encode. by destruct d.
Qed.

(** A first boot, a vote, and a second vote whose rename fails. *)
Definition vote1 : HardState := mkHardState 1 (Some 2) 0.
Definition vote2 : HardState := mkHardState 2 (Some 3) 0.
Definition calls_sample : list (option (nat * nat) * store_call) :=
  [(None, CallPersistVoterSet (voters_of node1)); (None, CallPersist vote1);
   (Some (3, 0)%nat, CallPersist vote2)].
Definition no_files : gmap string bytes := ∅.
Definition fresh : FileHardStateStore := mkFileHardStateStore cached_default (booted no_files).
Definition voted : FileHardStateStore :=
  (@persist membership _ (file_hard_state_store None) vote1 fresh).1.

Lemma hard_state_crash_safe_witness :
  ∃ s'' c, open None (booted (live (fh_dir (history calls_sample fresh []).1))) = Ok s'' ∧
    fh_cached s'' = recoverable c ∧
    (c = fh_cached (history calls_sample fresh []).1 ∨ c ∈ (history calls_sample fresh []).2).
Proof.
  apply (hard_state_crash_safe (J:=concrete_json) no_files fresh calls_sample _ _ _ ltac:(vm_compute; reflexivity) (surjective_pairing _)).
  apply crashed_now.
Defined.

Lemma persisted_vote_survives_witness :
  ∃ s'', open None (booted (live (fh_dir voted))) = Ok s'' ∧
    @load membership _ (file_hard_state_store None) s'' = Ok (Some vote1) ∧
    @load_voter_set membership _ (file_hard_state_store None) s'' = Ok None.
Proof.
  apply (persisted_vote_survives (J:=concrete_json) None vote1 fresh voted _ ltac:(vm_compute; reflexivity)
           ltac:(discriminate) (crashed_now _)).
Defined.

Lemma file_hard_state_contract_witness :
  @load membership _ (file_hard_state_store None) voted = Ok (Some vote1).
Proof.
  apply (@persist_ok membership _ _ (file_hard_state_contract (J:=concrete_json) None) vote1 fresh voted
           ltac:(vm_compute; reflexivity)).
Defined.
End Witnesses.
