(* ===== verification/SnapshotTransfer.v ===== *)
(** * Snapshot transfer between two drivers ([xraft-server/src/driver.rs])

    The leader's answer to a [FetchSnapshot] request, the follower's router
    that drains and checks the stream, and the fence in front of the install.
    A stream is the list of the items it yields before it ends; the progress
    log is left out. *)

From S2P Require Import Prelude CoreTypes Message Text Config ElectionTimer RaftNode Bytes WalCodec SnapshotNames SnapshotCodec SnapshotStore MemorySnapshots SnapshotChunks Concrete.

Section Transfer.
Context {MA : MembershipApi} {RA : RngApi} {HI : HashIter} {CR : Crc32}.
Implicit Types n : RaftNode.

(** ** The leader *)

(** The checks in front of the snapshot store. *)
Inductive Admission : Type :=
| Refused (e : XRaftError)
| HigherEpoch (t : N)
| Passes.

Definition fetch_snapshot_admission (req : FetchSnapshotRequest) n : Admission :=
  if decide (fsq_cluster_id req ≠ cluster_id (config n))
  then Refused (Transport "FetchSnapshot cluster_id mismatch")
  else if decide (fsq_replica_id req = id n)
  then Refused (Transport "FetchSnapshot self-loopback rejected")
  else if decide (role n ≠ Leader) then Refused (NotLeader (leader_id n))
  else
    let is_voter := match voter_set n with Some vs => contains vs (fsq_replica_id req) | None => false end in
    let is_tracked_peer := bool_decide (is_Some (peers n !! fsq_replica_id req)) in
    if negb is_voter && negb is_tracked_peer
    then Refused (Transport "FetchSnapshot from unknown replica")
    else
      let our_term := term n in
      if decide (our_term < fsq_leader_epoch req) then HigherEpoch (fsq_leader_epoch req)
      else if decide (fsq_leader_epoch req < our_term)
      then Refused (Transport "FetchSnapshot leader_epoch mismatch")
      else Passes.

(** The reply after stepping down, by the error the actions ran into. *)
Definition higher_epoch_reply (captured : option XRaftError) n : XRaftError :=
  match captured with
  | Some err => err
  | None => NotLeader (leader_id n)
  end.

(** Collecting the chunks, up to the first error. *)
Fixpoint collect_chunks (cluster : string) (epoch : N) (items : list (Result SnapshotChunkItem))
    : list (Result FetchSnapshotChunk) :=
  match items with
  | [] => []
  | Ok item :: items => Ok (into_fetch_chunk item cluster epoch) :: collect_chunks cluster epoch items
  | Err e :: _ => [Err e]
  end.

(** Opening the reader and collecting. *)
Definition fetch_snapshot_stream {St : Type} {SA : SnapshotStoreApi St} (req : FetchSnapshotRequest) n (st : St)
    : Result (list (Result FetchSnapshotChunk)) :=
  let? found := ss_find_by_id (fsq_snapshot_id req) st in
  match found with
  | None => Err (SnapshotNotFound (fsq_snapshot_id req))
  | Some meta =>
      let max_bytes_opt := if decide (fsq_max_bytes req = 0) then None else Some (fsq_max_bytes req) in
      let chunk_size := default 0 max_bytes_opt in
      let? iter := ss_reader_from_offset meta chunk_size (fsq_offset req) max_bytes_opt st in
      Ok (collect_chunks (cluster_id (config n)) (term n) iter)
  end.

(** [handle_inbound_fetch_snapshot]: the reply, or the step-down whose
    actions are processed before [higher_epoch_reply]. *)
Inductive FetchSnapshotOutcome : Type :=
| Replies (r : Result (list (Result FetchSnapshotChunk)))
| StepsDown (n' : RaftNode) (acts : list Action).

Definition handle_inbound_fetch_snapshot {St : Type} {SA : SnapshotStoreApi St}
    (req : FetchSnapshotRequest) n (st : St) : FetchSnapshotOutcome :=
  match fetch_snapshot_admission req n with
  | Refused e => Replies (Err e)
  | HigherEpoch t => let '(n', acts) := become_follower t None n in StepsDown n' acts
  | Passes => Replies (fetch_snapshot_stream req n st)
  end.

(** ** The follower's router *)

(** What the router reports an error about, a constructor per [format!]. *)
Inductive TransferError : Type :=
| SendFailed (e : XRaftError)
| ClusterMutated (prev got : string)
| EpochMutated (prev got : N)
| IndexOutOfOrder (expected got : N)
| MissingMeta
| CapExceeded (have more : N)
| StreamFailed (e : XRaftError)
| EndedEarly (chunk_count : N)
| SizeMismatch (declared actual : N)
| CrcMismatch (declared computed : N)
| DeadlineExceeded.

Inductive OutboundResult : Type :=
| ResVote (peer : N) (response : VoteResponse)
| ResPreVote (peer : N) (response : PreVoteResponse)
| ResFetch (peer : N) (response : FetchResponse)
| ResFetchSnapshot (peer : N) (cluster : string) (epoch chunk_count : N) (completed : bool)
    (metadata : option SnapshotMeta) (data : bytes)
| ResError (peer : N) (err : TransferError).

Definition MAX_SNAPSHOT_INSTALL_BYTES : N := 268435456.

(** The variables of the drain loop. *)
Record Drain : Type := mkDrain {
  dn_chunk_count : N;
  dn_completed : bool;
  dn_err : option TransferError;
  dn_metadata : option SnapshotMeta;
  dn_data : bytes;
  dn_cluster_id : option string;
  dn_leader_epoch : option N;
  dn_next_expected_index : N;
}.
#[export] Instance Drain_settable : Settable Drain :=
  λ x, mkDrain (dn_chunk_count x) (dn_completed x) (dn_err x) (dn_metadata x) (dn_data x)
    (dn_cluster_id x) (dn_leader_epoch x) (dn_next_expected_index x).
Definition drain_start : Drain := mkDrain 0 false None None [] None None 0.

(** [err = Some(..); break]. *)
Definition drain_fail (e : TransferError) (x : Drain) : Drain * bool := (x <| dn_err := Some e |>, false).

(** One chunk; [true] goes on with the loop. *)
Definition drain_chunk (chunk : FetchSnapshotChunk) (x : Drain) : Drain * bool :=
  let prev_cluster := default (fsc_cluster_id chunk) (dn_cluster_id x) in
  if decide (prev_cluster ≠ fsc_cluster_id chunk)
  then drain_fail (ClusterMutated prev_cluster (fsc_cluster_id chunk)) x
  else
    let x := x <| dn_cluster_id := Some prev_cluster |> in
    let prev_epoch := default (fsc_leader_epoch chunk) (dn_leader_epoch x) in
    if decide (prev_epoch ≠ fsc_leader_epoch chunk)
    then drain_fail (EpochMutated prev_epoch (fsc_leader_epoch chunk)) x
    else
      let x := x <| dn_leader_epoch := Some prev_epoch |> in
      if decide (fsc_chunk_index chunk ≠ dn_next_expected_index x)
      then drain_fail (IndexOutOfOrder (dn_next_expected_index x) (fsc_chunk_index chunk)) x
      else
        let x := x <| dn_next_expected_index := sat_add (dn_next_expected_index x) 1 |> in
        let x := if decide (dn_chunk_count x = 0) then x <| dn_metadata := fsc_metadata chunk |> else x in
        if decide (dn_chunk_count x = 0 ∧ dn_metadata x = None) then drain_fail MissingMeta x
        else if decide (MAX_SNAPSHOT_INSTALL_BYTES <
                        sat_add (N.of_nat (length (dn_data x))) (N.of_nat (length (fsc_data chunk))))
        then drain_fail (CapExceeded (N.of_nat (length (dn_data x))) (N.of_nat (length (fsc_data chunk)))) x
        else
          let x := x <| dn_data := dn_data x ++ fsc_data chunk |>
                     <| dn_chunk_count := dn_chunk_count x + 1 |> in
          if fsc_done chunk then (x <| dn_completed := true |>, false) else (x, true).

Fixpoint drain_loop (stream : list (Result FetchSnapshotChunk)) (x : Drain) : Drain :=
  match stream with
  | [] => x
  | Err e :: _ => x <| dn_err := Some (StreamFailed e) |>
  | Ok chunk :: stream =>
      let '(x, more) := drain_chunk chunk x in if more then drain_loop stream x else x
  end.

(** The checks behind the loop. *)
Definition check_drained (peer : N) (x : Drain) : OutboundResult :=
  match dn_err x with
  | Some e => ResError peer e
  | None =>
      if negb (dn_completed x) then ResError peer (EndedEarly (dn_chunk_count x))
      else
        let declared_size := dn_metadata x ≫= sm_size_bytes in
        let declared_crc := dn_metadata x ≫= sm_checksum in
        let actual_len := N.of_nat (length (dn_data x)) in
        let computed_crc := crc32_of (dn_data x) in
        let size_mismatch := default actual_len declared_size in
        let crc_mismatch := default computed_crc declared_crc in
        if decide (size_mismatch ≠ actual_len) then ResError peer (SizeMismatch size_mismatch actual_len)
        else if decide (crc_mismatch ≠ computed_crc) then ResError peer (CrcMismatch crc_mismatch computed_crc)
        else ResFetchSnapshot peer (default "" (dn_cluster_id x)) (default 0 (dn_leader_epoch x))
               (dn_chunk_count x) (dn_completed x) (dn_metadata x) (dn_data x)
  end.

(** What the router reports: [opened] is the transport's answer, [in_time]
    whether the drain met its deadline. *)
Definition fetch_snapshot_result (peer : N) (opened : Result (list (Result FetchSnapshotChunk)))
    (in_time : bool) : OutboundResult :=
  match opened with
  | Err e => ResError peer (SendFailed e)
  | Ok stream =>
      if in_time then check_drained peer (drain_loop stream drain_start)
      else ResError peer DeadlineExceeded
  end.

(** [handle_outbound_result], up to the processing of the actions. *)
Definition handle_outbound_result (res : OutboundResult) n : RaftNode * list Action :=
  match res with
  | ResVote peer response => step (InVoteResponse peer response) n
  | ResPreVote peer response => step (InPreVoteResponse peer response) n
  | ResFetch _ response => step (InFetchResponse response) n
  | ResFetchSnapshot peer cluster leader_epoch _ _ metadata data =>
      if decide (cluster ≠ cluster_id (config n)) then (n, [])
      else if decide (term n < leader_epoch) then become_follower leader_epoch None n
      else if decide (leader_epoch < term n) then (n, [])
      else if decide (leader_id n ≠ Some peer) then (n, [])
      else match metadata with
           | None => (n, [])
           | Some meta => step (InFetchSnapshotReceived meta data) n
           end
  | ResError _ _ => (n, [])
  end.

(** ** What the router lets through *)

(** The chunks from chunk number [k] on that complete a transfer of which
    [have] bytes arrived. *)
Fixpoint completes (cl : string) (ep k have : N) (cs : list FetchSnapshotChunk) : Prop :=
  match cs with
  | [] => False
  | c :: cs =>
      fsc_cluster_id c = cl ∧ fsc_leader_epoch c = ep ∧ fsc_chunk_index c = k ∧
      sat_add have (N.of_nat (length (fsc_data c))) ≤ MAX_SNAPSHOT_INSTALL_BYTES ∧
      if fsc_done c then cs = []
      else completes cl ep (sat_add k 1) (have + N.of_nat (length (fsc_data c))) cs
  end.
Definition payload (cs : list FetchSnapshotChunk) : bytes := concat (fsc_data <$> cs).

(** A stream of [cs] that starts with the metadata [m]. *)
Definition transfers (cl : string) (ep : N) (m : SnapshotMeta) (cs : list FetchSnapshotChunk) : Prop :=
  (∃ c rest, cs = c :: rest ∧ fsc_metadata c = Some m) ∧ completes cl ep 0 0 cs.

(** What [drain_chunk] checks and what it makes of a chunk. *)
Definition chunk_fits (c : FetchSnapshotChunk) (x : Drain) : Prop :=
  default (fsc_cluster_id c) (dn_cluster_id x) = fsc_cluster_id c ∧
  default (fsc_leader_epoch c) (dn_leader_epoch x) = fsc_leader_epoch c ∧
  fsc_chunk_index c = dn_next_expected_index x ∧
  (dn_chunk_count x = 0 → is_Some (fsc_metadata c)) ∧
  sat_add (N.of_nat (length (dn_data x))) (N.of_nat (length (fsc_data c))) ≤ MAX_SNAPSHOT_INSTALL_BYTES.
Definition kept_meta (c : FetchSnapshotChunk) (x : Drain) : option SnapshotMeta :=
  if decide (dn_chunk_count x = 0) then fsc_metadata c else dn_metadata x.
Definition advanced (c : FetchSnapshotChunk) (x : Drain) : Drain :=
  mkDrain (dn_chunk_count x + 1) (fsc_done c || dn_completed x) (dn_err x) (kept_meta c x)
    (dn_data x ++ fsc_data c) (Some (fsc_cluster_id c)) (Some (fsc_leader_epoch c))
    (sat_add (dn_next_expected_index x) 1).

Lemma drain_chunk_cases c x :
  chunk_fits c x ∧ drain_chunk c x = (advanced c x, negb (fsc_done c)) ∨
  ¬ chunk_fits c x ∧ ∃ e y, drain_chunk c x = (y, false) ∧ dn_err y = Some e.
Proof.
  unfold drain_chunk, chunk_fits, advanced, kept_meta, drain_fail. destruct x as [cnt comp err meta data cl ep nx]. cbn.
  case_decide as H1; [right; split; [tauto|by eexists _, _]|].
  case_decide as H2; [right; split; [tauto|by eexists _, _]|].
  case_decide as H3; [right; split; [tauto|by eexists _, _]|].
  rewrite H1, H2. destruct (decide (cnt = 0)) as [Hc|Hc]; cbn.
  - destruct (fsc_metadata c) as [m|] eqn:Hm.
    2:{ rewrite decide_True by done. right. split; [|by eexists _, _]. intros (_ & _ & _ & Hn & _).
        by destruct (Hn Hc). }
    rewrite decide_False by naive_solver.
    case_decide as H5; [right; split; [lia|by eexists _, _]|]. left.
    split; [|by destruct (fsc_done c)]. split_and!; [done..|lia].
  - rewrite decide_False by tauto.
    case_decide as H5; [right; split; [lia|by eexists _, _]|]. left.
    split; [|by destruct (fsc_done c)]. split_and!; [done..|lia].
Qed.

(** The state after the chunks [cs]. *)
Definition drained (cl : string) (ep nx : N) (cs : list FetchSnapshotChunk) (x : Drain) : Drain :=
  mkDrain (dn_chunk_count x + N.of_nat (length cs)) true None
    (if decide (dn_chunk_count x = 0) then head cs ≫= fsc_metadata else dn_metadata x)
    (dn_data x ++ payload cs) (Some cl) (Some ep) nx.
Definition starts_well (cs : list FetchSnapshotChunk) (x : Drain) : Prop :=
  dn_chunk_count x = 0 → is_Some (head cs ≫= fsc_metadata).

Lemma drained_cons c cs cl ep nx x :
  fsc_cluster_id c = cl → fsc_leader_epoch c = ep →
  drained cl ep nx cs (advanced c x) = drained cl ep nx (c :: cs) x.
Proof.
  intros <- <-. unfold drained, advanced, kept_meta, payload. cbn.
  rewrite decide_False by lia. f_equal; [lia|]. by rewrite app_assoc.
Qed.

Lemma drain_loop_accepts stream x :
  dn_err x = None → dn_completed x = false →
  dn_err (drain_loop stream x) = None → dn_completed (drain_loop stream x) = true →
  ∃ cl ep nx cs tail, stream = (Ok <$> cs) ++ tail ∧
    default cl (dn_cluster_id x) = cl ∧ default ep (dn_leader_epoch x) = ep ∧
    completes cl ep (dn_next_expected_index x) (N.of_nat (length (dn_data x))) cs ∧
    starts_well cs x ∧ drain_loop stream x = drained cl ep nx cs x.
Proof.
  revert x. induction stream as [|[c|e] stream IH]; intros x He Hc; cbn; [congruence| |done].
  destruct (drain_chunk_cases c x) as [[(Hcl & Hep & Hi & Hm & Hcap) ->]|[_ (e & y & -> & Hy)]];
    [|congruence].
  destruct (fsc_done c) eqn:Hd; cbn [negb].
  - intros _ _. exists (fsc_cluster_id c), (fsc_leader_epoch c), (sat_add (dn_next_expected_index x) 1), [c], stream.
    split_and!; [done..| |exact Hm|].
    + cbn. by rewrite Hd.
    + unfold drained, advanced, kept_meta, payload. cbn. by rewrite Hd, He, app_nil_r.
  - intros He' Hc'. destruct (IH (advanced c x)) as (cl & ep & nx & cs & tail & -> & Hcl' & Hep' & Hcs & _ & Hy).
    { done. } { cbn. by rewrite Hd. } { done. } { done. }
    cbn in Hcl', Hep'. subst cl ep.
    exists (fsc_cluster_id c), (fsc_leader_epoch c), nx, (c :: cs), tail. split_and!; [done..| |exact Hm|].
    + cbn [completes]. rewrite Hd. split_and!; [done..|].
      cbn in Hcs. by rewrite length_app, Nat2N.inj_add in Hcs.
    + rewrite Hy. by apply drained_cons.
Qed.

Lemma drain_loop_completes cl ep cs tail x :
  dn_err x = None → default cl (dn_cluster_id x) = cl → default ep (dn_leader_epoch x) = ep →
  completes cl ep (dn_next_expected_index x) (N.of_nat (length (dn_data x))) cs → starts_well cs x →
  ∃ nx, drain_loop ((Ok <$> cs) ++ tail) x = drained cl ep nx cs x.
Proof.
  revert x. induction cs as [|c cs IH]; intros x He Hcl Hep; [done|]. cbn [completes].
  intros (Ecl & Eep & Hi & Hcap & Hrest) Hm. cbn [fmap list_fmap app drain_loop].
  destruct (drain_chunk_cases c x) as [[_ ->]|[Hno _]].
  2:{ destruct Hno. unfold chunk_fits. rewrite Ecl, Eep. by split_and!. }
  destruct (fsc_done c) eqn:Hd; cbn [negb].
  - subst cs. exists (sat_add (dn_next_expected_index x) 1).
    unfold drained, advanced, kept_meta, payload. cbn. by rewrite Hd, He, app_nil_r, Ecl, Eep.
  - destruct (IH (advanced c x)) as [nx Hnx]; [done|cbn; by rewrite Ecl|cbn; by rewrite Eep| | |].
    + cbn [advanced dn_next_expected_index dn_data]. by rewrite length_app, Nat2N.inj_add.
    + intros H0. cbn in H0. lia.
    + exists nx. rewrite Hnx. by apply drained_cons.
Qed.

(** [check_drained] on a completed drain. *)
Definition declares (m : SnapshotMeta) (data : bytes) : Prop :=
  (∀ k, sm_size_bytes m = Some k → k = N.of_nat (length data)) ∧
  (∀ k, sm_checksum m = Some k → k = crc32_of data).

Lemma check_drained_ok peer x cl ep cnt done meta data :
  check_drained peer x = ResFetchSnapshot peer cl ep cnt done meta data →
  dn_err x = None ∧ dn_completed x = true ∧ meta = dn_metadata x ∧ data = dn_data x ∧
  cl = default "" (dn_cluster_id x) ∧ ep = default 0 (dn_leader_epoch x) ∧ cnt = dn_chunk_count x ∧
  done = true ∧ ∀ m, dn_metadata x = Some m → declares m (dn_data x).
Proof.
  unfold check_drained. destruct (dn_err x); [done|]. destruct (dn_completed x) eqn:Hc; [|done]. cbn [negb].
  case_decide as H1; [done|]. case_decide as H2; [done|].
  intros [= <- <- <- <- <- <-]. split_and!; try done. intros m Hm. rewrite Hm in H1, H2. cbn in H1, H2.
  split; intros k Hk; [rewrite Hk in H1|rewrite Hk in H2]; done.
Qed.

Lemma check_drained_good peer x m :
  dn_err x = None → dn_completed x = true → dn_metadata x = Some m → declares m (dn_data x) →
  check_drained peer x = ResFetchSnapshot peer (default "" (dn_cluster_id x)) (default 0 (dn_leader_epoch x))
    (dn_chunk_count x) true (Some m) (dn_data x).
Proof.
  intros He Hc Hm [Hs Hk]. unfold check_drained. rewrite He, Hc, Hm. cbn [negb mbind option_bind].
  rewrite decide_False; [rewrite decide_False; [done|]|]; intros H; apply H.
  - destruct (sm_checksum m); [by apply Hk|done].
  - destruct (sm_size_bytes m); [by apply Hs|done].
Qed.

Lemma drained_snapshot peer stream cl ep cnt done meta data :
  fetch_snapshot_result peer (Ok stream) true = ResFetchSnapshot peer cl ep cnt done meta data ↔
  ∃ m cs tail, stream = (Ok <$> cs) ++ tail ∧ transfers cl ep m cs ∧ declares m data ∧
    cnt = N.of_nat (length cs) ∧ done = true ∧ meta = Some m ∧ data = payload cs.
Proof.
  unfold fetch_snapshot_result. split.
  - intros (He & Hc & -> & -> & -> & -> & -> & -> & Hdecl)%check_drained_ok.
    destruct (drain_loop_accepts stream drain_start) as (cl & ep & nx & cs & tail & Hst & _ & _ & Hcs & Hm & Hy);
      [done..|]. revert Hdecl. rewrite Hy. cbn. destruct (Hm eq_refl) as [m Hm']. rewrite Hm'. intros Hdecl.
    exists m, cs, tail. split_and!; [done| |by apply Hdecl|lia|done..].
    split; [|done]. destruct cs as [|c cs]; [done|]. by eexists _, _.
  - intros (m & cs & tail & -> & [(c & rest & -> & Hm) Hcs] & Hdecl & -> & -> & -> & ->).
    destruct (drain_loop_completes cl ep (c :: rest) tail drain_start) as [nx ->]; [done..| |].
    { intros _. cbn. by rewrite Hm. }
    rewrite (check_drained_good peer _ m); [|done..|done].
    done.
Qed.

Lemma sat_add_cap a b :
  sat_add a b ≤ MAX_SNAPSHOT_INSTALL_BYTES → a + b ≤ MAX_SNAPSHOT_INSTALL_BYTES.
Proof.
  unfold sat_add. intros H. destruct (N.min_spec (a + b) u64_max) as [[_ Hm]|[_ Hm]];
    rewrite Hm in H; [done|by vm_compute in H].
Qed.

(** The cap holds for the whole payload. *)
Lemma completes_cap cl ep k have cs :
  completes cl ep k have cs →
  have + N.of_nat (length (payload cs)) ≤ MAX_SNAPSHOT_INSTALL_BYTES.
Proof.
  revert k have.
  induction cs as [|c cs IH]; intros k have; [done|]. cbn [completes].
  intros (_ & _ & _ & Hcap & Hrest). unfold payload. cbn [fmap list_fmap concat]. rewrite length_app.
  revert Hcap. generalize (sat_add_cap have (N.of_nat (length (fsc_data c)))). intros Hle Hcap. specialize (Hle Hcap).
  destruct (fsc_done c).
  - subst cs. cbn [fmap list_fmap concat length]. lia.
  - apply IH in Hrest. unfold payload in Hrest. lia.
Qed.

(** What a follower lets through: the router reports a snapshot exactly
    when the stream begins with chunks of one cluster and epoch, numbered
    from zero, the first carrying the metadata, the last and no other marked
    [done], at most 256 MiB together, and the reassembled bytes have the size
    and the checksum the metadata declares; what it reports is that metadata
    and those bytes.  Everything else is reported as an error. *)
Theorem drained_snapshot_checked peer opened in_time :
  match fetch_snapshot_result peer opened in_time with
  | ResFetchSnapshot p cl ep cnt done meta data =>
      p = peer ∧ in_time = true ∧ done = true ∧
      ∃ m cs tail, opened = Ok ((Ok <$> cs) ++ tail) ∧ transfers cl ep m cs ∧ declares m data ∧
        cnt = N.of_nat (length cs) ∧ meta = Some m ∧ data = payload cs
  | ResError p _ =>
      p = peer ∧ ¬ (in_time = true ∧ ∃ cl ep m cs tail,
        opened = Ok ((Ok <$> cs) ++ tail) ∧ transfers cl ep m cs ∧ declares m (payload cs))
  | _ => False
  end.
Proof.
  destruct opened as [stream|e]; [|split; [done|naive_solver]].
  destruct in_time; [|split; [done|naive_solver]].
  destruct (fetch_snapshot_result peer (Ok stream) true) as [| | |p cl ep cnt done meta data|p e] eqn:Hr.
  1-3: revert Hr; cbn; unfold check_drained; repeat case_match; discriminate.
  - assert (p = peer) as ->.
    { revert Hr. cbn. unfold check_drained. repeat case_match; congruence. }
    apply drained_snapshot in Hr as (m & cs & tail & -> & Ht & Hd & -> & -> & -> & ->).
    split_and!; [done..|]. by exists m, cs, tail.
  - split; [revert Hr; cbn; unfold check_drained; repeat case_match; congruence|].
    intros (_ & cl & ep & m & cs & tail & [= ->] & Ht & Hd).
    assert (fetch_snapshot_result peer (Ok ((Ok <$> cs) ++ tail)) true =
      ResFetchSnapshot peer cl ep (N.of_nat (length cs)) true (Some m) (payload cs)) as Hok; [|congruence].
    apply drained_snapshot. by exists m, cs, tail.
Qed.

(** Whatever a peer streams, a snapshot is handed to the state machine
    only when that peer is the leader the node follows, every chunk is of the
    node's cluster and current term, the stream is complete and in order, the
    bytes match the declared size and checksum, and the snapshot is ahead of
    what the node has applied. *)
Theorem install_fenced peer opened in_time f f' acts m data :
  handle_outbound_result (fetch_snapshot_result peer opened in_time) f = (f', acts) →
  InstallSnapshot m data ∈ acts →
  leader_id f = Some peer ∧ last_applied f < last_included_index m ∧ f' = f ∧ in_time = true ∧
  ∃ cs tail, opened = Ok ((Ok <$> cs) ++ tail) ∧ transfers (cluster_id (config f)) (term f) m cs ∧
    declares m data ∧ data = payload cs ∧ N.of_nat (length data) ≤ MAX_SNAPSHOT_INSTALL_BYTES.
Proof.
  destruct (fetch_snapshot_result peer opened in_time) as [| | |p cl ep cnt done meta d|p e] eqn:Hr.
  1-3: exfalso; revert Hr; unfold fetch_snapshot_result, check_drained; repeat case_match; discriminate.
  2: by intros [_ <-]%pair_inv ?%not_elem_of_nil.
  assert (p = peer ∧ in_time = true) as [-> ->].
  { revert Hr. unfold fetch_snapshot_result, check_drained. repeat case_match; by intros [= <-]. }
  destruct opened as [stream|]; [|done].
  apply drained_snapshot in Hr as (m0 & cs & tail & -> & Ht & Hd & -> & -> & -> & ->).
  cbn [handle_outbound_result]. case_decide as H1; [by intros [_ <-]%pair_inv ?%not_elem_of_nil|].
  case_decide as H2.
  { unfold become_follower. intros Hb Hin. exfalso. revert Hb. case_decide; intros [_ <-]%pair_inv;
    apply elem_of_app in Hin as [Hin|Hin]; revert Hin; try case_match;
    rewrite ?list_elem_of_singleton, ?elem_of_nil; done. }
  case_decide as H3; [by intros [_ <-]%pair_inv ?%not_elem_of_nil|].
  case_decide as H4; [by intros [_ <-]%pair_inv ?%not_elem_of_nil|].
  cbn [step]. unfold handle_fetch_snapshot_received.
  case_decide as H5; [by intros [_ <-]%pair_inv ?%not_elem_of_nil|].
  intros [<- <-]%pair_inv [= -> ->]%list_elem_of_singleton.
  split_and!; [done|lia|done..|]. exists cs, tail. assert (ep = term f) as -> by lia. rewrite <-H1.
  split_and!; try done. destruct Ht as [_ Hcs]. by apply completes_cap in Hcs.
Qed.

(** ** The chunks of a store *)

Lemma window_completes cl ep m base have ws :
  ws ≠ [] → base + N.of_nat (length ws) ≤ u64_max →
  have + N.of_nat (length (concat ws)) ≤ MAX_SNAPSHOT_INSTALL_BYTES →
  completes cl ep base have ((λ c, into_fetch_chunk c cl ep) <$> window_items m base true ws).
Proof.
  revert base have m. induction ws as [|w ws IH]; intros base have m Hne Hb Hm; [done|].
  cbn [concat] in Hm. rewrite length_app in Hm. cbn [length] in Hb.
  cbn [window_items fmap list_fmap completes into_fetch_chunk fsc_cluster_id fsc_leader_epoch
       fsc_chunk_index fsc_data fsc_done ci_chunk_index ci_data ci_done].
  split_and!; [done..|unfold sat_add; lia|]. rewrite andb_true_r.
  case_bool_decide as He; [by rewrite He|]. rewrite sat_add_exact by lia. apply IH; [done|lia..].
Qed.

Lemma chunks_count k l : 0 < k → (length (chunks k l) ≤ length l)%nat.
Proof.
  intros Hk. rewrite length_chunks. destruct (decide (l = [])) as [->|Hl]; [by rewrite div_ceil_0|].
  assert (0 < N.of_nat (length l)) as Hpos by (destruct l; [done|cbn; lia]).
  pose proof (div_ceil_tight (N.of_nat (length l)) k Hk Hpos) as Ht. revert Ht.
  generalize (div_ceil (N.of_nat (length l)) k). intros d Ht. nia.
Qed.

Lemma default_chunks_transfer cl ep m data cs :
  N.of_nat (length data) ≤ MAX_SNAPSHOT_INSTALL_BYTES →
  let items := (λ c, into_fetch_chunk c cl ep) <$> default_chunks (m, data) cs 0 None in
  transfers cl ep m items ∧ payload items = data.
Proof.
  intros Hlen. cbn zeta. unfold MAX_SNAPSHOT_INSTALL_BYTES in *.
  rewrite default_chunks_window by (unfold u64, u64_max; lia). cbn zeta. unfold window. rewrite drop_0.
  pose proof (chunk_size_pos cs) as Hc. revert Hc. generalize (chunk_size_or_default cs). intros c Hc.
  destruct data as [|x data'] eqn:Hd.
  - split; [|done]. split; [by eexists _, _|]. by cbn.
  - rewrite <-Hd in *. assert (data ≠ []) as Hne by (by subst).
    rewrite bool_decide_true by lia. rewrite N.div_0_l by lia. split; [split|].
    + rewrite (chunks_cons c data) by done. cbn. by eexists _, _.
    + pose proof (chunks_count c data Hc). apply window_completes.
      * by rewrite chunks_is_nil.
      * unfold u64_max. lia.
      * rewrite chunks_concat by done. unfold MAX_SNAPSHOT_INSTALL_BYTES. lia.
    + unfold payload. rewrite <-list_fmap_compose. change (fsc_data ∘ _) with ci_data.
      by rewrite window_items_data, chunks_concat.
Qed.

Lemma collect_chunks_ok cl ep items :
  collect_chunks cl ep (Ok <$> items) = Ok <$> ((λ c, into_fetch_chunk c cl ep) <$> items).
Proof. induction items as [|c items IH]; [done|]. cbn. by rewrite IH. Qed.

Lemma normalised_declares m data : declares (normalised m data) data.
Proof. by split; intros k [= <-]. Qed.

(** ** From store to follower *)

Section Exact.
Context {St : Type} {SA : SnapshotStoreApi St} {inv : St → Prop} {snaps : St → list snap} {keep : nat}
  {admits : SnapshotMeta → bytes → Prop} {SL : SnapshotStoreLaws St SA inv snaps keep admits}.

Lemma find_by_id_stored st p :
  inv st → p ∈ snaps st → ss_find_by_id (sm_id p.1) st = Ok (Some p.1).
Proof using SL.
  intros Hi Hp. rewrite sl_find_by_id by done. f_equal. rewrite find_fmap.
  pose proof (sl_newest_first st Hi) as Hs. pose proof (sl_stored st Hi) as Hst. rewrite Forall_forall in Hst.
  rewrite (find_unique _ _ p); [done|done|by apply bool_decide_eq_true|].
  intros q Hq Hid%bool_decide_eq_true. eapply newest_first_key; [done..|].
  rewrite !stored_canonical in Hid by auto.
  destruct (Hst _ Hq) as (_ & ? & ? & _), (Hst _ Hp) as (_ & ? & ? & _).
  by apply canonical_id_inj in Hid as [_ ?].
Qed.

(** The request the engine sends for a snapshot, from the start and without
    a limit. *)
Definition asks_for (p : snap) (req : FetchSnapshotRequest) : Prop :=
  fsq_snapshot_id req = sm_id p.1 ∧ fsq_offset req = 0 ∧ fsq_max_bytes req = 0.
Definition entitled (req : FetchSnapshotRequest) n : Prop :=
  role n = Leader ∧ fsq_cluster_id req = cluster_id (config n) ∧ fsq_leader_epoch req = term n ∧
  fsq_replica_id req ≠ id n ∧
  (is_known_voter n (fsq_replica_id req) = true ∨ is_Some (peers n !! fsq_replica_id req)).

Lemma admission_spec req n : fetch_snapshot_admission req n = Passes ↔ entitled req n.
Proof.
  unfold fetch_snapshot_admission, entitled, is_known_voter.
  set (v := match voter_set n with Some _ => _ | None => _ end).
  set (k := bool_decide (is_Some (peers n !! fsq_replica_id req))).
  assert (k = true ↔ is_Some (peers n !! fsq_replica_id req)) as Hk by apply bool_decide_eq_true.
  rewrite <-Hk. clearbody v k. clear Hk. destruct v, k; cbn; repeat case_decide; naive_solver lia.
Qed.

(** C34: Snapshots survive the transfer: when a node that follows the leader
    asks it for a stored snapshot of at most 256 MiB, as the engine asks, and
    the stream arrives, the follower hands exactly the stored metadata and
    bytes to its state machine (if they are news to it). *)
Theorem snapshot_transfer_exact req n st p f :
  inv st → p ∈ snaps st → N.of_nat (length p.2) ≤ MAX_SNAPSHOT_INSTALL_BYTES →
  asks_for p req → entitled req n →
  cluster_id (config f) = cluster_id (config n) → term f = term n → leader_id f = Some (id n) →
  last_applied f < last_included_index p.1 →
  ∃ stream, handle_inbound_fetch_snapshot req n st = Replies (Ok stream) ∧
    handle_outbound_result (fetch_snapshot_result (id n) (Ok stream) true) f =
      (f, [InstallSnapshot p.1 p.2]).
Proof using SL.
  intros Hi Hp Hlen (Hid & Hoff & Hmax) He Hcl Ht Hl Hnew.
  unfold handle_inbound_fetch_snapshot. rewrite (proj2 (admission_spec req n) He).
  unfold fetch_snapshot_stream. rewrite Hid, (find_by_id_stored st p Hi Hp). cbn [rbind].
  rewrite Hmax, decide_True, Hoff by done. cbn [default].
  rewrite sl_reader_any; [|done|done|done|].
  2:{ unfold chunk_size_or_default, DEFAULT_CHUNK_SIZE, MAX_SNAPSHOT_INSTALL_BYTES, u64_max in *.
      case_decide; lia. }
  cbn [rbind]. eexists. split; [done|]. rewrite collect_chunks_ok.
  destruct (default_chunks_transfer (cluster_id (config n)) (term n) p.1 p.2 0 Hlen) as [Htr Hpay].
  rewrite <-surjective_pairing in Htr, Hpay.
  set (cs := _ <$> default_chunks p 0 0 None) in *.
  assert (fetch_snapshot_result (id n) (Ok (Ok <$> cs)) true =
    ResFetchSnapshot (id n) (cluster_id (config n)) (term n) (N.of_nat (length cs)) true (Some p.1) p.2) as ->.
  { apply drained_snapshot. exists p.1, cs, []. rewrite app_nil_r. split_and!; try done.
    pose proof (sl_stored st Hi) as Hst. rewrite Forall_forall in Hst. destruct (Hst _ Hp) as [-> _].
    apply normalised_declares. }
  unfold handle_outbound_result. rewrite decide_False by congruence.
  rewrite !decide_False by (rewrite Ht; lia). rewrite decide_False by congruence.
  cbn [step]. unfold handle_fetch_snapshot_received. rewrite decide_False by lia. done.
Qed.
End Exact.
End Transfer.

Import Concrete.
#[local] Existing Instance MemSnap.api.

Definition sample_snap : snap :=
  (normalised (snap_meta 10 2) [Byte.x2a; Byte.x07], [Byte.x2a; Byte.x07]).
Definition sample_snaps : MemSnap.MemorySnapshotStore :=
  (MemSnap.save_snapshot (snap_meta 10 2) [Byte.x2a; Byte.x07] MemSnap.new).1.
Definition snap_request : FetchSnapshotRequest :=
  mkFetchSnapshotRequest "c" 1 2 (canonical_id 2 10) 0 0.
Definition snap_follower : RaftNode := (become_follower 1 (Some 1) node2).1.

Lemma sample_snaps_inv : MemSnap.inv sample_snaps.
Proof.
  destruct (sl_save_ok (SnapshotStoreContract := sl_contract (SnapshotStoreLaws := MemSnap.memory_snapshot_laws)) (snap_meta 10 2) [Byte.x2a; Byte.x07] MemSnap.new)
    as (s' & Hs & Hi & _).
  - split; constructor.
  - by eexists.
  - done.
  - split_and!; done.
  - unfold sample_snaps. change (MemSnap.save_snapshot (snap_meta 10 2) [Byte.x2a; Byte.x07] MemSnap.new = (s', Ok tt)) in Hs.
    by rewrite Hs.
Qed.

Lemma snapshot_transfer_exact_witness :
  ∃ stream, handle_inbound_fetch_snapshot snap_request lead1 sample_snaps = Replies (Ok stream) ∧
    handle_outbound_result (fetch_snapshot_result 1 (Ok stream) true) snap_follower =
      (snap_follower, [InstallSnapshot sample_snap.1 sample_snap.2]).
Proof.
  refine (snapshot_transfer_exact (SL := MemSnap.memory_snapshot_laws) snap_request lead1 sample_snaps
    sample_snap snap_follower sample_snaps_inv _ _ _ _ _ _ _ _).
  - by left.
  - by apply N.leb_le.
  - by split_and!.
  - unfold entitled. split_and!; [vm_compute; reflexivity..|by vm_compute|left; vm_compute; reflexivity].
  - vm_compute; reflexivity.
  - vm_compute; reflexivity.
  - vm_compute; reflexivity.
  - apply N.ltb_lt. vm_compute. reflexivity.
Defined.

Lemma install_fenced_witness :
  let stream := match handle_inbound_fetch_snapshot snap_request lead1 sample_snaps with
                | Replies r => r | StepsDown _ _ => Err Shutdown end in
  handle_outbound_result (fetch_snapshot_result 1 stream true) snap_follower =
    (snap_follower, [InstallSnapshot sample_snap.1 sample_snap.2]) ∧
  leader_id snap_follower = Some 1.
Proof.
  cbn zeta. match goal with |- ?A ∧ _ => assert A as H by (vm_compute; reflexivity) end.
  split; [exact H|].
  exact (proj1 (install_fenced _ _ _ _ _ _ _ _ H ltac:(by left))).
Defined.
