(* ===== verification/ServeFetch.v ===== *)
(** * Serving fetches ([xraft-server/src/driver.rs])

    How the leader's driver answers a [Fetch] from its log and snapshot
    anchor, and what the answer means for the follower's log. *)

From S2P Require Import Prelude CoreTypes Message Text Config ElectionTimer RaftNode LogStore MemoryLog Concrete.

Section Serve.
Context {MA : MembershipApi} {RA : RngApi} {HI : HashIter} {St : Type} {LA : LogStoreApi St}.
Implicit Types n : RaftNode.

(** [effective_log_tip]: the last index and term, of the log or of the
    snapshot that covers more. *)
Definition effective_log_tip n (s : St) : N * N :=
  let log_idx := ls_last_index s in
  let log_term := ls_last_term s in
  match last_snapshot_meta n with
  | Some meta =>
      if decide (log_idx < last_included_index meta)
      then (last_included_index meta, last_included_term meta)
      else (log_idx, log_term)
  | None => (log_idx, log_term)
  end.

(** The term at an index, from the snapshot anchor or the log. *)
Definition resolve_term (prev : N) n (s : St) : option N :=
  match last_snapshot_meta n with
  | Some meta => if decide (last_included_index meta = prev) then Some (last_included_term meta)
                 else ls_term_at prev s
  | None => ls_term_at prev s
  end.

(** The divergence check at [fetch_offset - 1]. *)
Definition detect_divergence (fetch_offset last_fetched_epoch : N) n (s : St) : option DivergingEpoch :=
  if decide (1 < fetch_offset) then
    match resolve_term (fetch_offset - 1) n s with
    | Some actual_term =>
        if decide (actual_term ≠ last_fetched_epoch) then
          Some (match ls_end_offset_for_epoch last_fetched_epoch s with
                | Some precise => mkDivergingEpoch last_fetched_epoch precise
                | None =>
                    let '(tip_index, tip_term) := effective_log_tip n s in
                    mkDivergingEpoch (N.max tip_term actual_term) tip_index
                end)
        else None
    | None =>
        let '(tip_index, tip_term) := effective_log_tip n s in
        Some (match ls_end_offset_for_epoch last_fetched_epoch s with
              | Some precise => mkDivergingEpoch last_fetched_epoch precise
              | None => mkDivergingEpoch tip_term tip_index
              end)
    end
  else None.

(** The redirect into the compacted prefix. *)
Definition redirect_of (fetch_offset : N) n : option SnapshotRedirect :=
  match last_snapshot_meta n with
  | Some snap_meta =>
      if decide (fetch_offset ≤ last_included_index snap_meta ∧ sm_id snap_meta ≠ "")
      then Some (mkSnapshotRedirect (sm_id snap_meta) (last_included_index snap_meta)
                   (last_included_term snap_meta))
      else None
  | None => None
  end.

(** [materialize_fetch_response]; [None] is a panic of the store's
    [get_range]. *)
Definition materialize_fetch_response (max_fetch_batch : N) (cluster : string)
    (leader_epoch leader high_watermark fetch_offset last_fetched_epoch : N) n (s : St)
    : option FetchResponse :=
  match redirect_of fetch_offset n with
  | Some redirect =>
      Some (mkFetchResponse cluster leader_epoch leader high_watermark [] None (Some redirect) true)
  | None =>
      let diverging := detect_divergence fetch_offset last_fetched_epoch n s in
      let entries := match diverging with
                     | Some _ => Some []
                     | None => ls_get_range fetch_offset (sat_add fetch_offset max_fetch_batch) s
                     end in
      entries ← entries;
      Some (mkFetchResponse cluster leader_epoch leader high_watermark entries diverging None true)
  end.

(** ** Logs that agree *)

Definition agree (F L : list Entry) : Prop :=
  ∀ a b, a ∈ F → b ∈ L → e_index a = e_index b → a = b.

(** Raft's log matching, as it follows from one leader per term appending to
    its own log: two entries of one term vouch for everything below both. *)
Definition one_origin (F L : list Entry) : Prop :=
  ∀ x y, x ∈ F → y ∈ L → e_term x = e_term y →
  ∀ a b, a ∈ F → b ∈ L → e_index a = e_index b →
    e_index a ≤ e_index x → e_index a ≤ e_index y → a = b.

Lemma contig_from_app i t l1 x l2 :
  contig_from i t (l1 ++ [x]) → contig_from (e_index x + 1) (e_term x) l2 →
  contig_from i t ((l1 ++ [x]) ++ l2).
Proof.
  revert i t. induction l1 as [|y l1 IH]; intros i t; cbn.
  - intros (? & ? & _) ?. subst. done.
  - intros (? & ? & ?) ?. split_and!; auto.
Qed.

Lemma contig_from_suffix i t l1 x l2 :
  contig_from i t (l1 ++ x :: l2) → contig_from (e_index x + 1) (e_term x) l2.
Proof.
  revert i t. induction l1 as [|y l1 IH]; intros i t; cbn.
  - intros (-> & ? & ?). done.
  - intros (? & ? & ?). eauto.
Qed.

Lemma contig_from_before i t l1 x l2 y :
  contig_from i t (l1 ++ x :: l2) → y ∈ l1 → e_index y < e_index x.
Proof.
  revert i t. induction l1 as [|z l1 IH]; intros i t; [by intros _ ?%not_elem_of_nil|]. cbn.
  intros (Hz & _ & Hl) [->|Hy]%elem_of_cons; [|by eapply IH].
  destruct (contig_from_bounds _ _ _ x Hl); [set_solver|lia].
Qed.

Lemma filter_iff_in {A} (P Q : A → Prop) `{∀ x, Decision (P x)} `{∀ x, Decision (Q x)} (l : list A) :
  (∀ x, x ∈ l → P x ↔ Q x) → filter P l = filter Q l.
Proof.
  induction l as [|x l IH]; [done|]. intros HPQ. rewrite !filter_cons.
  rewrite IH by (intros y Hy; apply HPQ; by right). pose proof (HPQ x ltac:(by left)).
  repeat case_decide; tauto.
Qed.

(** The window behind an entry of a contiguous log. *)
Definition window_from (start stop : N) (L : list Entry) : list Entry :=
  filter (λ e, start ≤ e_index e ∧ e_index e < stop) L.

Lemma window_after i t L x stop :
  contig_from i t L → x ∈ L →
  contig_from (e_index x + 1) (e_term x) (window_from (e_index x + 1) stop L).
Proof.
  intros Hc (l1 & l2 & ->)%list_elem_of_split. unfold window_from.
  pose proof (contig_from_suffix _ _ _ _ _ Hc) as Hs.
  rewrite filter_app, (filter_nothing _ l1), filter_cons_False; [|lia|].
  2:{ intros y Hy [Hlo _]. pose proof (contig_from_before _ _ _ _ _ _ Hc Hy). lia. }
  cbn [app]. rewrite (filter_iff_in _ (λ e, e_index e < stop)); [by apply contig_from_truncate|].
  intros y Hy. pose proof (contig_from_bounds _ _ _ _ Hs Hy). tauto.
Qed.

Lemma elem_of_window start stop L e :
  e ∈ window_from start stop L ↔ start ≤ e_index e ∧ e_index e < stop ∧ e ∈ L.
Proof. unfold window_from. rewrite list_elem_of_filter. tauto. Qed.

Lemma contig_unique L a b : contig L → a ∈ L → b ∈ L → e_index a = e_index b → a = b.
Proof.
  intros (i & t & _ & Hc) Ha (l1 & l2 & ->)%list_elem_of_split Heq.
  pose proof (contig_from_suffix _ _ _ _ _ Hc) as Hs.
  apply elem_of_app in Ha as [Ha|[->|Ha]%elem_of_cons]; [|done|].
  - pose proof (contig_from_before _ _ _ _ _ _ Hc Ha). lia.
  - destruct (contig_from_bounds _ _ _ _ Hs Ha). lia.
Qed.

Lemma contig_tail_max L x e : contig L → last L = Some x → e ∈ L → e_index e ≤ e_index x.
Proof.
  intros (i & t & _ & Hc) Hx He. pose proof (contig_from_last _ _ _ _ Hc Hx).
  pose proof (contig_from_below _ _ _ _ Hc He). lia.
Qed.

(** A contiguous log has no gaps. *)
Lemma contig_from_covers i t L b k :
  contig_from i t L → b ∈ L → i ≤ k ≤ e_index b → ∃ e, e ∈ L ∧ e_index e = k.
Proof.
  revert i t. induction L as [|x L IH]; intros i t Hc Hb Hk; [by apply not_elem_of_nil in Hb|].
  destruct Hc as (Hi & _ & Hl). destruct (decide (e_index x = k)) as [<-|Hne].
  { exists x. split; [left|done]. }
  apply elem_of_cons in Hb as [->|Hb]; [lia|].
  destruct (IH _ _ Hl Hb) as (e & He & Hek); [lia|]. exists e. split; [by right|done].
Qed.
Lemma contig_covers L a b k :
  contig L → a ∈ L → b ∈ L → e_index a ≤ k ≤ e_index b → ∃ e, e ∈ L ∧ e_index e = k.
Proof.
  intros (i & t & _ & Hc) Ha Hb Hk. eapply contig_from_covers; [done..|].
  destruct (contig_from_bounds _ _ _ _ Hc Ha). lia.
Qed.

(** ** The answers *)

Context {inv : St → Prop} {log : St → list Entry} {anchor : St → option (N * N)}
  {admits : St → list Entry → Prop} {LL : LogStoreLaws St LA inv log anchor admits}.

(** The position asked about lies behind the snapshot anchor, and the log
    reaches down to it. *)
Definition retained (prev : N) n (s : St) : Prop :=
  (∀ m, last_snapshot_meta n = Some m → last_included_index m < prev) ∧
  (∃ y, y ∈ log s ∧ e_index y ≤ prev).

Lemma term_at_spec s i e : inv s → e ∈ log s → e_index e = i → ls_term_at i s = Some (e_term e).
Proof using LL.
  intros Hi He <-. rewrite ls_term_at_spec by done.
  rewrite (find_unique _ _ e); [done|done|by apply N.eqb_eq|].
  intros y Hy Hyi%N.eqb_eq. eapply contig_unique; [by eapply ls_contig|done..].
Qed.
Lemma term_at_Some s i t : inv s → ls_term_at i s = Some t → ∃ e, e ∈ log s ∧ e_index e = i ∧ e_term e = t.
Proof using LL.
  intros Hi. rewrite ls_term_at_spec by done. intros (e & He & ->)%fmap_Some.
  apply find_some in He as [He Hei%N.eqb_eq]. exists e. by rewrite list_elem_of_In.
Qed.
Lemma term_at_None s i e : inv s → ls_term_at i s = None → e ∈ log s → e_index e ≠ i.
Proof using LL. intros Hi Hn He Hei. pose proof (term_at_spec s i e Hi He Hei). congruence. Qed.

Lemma redirect_retained prev n s : retained prev n s → redirect_of (prev + 1) n = None.
Proof.
  intros [Ha _]. unfold redirect_of. destruct (last_snapshot_meta n) as [m|]; [|done].
  specialize (Ha m eq_refl). rewrite decide_False by lia. done.
Qed.
Lemma resolve_retained prev n s : retained prev n s → resolve_term prev n s = ls_term_at prev s.
Proof.
  intros [Ha _]. unfold resolve_term. destruct (last_snapshot_meta n) as [m|]; [|done].
  specialize (Ha m eq_refl). rewrite decide_False by lia. done.
Qed.

(** The answer behind the anchor. *)
Lemma materialize_retained batch cluster ep leader hw prev lfe n s :
  inv s → retained prev n s → u64 (prev + 1) →
  materialize_fetch_response batch cluster ep leader hw (prev + 1) lfe n s =
    let dv := detect_divergence (prev + 1) lfe n s in
    Some (mkFetchResponse cluster ep leader hw
            (match dv with
             | Some _ => []
             | None => window_from (prev + 1) (sat_add (prev + 1) batch) (log s)
             end) dv None true).
Proof using LL.
  intros Hi Hr Hp. unfold materialize_fetch_response. rewrite (redirect_retained _ _ _ Hr). cbn zeta.
  destruct (detect_divergence (prev + 1) lfe n s); [done|].
  by rewrite ls_get_range_spec by (try apply sat_add_le; done).
Qed.

(** No divergence is found exactly when the leader's entry at the position
    has the claimed term. *)
Lemma no_divergence prev lfe n s :
  inv s → retained prev n s → 0 < prev →
  detect_divergence (prev + 1) lfe n s = None ↔ ∃ e, e ∈ log s ∧ e_index e = prev ∧ e_term e = lfe.
Proof using LL.
  intros Hi Hr Hp. unfold detect_divergence. rewrite decide_True, N.add_sub by lia.
  rewrite resolve_retained by done. destruct (ls_term_at prev s) as [t|] eqn:Ht.
  - apply term_at_Some in Ht as (e & He & Hei & Het); [|done]. case_decide as Hd.
    + split; [done|]. intros (e' & He' & Hei' & Het').
      assert (e' = e) as -> by (eapply contig_unique; [by eapply ls_contig|done|done|congruence]). congruence.
    + split; [|done]. intros _. exists e. split_and!; [done..|]. congruence.
  - destruct (effective_log_tip n s). split; [done|].
    intros (e & He & Hei & _). by destruct (term_at_None s prev e Hi Ht He).
Qed.

(** The entry of a term a leader's log ends with. *)
Lemma last_of_term s t :
  (∃ y, y ∈ log s ∧ e_term y = t) →
  ∃ e, last (filter (λ e, e_term e = t) (log s)) = Some e ∧ e ∈ log s ∧ e_term e = t.
Proof.
  intros (y & Hy & Ht). destruct (last (filter (λ e, e_term e = t) (log s))) as [e|] eqn:Hl.
  - exists e. split; [done|]. apply last_Some_elem_of, list_elem_of_filter in Hl as [??]. done.
  - apply last_None in Hl. assert (y ∈ filter (λ e, e_term e = t) (log s)) as Hin
      by by apply list_elem_of_filter. rewrite Hl in Hin. by apply not_elem_of_nil in Hin.
Qed.

(** With an entry of the claimed term in the log, the divergence is reported
    at the last such entry. *)
Lemma known_divergence prev lfe n s e :
  inv s → retained prev n s → 0 < prev →
  last (filter (λ e, e_term e = lfe) (log s)) = Some e →
  detect_divergence (prev + 1) lfe n s ≠ None →
  detect_divergence (prev + 1) lfe n s = Some (mkDivergingEpoch lfe (e_index e)).
Proof using LL.
  intros Hi Hr Hp He. unfold detect_divergence. rewrite decide_True by lia.
  rewrite (ls_end_offset_spec lfe s) by done. unfold epoch_end. rewrite He.
  destruct (resolve_term _ n s); [case_decide|]; try done. by destruct (effective_log_tip n s).
Qed.

Lemma agree_sym F L : agree F L → agree L F.
Proof. intros H a b Ha Hb Heq. symmetry. by apply H. Qed.

(** A log that agrees with the leader's up to its tail still does with the
    window behind it. *)
Lemma agree_window F L x stop :
  contig F → contig L → last F = Some x → x ∈ L → agree F L →
  contig (F ++ window_from (e_index x + 1) stop L) ∧ agree (F ++ window_from (e_index x + 1) stop L) L.
Proof.
  intros (i & t & Hi & HF) HL Hx HxL Hag. split.
  - exists i, t. split; [done|]. apply last_Some in Hx as [F' ->].
    destruct HL as (j & u & _ & HL). apply contig_from_app; [done|]. by eapply window_after.
  - intros a b [Ha|Ha]%elem_of_app Hb Heq; [by apply Hag|].
    apply elem_of_window in Ha as (_ & _ & Ha). by eapply contig_unique.
Qed.

(** C28: What a leader serves continues the follower's log, under three
    conditions: the two logs obey Raft's log matching (holding an entry of one
    term, they agree wherever both have an index up to it); the request is for
    the index behind the follower's last entry, which is not the greatest
    [u64], and carries that entry's term; and the leader still retains that
    position, its snapshot lying below it and its log reaching down to it.
    Then the leader answers without a snapshot redirect; it reports a
    divergence exactly when it does not hold the follower's last entry; and
    otherwise it sends the entries of its own log behind that position, up to
    its batch size, with which the follower's log is contiguous and agrees
    with the leader's wherever both have an index. *)
Theorem served_entries_extend batch cluster ep leader hw F x n s :
  inv s → contig F → last F = Some x → u64 (e_index x + 1) → retained (e_index x) n s →
  one_origin F (log s) →
  ∃ resp, materialize_fetch_response batch cluster ep leader hw (e_index x + 1) (e_term x) n s = Some resp ∧
    frs_snapshot_redirect resp = None ∧
    (frs_diverging_epoch resp = None ↔ x ∈ log s) ∧
    (frs_diverging_epoch resp = None →
      frs_entries resp = window_from (e_index x + 1) (sat_add (e_index x + 1) batch) (log s) ∧
      contig (F ++ frs_entries resp) ∧ agree (F ++ frs_entries resp) (log s)).
Proof using LL.
  intros Hi HF Hx Hu Hr Ho. pose proof (ls_contig s Hi) as HL.
  assert (x ∈ F) as HxF by by apply last_Some_elem_of.
  assert (0 < e_index x) as Hpos.
  { destruct HF as (i & t & Hi1 & HF). destruct (contig_from_bounds _ _ _ _ HF HxF). lia. }
  assert (detect_divergence (e_index x + 1) (e_term x) n s = None ↔ x ∈ log s) as Hdv.
  { rewrite no_divergence by done. split; [|by exists x].
    intros (e & He & Hei & Het). by rewrite (Ho x e HxF He (eq_sym Het) x e) by (done || lia). }
  eexists. split; [by apply materialize_retained|]. cbn zeta. cbn [frs_snapshot_redirect frs_diverging_epoch frs_entries].
  split_and!; [done|done|]. intros Hn. rewrite Hn. split; [done|].
  apply Hdv in Hn. apply agree_window; try done.
  intros a b Ha Hb Heq. pose proof (contig_tail_max F x a HF Hx Ha). by apply (Ho x x).
Qed.

(** Divergence is resolved in one round when the leader's log has the
    follower's last term: the answer names the last entry of that term, below
    the follower's tail; cut back to it, the follower's log agrees with the
    leader's; and the follower's next request, for what lies behind that
    entry, is answered with entries. *)
Theorem known_epoch_converges batch cluster ep leader hw F x n s resp :
  inv s → contig F → last F = Some x → u64 (e_index x + 1) → retained (e_index x) n s →
  one_origin F (log s) → (∃ y, y ∈ log s ∧ e_term y = e_term x) →
  materialize_fetch_response batch cluster ep leader hw (e_index x + 1) (e_term x) n s = Some resp →
  frs_diverging_epoch resp ≠ None →
  ∃ e, e ∈ log s ∧ e_term e = e_term x ∧ e_index e < e_index x ∧ frs_entries resp = [] ∧
    frs_diverging_epoch resp = Some (mkDivergingEpoch (e_term x) (e_index e)) ∧
    agree (filter (λ a, e_index a < e_index e + 1) F) (log s) ∧
    (retained (e_index e) n s →
      ∃ resp', materialize_fetch_response batch cluster ep leader hw (e_index e + 1) (e_term x) n s = Some resp' ∧
        frs_diverging_epoch resp' = None ∧ frs_snapshot_redirect resp' = None ∧
        frs_entries resp' = window_from (e_index e + 1) (sat_add (e_index e + 1) batch) (log s)).
Proof using LL.
  intros Hi HF Hx Hu Hr Ho Hy. pose proof (ls_contig s Hi) as HL.
  assert (x ∈ F) as HxF by by apply last_Some_elem_of.
  assert (0 < e_index x) as Hpos.
  { destruct HF as (i & t & Hi1 & HF). destruct (contig_from_bounds _ _ _ _ HF HxF). lia. }
  rewrite materialize_retained by done. cbn zeta. intros [= <-]. cbn [frs_diverging_epoch frs_entries]. intros Hd.
  destruct (last_of_term s (e_term x) Hy) as (e & Hel & He & Het).
  rewrite (known_divergence _ _ _ _ e) by done.
  assert (e_index e < e_index x) as Hlt.
  { destruct (N.lt_ge_cases (e_index e) (e_index x)) as [|Hge]; [done|]. exfalso. apply Hd.
    apply no_divergence; [done..|]. destruct Hr as [_ (y & HyL & Hyi)].
    destruct (contig_covers (log s) y e (e_index x) HL HyL He ltac:(lia)) as (b & Hb & Hbi).
    exists b. split_and!; [done..|]. by rewrite <-(Ho x e HxF He (eq_sym Het) x b) by (done || lia). }
  exists e. split_and!; [done..| |].
  - intros a b [Hai Ha]%list_elem_of_filter Hb Heq. apply (Ho x e HxF He (eq_sym Het)); [done..|lia|lia].
  - intros Hre. assert (0 < e_index e) as Hpe.
    { destruct HL as (i & t & Hi1 & HL). destruct (contig_from_bounds _ _ _ _ HL He). lia. }
    rewrite materialize_retained by (done || (unfold u64 in *; lia)). cbn zeta.
    assert (detect_divergence (e_index e + 1) (e_term x) n s = None) as -> by (apply no_divergence; eauto).
    eexists. split_and!; done.
Qed.

(** A follower whose entry at the leader's snapshot anchor has an older
    term than the snapshot, one the leader's log no longer has, never catches
    up: the leader reports the divergence at the anchor itself, and the
    follower truncates behind the anchor, which keeps the wrong entry, and
    sends the very request that was just refused; no snapshot is offered. *)
Theorem compacted_epoch_livelock batch cluster ep leader hw m t f n s :
  inv s → last_snapshot_meta n = Some m → 0 < last_included_index m → u64 (last_included_index m + 1) →
  anchor s = Some (last_included_term m, last_included_index m) → t < last_included_term m →
  (∀ y, y ∈ log s → e_term y ≠ t) →
  ∃ resp, materialize_fetch_response batch cluster ep leader hw (last_included_index m + 1) t n s = Some resp ∧
    process_fetch_payload resp f =
      (f <| last_fetch_tick := Some (logical_tick f) |>,
       [TruncateLog (SuffixFromInclusive (last_included_index m + 1));
        SendMessage leader (MsgFetchRequest (mkFetchRequest (cluster_id (config f)) (term f) (id f)
          (last_included_index m + 1) t))]).
Proof using LL.
  intros Hi Hm Hpos Hu Ha Ht Hno. unfold materialize_fetch_response, redirect_of. rewrite Hm.
  rewrite decide_False by lia. unfold detect_divergence, resolve_term. rewrite Hm, N.add_sub.
  rewrite (decide_True (P := 1 < _)), (decide_True (P := last_included_index m = _)) by (done || lia).
  rewrite decide_True by lia. rewrite ls_end_offset_spec by done. unfold epoch_end.
  rewrite filter_nothing by done. cbn [last]. rewrite Ha, decide_True by lia.
  eexists. split; [done|]. cbn [process_fetch_payload frs_snapshot_redirect frs_diverging_epoch frs_leader_id de_end_offset de_epoch].
  unfold process_fetch_payload. cbn. by rewrite sat_add_exact by done.
Qed.
End Serve.

Import Concrete.
#[local] Existing Instance Mem.api.

Definition cmd (i t : N) : Entry := mkEntry i t (Command []).
Definition leader_log : list Entry := [cmd 1 1; cmd 2 1; cmd 3 1; cmd 4 3].
Definition stale_log : list Entry := [cmd 1 1; cmd 2 1; cmd 3 1; mkEntry 4 1 NoOp; mkEntry 5 1 NoOp].
Definition mem_of (l : list Entry) : Mem.MemoryLogStore := (Mem.append l Mem.new).1.

Lemma mem_of_inv l : contig l → Mem.inv (mem_of l) ∨ existsb is_marker l = true.
Proof.
  intros Hc. unfold mem_of, Mem.append. cbn. destruct (existsb is_marker l) eqn:Hm; [by right|left].
  by split.
Qed.

(** Deciding agreement by running through the pairs. *)
Definition one_originb (F L : list Entry) : bool :=
  forallb (λ x, forallb (λ y, if decide (e_term x = e_term y) then
    forallb (λ a, forallb (λ b,
      if decide (e_index a = e_index b ∧ e_index a ≤ e_index x ∧ e_index a ≤ e_index y)
      then bool_decide (a = b) else true) L) F else true) L) F.
Lemma one_originb_spec F L : one_originb F L = true → one_origin F L.
Proof.
  unfold one_originb. intros H x y Hx Hy Ht a b Ha Hb Heq Hax Hay.
  rewrite list_elem_of_In in Hx, Hy, Ha, Hb.
  rewrite forallb_forall in H. specialize (H x Hx). rewrite forallb_forall in H. specialize (H y Hy).
  rewrite decide_True in H by done. rewrite forallb_forall in H. specialize (H a Ha).
  rewrite forallb_forall in H. specialize (H b Hb). rewrite decide_True in H by done.
  by apply bool_decide_eq_true in H.
Qed.

Lemma contig_cmds l i t : 1 ≤ i → contig_from i t l → contig l.
Proof. intros. by exists i, t. Qed.
Ltac solve_contig i := apply (contig_cmds _ i 0); [by vm_compute|by cbn; split_and!].
Lemma leader_log_inv : Mem.inv (mem_of leader_log).
Proof. split; [solve_contig 1|vm_compute; reflexivity]. Qed.

Lemma served_entries_extend_witness :
  ∃ resp, materialize_fetch_response 64 "c" 1 1 0 4 1 lead1 (mem_of leader_log) = Some resp ∧
    frs_entries resp = [cmd 4 3].
Proof.
  destruct (served_entries_extend (LL := Mem.memory_store_laws) 64 "c" 1 1 0 (take 3 leader_log) (cmd 3 1)
    lead1 (mem_of leader_log)) as (resp & Hr & _ & Hd & He).
  - exact leader_log_inv.
  - solve_contig 1.
  - reflexivity.
  - apply N.leb_le. vm_compute. reflexivity.
  - split; [by vm_compute|]. exists (cmd 1 1). split; [left|by apply N.leb_le].
  - apply one_originb_spec. vm_compute. reflexivity.
  - exists resp. split; [exact Hr|].
    rewrite (proj1 (He (proj2 Hd ltac:(do 2 right; left)))). vm_compute. reflexivity.
Defined.

Lemma known_epoch_converges_witness :
  agree (take 3 stale_log) leader_log.
Proof.
  destruct (known_epoch_converges (LL := Mem.memory_store_laws) 64 "c" 1 1 0 stale_log (mkEntry 5 1 NoOp)
    lead1 (mem_of leader_log)
    (default (mkFetchResponse "" 0 0 0 [] None None false)
      (materialize_fetch_response 64 "c" 1 1 0 6 1 lead1 (mem_of leader_log))))
    as (e & He & Het & _ & _ & Hdv & Hag & _).
  - exact leader_log_inv.
  - solve_contig 1.
  - reflexivity.
  - apply N.leb_le. vm_compute. reflexivity.
  - split; [by vm_compute|]. exists (cmd 1 1). split; [left|by apply N.leb_le].
  - apply one_originb_spec. vm_compute. reflexivity.
  - exists (cmd 1 1). split; [left|reflexivity].
  - vm_compute. reflexivity.
  - vm_compute. discriminate.
  - assert (e_index e = 3) as H3.
    { destruct e as [i t p]. vm_compute in Hdv. injection Hdv as Hdv. by rewrite <-Hdv. }
    rewrite H3 in Hag. exact Hag.
Defined.

(** The leader of term 3 with a snapshot up to 10. *)
Definition anchor_meta : SnapshotMeta := mkSnapshotMeta membership 10 3 "s" None None None.
Definition anchored_leader : RaftNode := lead1 <| last_snapshot_meta := Some anchor_meta |>.
Definition anchored_log : Mem.MemoryLogStore :=
  (Mem.update_snapshot_anchor 3 10 (mem_of [cmd 11 3])).1.

Lemma compacted_epoch_livelock_witness :
  ∃ resp, materialize_fetch_response 64 "c" 3 1 11 11 2 anchored_leader anchored_log = Some resp ∧
    (process_fetch_payload resp node2).2 =
      [TruncateLog (SuffixFromInclusive 11);
       SendMessage 1 (MsgFetchRequest (mkFetchRequest "c" 0 2 11 2))].
Proof.
  destruct (compacted_epoch_livelock (LL := Mem.memory_store_laws) 64 "c" 3 1 11 anchor_meta 2 node2
    anchored_leader anchored_log) as (resp & Hr & Hp).
  - split; [solve_contig 11|vm_compute; reflexivity].
  - reflexivity.
  - reflexivity.
  - apply N.leb_le. vm_compute. reflexivity.
  - reflexivity.
  - reflexivity.
  - intros y ->%list_elem_of_singleton. discriminate.
  - exists resp. split; [exact Hr|]. rewrite Hp. vm_compute. reflexivity.
Defined.
