(* ===== verification/StateMachine.v ===== *)
(** * The application state machine ([xraft-core/src/state_machine.rs])

    The trait the driver calls, its two-phase snapshot capture with the
    default that serialises at once, and the state machine that does nothing. *)

From S2P Require Import Prelude CoreTypes Message.

(** [SnapshotSerializer]: a captured view, serialised later. *)
Class SnapshotSerializer (Z : Type) : Type := { serialize : Z → Result bytes }.

(** [SnapshotCaptureMode]. *)
Inductive SnapshotCaptureMode : Type :=
| NonBlockingCapture
| EagerMayStallDriver.

(** [StateMachine]; [sm_serializer] is the [Box<dyn SnapshotSerializer>] of
    [begin_snapshot]. *)
Class StateMachine (SM : Type) : Type := {
  sm_apply : N → bytes → SM → SM * Result bytes;
  sm_query : bytes → SM → Result bytes;
  sm_snapshot : SM → Result bytes;
  sm_serializer : Type;
  sm_serializes :: SnapshotSerializer sm_serializer;
  sm_begin_snapshot : SM → Result sm_serializer;
  snapshot_capture_mode : SnapshotCaptureMode;
  sm_restore : bytes → SM → SM * Result unit;
}.

(** The trait's contract: restoring a snapshot, whatever the state before, is
    the state it was taken of; and what a captured view serialises to is a
    snapshot of the state it captured. *)
Class StateMachineLaws (SM : Type) (A : StateMachine SM) : Prop := {
  restore_snapshot s b s' : sm_snapshot s = Ok b → sm_restore b s' = (s, Ok tt);
  serialize_captured s z b : sm_begin_snapshot s = Ok z → serialize z = Ok b → sm_snapshot s = Ok b;
}.

(** [EagerSerializer]: the bytes themselves. *)
Record EagerSerializer : Type := mkEagerSerializer { eager_bytes : bytes }.
#[global] Instance eager_serializes : SnapshotSerializer EagerSerializer := {
  serialize z := Ok (eager_bytes z);
}.
(** [begin_snapshot] as the trait provides it. *)
Definition begin_snapshot_default {SM} (snapshot : SM → Result bytes) (s : SM) : Result EagerSerializer :=
  let? b := snapshot s in Ok (mkEagerSerializer b).

(** The default capture keeps the contract, for any [snapshot]. *)
Lemma default_captures {SM} (snapshot : SM → Result bytes) s z b :
  begin_snapshot_default snapshot s = Ok z → serialize z = Ok b → snapshot s = Ok b.
Proof.
  unfold begin_snapshot_default. destruct (snapshot s) as [b'|e]; [|done]. cbn [rbind].
  intros [= <-]. cbn. by intros [= ->].
Qed.

(** [NoOpStateMachine]. *)
Inductive NoOpStateMachine : Type := NoOp_.
#[global] Instance no_op_state_machine : StateMachine NoOpStateMachine := {
  sm_apply _ _ s := (s, Ok []);
  sm_query _ _ := Ok [];
  sm_snapshot _ := Ok [];
  sm_serializer := EagerSerializer;
  sm_begin_snapshot := begin_snapshot_default (λ _, Ok []);
  snapshot_capture_mode := EagerMayStallDriver;
  sm_restore _ s := (s, Ok tt);
}.
#[global] Instance no_op_laws : StateMachineLaws NoOpStateMachine no_op_state_machine.
Proof.
  split.
  - by intros [] b [].
  - intros s z b. apply (default_captures (λ _ : NoOpStateMachine, Ok [])).
Qed.

(** ** Replaying a log *)

Section Replay.
Context {MA : MembershipApi} {SM : Type} {SA : StateMachine SM}.

(** Applying entries in order, as [apply_committed] does; an entry without a
    command leaves the state alone. *)
Fixpoint replay (es : list Entry) (s : SM) : option SM :=
  match es with
  | [] => Some s
  | e :: es =>
      match e_payload e with
      | Command b =>
          match sm_apply (e_index e) b s with
          | (s, Ok _) => replay es s
          | (_, Err _) => None
          end
      | _ => replay es s
      end
  end.
Lemma replay_entries_app es1 es2 s : replay (es1 ++ es2) s = replay es1 s ≫= replay es2.
Proof.
  revert s. induction es1 as [|e es1 IH]; intros s; cbn; [done|].
  destruct (e_payload e); [|done..]. destruct (sm_apply _ _ _) as [s' [r|r]]; [apply IH|done].
Qed.
End Replay.
