(* ===== verification/Driver.v ===== *)
(** * The server driver ([xraft-server/src/driver.rs])

    The event loop around one engine: executing the engine's actions against
    the stores, the state machine and the network, inbound RPCs, proposals and
    reads.  The arms of [process_actions] for taking and installing snapshots
    and for prefix truncation are not intact in the source and are not
    modelled: a run that reaches one has no result.  Replies and outbound
    messages are recorded in the order they are sent. *)

From S2P Require Import Prelude CoreTypes Message Text Config ElectionTimer RaftNode LogStore BTree WalCodec SnapshotStore SnapshotTransfer ServeFetch HardStore StateMachine.

(** What leaves the driver: replies to proposals and reads, named by their
    reply channel, and messages handed to the router. *)
Inductive Effect {MA : MembershipApi} : Type :=
| Proposed (w : N) (r : Result N)
| Answered (w : N) (r : Result bytes)
| Dispatched (to : N) (m : OutboundMessage).

(** [PendingRead]. *)
Record PendingRead : Type := mkPendingRead {
  pr_query : bytes;
  pr_reply : N;
  pr_read_index : N;
  pr_read_baseline_seq : N;
  pr_deadline_tick : N;
}.

(** [CapturedResponse]. *)
Record CapturedResponse {MA : MembershipApi} : Type := mkCaptured {
  cr_vote : option VoteResponse;
  cr_pre_vote : option PreVoteResponse;
  cr_fetch : option FetchResponse;
  cr_error : option XRaftError;
}.
#[export] Instance CapturedResponse_settable {MA : MembershipApi} : Settable CapturedResponse :=
  λ c, mkCaptured MA (cr_vote c) (cr_pre_vote c) (cr_fetch c) (cr_error c).

(** [Driver]: the parts the loop reads or changes, and what it has sent. *)
Record Driver {MA : MembershipApi} {RA : RngApi} {St HS SM : Type} : Type := mkDriver {
  d_node : RaftNode;
  d_log_store : St;
  d_hs_store : HS;
  d_state_machine : SM;
  d_pending : gmap N (list N);
  d_pending_reads : list PendingRead;
  d_halt_reason : option string;
  d_max_fetch_batch : N;
  d_sent : list Effect;
}.
Arguments Driver {MA RA} St HS SM.
#[export] Instance Driver_settable {MA : MembershipApi} {RA : RngApi} {St HS SM : Type} :
    Settable (Driver St HS SM) :=
  λ d, mkDriver MA RA St HS SM (d_node d) (d_log_store d) (d_hs_store d) (d_state_machine d) (d_pending d)
    (d_pending_reads d) (d_halt_reason d) (d_max_fetch_batch d) (d_sent d).

Section Driver.
Context {MA : MembershipApi} {RA : RngApi} {HI : HashIter} {CR : Crc32}
  {St : Type} {LA : LogStoreApi St} {HS : Type} {HA : HardStateStore HS} {SM : Type} {SA : StateMachine SM}.
#[local] Abbreviation driver := (Driver St HS SM).
Implicit Types d : driver.

(** [fail_waiters_in_range] is called but defined nowhere: what becomes of
    the waiters of a range when an entry cannot be applied. *)
Context (fail_waiters_in_range : N → N → string → driver → driver).

Definition send (e : Effect) d : driver := d <| d_sent := d_sent d ++ [e] |>.
Definition captured_default : CapturedResponse := mkCaptured MA None None None None.

(** [CapturedResponse::merge]. *)
Definition or_other {A} (a b : option A) : option A := match a with Some _ => a | None => b end.
Definition merge (c other : CapturedResponse) : CapturedResponse :=
  mkCaptured MA (or_other (cr_vote c) (cr_vote other)) (or_other (cr_pre_vote c) (cr_pre_vote other))
    (or_other (cr_fetch c) (cr_fetch other)) (or_other (cr_error c) (cr_error other)).

(** [captured.error = Some(..); self.halt_reason.get_or_insert(..)]. *)
Definition halt (msg : string) (c : CapturedResponse) d : driver * CapturedResponse :=
  (d <| d_halt_reason := or_other (d_halt_reason d) (Some msg) |>, c <| cr_error := Some (Storage msg) |>).

(** ** Waiters *)

(** [resolve_waiters_at]. *)
Definition resolve_waiters_at (index : N) (r : Result N) d : driver :=
  match d_pending d !! index with
  | Some ws =>
      d <| d_pending := delete index (d_pending d) |>
        <| d_sent := d_sent d ++ ((λ w, Proposed w r) <$> ws) |>
  | None => d
  end.
(** [self.pending.range(from..=to)], each resolved with an error. *)
Definition fail_range (from to : N) (msg : string) d : driver :=
  foldl (λ d index, resolve_waiters_at index (Err (Storage msg)) d) d
    (filter (λ i, from ≤ i ∧ i ≤ to) (keys (d_pending d))).

(** ** Applying committed entries *)

Definition apply_entries_failed := "state machine apply failed".
Fixpoint apply_entries (to : N) (es : list Entry) d : driver * result string unit :=
  match es with
  | [] => (d, Ok tt)
  | e :: es =>
      match e_payload e with
      | Command b =>
          let '(sm, r) := sm_apply (e_index e) b (d_state_machine d) in
          let d := d <| d_state_machine := sm |> in
          match r with
          | Ok _ => apply_entries to es (resolve_waiters_at (e_index e) (Ok (e_index e)) d)
          | Err _ => (fail_waiters_in_range (e_index e) to apply_entries_failed d, Err apply_entries_failed)
          end
      | NoOp | ConfigChange _ | SnapshotMarker _ =>
          apply_entries to es (resolve_waiters_at (e_index e) (Ok (e_index e)) d)
      end
  end.

(** Every entry at its place. *)
Fixpoint in_place (from : N) (es : list Entry) : bool :=
  match es with
  | [] => true
  | e :: es => bool_decide (e_index e = from) && in_place (from + 1) es
  end.

(** [apply_committed]; [None] is a panic of the store's [get_range]. *)
Definition apply_committed (from to : N) d : option (driver * result string unit) :=
  if decide (to < from) then Some (d, Err "apply: invalid range")
  else if decide (u64_max < to + 1) then Some (d, Err "apply: range end overflow")
  else
    entries ← ls_get_range from (to + 1) (d_log_store d);
    let expected_len := to - from + 1 in
    Some (if decide (N.of_nat (length entries) ≠ expected_len)
          then (fail_range from to "apply: short read" d, Err "apply: short read")
          else if negb (in_place from entries)
          then (fail_range from to "apply: index gap" d, Err "apply: index gap")
          else apply_entries to entries d).

(** ** Actions *)

(** What one action leaves to do: [break], the next action, or the nested
    list of a [FetchRequestAcked] first. *)
Inductive After : Type :=
| Break
| Next
| Nested (acts : list Action).

Definition persist_action (c : CapturedResponse) d : driver * CapturedResponse * After :=
  let node := d_node d in
  let node := node <| hard_state := hard_state node
                <| hs_commit_index := N.min (commit_index node) (ls_last_index (d_log_store d)) |> |> in
  let d := d <| d_node := node |> in
  let '(hs, r) := persist (hard_state node) (d_hs_store d) in
  let d := d <| d_hs_store := hs |> in
  match r with
  | Ok _ => (d, c, Next)
  | Err _ => (halt "hard-state persist failed" c d, Break)
  end.

(** The waiters of entries that did not reach the log. *)
Definition fail_entries (es : list Entry) (msg : string) d : driver :=
  foldl (λ d e, resolve_waiters_at (e_index e) (Err (Storage msg)) d) d es.
Definition append_action (es : list Entry) (c : CapturedResponse) d : driver * CapturedResponse * After :=
  let '(log, r) := ls_append es (d_log_store d) in
  let d := d <| d_log_store := log |> in
  match r with
  | Err _ => (halt "log append failed" c (fail_entries es "log append failed" d), Break)
  | Ok _ =>
      let '(log, r) := ls_flush (d_log_store d) in
      let d := d <| d_log_store := log |> in
      match r with
      | Err _ => (halt "log flush after append failed" c (fail_entries es "log flush after append failed" d), Break)
      | Ok _ => (d, c, Next)
      end
  end.

Definition truncate_suffix_action (from_index : N) (c : CapturedResponse) d
    : driver * CapturedResponse * After :=
  let '(log, r) := ls_truncate_from from_index (d_log_store d) in
  let d := d <| d_log_store := log |> in
  match r with
  | Err _ => (halt "log truncate failed" c d, Break)
  | Ok _ =>
      let '(log, r) := ls_flush (d_log_store d) in
      let d := d <| d_log_store := log |> in
      match r with
      | Err _ => (halt "log flush after truncate failed" c d, Break)
      | Ok _ =>
          let '(eff_index, eff_term) := effective_log_tip (d_node d) (d_log_store d) in
          (d <| d_node := set_last_log eff_index eff_term (d_node d) |>, c, Next)
      end
  end.

(** Leaving the leadership: proposals and deferred reads are refused. *)
Definition step_down_action (c : CapturedResponse) d : driver * CapturedResponse * After :=
  let hint := leader_id (d_node d) in
  let waiters := concat (values (d_pending d)) in
  let d := d <| d_pending := ∅ |>
             <| d_sent := d_sent d ++ ((λ w, Proposed w (Err (NotLeader hint))) <$> waiters) |> in
  let stranded := d_pending_reads d in
  (d <| d_pending_reads := [] |>
     <| d_sent := d_sent d ++ ((λ pr, Answered (pr_reply pr) (Err (NotLeader hint))) <$> stranded) |>,
   c, Next).

(** A message to the origin of the inbound RPC is its reply, if it is the
    first of its kind; everything else goes to the router. *)
Definition send_action (origin : option N) (to : N) (m : OutboundMessage) (c : CapturedResponse) d
    : driver * CapturedResponse * After :=
  if decide (Some to = origin) then
    match m, cr_vote c, cr_pre_vote c, cr_fetch c with
    | MsgVoteResponse r, None, _, _ => (d, c <| cr_vote := Some r |>, Next)
    | MsgPreVoteResponse r, _, None, _ => (d, c <| cr_pre_vote := Some r |>, Next)
    | MsgFetchResponse r, _, _, None => (d, c <| cr_fetch := Some r |>, Next)
    | _, _, _, _ => (send (Dispatched to m) d, c, Next)
    end
  else (send (Dispatched to m) d, c, Next).

(** The fetch response as a reply or as a message. *)
Definition reply_fetch (origin : option N) (to : N) (r : FetchResponse) (c : CapturedResponse) d
    : driver * CapturedResponse :=
  if decide (Some to = origin ∧ cr_fetch c = None) then (d, c <| cr_fetch := Some r |>)
  else (send (Dispatched to (MsgFetchResponse r)) d, c).

Definition serve_action (origin : option N) (to : N) (cluster : string)
    (epoch leader high_watermark fetch_offset last_fetched_epoch : N) (c : CapturedResponse) d
    : option (driver * CapturedResponse * After) :=
  r ← materialize_fetch_response (d_max_fetch_batch d) cluster epoch leader high_watermark fetch_offset
        last_fetched_epoch (d_node d) (d_log_store d);
  let acked := bool_decide (frs_diverging_epoch r = None ∧ frs_snapshot_redirect r = None ∧ 0 < fetch_offset) in
  let '(d, c) := reply_fetch origin to r c d in
  Some (if acked then
          let '(node, follow) := step (InFetchRequestAcked to (fetch_offset - 1)) (d_node d) in
          (d <| d_node := node |>, c, Nested follow)
        else (d, c, Next)).

Definition redirect_action (origin : option N) (to : N) (cluster : string) (epoch leader high_watermark : N)
    (m : SnapshotMeta) (c : CapturedResponse) d : driver * CapturedResponse * After :=
  let r := mkFetchResponse cluster epoch leader high_watermark [] None
             (Some (mkSnapshotRedirect (sm_id m) (last_included_index m) (last_included_term m))) true in
  (reply_fetch origin to r c d, Next).

Definition apply_action (from to : N) (c : CapturedResponse) d : option (driver * CapturedResponse * After) :=
  '(d, r) ← apply_committed from to d;
  Some (match r with
        | Ok _ => (d, c, Next)
        | Err msg => (halt msg c d, Break)
        end).

(** One action of [process_actions]. *)
Definition exec_action (origin : option N) (a : Action) (c : CapturedResponse) d
    : option (driver * CapturedResponse * After) :=
  match a with
  | PersistHardState => Some (persist_action c d)
  | AppendEntries es => Some (append_action es c d)
  | TruncateLog (SuffixFromInclusive i) => Some (truncate_suffix_action i c d)
  | ApplyToStateMachine from to => apply_action from to c d
  | BecomeLeader => Some (d, c, Next)
  | StepDown => Some (step_down_action c d)
  | SendMessage to m => Some (send_action origin to m c d)
  | ServeFetch to cluster epoch leader hw offset lfe => serve_action origin to cluster epoch leader hw offset lfe c d
  | RedirectToSnapshot to cluster epoch leader hw m => Some (redirect_action origin to cluster epoch leader hw m c d)
  | TakeSnapshot _ | InstallSnapshot _ _ | TruncateLog (PrefixThroughInclusive _) => None
  end.

(** The worklist; the nested one starts from a fresh [CapturedResponse]. *)
Fixpoint process (fuel : nat) (origin : option N) (acts : list Action) (c : CapturedResponse) d
    : option (driver * CapturedResponse) :=
  match fuel with
  | O => None
  | S fuel =>
      match acts with
      | [] => Some (d, c)
      | a :: acts =>
          '(d, c, after) ← exec_action origin a c d;
          match after with
          | Break => Some (d, c)
          | Next => process fuel origin acts c d
          | Nested follow =>
              '(d, nested) ← process fuel origin follow captured_default d;
              let c := merge c nested in
              match d_halt_reason d with
              | Some _ => Some (d, c)
              | None => process fuel origin acts c d
              end
          end
      end
  end.
(** A nested list has two actions at most. *)
Definition process_actions (acts : list Action) (origin : option N) d : option (driver * CapturedResponse) :=
  process (length acts + 4) origin acts captured_default d.

(** [self.node.step(input)], then the actions. *)
Definition step_and_process (i : Input) (origin : option N) d : option (driver * CapturedResponse) :=
  let '(node, acts) := step i (d_node d) in
  process_actions acts origin (d <| d_node := node |>).

(** ** Inbound RPCs *)

Definition default_deny_vote d : VoteResponse :=
  let n := d_node d in mkVoteResponse (cluster_id (config n)) (term n) (term n) false (leader_id n).
Definition default_deny_pre_vote d : PreVoteResponse :=
  let n := d_node d in mkPreVoteResponse (cluster_id (config n)) (term n) (term n) false (leader_id n).
Definition default_deny_fetch d : FetchResponse :=
  let n := d_node d in
  mkFetchResponse (cluster_id (config n)) (term n) (default (id n) (leader_id n)) (commit_index n)
    [] None None false.

(** The reply: an error of the actions, the captured response or the default. *)
Definition reply_of {A} (c : CapturedResponse) (captured : option A) (deny : A) : Result A :=
  match cr_error c with
  | Some err => Err err
  | None => Ok (default deny captured)
  end.

Definition handle_inbound_vote (req : VoteRequest) d : option (driver * Result VoteResponse) :=
  '(d, c) ← step_and_process (InVoteRequest req) (Some (vrq_candidate_id req)) d;
  Some (d, reply_of c (cr_vote c) (default_deny_vote d)).
Definition handle_inbound_pre_vote (req : PreVoteRequest) d : option (driver * Result PreVoteResponse) :=
  '(d, c) ← step_and_process (InPreVoteRequest req) (Some (pvq_candidate_id req)) d;
  Some (d, reply_of c (cr_pre_vote c) (default_deny_pre_vote d)).
Definition handle_inbound_fetch (req : FetchRequest) d : option (driver * Result FetchResponse) :=
  '(d, c) ← step_and_process (InFetchRequest req) (Some (frq_replica_id req)) d;
  Some (d, reply_of c (cr_fetch c) (default_deny_fetch d)).

(** ** Clients *)

(** [handle_client_command]. *)
Definition handle_client_command (command : bytes) (w : N) d : option driver :=
  let pre_last := last_log_index (d_node d) in
  let leader_hint := leader_id (d_node d) in
  if decide (role (d_node d) ≠ Leader) then Some (send (Proposed w (Err (NotLeader leader_hint))) d)
  else
    let '(node, acts) := step (InClientPropose command) (d_node d) in
    let d := d <| d_node := node |> in
    let post_last := last_log_index node in
    let accepted :=
      bool_decide (post_last = pre_last + 1) &&
      existsb (λ a, match a with
                    | AppendEntries es => existsb (λ e, e_index e =? post_last) es
                    | _ => false
                    end) acts in
    let d := if accepted
             then d <| d_pending := <[post_last := default [] (d_pending d !! post_last) ++ [w]]> (d_pending d) |>
             else send (Proposed w (Err (NotLeader (leader_id (d_node d))))) d in
    '(d, _) ← process_actions acts None d;
    Some d.

Definition MAX_PENDING_READS : nat := 1024.

(** [handle_client_query]. *)
Definition handle_client_query (query : bytes) (w : N) d : driver :=
  let n := d_node d in
  if decide (role n ≠ Leader) then send (Answered w (Err (NotLeader (leader_id n)))) d
  else
    let lease_on := enable_leader_lease (config n) in
    if negb lease_on || has_active_lease n
    then send (Answered w (sm_query query (d_state_machine d))) d
    else if decide (MAX_PENDING_READS ≤ length (d_pending_reads d))%nat
    then send (Answered w (Err (NotLeader None))) d
    else
      let deadline_tick := sat_add (logical_tick n) (sat_mul (check_quorum_interval_ticks n) 2) in
      d <| d_pending_reads := d_pending_reads d ++
             [mkPendingRead query w (commit_index n) (fetch_seq n) deadline_tick] |>.

(** [has_read_index_quorum_proof]. *)
Definition has_read_index_quorum_proof (read_baseline_seq : N) d : bool :=
  let n := d_node d in
  match voter_set n with
  | None => false
  | Some vs =>
      let fresh := λ p, bool_decide (read_baseline_seq < last_fetch_seq p) in
      bool_decide (quorum_size vs ≤ count_peers vs n fresh)%nat
  end.

(** [drain_pending_reads]: the loop over the queue, with what stays in it. *)
Fixpoint drain_reads (reads : list PendingRead) d : driver * list PendingRead :=
  match reads with
  | [] => (d, [])
  | pr :: reads =>
      let n := d_node d in
      if decide (role n ≠ Leader)
      then drain_reads reads (send (Answered (pr_reply pr) (Err (NotLeader (leader_id n)))) d)
      else if decide (pr_deadline_tick pr < logical_tick n)
      then drain_reads reads (send (Answered (pr_reply pr) (Err (NotLeader None))) d)
      else if has_read_index_quorum_proof (pr_read_baseline_seq pr) d &&
              bool_decide (pr_read_index pr ≤ last_applied n)
      then drain_reads reads (send (Answered (pr_reply pr) (sm_query (pr_query pr) (d_state_machine d))) d)
      else let '(d, still) := drain_reads reads d in (d, pr :: still)
  end.
Definition drain_pending_reads d : driver :=
  match d_pending_reads d with
  | [] => d
  | reads => let '(d, still) := drain_reads reads d in d <| d_pending_reads := still |>
  end.

(** ** The loop *)

(** [handle_tick] and [handle_outbound_result]. *)
Definition handle_tick d : option driver :=
  '(d, _) ← step_and_process InTick None d; Some d.
Definition handle_outbound (res : OutboundResult) d : option driver :=
  let '(node, acts) := handle_outbound_result res (d_node d) in
  '(d, _) ← process_actions acts None (d <| d_node := node |>); Some d.

(** The events of the loop, and the replies to inbound RPCs. *)
Inductive DriverEvent : Type :=
| EvVote (req : VoteRequest)
| EvPreVote (req : PreVoteRequest)
| EvFetch (req : FetchRequest)
| EvClient (command : bytes) (w : N)
| EvQuery (query : bytes) (w : N)
| EvOutbound (res : OutboundResult)
| EvTick.
Inductive Reply : Type :=
| RpVote (r : Result VoteResponse)
| RpPreVote (r : Result PreVoteResponse)
| RpFetch (r : Result FetchResponse)
| RpNone.

Definition handle_event (ev : DriverEvent) d : option (driver * Reply) :=
  match ev with
  | EvVote req => '(d, r) ← handle_inbound_vote req d; Some (d, RpVote r)
  | EvPreVote req => '(d, r) ← handle_inbound_pre_vote req d; Some (d, RpPreVote r)
  | EvFetch req => '(d, r) ← handle_inbound_fetch req d; Some (d, RpFetch r)
  | EvClient command w => d ← handle_client_command command w d; Some (d, RpNone)
  | EvQuery query w => Some (handle_client_query query w d, RpNone)
  | EvOutbound res => d ← handle_outbound res d; Some (d, RpNone)
  | EvTick => d ← handle_tick d; Some (d, RpNone)
  end.

(** One turn of the loop in [run]: the event, then the deferred reads. *)
Definition loop_turn (ev : DriverEvent) d : option (driver * Reply) :=
  '(d, r) ← handle_event ev d; Some (drain_pending_reads d, r).

(** The loop stops at the first turn that leaves a halt reason. *)
Fixpoint run_events (evs : list DriverEvent) d : option driver :=
  match evs with
  | [] => Some d
  | ev :: evs =>
      '(d, _) ← loop_turn ev d;
      match d_halt_reason d with
      | Some _ => Some d
      | None => run_events evs d
      end
  end.
End Driver.
