(* ===== verification/ReadFrame.v ===== *)
(** * Who moves the fetch marks

    A leader confirms deferred reads by the sequence number it stamps on a
    peer with every fetch it accepts.  No other input touches these marks. *)

From S2P Require Import Prelude CoreTypes Message Text Config ElectionTimer RaftNode NodeFacts NodeInvariant.

Section Frame.
Context {MA : MembershipApi} {RA : RngApi} {HI : HashIter}.
Implicit Types n : RaftNode.

(** What a read confirmation looks at, but for the role. *)
Definition marks n : gmap N N := last_fetch_seq <$> peers n.
Record same_marks n n' : Prop := mkSameMarks {
  sm_id : id n' = id n;
  sm_voters : voter_set n' = voter_set n;
  sm_config : config n' = config n;
  sm_marks : marks n' = marks n;
  sm_seq : fetch_seq n' = fetch_seq n;
}.
#[export] Instance same_marks_refl : Reflexive same_marks.
Proof. done. Qed.
#[export] Instance same_marks_trans : Transitive same_marks.
Proof. intros n1 n2 n3 [] []. split; congruence. Qed.

(** Only the peers' other fields change. *)
Lemma marks_alter (f : PeerState → PeerState) i (m : gmap N PeerState) :
  (∀ p, last_fetch_seq (f p) = last_fetch_seq p) →
  last_fetch_seq <$> alter f i m = last_fetch_seq <$> m.
Proof.
  intros Hf. apply map_eq. intros j. rewrite !lookup_fmap. destruct (decide (i = j)) as [->|Hne].
  - rewrite lookup_alter_eq. destruct (m !! j) as [p|]; [|done]. cbn. by rewrite Hf.
  - by rewrite lookup_alter_ne.
Qed.
Lemma marks_fmap (f : PeerState → PeerState) (m : gmap N PeerState) :
  (∀ p, last_fetch_seq (f p) = last_fetch_seq p) →
  last_fetch_seq <$> (f <$> m) = last_fetch_seq <$> m.
Proof.
  intros Hf. rewrite <-map_fmap_compose. apply map_fmap_ext. intros _ p _. cbn. apply Hf.
Qed.

Lemma marks_advance n n' acts : advance_and_drain n = (n', acts) → same_marks n n'.
Proof. by intros (c & a & f & -> & _)%advance_and_drain_shape. Qed.
Lemma marks_drain n n' acts : drain_apply_pipeline n = (n', acts) → same_marks n n'.
Proof. by intros (f & -> & _)%drain_shape. Qed.
Lemma marks_follower t l n n' acts : become_follower t l n = (n', acts) → same_marks n n'.
Proof.
  intros (? & ? & ? & Hp & _ & _ & _ & _ & _ & _ & _ & _ & _ & _ & _ & _ & _ & ? & _)%become_follower_fields.
  split; try done. unfold marks. by rewrite Hp.
Qed.
Lemma marks_leader n n' acts : become_leader n = (n', acts) → same_marks n n'.
Proof.
  unfold become_leader. destruct (advance_and_drain (leader_state n)) as [m1 a] eqn:E.
  intros [<- _]%pair_inv. etrans; [|by eapply marks_advance].
  split; try done. unfold marks, leader_state. cbn. by apply marks_fmap.
Qed.
Lemma marks_candidate n n' acts : become_candidate n = (n', acts) → same_marks n n'.
Proof.
  unfold become_candidate. assert (same_marks n (candidate_state n)) as Hc by done.
  destruct (has_election_quorum _).
  - destruct (become_leader _) as [m1 a] eqn:E. intros [<- _]%pair_inv.
    etrans; [exact Hc|by eapply marks_leader].
  - by intros [<- _]%pair_inv.
Qed.
Lemma marks_pre_candidate n n' acts : become_pre_candidate n = (n', acts) → same_marks n n'.
Proof.
  unfold become_pre_candidate. assert (same_marks n (pre_candidate_state n)) as Hc by done.
  destruct (has_pre_election_quorum _).
  - destruct (become_candidate _) as [m1 a] eqn:E. intros [<- _]%pair_inv.
    etrans; [exact Hc|by eapply marks_candidate].
  - by intros [<- _]%pair_inv.
Qed.

Lemma marks_propagate hw n n' acts : propagate_high_watermark hw n = (n', acts) → same_marks n n'.
Proof.
  unfold propagate_high_watermark. case_decide; [|by intros [<- _]%pair_inv].
  intros Hd. by apply marks_drain in Hd as [].
Qed.
Lemma marks_payload resp n n' acts : process_fetch_payload resp n = (n', acts) → same_marks n n'.
Proof.
  unfold process_fetch_payload, accept_entries.
  destruct (frs_snapshot_redirect resp); [by intros [<- _]%pair_inv|].
  destruct (frs_diverging_epoch resp); [by intros [<- _]%pair_inv|].
  destruct (last (frs_entries resp)) as [e|]; [|by apply marks_propagate].
  destruct (negb _); [by intros [<- _]%pair_inv|].
  destruct (propagate_high_watermark _ _) as [m1 a] eqn:E. intros [<- _]%pair_inv.
  by apply marks_propagate in E as [].
Qed.
Lemma marks_adopt l n n' acts : adopt_leader l n = (n', acts) → same_marks n n'.
Proof.
  unfold adopt_leader. destruct (role n); try by apply marks_follower.
  all: destruct (leader_id n); by intros [<- _]%pair_inv.
Qed.
Lemma marks_fetch_response resp n n' acts : handle_fetch_response resp n = (n', acts) → same_marks n n'.
Proof.
  unfold handle_fetch_response. do 4 (case_match; [by intros [<- _]%pair_inv|]).
  destruct (if decide (term n < _) then _ else _) as [m1 a1] eqn:E1.
  assert (same_marks n m1) as Hm1.
  { case_decide; [by eapply marks_follower|]. by apply pair_inv in E1 as [<- _]. }
  clear E1. destruct (decide (role m1 = Leader)); [by intros [<- _]%pair_inv|].
  destruct (match leader_id m1 with Some _ => _ | None => _ end); [by intros [<- _]%pair_inv|].
  destruct (adopt_leader _ m1) as [m2 a2] eqn:E2.
  destruct (process_fetch_payload _ _) as [m3 a3] eqn:E3. intros [<- _]%pair_inv.
  apply marks_adopt in E2. apply marks_payload in E3. etrans; [exact Hm1|]. etrans; [exact E2|].
  by destruct E3.
Qed.
Lemma marks_check_quorum n n' o : check_quorum_tick n = (n', o) → same_marks n n'.
Proof.
  unfold check_quorum_tick. destruct (bool_decide _ && _); [|by intros [<- _]%pair_inv].
  case_decide; [|by intros [<- _]%pair_inv].
  destruct (check_quorum_reachable _); [by intros [<- _]%pair_inv|].
  destruct (become_follower _ _ _) as [m1 a] eqn:E. intros [<- _]%pair_inv.
  by apply marks_follower in E as [].
Qed.
Lemma marks_tick n n' acts : handle_tick n = (n', acts) → same_marks n n'.
Proof.
  unfold handle_tick. set (m0 := n <| logical_tick := _ |> <| election_timer := _ |>).
  assert (same_marks n m0) as Hm0 by done. clearbody m0.
  destruct (schedule_fetch m0) as [m1 f] eqn:E1. apply schedule_fetch_shape in E1 as [[v ->] _].
  destruct (check_quorum_tick _) as [m2 o] eqn:E2. apply marks_check_quorum in E2.
  assert (same_marks n m2) as Hm2 by (etrans; [exact Hm0|by destruct E2]).
  destruct o; [by intros [<- _]%pair_inv|].
  destruct (negb (Timer.is_expired _)); [by intros [<- _]%pair_inv|].
  destruct (role m2); try by intros [<- _]%pair_inv.
  all: destruct (become_pre_candidate m2) as [m3 a] eqn:E3; intros [<- _]%pair_inv;
    etrans; [exact Hm2|by eapply marks_pre_candidate].
Qed.

(** An accepted fetch: from another member of the cluster, at most at the
    leader's term. *)
Definition accepts_fetch (req : FetchRequest) n : Prop :=
  role n = Leader ∧ frq_cluster_id req = cluster_id (config n) ∧ frq_leader_epoch req ≤ term n ∧
  frq_replica_id req ≠ id n ∧ 0 < frq_fetch_offset req.

Lemma marks_fetch_request req n n' acts :
  handle_fetch_request req n = (n', acts) →
  same_marks n n' ∨
  accepts_fetch req n ∧ id n' = id n ∧ voter_set n' = voter_set n ∧ config n' = config n ∧
    fetch_seq n' = sat_add (fetch_seq n) 1 ∧
    marks n' = alter (λ _, fetch_seq n') (frq_replica_id req) (marks n).
Proof.
  unfold handle_fetch_request.
  case_decide as Hm1; [by intros [<- _]%pair_inv; left|].
  destruct (is_self n (frq_replica_id req)) eqn:Hs; [by intros [<- _]%pair_inv; left|].
  destruct (_ && _); [by intros [<- _]%pair_inv; left|].
  case_decide as Hm2; [intros H; left; by eapply marks_follower|].
  case_decide as Hm3; [by intros [<- _]%pair_inv; left|].
  case_decide as Hm4; [by intros [<- _]%pair_inv; left|].
  set (m1 := n <| fetch_seq := _ |>). set (m2 := m1 <| peers := _ |>).
  set (m3 := m2 <| last_leader_contact_tick := _ |>). intros H. right.
  assert (n' = m3) as ->.
  { revert H. change (last_snapshot_meta m3) with (last_snapshot_meta n).
    destruct (last_snapshot_meta n); [destruct (decide _)|]; by intros [<- _]%pair_inv. }
  split.
  { unfold accepts_fetch. split_and!; [done|done|lia| |lia].
    intros Heq. unfold is_self in Hs. by rewrite bool_decide_true in Hs. }
  split_and!; [done..|]. unfold marks, m3, m2, m1. cbn.
  apply map_eq. intros j. rewrite !lookup_fmap. destruct (decide (frq_replica_id req = j)) as [->|Hne].
  - rewrite !lookup_alter_eq, lookup_fmap. by destruct (peers n !! j).
  - by rewrite !lookup_alter_ne, lookup_fmap.
Qed.

(** One input: the marks stay, or it was a fetch the leader accepted. *)
Lemma step_marks i n n' acts :
  step i n = (n', acts) →
  same_marks n n' ∨
  ∃ req, i = InFetchRequest req ∧ accepts_fetch req n ∧ id n' = id n ∧ voter_set n' = voter_set n ∧
    config n' = config n ∧ fetch_seq n' = sat_add (fetch_seq n) 1 ∧
    marks n' = alter (λ _, fetch_seq n') (frq_replica_id req) (marks n).
Proof.
  destruct i; cbn [step].
  - left. by eapply marks_tick.
  - unfold handle_vote_request. case_decide; [by intros [<- _]%pair_inv; left|].
    case_decide; [by intros [<- _]%pair_inv; left|].
    destruct (negb _); [by intros [<- _]%pair_inv; left|].
    case_decide; [by intros [<- _]%pair_inv; left|].
    intros [<- _]%pair_inv. left.
    set (m := if bool_decide _ then _ else n).
    assert (same_marks n m) as Hm by (unfold m; by destruct (bool_decide _)). clearbody m.
    etrans; [exact Hm|]. destruct (would_grant r m); [|done]. by destruct (true && _).
  - unfold handle_vote_response. case_decide; [by intros [<- _]%pair_inv; left|].
    destruct (negb _); [by intros [<- _]%pair_inv; left|].
    case_decide; [intros Hf; left; by eapply marks_follower|].
    case_decide; [by intros [<- _]%pair_inv; left|].
    destruct (vrs_vote_granted r); [|by intros [<- _]%pair_inv; left].
    destruct (has_election_quorum _); [|by intros [<- _]%pair_inv; left].
    intros Hl. left. by apply marks_leader in Hl as [].
  - intros [<- _]%pair_inv. by left.
  - unfold handle_pre_vote_response. case_decide; [by intros [<- _]%pair_inv; left|].
    destruct (negb _); [by intros [<- _]%pair_inv; left|].
    case_decide; [intros Hf; left; by eapply marks_follower|].
    case_decide; [by intros [<- _]%pair_inv; left|].
    destruct (pvs_vote_granted r); [|by intros [<- _]%pair_inv; left].
    destruct (has_pre_election_quorum _); [|by intros [<- _]%pair_inv; left].
    intros Hc. left. by apply marks_candidate in Hc as [].
  - intros [H|H]%marks_fetch_request; [by left|]. right. by exists r.
  - left. by eapply marks_fetch_response.
  - unfold handle_client_propose. case_decide; [by intros [<- _]%pair_inv; left|].
    destruct (advance_and_drain _) as [m1 a] eqn:E. intros [<- _]%pair_inv.
    left. by apply marks_advance in E as [].
  - unfold handle_fetch_request_acked. case_decide; [by intros [<- _]%pair_inv; left|].
    destruct (_ && _); [by intros [<- _]%pair_inv; left|].
    intros Ha. apply marks_advance in Ha as [? ? ? Hm ?]. left.
    split; try done. rewrite Hm. unfold marks. cbn. apply marks_alter.
    intros p. repeat case_decide; done.
  - unfold handle_snapshot_complete. destruct (negb _); by intros [<- _]%pair_inv; left.
  - unfold handle_snapshot_installed. intros [<- _]%pair_inv. left.
    repeat case_decide; destruct (is_snapshot_meta_newer _ _); done.
  - unfold handle_fetch_snapshot_received. case_decide; by intros [<- _]%pair_inv; left.
Qed.
End Frame.
