(* ===== verification/DriverFacts.v ===== *)
(** * Facts about the driver

    What executing actions may change: waiters and deferred reads leave only
    with a reply, and the marks of accepted fetches stay. *)

From S2P Require Import Prelude CoreTypes Message Text Config ElectionTimer RaftNode NodeFacts LogStore BTree WalCodec SnapshotStore SnapshotTransfer ServeFetch HardStore StateMachine Driver ReadFrame.

Section Facts.
Context {MA : MembershipApi} {RA : RngApi} {HI : HashIter} {CR : Crc32}
  {St : Type} {LA : LogStoreApi St} {HS : Type} {HA : HardStateStore HS} {SM : Type} {SA : StateMachine SM}.
#[local] Abbreviation driver := (Driver St HS SM).
Implicit Types d : driver.

Definition prop_of (e : Effect) : option N := match e with Proposed w _ => Some w | _ => None end.
Definition read_of (e : Effect) : option N := match e with Answered w _ => Some w | _ => None end.
(** Not an answer to a read. *)
Definition refused (e : Effect) : Prop := match e with Answered _ (Ok _) => False | _ => True end.

(** The proposals and reads still open. *)
Definition waiting d : list N := concat (map_to_list (d_pending d)).*2.
Definition deferred d : list N := pr_reply <$> d_pending_reads d.

Record settles d d' : Prop := mkSettles {
  st_sent : ∃ es, d_sent d' = d_sent d ++ es ∧ Forall refused es ∧
    omap prop_of es ++ waiting d' ≡ₚ waiting d ∧ omap read_of es ++ deferred d' ≡ₚ deferred d;
  st_reads : d_pending_reads d' = d_pending_reads d ∨ d_pending_reads d' = [];
  st_marks : same_marks (d_node d) (d_node d');
}.
#[export] Instance settles_refl : Reflexive settles.
Proof. intros d. split; [|by left|done]. exists []. by rewrite app_nil_r. Qed.
#[export] Instance settles_trans : Transitive settles.
Proof.
  intros d1 d2 d3 [(e1 & Hs1 & Hr1 & Hp1 & Hq1) Hd1 Hm1] [(e2 & Hs2 & Hr2 & Hp2 & Hq2) Hd2 Hm2].
  split; [|intuition congruence|by etrans]. exists (e1 ++ e2).
  rewrite Hs2, Hs1, app_assoc, !omap_app. split_and!; [done|by apply Forall_app| |].
  - by rewrite <-app_assoc, Hp2.
  - by rewrite <-app_assoc, Hq2.
Qed.

(** Nothing sent, nothing settled. *)
Lemma settles_frame d d' :
  d_sent d' = d_sent d → d_pending d' = d_pending d → d_pending_reads d' = d_pending_reads d →
  same_marks (d_node d) (d_node d') → settles d d'.
Proof.
  intros Hs Hp Hr Hm. split; [|by left|done]. exists []. unfold waiting, deferred.
  by rewrite Hs, Hp, Hr, app_nil_r.
Qed.
Lemma settles_message to m d : settles d (send (Dispatched to m) d).
Proof. split; [|by left|done]. exists [Dispatched to m]. split_and!; [done|by repeat constructor|done..]. Qed.

Lemma omap_proposed (ws : list N) r : omap prop_of ((λ w, Proposed w r) <$> ws) = ws.
Proof. induction ws as [|w ws IH]; [done|]. cbn. by rewrite IH. Qed.
Lemma omap_proposed_reads (ws : list N) r : omap read_of ((λ w, Proposed w r) <$> ws) = [].
Proof. by induction ws. Qed.
Lemma refused_proposed (ws : list N) r : Forall refused ((λ w, Proposed w r) <$> ws).
Proof. by apply Forall_fmap, Forall_true. Qed.

Lemma settles_resolve i r d : settles d (resolve_waiters_at i r d).
Proof.
  unfold resolve_waiters_at. destruct (d_pending d !! i) as [ws|] eqn:Hi; [|done].
  split; [|by left|done]. eexists. split; [done|]. split; [apply refused_proposed|].
  rewrite omap_proposed, omap_proposed_reads. split; [|done].
  unfold waiting. cbn. by rewrite <-(map_to_list_delete (d_pending d) i ws) by done.
Qed.

Lemma settles_foldl {A} (f : driver → A → driver) (l : list A) d :
  (∀ d a, settles d (f d a)) → settles d (foldl f d l).
Proof.
  intros Hf. revert d. induction l as [|a l IH]; intros d; [done|]. cbn. etrans; [apply Hf|apply IH].
Qed.
Lemma settles_fail_range a b m d : settles d (fail_range a b m d).
Proof. apply settles_foldl. intros. apply settles_resolve. Qed.
Lemma settles_fail_entries es m d : settles d (fail_entries es m d).
Proof. apply settles_foldl. intros. apply settles_resolve. Qed.

(** ** Draining the deferred reads *)

(** When the loop answers a read from the state machine. *)
Definition ripe (pr : PendingRead) d : Prop :=
  role (d_node d) = Leader ∧ logical_tick (d_node d) ≤ pr_deadline_tick pr ∧
  has_read_index_quorum_proof (pr_read_baseline_seq pr) d = true ∧
  pr_read_index pr ≤ last_applied (d_node d).

Lemma drain_reads_spec reads d d' still :
  drain_reads reads d = (d', still) →
  ∃ es, d' = d <| d_sent := d_sent d ++ es |> ∧ omap prop_of es = [] ∧
    omap read_of es ++ (pr_reply <$> still) ≡ₚ pr_reply <$> reads ∧ still ⊆ reads ∧
    ∀ w b, Answered w (Ok b) ∈ es →
      ∃ pr, pr ∈ reads ∧ pr_reply pr = w ∧ ripe pr d ∧ sm_query (pr_query pr) (d_state_machine d) = Ok b.
Proof.
  revert d d' still. induction reads as [|pr reads IH]; intros d d' still; cbn [drain_reads].
  { intros [<- <-]%pair_inv. exists []. rewrite app_nil_r. split_and!; [by destruct d|done|done|set_solver|].
    by intros w b ?%not_elem_of_nil. }
  assert (∀ r, drain_reads reads (send (Answered (pr_reply pr) r) d) = (d', still) →
    (∀ b, r = Ok b → ripe pr d ∧ sm_query (pr_query pr) (d_state_machine d) = Ok b) →
    ∃ es, d' = d <| d_sent := d_sent d ++ es |> ∧ omap prop_of es = [] ∧
      omap read_of es ++ (pr_reply <$> still) ≡ₚ pr_reply <$> (pr :: reads) ∧ still ⊆ pr :: reads ∧
      ∀ w b, Answered w (Ok b) ∈ es →
        ∃ pr', pr' ∈ pr :: reads ∧ pr_reply pr' = w ∧ ripe pr' d ∧ sm_query (pr_query pr') (d_state_machine d) = Ok b)
    as Hanswer.
  { intros r Hrun Hr. apply IH in Hrun as (es & -> & Hp & Hq & Hsub & Hes).
    exists (Answered (pr_reply pr) r :: es). cbn [d_sent send]. split_and!.
    - destruct d; cbn. by rewrite <-app_assoc.
    - done.
    - cbn. by rewrite Hq.
    - set_solver.
    - intros w b [Heq|Hin]%elem_of_cons.
      + injection Heq as -> <-. exists pr. destruct (Hr b eq_refl). split_and!; [by left|done..].
      + destruct (Hes w b Hin) as (pr' & ? & ? & ? & ?). exists pr'. split_and!; [by right|done..]. }
  case_decide as H1; [intros Hrun; by eapply Hanswer|]. case_decide as H2; [intros Hrun; by eapply Hanswer|].
  destruct (has_read_index_quorum_proof _ _ && _) eqn:H3.
  - apply andb_true_iff in H3 as [Hq Ha%bool_decide_eq_true]. intros Hrun. eapply Hanswer; [done|].
    intros b Hb. split; [|done]. split_and!; [done|lia|done..].
  - destruct (drain_reads reads d) as [d1 s1] eqn:E. intros [<- <-]%pair_inv.
    apply IH in E as (es & -> & Hp & Hq & Hsub & Hes). exists es. split_and!; [done..| | |].
    + cbn. by rewrite <-Permutation_middle, Hq.
    + set_solver.
    + intros w b Hin. destruct (Hes w b Hin) as (pr' & ? & ? & ? & ?). exists pr'. split_and!; [by right|done..].
Qed.

Lemma drain_spec d :
  ∃ es still, drain_pending_reads d = d <| d_sent := d_sent d ++ es |> <| d_pending_reads := still |> ∧
    omap prop_of es = [] ∧ omap read_of es ++ (pr_reply <$> still) ≡ₚ deferred d ∧
    still ⊆ d_pending_reads d ∧
    ∀ w b, Answered w (Ok b) ∈ es →
      ∃ pr, pr ∈ d_pending_reads d ∧ pr_reply pr = w ∧ ripe pr d ∧ sm_query (pr_query pr) (d_state_machine d) = Ok b.
Proof.
  unfold drain_pending_reads, deferred. destruct (d_pending_reads d) as [|pr l] eqn:Hl.
  { exists [], []. split_and!; try done; [|by intros w b ?%not_elem_of_nil]. destruct d; cbn in *. by rewrite app_nil_r, Hl. }
  destruct (drain_reads (pr :: l) d) as [d1 still] eqn:E. apply drain_reads_spec in E as (es & -> & H).
  exists es, still. done.
Qed.

(** What the driver relies on of the method that is missing. *)
Context (fail_waiters_in_range : N → N → string → driver → driver).
Context (fails_waiters : ∀ a b m d, settles d (fail_waiters_in_range a b m d)).

Lemma settles_apply_entries to es d d' r :
  apply_entries fail_waiters_in_range to es d = (d', r) → settles d d'.
Proof using fails_waiters.
  revert d. induction es as [|e es IH]; intros d; cbn; [by intros [<- _]%pair_inv|].
  destruct (e_payload e) as [b| | |]; [|intros Hrun; etrans; [apply settles_resolve|by eapply IH]..].
  destruct (sm_apply _ _ _) as [sm [x|x]]; cbn.
  - intros Hrun. etrans; [|by eapply IH]. etrans; [|apply settles_resolve]. by apply settles_frame.
  - intros [<- _]%pair_inv. etrans; [|apply fails_waiters]. by apply settles_frame.
Qed.
Lemma settles_apply from to d d' r :
  apply_committed fail_waiters_in_range from to d = Some (d', r) → settles d d'.
Proof using fails_waiters.
  unfold apply_committed. case_decide; [by intros [= <- _]|]. case_decide; [by intros [= <- _]|].
  destruct (ls_get_range _ _ _) as [es|]; [|done]. cbn. intros [= Hrun].
  case_decide; [apply pair_inv in Hrun as [<- _]; apply settles_fail_range|].
  destruct (negb _); [apply pair_inv in Hrun as [<- _]; apply settles_fail_range|].
  by eapply settles_apply_entries.
Qed.

Lemma settles_halt m c d : settles d (halt m c d).1.
Proof. by apply settles_frame. Qed.

Lemma settles_append es c d : settles d (append_action es c d).1.1.
Proof.
  unfold append_action. destruct (ls_append es (d_log_store d)) as [l r].
  set (d1 := d <| d_log_store := l |>). assert (settles d d1) as H1 by by apply settles_frame.
  clearbody d1. destruct r.
  - destruct (ls_flush (d_log_store d1)) as [l2 r2]. set (d2 := d1 <| d_log_store := l2 |>).
    assert (settles d d2) as H2 by (etrans; [exact H1|by apply settles_frame]). clearbody d2.
    destruct r2; [exact H2|]. etrans; [exact H2|].
    etrans; [apply settles_fail_entries|apply settles_halt].
  - etrans; [exact H1|]. etrans; [apply settles_fail_entries|apply settles_halt].
Qed.
Lemma settles_truncate i c d : settles d (truncate_suffix_action i c d).1.1.
Proof.
  unfold truncate_suffix_action. destruct (ls_truncate_from i (d_log_store d)) as [l r].
  destruct r; [|by apply settles_frame]. destruct (ls_flush _) as [l2 r2].
  destruct r2; [|by apply settles_frame]. destruct (effective_log_tip _ _). by apply settles_frame.
Qed.
Lemma settles_persist c d : settles d (persist_action c d).1.1.
Proof.
  unfold persist_action. destruct (persist _ _) as [hs r]. destruct r; by apply settles_frame.
Qed.

Lemma settles_step_down c d : settles d (step_down_action c d).1.1.
Proof.
  unfold step_down_action. split; [|by right|done].
  eexists. cbn. split; [by rewrite <-app_assoc|]. split.
  { apply Forall_app. split; [apply refused_proposed|]. by apply Forall_fmap, Forall_true. }
  rewrite !omap_app, omap_proposed, omap_proposed_reads. 
  set (l := d_pending_reads d). set (hint := leader_id (d_node d)).
  assert (omap prop_of ((λ pr, Answered (pr_reply pr) (Err (NotLeader hint))) <$> l) = []) as ->.
  { clear. by induction l. }
  assert (omap read_of ((λ pr, Answered (pr_reply pr) (Err (NotLeader hint))) <$> l) = pr_reply <$> l) as ->.
  { clear. induction l as [|p l IH]; [done|]. cbn. by rewrite IH. }
  unfold waiting, deferred. cbn. rewrite map_to_list_empty. cbn. rewrite !app_nil_r. split; [|done].
  unfold values. by rewrite in_order_perm.
Qed.

Lemma settles_send origin to m c d : settles d (send_action origin to m c d).1.1.
Proof.
  unfold send_action. case_decide; [|apply settles_message].
  repeat case_match; first [done|apply settles_message].
Qed.
Lemma settles_reply_fetch origin to r c d : settles d (reply_fetch origin to r c d).1.
Proof. unfold reply_fetch. case_decide; [done|apply settles_message]. Qed.

Lemma settles_exec origin a c d d' c' after :
  exec_action fail_waiters_in_range origin a c d = Some (d', c', after) → settles d d'.
Proof using fails_waiters.
  assert (∀ x : driver * CapturedResponse * After, settles d x.1.1 → Some x = Some (d', c', after) → settles d d')
    as Hpure by (by intros x Hx [= ->]).
  destruct a; cbn [exec_action]; try done.
  - apply Hpure, settles_persist.
  - apply Hpure, settles_append.
  - apply Hpure, settles_send.
  - unfold apply_action. destruct (apply_committed _ _ _ _) as [[d1 r]|] eqn:E; [|done]. cbn.
    apply settles_apply in E. destruct r; apply Hpure; [exact E|]. etrans; [exact E|apply settles_halt].
  - by apply Hpure.
  - apply Hpure, settles_step_down.
  - unfold serve_action. destruct (materialize_fetch_response _ _ _ _ _ _ _ _ _) as [r|]; [|done]. cbn.
    pose proof (settles_reply_fetch origin to r c d) as Hr.
    destruct (reply_fetch origin to r c d) as [d1 c1]. cbn in Hr. apply Hpure.
    destruct (bool_decide _); [|exact Hr].
    destruct (handle_fetch_request_acked _ _ _) as [n acts] eqn:E. cbn. etrans; [exact Hr|].
    apply settles_frame; [done..|]. cbn.
    apply (step_marks (InFetchRequestAcked _ _)) in E as [?|(? & ? & _)]; done.
  - apply Hpure. unfold redirect_action. apply settles_reply_fetch.
  - destruct t; [|done]. apply Hpure, settles_truncate.
Qed.

Lemma settles_process fuel origin acts c d d' c' :
  process fail_waiters_in_range fuel origin acts c d = Some (d', c') → settles d d'.
Proof using fails_waiters.
  revert acts c d d' c'. induction fuel as [|fuel IH]; intros acts c d d' c'; [done|].
  destruct acts as [|a acts]; cbn; [by intros [= <- _]|].
  destruct (exec_action _ _ _ _ _) as [[[d1 c1] after]|] eqn:E; [|done]. cbn.
  apply settles_exec in E. destruct after as [| |follow].
  - by intros [= <- _].
  - intros Hrun. etrans; [exact E|by eapply IH].
  - destruct (process _ _ _ follow _ _) as [[d2 c2]|] eqn:E2; [|done]. cbn.
    apply IH in E2. assert (settles d d2) as H2 by by etrans.
    destruct (d_halt_reason d2); [by intros [= <- _]|]. intros Hrun. etrans; [exact H2|by eapply IH].
Qed.
End Facts.
