(* ===== verification/DriverRuns.v ===== *)
(** * Runs of several drivers

    A network of drivers with in-memory stores, as an executable script: every
    message delivered is one the sender's driver handed to its router, and
    every reply goes back to the driver that asked. *)

From S2P Require Import Prelude CoreTypes Message Text Config ElectionTimer RaftNode LogStore MemoryLog WalCodec SnapshotStore SnapshotTransfer ServeFetch HardStore StateMachine Driver Concrete.

Import Concrete.
#[local] Existing Instance Mem.api.

(** A state machine that records what it applies and answers every query
    with the commands applied so far. *)
Definition journal : Type := list (N * bytes).
#[export] Instance byte_countable : Countable Byte.byte := inj_countable Byte.to_N Byte.of_N Byte.of_to_N.
Definition journal_bytes : Bincode journal := bincode_of journal.
#[export] Instance journal_machine : StateMachine journal := {
  sm_apply i b sm := (sm ++ [(i, b)], Ok []);
  sm_query _ sm := Ok (concat sm.*2);
  sm_snapshot sm := Ok (@bin_ser _ journal_bytes sm);
  sm_serializer := EagerSerializer;
  sm_begin_snapshot := begin_snapshot_default (λ sm, Ok (@bin_ser _ journal_bytes sm));
  snapshot_capture_mode := EagerMayStallDriver;
  sm_restore b sm :=
    match @bin_de _ journal_bytes b with Some sm' => (sm', Ok tt) | None => (sm, Err (Storage "journal")) end;
}.

#[export] Instance journal_laws : StateMachineLaws journal journal_machine.
Proof.
  split.
  - intros s b s' Hb. pose proof (@bin_roundtrip _ journal_bytes (bincode_of_laws journal) s) as Hr.
    change (@Ok XRaftError bytes (@bin_ser _ journal_bytes s) = Ok b) in Hb.
    revert Hb Hr. generalize (@bin_ser _ journal_bytes s). intros c [= ->] Hr.
    change (match @bin_de _ journal_bytes b with Some sm' => (sm', Ok tt) | None => (s', Err (Storage "journal")) end
            = (s, Ok tt)). by rewrite Hr.
  - intros s z b. apply (default_captures (λ sm, Ok (@bin_ser _ journal_bytes sm))).
Qed.

Abbreviation node := (Driver Mem.MemoryLogStore MemoryHardStateStore journal).
Definition fail_waiters (from to : N) (msg : string) (d : node) : node := fail_range from to msg d.

Definition start (n : RaftNode) : node :=
  mkDriver _ _ _ _ _ n Mem.new cached_default [] ∅ [] None 64 [].
Definition world : Type := gmap N node.

Inductive Move : Type :=
| MTick (x : N) (times : nat)
| MClient (x : N) (command : bytes) (w : N)
| MQuery (x : N) (query : bytes) (w : N)
(** The last request [x] sent to [y] is delivered; its reply is lost or not. *)
| MCall (x y : N) (answered : bool).

Fixpoint tick_times (k : nat) (d : node) : option node :=
  match k with
  | O => Some d
  | S k => '(d, _) ← loop_turn fail_waiters EvTick d; tick_times k d
  end.

Definition request_event (m : OutboundMessage) : option DriverEvent :=
  match m with
  | MsgVoteRequest r => Some (EvVote r)
  | MsgPreVoteRequest r => Some (EvPreVote r)
  | MsgFetchRequest r => Some (EvFetch r)
  | _ => None
  end.
(** What the router makes of the reply of peer [y]. *)
Definition reply_result (y : N) (r : Reply) : option OutboundResult :=
  match r with
  | RpVote (Ok r) => Some (ResVote y r)
  | RpPreVote (Ok r) => Some (ResPreVote y r)
  | RpFetch (Ok r) => Some (ResFetch y r)
  | RpVote (Err e) | RpPreVote (Err e) | RpFetch (Err e) => Some (ResError y (SendFailed e))
  | RpNone => None
  end.
Definition last_sent (x : node) (y : N) : option DriverEvent :=
  last (omap (λ e, match e with
                   | Dispatched to m => if decide (to = y) then request_event m else None
                   | _ => None
                   end) (d_sent x)).

Definition play (m : Move) (ws : world) : option world :=
  match m with
  | MTick x k => d ← ws !! x; d ← tick_times k d; Some (<[x := d]> ws)
  | MClient x b w => d ← ws !! x; '(d, _) ← loop_turn fail_waiters (EvClient b w) d; Some (<[x := d]> ws)
  | MQuery x q w => d ← ws !! x; '(d, _) ← loop_turn fail_waiters (EvQuery q w) d; Some (<[x := d]> ws)
  | MCall x y answered =>
      dx ← ws !! x; dy ← ws !! y; ev ← last_sent dx y;
      '(dy, r) ← loop_turn fail_waiters ev dy;
      let ws := <[y := dy]> ws in
      if answered then
        res ← reply_result y r;
        '(dx, _) ← loop_turn fail_waiters (EvOutbound res) dx;
        Some (<[x := dx]> ws)
      else Some ws
  end.
Fixpoint play_all (ms : list Move) (ws : world) : option world :=
  match ms with
  | [] => Some ws
  | m :: ms => ws ← play m ws; play_all ms ws
  end.

Definition world0 : world := {[1 := start node1; 2 := start node2; 3 := start node3]}.
Definition applied (ws : world) (x : N) : journal := default [] (d_state_machine <$> ws !! x).
Definition sent (ws : world) (x : N) : list Effect := default [] (d_sent <$> ws !! x).

(** ** Two logs committed *)

(** Node 2 leads and appends a command it never replicates; node 1 takes over
    in the next term, replicates to node 3 and commits.  When node 2 fetches,
    it names the epoch of its own entry, which node 1 does not have. *)
Definition divergent_script : list Move :=
  [MTick 2 22; MCall 2 3 true; MCall 2 3 true; MClient 2 [Byte.x0a] 1;
   MTick 1 22; MCall 1 3 true; MTick 1 40; MCall 1 3 true; MCall 1 3 true; MCall 1 2 true; MClient 1 [Byte.x0b] 2;
   MTick 2 1; MCall 2 1 true; MCall 2 1 true; MTick 2 6; MCall 2 1 true; MCall 2 1 true].

(** C27: Two nodes can apply different commands at the same index, and the
    client of one is told that its command is committed: asked about an epoch
    it does not know, the leader reports its own log end as the point of
    divergence; the follower truncates nothing, fetches again from there with
    the leader's epoch, and the leader counts that as an acknowledgement of
    entries the follower does not have. *)
Theorem divergent_logs_committed :
  ∃ ws, play_all divergent_script world0 = Some ws ∧
    (2, [Byte.x0b]) ∈ applied ws 1 ∧ Proposed 2 (Ok 2) ∈ sent ws 1 ∧ (2, [Byte.x0a]) ∈ applied ws 2.
Proof.
  assert (match play_all divergent_script world0 with
          | Some ws => existsb (λ e, match e with Proposed 2 (Ok 2) => true | _ => false end) (sent ws 1) &&
                       bool_decide ((2, [Byte.x0b]) ∈ applied ws 1) && bool_decide ((2, [Byte.x0a]) ∈ applied ws 2)
          | None => false
          end = true) as H by by vm_compute.
  destruct (play_all _ _) as [ws|]; [|done]. exists ws.
  apply andb_true_iff in H as [[Hp H1%bool_decide_eq_true]%andb_true_iff H2%bool_decide_eq_true].
  split_and!; [done|done| |done]. apply existsb_exists in Hp as (e & He & Hm). 
  apply list_elem_of_In in He. revert Hm. by repeat case_match.
Qed.

(** ** A read of the past *)

Definition leased (self : N) : node := start (boot (base self three [] <| enable_leader_lease := true |>)).
Definition leased_world : world := {[1 := leased 1; 2 := leased 2; 3 := leased 3]}.

(** Node 1 commits a command with node 2; node 2, which has not heard that it
    is committed, wins the next election and takes a read. *)
Definition stale_script : list Move :=
  [MTick 1 22; MCall 1 3 true; MCall 1 3 true; MClient 1 [Byte.x0a] 1; MTick 2 10; MCall 2 1 true;
   MTick 2 10; MCall 2 1 true; MTick 2 6; MCall 2 1 false; MTick 2 22; MCall 2 3 true; MCall 2 3 true;
   MQuery 2 [] 7; MTick 3 6; MCall 3 2 true].

(** A read confirmed by a quorum can still miss a committed command: the
    read index of a deferred read is the leader's commit index, and a new
    leader takes reads before it has committed an entry of its own term, when
    that index may be behind what an earlier leader committed.  The client is
    told [2] is committed, and the later read answers from the empty state. *)
Theorem deferred_read_stale :
  ∃ ws, play_all stale_script leased_world = Some ws ∧
    Proposed 1 (Ok 2) ∈ sent ws 1 ∧ Answered 7 (Ok []) ∈ sent ws 2 ∧ (2, [Byte.x0a]) ∉ applied ws 2.
Proof.
  assert (match play_all stale_script leased_world with
          | Some ws => existsb (λ e, match e with Proposed 1 (Ok 2) => true | _ => false end) (sent ws 1) &&
                       existsb (λ e, match e with Answered 7 (Ok []) => true | _ => false end) (sent ws 2) &&
                       bool_decide ((2, [Byte.x0a]) ∉ applied ws 2)
          | None => false
          end = true) as H by by vm_compute.
  destruct (play_all _ _) as [ws|]; [|done]. exists ws.
  apply andb_true_iff in H as [[Hp Hq]%andb_true_iff Ha%bool_decide_eq_true].
  apply existsb_exists in Hp as (e & He%list_elem_of_In & Hm).
  apply existsb_exists in Hq as (e' & He'%list_elem_of_In & Hm').
  split_and!; [done| | |done].
  - revert Hm. by repeat case_match.
  - revert Hm'. by repeat case_match.
Qed.
