(* ===== verification/DriverLog.v ===== *)
(** * The engine's log tail and the store's log

    The engine keeps the index and term of the end of its log in memory and
    emits actions for the driver to carry out; the driver appends, flushes,
    truncates, and after a truncation tells the engine where the log ends
    now.  The theorem says that after every turn of the loop both agree. *)

From S2P Require Import Prelude CoreTypes Message Text Config ElectionTimer RaftNode NodeFacts NodeInvariant LogStore MemoryLog BTree WalCodec DirIo FileLog SnapshotStore SnapshotTransfer ServeFetch HardStore StateMachine Driver ReadFrame DriverFacts DriverRuns Concrete.

(** ** What one input does to the tail *)

Section Engine.
Context {MA : MembershipApi} {RA : RngApi} {HI : HashIter}.
Implicit Types n : RaftNode.

Definition tail n : N * N := (last_log_index n, last_log_term n).

Record kept n n' : Prop := mkKept {
  kp_tail : tail n' = tail n;
  kp_meta : last_snapshot_meta n' = last_snapshot_meta n;
}.
#[export] Instance kept_refl : Reflexive kept.
Proof. done. Qed.
#[export] Instance kept_trans : Transitive kept.
Proof. intros n1 n2 n3 [] []. split; congruence. Qed.

(** Entries with indices that never fall, from [i] on. *)
Fixpoint onward (i : N) (es : list Entry) : Prop :=
  match es with
  | [] => True
  | e :: es => i ≤ e_index e ∧ onward (e_index e) es
  end.

Definition is_append (a : Action) : bool := match a with AppendEntries _ => true | _ => false end.
(** Actions after which the log ends where it did. *)
Definition calm (a : Action) : Prop :=
  match a with AppendEntries _ | TruncateLog _ | ServeFetch _ _ _ _ _ _ _ => False | _ => True end.

(** The tail stays and nothing is appended, though the log may be cut; or one
    batch is appended, and its last entry is the new tail. *)
Inductive moves n n' : list Action → Prop :=
| mv_calm acts : kept n n' → Forall calm acts → moves n n' acts
| mv_one pre a post :
    kept n n' → Forall calm pre → Forall calm post → is_append a = false → moves n n' (pre ++ a :: post)
| mv_append pre es e post :
    Forall calm pre → Forall calm post → last es = Some e → onward (last_log_index n) es →
    tail n' = (e_index e, e_term e) → u64 (e_index e) → last_snapshot_meta n' = last_snapshot_meta n →
    moves n n' (pre ++ AppendEntries es :: post).

Lemma moves_none n n' : kept n n' → moves n n' [].
Proof. intros. by apply mv_calm. Qed.
Lemma moves_single n n' a : kept n n' → is_append a = false → moves n n' [a].
Proof. intros. by apply (mv_one _ _ [] a []). Qed.
Lemma moves_before n0 n n' pre acts :
  kept n0 n → Forall calm pre → moves n n' acts → moves n0 n' (pre ++ acts).
Proof.
  intros Hk Hp [acts' Hk' Hc|pre' a post Hk' H1 H2 Ha|pre' es e post H1 H2 Hl Ho Ht Hu Hm].
  - apply mv_calm; [by etrans|by apply Forall_app].
  - rewrite app_assoc. apply mv_one; try done; [by etrans|by apply Forall_app].
  - rewrite app_assoc. destruct Hk as [Hk1 Hk2]. injection Hk1 as Hi _.
    apply (mv_append _ _ _ _ e); try done; [by apply Forall_app|by rewrite <-Hi|congruence].
Qed.
Lemma moves_after n n1 n' acts post :
  moves n n1 acts → kept n1 n' → Forall calm post → moves n n' (acts ++ post).
Proof.
  intros Hm Hk Hp. destruct Hm as [acts' Hk' Hc|pre' a post' Hk' H1 H2 Ha|pre' es e post' H1 H2 Hl Ho Ht Hu Hm].
  - apply mv_calm; [by etrans|by apply Forall_app].
  - rewrite <-app_assoc, <-app_comm_cons. apply mv_one; try done; [by etrans|by apply Forall_app].
  - rewrite <-app_assoc, <-app_comm_cons. destruct Hk as [Hk1 Hk2].
    apply (mv_append _ _ _ _ e); try done; [by apply Forall_app|congruence..].
Qed.

(** ** Shared steps *)

Lemma quiet_calm acts : Forall quiet acts → Forall calm acts.
Proof. intros Hq. eapply Forall_impl; [exact Hq|]. by intros []. Qed.
Lemma advance_kept n n' acts : advance_and_drain n = (n', acts) → kept n n' ∧ Forall calm acts.
Proof. intros (c & a & f & -> & _ & _ & _ & Hq & _)%advance_and_drain_shape. split; [done|by apply quiet_calm]. Qed.
Lemma drain_kept n n' acts : drain_apply_pipeline n = (n', acts) → kept n n' ∧ Forall calm acts.
Proof.
  intros Hd. split; [by apply drain_shape in Hd as (f & -> & _)|]. by eapply quiet_calm, drain_quiet.
Qed.
Lemma follower_kept t l n n' acts : become_follower t l n = (n', acts) → kept n n' ∧ Forall calm acts.
Proof.
  intros (_ & _ & _ & _ & _ & _ & _ & _ & _ & _ & _ & Hi & Ht & _ & Hm & _ & _ & _ & _ & _ & ->)%become_follower_fields.
  split; [split; unfold tail; congruence|]. apply Forall_app. split; [case_decide|case_match]; by repeat constructor.
Qed.
Lemma follower_moves t l n n' acts : become_follower t l n = (n', acts) → moves n n' acts.
Proof. intros [? ?]%follower_kept. by apply mv_calm. Qed.

Lemma leader_moves n n' acts : u64 (last_log_index n) → become_leader n = (n', acts) → moves n n' acts.
Proof.
  intros Hu. unfold become_leader. destruct (advance_and_drain (leader_state n)) as [n1 d] eqn:E.
  intros [<- <-]%pair_inv. apply advance_kept in E as [Hk Hc]. eapply moves_after; [|exact Hk|exact Hc].
  apply (mv_append _ _ [BecomeLeader] _ (mkEntry (last_log_index (leader_state n)) (last_log_term (leader_state n)) NoOp) []);
    try done; [by repeat constructor|split; [|done]|].
  - unfold leader_state. cbn. by apply sat_add_le.
  - unfold leader_state. cbn. apply sat_add_u64.
Qed.
Lemma broadcast_calm n m : Forall calm (broadcast n m).
Proof. apply Forall_forall. by intros a ([i p] & -> & _)%list_elem_of_fmap. Qed.
Lemma candidate_moves n n' acts : u64 (last_log_index n) → become_candidate n = (n', acts) → moves n n' acts.
Proof.
  intros Hu. unfold become_candidate.
  assert (kept n (candidate_state n)) as Hk by done.
  assert (∀ m, Forall calm ([PersistHardState] ++ broadcast (candidate_state n) m)) as Hc.
  { intros m. constructor; [done|apply broadcast_calm]. }
  destruct (has_election_quorum _).
  - destruct (become_leader _) as [n1 a] eqn:E. intros [<- <-]%pair_inv. rewrite app_assoc.
    eapply moves_before; [exact Hk|apply Hc|]. by eapply leader_moves.
  - intros [<- <-]%pair_inv. apply mv_calm; [done|]. rewrite app_nil_r. apply Hc.
Qed.
Lemma pre_candidate_moves n n' acts : u64 (last_log_index n) → become_pre_candidate n = (n', acts) → moves n n' acts.
Proof.
  intros Hu. unfold become_pre_candidate. assert (kept n (pre_candidate_state n)) as Hk by done.
  destruct (has_pre_election_quorum _).
  - destruct (become_candidate _) as [n1 a] eqn:E. intros [<- <-]%pair_inv.
    eapply moves_before; [exact Hk|apply broadcast_calm|]. by eapply candidate_moves.
  - intros [<- <-]%pair_inv. apply mv_calm; [done|]. rewrite app_nil_r. apply broadcast_calm.
Qed.

(** ** Replication *)

Lemma windows_onward e es : windows_ok e es = true → u64 (e_index e) → onward (e_index e) es.
Proof.
  revert e. induction es as [|e' es IH]; intros e Hw Hu; [done|].
  simpl in Hw. apply andb_true_iff in Hw as [Hw Hw']. apply andb_true_iff in Hw as [Hi%bool_decide_eq_true _].
  pose proof (sat_add_le (e_index e) 1 Hu). split; [lia|]. apply IH; [done|]. rewrite Hi. apply sat_add_u64.
Qed.
Lemma batch_onward n es : batch_ok n es = true → u64 (last_log_index n) → onward (last_log_index n) es.
Proof.
  destruct es as [|e es]; [done|]. simpl. intros [Hi%bool_decide_eq_true Hw]%andb_true_iff Hu.
  pose proof (sat_add_le _ 1 Hu). split; [lia|]. apply windows_onward; [done|]. rewrite Hi. apply sat_add_u64.
Qed.
Lemma propagate_kept hw n n' acts : propagate_high_watermark hw n = (n', acts) → kept n n' ∧ Forall calm acts.
Proof.
  unfold propagate_high_watermark. case_decide; [|by intros [<- <-]%pair_inv].
  by intros [[] ?]%drain_kept.
Qed.
Lemma payload_moves resp n n' acts :
  u64 (last_log_index n) → process_fetch_payload resp n = (n', acts) → moves n n' acts.
Proof.
  intros Hu. unfold process_fetch_payload, accept_entries.
  destruct (frs_snapshot_redirect resp); [intros [<- <-]%pair_inv; by apply moves_single|].
  destruct (frs_diverging_epoch resp); [intros [<- <-]%pair_inv; apply (mv_one _ _ []); by repeat constructor|].
  destruct (last (frs_entries resp)) as [e|] eqn:Hl.
  - destruct (batch_ok n (frs_entries resp)) eqn:Hb; cbn [negb]; [|intros [<- <-]%pair_inv; by apply moves_none].
    destruct (propagate_high_watermark _ _) as [n1 d] eqn:E. intros [<- <-]%pair_inv.
    apply propagate_kept in E as [[Ht Hm] Hc].
    apply (mv_append _ _ [] _ e); try done; [by apply batch_onward|by apply (batch_ok_last n (frs_entries resp))].
  - intros [? ?]%propagate_kept. by apply mv_calm.
Qed.
Lemma adopt_kept l n n' acts : adopt_leader l n = (n', acts) → kept n n' ∧ Forall calm acts.
Proof.
  unfold adopt_leader. destruct (role n); try by apply follower_kept.
  all: destruct (leader_id n); by intros [<- <-]%pair_inv.
Qed.
Lemma fetch_response_moves resp n n' acts :
  u64 (last_log_index n) → handle_fetch_response resp n = (n', acts) → moves n n' acts.
Proof.
  intros Hu. unfold handle_fetch_response. do 4 (case_match; [intros [<- <-]%pair_inv; by apply moves_none|]).
  destruct (if decide (term n < _) then _ else _) as [m1 a1] eqn:E1.
  assert (kept n m1 ∧ Forall calm a1) as [Hk1 Hc1].
  { case_decide; [by eapply follower_kept|]. by apply pair_inv in E1 as [<- <-]. }
  clear E1. destruct (decide (role m1 = Leader)); [intros [<- <-]%pair_inv; by apply mv_calm|].
  destruct (match leader_id m1 with Some _ => _ | None => _ end); [intros [<- <-]%pair_inv; by apply mv_calm|].
  destruct (adopt_leader _ m1) as [m2 a2] eqn:E2. apply adopt_kept in E2 as [Hk2 Hc2].
  destruct (process_fetch_payload _ _) as [m3 a3] eqn:E3. intros [<- <-]%pair_inv.
  eapply moves_before; [exact Hk1|exact Hc1|]. eapply moves_before; [exact Hk2|exact Hc2|].
  assert (last_log_index m2 = last_log_index n) as Hi.
  { destruct Hk1 as [Ht1 _], Hk2 as [Ht2 _]. unfold tail in *. congruence. }
  eapply moves_before with (pre := []); [| |eapply payload_moves; [|exact E3]]; [done|done|]. cbn. by rewrite Hi.
Qed.
Lemma propose_moves cmd n n' acts :
  u64 (last_log_index n) → handle_client_propose cmd n = (n', acts) → moves n n' acts.
Proof.
  intros Hu. unfold handle_client_propose. case_decide; [intros [<- <-]%pair_inv; by apply moves_none|].
  destruct (advance_and_drain _) as [m1 d] eqn:E. apply advance_kept in E as [Hk Hc]. intros [<- <-]%pair_inv.
  eapply (moves_after _ _ _ [_]); [|exact Hk|exact Hc].
  apply (mv_append _ _ [] _ (mkEntry (sat_add (last_log_index n) 1) (term n) (Command cmd)) []); try done.
  - split; [by apply sat_add_le|done].
  - apply sat_add_u64.
Qed.
Lemma acked_kept r o n n' acts :
  handle_fetch_request_acked r o n = (n', acts) → kept n n' ∧ Forall calm acts.
Proof.
  unfold handle_fetch_request_acked. case_decide; [by intros [<- <-]%pair_inv|].
  destruct (_ && _); [by intros [<- <-]%pair_inv|]. by intros [[] ?]%advance_kept.
Qed.
Lemma fetch_request_moves req n n' acts : handle_fetch_request req n = (n', acts) → moves n n' acts.
Proof.
  unfold handle_fetch_request. case_decide; [intros [<- <-]%pair_inv; by apply moves_none|].
  destruct (is_self _ _); [intros [<- <-]%pair_inv; by apply moves_none|].
  destruct (_ && _); [intros [<- <-]%pair_inv; by apply moves_none|].
  case_decide; [apply follower_moves|].
  do 2 (case_decide; [intros [<- <-]%pair_inv; by apply moves_none|]).
  destruct (last_snapshot_meta _); [case_decide|]; intros [<- <-]%pair_inv; by apply moves_single.
Qed.

(** ** Votes *)

Lemma vote_request_moves req n n' acts : handle_vote_request req n = (n', acts) → moves n n' acts.
Proof.
  unfold handle_vote_request. do 2 (case_decide; [intros [<- <-]%pair_inv; by apply moves_none|]).
  destruct (negb _); [intros [<- <-]%pair_inv; by apply moves_none|].
  case_decide; [intros [<- <-]%pair_inv; by apply moves_single|].
  set (m := if bool_decide _ then adopt_vote_term _ n else n).
  assert (kept n m) as Hm by (subst m; by case_bool_decide). clearbody m.
  intros [<- <-]%pair_inv. apply mv_calm.
  - etrans; [exact Hm|]. by destruct (would_grant req m), (bool_decide (vote m ≠ _)).
  - apply Forall_app; split; [by apply Forall_if|].
    apply Forall_app; split; [by apply Forall_if|by repeat constructor].
Qed.
Lemma vote_response_moves from resp n n' acts :
  u64 (last_log_index n) → handle_vote_response from resp n = (n', acts) → moves n n' acts.
Proof.
  intros Hu. unfold handle_vote_response. case_decide; [intros [<- <-]%pair_inv; by apply moves_none|].
  destruct (negb _); [intros [<- <-]%pair_inv; by apply moves_none|].
  case_decide; [apply follower_moves|]. case_decide; [intros [<- <-]%pair_inv; by apply moves_none|].
  destruct (vrs_vote_granted resp); [|intros [<- <-]%pair_inv; by apply moves_none].
  set (m := n <| votes_received := _ |>). destruct (has_election_quorum m); [|intros [<- <-]%pair_inv; by apply moves_none].
  intros Hl. eapply (moves_before _ m _ []); [done..|]. by apply leader_moves.
Qed.
Lemma pre_vote_response_moves from resp n n' acts :
  u64 (last_log_index n) → handle_pre_vote_response from resp n = (n', acts) → moves n n' acts.
Proof.
  intros Hu. unfold handle_pre_vote_response. case_decide; [intros [<- <-]%pair_inv; by apply moves_none|].
  destruct (negb _); [intros [<- <-]%pair_inv; by apply moves_none|].
  case_decide; [apply follower_moves|]. case_decide; [intros [<- <-]%pair_inv; by apply moves_none|].
  destruct (pvs_vote_granted resp); [|intros [<- <-]%pair_inv; by apply moves_none].
  set (m := n <| pre_votes_received := _ |>).
  destruct (has_pre_election_quorum m); [|intros [<- <-]%pair_inv; by apply moves_none].
  intros Hl. eapply (moves_before _ m _ []); [done..|]. by apply candidate_moves.
Qed.

(** ** Ticks *)

Lemma check_quorum_kept n n' o : check_quorum_tick n = (n', o) → kept n n' ∧ Forall calm (default [] o).
Proof.
  unfold check_quorum_tick. destruct (_ && _); [|by intros [<- <-]%pair_inv].
  case_decide; [|by intros [<- <-]%pair_inv].
  destruct (check_quorum_reachable _); [by intros [<- <-]%pair_inv|].
  destruct (become_follower _ _ _) as [m a] eqn:E. intros [<- <-]%pair_inv.
  by apply follower_kept in E as [[] ?].
Qed.
Lemma tick_moves n n' acts : u64 (last_log_index n) → RaftNode.handle_tick n = (n', acts) → moves n n' acts.
Proof.
  intros Hu. unfold RaftNode.handle_tick. set (m0 := n <| logical_tick := _ |> <| election_timer := _ |>).
  destruct (schedule_fetch m0) as [m1 f] eqn:E1. apply schedule_fetch_shape in E1 as [[v ->] Hf].
  assert (Forall calm f) as Hfc by (apply Forall_forall; by intros a (to & req & ->)%Hf).
  destruct (check_quorum_tick _) as [m2 o] eqn:E2. apply check_quorum_kept in E2 as [Hk Ho].
  assert (kept n m2) as Hk2 by (destruct Hk; by split).
  destruct o as [a|]; [intros [<- <-]%pair_inv; apply mv_calm; [done|by apply Forall_app]|].
  destruct (negb _); [intros [<- <-]%pair_inv; by apply mv_calm|].
  destruct (role m2); try (intros [<- <-]%pair_inv; by apply mv_calm).
  all: destruct (become_pre_candidate m2) as [m3 a3] eqn:E3; intros [<- <-]%pair_inv;
    (eapply moves_before; [exact Hk2|exact Hfc|]); eapply pre_candidate_moves; [|exact E3];
    destruct Hk2 as [Ht _]; unfold tail in Ht; injection Ht as -> _; done.
Qed.

(** Whatever the input, but for the snapshots the driver takes or installs. *)
Definition no_snapshot (i : Input) : Prop :=
  match i with InSnapshotComplete _ | InSnapshotInstalled _ => False | _ => True end.
Lemma step_moves i n n' acts :
  no_snapshot i → u64 (last_log_index n) → step i n = (n', acts) → moves n n' acts.
Proof.
  intros Hi Hu. destruct i; cbn [step]; try done.
  - by apply tick_moves.
  - apply vote_request_moves.
  - by apply vote_response_moves.
  - intros [<- <-]%pair_inv. apply mv_calm; [done|]. unfold handle_pre_vote_request.
    repeat (case_match; [done|]). by repeat constructor.
  - by apply pre_vote_response_moves.
  - apply fetch_request_moves.
  - by apply fetch_response_moves.
  - by apply propose_moves.
  - intros [? ?]%acked_kept. by apply mv_calm.
  - unfold handle_fetch_snapshot_received. case_decide; intros [<- <-]%pair_inv; [by apply moves_none|by apply moves_single].
Qed.
Lemma outbound_moves res n n' acts :
  u64 (last_log_index n) → handle_outbound_result res n = (n', acts) → moves n n' acts.
Proof.
  intros Hu. destruct res; cbn [handle_outbound_result]; try by apply step_moves.
  - case_decide; [intros [<- <-]%pair_inv; by apply moves_none|]. case_decide; [apply follower_moves|].
    repeat (case_decide; [intros [<- <-]%pair_inv; by apply moves_none|]).
    destruct metadata; [by apply step_moves|intros [<- <-]%pair_inv; by apply moves_none].
  - intros [<- <-]%pair_inv. by apply moves_none.
Qed.
End Engine.

(** ** What the driver needs of its log store *)

(** Of calls that succeed: an append of entries that go on from the last index
    ends the log at the last of them, a flush leaves the end where it is, and
    a suffix truncation never moves it up. *)
Class LogTipLaws {MA : MembershipApi} (St : Type) (A : LogStoreApi St) (good : St → Prop) : Prop := {
  lt_append es e s s' :
    good s → last es = Some e → onward (ls_last_index s) es → ls_append es s = (s', Ok tt) →
    good s' ∧ ls_last_index s' = e_index e ∧ ls_last_term s' = e_term e;
  lt_flush s s' : good s → ls_flush s = (s', Ok tt) →
    good s' ∧ ls_last_index s' = ls_last_index s ∧ ls_last_term s' = ls_last_term s;
  lt_truncate i s s' : good s → ls_truncate_from i s = (s', Ok tt) →
    good s' ∧ ls_last_index s' ≤ ls_last_index s;
}.

Section Driver.
Context {MA : MembershipApi} {RA : RngApi} {HI : HashIter} {CR : Crc32}
  {St : Type} {LA : LogStoreApi St} {HS : Type} {HA : HardStateStore HS} {SM : Type} {SA : StateMachine SM}.
Context {good : St → Prop} {TL : LogTipLaws St LA good}.
#[local] Abbreviation driver := (Driver St HS SM).
Implicit Types d : driver.

(** The end of the log as the driver serves it, and as the engine has it. *)
Definition tip d : N * N := effective_log_tip (d_node d) (d_log_store d).
Definition in_step d : Prop := tip d = tail (d_node d).
Definition sane d : Prop := good (d_log_store d) ∧ u64 (last_log_index (d_node d)).

(** Neither end moves. *)
Definition unmoved d d' : Prop := d_log_store d' = d_log_store d ∧ kept (d_node d) (d_node d').
#[export] Instance unmoved_refl : Reflexive unmoved.
Proof. done. Qed.
#[export] Instance unmoved_trans : Transitive unmoved.
Proof. intros d1 d2 d3 [? ?] [? ?]. split; [congruence|by etrans]. Qed.
Lemma unmoved_tip d d' : unmoved d d' → tip d' = tip d ∧ tail (d_node d') = tail (d_node d).
Proof. intros [Hs [Ht Hm]]. split; [|done]. unfold tip, effective_log_tip. by rewrite Hs, Hm. Qed.
Lemma unmoved_sane d d' : unmoved d d' → sane d → sane d'.
Proof.
  intros [Hs [Ht _]] [Hg Hu]. unfold sane. rewrite Hs. split; [done|].
  unfold tail in Ht. injection Ht as -> _. done.
Qed.
Lemma unmoved_in_step d d' : unmoved d d' → in_step d → in_step d'.
Proof. intros [Ht Hn]%unmoved_tip. unfold in_step. by rewrite Ht, Hn. Qed.

Lemma unmoved_resolve i r d : unmoved d (resolve_waiters_at i r d).
Proof. unfold resolve_waiters_at. by destruct (d_pending d !! i). Qed.
Lemma unmoved_foldl {A} (f : driver → A → driver) (l : list A) d :
  (∀ d a, unmoved d (f d a)) → unmoved d (foldl f d l).
Proof.
  intros Hf. revert d. induction l as [|a l IH]; intros d; [done|]. cbn. etrans; [apply Hf|apply IH].
Qed.

Context (fail_waiters_in_range : N → N → string → driver → driver).
Context (fails_waiters : ∀ a b m d, unmoved d (fail_waiters_in_range a b m d)).

Lemma unmoved_apply_entries to es d d' r :
  apply_entries fail_waiters_in_range to es d = (d', r) → unmoved d d'.
Proof using fails_waiters.
  clear TL. revert d. induction es as [|e es IH]; intros d; cbn; [by intros [<- _]%pair_inv|].
  destruct (e_payload e) as [b| | |];
    [|intros Hrun; etrans; [apply unmoved_resolve|by eapply IH]..].
  destruct (sm_apply _ _ _) as [sm [x|x]]; cbn.
  - intros Hrun%IH. etrans; [|exact Hrun]. etrans; [|apply unmoved_resolve]. done.
  - intros [<- _]%pair_inv. etrans; [|apply fails_waiters]. done.
Qed.
Lemma unmoved_apply from to d d' r :
  apply_committed fail_waiters_in_range from to d = Some (d', r) → unmoved d d'.
Proof using fails_waiters.
  clear TL. unfold apply_committed. case_decide; [by intros [= <- _]|]. case_decide; [by intros [= <- _]|].
  destruct (ls_get_range _ _ _) as [es|]; [|done]. cbn. intros [= Hrun].
  assert (∀ m, unmoved d (fail_range from to m d)) as Hf by (intros m; apply unmoved_foldl; intros; apply unmoved_resolve).
  case_decide; [apply pair_inv in Hrun as [<- _]; apply Hf|].
  destruct (negb _); [apply pair_inv in Hrun as [<- _]; apply Hf|].
  by eapply unmoved_apply_entries.
Qed.

(** ** One action *)

(** It stops the driver, or goes on as [P] says. *)
Definition goes (P : After → driver → Prop) (x : driver * CapturedResponse * After) : Prop :=
  match x.2 with Break => d_halt_reason x.1.1 ≠ None | _ => P x.2 x.1.1 end.
Lemma goes_impl (P Q : After → driver → Prop) x : (∀ a d, P a d → Q a d) → goes P x → goes Q x.
Proof. intros HPQ. unfold goes. destruct x.2; auto. Qed.
Lemma halt_reason m c d : d_halt_reason (halt m c d).1 ≠ None.
Proof. cbn. by destruct (d_halt_reason d). Qed.

Lemma exec_calm origin a c d x :
  calm a → exec_action fail_waiters_in_range origin a c d = Some x →
  goes (λ after d', after = Next ∧ unmoved d d') x.
Proof using fails_waiters.
  clear TL. intros Ha. destruct a; try done; cbn [exec_action].
  - intros [= <-]. unfold persist_action. destruct (persist _ _) as [hs [u|e]]; [by split|apply halt_reason].
  - intros [= <-]. unfold send_action. case_decide; [|by split]. repeat case_match; by split.
  - unfold apply_action. destruct (apply_committed _ _ _ _) as [[d1 r]|] eqn:E; [|done]. cbn [mbind option_bind].
    apply unmoved_apply in E. destruct r; intros [= <-]; [by split|apply halt_reason].
  - by intros [= <-].
  - by intros [= <-].
  - intros [= <-]. unfold redirect_action, reply_fetch. by case_decide.
Qed.

(** The driver cuts and reads the new end back. *)
Lemma truncate_in_step i c d :
  sane d → in_step d →
  goes (λ after d', after = Next ∧ sane d' ∧ in_step d') (truncate_suffix_action i c d).
Proof using TL.
  clear fails_waiters. intros [Hg Hu] Hin. unfold truncate_suffix_action.
  destruct (ls_truncate_from i (d_log_store d)) as [l [[]|e]] eqn:Et; [|apply halt_reason].
  apply lt_truncate in Et as [Hg1 Hle]; [|done].
  destruct (ls_flush _) as [l2 [[]|e]] eqn:Ef; [|apply halt_reason]. cbn in Ef.
  apply lt_flush in Ef as (Hg2 & Hi & Ht); [|done].
  destruct (effective_log_tip _ _) as [eff_index eff_term] eqn:Ee. cbn in Ee.
  split; [done|]. split; [split; [done|]|].
  - cbn. unfold in_step, tip, tail, effective_log_tip in Hin. unfold effective_log_tip in Ee.
    destruct (last_snapshot_meta (d_node d)) as [m|]; [repeat case_decide|];
      simplify_eq; unfold u64 in *; lia.
  - unfold in_step, tip. cbn. exact Ee.
Qed.

Lemma append_in_step es e c d :
  sane d → last es = Some e → onward (tip d).1 es → tail (d_node d) = (e_index e, e_term e) →
  goes (λ after d', after = Next ∧ sane d' ∧ in_step d') (append_action es c d).
Proof using TL.
  clear fails_waiters. intros [Hg Hu] Hl Ho Htl. unfold append_action.
  assert (onward (ls_last_index (d_log_store d)) es ∧
    ∀ m, last_snapshot_meta (d_node d) = Some m → last_included_index m ≤ e_index e) as [Ho' Hm].
  { assert (∀ i j, j ≤ i → onward i es → onward j es ∧ i ≤ e_index e) as Hmono.
    { clear -Hl. revert Hl. induction es as [|x es IH]; intros Hl i j Hji; [done|].
      intros [Hx Hes]. split; [split; [lia|done]|]. destruct es as [|y es]; [by injection Hl as <-|].
      destruct (IH Hl (e_index x) (e_index x)) as [_ ?]; [lia|done|lia]. }
    unfold tip, effective_log_tip in Ho. destruct (last_snapshot_meta (d_node d)) as [m|];
      [|by split; [|done]].
    case_decide; cbn in Ho.
    - destruct (Hmono (last_included_index m) (ls_last_index (d_log_store d)) ltac:(lia) Ho). split; [done|]. by intros ? [= <-].
    - destruct (Hmono (ls_last_index (d_log_store d)) (last_included_index m) ltac:(lia) Ho). split; [exact Ho|]. intros ? [= <-]. lia. }
  destruct (ls_append es (d_log_store d)) as [l [[]|x]] eqn:Ea; [|apply halt_reason].
  apply (lt_append es e) in Ea as (Hg1 & Hi1 & Ht1); [|done..].
  destruct (ls_flush _) as [l2 [[]|x]] eqn:Ef; [|apply halt_reason]. cbn in Ef.
  apply lt_flush in Ef as (Hg2 & Hi2 & Ht2); [|done].
  split; [done|]. split; [by split|]. unfold in_step, tip. cbn. rewrite Htl.
  unfold effective_log_tip. rewrite Hi2, Ht2, Hi1, Ht1.
  destruct (last_snapshot_meta (d_node d)) as [m|]; [|done]. specialize (Hm m eq_refl). by rewrite decide_False by lia.
Qed.

(** ** The worklist *)

(** The actions still to be carried out: none that changes the log, one that
    does not append, or the append that brings the log to the engine's tail. *)
Inductive pending d : list Action → Prop :=
| pd_calm acts : in_step d → Forall calm acts → pending d acts
| pd_one pre a post :
    in_step d → Forall calm pre → Forall calm post → is_append a = false → pending d (pre ++ a :: post)
| pd_append pre es e post :
    Forall calm pre → Forall calm post → last es = Some e → onward (tip d).1 es →
    tail (d_node d) = (e_index e, e_term e) → pending d (pre ++ AppendEntries es :: post).

(** A step leaves the work to be done. *)
Lemma moves_pending d n acts :
  sane d → in_step d → moves (d_node d) n acts →
  let d' := d <| d_node := n |> in sane d' ∧ pending d' acts.
Proof using TL.
  clear fails_waiters. intros [Hg Hu] Hin Hm d'.
  assert (∀ n', kept (d_node d) n' → unmoved d (d <| d_node := n' |>)) as Hun by done.
  destruct Hm as [acts Hk Hc|pre a post Hk Hp1 Hp2 Ha|pre es e post Hp1 Hp2 Hl Ho Ht Hue Hmeta].
  - specialize (Hun _ Hk). split; [by eapply unmoved_sane|]. apply pd_calm; [by eapply unmoved_in_step|done].
  - specialize (Hun _ Hk). split; [by eapply unmoved_sane|]. apply pd_one; [by eapply unmoved_in_step|done..].
  - split.
    + split; [done|]. unfold tail in Ht. injection Ht as Hi _. subst d'. cbn. by rewrite Hi.
    + apply (pd_append _ _ _ e); try done. unfold in_step, tip, effective_log_tip, tail in *. subst d'. cbn.
      rewrite Hmeta, Hin. done.
Qed.

(** The first of them: one that leaves the log alone, one that does not append
    and has only such after it, or the append. *)
Lemma pending_cons d a acts :
  pending d (a :: acts) →
  (calm a ∧ ∀ d', unmoved d d' → pending d' acts) ∨
  (is_append a = false ∧ in_step d ∧ Forall calm acts) ∨
  (∃ es e, a = AppendEntries es ∧ last es = Some e ∧ onward (tip d).1 es ∧
     tail (d_node d) = (e_index e, e_term e) ∧ Forall calm acts).
Proof using TL.
  clear fails_waiters. intros Hp. remember (a :: acts) as l eqn:El.
  destruct Hp as [acts' Hi Hc|pre b post Hi H1 H2 Hna|pre es e post H1 H2 Hl Ho Ht]; subst.
  - apply Forall_cons in Hc as [Ha Hc]. left. split; [done|]. intros d' Hun.
    apply pd_calm; [by eapply unmoved_in_step|done].
  - destruct pre as [|x pre]; cbn in El; injection El as -> Hacts; [right; left; by subst|].
    apply Forall_cons in H1 as [Ha H1]. left. split; [done|]. intros d' Hun. subst acts.
    apply pd_one; [by eapply unmoved_in_step|done..].
  - destruct pre as [|x pre]; cbn in El; injection El as Hx Hacts; subst acts.
    + right; right. by exists es, e.
    + subst x. apply Forall_cons in H1 as [Ha H1]. left. split; [done|]. intros d' [Htip Htl]%unmoved_tip.
      apply (pd_append _ _ _ e); try done; [by rewrite Htip|by rewrite Htl].
Qed.

(** What an action must leave: the work after it, or first the nested list. *)
Definition left_with acts (after : After) d : Prop :=
  match after with
  | Nested follow => sane d ∧ pending d follow ∧ Forall calm acts
  | _ => sane d ∧ pending d acts
  end.

Lemma serve_pending origin to cl ep l hw off lfe c d acts x :
  sane d → in_step d → Forall calm acts →
  serve_action origin to cl ep l hw off lfe c d = Some x → goes (left_with acts) x.
Proof using TL.
  clear fails_waiters. intros Hs Hi Hc. unfold serve_action.
  destruct (materialize_fetch_response _ _ _ _ _ _ _ _ _) as [r|]; [|done]. cbn [mbind option_bind].
  assert (unmoved d (reply_fetch origin to r c d).1) as Hr by (unfold reply_fetch; by case_decide).
  destruct (reply_fetch origin to r c d) as [d1 c1]. cbn in Hr.
  pose proof (unmoved_sane _ _ Hr Hs) as Hs1. pose proof (unmoved_in_step _ _ Hr Hi) as Hi1.
  intros [= <-]. destruct (bool_decide _); [|split; [done|by apply pd_calm]].
  destruct (handle_fetch_request_acked _ _ _) as [n follow] eqn:E.
  apply (step_moves (InFetchRequestAcked _ _)) in E; [|done|apply Hs1].
  destruct (moves_pending d1 n follow Hs1 Hi1 E) as [? ?]. unfold goes. by split_and!.
Qed.

(** One action of the worklist. *)
Lemma exec_pending origin a acts c d x :
  sane d → pending d (a :: acts) → exec_action fail_waiters_in_range origin a c d = Some x →
  goes (left_with acts) x.
Proof using TL fails_waiters.
  intros Hs Hp Hx.
  assert (calm a → (∀ d', unmoved d d' → pending d' acts) → goes (left_with acts) x) as Hcalm.
  { intros Ha Hrest. eapply goes_impl; [|by eapply exec_calm]. intros after d' [-> Hun].
    split; [by eapply unmoved_sane|by apply Hrest]. }
  assert (∀ after d', after = Next ∧ sane d' ∧ in_step d' → Forall calm acts → left_with acts after d') as Hnext.
  { intros after d' (-> & ? & ?) ?. split; [done|by apply pd_calm]. }
  apply pending_cons in Hp as [[Ha Hrest]|[(Hna & Hi & Hc)|(es & e & -> & Hl & Ho & Ht & Hc)]]; [by apply Hcalm| |].
  - destruct a; try done; try (apply Hcalm; [done|]; intros d' Hun; apply pd_calm; [by eapply unmoved_in_step|done]).
    + cbn [exec_action] in Hx. by eapply serve_pending.
    + destruct t as [i|]; [|done]. cbn [exec_action] in Hx. injection Hx as <-.
      eapply goes_impl; [|by apply truncate_in_step]. auto.
  - cbn [exec_action] in Hx. injection Hx as <-. eapply goes_impl; [|by eapply append_in_step]. auto.
Qed.

Lemma process_in_step fuel origin acts c d d' c' :
  process fail_waiters_in_range fuel origin acts c d = Some (d', c') →
  sane d → pending d acts → d_halt_reason d' = None → sane d' ∧ in_step d'.
Proof using TL fails_waiters.
  revert acts c d d' c'. induction fuel as [|fuel IH]; intros acts c d d' c'; [done|].
  destruct acts as [|a acts]; cbn [process].
  { intros [= <- <-] Hs Hp _. split; [done|]. remember [] as l eqn:El. destruct Hp; [done|by destruct pre..]. }
  destruct (exec_action _ _ _ _ _) as [[[d1 c1] after]|] eqn:E; [|done]. cbn [mbind option_bind].
  intros Hrun Hs Hp Hh. apply (exec_pending _ _ acts) in E; [|done..]. unfold goes, left_with in E. cbn [fst snd] in E.
  destruct after as [| |follow].
  - by injection Hrun as <- <-.
  - destruct E. by eapply IH.
  - destruct E as (Hs1 & Hp1 & Hc).
    destruct (process _ fuel _ follow _ _) as [[d2 c2]|] eqn:E2; [|done]. cbn [mbind option_bind] in Hrun.
    destruct (d_halt_reason d2) eqn:H2; [injection Hrun as <- <-; congruence|].
    destruct (IH _ _ _ _ _ E2 Hs1 Hp1 H2) as [Hs2 Hi2]. eapply IH; [exact Hrun|done|by apply pd_calm|done].
Qed.

(** ** Events *)

Lemma step_in_step n acts origin d0 d d' c :
  sane d0 → in_step d0 → moves (d_node d0) n acts → d_node d = n → d_log_store d = d_log_store d0 →
  process_actions fail_waiters_in_range acts origin d = Some (d', c) → d_halt_reason d' = None →
  sane d' ∧ in_step d'.
Proof using TL fails_waiters.
  intros Hs Hi Hm Hn Hst Hrun Hh. destruct (moves_pending d0 n acts Hs Hi Hm) as [Hs1 Hp1].
  assert (unmoved (d0 <| d_node := n |>) d) as Hun by (split; [done|by subst n]).
  eapply process_in_step; [exact Hrun|by eapply unmoved_sane| |done].
  destruct (unmoved_tip _ _ Hun) as [Ht Htl]. cbn in Hp1.
  destruct Hp1 as [acts' Hin Hc|pre a post Hin H1 H2 Ha|pre es e post H1 H2 Hl Ho Htail].
  - apply pd_calm; [by eapply unmoved_in_step|done].
  - apply pd_one; [by eapply unmoved_in_step|done..].
  - apply (pd_append _ _ _ e); try done; [by rewrite Ht|by rewrite Htl].
Qed.

Lemma event_in_step ev d d' r :
  handle_event fail_waiters_in_range ev d = Some (d', r) → d_halt_reason d' = None →
  sane d → in_step d → sane d' ∧ in_step d'.
Proof using TL fails_waiters.
  intros Hrun Hh Hs Hi.
  assert (∀ i o c, no_snapshot i → step_and_process fail_waiters_in_range i o d = Some (d', c) → sane d' ∧ in_step d') as Hstep.
  { intros i o c Hni. unfold step_and_process. destruct (step i (d_node d)) as [n acts] eqn:E. intros Hp.
    refine (step_in_step n acts o d (d <| d_node := n |>) _ c Hs Hi _ eq_refl eq_refl Hp Hh). apply (step_moves i); [done|apply Hs|done]. }
  destruct ev; cbn [Driver.handle_event] in Hrun; revert Hrun.
  - unfold handle_inbound_vote. destruct (step_and_process _ _ _ _) as [[d1 c]|] eqn:E; [|done]. intros [= -> _]. by eapply Hstep in E.
  - unfold handle_inbound_pre_vote. destruct (step_and_process _ _ _ _) as [[d1 c]|] eqn:E; [|done]. intros [= -> _]. by eapply Hstep in E.
  - unfold handle_inbound_fetch. destruct (step_and_process _ _ _ _) as [[d1 c]|] eqn:E; [|done]. intros [= -> _]. by eapply Hstep in E.
  - unfold handle_client_command. case_decide; [by intros [= <- _]|].
    destruct (step _ _) as [n acts] eqn:E. apply (step_moves (InClientPropose command)) in E; [|done|apply Hs]. set (d0 := if _ && _ then _ else _).
    assert (d_node d0 = n ∧ d_log_store d0 = d_log_store d) as [Hn Hst] by by (unfold d0; destruct (_ && _)).
    destruct (process_actions _ _ _ _) as [[d1 c]|] eqn:Ep; [|done]. intros [= -> _].
    exact (step_in_step n acts None d _ _ c Hs Hi E Hn Hst Ep Hh).
  - intros [= <- _]. unfold handle_client_query. case_decide; [done|]. destruct (_ || _); [done|]. by case_decide.
  - unfold handle_outbound. destruct (handle_outbound_result _ _) as [n acts] eqn:E. apply outbound_moves in E; [|apply Hs].
    destruct (process_actions _ _ _ _) as [[d1 c]|] eqn:Ep; [|done]. intros [= -> _].
    exact (step_in_step n acts None d (d <| d_node := n |>) _ c Hs Hi E eq_refl eq_refl Ep Hh).
  - unfold Driver.handle_tick. destruct (step_and_process _ _ _ _) as [[d1 c]|] eqn:E; [|done]. intros [= -> _]. by eapply Hstep in E.
Qed.

Lemma run_in_step evs d d' :
  run_events fail_waiters_in_range evs d = Some d' → d_halt_reason d' = None →
  sane d → in_step d → sane d' ∧ in_step d'.
Proof using TL fails_waiters.
  intros Hrun Hh'. revert d Hrun. induction evs as [|ev evs IH]; intros d; cbn [run_events]; [by intros [= <-]|].
  unfold loop_turn at 1. destruct (handle_event _ ev d) as [[dm r]|] eqn:E; [|done]. cbn [mbind option_bind].
  destruct (drain_spec dm) as (es & left & Hdr & _). set (dt := drain_pending_reads dm) in *.
  assert (unmoved dm dt ∧ d_halt_reason dt = d_halt_reason dm) as [Hun Hhm] by by rewrite Hdr.
  destruct (d_halt_reason dt) eqn:Ht; [intros [= ->]; congruence|]. intros Hrun Hs Hi.
  destruct (event_in_step _ _ _ _ E (eq_sym Hhm) Hs Hi) as [Hs1 Hi1].
  eapply IH; [exact Hrun|by eapply unmoved_sane|by eapply unmoved_in_step].
Qed.

(** C23: The engine and the driver agree on where the log ends: start a driver
    whose engine has in memory the last index and term of the log it serves
    (of the store, or of the snapshot that covers more), and let it handle any
    events, whatever peers and clients send; as long as no fatal error has
    stopped it, and no action of the snapshot arms was reached, the store's
    log ends exactly at the engine's last index with the engine's last term,
    after elections, appends of proposals and of fetched batches, and
    truncations of a divergent suffix alike. Needed of the store: a successful
    append ends the log at the last entry, a flush leaves its end, a
    truncation does not raise it. *)
Theorem engine_tail_is_log_tip evs d d' :
  run_events fail_waiters_in_range evs d = Some d' → d_halt_reason d' = None →
  good (d_log_store d) → u64 (last_log_index (d_node d)) →
  effective_log_tip (d_node d) (d_log_store d) = (last_log_index (d_node d), last_log_term (d_node d)) →
  effective_log_tip (d_node d') (d_log_store d') = (last_log_index (d_node d'), last_log_term (d_node d')).
Proof using TL fails_waiters.
  intros Hrun Hh Hg Hu Hi. by apply (run_in_step evs d d' Hrun Hh).
Qed.
End Driver.

(** ** Both stores satisfy it *)

Section Stores.
Context {MA : MembershipApi}.

Lemma onward_weaken i j es : j ≤ i → onward i es → onward j es.
Proof. destruct es; [done|]. intros ? [? ?]. split; [lia|done]. Qed.
Lemma onward_app i l es : onward i l → onward (match last l with Some e => e_index e | None => i end) es → onward i (l ++ es).
Proof.
  revert i. induction l as [|e l IH]; intros i; [done|]. intros [Hi Hl] Hes. split; [done|]. apply IH; [done|].
  rewrite last_cons in Hes. by destruct (last l).
Qed.
Lemma onward_filter (P : Entry → Prop) `{∀ e, Decision (P e)} i l : onward i l → onward i (filter P l).
Proof.
  revert i. induction l as [|e l IH]; intros i; [done|]. intros [Hi Hl]. rewrite filter_cons. case_decide.
  - split; [done|]. by apply IH.
  - apply IH. by eapply onward_weaken.
Qed.
Lemma onward_last i l e x : onward i l → last l = Some e → x ∈ l → e_index x ≤ e_index e.
Proof.
  revert i x. induction l as [|y l IH]; intros i x; [done|]. intros [Hi Hl] He Hx.
  destruct l as [|z l]; [injection He as ->; by apply list_elem_of_singleton in Hx as ->|].
  apply elem_of_cons in Hx as [->|Hx]; [|by eapply IH].
  assert (z ∈ z :: l) as Hz by by left. pose proof (IH _ _ Hl He Hz). destruct Hl. lia.
Qed.

(** The in-memory store, whose entries are in the order of their indices. *)
#[export] Instance memory_tip_laws :
  LogTipLaws Mem.MemoryLogStore Mem.api (λ s, onward 0 (Mem.entries s)).
Proof.
  split; cbn.
  - intros es e s s' Hg Hl Ho Ha. unfold Mem.append in Ha. destruct (existsb _ _); [done|]. injection Ha as <-.
    unfold Mem.last_index, Mem.last_term in *. cbn. rewrite last_app, Hl. split; [|done].
    by apply onward_app.
  - intros s s' Hg [= <-]. done.
  - intros i s s' Hg [= <-]. cbn. split; [by apply onward_filter|]. unfold Mem.last_index. cbn.
    destruct (last (filter _ _)) as [x|] eqn:Hx; [|lia].
    apply last_Some_elem_of, list_elem_of_filter in Hx as [_ Hx].
    destruct (last (Mem.entries s)) as [e|] eqn:He; [by eapply onward_last|].
    apply last_None in He. rewrite He in Hx. by apply not_elem_of_nil in Hx.
Qed.

(** ** The file store: what its programs do to the table of entries *)

Context {BV : Bincode VoterSet} {CR : Crc32}.
Implicit Types s : FileLogStore.

(** When it succeeds, [m] turns the entries as [R] says. *)
Definition turns {A} (m : io FileLogStore A) (R : gmap N Entry → gmap N Entry → Prop) : Prop :=
  ∀ w w' a, m w = (w', Ok a) → R (entries w.1) (entries w'.1).
Definition alike : relation (gmap N Entry) := λ x y, y = x.

Lemma turns_bind {A B} (m : io FileLogStore A) (k : A → io FileLogStore B) R1 R2 (R : gmap N Entry → gmap N Entry → Prop) :
  turns m R1 → (∀ a, turns (k a) R2) → (∀ x y z, R1 x y → R2 y z → R x z) → turns (io_bind m k) R.
Proof.
  intros Hm Hk HR w w' b. unfold io_bind. destruct (m w) as [w1 [a|e]] eqn:E; [|done].
  intros Hb. eapply HR; [by eapply Hm|by eapply Hk].
Qed.
Lemma alike_bind {A B} (m : io FileLogStore A) (k : A → io FileLogStore B) R :
  turns m alike → (∀ a, turns (k a) R) → turns (io_bind m k) R.
Proof. intros Hm Hk. eapply turns_bind; [done..|]. by intros x y z ->. Qed.
Lemma bind_alike {A B} (m : io FileLogStore A) (k : A → io FileLogStore B) R :
  turns m R → (∀ a, turns (k a) alike) → turns (io_bind m k) R.
Proof. intros Hm Hk. eapply turns_bind; [done..|]. by intros x y z ? ->. Qed.
Lemma turns_gets {A} (g : FileLogStore → A) : turns (gets g) alike.
Proof. by intros w w' a [= <- _]. Qed.
Lemma turns_modify g (R : gmap N Entry → gmap N Entry → Prop) :
  (∀ s, R (entries s) (entries (g s))) → turns (modify g) R.
Proof. intros Hg w w' a [= <-]. apply Hg. Qed.
Lemma turns_ret {A} (a : A) : turns (io_ret a) alike.
Proof. by intros w w' b [= <- _]. Qed.
Lemma turns_err {A} msg R : turns (io_err msg : io FileLogStore A) R.
Proof. by intros w w' b. Qed.
Lemma turns_call (op : walop) : turns (call op) alike.
Proof.
  intros [s f] w' a. unfold call. destruct f as [[[|k] cut]|]; [done|..];
    (destruct (op_apply op (dir_of s)); [|done]; by intros [= <- _]).
Qed.
Lemma turns_for_each {A} (f : A → io FileLogStore unit) l : (∀ a, turns (f a) alike) → turns (for_each f l) alike.
Proof. intros Hf. induction l as [|a l IH]; [apply turns_ret|]. by apply alike_bind. Qed.
Hint Resolve turns_gets turns_ret turns_call turns_err alike_bind turns_for_each : turns.
Lemma turns_keep (g : FileLogStore → FileLogStore) : (∀ s, entries (g s) = entries s) → turns (modify g) alike.
Proof. intros Hg. by apply turns_modify. Qed.

Lemma turns_persist_file name data : turns (persist_file name data) alike.
Proof. unfold persist_file. auto 10 with turns. Qed.
Lemma turns_checkpoint : turns persist_epoch_checkpoint alike.
Proof. apply alike_bind; [apply turns_gets|]. intros. apply turns_persist_file. Qed.
Lemma turns_create base : turns (create_segment base) alike.
Proof. apply alike_bind; [apply turns_call|]. intros _. by apply turns_keep. Qed.
Lemma turns_ensure base n : turns (ensure_segment base n) alike.
Proof.
  apply alike_bind; [apply turns_gets|]. intros r. apply alike_bind.
  - destruct r; [|apply turns_ret]. apply alike_bind; [apply turns_gets|]. intros w.
    apply alike_bind; [destruct w; auto with turns|]. intros _.
    apply alike_bind; [by apply turns_keep|]. intros _. apply turns_create.
  - intros _. apply alike_bind; [apply turns_gets|]. intros [b|]; [apply turns_ret|apply turns_create].
Qed.
Lemma turns_append_one e : turns (append_one e) (λ x y, y = <[e_index e := e]> x).
Proof.
  unfold append_one. case_match; [apply turns_err|]. case_match; [|apply turns_err].
  apply alike_bind; [apply turns_ensure|]. intros _. apply alike_bind; [apply turns_gets|]. intros s.
  destruct (active_writer s); [|apply turns_err]. apply alike_bind; [apply turns_call|]. intros _.
  apply bind_alike; [by apply turns_modify|]. intros _. case_match; [apply turns_checkpoint|apply turns_ret].
Qed.

Lemma last_key_max (l : list (N * Entry)) p q :
  StronglySorted key_lt l → last l = Some p → q ∈ l → q.1 ≤ p.1.
Proof.
  intros Hs. revert q. induction Hs as [|x l Hs IH Hall]; intros q; [done|]. rewrite last_cons. intros Hl.
  rewrite Forall_forall in Hall. unfold key_lt in Hall.
  destruct (last l) as [z|] eqn:Hz; [injection Hl as ->|].
  - pose proof (Hall p (last_Some_elem_of _ _ Hz)). intros [->|Hq]%elem_of_cons; [lia|by apply IH].
  - apply last_None in Hz as ->. injection Hl as ->. by intros ->%list_elem_of_singleton.
Qed.
Lemma last_pair_is (m : gmap N Entry) k e :
  m !! k = Some e → (∀ k' e', m !! k' = Some e' → k' ≤ k) → last_pair m = Some (k, e).
Proof.
  intros Hk Hm. unfold last_pair. apply elem_of_in_order in Hk.
  destruct (last (in_order m)) as [[k' e']|] eqn:Hl; [|apply last_None in Hl; rewrite Hl in Hk; by apply not_elem_of_nil in Hk].
  pose proof (last_key_max _ _ _ (in_order_sorted m) Hl Hk) as Hle. cbn in Hle.
  apply last_Some_elem_of, elem_of_in_order in Hl. apply elem_of_in_order in Hk.
  pose proof (Hm _ _ Hl). assert (k' = k) as -> by lia. congruence.
Qed.
(** The greatest key, zero without one. *)
Definition top_key (m : gmap N Entry) : N := match last_pair m with Some p => p.1 | None => 0 end.
Lemma top_key_max (m : gmap N Entry) k e : m !! k = Some e → k ≤ top_key m.
Proof.
  intros Hk%elem_of_in_order. unfold top_key, last_pair. destruct (last (in_order m)) as [p|] eqn:Hl.
  - exact (last_key_max _ _ _ (in_order_sorted m) Hl Hk).
  - apply last_None in Hl. rewrite Hl in Hk. by apply not_elem_of_nil in Hk.
Qed.
Lemma top_key_submap (x y : gmap N Entry) : y ⊆ x → top_key y ≤ top_key x.
Proof.
  intros Hsub. unfold top_key at 1. destruct (last_pair y) as [[k e]|] eqn:Hl; [|lia].
  apply last_Some_elem_of, elem_of_in_order in Hl. cbn. by eapply top_key_max, lookup_weaken.
Qed.

Lemma turns_append es :
  turns (append es) (λ x y, (es = [] → y = x) ∧
    ∀ i e, (∀ k v, x !! k = Some v → k ≤ i) → onward i es → last es = Some e → last_pair y = Some (e_index e, e)).
Proof.
  unfold append. induction es as [|e es IH]; cbn [for_each]; [by intros w w' a [= <- _]|].
  eapply turns_bind; [apply turns_append_one|by intros _|]. intros x y z -> [Hn Hz]. split; [done|].
  intros i l Hx [Hi Ho] Hl.
  assert (∀ k v, <[e_index e:=e]> x !! k = Some v → k ≤ e_index e) as Hmax.
  { intros k v [[-> _]|[_ Hk%Hx]]%lookup_insert_Some; lia. }
  destruct es as [|e' es]; [|by eapply Hz]. injection Hl as <-. rewrite Hn by done.
  apply last_pair_is; [by rewrite lookup_insert_eq|done].
Qed.

Lemma turns_truncate i : turns (truncate_from i) (λ x y, y ⊆ x).
Proof.
  assert (∀ {A} (m : io FileLogStore A), turns m alike → turns m (λ x y, y ⊆ x)) as Hsame
    by (intros A m Hm w w' a H; by rewrite (Hm _ _ _ H)).
  unfold truncate_from. apply alike_bind; [apply turns_gets|]. intros offs.
  destruct (range_first offs i) as [[? [seg_idx byte_offset]]|]; [|by apply Hsame, turns_call].
  apply alike_bind; [apply turns_persist_file|]. intros _. apply alike_bind; [by apply turns_keep|]. intros _.
  apply alike_bind; [apply turns_gets|]. intros segs.
  apply alike_bind; [apply turns_for_each; intros; apply turns_call|]. intros _.
  destruct (segs !! seg_idx) as [b|]; [|apply turns_err].
  do 2 (apply alike_bind; [apply turns_call|]; intros _). apply alike_bind; [by apply turns_keep|]. intros _.
  apply alike_bind.
  { apply alike_bind; [apply turns_gets|]. intros sg. destruct (last sg); [|apply turns_ret].
    case_match; [|apply turns_ret]. apply alike_bind; [apply turns_call|]. intros _. by apply turns_keep. }
  intros _. apply bind_alike; [apply turns_modify; intros s; cbn; apply map_filter_subseteq|]. intros _.
  apply alike_bind; [by apply turns_keep|]. intros _. apply alike_bind; [apply turns_checkpoint|]. intros _.
  apply alike_bind; [|intros _; apply turns_call].
  apply alike_bind; [apply turns_gets|]. intros sg. destruct (last sg); [|by apply turns_keep].
  apply alike_bind; [apply turns_call|]. intros _. by apply turns_keep.
Qed.
Lemma turns_run {A} (m : io FileLogStore A) R s s' a : turns m R → DirIo.run m s = (s', Ok a) → R (entries s) (entries s').
Proof.
  intros Hm. unfold DirIo.run. destruct (m (s, None)) as [[s1 f] r] eqn:E. intros [= -> ->]. by apply Hm in E.
Qed.

(** The file store, whatever is in its directory. *)
#[export] Instance file_tip_laws : LogTipLaws FileLogStore file_api (λ _, True).
Proof.
  split; cbn.
  - intros es e s s' _ Hl Ho Ha. apply (turns_run _ _ _ _ _ (turns_append es)) in Ha as [_ Ha].
    assert (last_pair (entries s') = Some (e_index e, e)) as Hp.
    { apply (Ha (last_index s) e); [|done..]. intros k v. apply top_key_max. }
    split; [done|]. unfold last_index, last_term, values. rewrite Hp. split; [done|].
    unfold last_pair in Hp. by rewrite fmap_last, Hp.
  - intros s s' _ Hf. assert (turns (@flush MA) alike) as Hfl.
    { apply alike_bind; [apply turns_gets|]. intros [b|]; [apply turns_call|apply turns_ret]. }
    apply (turns_run _ _ _ _ _ Hfl) in Hf. unfold last_index, last_term. by rewrite Hf.
  - intros i s s' _ Ht. split; [done|]. apply (turns_run _ _ _ _ _ (turns_truncate i)) in Ht.
    by apply top_key_submap.
Qed.
End Stores.

(** ** A run *)

Import Concrete.
#[local] Existing Instance Mem.api.

Lemma unmoved_fail_range a b m (d : node) : unmoved d (fail_range a b m d).
Proof. apply unmoved_foldl. intros. apply unmoved_resolve. Qed.

(** Node 2 is elected and appends a command; a leader of the next term has it
    cut the command off, then sends its own entry. *)
Definition cut_events : list DriverEvent :=
  replicate 22 EvTick ++
  [EvOutbound (ResPreVote 3 (mkPreVoteResponse "c" 0 0 true None)); EvOutbound (ResVote 3 (grant 1));
   EvClient [Byte.x0a] 1;
   EvOutbound (ResFetch 1 (mkFetchResponse "c" 2 1 0 [] (Some (mkDivergingEpoch 1 1)) None true));
   EvOutbound (ResFetch 1 (mkFetchResponse "c" 2 1 1 [mkEntry 2 2 NoOp] None None true))].

Lemma engine_tail_is_log_tip_witness :
  ∃ d1 d' : node, run_events fail_waiters (take 25 cut_events) (start node2) = Some d1 ∧
    tail (d_node d1) = (2, 1) ∧
    run_events fail_waiters cut_events (start node2) = Some d' ∧ d_halt_reason d' = None ∧
    tail (d_node d') = (2, 2) ∧
    effective_log_tip (d_node d') (d_log_store d') = (last_log_index (d_node d'), last_log_term (d_node d')).
Proof.
  assert (match run_events fail_waiters (take 25 cut_events) (start node2) with
          | Some d => bool_decide (tail (d_node d) = (2, 1)) | None => false end = true) as H1
    by vm_cast_no_check (eq_refl true).
  assert (match run_events fail_waiters cut_events (start node2) with
          | Some d => bool_decide (d_halt_reason d = None ∧ tail (d_node d) = (2, 2)) | None => false end = true) as H2
    by vm_cast_no_check (eq_refl true).
  destruct (run_events fail_waiters (take 25 cut_events) (start node2)) as [d1|]; [|discriminate H1].
  destruct (run_events fail_waiters cut_events (start node2)) as [d'|] eqn:Hd'; [|discriminate H2].
  apply bool_decide_eq_true in H1, H2. destruct H2 as [Hh Ht]. exists d1, d'.
  split; [reflexivity|]. split; [exact H1|]. split; [reflexivity|]. split; [exact Hh|]. split; [exact Ht|].
  apply (engine_tail_is_log_tip (good := λ s, onward 0 (Mem.entries s)) fail_waiters unmoved_fail_range
           cut_events (start node2) d' Hd' Hh); [exact I|vm_compute; discriminate|reflexivity].
Defined.
