(* ===== verification/DriverSafety.v ===== *)
(** * Guarantees of the driver

    Every proposal and every read is answered at most once, and a deferred
    read is answered only after a quorum's fetches. *)

From S2P Require Import Prelude CoreTypes Message Text Config ElectionTimer RaftNode NodeFacts LogStore MemoryLog BTree WalCodec SnapshotStore SnapshotTransfer ServeFetch HardStore StateMachine Timing Driver ReadFrame DriverFacts DriverRuns Concrete.

Section Safety.
Context {MA : MembershipApi} {RA : RngApi} {HI : HashIter} {CR : Crc32}
  {St : Type} {LA : LogStoreApi St} {HS : Type} {HA : HardStateStore HS} {SM : Type} {SA : StateMachine SM}.
#[local] Abbreviation driver := (Driver St HS SM).
Implicit Types d : driver.
Context (fail_waiters_in_range : N → N → string → driver → driver).
Context (fails_waiters : ∀ a b m d, settles d (fail_waiters_in_range a b m d)).
#[local] Abbreviation handle_event := (handle_event fail_waiters_in_range).
#[local] Abbreviation loop_turn := (loop_turn fail_waiters_in_range).
#[local] Abbreviation run_events := (run_events fail_waiters_in_range).

(** ** One event *)

(** The driver with the engine stepped. *)
Definition stepped (n : RaftNode) d : driver := d <| d_node := n |>.

Lemma step_and_process_inv i origin d d' c :
  step_and_process fail_waiters_in_range i origin d = Some (d', c) →
  ∃ n acts, step i (d_node d) = (n, acts) ∧ settles (stepped n d) d'.
Proof using fails_waiters.
  unfold step_and_process, process_actions. destruct (step i (d_node d)) as [n acts].
  intros H%settles_process; [|done]. eauto.
Qed.

Definition asked_proposals (ev : DriverEvent) : list N := match ev with EvClient _ w => [w] | _ => [] end.
Definition asked_reads (ev : DriverEvent) : list N := match ev with EvQuery _ w => [w] | _ => [] end.
Definition fetcher (ev : DriverEvent) : list N := match ev with EvFetch req => [frq_replica_id req] | _ => [] end.

(** The balance of an event: what is sent and what stays open. *)
Record balance (props reads : list N) d d' : Prop := mkBalance {
  bl_sent : ∃ es, d_sent d' = d_sent d ++ es ∧
    omap prop_of es ++ waiting d' ≡ₚ props ++ waiting d ∧
    omap read_of es ++ deferred d' ≡ₚ reads ++ deferred d;
}.
Lemma settles_balance n d d' : settles (stepped n d) d' → balance [] [] d d'.
Proof. intros [(es & Hs & _ & Hp & Hq) _ _]. split. by exists es. Qed.
Lemma balance_trans p1 r1 p2 r2 d1 d2 d3 :
  balance p1 r1 d1 d2 → balance p2 r2 d2 d3 → balance (p1 ++ p2) (r1 ++ r2) d1 d3.
Proof.
  intros [(e1 & Hs1 & Hp1 & Hq1)] [(e2 & Hs2 & Hp2 & Hq2)]. split. exists (e1 ++ e2).
  rewrite Hs2, Hs1, app_assoc, !omap_app. split_and!; [done|..].
  - rewrite <-app_assoc, Hp2, app_assoc, (Permutation_app_comm _ p2), <-app_assoc, Hp1. solve_Permutation.
  - rewrite <-app_assoc, Hq2, app_assoc, (Permutation_app_comm _ r2), <-app_assoc, Hq1. solve_Permutation.
Qed.

Lemma client_balance command w d d' :
  handle_client_command fail_waiters_in_range command w d = Some d' → balance [w] [] d d'.
Proof using fails_waiters.
  unfold handle_client_command, process_actions. case_decide as Hr.
  { intros [= <-]. split. by exists [Proposed w (Err (NotLeader (leader_id (d_node d))))]. }
  destruct (step _ _) as [n acts]. set (d1 := d <| d_node := n |>).
  set (d2 := if bool_decide _ && _ then _ else _). intros H.
  assert (balance [w] [] d d2) as Hd2.
  { unfold d2. destruct (bool_decide _ && _); split; [exists []|eexists [_]; split; [done|by cbn]].
    split; [by rewrite app_nil_r|]. split; [|done]. cbn [omap list_omap app]. unfold waiting. cbn [d_pending].
    set (i := last_log_index n). change (d_pending d1) with (d_pending d).
    cbn. rewrite <-insert_delete_eq.
    rewrite map_to_list_insert by apply lookup_delete_eq. cbn.
    destruct (d_pending d !! i) as [ws|] eqn:Hi; cbn.
    - rewrite <-(map_to_list_delete (d_pending d) i ws) by done. cbn. by rewrite <-app_assoc, Permutation_middle.
    - by rewrite delete_id by done. }
  destruct (process _ _ _ _ _ d2) as [[d3 c]|] eqn:E; [|done]. injection H as <-.
  apply settles_process in E; [|done]. destruct E as [(es & Hs & _ & Hp & Hq) _ _].
  apply (balance_trans [w] [] [] [] d d2 d3 Hd2). split. by exists es.
Qed.

Lemma query_balance q w d : balance [] [w] d (handle_client_query q w d).
Proof.
  unfold handle_client_query.
  assert (∀ r, balance [] [w] d (send (Answered w r) d)) as Hs.
  { intros r. split. by exists [Answered w r]. }
  case_decide; [done|]. destruct (_ || _); [done|]. case_decide; [done|].
  split. exists []. split; [by rewrite app_nil_r|]. split; [done|]. unfold deferred. cbn.
  rewrite fmap_app. cbn. by rewrite Permutation_app_comm.
Qed.

Lemma event_balance ev d d' r :
  handle_event ev d = Some (d', r) → balance (asked_proposals ev) (asked_reads ev) d d'.
Proof using fails_waiters.
  assert (∀ i o d' c, step_and_process fail_waiters_in_range i o d = Some (d', c) → balance [] [] d d') as Hstep.
  { intros i o d1 c (n & acts & _ & Hs)%step_and_process_inv. by eapply settles_balance. }
  destruct ev; cbn [Driver.handle_event asked_proposals asked_reads].
  - unfold handle_inbound_vote. destruct (step_and_process _ _ _ _) as [[d1 c]|] eqn:E; [|done]. intros [= <- _]. by eapply Hstep.
  - unfold handle_inbound_pre_vote. destruct (step_and_process _ _ _ _) as [[d1 c]|] eqn:E; [|done]. intros [= <- _]. by eapply Hstep.
  - unfold handle_inbound_fetch. destruct (step_and_process _ _ _ _) as [[d1 c]|] eqn:E; [|done]. intros [= <- _]. by eapply Hstep.
  - destruct (handle_client_command _ _ _ _) as [d1|] eqn:E; [|done]. intros [= <- _]. by eapply client_balance.
  - intros [= <- _]. apply query_balance.
  - unfold handle_outbound, process_actions. destruct (handle_outbound_result _ _) as [n acts].
    destruct (process _ _ _ _ _ _) as [[d1 c]|] eqn:E; [|done]. intros [= <- _].
    apply settles_process in E; [|done]. by eapply (settles_balance n).
  - unfold handle_tick. destruct (step_and_process _ _ _ _) as [[d1 c]|] eqn:E; [|done]. intros [= <- _]. by eapply Hstep.
Qed.

Lemma turn_balance ev d d' r :
  loop_turn ev d = Some (d', r) → balance (asked_proposals ev) (asked_reads ev) d d'.
Proof using fails_waiters.
  unfold Driver.loop_turn. destruct (handle_event ev d) as [[d1 r1]|] eqn:E; [|done]. cbn. intros [= <- _].
  apply event_balance in E. rewrite <-(app_nil_r (asked_proposals ev)), <-(app_nil_r (asked_reads ev)).
  eapply balance_trans; [exact E|]. destruct (drain_spec d1) as (es & still & -> & Hp & Hq & _).
  split. exists es. split; [done|]. rewrite Hp. split; [done|exact Hq].
Qed.

Lemma run_balance evs d d' :
  run_events evs d = Some d' →
  ∃ k, (k ≤ length evs)%nat ∧ (d_halt_reason d' = None → k = length evs) ∧
    balance (take k evs ≫= asked_proposals) (take k evs ≫= asked_reads) d d'.
Proof using fails_waiters.
  revert d. induction evs as [|ev evs IH]; intros d; cbn [Driver.run_events].
  { intros [= <-]. exists O. split_and!; [done..|]. split. exists []. by rewrite app_nil_r. }
  destruct (loop_turn ev d) as [[d1 r]|] eqn:E; [|done]. cbn. apply turn_balance in E.
  destruct (d_halt_reason d1) eqn:Hh.
  - intros [= <-]. exists 1%nat. split; [cbn; lia|]. split; [congruence|]. cbn. by rewrite take_0, !app_nil_r.
  - intros (k & Hk & Hhalt & Hb)%IH. exists (S k). split; [cbn; lia|]. split.
    + intros Hn. cbn. by rewrite (Hhalt Hn).
    + cbn. by eapply balance_trans.
Qed.

(** C8: No request is lost and none is answered twice: over any run of the
    loop, the proposals answered and the proposals still waiting are together
    exactly the proposals submitted and those waiting before, each as often;
    and so are the reads answered and the reads still deferred.  Events after
    a fatal error are not taken. *)
Theorem requests_answered_once evs d d' :
  run_events evs d = Some d' →
  ∃ k sent, (d_halt_reason d' = None → k = length evs) ∧ d_sent d' = d_sent d ++ sent ∧
    omap prop_of sent ++ waiting d' ≡ₚ (take k evs ≫= asked_proposals) ++ waiting d ∧
    omap read_of sent ++ deferred d' ≡ₚ (take k evs ≫= asked_reads) ++ deferred d.
Proof using fails_waiters.
  intros (k & _ & Hk & [(es & Hs & Hp & Hq)])%run_balance. by exists k, es.
Qed.

(** ** Deferred reads *)

(** Since the mark [base] only members of [S] have fetched. *)
Definition fetched_since (base : N) (S : list N) (n : RaftNode) : Prop :=
  marks n !! id n = None ∧
  ∀ p s, marks n !! p = Some s → base < s → p ∈ S.

Lemma fetched_same base S n n' : same_marks n n' → fetched_since base S n → fetched_since base S n'.
Proof. intros [Hi _ _ Hm Hs]. unfold fetched_since. by rewrite Hi, Hm. Qed.

(** An engine step: only an accepted fetch adds a member. *)
Lemma fetched_step base S i n n' acts :
  step i n = (n', acts) → fetched_since base S n →
  fetched_since base (S ++ match i with InFetchRequest req => [frq_replica_id req] | _ => [] end) n'.
Proof.
  intros Hs (Hself & Hm).
  destruct (step_marks _ _ _ _ Hs) as [Hsame|(req & -> & (_ & _ & _ & Hne & _) & Hid & _ & _ & _ & Hmk)].
  - apply (fetched_same _ _ n); [done|]. split; [done|]. intros p s Hp Hlt. apply elem_of_app. left. by eapply Hm.
  - unfold fetched_since. rewrite Hid, Hmk. split_and!.
    + by rewrite lookup_alter_ne.
    + intros p s. destruct (decide (frq_replica_id req = p)) as [<-|Hp].
      * intros _ _. apply elem_of_app. right. by left.
      * rewrite lookup_alter_ne by done. intros Hp' Hlt. apply elem_of_app. left. by eapply Hm.
Qed.

Lemma fetched_settles base S d d' :
  settles d d' → fetched_since base S (d_node d) → fetched_since base S (d_node d').
Proof. intros [_ _ Hm]. by apply fetched_same. Qed.

Lemma fetched_outbound base S res n n' acts :
  handle_outbound_result res n = (n', acts) → fetched_since base S n → fetched_since base S n'.
Proof.
  assert (∀ i, (∀ req, i ≠ InFetchRequest req) → step i n = (n', acts) → fetched_since base S n → fetched_since base S n')
    as Hstep.
  { intros i Hi Hs Hf. eapply fetched_step in Hs; [|exact Hf]. destruct i; try by rewrite app_nil_r in Hs. by destruct (Hi r). }
  destruct res; cbn [handle_outbound_result].
  - by apply Hstep.
  - by apply Hstep.
  - by apply Hstep.
  - repeat case_decide; try by intros [<- _]%pair_inv.
    + intros Hb%marks_follower. by apply fetched_same.
    + destruct metadata; [by apply Hstep|by intros [<- _]%pair_inv].
  - by intros [<- _]%pair_inv.
Qed.

(** The part of an event a deferred read [w] sees: the queue only loses reads
    or gains one of another channel, and [w] is not answered yet. *)
Record unanswered (w base : N) (S : list N) d d' : Prop := mkUnanswered {
  un_reads : ∀ q, q ∈ d_pending_reads d' → pr_reply q = w → q ∈ d_pending_reads d;
  un_sent : ∃ es, d_sent d' = d_sent d ++ es ∧ ∀ b, Answered w (Ok b) ∉ es;
  un_fetched T : fetched_since base T (d_node d) → fetched_since base (T ++ S) (d_node d');
}.

Lemma settles_unanswered w base S d d1 d' :
  d_pending_reads d1 = d_pending_reads d → d_sent d1 = d_sent d ∨ (∃ v r, d_sent d1 = d_sent d ++ [Proposed v r]) →
  (∀ T, fetched_since base T (d_node d) → fetched_since base (T ++ S) (d_node d1)) →
  settles d1 d' → unanswered w base S d d'.
Proof.
  intros Hp Hs Hf Hset. split.
  - intros q Hq _. rewrite <-Hp. destruct (st_reads _ _ Hset) as [Heq|Heq]; rewrite Heq in Hq; [done|].
    by apply not_elem_of_nil in Hq.
  - destruct (st_sent _ _ Hset) as (es & He & Href & _). rewrite Forall_forall in Href.
    destruct Hs as [Hs|(v & r & Hs)]; rewrite Hs in He.
    + exists es. split; [done|]. intros b Hb. by apply Href in Hb.
    + exists (Proposed v r :: es). split; [by rewrite He, <-app_assoc|].
      intros b [?|Hb]%elem_of_cons; [done|]. by apply Href in Hb.
  - intros T HT. eapply fetched_settles; [done|]. by apply Hf.
Qed.

Lemma event_unanswered ev d d' r w base :
  handle_event ev d = Some (d', r) → w ∉ asked_reads ev → unanswered w base (fetcher ev) d d'.
Proof using fails_waiters.
  assert (∀ i o d' c, step_and_process fail_waiters_in_range i o d = Some (d', c) →
    unanswered w base (match i with InFetchRequest req => [frq_replica_id req] | _ => [] end) d d') as Hstep.
  { intros i o d1 c (n & acts & Hs & Hset)%step_and_process_inv. eapply settles_unanswered; [| | |exact Hset].
    - done.
    - by left.
    - intros T HT. by eapply fetched_step. }
  destruct ev; cbn [Driver.handle_event asked_reads fetcher].
  - unfold handle_inbound_vote. destruct (step_and_process _ _ _ _) as [[d1 c]|] eqn:E; [|done]. intros [= <- _] _. by eapply Hstep in E.
  - unfold handle_inbound_pre_vote. destruct (step_and_process _ _ _ _) as [[d1 c]|] eqn:E; [|done]. intros [= <- _] _. by eapply Hstep in E.
  - unfold handle_inbound_fetch. destruct (step_and_process _ _ _ _) as [[d1 c]|] eqn:E; [|done]. intros [= <- _] _. by eapply Hstep in E.
  - destruct (handle_client_command _ _ _ _) as [d1|] eqn:E; [|done]. intros [= <- _] _. revert E.
    unfold handle_client_command, process_actions. case_decide.
    + intros [= <-]. split; [done| |by intros T HT; rewrite app_nil_r].
      eexists [_]. split; [done|]. by intros b Hb%list_elem_of_singleton.
    + destruct (step _ _) as [n acts] eqn:Es. destruct (process _ _ _ _ _ _) as [[d2 c]|] eqn:E; [|done].
      intros [= <-]. apply settles_process in E; [|done]. eapply settles_unanswered; [| | |exact E].
      * by destruct (bool_decide _ && _).
      * destruct (bool_decide _ && _); [by left|]. right. by eexists _, _.
      * intros T HT. eapply fetched_step in Es; [|exact HT]. by destruct (bool_decide _ && _).
  - intros [= <- _] Hw. unfold handle_client_query.
    assert (∀ r, unanswered w base [] d (send (Answered w0 r) d)) as Hs.
    { intros r1. split; [done| |by intros T HT; rewrite app_nil_r]. eexists [_]. split; [done|].
      intros b [= <- _]%list_elem_of_singleton. apply Hw. by left. }
    case_decide; [apply Hs|]. destruct (_ || _); [apply Hs|]. case_decide; [apply Hs|].
    split; [|by exists []; rewrite app_nil_r; split; [|intros b ?%not_elem_of_nil]|by intros T HT; rewrite app_nil_r].
    cbn. intros q [Hq|Hq%list_elem_of_singleton]%elem_of_app; [done|]. subst q. cbn. intros <-.
    destruct Hw. by left.
  - unfold handle_outbound, process_actions. destruct (handle_outbound_result _ _) as [n acts] eqn:Eo.
    destruct (process _ _ _ _ _ _) as [[d1 c]|] eqn:E; [|done]. intros [= <- _] _.
    apply settles_process in E; [|done]. eapply settles_unanswered; [| | |exact E]; [done|by left|].
    intros T HT. rewrite app_nil_r. by eapply fetched_outbound.
  - unfold handle_tick. destruct (step_and_process _ _ _ _) as [[d1 c]|] eqn:E; [|done]. intros [= <- _] _. by eapply Hstep in E.
Qed.

Lemma halted_drain d : d_halt_reason (drain_pending_reads d) = d_halt_reason d.
Proof. by destruct (drain_spec d) as (es & still & -> & _). Qed.
Lemma drained_node d : d_node (drain_pending_reads d) = d_node d.
Proof. by destruct (drain_spec d) as (es & still & -> & _). Qed.

(** The turn that answers the read. *)
Lemma answering_turn evs d d' pr T b es :
  fetched_since (pr_read_baseline_seq pr) T (d_node d) →
  (∀ q, q ∈ d_pending_reads d → pr_reply q = pr_reply pr → q = pr) →
  Forall (λ ev, pr_reply pr ∉ asked_reads ev) evs →
  run_events evs d = Some d' → d_sent d' = d_sent d ++ es → Answered (pr_reply pr) (Ok b) ∈ es →
  ∃ before ev after d1 dm r, evs = before ++ ev :: after ∧ run_events before d = Some d1 ∧
    handle_event ev d1 = Some (dm, r) ∧ ripe pr dm ∧ sm_query (pr_query pr) (d_state_machine dm) = Ok b ∧
    fetched_since (pr_read_baseline_seq pr) (T ++ ((before ++ [ev]) ≫= fetcher)) (d_node dm).
Proof using fails_waiters.
  intros HT Hu Hevs. revert d T es HT Hu. induction Hevs as [|ev evs Hev _ IH]; intros d T es HT Hu; cbn [Driver.run_events].
  { intros [= <-] Hs. rewrite <-(app_nil_r (d_sent d)) in Hs at 1. apply app_inv_head in Hs as <-.
    by intros ?%not_elem_of_nil. }
  unfold Driver.loop_turn at 1. destruct (handle_event ev d) as [[dm r]|] eqn:E; [|done]. cbn [mbind option_bind].
  rewrite halted_drain. intros Hrun Hs Hin.
  destruct (event_unanswered _ _ _ _ (pr_reply pr) (pr_read_baseline_seq pr) E Hev) as [Hreads (e1 & He1 & Hn1) Hf].
  specialize (Hf T HT). destruct (drain_spec dm) as (e2 & still & Hdr & _ & _ & Hstill & Hans).
  set (dt := drain_pending_reads dm) in *.
  assert (d_sent dt = d_sent d ++ e1 ++ e2) as Hsent by (rewrite Hdr; cbn; by rewrite He1, <-app_assoc).
  assert (Answered (pr_reply pr) (Ok b) ∈ e2 →
    ∃ before ev0 after d1 dm0 r0, ev :: evs = before ++ ev0 :: after ∧ run_events before d = Some d1 ∧
      handle_event ev0 d1 = Some (dm0, r0) ∧ ripe pr dm0 ∧ sm_query (pr_query pr) (d_state_machine dm0) = Ok b ∧
      fetched_since (pr_read_baseline_seq pr) (T ++ ((before ++ [ev0]) ≫= fetcher)) (d_node dm0)) as Hhere.
  { intros (q & Hq & Hw & Hripe & Hb)%Hans. specialize (Hu q (Hreads q Hq Hw) Hw) as ->.
    exists [], ev, evs, d, dm, r. cbn. rewrite app_nil_r. split_and!; done. }
  destruct (d_halt_reason dm) eqn:Hhalt.
  - injection Hrun as <-. rewrite Hsent in Hs. apply app_inv_head in Hs as <-.
    apply elem_of_app in Hin as [Hin|Hin]; [by apply Hn1 in Hin|by apply Hhere].
  - destruct (run_balance _ _ _ Hrun) as (_ & _ & _ & [(e3 & He3 & _)]).
    rewrite He3, Hsent, <-!app_assoc in Hs. apply app_inv_head in Hs as <-.
    apply elem_of_app in Hin as [Hin|[Hin|Hin]%elem_of_app]; [by apply Hn1 in Hin|by apply Hhere|].
    destruct (IH dt (T ++ fetcher ev) e3) as (before & ev0 & after & d1 & dm0 & r0 & -> & Hb & He & Hr & Hq & Hf0).
    + unfold dt. by rewrite drained_node.
    + intros q Hq Hw. apply Hu; [|done]. apply Hreads; [|done]. apply Hstill. rewrite Hdr in Hq. exact Hq.
    + done.
    + done.
    + done.
    + exists (ev :: before), ev0, after, d1, dm0, r0. split; [done|]. split.
      { cbn [Driver.run_events]. unfold Driver.loop_turn at 1. rewrite E. cbn [mbind option_bind].
        rewrite halted_drain, Hhalt. exact Hb. }
      split_and!; try done. cbn. by rewrite app_assoc.
Qed.

(** A quorum of voters, each the node itself or in [S]. *)
Definition quorum_among (S : list N) (n : RaftNode) : Prop :=
  ∃ vs Q, voter_set n = Some vs ∧ NoDup Q ∧ (quorum_size vs ≤ length Q)%nat ∧
    ∀ y, y ∈ Q → y ∈ voter_ids vs ∧ (y = id n ∨ y ∈ S).

Lemma proof_quorum `{!HashIterLaws HI} base S d :
  has_read_index_quorum_proof base d = true → fetched_since base S (d_node d) → quorum_among S (d_node d).
Proof.
  unfold has_read_index_quorum_proof. intros Hq [Hself Hm].
  destruct (voter_set (d_node d)) as [vs|] eqn:Hv; [|done].
  apply bool_decide_eq_true in Hq.
  assert (peers (d_node d) !! id (d_node d) = None) as Hnone.
  { unfold marks in Hself. rewrite lookup_fmap in Hself. by apply fmap_None in Hself. }
  rewrite count_peers_spec in Hq by done.
  eexists vs, _. split; [done|]. split; [|split; [exact Hq|]].
  { apply NoDup_filter, NoDup_remove_dups. }
  intros y [Hc Hy]%list_elem_of_filter. rewrite elem_of_remove_dups in Hy. split; [done|].
  unfold counted in Hc. apply orb_true_iff in Hc as [Hc%bool_decide_eq_true|Hc]; [by left|]. right.
  destruct (peers (d_node d) !! y) as [ps|] eqn:Hp; [|done]. apply bool_decide_eq_true in Hc.
  eapply Hm; [|exact Hc]. unfold marks. by rewrite lookup_fmap, Hp.
Qed.

(** C26: A deferred read is answered only after confirmation: between the
    moment the leader put the read aside and the turn that answers it, fetches
    were processed from enough distinct voters to form, with the leader, a
    quorum; at that turn the node is leader, has applied what was committed
    when the read arrived, is within the read's deadline, and answers with the
    query's result on its state machine at that moment. *)
Theorem deferred_read_confirmed `{!HashIterLaws HI} evs d d' pr b sent :
  pr_read_baseline_seq pr = fetch_seq (d_node d) →
  (∀ q, q ∈ d_pending_reads d → pr_reply q = pr_reply pr → q = pr) →
  marks (d_node d) !! id (d_node d) = None → (∀ p s, marks (d_node d) !! p = Some s → s ≤ fetch_seq (d_node d)) →
  Forall (λ ev, pr_reply pr ∉ asked_reads ev) evs →
  run_events evs d = Some d' → d_sent d' = d_sent d ++ sent → Answered (pr_reply pr) (Ok b) ∈ sent →
  ∃ before ev after d1 dm r, evs = before ++ ev :: after ∧ run_events before d = Some d1 ∧
    handle_event ev d1 = Some (dm, r) ∧
    role (d_node dm) = Leader ∧ pr_read_index pr ≤ last_applied (d_node dm) ∧
    logical_tick (d_node dm) ≤ pr_deadline_tick pr ∧
    sm_query (pr_query pr) (d_state_machine dm) = Ok b ∧
    quorum_among ((before ++ [ev]) ≫= fetcher) (d_node dm).
Proof using fails_waiters.
  intros Hbase Hu Hself Hmarks Hevs Hrun Hs Hin.
  destruct (answering_turn evs d d' pr [] b sent) as
    (before & ev & after & d1 & dm & r & -> & Hb & He & (Hr & Ht & Hq & Ha) & Hquery & Hf); try done.
  { split; [done|]. intros p s Hp Hlt. specialize (Hmarks p s Hp). lia. }
  exists before, ev, after, d1, dm, r. split_and!; try done. by eapply proof_quorum.
Qed.
End Safety.

(** ** Runs *)

Import Concrete.
#[local] Existing Instance Mem.api.

(** Node 1 elected, with and without the lease read path. *)
Definition elected (w : world) : node :=
  default (start node1) (play_all [MTick 1 22; MCall 1 3 true; MCall 1 3 true] w ≫= lookup 1).
Definition request_events : list DriverEvent := [EvClient [Byte.x0a] 1; EvQuery [] 7; EvTick; EvClient [Byte.x0b] 2].

Lemma requests_answered_once_witness :
  ∃ d', run_events fail_waiters request_events (elected world0) = Some d' ∧
  ∃ k sent, (d_halt_reason d' = None → k = length request_events) ∧ d_sent d' = d_sent (elected world0) ++ sent ∧
    omap prop_of sent ++ waiting d' ≡ₚ (take k request_events ≫= asked_proposals) ++ waiting (elected world0) ∧
    omap read_of sent ++ deferred d' ≡ₚ (take k request_events ≫= asked_reads) ++ deferred (elected world0).
Proof.
  assert (match run_events fail_waiters request_events (elected world0) with Some _ => true | None => false end = true) as H
    by vm_cast_no_check (eq_refl true).
  destruct (run_events fail_waiters request_events (elected world0)) as [d'|] eqn:Hd'; [clear H|discriminate H].
  exists d'. split; [reflexivity|].
  exact (requests_answered_once fail_waiters settles_fail_range _ _ _ Hd').
Defined.

(** Node 1 has put a read aside; the request of node 3 that confirms it. *)
Definition asking : world :=
  default ∅ (play_all [MTick 1 22; MCall 1 3 true; MCall 1 3 true; MQuery 1 [] 7; MTick 3 6] leased_world).
Definition asked : node := default (start node1) (asking !! 1).
Definition the_read : PendingRead := mkPendingRead [] 7 0 0 142.
Definition confirming : list DriverEvent := [EvFetch (mkFetchRequest "c" 1 3 1 0)].
Definition answered : option node := run_events fail_waiters confirming asked.
Definition answers : list Effect :=
  match answered with Some d' => drop (length (d_sent asked)) (d_sent d') | None => [] end.

Lemma one_answer (l : list Effect) :
  match l with [Answered 7 (Ok [])] => true | _ => false end = true → Answered 7 (Ok []) ∈ l.
Proof. repeat case_match; try done. by left. Qed.

Lemma deferred_read_confirmed_witness :
  ∃ d', run_events fail_waiters confirming asked = Some d' ∧ Answered 7 (Ok []) ∈ answers ∧
  ∃ before ev after d1 dm r, confirming = before ++ ev :: after ∧ run_events fail_waiters before asked = Some d1 ∧
    handle_event fail_waiters ev d1 = Some (dm, r) ∧
    role (d_node dm) = Leader ∧ pr_read_index the_read ≤ last_applied (d_node dm) ∧
    logical_tick (d_node dm) ≤ pr_deadline_tick the_read ∧
    sm_query (pr_query the_read) (d_state_machine dm) = Ok [] ∧
    quorum_among ((before ++ [ev]) ≫= fetcher) (d_node dm).
Proof.
  assert (bool_decide (pr_read_baseline_seq the_read = fetch_seq (d_node asked)) &&
    bool_decide (marks (d_node asked) !! id (d_node asked) = None) &&
    bool_decide (map_Forall (λ _ s, s ≤ fetch_seq (d_node asked)) (marks (d_node asked))) = true) as H
    by vm_cast_no_check (eq_refl true).
  apply andb_true_iff in H as [[Hb%bool_decide_eq_true Hself%bool_decide_eq_true]%andb_true_iff Hm%bool_decide_eq_true].
  assert (d_pending_reads asked = [the_read]) as Hr by vm_cast_no_check (eq_refl [the_read]).
  assert (match answered with Some _ => true | None => false end = true) as Hrun by vm_cast_no_check (eq_refl true).
  assert (match answers with [Answered 7 (Ok [])] => true | _ => false end = true) as Hans by vm_cast_no_check (eq_refl true).
  unfold answers in *. destruct answered as [d'|] eqn:Hd'; [|discriminate Hrun]. unfold answered in Hd'.
  assert (Answered 7 (Ok []) ∈ drop (length (d_sent asked)) (d_sent d')) as Hin.
  { apply one_answer. exact Hans. }
  exists d'. split; [exact Hd'|]. split; [exact Hin|].
  eapply (deferred_read_confirmed fail_waiters settles_fail_range confirming asked d' the_read [] (drop (length (d_sent asked)) (d_sent d'))).
  - exact Hb.
  - intros q Hq _. rewrite Hr in Hq. by apply list_elem_of_singleton in Hq.
  - exact Hself.
  - exact Hm.
  - repeat constructor. apply not_elem_of_nil.
  - exact Hd'.
  - destruct (run_balance fail_waiters settles_fail_range _ _ _ Hd') as (k & _ & _ & [(es & Hes & _)]).
    rewrite Hes, drop_app_length. reflexivity.
  - exact Hin.
Defined.
