(* ===== verification/DriverDurable.v ===== *)
(** * Durability through the driver

    A driver that has not stopped has its term and vote on disk, and a granted
    vote leaves only then. *)

From S2P Require Import Prelude CoreTypes Message Text Config ElectionTimer RaftNode NodeFacts NodeSafety Elections LogStore MemoryLog BTree WalCodec SnapshotStore SnapshotTransfer ServeFetch HardStore StateMachine Driver ReadFrame DriverFacts DriverRuns Concrete.

Section Durable.
Context {MA : MembershipApi} {RA : RngApi} {HI : HashIter} {CR : Crc32}
  {St : Type} {LA : LogStoreApi St} {HS : Type} {HA : HardStateStore HS} {HL : HardStateStoreLaws HS HA}
  {SM : Type} {SA : StateMachine SM}.
#[local] Abbreviation driver := (Driver St HS SM).
Implicit Types d : driver.

(** The election state: what must survive a crash. *)
Definition ballot (h : HardState) : N * option N := (current_term h, voted_for h).
(** Nothing on disk is the state a fresh node starts from. *)
Definition no_hard_state : HardState := mkHardState 0 None 0.
Definition on_disk d : option (N * option N) :=
  match load (d_hs_store d) with Ok o => Some (ballot (default no_hard_state o)) | Err _ => None end.
Definition in_memory d : N * option N := ballot (hard_state (d_node d)).
Definition synced d : Prop := on_disk d = Some (in_memory d).

(** Neither side moves. *)
Definition still d d' : Prop :=
  d_hs_store d' = d_hs_store d ∧ in_memory d' = in_memory d ∧ d_halt_reason d' = d_halt_reason d.
Lemma still_synced d d' : still d d' → synced d → synced d'.
Proof. intros (Hs & Hm & _). unfold synced, on_disk. by rewrite Hs, Hm. Qed.
#[export] Instance still_refl : Reflexive still.
Proof. done. Qed.
#[export] Instance still_trans : Transitive still.
Proof. intros d1 d2 d3 (?&?&?) (?&?&?). split_and!; congruence. Qed.

Lemma still_resolve i r d : still d (resolve_waiters_at i r d).
Proof. unfold resolve_waiters_at. by destruct (d_pending d !! i). Qed.
Lemma still_foldl {A} (f : driver → A → driver) (l : list A) d :
  (∀ d a, still d (f d a)) → still d (foldl f d l).
Proof.
  intros Hf. revert d. induction l as [|a l IH]; intros d; [done|]. cbn. etrans; [apply Hf|apply IH].
Qed.

Context (fail_waiters_in_range : N → N → string → driver → driver).
Context (fails_waiters : ∀ a b m d, still d (fail_waiters_in_range a b m d)).

Lemma still_apply_entries to es d d' r :
  apply_entries fail_waiters_in_range to es d = (d', r) → still d d'.
Proof using fails_waiters.
  revert d. induction es as [|e es IH]; intros d; cbn; [by intros [<- _]%pair_inv|].
  destruct (e_payload e) as [b| | |];
    [|intros Hrun; etrans; [apply still_resolve|by eapply IH]..].
  destruct (sm_apply _ _ _) as [sm [x|x]]; cbn.
  - intros Hrun%IH. etrans; [|exact Hrun]. etrans; [|apply still_resolve]. done.
  - intros [<- _]%pair_inv. etrans; [|apply fails_waiters]. done.
Qed.
Lemma still_apply from to d d' r :
  apply_committed fail_waiters_in_range from to d = Some (d', r) → still d d'.
Proof using fails_waiters.
  unfold apply_committed. case_decide; [by intros [= <- _]|]. case_decide; [by intros [= <- _]|].
  destruct (ls_get_range _ _ _) as [es|]; [|done]. cbn. intros [= Hrun].
  assert (∀ m, still d (fail_range from to m d)) as Hf by (intros m; apply still_foldl; intros; apply still_resolve).
  case_decide; [apply pair_inv in Hrun as [<- _]; apply Hf|].
  destruct (negb _); [apply pair_inv in Hrun as [<- _]; apply Hf|].
  by eapply still_apply_entries.
Qed.

(** What one action does to the pair: it goes on, or the driver stops with an
    error. *)
Definition goes_on (a : Action) (c c' : CapturedResponse) d d' : Prop :=
  cr_error c' = cr_error c ∧ in_memory d' = in_memory d ∧ d_halt_reason d' = d_halt_reason d ∧
  (synced d ∨ a = PersistHardState → synced d').
Definition stops (c : CapturedResponse) d : Prop := d_halt_reason d ≠ None ∧ cr_error c ≠ None.
Lemma halt_stops msg c d : stops (halt msg c d).2 (halt msg c d).1.
Proof. split; [|done]. cbn. by destruct (d_halt_reason d). Qed.
Definition outcome (a : Action) (c : CapturedResponse) d (x : driver * CapturedResponse * After) : Prop :=
  match x.2 with Break => stops x.1.2 x.1.1 | _ => goes_on a c x.1.2 d x.1.1 end.
Lemma still_goes_on a c d d' : a ≠ PersistHardState → still d d' → goes_on a c c d d'.
Proof. intros Ha Hs. split_and!; [done|apply Hs..|]. intros [?|?]; [by eapply still_synced|done]. Qed.

Lemma persist_outcome a c d : a = PersistHardState → outcome a c d (persist_action c d).
Proof using HL.
  intros ->. unfold persist_action. destruct (persist _ _) as [hs r] eqn:E. destruct r as [[]|e].
  - split_and!; [done..|]. intros _. apply persist_ok in E as [Hl _].
   unfold synced, on_disk. cbn. by rewrite Hl.
  - apply halt_stops.
Qed.
Lemma append_outcome a es c d : a ≠ PersistHardState → outcome a c d (append_action es c d).
Proof.
  intros Ha. unfold append_action. destruct (ls_append _ _) as [l [x|x]]; [|apply halt_stops].
  destruct (ls_flush _) as [l2 [y|y]]; [|apply halt_stops]. by apply still_goes_on.
Qed.
Lemma truncate_outcome a i c d : a ≠ PersistHardState → outcome a c d (truncate_suffix_action i c d).
Proof.
  intros Ha. unfold truncate_suffix_action. destruct (ls_truncate_from _ _) as [l [x|x]]; [|apply halt_stops].
  destruct (ls_flush _) as [l2 [y|y]]; [|apply halt_stops].
  destruct (effective_log_tip _ _). by apply still_goes_on.
Qed.
Lemma send_outcome a origin to m c d : a ≠ PersistHardState → outcome a c d (send_action origin to m c d).
Proof.
  intros Ha. unfold send_action. case_decide; [|by apply still_goes_on].
  repeat case_match; split_and!; try done; by intros [?|?].
Qed.
Lemma reply_fetch_goes_on a origin to r c d :
  a ≠ PersistHardState → goes_on a c (reply_fetch origin to r c d).2 d (reply_fetch origin to r c d).1.
Proof. intros Ha. unfold reply_fetch. case_decide; split_and!; try done; by intros [?|?]. Qed.

(** The follow-up of an acknowledged fetch neither votes nor persists. *)
Lemma acked_hard r o n n' acts : step (InFetchRequestAcked r o) n = (n', acts) → hard_state n' = hard_state n.
Proof. apply handle_fetch_request_acked_hard. Qed.
Lemma acked_no_reply r o n n' acts : step (InFetchRequestAcked r o) n = (n', acts) → Forall no_reply acts.
Proof.
  cbn. unfold handle_fetch_request_acked. case_decide; [by intros [_ <-]%pair_inv|].
  destruct (_ && _); [by intros [_ <-]%pair_inv|]. apply advance_and_drain_no_reply.
Qed.

Lemma serve_outcome a origin to cl ep l hw off lfe c d x :
  a ≠ PersistHardState → serve_action origin to cl ep l hw off lfe c d = Some x →
  outcome a c d x ∧ ∀ follow, x.2 = Nested follow → Forall no_reply follow.
Proof.
  intros Ha. unfold serve_action. destruct (materialize_fetch_response _ _ _ _ _ _ _ _ _) as [r|]; [|done].
  cbn [mbind option_bind]. pose proof (reply_fetch_goes_on a origin to r c d Ha) as Hg.
  destruct (reply_fetch origin to r c d) as [d1 c1]. cbn [fst snd] in Hg. intros [= <-].
  destruct (bool_decide _); [|done]. destruct (handle_fetch_request_acked _ _ _) as [n acts] eqn:E. split.
  - destruct Hg as (He & Hm & Hh & Hs). apply acked_hard in E. unfold outcome. cbn [fst snd].
    split_and!; [done| |done|].
    + rewrite <-Hm. unfold in_memory. cbn. by rewrite E.
    + intros Hor%Hs. unfold synced, on_disk, in_memory in *. cbn. by rewrite E.
  - intros follow [= <-]. by eapply acked_no_reply.
Qed.

Lemma exec_outcome origin a c d x :
  exec_action fail_waiters_in_range origin a c d = Some x →
  outcome a c d x ∧ ∀ follow, x.2 = Nested follow → Forall no_reply follow.
Proof using fails_waiters HL.
  assert (∀ y, outcome a c d y → (∀ follow, y.2 ≠ Nested follow) → Some y = Some x →
    outcome a c d x ∧ ∀ follow, x.2 = Nested follow → Forall no_reply follow) as Hpure.
  { intros y Hy Hn [= <-]. split; [done|]. by intros follow ?%Hn. }
  destruct a; cbn [exec_action]; try done.
  - apply Hpure; [by apply persist_outcome|]. unfold persist_action. destruct (persist _ _) as [? []]; done.
  - apply Hpure; [by apply append_outcome|]. unfold append_action.
    destruct (ls_append _ _) as [l [z|z]]; [|done]. by destruct (ls_flush _) as [l2 [y|y]].
  - apply Hpure; [by apply send_outcome|]. unfold send_action. case_decide; [|done]. repeat case_match; done.
  - unfold apply_action. destruct (apply_committed _ _ _ _) as [[d1 r]|] eqn:E; [|done].
    apply still_apply in E. cbn [mbind option_bind]. destruct r; apply Hpure; try done.
    + by apply still_goes_on.
    + apply halt_stops.
  - apply Hpure; [|done]. by apply still_goes_on.
  - apply Hpure; [|done]. by apply still_goes_on.
  - by apply serve_outcome.
  - apply Hpure; [|done]. by apply reply_fetch_goes_on.
  - destruct t; [|done]. apply Hpure; [by apply truncate_outcome|]. unfold truncate_suffix_action.
    destruct (ls_truncate_from _ _) as [l [z|z]]; [|done]. destruct (ls_flush _) as [l2 [y|y]]; [|done].
    by destruct (effective_log_tip _ _).
Qed.

Lemma process_durable fuel origin acts c d d' c' :
  process fail_waiters_in_range fuel origin acts c d = Some (d', c') →
  d_halt_reason d = None → cr_error c = None →
  match d_halt_reason d' with
  | Some _ => cr_error c' ≠ None
  | None => cr_error c' = None ∧ in_memory d' = in_memory d ∧ (synced d ∨ PersistHardState ∈ acts → synced d')
  end.
Proof using fails_waiters HL.
  revert acts c d d' c'. induction fuel as [|fuel IH]; intros acts c d d' c'; [done|].
  destruct acts as [|a acts]; cbn [process].
  { intros [= <- <-] -> Hc. split_and!; [done..|]. by intros [?|?%not_elem_of_nil]. }
  destruct (exec_action _ _ _ _ _) as [[[d1 c1] after]|] eqn:E; [|done]. cbn [mbind option_bind].
  apply exec_outcome in E as [Ho _]. unfold outcome in Ho. cbn [fst snd] in Ho. intros Hrun Hd Hc.
  (* what is left runs from a driver that is at least as far *)
  assert (∀ d2 c2, process fail_waiters_in_range fuel origin acts c2 d2 = Some (d', c') →
    d_halt_reason d2 = None → cr_error c2 = None → in_memory d2 = in_memory d →
    (synced d ∨ a = PersistHardState → synced d2) →
    match d_halt_reason d' with
    | Some _ => cr_error c' ≠ None
    | None => cr_error c' = None ∧ in_memory d' = in_memory d ∧ (synced d ∨ PersistHardState ∈ a :: acts → synced d')
    end) as Hrest.
  { intros d2 c2 H2 Hd2 Hc2 Hm2 Hs2. specialize (IH _ _ _ _ _ H2 Hd2 Hc2). destruct (d_halt_reason d'); [done|].
    destruct IH as (He & Hm & Hs). split_and!; [done|congruence|]. rewrite elem_of_cons. intuition auto. }
  destruct after as [| |follow].
  - injection Hrun as <- <-. destruct Ho as [Hh He]. by destruct (d_halt_reason d1).
  - destruct Ho as (He & Hm & Hh & Hs). eapply Hrest; [exact Hrun|congruence..|done].
  - destruct Ho as (He & Hm & Hh & Hs).
    destruct (process _ fuel _ follow _ _) as [[d2 c2]|] eqn:E2; [|done]. cbn [mbind option_bind] in Hrun.
    apply IH in E2; [|congruence|done]. destruct (d_halt_reason d2) eqn:H2.
    + injection Hrun as <- <-. rewrite H2. unfold merge. cbn [cr_error]. by rewrite He, Hc.
    + destruct E2 as (Hc2 & Hm2 & Hs2).
      eapply Hrest; [exact Hrun|done| |congruence|by auto]. unfold merge. cbn [cr_error]. by rewrite He, Hc, Hc2.
Qed.

(** ** One event *)

(** From a step to the end of its actions. *)
Lemma step_durable n acts origin d0 d d' c :
  persisted (d_node d0) n acts →
  d_node d = n → d_hs_store d = d_hs_store d0 → d_halt_reason d = None →
  process_actions fail_waiters_in_range acts origin d = Some (d', c) → synced d0 →
  match d_halt_reason d' with
  | Some _ => cr_error c ≠ None
  | None => cr_error c = None ∧ synced d' ∧ hard_state n = hard_state (d_node d) ∧ in_memory d' = ballot (hard_state n)
  end.
Proof using fails_waiters HL.
  intros Hp Hn Hst Hh Hrun Hs. apply process_durable in Hrun; [|done..]. destruct (d_halt_reason d'); [done|].
  destruct Hrun as (Hc & Hm & Hsync). split_and!; [done| |congruence|unfold in_memory in *; congruence].
  apply Hsync. destruct Hp as [Heq|(pre & post & -> & _)].
  - left. unfold synced, on_disk, in_memory in *. by rewrite Hst, Hn, Heq.
  - right. apply elem_of_app. right. by left.
Qed.

Lemma outbound_persisted res n n' acts : handle_outbound_result res n = (n', acts) → persisted n n' acts.
Proof.
  destruct res; cbn [handle_outbound_result]; try apply step_persisted.
  - case_decide; [by intros [<- _]%pair_inv; apply persisted_same|].
    case_decide; [apply become_follower_persisted|].
    repeat (case_decide; [by intros [<- _]%pair_inv; apply persisted_same|]).
    destruct metadata; [apply step_persisted|by intros [<- _]%pair_inv; apply persisted_same].
  - by intros [<- _]%pair_inv; apply persisted_same.
Qed.

Lemma event_durable ev d d' r :
  handle_event fail_waiters_in_range ev d = Some (d', r) →
  d_halt_reason d = None → d_halt_reason d' = None → synced d → synced d'.
Proof using fails_waiters HL.
  intros Hrun Hh Hh' Hs.
  assert (∀ i o c, step_and_process fail_waiters_in_range i o d = Some (d', c) → synced d') as Hstep.
  { intros i o c. unfold step_and_process. destruct (step i (d_node d)) as [n acts] eqn:E. intros Hp.
    eapply step_durable in Hp; [|by eapply step_persisted|done..]. rewrite Hh' in Hp. tauto. }
  destruct ev; cbn [Driver.handle_event] in Hrun; revert Hrun.
  - unfold handle_inbound_vote. destruct (step_and_process _ _ _ _) as [[d1 c]|] eqn:E; [|done]. intros [= -> _]. by eapply Hstep.
  - unfold handle_inbound_pre_vote. destruct (step_and_process _ _ _ _) as [[d1 c]|] eqn:E; [|done]. intros [= -> _]. by eapply Hstep.
  - unfold handle_inbound_fetch. destruct (step_and_process _ _ _ _) as [[d1 c]|] eqn:E; [|done]. intros [= -> _]. by eapply Hstep.
  - unfold handle_client_command. case_decide; [by intros [= <- _]|].
    destruct (step _ _) as [n acts] eqn:E. set (d0 := if _ && _ then _ else _).
    assert (d_node d0 = n ∧ d_hs_store d0 = d_hs_store d ∧ d_halt_reason d0 = None) as (Hn & Hst & Hhd)
      by by (unfold d0; destruct (_ && _)).
    destruct (process_actions _ _ _ _) as [[d1 c]|] eqn:Ep; [|done]. intros [= -> _].
    eapply step_durable in Ep; [|by eapply step_persisted|done..]. rewrite Hh' in Ep. tauto.
  - intros [= <- _]. unfold handle_client_query. case_decide; [done|]. destruct (_ || _); [done|]. by case_decide.
  - unfold handle_outbound. destruct (handle_outbound_result _ _) as [n acts] eqn:E.
    destruct (process_actions _ _ _ _) as [[d1 c]|] eqn:Ep; [|done]. intros [= -> _].
    eapply step_durable in Ep; [|by eapply outbound_persisted|done..]. rewrite Hh' in Ep. tauto.
  - unfold handle_tick. destruct (step_and_process _ _ _ _) as [[d1 c]|] eqn:E; [|done]. intros [= -> _]. by eapply Hstep.
Qed.

Lemma run_synced evs d d' :
  run_events fail_waiters_in_range evs d = Some d' →
  d_halt_reason d = None → synced d → d_halt_reason d' = None → synced d'.
Proof using fails_waiters HL.
  intros Hrun Hh Hs Hh'. revert d Hrun Hh Hs. induction evs as [|ev evs IH]; intros d; cbn [run_events]; [by intros [= <-]|].
  unfold loop_turn at 1. destruct (handle_event _ ev d) as [[dm r]|] eqn:E; [|done]. cbn [mbind option_bind].
  destruct (drain_spec dm) as (es & left & Hdr & _). set (dt := drain_pending_reads dm) in *.
  assert (still dm dt) as Hst by by rewrite Hdr.
  destruct (d_halt_reason dt) eqn:Ht; [intros [= ->]; congruence|]. intros Hrun Hh Hs.
  eapply IH; [exact Hrun|done|]. eapply still_synced; [exact Hst|]. eapply event_durable; [exact E|done| |done].
  destruct Hst as (_ & _ & Hst). congruence.
Qed.
Lemma synced_load d :
  synced d → ∃ o, load (d_hs_store d) = Ok o ∧ current_term (default no_hard_state o) = term (d_node d) ∧
    voted_for (default no_hard_state o) = vote (d_node d).
Proof.
  unfold synced, on_disk, in_memory, ballot. destruct (load (d_hs_store d)) as [o|]; [|done].
  intros [= Ht Hv]. by exists o.
Qed.

(** The disk never lags behind memory on what a vote depends on: whatever
    events the loop handles, as long as no fatal error has stopped it the
    hard-state store loads exactly the term and the vote the engine holds. *)
Theorem hard_state_in_step evs d d' :
  run_events fail_waiters_in_range evs d = Some d' →
  d_halt_reason d = None → synced d → d_halt_reason d' = None →
  ∃ o, load (d_hs_store d') = Ok o ∧
    current_term (default no_hard_state o) = term (d_node d') ∧
    voted_for (default no_hard_state o) = vote (d_node d').
Proof using fails_waiters HL. intros. apply synced_load. by eapply run_synced. Qed.

(** ** Granted votes *)

(** A vote reply is captured only from the action that sends it to the caller. *)
Definition vote_sent (origin : option N) (acts : list Action) (r : VoteResponse) : Prop :=
  ∃ to, origin = Some to ∧ SendMessage to (MsgVoteResponse r) ∈ acts.
Lemma exec_captured origin a c d d' c' after r :
  exec_action fail_waiters_in_range origin a c d = Some (d', c', after) →
  cr_vote c' = Some r → cr_vote c = Some r ∨ vote_sent origin [a] r.
Proof.
  assert (∀ x : driver * CapturedResponse * After, (cr_vote x.1.2 = Some r → cr_vote c = Some r ∨ vote_sent origin [a] r) →
    Some x = Some (d', c', after) → cr_vote c' = Some r → cr_vote c = Some r ∨ vote_sent origin [a] r) as Hpure.
  { by intros x Hx [= ->]. }
  destruct a; cbn [exec_action]; try done.
  - apply Hpure. unfold persist_action. destruct (persist _ _) as [? []]; by left.
  - apply Hpure. unfold append_action.
    destruct (ls_append _ _) as [l [z|z]]; [|by left]. destruct (ls_flush _) as [l2 [y|y]]; by left.
  - apply Hpure. unfold send_action. case_decide as Ho; [|by left].
    destruct m as [| |r0| |r0| |r0]; destruct (cr_vote c) eqn:E1; destruct (cr_pre_vote c) eqn:E2; destruct (cr_fetch c) eqn:E3;
      cbn; rewrite ?E1; try by left.
    all: intros [= ->]; right; exists to; split; [done|by left].
  - unfold apply_action. destruct (apply_committed _ _ _ _) as [[d1 res]|]; [|done]. cbn [mbind option_bind].
    apply Hpure. destruct res; by left.
  - apply Hpure. by left.
  - apply Hpure. by left.
  - unfold serve_action. destruct (materialize_fetch_response _ _ _ _ _ _ _ _ _) as [x|]; [|done]. cbn [mbind option_bind].
    destruct (reply_fetch origin _ x c d) as [d1 c1] eqn:E. apply Hpure.
    assert (cr_vote c1 = cr_vote c) as Hc1.
    { revert E. unfold reply_fetch. by case_decide; intros [_ <-]%pair_inv. }
    destruct (bool_decide _); [destruct (step _ _)|]; cbn [fst snd]; rewrite Hc1; by left.
  - apply Hpure. unfold redirect_action, reply_fetch. case_decide; by left.
  - destruct t; [|done]. apply Hpure. unfold truncate_suffix_action.
    destruct (ls_truncate_from _ _) as [l [z|z]]; [|by left]. destruct (ls_flush _) as [l2 [y|y]]; [|by left].
    destruct (effective_log_tip _ _). by left.
Qed.
Lemma process_captured fuel origin acts c d d' c' r :
  process fail_waiters_in_range fuel origin acts c d = Some (d', c') →
  cr_vote c' = Some r → cr_vote c = Some r ∨ vote_sent origin acts r.
Proof using fails_waiters HL.
  revert acts c d d' c'. induction fuel as [|fuel IH]; intros acts c d d' c'; [done|].
  destruct acts as [|a acts]; cbn [process]; [intros [= _ <-]; by left|].
  destruct (exec_action _ _ _ _ _) as [[[d1 c1] after]|] eqn:E; [|done]. cbn [mbind option_bind].
  pose proof (exec_captured _ _ _ _ _ _ _ r E) as Hc. apply exec_outcome in E as [_ Hfollow]. cbn [fst snd] in Hfollow.
  assert (cr_vote c1 = Some r → cr_vote c = Some r ∨ vote_sent origin (a :: acts) r) as H1.
  { intros [?|(to & Ho & Ha%list_elem_of_singleton)]%Hc; [by left|right]. exists to. split; [done|]. rewrite Ha. by left. }
  assert (vote_sent origin acts r → cr_vote c = Some r ∨ vote_sent origin (a :: acts) r) as H2.
  { intros (to & Ho & Ha). right. exists to. split; [done|by right]. }
  destruct after as [| |follow].
  - by intros [= _ <-].
  - intros Hrun Hr. destruct (IH _ _ _ _ _ Hrun Hr) as [?|?]; auto.
  - destruct (process _ fuel _ follow _ _) as [[d2 c2]|] eqn:E2; [|done]. cbn [mbind option_bind].
    assert (cr_vote (merge c1 c2) = Some r → cr_vote c = Some r ∨ vote_sent origin (a :: acts) r) as Hm.
    { unfold merge. cbn. destruct (cr_vote c1); [exact H1|]. cbn. intros Hv.
      destruct (IH _ _ _ _ _ E2 Hv) as [?|(to & _ & Hin)]; [done|].
      specialize (Hfollow _ eq_refl). rewrite Forall_forall in Hfollow. by destruct (Hfollow _ Hin to r). }
    destruct (d_halt_reason d2); [by intros [= _ <-]|].
    intros Hrun Hr. destruct (IH _ _ _ _ _ Hrun Hr) as [?|?]; auto.
Qed.

(** C7: A granted vote is on disk before the candidate hears of it: when the
    handler of a vote request returns a grant, the hard-state store loads a
    hard state whose term is the reply's and whose vote is the candidate's. *)
Theorem granted_vote_is_durable req d d' r :
  handle_inbound_vote fail_waiters_in_range req d = Some (d', Ok r) →
  vrs_vote_granted r = true → d_halt_reason d = None → synced d →
  ∃ h, load (d_hs_store d') = Ok (Some h) ∧
    current_term h = vrs_term r ∧ voted_for h = Some (vrq_candidate_id req).
Proof using fails_waiters HL.
  unfold handle_inbound_vote, step_and_process. destruct (step _ _) as [n acts] eqn:E.
  destruct (process_actions _ _ _ _) as [[d1 c]|] eqn:Ep; [|done]. cbn [mbind option_bind].
  unfold reply_of. destruct (cr_error c) eqn:Hc; [done|]. intros [= -> <-] Hg Hh Hs.
  destruct (cr_vote c) as [r|] eqn:Hv; [|done]. change (default (default_deny_vote d') (Some r)) with r in *.
  pose proof Ep as Hd. eapply step_durable in Hd; [|by eapply step_persisted|done..].
  destruct (process_captured _ _ _ _ _ _ _ _ Ep Hv) as [?|(to & [= <-] & Hin)]; [done|].
  destruct (step_grant _ _ _ _ _ _ E Hin Hg) as [Ht Hvote].
  destruct (d_halt_reason d'); [done|]. destruct Hd as (_ & Hsync & _ & Hm).
  unfold synced, on_disk in Hsync. destruct (load (d_hs_store d')) as [o|]; [|done].
  rewrite Hm in Hsync. injection Hsync as Hh1 Hh2. destruct o as [h|]; cbn in Hh1, Hh2; [|unfold vote in Hvote; congruence].
  exists h. split; [done|]. rewrite Ht, Hh1, Hh2. done.
Qed.
End Durable.

(** ** Runs *)

Import Concrete.
#[local] Existing Instance Mem.api.

Lemma still_fail_range a b m (d : node) : still d (fail_range a b m d).
Proof. apply still_foldl. intros. apply still_resolve. Qed.

(** The vote request a candidate sends in the first term. *)
Definition its_request : VoteRequest := mkVoteRequest "c" 0 1 1 0 0.
Lemma start_synced : synced (start node3).
Proof. by vm_compute. Qed.

Lemma hard_state_in_step_witness :
  ∃ d' : node, run_events fail_waiters [EvVote its_request; EvTick] (start node3) = Some d' ∧
    d_halt_reason d' = None ∧
  ∃ o, load (d_hs_store d') = Ok o ∧ current_term (default no_hard_state o) = term (d_node d') ∧
    voted_for (default no_hard_state o) = vote (d_node d').
Proof.
  assert (match run_events fail_waiters [EvVote its_request; EvTick] (start node3) with
          | Some d' => bool_decide (d_halt_reason d' = None) | None => false end = true) as H
    by vm_cast_no_check (eq_refl true).
  destruct (run_events fail_waiters [EvVote its_request; EvTick] (start node3)) as [d'|] eqn:Hd'; [|discriminate H].
  apply bool_decide_eq_true in H. exists d'. split; [reflexivity|]. split; [exact H|].
  exact (hard_state_in_step fail_waiters still_fail_range _ _ _ Hd' eq_refl start_synced H).
Defined.

Lemma granted_vote_is_durable_witness :
  ∃ (d' : node) r, handle_inbound_vote fail_waiters its_request (start node3) = Some (d', Ok r) ∧
    vrs_vote_granted r = true ∧
    ∃ h, load (d_hs_store d') = Ok (Some h) ∧ current_term h = vrs_term r ∧ voted_for h = Some 1.
Proof.
  assert (match handle_inbound_vote fail_waiters its_request (start node3) with
          | Some (_, Ok r) => vrs_vote_granted r | _ => false end = true) as H
    by vm_cast_no_check (eq_refl true).
  destruct (handle_inbound_vote fail_waiters its_request (start node3)) as [[d' [r|e]]|] eqn:Hd'; try discriminate H.
  exists d', r. split; [reflexivity|]. split; [exact H|].
  exact (granted_vote_is_durable fail_waiters still_fail_range its_request _ _ _ Hd' H eq_refl start_synced).
Defined.
