(* ===== verification/DriverTermination.v ===== *)
(** * The action loop ends

    [process_actions] runs a worklist that may start a nested one.  A relation
    without fuel says what an execution is, and the fuel of the definition is
    shown to be enough for every one of them. *)

From S2P Require Import Prelude CoreTypes Message Text Config ElectionTimer RaftNode NodeFacts LogStore MemoryLog BTree WalCodec SnapshotStore SnapshotTransfer ServeFetch HardStore StateMachine Driver DriverRuns Concrete.

Section Termination.
Context {MA : MembershipApi} {RA : RngApi} {HI : HashIter} {CR : Crc32}
  {St : Type} {LA : LogStoreApi St} {HS : Type} {HA : HardStateStore HS} {SM : Type} {SA : StateMachine SM}.
#[local] Abbreviation driver := (Driver St HS SM).
Implicit Types d : driver.
Context (fail_waiters_in_range : N → N → string → driver → driver).
#[local] Abbreviation exec_action := (exec_action fail_waiters_in_range).
#[local] Abbreviation process := (process fail_waiters_in_range).

(** How an execution ends: with the loop's result, or at an action that the
    model does not execute. *)
Inductive Ending : Type :=
| Done d (c : CapturedResponse)
| Stuck (a : Action).

(** [process_actions] without fuel. *)
Inductive executes (origin : option N) : list Action → CapturedResponse → driver → Ending → Prop :=
| ex_nil c d : executes origin [] c d (Done d c)
| ex_stuck a acts c d : exec_action origin a c d = None → executes origin (a :: acts) c d (Stuck a)
| ex_break a acts c d d1 c1 :
    exec_action origin a c d = Some (d1, c1, Break) → executes origin (a :: acts) c d (Done d1 c1)
| ex_next a acts c d d1 c1 e :
    exec_action origin a c d = Some (d1, c1, Next) → executes origin acts c1 d1 e → executes origin (a :: acts) c d e
| ex_nested_stuck a acts c d d1 c1 follow b :
    exec_action origin a c d = Some (d1, c1, Nested follow) →
    executes origin follow captured_default d1 (Stuck b) → executes origin (a :: acts) c d (Stuck b)
| ex_nested_halt a acts c d d1 c1 follow d2 c2 :
    exec_action origin a c d = Some (d1, c1, Nested follow) →
    executes origin follow captured_default d1 (Done d2 c2) →
    is_Some (d_halt_reason d2) → executes origin (a :: acts) c d (Done d2 (merge c1 c2))
| ex_nested a acts c d d1 c1 follow d2 c2 e :
    exec_action origin a c d = Some (d1, c1, Nested follow) →
    executes origin follow captured_default d1 (Done d2 c2) →
    d_halt_reason d2 = None → executes origin acts (merge c1 c2) d2 e → executes origin (a :: acts) c d e.

Definition result (e : Ending) : option (driver * CapturedResponse) :=
  match e with Done d c => Some (d, c) | Stuck _ => None end.

(** ** Nested lists are short and do not nest *)

Lemma drain_short n n' acts : drain_apply_pipeline n = (n', acts) → (length acts ≤ 2)%nat.
Proof.
  intros (f & _ & ->)%drain_shape. rewrite length_app. case_decide; destruct (f && _); cbn; lia.
Qed.
Lemma acked_follow r o n n' acts :
  step (InFetchRequestAcked r o) n = (n', acts) → Forall quiet acts ∧ (length acts ≤ 2)%nat.
Proof.
  cbn. unfold handle_fetch_request_acked. case_decide; [intros [_ <-]%pair_inv; split; [done|cbn; lia]|].
  destruct (_ && _); [intros [_ <-]%pair_inv; split; [done|cbn; lia]|].
  set (m := _ <| peers := _ |>). clearbody m. unfold advance_and_drain.
  destruct (try_advance_commit_index m) as [m1 [k|]]; [|intros [_ <-]%pair_inv; split; [done|cbn; lia]].
  intros Hd. split; [by eapply drain_quiet|by eapply drain_short].
Qed.

Lemma nested_follow origin a c d d1 c1 follow :
  exec_action origin a c d = Some (d1, c1, Nested follow) → Forall quiet follow ∧ (length follow ≤ 2)%nat.
Proof.
  assert (∀ y : driver * CapturedResponse * After, (∀ f, y.2 ≠ Nested f) → Some y = Some (d1, c1, Nested follow) →
    Forall quiet follow ∧ (length follow ≤ 2)%nat) as Hno by by intros y Hy [= ->]; destruct (Hy follow).
  destruct a; cbn [Driver.exec_action]; try done; try by apply Hno.
  - apply Hno. unfold persist_action. by destruct (persist _ _) as [? []].
  - apply Hno. unfold append_action.
    destruct (ls_append _ _) as [l [z|z]]; [|done]. by destruct (ls_flush _) as [l2 [y|y]].
  - apply Hno. unfold send_action. case_decide; [|done]. repeat case_match; done.
  - unfold apply_action. destruct (apply_committed _ _ _ _) as [[d2 r]|]; [|done]. cbn [mbind option_bind].
    apply Hno. by destruct r.
  - unfold serve_action. destruct (materialize_fetch_response _ _ _ _ _ _ _ _ _) as [r|]; [|done].
    cbn [mbind option_bind]. destruct (reply_fetch origin _ r c d) as [d2 c2]. destruct (bool_decide _); [|by apply Hno].
    destruct (step _ _) as [n f] eqn:E. intros [= _ _ <-]. by eapply acked_follow.
  - destruct t; [|done]. apply Hno. unfold truncate_suffix_action.
    destruct (ls_truncate_from _ _) as [l [z|z]]; [|done]. destruct (ls_flush _) as [l2 [y|y]]; [|done].
    by destruct (effective_log_tip _ _).
Qed.
Lemma quiet_not_nested origin a c d d1 c1 follow :
  quiet a → exec_action origin a c d ≠ Some (d1, c1, Nested follow).
Proof.
  destruct a; try done. intros _. cbn [Driver.exec_action]. unfold apply_action.
  destruct (apply_committed _ _ _ _) as [[d2 r]|]; [|done]. cbn [mbind option_bind]. by destruct r.
Qed.

(** ** Enough fuel *)

(** A list that does not nest needs one unit per action and one to stop. *)
Lemma quiet_complete fuel origin acts c d :
  Forall quiet acts → (length acts < fuel)%nat →
  ∃ e, executes origin acts c d e ∧ process fuel origin acts c d = result e.
Proof.
  intros Hq. revert fuel c d. induction Hq as [|a acts Ha _ IH]; intros [|fuel] c d Hlen; cbn in Hlen; try lia.
  { exists (Done d c). split; [constructor|done]. }
  cbn [Driver.process]. destruct (exec_action origin a c d) as [[[d1 c1] after]|] eqn:E.
  2:{ exists (Stuck a). split; [by constructor|done]. }
  cbn [mbind option_bind]. destruct after as [| |follow].
  - exists (Done d1 c1). split; [by constructor|done].
  - destruct (IH fuel c1 d1) as (e & He & Hp); [lia|]. exists e. split; [by eapply ex_next|done].
  - by apply quiet_not_nested in E.
Qed.

Lemma executes_complete fuel origin acts c d :
  (length acts + 4 ≤ fuel)%nat →
  ∃ e, executes origin acts c d e ∧ process fuel origin acts c d = result e.
Proof.
  revert fuel c d. induction acts as [|a acts IH]; intros [|fuel] c d Hlen; cbn in Hlen; try lia.
  { exists (Done d c). split; [constructor|done]. }
  cbn [Driver.process]. destruct (exec_action origin a c d) as [[[d1 c1] after]|] eqn:E.
  2:{ exists (Stuck a). split; [by constructor|done]. }
  cbn [mbind option_bind]. destruct after as [| |follow].
  - exists (Done d1 c1). split; [by constructor|done].
  - destruct (IH fuel c1 d1) as (e & He & Hp); [lia|]. exists e. split; [by eapply ex_next|done].
  - destruct (nested_follow _ _ _ _ _ _ _ E) as [Hq Hshort].
    destruct (quiet_complete fuel origin follow captured_default d1 Hq) as ([d2 c2|b] & He & ->); [lia| |].
    2:{ exists (Stuck b). split; [by eapply ex_nested_stuck|done]. }
    cbn [result mbind option_bind]. destruct (d_halt_reason d2) as [m|] eqn:Hh.
    { exists (Done d2 (merge c1 c2)). split; [|done]. eapply ex_nested_halt; [done..|]. by rewrite Hh. }
    destruct (IH fuel (merge c1 c2) d2) as (e & He' & Hp); [lia|]. exists e. split; [by eapply ex_nested|done].
Qed.

(** The relation is a function: the definition's result is the only one. *)
Lemma executes_functional origin acts c d e1 e2 :
  executes origin acts c d e1 → executes origin acts c d e2 → e1 = e2.
Proof.
  intros H1. revert e2.
  induction H1 as [c d|a acts c d E|a acts c d d1 c1 E|a acts c d d1 c1 e E _ IH|a acts c d d1 c1 f b E _ IH
    |a acts c d d1 c1 f d2 c2 E _ IH Hh|a acts c d d1 c1 f d2 c2 e E _ IH Hh _ IH']; intros e2 H2;
    inversion H2 as [|? ? ? ? F|? ? ? ? ? ? F|? ? ? ? ? ? ? F G|? ? ? ? ? ? ? ? F G|? ? ? ? ? ? ? ? ? F G Hg
    |? ? ? ? ? ? ? ? ? ? F G Hg G']; subst; try done; rewrite E in F; try done; injection F as F; subst; auto.
  all: apply IH in G; simplify_eq; try done; try (destruct Hh; congruence); try (destruct Hg; congruence).
  by apply IH'.
Qed.

(** ** Where an execution can stop short *)

(** The arms of [process_actions] that are not intact in the source. *)
Definition unmodelled (a : Action) : Prop :=
  match a with TakeSnapshot _ | InstallSnapshot _ _ | TruncateLog (PrefixThroughInclusive _) => True | _ => False end.
Definition in_width (a : Action) : Prop :=
  match a with ServeFetch _ _ _ _ _ offset _ => offset ≤ u64_max | _ => True end.

(** [BTreeMap::range] accepts a range that is not reversed. *)
Context (ordered_reads : ∀ a b (s : St), a ≤ b → is_Some (ls_get_range a b s)).

Lemma apply_committed_defined from to d : is_Some (apply_committed fail_waiters_in_range from to d).
Proof using ordered_reads.
  unfold Driver.apply_committed. case_decide; [done|]. case_decide; [done|].
  destruct (ordered_reads from (to + 1) (d_log_store d)) as [es ->]; [lia|]. done.
Qed.
Lemma stuck_unmodelled origin a c d : in_width a → exec_action origin a c d = None → unmodelled a.
Proof using ordered_reads.
  destruct a; cbn [Driver.exec_action]; intros Hw; try done.
  - unfold apply_action. destruct (apply_committed_defined from to d) as [[d1 r] ->]. done.
  - unfold serve_action, materialize_fetch_response. destruct (redirect_of _ _) as [rd|].
    { cbn [mbind option_bind]. destruct (reply_fetch _ _ _ _ _). by destruct (bool_decide _). }
    destruct (detect_divergence _ _ _ _) as [dv|].
    { cbn [mbind option_bind]. destruct (reply_fetch _ _ _ _ _). by destruct (bool_decide _); [destruct (step _ _)|]. }
    cbn in Hw. edestruct ordered_reads as [es ->]; [|cbn [mbind option_bind]].
    { unfold sat_add. lia. }
    destruct (reply_fetch _ _ _ _ _). by destruct (bool_decide _); [destruct (step _ _)|].
  - by destruct t.
Qed.
Lemma executes_stuck origin acts c d b :
  Forall in_width acts → executes origin acts c d (Stuck b) → unmodelled b.
Proof using ordered_reads.
  intros Hw H. remember (Stuck b) as e eqn:He. revert b He.
  induction H as [c d|a acts c d E|a acts c d d1 c1 E|a acts c d d1 c1 e E _ IH|a acts c d d1 c1 f b0 E _ IH
    |a acts c d d1 c1 f d2 c2 E _ IH Hh|a acts c d d1 c1 f d2 c2 e E _ IH Hh _ IH']; intros b He;
    try discriminate He; apply Forall_cons in Hw as [Ha Hw].
  - injection He as <-. by eapply stuck_unmodelled.
  - by apply IH.
  - injection He as <-. apply IH; [|done]. apply nested_follow in E as [Hq _].
    eapply Forall_impl; [exact Hq|]. by intros [].
  - by apply IH'.
Qed.

(** C33: Executing the engine's actions terminates: every action list has
    exactly one outcome under the loop's rules, the fuel of [process_actions]
    always reaches it and more fuel changes nothing, and if the outcome is not
    a result the run met a snapshot or prefix-truncation action, whose arms
    are not modelled. *)
Theorem actions_terminate origin acts d :
  Forall in_width acts →
  ∃ e, executes origin acts captured_default d e ∧
    (∀ e', executes origin acts captured_default d e' → e' = e) ∧
    process_actions fail_waiters_in_range acts origin d = result e ∧
    (∀ fuel, (length acts + 4 ≤ fuel)%nat → process fuel origin acts captured_default d = result e) ∧
    ∀ a, e = Stuck a → unmodelled a.
Proof using ordered_reads.
  intros Hw. destruct (executes_complete (length acts + 4) origin acts captured_default d) as (e & He & Hp); [done|].
  exists e. split_and!; [done| |done| |].
  - intros e' He'. by eapply executes_functional.
  - intros fuel Hf. destruct (executes_complete fuel origin acts captured_default d Hf) as (e' & He' & ->).
    f_equal. by eapply executes_functional.
  - intros a ->. by eapply executes_stuck.
Qed.
End Termination.

(** ** A run *)

Import Concrete.
#[local] Existing Instance Mem.api.

Lemma memory_ordered_reads a b (s : Mem.MemoryLogStore) : a ≤ b → is_Some (ls_get_range a b s).
Proof. by eexists. Qed.

(** What a leader asks for when a follower fetches and its log has grown. *)
Definition sample_actions : list Action :=
  [PersistHardState; AppendEntries [mkEntry 1 1 NoOp]; ServeFetch 3 "c" 1 1 0 1 1; StepDown].
Lemma actions_terminate_witness :
  Forall in_width sample_actions ∧
  ∃ e, executes fail_waiters (Some 3) sample_actions captured_default (start node1) e ∧
    (∀ e', executes fail_waiters (Some 3) sample_actions captured_default (start node1) e' → e' = e) ∧
    process_actions fail_waiters sample_actions (Some 3) (start node1) = result e ∧
    (∀ fuel, (length sample_actions + 4 ≤ fuel)%nat →
       process fail_waiters fuel (Some 3) sample_actions captured_default (start node1) = result e) ∧
    ∀ a, e = Stuck a → unmodelled a.
Proof.
  assert (Forall in_width sample_actions) as Hw by (repeat constructor; vm_compute; discriminate).
  split; [exact Hw|]. apply (actions_terminate fail_waiters memory_ordered_reads). exact Hw.
Defined.
