(* ===== verification/SnapshotPipeline.v ===== *)
(** * Taking and installing snapshots ([xraft-server/src/driver.rs])

    The background pipeline of a driver: capturing the state machine, the
    worker that serialises and saves, its completion, the operator's trigger,
    and the installation of a snapshot received from the leader.  The duration
    of a snapshot and the metrics are left out. *)

From S2P Require Import Prelude CoreTypes Message Text Config ElectionTimer RaftNode LogStore BTree WalCodec SnapshotNames SnapshotStore SnapshotTransfer ServeFetch HardStore StateMachine Driver.

(** [TriggeredSnapshotInfo]. *)
Record TriggeredSnapshotInfo : Type := mkTriggered {
  ts_last_included_index : N;
  ts_last_included_term : N;
  ts_size_bytes : N;
}.

(** A spawned worker: what [dispatch_snapshot_worker] moves into it. *)
Record SnapshotJob {MA : MembershipApi} {Z : Type} : Type := mkSnapshotJob {
  sj_through_index : N;
  sj_through_term : N;
  sj_metadata : SnapshotMeta;
  sj_serializer : Z;
  sj_reply : option N;
}.
Arguments SnapshotJob {MA} Z.

(** [SnapshotCompletion]; the result is the data size. *)
Record SnapshotCompletion {MA : MembershipApi} : Type := mkSnapshotCompletion {
  sc_through_index : N;
  sc_through_term : N;
  sc_metadata : SnapshotMeta;
  sc_result : Result N;
  sc_reply : option N;
}.

(** The driver with its snapshot store, the worker flag, the workers spawned,
    the completion channel and the replies to the operator. *)
Record Pipeline {MA : MembershipApi} {RA : RngApi} {St HS SS SM Z : Type} : Type := mkPipeline {
  p_driver : Driver St HS SM;
  p_snaps : SS;
  p_worker_in_flight : bool;
  p_jobs : list (SnapshotJob Z);
  p_completions : list SnapshotCompletion;
  p_replies : list (N * Result TriggeredSnapshotInfo);
}.
Arguments Pipeline {MA RA} St HS SS SM Z.
#[export] Instance Pipeline_settable {MA : MembershipApi} {RA : RngApi} {St HS SS SM Z : Type} :
    Settable (Pipeline St HS SS SM Z) :=
  λ p, mkPipeline MA RA St HS SS SM Z (p_driver p) (p_snaps p) (p_worker_in_flight p) (p_jobs p)
    (p_completions p) (p_replies p).

Section Pipeline.
Context {MA : MembershipApi} {RA : RngApi} {HI : HashIter} {CR : Crc32}
  {St : Type} {LA : LogStoreApi St} {HS : Type} {HA : HardStateStore HS}
  {SS : Type} {SSA : SnapshotStoreApi SS} {SM : Type} {SA : StateMachine SM}.
#[local] Abbreviation driver := (Driver St HS SM).
#[local] Abbreviation pipeline := (Pipeline St HS SS SM sm_serializer).
Implicit Types (d : driver) (p : pipeline).
Context (fail_waiters_in_range : N → N → string → driver → driver).

Definition on_driver (f : driver → driver) p : pipeline := p <| p_driver := f (p_driver p) |>.
Definition fatal (msg : string) p : pipeline :=
  on_driver (λ d, d <| d_halt_reason := or_other (d_halt_reason d) (Some msg) |>) p.
Definition reply_to (who : option N) (r : Result TriggeredSnapshotInfo) p : pipeline :=
  match who with Some w => p <| p_replies := p_replies p ++ [(w, r)] |> | None => p end.

(** ** Taking a snapshot *)

(** [dispatch_snapshot_worker]: the term, the metadata, the captured view, and
    the worker.  On an error the reply channel is dropped. *)
Definition dispatch_snapshot_worker (through_index : N) (reply : option N) p : pipeline * Result unit :=
  if p_worker_in_flight p
  then (p, Err (Storage "dispatch_snapshot_worker: another worker still in flight"))
  else
    match ls_term_at through_index (d_log_store (p_driver p)) with
    | None => (p, Err (Storage "TakeSnapshot: no term at the index"))
    | Some through_term =>
        let metadata_initial :=
          mkSnapshotMeta MA through_index through_term "" (voter_set (d_node (p_driver p))) None None in
        match sm_begin_snapshot (d_state_machine (p_driver p)) with
        | Err _ => (p, Err (Storage "state machine begin_snapshot failed"))
        | Ok serializer =>
            (p <| p_worker_in_flight := true |>
               <| p_jobs := p_jobs p ++ [mkSnapshotJob _ _ through_index through_term metadata_initial serializer reply] |>,
             Ok tt)
        end
    end.

(** The worker: serialise the captured view, save under the canonical id. *)
Definition run_job (j : SnapshotJob sm_serializer) (s : SS) : SS * SnapshotCompletion :=
  let t := sj_through_term j in
  let i := sj_through_index j in
  let canonical := λ size, mkSnapshotMeta MA i t (canonical_id t i) (sm_voter_set (sj_metadata j)) size None in
  match serialize (sj_serializer j) with
  | Err _ => (s, mkSnapshotCompletion _ i t (canonical None) (Err (Storage "snapshot serialize failed")) (sj_reply j))
  | Ok data =>
      let size := N.of_nat (length data) in
      match ss_save_snapshot (sj_metadata j <| sm_size_bytes := Some size |>) data s with
      | (s, Err _) => (s, mkSnapshotCompletion _ i t (canonical None) (Err (Storage "save_snapshot failed")) (sj_reply j))
      | (s, Ok _) => (s, mkSnapshotCompletion _ i t (canonical (Some size)) (Ok size) (sj_reply j))
      end
  end.
Definition worker_runs p : pipeline :=
  match p_jobs p with
  | [] => p
  | j :: jobs =>
      let '(s, c) := run_job j (p_snaps p) in
      p <| p_snaps := s |> <| p_jobs := jobs |> <| p_completions := p_completions p ++ [c] |>
  end.

(** [handle_snapshot_completed], up to the engine's follow-up actions; [None]
    when it stopped. *)
Definition complete_snapshot (c : SnapshotCompletion) p : pipeline * option (list Action) :=
  let p := p <| p_worker_in_flight := false |> in
  match sc_result c with
  | Err _ =>
      let msg := "background snapshot failed" in
      (fatal msg (reply_to (sc_reply c) (Err (Storage msg)) p), None)
  | Ok _ =>
      let '(log, r) := ls_update_snapshot_anchor (sc_through_term c) (sc_through_index c) (d_log_store (p_driver p)) in
      let p := on_driver (λ d, d <| d_log_store := log |>) p in
      match r with
      | Err _ =>
          let msg := "log_store.update_snapshot_anchor failed" in
          (fatal msg (reply_to (sc_reply c) (Err (Storage msg)) p), None)
      | Ok _ =>
          let '(node, follow_ups) := step (InSnapshotComplete (sc_metadata c)) (d_node (p_driver p)) in
          (on_driver (λ d, d <| d_node := node |>) p, Some follow_ups)
      end
  end.
(** What the operator hears once the follow-ups are done. *)
Definition snapshot_reply (m : SnapshotMeta) (captured : CapturedResponse) : Result TriggeredSnapshotInfo :=
  match cr_error captured with
  | Some err => Err err
  | None => Ok (mkTriggered (last_included_index m) (last_included_term m) (default 0 (sm_size_bytes m)))
  end.
Definition handle_snapshot_completed (c : SnapshotCompletion) p : option pipeline :=
  match complete_snapshot c p with
  | (p, None) => Some p
  | (p, Some follow_ups) =>
      '(d, captured) ← process_actions fail_waiters_in_range follow_ups None (p_driver p);
      Some (reply_to (sc_reply c) (snapshot_reply (sc_metadata c) captured) (p <| p_driver := d |>))
  end.

(** [handle_trigger_snapshot]. *)
Definition handle_trigger_snapshot (reply : N) p : pipeline :=
  let n := d_node (p_driver p) in
  if decide (role n ≠ Leader) then reply_to (Some reply) (Err (NotLeader (leader_id n))) p
  else if snapshot_in_flight n || p_worker_in_flight p
  then reply_to (Some reply) (Err (Config "snapshot already in flight; retry after current snapshot completes")) p
  else
    let flag := λ b, on_driver (λ d, d <| d_node := d_node d <| snapshot_in_flight := b |> |>) in
    match dispatch_snapshot_worker (commit_index n) (Some reply) (flag true p) with
    | (p, Ok _) => p
    | (p, Err _) =>
        fatal "operator-triggered snapshot dispatch failed" (flag false p <| p_worker_in_flight := false |>)
    end.

(** ** Installing a snapshot *)

(** The log boundary: keep the suffix behind a matching entry, or wipe. *)
Definition cut_log (m : SnapshotMeta) (s : St) : St * Result unit :=
  let must_wipe := bool_decide (ls_term_at (last_included_index m) s ≠ Some (last_included_term m)) in
  let '(s, r) := if must_wipe then ls_truncate_from 1 s else ls_purge_prefix (last_included_index m) s in
  match r with
  | Err _ => (s, Err (Storage (if must_wipe then "log truncate (install-snapshot wipe) failed"
                               else "log purge_prefix (install-snapshot retain) failed")))
  | Ok _ =>
      let '(s, r) := ls_flush s in
      (s, match r with Ok _ => Ok tt | Err _ => Err (Storage "log flush (install-snapshot) failed") end)
  end.

(** [handle_install_snapshot]; the result is the engine's follow-up actions.
    A snapshot that is not ahead of the applied state is ignored. *)
Definition handle_install_snapshot (m : SnapshotMeta) (data : bytes) p : pipeline * Result (list Action) :=
  if decide (last_included_index m ≤ last_applied (d_node (p_driver p))) then (p, Ok [])
  else
    let '(snaps, r) := ss_save_snapshot m data (p_snaps p) in
    let p := p <| p_snaps := snaps |> in
    match r with Err _ => (p, Err (Storage "save_snapshot (install) failed")) | Ok _ =>
    let '(log, r) := ls_update_snapshot_anchor (last_included_term m) (last_included_index m) (d_log_store (p_driver p)) in
    let p := on_driver (λ d, d <| d_log_store := log |>) p in
    match r with Err _ => (p, Err (Storage "log_store.update_snapshot_anchor (install) failed")) | Ok _ =>
    let '(sm, r) := sm_restore data (d_state_machine (p_driver p)) in
    let p := on_driver (λ d, d <| d_state_machine := sm |>) p in
    match r with Err _ => (p, Err (Storage "state machine restore failed")) | Ok _ =>
    let '(log, r) := cut_log m (d_log_store (p_driver p)) in
    let p := on_driver (λ d, d <| d_log_store := log |>) p in
    match r with Err e => (p, Err e) | Ok _ =>
    let feedback := m <| sm_id := canonical_id (last_included_term m) (last_included_index m) |> in
    let '(node, follow_ups) := step (InSnapshotInstalled feedback) (d_node (p_driver p)) in
    let '(eff_index, eff_term) := effective_log_tip node (d_log_store (p_driver p)) in
    (on_driver (λ d, d <| d_node := set_last_log eff_index eff_term node |>) p, Ok follow_ups)
    end end end end.
End Pipeline.
