(* ===== verification/Compaction.v ===== *)
(** * Snapshots stand for the log they replace

    What the snapshot pipeline guarantees: one worker at a time, snapshots of
    exactly the prefix they name, and installation in an order a crash cannot
    split. *)

From S2P Require Import Prelude CoreTypes Message Text Config ElectionTimer RaftNode LogStore MemoryLog BTree WalCodec SnapshotNames SnapshotCodec SnapshotStore MemorySnapshots SnapshotTransfer ServeFetch HardStore StateMachine Driver DriverRuns SnapshotPipeline Concrete.

Section Compaction.
Context {MA : MembershipApi} {RA : RngApi} {HI : HashIter} {CR : Crc32}
  {St : Type} {LA : LogStoreApi St} {HS : Type} {HA : HardStateStore HS}
  {SS : Type} {SSA : SnapshotStoreApi SS} {SM : Type} {SA : StateMachine SM}.
#[local] Abbreviation driver := (Driver St HS SM).
#[local] Abbreviation pipeline := (Pipeline St HS SS SM sm_serializer).
Implicit Types (d : driver) (p : pipeline).

(** ** One worker at a time *)

(** The steps that touch the pipeline; in between the driver does anything
    else to its own state. *)
Inductive pipeline_step : pipeline → pipeline → Prop :=
| ps_driver f p : pipeline_step p (on_driver f p)
| ps_dispatch i reply p : pipeline_step p (dispatch_snapshot_worker i reply p).1
| ps_trigger reply p : pipeline_step p (handle_trigger_snapshot reply p)
| ps_worker p : pipeline_step p (worker_runs p)
| ps_complete c cs p : p_completions p = c :: cs → pipeline_step p (complete_snapshot c (p <| p_completions := cs |>)).1
| ps_install m data p : pipeline_step p (handle_install_snapshot m data p).1.

(** The flag counts the workers and undelivered completions. *)
Definition one_worker p : Prop :=
  (length (p_jobs p) + length (p_completions p) = if p_worker_in_flight p then 1 else 0)%nat.

Lemma one_worker_driver f p : one_worker p → one_worker (on_driver f p).
Proof. done. Qed.
Lemma one_worker_reply w r p : one_worker p → one_worker (reply_to w r p).
Proof. by destruct w. Qed.
Lemma one_worker_dispatch i reply p : one_worker p → one_worker (dispatch_snapshot_worker i reply p).1.
Proof.
  intros Hp. unfold dispatch_snapshot_worker. destruct (p_worker_in_flight p) eqn:Hf; [done|].
  destruct (ls_term_at _ _); [|done]. destruct (sm_begin_snapshot _); [|done].
  unfold one_worker in *. rewrite Hf in Hp. cbn. rewrite length_app. cbn. lia.
Qed.
(** A failed dispatch spawned nothing. *)
Lemma dispatch_failed i reply p p' e : dispatch_snapshot_worker i reply p = (p', Err e) → p' = p.
Proof.
  unfold dispatch_snapshot_worker. destruct (p_worker_in_flight p); [by intros [<- _]%pair_inv|].
  destruct (ls_term_at _ _); [|by intros [<- _]%pair_inv].
  destruct (sm_begin_snapshot _); [|by intros [<- _]%pair_inv]. intros [_ ?]%pair_inv. done.
Qed.
Lemma one_worker_trigger reply p : one_worker p → one_worker (handle_trigger_snapshot reply p).
Proof.
  intros Hp. unfold handle_trigger_snapshot. case_decide; [by apply one_worker_reply|].
  destruct (snapshot_in_flight _ || p_worker_in_flight p) eqn:Hf; [by apply one_worker_reply|].
  apply orb_false_iff in Hf as [_ Hf].
  set (p0 := on_driver _ p). assert (one_worker p0) as H0 by done.
  pose proof (one_worker_dispatch (commit_index (d_node (p_driver p))) (Some reply) p0 H0) as H1.
  assert (p_worker_in_flight p0 = false) as Hf0 by done. clearbody p0.
  destruct (dispatch_snapshot_worker _ _ _) as [p1 [[]|e]] eqn:E; [exact H1|].
  apply dispatch_failed in E as ->. unfold one_worker in *. cbn in *. by rewrite Hf0 in H1.
Qed.
Lemma one_worker_runs p : one_worker p → one_worker (worker_runs p).
Proof.
  intros Hp. unfold worker_runs. destruct (p_jobs p) as [|j jobs] eqn:Hj; [done|].
  destruct (run_job j (p_snaps p)) as [s c]. unfold one_worker in *. rewrite Hj in Hp. cbn in *.
  rewrite length_app. cbn. lia.
Qed.
Lemma one_worker_complete c cs p :
  p_completions p = c :: cs → one_worker p → one_worker (complete_snapshot c (p <| p_completions := cs |>)).1.
Proof.
  intros Hc Hp. unfold complete_snapshot.
  set (p0 := _ <| p_worker_in_flight := false |>).
  assert (one_worker p0) as H0.
  { unfold one_worker in *. rewrite Hc in Hp. cbn in *. destruct (p_worker_in_flight p); lia. }
  clearbody p0. destruct (sc_result c).
  - destruct (ls_update_snapshot_anchor _ _ _) as [l [[]|e]].
    + destruct (step _ _). exact H0.
    + by apply one_worker_driver, one_worker_reply.
  - by apply one_worker_driver, one_worker_reply.
Qed.
Lemma one_worker_install m data p : one_worker p → one_worker (handle_install_snapshot m data p).1.
Proof.
  intros Hp. unfold handle_install_snapshot. case_decide; [done|].
  destruct (ss_save_snapshot _ _ _) as [s [[]|e]]; [|done].
  destruct (ls_update_snapshot_anchor _ _ _) as [l [[]|e]]; [|done].
  destruct (sm_restore _ _) as [sm [[]|e]]; [|done].
  destruct (cut_log _ _) as [l2 [[]|e]]; [|done].
  destruct (step _ _) as [n acts]. destruct (effective_log_tip _ _). done.
Qed.

(** At most one snapshot is under way, whatever the engine, the operator
    and the leader ask for and in whatever order: in every state of the
    pipeline reachable from an idle one the workers running and the
    completions not yet handled are one if the driver's flag is set and none
    if it is not, so the flag is cleared exactly when its worker is done with. *)
Theorem single_snapshot_worker p p' :
  p_jobs p = [] → p_completions p = [] → p_worker_in_flight p = false →
  rtc pipeline_step p p' →
  (length (p_jobs p') + length (p_completions p') = if p_worker_in_flight p' then 1 else 0)%nat.
Proof.
  intros Hj Hc Hf Hr. change (one_worker p'). assert (one_worker p) as Hp.
  { unfold one_worker. by rewrite Hj, Hc, Hf. }
  clear Hj Hc Hf. induction Hr as [p|p p1 p2 Hstep _ IH]; [done|]. apply IH. clear IH.
  destruct Hstep; [by apply one_worker_driver|by apply one_worker_dispatch|by apply one_worker_trigger
    |by apply one_worker_runs|by apply one_worker_complete|by apply one_worker_install].
Qed.

(** ** The order of an installation *)

(** C36: An installation is ordered so that a crash cannot lose what it
    replaced: if it touched the state machine, the snapshot had been saved and
    the log anchor written; if it fails anywhere the engine is as it was; and
    a snapshot that is not ahead of the applied state changes nothing at all. *)
Theorem install_order m data p p' r :
  handle_install_snapshot m data p = (p', r) →
  (d_state_machine (p_driver p') ≠ d_state_machine (p_driver p) →
   ss_save_snapshot m data (p_snaps p) = (p_snaps p', Ok tt) ∧
   ∃ log, ls_update_snapshot_anchor (last_included_term m) (last_included_index m) (d_log_store (p_driver p))
          = (log, Ok tt)) ∧
  (∀ e, r = Err e → d_node (p_driver p') = d_node (p_driver p)) ∧
  (last_included_index m ≤ last_applied (d_node (p_driver p)) → p' = p ∧ r = Ok []).
Proof.
  unfold handle_install_snapshot. case_decide as Hold.
  { intros [<- <-]%pair_inv. done. }
  assert (∀ x : Prop, last_included_index m ≤ last_applied (d_node (p_driver p)) → x) as Hno by (intros x Hx; lia).
  destruct (ss_save_snapshot _ _ _) as [s [[]|e]] eqn:E1.
  2:{ intros [<- <-]%pair_inv. split_and!; [done|done|apply Hno]. }
  change (p_driver (p <| p_snaps := s |>)) with (p_driver p).
  destruct (ls_update_snapshot_anchor _ _ _) as [l [[]|e]] eqn:E2.
  2:{ intros [<- <-]%pair_inv. split_and!; [done|done|apply Hno]. }
  match goal with |- context [sm_restore data ?sm] => change sm with (d_state_machine (p_driver p)) end.
  destruct (sm_restore _ _) as [sm [[]|e]].
  2:{ intros [<- <-]%pair_inv. split_and!; [by eauto|done|apply Hno]. }
  destruct (cut_log _ _) as [l2 [[]|e]].
  2:{ intros [<- <-]%pair_inv. split_and!; [by eauto|done|apply Hno]. }
  destruct (step _ _) as [n acts]. destruct (effective_log_tip _ _) as [i t].
  intros [<- <-]%pair_inv. split_and!; [by eauto|done|apply Hno].
Qed.

(** ** What a snapshot stands for *)

Context {sinv : SS → Prop} {snaps : SS → list snap} {keep : nat} {sadmits : SnapshotMeta → bytes → Prop}
  {SL : SnapshotStoreLaws SS SSA sinv snaps keep sadmits} {ML : StateMachineLaws SM SA}.

Lemma saved_newest m data l :
  Forall (λ q, snap_index q < last_included_index m) l → head (saved keep m data l) = Some (normalised m data, data).
Proof.
  clear SL ML. intros Hl. unfold saved.
  assert (insert_newest snap_index (normalised m data, data) (filter (λ q, snap_index q ≠ last_included_index m) l) =
    (normalised m data, data) :: filter (λ q, snap_index q ≠ last_included_index m) l) as ->.
  { destruct (filter _ l) as [|q l'] eqn:Hf; [done|]. cbn. rewrite decide_True; [done|].
    assert (q ∈ filter (λ q, snap_index q ≠ last_included_index m) l) as [_ Hq]%list_elem_of_filter by (rewrite Hf; by left).
    rewrite Forall_forall in Hl. by apply Hl. }
  unfold retain_newest. by destruct keep.
Qed.

(** C6: A snapshot stands for the log up to its index, whatever happens while
    it is written: if the state machine holds the replay of [done] when the
    worker is dispatched, then at any later time, with the state machine
    anywhere else, what the worker saves is the store's latest snapshot, it
    names the index and term dispatched, and restoring it and replaying the
    entries after it gives the state of replaying the whole log. *)
Theorem snapshot_replaces_prefix done s0 i t reply p p' j data st :
  replay done s0 = Some (d_state_machine (p_driver p)) →
  dispatch_snapshot_worker i reply p = (p', Ok tt) → p_jobs p' = p_jobs p ++ [j] →
  ls_term_at i (d_log_store (p_driver p)) = Some t →
  sinv st → is_Some (voter_set (d_node (p_driver p))) → Forall (λ q, snap_index q < i) (snaps st) →
  serialize (sj_serializer j) = Ok data →
  sadmits (sj_metadata j <| sm_size_bytes := Some (N.of_nat (length data)) |>) data →
  ∃ st' c m, run_job j st = (st', c) ∧ sc_result c = Ok (N.of_nat (length data)) ∧
    ss_load_latest_snapshot st' = Ok (Some (m, data)) ∧
    last_included_index m = i ∧ last_included_term m = t ∧ sm_voter_set m = voter_set (d_node (p_driver p)) ∧
    ∀ now later, ∃ back, sm_restore data now = (back, Ok tt) ∧ replay later back = replay (done ++ later) s0.
Proof using SL ML.
  intros Hdone Hd Hj Ht Hi Hv Hnew Hser Hadm. unfold dispatch_snapshot_worker in Hd. revert Hd.
  destruct (p_worker_in_flight p); [by intros [_ ?]%pair_inv|]. rewrite Ht.
  destruct (sm_begin_snapshot _) as [z|] eqn:Hz; [|by intros [_ ?]%pair_inv].
  intros [<- _]%pair_inv. cbn in Hj. apply app_inv_head in Hj as [= <-].
  cbn [sj_serializer sj_metadata] in Hser, Hadm. unfold run_job. cbn [sj_serializer]. rewrite Hser.
  set (size := N.of_nat (length data)). cbn [sj_metadata].
  set (m0 := mkSnapshotMeta MA i t "" (voter_set (d_node (p_driver p))) None None <| sm_size_bytes := Some size |>).
  assert (regresses m0 (snaps st) = false) as Hreg.
  { unfold regresses. destruct (find _ _) as [q|] eqn:Hf; [|done]. apply find_some in Hf as [Hq Heq].
    apply list_elem_of_In in Hq. rewrite Forall_forall in Hnew. apply Hnew in Hq. apply N.eqb_eq in Heq. cbn in Heq. lia. }
  destruct (sl_save_ok (SnapshotStoreContract := sl_contract) m0 data st Hi Hv Hreg Hadm) as (st' & -> & Hi' & Hsn).
  eexists st', _, _. split; [done|]. split; [done|].
  rewrite (sl_load_latest (SnapshotStoreContract := sl_contract)) by done. rewrite Hsn, saved_newest by done.
  split; [done|]. split_and!; [done..|]. intros now later. exists (d_state_machine (p_driver p)). split.
  - eapply restore_snapshot, serialize_captured; done.
  - by rewrite replay_entries_app, Hdone.
Qed.

(** ** What an installation leaves *)

Context {linv : St → Prop} {log : St → list Entry} {anchor : St → option (N * N)} {ladmits : St → list Entry → Prop}
  {LL : LogStoreLaws St LA linv log anchor ladmits}.

(** The entries kept behind a snapshot: those after it, if the log has its
    last entry. *)
Definition kept_log (m : SnapshotMeta) (l : list Entry) : list Entry :=
  if decide (e_term <$> find (λ e, e_index e =? last_included_index m) l = Some (last_included_term m))
  then filter (λ e, last_included_index m < e_index e) l else [].

Lemma cut_log_spec m s :
  linv s → u64 (last_included_index m) →
  ∃ s', cut_log m s = (s', Ok tt) ∧ linv s' ∧ log s' = kept_log m (log s) ∧ anchor s' = anchor s.
Proof using LL.
  intros Hs Hu. unfold cut_log, kept_log. rewrite ls_term_at_spec by done. case_bool_decide as Hw; cbn.
  - destruct (ls_truncate_ok (LogStoreLaws := LL) 1 s Hs ltac:(done)) as (s1 & -> & H1 & Hl1 & Ha1).
    destruct (ls_flush_ok (LogStoreLaws := LL) s1 H1) as (s2 & -> & H2 & Hl2 & Ha2).
    exists s2. rewrite decide_False by done. split_and!; [done..| |congruence]. rewrite Hl2, Hl1.
    destruct (ls_contig (LogStoreLaws := LL) s Hs) as (i & t & Hi & Hc).
    apply filter_nothing. intros e He Hlt. destruct (contig_from_bounds _ _ _ _ Hc He). lia.
  - destruct (ls_purge_ok (LogStoreLaws := LL) (last_included_index m) s Hs Hu) as (s1 & -> & H1 & Hl1 & Ha1).
    destruct (ls_flush_ok (LogStoreLaws := LL) s1 H1) as (s2 & -> & H2 & Hl2 & Ha2).
    exists s2. rewrite decide_True by tauto. split_and!; [done..| |congruence]. by rewrite Hl2, Hl1.
Qed.

(** The engine after an installation that is ahead of it. *)
Lemma installed_node m n n' acts :
  step (InSnapshotInstalled m) n = (n', acts) → last_applied n < last_included_index m →
  is_snapshot_meta_newer (last_snapshot_meta n) m = true →
  acts = [] ∧ last_snapshot_meta n' = Some m ∧ last_applied n' = last_included_index m ∧
  commit_index n' = N.max (commit_index n) (last_included_index m) ∧ hard_state n' = hard_state n ∧
  role n' = role n ∧ snapshot_in_flight n' = false.
Proof.
  clear SL ML LL. cbn [step]. unfold handle_snapshot_installed. intros Hres Ha Hnew. revert Hres.
  destruct (decide (last_applied n < last_included_index m)) as [_|]; [|lia].
  set (n1 := n <| last_applied := _ |>).
  assert (is_snapshot_meta_newer (last_snapshot_meta n1) m = true) as Hnew1 by exact Hnew.
  assert (commit_index n1 = commit_index n ∧ hard_state n1 = hard_state n ∧ role n1 = role n ∧
    last_applied n1 = last_included_index m) as (Hc & Hh & Hr & Hla) by done. clearbody n1.
  destruct (decide (commit_index n1 < last_included_index m)) as [Hci|Hci];
    destruct (decide (last_log_index _ < last_included_index m)) as [Hl|Hl];
    match goal with |- context [is_snapshot_meta_newer ?x m] => change x with (last_snapshot_meta n1) end;
    rewrite Hnew1; intros [<- <-]%pair_inv; split_and!; try done; cbn; lia.
Qed.

(** C29: What installing a snapshot leaves: the store has the snapshot, the
    state machine is the one the snapshot was taken of, the log keeps exactly
    the entries behind the snapshot if it agrees with the snapshot's last
    entry and is empty otherwise, and the engine's applied, committed and last
    log positions are at or past the snapshot, the last being the end of what
    is stored; term, vote and role stay. *)
Theorem install_replaces_state m data p captured :
  let d := p_driver p in
  linv (d_log_store d) → sinv (p_snaps p) → u64 (last_included_index m) → u64 (last_included_term m) →
  is_Some (sm_voter_set m) → regresses m (snaps (p_snaps p)) = false → sadmits m data →
  sm_snapshot captured = Ok data →
  last_applied (d_node d) < last_included_index m →
  is_snapshot_meta_newer (last_snapshot_meta (d_node d)) m = true →
  ∃ p', handle_install_snapshot m data p = (p', Ok []) ∧
    let d' := p_driver p' in let n' := d_node d' in
    snaps (p_snaps p') = saved keep m data (snaps (p_snaps p)) ∧
    d_state_machine d' = captured ∧
    log (d_log_store d') = kept_log m (log (d_log_store d)) ∧
    last_applied n' = last_included_index m ∧
    commit_index n' = N.max (commit_index (d_node d)) (last_included_index m) ∧
    last_log_index n' = N.max (last_included_index m) (tail_index (kept_log m (log (d_log_store d)))) ∧
    hard_state n' = hard_state (d_node d) ∧ role n' = role (d_node d).
Proof using SL ML LL.
  intros d Hl Hs Hui Hut Hv Hreg Hadm Hcap Hap Hnew. unfold handle_install_snapshot.
  rewrite decide_False by (fold d; lia).
  destruct (sl_save_ok (SnapshotStoreContract := sl_contract) m data (p_snaps p) Hs Hv Hreg Hadm) as (s1 & -> & _ & Hsn).
  change (p_driver (p <| p_snaps := s1 |>)) with d.
  destruct (ls_anchor_ok (LogStoreLaws := LL) (last_included_term m) (last_included_index m) (d_log_store d) Hl Hut Hui)
    as (l1 & -> & Hl1 & Hlog1 & _).
  match goal with |- context [sm_restore data ?sm] => change sm with (d_state_machine d) end.
  rewrite (restore_snapshot captured data (d_state_machine d) Hcap).
  match goal with |- context [cut_log m ?s] => change s with l1 end.
  destruct (cut_log_spec m l1 Hl1 Hui) as (l2 & -> & Hl2 & Hlog2 & _).
  match goal with |- context [step ?x ?n] => destruct (step x n) as [n' acts] eqn:E end.
  apply installed_node in E as (-> & Hm & Ha & Hc & Hh & Hr & _); [|exact Hap|exact Hnew].
  match goal with |- context [effective_log_tip n' ?s] => change s with l2 end.
  assert (effective_log_tip n' l2 =
    if decide (tail_index (log l2) < last_included_index m) then (last_included_index m, last_included_term m)
    else (tail_index (log l2), tail_term (log l2))) as ->.
  { unfold effective_log_tip. rewrite Hm, ls_last_index_spec, ls_last_term_spec by done. done. }
  rewrite Hlog2, Hlog1. case_decide as Ht; (eexists; split; [reflexivity|]); cbn;
    split_and!; try done; try lia; by rewrite Hlog2, Hlog1.
Qed.

(** ** The operator's trigger *)

(** The operator's snapshot command can stop the leader: when the entry
    at the commit index is not in the log (nothing is committed yet, or the
    last snapshot took it), a leader with no snapshot under way dispatches a
    worker that finds no term, the driver halts, and the operator gets no
    answer. *)
Theorem trigger_without_entry_halts reply p :
  role (d_node (p_driver p)) = Leader → snapshot_in_flight (d_node (p_driver p)) = false →
  p_worker_in_flight p = false →
  ls_term_at (commit_index (d_node (p_driver p))) (d_log_store (p_driver p)) = None →
  d_halt_reason (p_driver (handle_trigger_snapshot reply p)) ≠ None ∧
  p_replies (handle_trigger_snapshot reply p) = p_replies p ∧ p_jobs (handle_trigger_snapshot reply p) = p_jobs p.
Proof.
  clear SL ML LL. intros Hr Hf Hw Ht. unfold handle_trigger_snapshot. rewrite decide_False by (rewrite Hr; auto).
  rewrite Hf, Hw. cbn [orb]. unfold dispatch_snapshot_worker.
  match goal with |- context [p_worker_in_flight ?q] => change (p_worker_in_flight q) with (p_worker_in_flight p) end.
  rewrite Hw. match goal with |- context [ls_term_at ?i ?s] => change s with (d_log_store (p_driver p)) end.
  rewrite Ht. split_and!; [|done..]. cbn. by destruct (d_halt_reason (p_driver p)).
Qed.
End Compaction.

(** ** Runs *)

Import Concrete.
#[local] Existing Instance Mem.api.
#[local] Existing Instance MemSnap.api.

(** A leader with two entries committed, and its driver without a snapshot. *)
Definition committed_script : list Move :=
  [MTick 1 22; MCall 1 3 true; MCall 1 3 true; MClient 1 [Byte.x0a] 1; MTick 3 6; MCall 3 1 true;
   MTick 3 6; MCall 3 1 true; MTick 3 6; MCall 3 1 true].
Definition busy_leader : node := default (start node1) (play_all committed_script world0 ≫= lookup 1).
Abbreviation cpipe := (Pipeline Mem.MemoryLogStore MemoryHardStateStore MemSnap.MemorySnapshotStore journal (@sm_serializer journal journal_machine)).
Definition idle (d : node) : cpipe := mkPipeline _ _ _ _ _ _ _ d MemSnap.new false [] [] [].

Lemma single_snapshot_worker_witness :
  let p := handle_trigger_snapshot 9 (handle_trigger_snapshot 8 (idle busy_leader)) in
  (length (p_jobs p) + length (p_completions p) = if p_worker_in_flight p then 1 else 0)%nat ∧
  length (p_jobs p) = 1%nat.
Proof.
  split; [|vm_compute; reflexivity].
  refine (single_snapshot_worker (idle busy_leader) _ eq_refl eq_refl eq_refl _).
  eapply rtc_l; [apply ps_trigger|]. eapply rtc_l; [apply ps_trigger|apply rtc_refl].
Defined.

(** A snapshot of a state with one command, and a fresh follower. *)
Definition one_command : journal := [(2, [Byte.x0a])].
Definition one_command_bytes : bytes := @bin_ser _ journal_bytes one_command.
Definition received : SnapshotMeta := snap_meta 5 1.

Lemma install_order_witness :
  ∃ p' r, handle_install_snapshot received one_command_bytes (idle (start node1)) = (p', r) ∧
    d_state_machine (p_driver p') ≠ d_state_machine (p_driver (idle (start node1))) ∧
    ss_save_snapshot received one_command_bytes (p_snaps (idle (start node1))) = (p_snaps p', Ok tt).
Proof.
  destruct (handle_install_snapshot received one_command_bytes (idle (start node1))) as [p' r] eqn:E.
  assert (d_state_machine (p_driver p') ≠ d_state_machine (p_driver (idle (start node1)))) as Hne.
  { assert (bool_decide (d_state_machine (p_driver (handle_install_snapshot received one_command_bytes (idle (start node1))).1)
      = d_state_machine (p_driver (idle (start node1)))) = false) as H by (vm_compute; reflexivity).
    rewrite E in H. by apply bool_decide_eq_false in H. }
  exists p', r. split; [reflexivity|]. split; [exact Hne|].
  exact (proj1 (proj1 (install_order received one_command_bytes _ _ _ E) Hne)).
Defined.

Lemma mem_new_inv : Mem.inv Mem.new.
Proof. split; [|done]. exists 1%N, 0%N. done. Qed.
Lemma mem_snap_new_inv : MemSnap.inv MemSnap.new.
Proof. split; constructor. Qed.

Lemma install_replaces_state_witness :
  ∃ p', handle_install_snapshot received one_command_bytes (idle (start node1)) = (p', Ok []) ∧
    let d' := p_driver p' in let n' := d_node d' in
    MemSnap.snaps (p_snaps p') = saved 0 received one_command_bytes (MemSnap.snaps MemSnap.new) ∧
    d_state_machine d' = one_command ∧
    Mem.entries (d_log_store d') = kept_log received [] ∧
    last_applied n' = 5 ∧ commit_index n' = N.max 0 5 ∧
    last_log_index n' = N.max 5 (tail_index (kept_log received [])) ∧
    hard_state n' = hard_state node1 ∧ role n' = role node1.
Proof.
  exact (install_replaces_state (SL := MemSnap.memory_snapshot_laws) (LL := Mem.memory_store_laws)
    received one_command_bytes (idle (start node1)) one_command mem_new_inv mem_snap_new_inv
    ltac:(done) ltac:(done) ltac:(by eexists) eq_refl ltac:(by split_and!) eq_refl ltac:(done) eq_refl).
Defined.

(** A leader that has just been elected: nothing is committed. *)
Definition fresh_leader : node :=
  default (start node1) (play_all [MTick 1 22; MCall 1 3 true; MCall 1 3 true] world0 ≫= lookup 1).
Lemma trigger_without_entry_halts_witness :
  let p := handle_trigger_snapshot 9 (idle fresh_leader) in
  d_halt_reason (p_driver p) ≠ None ∧ p_replies p = [] ∧ p_jobs p = [].
Proof.
  apply (trigger_without_entry_halts 9 (idle fresh_leader)); vm_compute; reflexivity.
Defined.

Definition committed_entries : list Entry := [mkEntry 1 1 NoOp; mkEntry 2 1 (Command [Byte.x0a])].
Definition dispatched : cpipe := (dispatch_snapshot_worker 2 None (idle busy_leader)).1.
Definition its_job : SnapshotJob (@sm_serializer journal journal_machine) :=
  mkSnapshotJob membership _ 2 1 (mkSnapshotMeta membership 2 1 "" (voter_set (d_node busy_leader)) None None)
    (mkEagerSerializer one_command_bytes) None.

Lemma snapshot_replaces_prefix_witness :
  ∃ st' c m, run_job its_job MemSnap.new = (st', c) ∧ sc_result c = Ok (N.of_nat (length one_command_bytes)) ∧
    ss_load_latest_snapshot st' = Ok (Some (m, one_command_bytes)) ∧
    last_included_index m = 2 ∧ last_included_term m = 1 ∧ sm_voter_set m = voter_set (d_node busy_leader) ∧
    ∀ (now : journal) later, ∃ back, sm_restore one_command_bytes now = (back, Ok tt) ∧
      replay later back = replay (committed_entries ++ later) [].
Proof.
  assert (d_state_machine busy_leader = one_command) as Hsm by (vm_compute; reflexivity).
  assert (ls_term_at 2 (d_log_store busy_leader) = Some 1) as Ht by (vm_compute; reflexivity).
  assert (is_Some (voter_set (d_node busy_leader))) as Hv by (vm_compute; eexists; reflexivity).
  assert (dispatch_snapshot_worker 2 None (idle busy_leader) = (dispatched, Ok tt)) as Hd.
  { unfold dispatched, dispatch_snapshot_worker. cbn [p_worker_in_flight idle p_driver]. rewrite Ht, Hsm. reflexivity. }
  assert (p_jobs dispatched = [its_job]) as Hj.
  { unfold dispatched, dispatch_snapshot_worker. cbn [p_worker_in_flight idle p_driver]. rewrite Ht, Hsm. reflexivity. }
  refine (snapshot_replaces_prefix (SL := MemSnap.memory_snapshot_laws) committed_entries [] 2 1 None
    (idle busy_leader) dispatched its_job one_command_bytes MemSnap.new _ Hd Hj Ht mem_snap_new_inv Hv _ eq_refl _).
  - transitivity (Some one_command); [reflexivity|]. exact (f_equal Some (eq_sym Hsm)).
  - constructor.
  - split_and!; done.
Defined.
