(* ===== verification/Server.v ===== *)
(** * Starting a server ([xraft-server/src/server.rs], [driver.rs])

    [Server::start_with_state_machine] up to the driver: restoring the state
    machine, reconciling the three sources of membership, building the engine
    and seeding it from the stores; then what [Driver::run] does before its
    loop.  The stores are open; listeners, the admin interface and the tasks
    are left out. *)

From S2P Require Import Prelude CoreTypes Message Text Config ElectionTimer RaftNode LogStore BTree WalCodec SnapshotNames SnapshotStore SnapshotTransfer ServeFetch HardStore StateMachine Driver.

Section Server.
Context {MA : MembershipApi} {RA : RngApi} {HI : HashIter} {CR : Crc32}
  {St : Type} {LA : LogStoreApi St} {HS : Type} {HA : HardStateStore HS}
  {SS : Type} {SSA : SnapshotStoreApi SS} {SM : Type} {SA : StateMachine SM}.

(** [restore_state_machine]. *)
Definition restore_state_machine (snapshot_store : SS) (sm : SM) : Result (SM * option SnapshotMeta) :=
  match ss_load_latest_snapshot snapshot_store with
  | Err _ => Err (Storage "load_latest_snapshot")
  | Ok None => Ok (sm, None)
  | Ok (Some (meta, data)) =>
      match sm_restore data sm with
      | (sm, Ok _) => Ok (sm, Some meta)
      | (_, Err _) => Err (Storage "state_machine.restore")
      end
  end.

(** ** The voter set *)

(** Two sources that are both present and differ. *)
Definition drift (a b : option VoterSet) : bool :=
  match a, b with Some a, Some b => bool_decide (a ≠ b) | _, _ => false end.

Definition reconcile_voter_sets (config persisted snapshot : option VoterSet) : Result VoterSet :=
  if drift config persisted
  then Err (Config "voter set on disk differs from the voter set in this config")
  else if drift persisted snapshot
  then Err (Config "voter set on disk differs from the voter set embedded in the restored snapshot")
  else if drift config snapshot
  then Err (Config "voter set in restored snapshot differs from this config's voter set")
  else match or_other (or_other config persisted) snapshot with
       | Some vs => Ok vs
       | None => Err (Config "cannot bootstrap: no voter set")
       end.

(** The local node is a voter or an observer, not both. *)
Definition check_membership (self : N) (vs : VoterSet) (obs : list N) : Result unit :=
  let in_voters := contains vs self in
  let in_observers := bool_decide (self ∈ obs) in
  if negb in_voters && negb in_observers
  then Err (Config "node_id is not present in the effective voter set or observers list")
  else if in_voters && in_observers
  then Err (Config "node_id appears in BOTH the effective voter set and observers list")
  else Ok tt.

(** Configuration entries for a voter set that came from the stores. *)
Definition synthesize_voters (vs : VoterSet) : Result (list VoterConfig) :=
  collect (λ v, let '(n, u, eps) := v in
    match eps with
    | ep :: _ => Ok (mkVoterConfig n (uuid_to_string u) (ep_host ep) (ep_port ep))
    | [] => Err (Config "voter in restored voter set has no endpoints")
    end) (voters vs).
Definition effective_cluster (vs : VoterSet) (cluster : ClusterConfig) : Result ClusterConfig :=
  match cfg_voters cluster with
  | [] => let? entries := synthesize_voters vs in Ok (cluster <| cfg_voters := entries |>)
  | _ => Ok cluster
  end.

(** ** The engine *)

(** Everything that can refuse the start before a file is written. *)
Definition prepare (cluster : ClusterConfig) (r : Rng) (hs_store : HS) (snapshot_store : SS) (sm : SM)
    : Result (RaftNode * SM * option SnapshotMeta * VoterSet * option VoterSet) :=
  if decide (data_dir cluster = "") then Err (Config "data_dir must not be empty")
  else
    let? restored := restore_state_machine snapshot_store sm in
    let '(sm, meta) := restored in
    let? config_voter_set := build_voter_set cluster in
    let? persisted_voter_set := load_voter_set hs_store in
    let snapshot_voter_set := meta ≫= sm_voter_set in
    let? effective := reconcile_voter_sets config_voter_set persisted_voter_set snapshot_voter_set in
    let? _ := check_membership (node_id cluster) effective (observers cluster) in
    let? cluster := effective_cluster effective cluster in
    let? node := new_inner cluster r in
    Ok (node, sm, meta, effective, persisted_voter_set).

(** Seeding the engine from the stores. *)
Definition seed_snapshot (meta : option SnapshotMeta) (n : RaftNode) : RaftNode :=
  match meta with
  | None => n
  | Some m =>
      let n := if decide (commit_index n < last_included_index m)
               then n <| commit_index := last_included_index m |> else n in
      let n := if decide (last_applied n < last_included_index m)
               then n <| last_applied := last_included_index m |> else n in
      match last_snapshot_meta n with
      | None => n <| last_snapshot_meta := Some m |>
      | Some _ => n
      end
  end.
Definition seed_engine (hs : option HardState) (meta : option SnapshotMeta) (log_store : St) (n : RaftNode)
    : RaftNode :=
  let n := match hs with Some hs => n <| hard_state := hs |> | None => n end in
  let n := set_last_log (ls_last_index log_store) (ls_last_term log_store) n in
  let n := seed_snapshot meta n in
  let persisted_commit_clamped := N.min (hs_commit_index (hard_state n)) (ls_last_index log_store) in
  if decide (commit_index n < persisted_commit_clamped)
  then n <| commit_index := persisted_commit_clamped |> else n.

(** [start_with_state_machine]: the hard-state store afterwards, and the
    engine and state machine the driver gets. *)
Definition start_with_state_machine (cluster : ClusterConfig) (r : Rng) (log_store : St) (hs_store : HS) (snapshot_store : SS) (sm : SM)
    : HS * Result (RaftNode * SM) :=
  match prepare cluster r hs_store snapshot_store sm with
  | Err e => (hs_store, Err e)
  | Ok (node, sm, meta, effective, persisted_voter_set) =>
      let '(hs_store, written) :=
        match persisted_voter_set with
        | None => persist_voter_set effective hs_store
        | Some _ => (hs_store, Ok tt)
        end in
      match written with
      | Err e => (hs_store, Err e)
      | Ok _ =>
          match load hs_store with
          | Err e => (hs_store, Err e)
          | Ok hs => (hs_store, Ok (seed_engine hs meta log_store node, sm))
          end
      end
  end.

(** ** The driver before its loop *)

Context (fail_waiters_in_range : N → N → string → Driver St HS SM → Driver St HS SM).

(** [Driver::with_channels]. *)
Definition with_channels (node : RaftNode) (log_store : St) (hs_store : HS) (sm : SM) (max_fetch_batch : N)
    : Driver St HS SM :=
  mkDriver _ _ _ _ _ node log_store hs_store sm ∅ [] None max_fetch_batch [].

(** The recovered entries that are committed but not applied. *)
Definition recovery_drain (d : Driver St HS SM) : option (Driver St HS SM) :=
  match RaftNode.apply_committed (d_node d) with
  | (node, []) => Some (d <| d_node := node |>)
  | (node, acts) =>
      '(d, _) ← process_actions fail_waiters_in_range acts None (d <| d_node := node |>);
      Some d
  end.
End Server.
