(* ===== verification/Restart.v ===== *)
(** * What a restart restores

    A server started on the stores a driver left behind: the vote it cast, the
    membership it agreed on, and the state machine; and what it does not
    restore. *)

From S2P Require Import Prelude CoreTypes Message Text Config ElectionTimer RaftNode NodeFacts NodeInvariant LogStore MemoryLog BTree WalCodec SnapshotNames SnapshotCodec SnapshotStore MemorySnapshots SnapshotTransfer ServeFetch HardStore StateMachine Driver DriverFacts DriverRuns DriverDurable SnapshotPipeline Server Compaction Concrete.

Section Restart.
Context {MA : MembershipApi} {RA : RngApi} {HI : HashIter} {CR : Crc32}
  {St : Type} {LA : LogStoreApi St} {HS : Type} {HA : HardStateStore HS}
  {SS : Type} {SSA : SnapshotStoreApi SS} {SM : Type} {SA : StateMachine SM}.
Implicit Types (n : RaftNode) (hs : HS) (snapshots : SS) (sm : SM) (s : St).

(** ** Membership *)

(** The sources that are present. *)
Definition present (vss : list (option VoterSet)) : list VoterSet := omap (λ x, x) vss.

Lemma drift_false a b : drift a b = false ↔ ∀ x y, a = Some x → b = Some y → x = y.
Proof.
  destruct a as [a|], b as [b|]; cbn; try (split; [intros _ x y; congruence|done]).
  rewrite bool_decide_eq_false. split.
  - intros Hn x y [= <-] [= <-]. by destruct (decide (a = b)).
  - intros Hxy Hne. by apply Hne, Hxy.
Qed.

(** The three sources of membership are reconciled to what they agree on:
    a voter set is accepted exactly when at least one of configuration, disk
    and snapshot names one and every source that does names that one. *)
Theorem reconcile_agreement config persisted snapshot vs :
  reconcile_voter_sets config persisted snapshot = Ok vs ↔
  vs ∈ present [config; persisted; snapshot] ∧ ∀ x, x ∈ present [config; persisted; snapshot] → x = vs.
Proof.
  unfold reconcile_voter_sets, present.
  destruct config as [c|], persisted as [p|], snapshot as [q|]; cbn;
    repeat case_bool_decide; subst; (split; [intros Hr; try discriminate Hr; try (injection Hr as <-)|intros [Hin Hall]]);
    lazymatch goal with
    | |- Ok _ = Ok _ => f_equal; apply Hall; by left
    | |- Err _ = _ => exfalso; first [by apply not_elem_of_nil in Hin
        | match goal with Hn : _ ≠ _ |- _ => apply Hn; trans vs; [|symmetry]; apply Hall; rewrite !elem_of_cons; tauto end]
    | |- _ => set_solver
    end.
Qed.

(** ** Refusals *)

(** A refused start writes nothing: whatever is wrong with the
    configuration, the membership or the snapshot, the hard-state store is as
    it was; only a start that passed every check, or that failed in the store
    itself, has called it. *)
Theorem refused_start_writes_nothing cluster r s hs snapshots sm hs' e :
  start_with_state_machine cluster r s hs snapshots sm = (hs', Err e) →
  prepare cluster r hs snapshots sm = Err e ∧ hs' = hs ∨
  ∃ n sm1 meta vs, (prepare cluster r hs snapshots sm = Ok (n, sm1, meta, vs, None) ∧
      (persist_voter_set vs hs = (hs', Err e) ∨ persist_voter_set vs hs = (hs', Ok tt) ∧ load hs' = Err e)) ∨
    ∃ p, prepare cluster r hs snapshots sm = Ok (n, sm1, meta, vs, Some p) ∧ hs' = hs ∧ load hs' = Err e.
Proof.
  unfold start_with_state_machine. destruct (prepare _ _ _ _ _) as [[[[[n sm1] meta] vs] persisted]|e0] eqn:Hp.
  2:{ intros [<- [= <-]]%pair_inv. by left. }
  intros H. right. exists n, sm1, meta, vs. destruct persisted as [p|].
  - right. exists p. destruct (load hs) eqn:Hl; apply pair_inv in H as [<- [=]]. by subst.
  - left. split; [done|]. destruct (persist_voter_set vs hs) as [hs1 [[]|e1]].
    + destruct (load hs1) eqn:Hl; apply pair_inv in H as [<- [=]]. right. by subst.
    + apply pair_inv in H as [<- [= <-]]. by left.
Qed.

(** ** The vote *)

Context {HL : HardStateStoreLaws HS HA}.

Lemma new_inner_hard cluster r n : new_inner cluster r = Ok n → hard_state n = no_hard_state ∧ last_applied n = 0 ∧
  commit_index n = 0 ∧ last_snapshot_meta n = None ∧ snapshot_in_flight n = false.
Proof.
  clear HL. unfold new_inner. destruct (validate cluster); [|done]. cbn [rbind].
  destruct (build_voter_set cluster) as [vs|]; [|done]. cbn [rbind].
  destruct (next_u64 r) as [s1 r1]. destruct (Timer.from_config_ms _ _ _ _) as [[timer x]|]; [|done].
  destruct (next_u64 r1) as [s2 r2]. by intros [= <-].
Qed.
Lemma prepare_node cluster r hs snapshots sm n sm1 meta vs p :
  prepare cluster r hs snapshots sm = Ok (n, sm1, meta, vs, p) →
  restore_state_machine snapshots sm = Ok (sm1, meta) ∧ ∃ c, new_inner c r = Ok n.
Proof.
  clear HL. unfold prepare. case_decide; [done|].
  destruct (restore_state_machine _ _) as [[sm2 meta2]|]; [|done]. cbn [rbind].
  destruct (build_voter_set cluster); [|done]. cbn [rbind]. destruct (load_voter_set hs); [|done]. cbn [rbind].
  destruct (reconcile_voter_sets _ _ _); [|done]. cbn [rbind]. destruct (check_membership _ _ _); [|done]. cbn [rbind].
  destruct (effective_cluster _ _) as [c|]; [|done]. cbn [rbind]. destruct (new_inner c r) as [n0|] eqn:Hn; [|done].
  cbn [rbind]. intros [= <- <- <- <- <-]. eauto.
Qed.

(** What seeding the snapshot changes. *)
Lemma seed_snapshot_fields meta n :
  last_snapshot_meta n = None →
  let n' := seed_snapshot meta n in
  let i := default 0 (last_included_index <$> meta) in
  hard_state n' = hard_state n ∧ last_log_index n' = last_log_index n ∧ last_log_term n' = last_log_term n ∧
  config n' = config n ∧ snapshot_in_flight n' = snapshot_in_flight n ∧
  commit_index n' = N.max (commit_index n) i ∧ last_applied n' = N.max (last_applied n) i ∧
  last_snapshot_meta n' = meta.
Proof.
  clear HL. intros Hn. destruct meta as [m|]; cbn; [|split_and!; try done; lia].
  case_decide as Hc; case_decide as Ha; cbn in *; rewrite Hn; cbn; split_and!; try done; lia.
Qed.
Lemma seed_engine_fields o meta s n :
  last_snapshot_meta n = None →
  let n' := seed_engine o meta s n in
  let i := default 0 (last_included_index <$> meta) in
  hard_state n' = default (hard_state n) o ∧
  last_log_index n' = ls_last_index s ∧ last_log_term n' = ls_last_term s ∧
  config n' = config n ∧ snapshot_in_flight n' = snapshot_in_flight n ∧
  commit_index n' = N.max (N.max (commit_index n) i)
                      (N.min (hs_commit_index (default (hard_state n) o)) (ls_last_index s)) ∧
  last_applied n' = N.max (last_applied n) i ∧ last_snapshot_meta n' = meta.
Proof.
  clear HL. intros Hn n' i. subst n'. unfold seed_engine.
  set (n1 := set_last_log _ _ _).
  assert (hard_state n1 = default (hard_state n) o ∧ last_log_index n1 = ls_last_index s ∧
    last_log_term n1 = ls_last_term s ∧ config n1 = config n ∧ snapshot_in_flight n1 = snapshot_in_flight n ∧
    commit_index n1 = commit_index n ∧ last_applied n1 = last_applied n ∧ last_snapshot_meta n1 = None)
    as (H1 & H2 & H3 & H4 & H5 & H6 & H7 & H8) by by (unfold n1; destruct o).
  clearbody n1. destruct (seed_snapshot_fields meta n1 H8) as (G1 & G2 & G3 & G4 & G5 & G6 & G7 & G8).
  fold i in G6, G7. set (n2 := seed_snapshot meta n1) in *. clearbody n2.
  rewrite G1, H1. case_decide as Hlt; cbn; split_and!; try congruence; lia.
Qed.
(** The engine of a start is a fresh one seeded from the stores. *)
Lemma start_seeds cluster r s hs snapshots sm hs' n sm' :
  start_with_state_machine cluster r s hs snapshots sm = (hs', Ok (n, sm')) →
  ∃ o meta n0, load hs = Ok o ∧ load hs' = Ok o ∧ n = seed_engine o meta s n0 ∧
    hard_state n0 = no_hard_state ∧ commit_index n0 = 0 ∧ last_snapshot_meta n0 = None.
Proof using HL.
  unfold start_with_state_machine. destruct (prepare _ _ _ _ _) as [[[[[n1 sm1] meta] vs] persisted]|e0] eqn:Hp;
    [|by intros [_ ?]%pair_inv].
  apply prepare_node in Hp as (_ & c & (Hh & _ & Hc & Hm & _)%new_inner_hard).
  assert (∃ hs1 w, (match persisted with None => persist_voter_set vs hs | Some _ => (hs, Ok tt) end) = (hs1, w) ∧
    (w = Ok tt → load hs1 = load hs)) as (hs1 & w & -> & Hw).
  { destruct persisted; [by eexists _, _|]. destruct (persist_voter_set vs hs) as [hs1 w] eqn:E. eexists _, _.
    split; [done|]. intros ->. by apply persist_voter_set_ok in E as [_ ?]. }
  destruct w as [[]|]; [|by intros [_ ?]%pair_inv]. rewrite <-(Hw eq_refl).
  destruct (load hs1) as [o|] eqn:Hl; [|by intros [_ ?]%pair_inv].
  intros [<- [= <- _]]%pair_inv. by exists o, meta, n1.
Qed.
Lemma start_hard cluster r s hs snapshots sm hs' n sm' :
  start_with_state_machine cluster r s hs snapshots sm = (hs', Ok (n, sm')) →
  ∃ o, load hs = Ok o ∧ load hs' = Ok o ∧ hard_state n = default no_hard_state o.
Proof using HL.
  intros (o & meta & n0 & Hl & Hl' & -> & Hh & _ & Hm)%start_seeds. exists o. split_and!; [done..|].
  destruct (seed_engine_fields o meta s n0 Hm) as [-> _]. by rewrite Hh.
Qed.

Context (fail_waiters_in_range : N → N → string → Driver St HS SM → Driver St HS SM).
Context (fails_waiters : ∀ a b m d, still d (fail_waiters_in_range a b m d)).

(** C4: A crash takes back no vote: a driver that started in step with its
    hard-state store, handled any events without a fatal error and was then
    killed, comes back from that store with the term and the vote it had,
    whatever log, snapshots, state machine and configuration it is started
    with; and it is in step with the store again. *)
Theorem crash_keeps_vote evs d d' cluster r s snapshots sm hs' n sm' :
  run_events fail_waiters_in_range evs d = Some d' →
  d_halt_reason d = None → synced d → d_halt_reason d' = None →
  start_with_state_machine cluster r s (d_hs_store d') snapshots sm = (hs', Ok (n, sm')) →
  term n = term (d_node d') ∧ vote n = vote (d_node d') ∧
  ∀ batch, synced (with_channels n s hs' sm' batch).
Proof using HL fails_waiters.
  intros Hrun Hh Hs Hh' Hstart. eapply run_synced in Hrun; [|done..].
  apply synced_load in Hrun as (o & Hl & Ht & Hv).
  apply start_hard in Hstart as (o' & Hl1 & Hl2 & Hn). rewrite Hl in Hl1. injection Hl1 as <-.
  unfold term, vote in *. split_and!; [congruence..|]. intros batch.
  unfold synced, on_disk, in_memory, with_channels. cbn [d_hs_store d_node]. by rewrite Hl2, Hn.
Qed.

(** ** The state machine *)

Lemma window_exact i t L from to :
  contig_from i t L → i ≤ from → from ≤ to → to < i + N.of_nat (length L) →
  in_place from (window_from from (to + 1) L) = true ∧
  N.of_nat (length (window_from from (to + 1) L)) = to - from + 1.
Proof.
  clear. unfold window_from. revert i t from. induction L as [|x L IH]; intros i t from; cbn [length]; [lia|].
  intros (Hx & _ & Hl) Hi Hle Hto. destruct (decide (i < from)) as [Hlt|Hge].
  { rewrite filter_cons_False by lia. eapply IH; [exact Hl|lia..]. }
  assert (from = i) as -> by lia. rewrite filter_cons_True by lia. cbn [in_place length].
  rewrite bool_decide_true by done. cbn [andb]. destruct (decide (i = to)) as [->|Hne].
  - rewrite filter_nothing; [cbn; split; [done|lia]|].
    intros y Hy. pose proof (contig_from_bounds _ _ _ _ Hl Hy). lia.
  - rewrite (filter_iff_in _ (λ e, i + 1 ≤ e_index e ∧ e_index e < to + 1)).
    + destruct (IH (i + 1) (e_term x) (i + 1)) as [H1 H2]; [done|lia..|]. split; [exact H1|lia].
    + intros y Hy. pose proof (contig_from_bounds _ _ _ _ Hl Hy). lia.
Qed.

(** Resolving waiters leaves everything but the waiters. *)
Record same_state (d d' : Driver St HS SM) : Prop := mkSameState {
  ss_node : d_node d' = d_node d;
  ss_log : d_log_store d' = d_log_store d;
  ss_halt : d_halt_reason d' = d_halt_reason d;
}.
Lemma apply_entries_replay to es d sm' :
  replay es (d_state_machine d) = Some sm' →
  ∃ d', apply_entries fail_waiters_in_range to es d = (d', Ok tt) ∧ d_state_machine d' = sm' ∧ same_state d d'.
Proof.
  clear HL fails_waiters. revert d. induction es as [|e es IH]; intros d; cbn [replay apply_entries].
  { intros [= <-]. by exists d. }
  assert (∀ i r (x : Driver St HS SM), d_state_machine (resolve_waiters_at i r x) = d_state_machine x ∧
    same_state x (resolve_waiters_at i r x)) as Hres.
  { intros j r x. unfold resolve_waiters_at. by destruct (d_pending x !! j). }
  assert (∀ x : Driver St HS SM, same_state d x → replay es (d_state_machine x) = Some sm' →
    ∃ d', apply_entries fail_waiters_in_range to es (resolve_waiters_at (e_index e) (Ok (e_index e)) x) = (d', Ok tt) ∧
      d_state_machine d' = sm' ∧ same_state d d') as Hgo.
  { intros x Hx Hre. destruct (Hres (e_index e) (Ok (e_index e)) x) as [Hsm Hsame].
    rewrite <-Hsm in Hre. destruct (IH _ Hre) as (d' & -> & Hd & H'). exists d'. split_and!; [done..|].
    destruct Hx, Hsame, H'. split; congruence. }
  destruct (e_payload e) as [b| | |]; [|by apply Hgo..].
  destruct (sm_apply _ _ _) as [sm1 [r|r]]; [|done]. intros Hre. by apply Hgo.
Qed.

Context {linv : St → Prop} {log : St → list Entry} {anchor : St → option (N * N)} {ladmits : St → list Entry → Prop}
  {LL : LogStoreLaws St LA linv log anchor ladmits}.

Lemma drain_without_snapshot n :
  snapshot_in_flight n = false → commit_index n - snapshot_index n ≤ max_log_entries_before_compaction (config n) →
  RaftNode.apply_committed n =
    (n <| last_applied := N.max (last_applied n) (commit_index n) |>,
     if decide (commit_index n ≤ last_applied n) then [] else [ApplyToStateMachine (sat_add (last_applied n) 1) (commit_index n)]).
Proof.
  clear. intros Hf Hlag. unfold RaftNode.apply_committed, drain_apply_pipeline.
  destruct (maybe_apply n) as [n1 o] eqn:E. apply maybe_apply_shape in E as [-> Ho]. rewrite Ho.
  set (n1 := n <| last_applied := _ |>).
  assert (snapshot_in_flight n1 = false ∧ commit_index n1 = commit_index n ∧ snapshot_index n1 = snapshot_index n ∧
    config n1 = config n) as (H1 & H2 & H3 & H4) by done.
  unfold maybe_take_snapshot. clearbody n1. rewrite H1, H2, H3, H4, decide_False by lia.
  by rewrite app_nil_r.
Qed.

(** Draining the recovered range: the log holds what the engine has committed
    but not applied. *)
Lemma recovery_drain_spec (d : Driver St HS SM) sm' :
  let n := d_node d in let L := log (d_log_store d) in
  linv (d_log_store d) → d_halt_reason d = None → commit_index n < u64_max →
  snapshot_in_flight n = false →
  commit_index n - snapshot_index n ≤ max_log_entries_before_compaction (config n) →
  (last_applied n < commit_index n →
   commit_index n ≤ tail_index L ∧ ∃ x, head L = Some x ∧ e_index x ≤ last_applied n + 1) →
  replay (window_from (last_applied n + 1) (commit_index n + 1) L) (d_state_machine d) = Some sm' →
  last_applied n ≤ commit_index n →
  ∃ d', recovery_drain fail_waiters_in_range d = Some d' ∧ d_halt_reason d' = None ∧
    d_state_machine d' = sm' ∧ last_applied (d_node d') = commit_index n ∧ commit_index (d_node d') = commit_index n.
Proof using LL.
  clear HL fails_waiters. intros n L Hl Hh Hu Hf Hlag Hcov Hre Hle. unfold recovery_drain.
  rewrite drain_without_snapshot by done. fold n. case_decide as Hc.
  { eexists. split; [done|]. cbn. split_and!; [done| |lia|done].
    revert Hre. unfold window_from. rewrite filter_nothing; [by intros [= <-]|]. intros x _. lia. }
  destruct Hcov as (Htail & x & Hhead & Hx); [lia|].
  set (d1 := d <| d_node := _ |>). unfold process_actions. cbn [length Nat.add process exec_action].
  assert (∃ d2, Driver.apply_committed fail_waiters_in_range (sat_add (last_applied n) 1) (commit_index n) d1
    = Some (d2, Ok tt) ∧ d_state_machine d2 = sm' ∧ same_state d1 d2) as (d2 & Happ & Hsm & Hsame).
  { assert (sat_add (last_applied n) 1 = last_applied n + 1) as -> by (unfold sat_add; lia).
    unfold Driver.apply_committed. rewrite decide_False by lia. rewrite decide_False by lia.
    change (d_log_store d1) with (d_log_store d). rewrite (ls_get_range_spec (LogStoreLaws := LL)) by (done || lia).
    cbn [mbind option_bind]. fold L. change (filter _ L) with (window_from (last_applied n + 1) (commit_index n + 1) L).
    destruct (ls_contig (LogStoreLaws := LL) _ Hl) as (i & t & Hi & Hcon). fold L in Hcon.
    assert (i = e_index x) as ->.
    { destruct L as [|y L']; [done|]. injection Hhead as ->. by destruct Hcon. }
    destruct (window_exact _ _ _ (last_applied n + 1) (commit_index n) Hcon) as [Hin Hlen]; [lia|lia| |].
    { unfold tail_index in Htail. destruct (last L) as [z|] eqn:Hz; [|lia].
      pose proof (contig_from_last _ _ _ _ Hcon Hz). lia. }
    rewrite decide_False by (rewrite Hlen; lia). rewrite Hin. cbn [negb].
    destruct (apply_entries_replay (commit_index n) _ d1 sm' Hre) as (d2 & -> & Hsm & Hsame). by exists d2. }
  unfold apply_action. rewrite Happ. cbn [mbind option_bind]. exists d2. destruct Hsame as [Hn _ Hhalt].
  split; [done|]. rewrite Hhalt, Hn. split_and!; [done..| |done]. cbn. lia.
Qed.

(** What [start_with_state_machine] makes of the engine, once it succeeds. *)
Lemma start_engine cluster r s hs snapshots sm hs' n sm1 :
  start_with_state_machine cluster r s hs snapshots sm = (hs', Ok (n, sm1)) →
  ∃ latest, ss_load_latest_snapshot snapshots = Ok latest ∧
    let i := default 0 (last_included_index <$> (fst <$> latest)) in
    last_log_index n = ls_last_index s ∧ last_log_term n = ls_last_term s ∧
    commit_index n = N.max i (N.min (hs_commit_index (hard_state n)) (ls_last_index s)) ∧
    last_applied n = i ∧ snapshot_index n = i ∧ snapshot_in_flight n = false.
Proof.
  clear HL fails_waiters LL. unfold start_with_state_machine. destruct (prepare _ _ _ _ _) as [[[[[n1 sm2] meta] vs] persisted]|e0] eqn:Hp;
    [|by intros [_ ?]%pair_inv].
  apply prepare_node in Hp as (Hr & c & (Hh & Ha & Hc & Hm & Hf)%new_inner_hard).
  destruct (match persisted with Some _ => _ | None => _ end) as [hs1 [[]|]]; [|by intros [_ ?]%pair_inv].
  destruct (load hs1) as [o|]; [|by intros [_ ?]%pair_inv]. intros [_ [= <- <-]]%pair_inv.
  assert (∃ latest, ss_load_latest_snapshot snapshots = Ok latest ∧ meta = fst <$> latest) as (latest & Hl & ->).
  { revert Hr. unfold restore_state_machine. destruct (ss_load_latest_snapshot snapshots) as [[[m data]|]|]; [| |done].
    - destruct (sm_restore data sm) as [sm3 [[]|]]; [|done]. intros [= _ <-]. by eexists.
    - intros [= _ <-]. by eexists. }
  exists latest. split; [done|].
  destruct (seed_engine_fields o (fst <$> latest) s n1 Hm) as (H1 & H2 & H3 & _ & H5 & H6 & H7 & H8).
  set (n2 := seed_engine _ _ _ _) in *. clearbody n2. cbn zeta in *. unfold snapshot_index. rewrite H8, H5, H6, H7, H1, Ha, Hc.
  split_and!; [done|done|lia|lia| |done]. by destruct latest.
Qed.

(** C5: Recovery is the replay of the committed log: if the restored snapshot
    stands for the entries [done], and the log goes on where the snapshot ends
    without a gap, then before its loop starts the driver has applied exactly
    the entries from the snapshot to the persisted commit index (at most the
    end of the log), nothing of it twice and nothing skipped, and its state
    machine is the replay of the whole committed history. *)
Theorem restart_restores_state cluster r s hs snapshots sm hs' n sm1 latest done sm0 sm2 batch :
  start_with_state_machine cluster r s hs snapshots sm = (hs', Ok (n, sm1)) →
  ss_load_latest_snapshot snapshots = Ok latest →
  let i := default 0 (last_included_index <$> (fst <$> latest)) in
  let L := log s in
  let k := N.max i (N.min (hs_commit_index (hard_state n)) (tail_index L)) in
  linv s → k < u64_max → (i < tail_index L → ∃ x, head L = Some x ∧ e_index x ≤ i + 1) →
  k - i ≤ max_log_entries_before_compaction (config n) →
  replay done sm0 = Some sm1 → replay (done ++ window_from (i + 1) (k + 1) L) sm0 = Some sm2 →
  ∃ d', recovery_drain fail_waiters_in_range (with_channels n s hs' sm1 batch) = Some d' ∧
    d_halt_reason d' = None ∧ d_state_machine d' = sm2 ∧
    last_applied (d_node d') = k ∧ commit_index (d_node d') = k.
Proof using LL.
  clear HL fails_waiters. intros Hstart Hl i L k Hi Hk Hcov Hlag Hdone Hre.
  apply start_engine in Hstart as (latest' & Hl' & _ & _ & Hc & Ha & Hs & Hf).
  rewrite Hl in Hl'. injection Hl' as <-. rewrite (ls_last_index_spec (LogStoreLaws := LL)) in Hc by done.
  cbn zeta in Hc, Ha, Hs. fold i in Hc, Ha, Hs. fold L in Hc. fold k in Hc.
  rewrite replay_entries_app, Hdone in Hre. cbn [mbind option_bind] in Hre.
  destruct (recovery_drain_spec (with_channels n s hs' sm1 batch) sm2) as (d' & Hd & Hh & Hsm & Hla & Hci).
  all: cbn [with_channels d_node d_log_store d_state_machine d_halt_reason]; rewrite ?Hc, ?Ha, ?Hs; try done; try lia.
  - intros Hlt. split; [unfold k in *; fold L; lia|]. apply Hcov. unfold k in Hlt. lia.
  - exists d'. split; [exact Hd|]. cbn [with_channels d_node] in Hla, Hci. rewrite Hc in Hla, Hci. done.
Qed.

(** A restart does not restore the end of a compacted log: when the
    snapshot has replaced every entry, the engine starts with a last log
    position of zero although it has committed up to the snapshot; it is not a
    well-formed engine state, and it considers a candidate with an empty log
    up to date, so it can vote a leader in that lacks everything committed. *)
Theorem restart_forgets_snapshot_tail cluster r s hs snapshots sm hs' n sm1 m data :
  start_with_state_machine cluster r s hs snapshots sm = (hs', Ok (n, sm1)) →
  ss_load_latest_snapshot snapshots = Ok (Some (m, data)) → linv s → log s = [] → 0 < last_included_index m →
  last_log_index n = 0 ∧ last_log_term n = 0 ∧ last_included_index m ≤ commit_index n ∧ ¬ node_wf n ∧
  candidate_log_is_up_to_date n 0 0 = true.
Proof using LL.
  clear HL fails_waiters. intros Hstart Hl Hi Hlog Hpos.
  apply start_engine in Hstart as (latest' & Hl' & H1 & H2 & Hc & _).
  rewrite Hl in Hl'. injection Hl' as <-. cbn in Hc.
  rewrite (ls_last_index_spec (LogStoreLaws := LL)), Hlog in H1 by done.
  rewrite (ls_last_term_spec (LogStoreLaws := LL)), Hlog in H2 by done. cbn in H1, H2.
  split_and!; [done|done|lia| |].
  - intros [_ _ _ _ _ _ Hw _ _ _]. lia.
  - unfold candidate_log_is_up_to_date. rewrite H1, H2. done.
Qed.
End Restart.

(** ** Runs *)

Import Concrete.
#[local] Existing Instance Mem.api.
#[local] Existing Instance MemSnap.api.
Abbreviation boot_on c log hs snaps := (start_with_state_machine c 7 log hs snaps ([] : journal)).

Lemma refused_start_writes_nothing_witness :
  boot_on (base 4 three []) Mem.new cached_default MemSnap.new =
    (cached_default, Err (Config "node_id is not present in the effective voter set or observers list")) ∧
  (prepare (base 4 three []) 7 cached_default MemSnap.new ([] : journal) =
     Err (Config "node_id is not present in the effective voter set or observers list") ∧ cached_default = cached_default ∨
   ∃ n sm1 meta vs, (prepare (base 4 three []) 7 cached_default MemSnap.new ([] : journal) = Ok (n, sm1, meta, vs, None) ∧
       (persist_voter_set vs cached_default = (cached_default, Err (Config "node_id is not present in the effective voter set or observers list")) ∨
        persist_voter_set vs cached_default = (cached_default, Ok tt) ∧
        load cached_default = Err (Config "node_id is not present in the effective voter set or observers list"))) ∨
     ∃ p, prepare (base 4 three []) 7 cached_default MemSnap.new ([] : journal) = Ok (n, sm1, meta, vs, Some p) ∧
       cached_default = cached_default ∧
       load cached_default = Err (Config "node_id is not present in the effective voter set or observers list")).
Proof.
  assert (boot_on (base 4 three []) Mem.new cached_default MemSnap.new =
    (cached_default, Err (Config "node_id is not present in the effective voter set or observers list"))) as H
    by (vm_compute; reflexivity).
  split; [exact H|]. exact (refused_start_writes_nothing _ _ _ _ _ _ _ _ H).
Defined.

(** A voter that grants its vote and is killed. *)
Definition killed : node := default (start node3) (run_events fail_waiters [EvVote its_request; EvTick] (start node3)).
Definition revived : MemoryHardStateStore * Result (RaftNode * journal) :=
  boot_on (base 3 three []) (d_log_store killed) (d_hs_store killed) MemSnap.new.

Lemma crash_keeps_vote_witness :
  ∃ hs' n sm', revived = (hs', Ok (n, sm')) ∧ term n = term (d_node killed) ∧ vote n = vote (d_node killed) ∧
    vote n = Some 1.
Proof.
  assert (match run_events fail_waiters [EvVote its_request; EvTick] (start node3) with
          | Some _ => true | None => false end && bool_decide (d_halt_reason killed = None) &&
          bool_decide (vote (d_node killed) = Some 1) && match revived with (_, Ok _) => true | _ => false end = true) as H
    by vm_cast_no_check (eq_refl true).
  apply andb_true_iff in H as [[[Hr Hh%bool_decide_eq_true]%andb_true_iff Hv%bool_decide_eq_true]%andb_true_iff Hb].
  assert (run_events fail_waiters [EvVote its_request; EvTick] (start node3) = Some killed) as Hrun.
  { unfold killed. destruct (run_events _ _ _); [reflexivity|discriminate Hr]. }
  destruct revived as [hs' [[n sm']|e]] eqn:Hrev; [|discriminate Hb]. exists hs', n, sm'.
  pose proof (crash_keeps_vote fail_waiters still_fail_range _ (start node3) killed _ _ _ _ _ hs' n sm'
    Hrun eq_refl start_synced Hh Hrev) as (Ht & Hvote & _).
  split; [reflexivity|]. split; [exact Ht|]. split; [exact Hvote|]. rewrite Hvote. exact Hv.
Defined.

(** A log of two entries, the first in a snapshot, both committed. *)
Definition first_entry : list Entry := [mkEntry 1 1 NoOp].
Definition two_entries : Mem.MemoryLogStore := (Mem.append committed_entries Mem.new).1.
Definition first_snapshot : SnapshotMeta := snap_meta 1 1 <| sm_voter_set := voter_set node1 |>.
Definition first_snapshots : MemSnap.MemorySnapshotStore :=
  (MemSnap.save_snapshot first_snapshot (@bin_ser _ journal_bytes []) MemSnap.new).1.
Definition committed_disk : MemoryHardStateStore := put_hard_state (mkHardState 1 None 2) cached_default.
Definition recovered : MemoryHardStateStore * Result (RaftNode * journal) :=
  boot_on (base 1 three []) two_entries committed_disk first_snapshots.

Lemma two_entries_inv : Mem.inv two_entries.
Proof. split; [|by vm_compute]. exists 1%N, 1%N. by vm_compute. Qed.

Lemma restart_restores_state_witness :
  ∃ hs' n, recovered = (hs', Ok (n, [])) ∧
  ∃ d', recovery_drain fail_waiters (with_channels n two_entries hs' [] 64) = Some d' ∧
    d_halt_reason d' = None ∧ d_state_machine d' = one_command ∧
    last_applied (d_node d') = 2 ∧ commit_index (d_node d') = 2.
Proof.
  assert (match recovered with
          | (_, Ok (n, sm)) => bool_decide (sm = []) && (hs_commit_index (hard_state n) =? 2) &&
              (max_log_entries_before_compaction (config n) =? 100000)
          | _ => false end = true) as H by vm_cast_no_check (eq_refl true).
  destruct recovered as [hs' [[n sm]|e]] eqn:Hrec; [|discriminate H]. exists hs', n.
  apply andb_true_iff in H as [[->%bool_decide_eq_true Hc%N.eqb_eq]%andb_true_iff Hm%N.eqb_eq].
  split; [reflexivity|].
  pose proof (restart_restores_state fail_waiters (LL := Mem.memory_store_laws) _ _ two_entries _ _ _ hs' n []
    (Some (normalised first_snapshot (@bin_ser _ journal_bytes []), @bin_ser _ journal_bytes [])) first_entry [] one_command 64 Hrec eq_refl) as Hr.
  cbn zeta in Hr. rewrite Hc, Hm in Hr. apply Hr; clear Hr.
  - exact two_entries_inv.
  - vm_compute. reflexivity.
  - intros _. exists (mkEntry 1 1 NoOp). split; [reflexivity|vm_compute; discriminate].
  - vm_compute. discriminate.
  - reflexivity.
  - vm_compute. reflexivity.
Defined.

(** A follower that has installed a snapshot is restarted: it grants its vote
    to a candidate without a log. *)
Definition follower_after_install : cpipe :=
  (handle_install_snapshot (received <| sm_voter_set := voter_set node1 |>) one_command_bytes (idle (start node1))).1.
Definition restarted : MemoryHardStateStore * Result (RaftNode * journal) :=
  boot_on (base 1 three []) (d_log_store (p_driver follower_after_install))
    (d_hs_store (p_driver follower_after_install)) (p_snaps follower_after_install).

Lemma wiped_log_inv : Mem.inv (d_log_store (p_driver follower_after_install)).
Proof.
  assert (d_log_store (p_driver follower_after_install) = Mem.mkMemoryLogStore [] ∅ (Some (1, 5))) as ->
    by (vm_compute; reflexivity).
  split; [exists 1%N, 0%N|]; done.
Qed.

Lemma restart_forgets_snapshot_tail_witness :
  ∃ hs' n sm1, restarted = (hs', Ok (n, sm1)) ∧ last_log_index n = 0 ∧ 5 ≤ commit_index n ∧ ¬ node_wf n ∧
    candidate_log_is_up_to_date n 0 0 = true ∧
    existsb (λ a, match a with SendMessage 2 (MsgVoteResponse r) => vrs_vote_granted r | _ => false end)
      (step (InVoteRequest (mkVoteRequest "c" 0 9 2 0 0)) n).2 = true.
Proof.
  assert (match restarted with
          | (_, Ok (n, _)) => existsb (λ a, match a with SendMessage 2 (MsgVoteResponse r) => vrs_vote_granted r | _ => false end)
              (step (InVoteRequest (mkVoteRequest "c" 0 9 2 0 0)) n).2
          | _ => false end = true) as H by vm_cast_no_check (eq_refl true).
  destruct restarted as [hs' [[n sm1]|e]] eqn:Hr; [|discriminate H]. exists hs', n, sm1.
  pose proof (restart_forgets_snapshot_tail (LL := Mem.memory_store_laws) _ _ _ _ _ _ hs' n sm1
    (normalised (received <| sm_voter_set := voter_set node1 |>) one_command_bytes) one_command_bytes Hr) as Hf.
  destruct Hf as (H1 & _ & H2 & H3 & H4).
  - vm_compute. reflexivity.
  - exact wiped_log_inv.
  - vm_compute. reflexivity.
  - vm_compute. reflexivity.
  - split; [reflexivity|]. split; [exact H1|]. split; [exact H2|]. split; [exact H3|]. split; [exact H4|exact H].
Defined.
