(* ===== verification/Shutdown.v ===== *)
(** * The end of the driver loop ([xraft-server/src/driver.rs])

    What [run] does when it leaves its loop: the graceful drain and the final
    writes after a shutdown signal, or the fail-stop after a fatal error.
    Events and RPC results come in one list, in the order the loop takes them.
    Snapshot requests and completions are left out. *)

From S2P Require Import Prelude CoreTypes Message Text Config ElectionTimer RaftNode NodeFacts NodeSafety LogStore MemoryLog BTree WalCodec SnapshotStore MemorySnapshots SnapshotTransfer ServeFetch HardStore StateMachine Timing Driver ReadFrame DriverFacts DriverRuns DriverSafety DriverDurable DriverLog SnapshotPipeline Server Restart Concrete.

Section Shutdown.
Context {MA : MembershipApi} {RA : RngApi} {HI : HashIter} {CR : Crc32}
  {St : Type} {LA : LogStoreApi St} {HS : Type} {HA : HardStateStore HS} {SM : Type} {SA : StateMachine SM}.
#[local] Abbreviation driver := (Driver St HS SM).
Implicit Types d : driver.
Context (fail_waiters_in_range : N → N → string → driver → driver).

(** [std::mem::take(&mut self.pending)], every waiter answered with [r]. *)
Definition answer_waiters (r : Result N) d : driver :=
  d <| d_pending := ∅ |>
    <| d_sent := d_sent d ++ ((λ w, Proposed w r) <$> concat (values (d_pending d))) |>.
(** The same for the deferred reads. *)
Definition answer_reads (r : Result bytes) d : driver :=
  d <| d_pending_reads := [] |>
    <| d_sent := d_sent d ++ ((λ pr, Answered (pr_reply pr) r) <$> d_pending_reads d) |>.

(** One event of the drain: clients are refused. *)
Definition drain_event (ev : DriverEvent) d : option driver :=
  match ev with
  | EvClient _ w => Some (send (Proposed w (Err Shutdown)) d)
  | EvQuery _ w => Some (send (Answered w (Err Shutdown)) d)
  | EvTick => Some d
  | _ => '(d, _) ← handle_event fail_waiters_in_range ev d; Some d
  end.

(** Turns are taken until the channel is empty, a turn is fatal, or [k] have
    been taken; with what is then left in the channel. *)
Fixpoint take_events (turn : DriverEvent → driver → option driver) (k : nat) (evs : list DriverEvent) d
    : option (driver * list DriverEvent) :=
  match d_halt_reason d with
  | Some _ => Some (d, evs)
  | None =>
      match k, evs with
      | S k, ev :: evs => d ← turn ev d; take_events turn k evs d
      | _, _ => Some (d, evs)
      end
  end.
Definition serve_event (ev : DriverEvent) d : option driver :=
  '(d, _) ← loop_turn fail_waiters_in_range ev d; Some d.
(** [graceful_drain]: the deferred reads first, then what is queued, up to the
    deadline. *)
Definition graceful_drain (k : nat) (evs : list DriverEvent) d : option (driver * list DriverEvent) :=
  take_events drain_event k evs (answer_reads (Err Shutdown) d).

(** [fail_stop_shutdown], with what is still queued. *)
Definition reply_halt (reason : string) (ev : DriverEvent) d : driver :=
  match ev with
  | EvClient _ w => send (Proposed w (Err (Storage reason))) d
  | EvQuery _ w => send (Answered w (Err (Storage reason))) d
  | _ => d
  end.
Definition fail_stop_shutdown (reason : string) (queued : list DriverEvent) d : driver * Result unit :=
  let d := d <| d_halt_reason := None |> in
  let d := foldl (λ d ev, reply_halt reason ev d) d queued in
  (answer_reads (Err (Storage reason)) (answer_waiters (Err (Storage reason)) d), Err (Storage reason)).

(** [shutdown_sequence]: the last results, then the final writes. *)
Fixpoint drain_results (res : list OutboundResult) d : option driver :=
  match res with
  | [] => Some d
  | x :: res =>
      d ← handle_outbound fail_waiters_in_range x d;
      match d_halt_reason d with Some _ => Some d | None => drain_results res d end
  end.
Definition final_writes d : driver * option string :=
  let node := d_node d in
  let node := node <| hard_state := hard_state node
                <| hs_commit_index := N.min (commit_index node) (ls_last_index (d_log_store d)) |> |> in
  let d := d <| d_node := node |> in
  let '(hs, r) := persist (hard_state node) (d_hs_store d) in
  let d := d <| d_hs_store := hs |> in
  match r with
  | Err _ => (d, Some "final hard-state persist failed")
  | Ok _ =>
      let '(log, r) := ls_flush (d_log_store d) in
      (d <| d_log_store := log |>, match r with Ok _ => None | Err _ => Some "final log flush failed" end)
  end.
Definition shutdown_sequence (res : list OutboundResult) (queued : list DriverEvent) d
    : option (driver * Result unit) :=
  d ← drain_results res d;
  match d_halt_reason d with
  | Some reason => Some (fail_stop_shutdown reason queued d)
  | None =>
      let '(d, final_err) := final_writes d in
      Some (match final_err with
            | Some msg => (answer_waiters (Err (Storage msg)) d, Err (Storage msg))
            | None => (answer_waiters (Err Shutdown) d, Ok tt)
            end)
  end.

(** After the shutdown signal. *)
Definition ending (drained : nat) (queued : list DriverEvent) (late : list OutboundResult) d
    : option (driver * Result unit) :=
  '(d, queued) ← graceful_drain drained queued d;
  match d_halt_reason d with
  | Some reason => Some (fail_stop_shutdown reason queued d)
  | None => shutdown_sequence late queued d
  end.
(** [run]: the recovered range, the loop and its end.  [evs] is all that is
    sent before the channel is closed; the shutdown signal comes after [turns]
    turns, the deadline of the drain after [drained] more; [late] are the
    results that still come in afterwards. *)
Definition run_driver (turns drained : nat) (evs : list DriverEvent) (late : list OutboundResult) d
    : option (driver * Result unit) :=
  d ← recovery_drain fail_waiters_in_range d;
  '(d, queued) ← take_events serve_event turns evs d;
  match d_halt_reason d with
  | Some reason => Some (fail_stop_shutdown reason queued d)
  | None => ending drained queued late d
  end.

(** ** Nobody is left waiting *)

Lemma omap_answered (prs : list PendingRead) r :
  omap read_of ((λ pr, Answered (pr_reply pr) r) <$> prs) = pr_reply <$> prs.
Proof. induction prs as [|p prs IH]; [done|]. cbn. by rewrite IH. Qed.
Lemma omap_answered_props (prs : list PendingRead) r :
  omap prop_of ((λ pr, Answered (pr_reply pr) r) <$> prs) = [].
Proof. induction prs as [|p prs IH]; [done|]. cbn. by rewrite IH. Qed.

Lemma answer_waiters_balance r d : balance [] [] d (answer_waiters r d).
Proof.
  split. eexists. split; [done|]. rewrite omap_proposed, omap_proposed_reads. split; [|done].
  unfold waiting, answer_waiters. cbn. rewrite map_to_list_empty. cbn. rewrite app_nil_r.
  unfold values. by rewrite in_order_perm.
Qed.
Lemma answer_reads_balance r d : balance [] [] d (answer_reads r d).
Proof.
  split. eexists. split; [done|]. rewrite omap_answered, omap_answered_props. split; [done|].
  unfold deferred, answer_reads. cbn. by rewrite app_nil_r.
Qed.
(** Moves of everything but the requests. *)
Lemma balance_same d d' :
  d_sent d' = d_sent d → d_pending d' = d_pending d → d_pending_reads d' = d_pending_reads d → balance [] [] d d'.
Proof. intros Hs Hp Hr. split. exists []. unfold waiting, deferred. by rewrite Hs, Hp, Hr, app_nil_r. Qed.
Lemma balance_refl d : balance [] [] d d.
Proof. by apply balance_same. Qed.

Lemma balance_no_reads props d d' : balance props [] d d' → deferred d = [] → deferred d' = [].
Proof.
  intros [(es & _ & _ & Hr)] Hno. rewrite Hno in Hr. apply Permutation_nil_r in Hr. by apply app_eq_nil in Hr as [_ ?].
Qed.
(** A balance, then moves that ask nothing new. *)
Lemma balance_then props reads d1 d2 d3 : balance props reads d1 d2 → balance [] [] d2 d3 → balance props reads d1 d3.
Proof. intros H1 H2. rewrite <-(app_nil_r props), <-(app_nil_r reads). by eapply balance_trans. Qed.

Context (fails_waiters : ∀ a b m d, settles d (fail_waiters_in_range a b m d)).

Lemma drain_event_balance ev d d' :
  drain_event ev d = Some d' → balance (asked_proposals ev) (asked_reads ev) d d'.
Proof using fails_waiters.
  destruct ev; cbn [drain_event];
    try (destruct (handle_event _ _ _) as [[d1 r]|] eqn:E; [|done]; intros [= <-]; by eapply event_balance in E).
  - intros [= <-]. split. by exists [Proposed w (Err Shutdown)].
  - intros [= <-]. split. by exists [Answered w (Err Shutdown)].
  - intros [= <-]. apply balance_refl.
Qed.
Lemma serve_event_balance ev d d' :
  serve_event ev d = Some d' → balance (asked_proposals ev) (asked_reads ev) d d'.
Proof using fails_waiters.
  unfold serve_event. destruct (loop_turn _ _ _) as [[d1 r]|] eqn:E; [|done]. intros [= <-]. by eapply turn_balance.
Qed.

(** The requests of a list of events. *)
Definition proposals_of (evs : list DriverEvent) : list N := evs ≫= asked_proposals.
Definition reads_of (evs : list DriverEvent) : list N := evs ≫= asked_reads.

Lemma take_events_balance turn k evs d d' rest :
  (∀ ev d d', turn ev d = Some d' → balance (asked_proposals ev) (asked_reads ev) d d') →
  take_events turn k evs d = Some (d', rest) →
  ∃ taken, evs = taken ++ rest ∧ (d_halt_reason d' = None → rest = drop k evs) ∧
    balance (proposals_of taken) (reads_of taken) d d'.
Proof.
  clear fails_waiters. intros Hturn. revert evs d. induction k as [|k IH]; intros evs d; cbn [take_events].
  - destruct (d_halt_reason d); intros [= <- <-]; exists []; split_and!; try done; apply balance_refl.
  - destruct (d_halt_reason d) eqn:Hh.
    { intros [= <- <-]. exists []. split_and!; [done|congruence|apply balance_refl]. }
    destruct evs as [|ev evs]; [intros [= <- <-]; exists []; split_and!; [done..|apply balance_refl]|].
    destruct (turn ev d) as [d1|] eqn:E; [|done]. cbn. intros (taken & -> & Hr & Hb)%IH.
    exists (ev :: taken). split_and!; [done|exact Hr|]. cbn. eapply balance_trans; [by apply Hturn|exact Hb].
Qed.

Lemma reply_halt_balance reason ev d :
  balance (asked_proposals ev) (asked_reads ev) d (reply_halt reason ev d).
Proof.
  destruct ev; try apply balance_refl; split; [by exists [Proposed w (Err (Storage reason))]|by exists [Answered w (Err (Storage reason))]].
Qed.

(** The loop has ended: what was asked is answered, and nobody waits. *)
Record settled_up (props reads : list N) d d' : Prop := mkSettledUp {
  su_balance : balance props reads d d';
  su_waiting : waiting d' = [];
  su_deferred : deferred d' = [];
}.

Lemma fail_stop_settles reason queued d d' r :
  fail_stop_shutdown reason queued d = (d', r) → settled_up (proposals_of queued) (reads_of queued) d d'.
Proof.
  clear fails_waiters. unfold fail_stop_shutdown. intros [<- _]%pair_inv.
  set (d0 := d <| d_halt_reason := None |>).
  assert (∀ d0, balance (proposals_of queued) (reads_of queued) d0 (foldl (λ d ev, reply_halt reason ev d) d0 queued)) as Hq.
  { induction queued as [|ev evs IH]; intros x; [apply balance_refl|]. cbn.
    eapply balance_trans; [apply reply_halt_balance|apply IH]. }
  set (d1 := foldl _ d0 queued). split; [|done..]. eapply (balance_then _ _ d d1).
  - destruct (Hq d0) as [(es & Hs & Hp & Hr)]. split. by exists es.
  - eapply (balance_then [] []); [apply answer_waiters_balance|apply answer_reads_balance].
Qed.

Lemma drain_results_balance res d d' : drain_results res d = Some d' → balance [] [] d d'.
Proof using fails_waiters.
  revert d. induction res as [|x res IH]; intros d; cbn [drain_results]; [intros [= <-]; apply balance_refl|].
  destruct (handle_outbound _ _ _) as [d1|] eqn:E; [|done]. cbn.
  assert (balance [] [] d d1) as Hb.
  { eapply (event_balance _ fails_waiters (EvOutbound x) d d1 RpNone). cbn [handle_event]. by rewrite E. }
  destruct (d_halt_reason d1); [by intros [= <-]|]. intros H%IH. by eapply balance_then.
Qed.

Lemma final_writes_balance d d' msg : final_writes d = (d', msg) → balance [] [] d d'.
Proof.
  clear fails_waiters. unfold final_writes. destruct (persist _ _) as [hs [[]|e]]; [|intros [<- _]%pair_inv; by apply balance_same].
  destruct (ls_flush _) as [log [[]|e]]; intros [<- _]%pair_inv; by apply balance_same.
Qed.
Lemma shutdown_settles res queued d d' r :
  deferred d = [] → shutdown_sequence res queued d = Some (d', r) →
  ∃ answered rest, queued = answered ++ rest ∧ (rest = [] ∨ answered = []) ∧
    settled_up (proposals_of answered) (reads_of answered) d d'.
Proof using fails_waiters.
  unfold shutdown_sequence. intros Hno. destruct (drain_results res d) as [d1|] eqn:E; [|done]. cbn.
  apply drain_results_balance in E. destruct (d_halt_reason d1) as [reason|].
  - intros Hf. apply (inj Some) in Hf. exists queued, []. rewrite app_nil_r. split_and!; [done|by left|].
    apply fail_stop_settles in Hf as [Hb Hw Hd]. split; [|done..]. by eapply (balance_trans [] []).
  - destruct (final_writes d1) as [d2 msg] eqn:Ef. apply final_writes_balance in Ef.
    assert (balance [] [] d d2) as Hb by by eapply balance_then. intros Hend.
    assert (∃ e, d' = answer_waiters (Err e) d2) as (e & ->) by (destruct msg; injection Hend as <- _; eauto).
    exists [], queued. split_and!; [done|by right|]. split; [eapply balance_then; [exact Hb|apply answer_waiters_balance]|done|].
    by apply (balance_no_reads [] d d2).
Qed.
Lemma recovery_balance d d' :
  recovery_drain fail_waiters_in_range d = Some d' → balance [] [] d d'.
Proof using fails_waiters.
  unfold recovery_drain, process_actions. destruct (RaftNode.apply_committed (d_node d)) as [n [|a acts]].
  - intros [= <-]. by apply balance_same.
  - destruct (process _ _ _ _ _ _) as [[d1 c]|] eqn:E; [|done]. intros [= <-].
    apply settles_process in E; [|done]. by eapply (settles_balance n).
Qed.

Lemma proposals_of_app l k : proposals_of (l ++ k) = proposals_of l ++ proposals_of k.
Proof. apply bind_app. Qed.
Lemma reads_of_app l k : reads_of (l ++ k) = reads_of l ++ reads_of k.
Proof. apply bind_app. Qed.
Lemma settled_after p1 r1 p2 r2 d1 d2 d3 :
  balance p1 r1 d1 d2 → settled_up p2 r2 d2 d3 → settled_up (p1 ++ p2) (r1 ++ r2) d1 d3.
Proof. intros Hb [Hb' Hw Hd]. split; [by eapply balance_trans|done..]. Qed.

(** A drain defers no read. *)
Lemma drain_event_reads ev d d' : drain_event ev d = Some d' → deferred d = [] → deferred d' = [].
Proof using fails_waiters.
  intros E. destruct ev; try (apply drain_event_balance in E; by eapply balance_no_reads).
  by injection E as <-.
Qed.
Lemma take_drain_reads k evs d d' rest :
  take_events drain_event k evs d = Some (d', rest) → deferred d = [] → deferred d' = [].
Proof using fails_waiters.
  revert evs d. induction k as [|k IH]; intros evs d; cbn [take_events]; destruct (d_halt_reason d); try by intros [= <- _].
  destruct evs as [|ev evs]; [by intros [= <- _]|]. destruct (drain_event ev d) as [d1|] eqn:E; [|done]. cbn.
  intros H Hno. eapply IH; [exact H|]. by eapply drain_event_reads.
Qed.

Lemma ending_settles drained queued late d d' r :
  ending drained queued late d = Some (d', r) →
  ∃ answered rest, queued = answered ++ rest ∧ (rest = [] ∨ rest = drop drained queued) ∧
    settled_up (proposals_of answered) (reads_of answered) d d'.
Proof using fails_waiters.
  unfold ending, graceful_drain. set (d0 := answer_reads _ d).
  pose proof (answer_reads_balance (Err Shutdown) d : balance [] [] d d0) as Hb0.
  destruct (take_events _ _ _ _) as [[d1 q1]|] eqn:E; [|done]. cbn [mbind option_bind].
  pose proof (take_drain_reads _ _ _ _ _ E eq_refl) as Hno.
  apply take_events_balance in E as (t1 & Hq & Hq1 & Hb1); [|exact drain_event_balance].
  apply (balance_trans [] [] _ _ d) in Hb1; [|exact Hb0]. cbn [app] in Hb1.
  destruct (d_halt_reason d1) as [reason|] eqn:Hh1; intros Hend.
  - apply (inj Some), fail_stop_settles in Hend. exists queued, []. rewrite app_nil_r. split_and!; [done|by left|].
    rewrite Hq, proposals_of_app, reads_of_app. by eapply settled_after.
  - apply shutdown_settles in Hend as (a & l & Hq' & Hl & Hs); [|done]. exists (t1 ++ a), l.
    rewrite proposals_of_app, reads_of_app. split_and!; [by rewrite Hq, Hq', app_assoc| |by eapply settled_after].
    destruct Hl as [Hl| -> ]; [by left|right]. by rewrite <-(Hq1 eq_refl), Hq'.
Qed.

(** C9: Nobody is left waiting when the driver stops: however [run] ends, no
    proposal waits and no read is deferred any more, and every request sent
    before the channel closed, or open when the driver started, has got
    exactly one answer; except requests the drain deadline cut off, which are
    the ones after the turns taken. *)
Theorem run_answers_all turns drained evs late d d' r :
  run_driver turns drained evs late d = Some (d', r) →
  waiting d' = [] ∧ deferred d' = [] ∧
  ∃ sent answered cut, d_sent d' = d_sent d ++ sent ∧ evs = answered ++ cut ∧
    (cut = [] ∨ cut = drop (turns + drained) evs) ∧
    omap prop_of sent ≡ₚ proposals_of answered ++ waiting d ∧
    omap read_of sent ≡ₚ reads_of answered ++ deferred d.
Proof using fails_waiters.
  intros Hrun.
  assert (∃ answered rest, evs = answered ++ rest ∧ (rest = [] ∨ rest = drop (turns + drained) evs) ∧
    settled_up (proposals_of answered) (reads_of answered) d d') as (ans & cut & Hevs & Hcut & [[(es & Hs & Hp & Hq)] Hw Hd]).
  2:{ rewrite Hw, app_nil_r in Hp. rewrite Hd, app_nil_r in Hq. eauto 10. }
  revert Hrun. unfold run_driver. destruct (recovery_drain _ d) as [d0|] eqn:E0; [|done]. cbn [mbind option_bind].
  apply recovery_balance in E0.
  destruct (take_events serve_event turns evs d0) as [[d1 q1]|] eqn:E1; [|done]. cbn [mbind option_bind].
  apply take_events_balance in E1 as (t1 & Hevs & Hq1 & Hb1); [|exact serve_event_balance].
  apply (balance_trans [] [] _ _ d) in Hb1; [|exact E0]. cbn [app] in Hb1. clear E0.
  destruct (d_halt_reason d1) as [reason|] eqn:Hh1; intros Hend.
  - apply (inj Some), fail_stop_settles in Hend. exists evs, []. rewrite app_nil_r. split_and!; [done|by left|].
    rewrite Hevs, proposals_of_app, reads_of_app. by eapply settled_after.
  - apply ending_settles in Hend as (a & l & Hq & Hl & Hs). exists (t1 ++ a), l.
    rewrite proposals_of_app, reads_of_app. split_and!; [by rewrite Hevs, Hq, app_assoc| |by eapply settled_after].
    destruct Hl as [Hl| -> ]; [by left|right]. by rewrite (Hq1 eq_refl), drop_drop.
Qed.

(** ** What a clean exit leaves on disk *)

Context {HL : HardStateStoreLaws HS HA} {SS : Type} {SSA : SnapshotStoreApi SS}.
Context {good : St → Prop} {TL : LogTipLaws St LA good}.
Context (waiters_only : ∀ a b m d, unmoved d (fail_waiters_in_range a b m d)).

(** The engine's tail is the end of the log, at every stage of the run. *)
Definition tracks d : Prop := sane (good := good) d ∧ in_step d.
Lemma unmoved_tracks d d' : unmoved d d' → tracks d → tracks d'.
Proof. clear. intros Hu [Hs Hi]. split; [by eapply unmoved_sane|by eapply unmoved_in_step]. Qed.

Lemma event_tracks ev d d' r :
  handle_event fail_waiters_in_range ev d = Some (d', r) → d_halt_reason d' = None → tracks d → tracks d'.
Proof using TL waiters_only. clear fails_waiters HL. intros Hev Hh [Hs Hi]. by eapply event_in_step. Qed.
Lemma serve_tracks ev d d' : serve_event ev d = Some d' → d_halt_reason d' = None → tracks d → tracks d'.
Proof using TL waiters_only.
  clear fails_waiters HL. unfold serve_event, loop_turn.
  destruct (handle_event _ ev d) as [[dm r]|] eqn:E; [|done]. cbn [mbind option_bind]. intros [= <-] Hh Ht.
  destruct (drain_spec dm) as (es & left & Hdr & _). set (dt := drain_pending_reads dm) in *.
  assert (unmoved dm dt ∧ d_halt_reason dt = d_halt_reason dm) as [Hun Hhm] by by rewrite Hdr.
  eapply unmoved_tracks; [exact Hun|]. eapply event_tracks; [exact E|congruence|done].
Qed.
Lemma drain_tracks ev d d' : drain_event ev d = Some d' → d_halt_reason d' = None → tracks d → tracks d'.
Proof using TL waiters_only.
  clear fails_waiters HL. destruct ev; cbn [drain_event];
    try (intros [= <-] _ Ht; by eapply unmoved_tracks; [|exact Ht]).
  all: destruct (handle_event _ _ d) as [[dm r]|] eqn:E; [|done]; cbn [mbind option_bind]; intros [= <-] Hh Ht; by eapply event_tracks.
Qed.
Lemma take_events_tracks turn k evs d d' rest :
  (∀ ev d d', turn ev d = Some d' → d_halt_reason d' = None → tracks d → tracks d') →
  take_events turn k evs d = Some (d', rest) → d_halt_reason d' = None → d_halt_reason d = None ∧ (tracks d → tracks d').
Proof.
  clear. intros Hturn. revert evs d. induction k as [|k IH]; intros evs d; cbn [take_events].
  all: destruct (d_halt_reason d) eqn:Hd; [by intros [= <- _] ?; simplify_eq|].
  - by intros [= <- _] _.
  - destruct evs as [|ev evs]; [by intros [= <- _] _|]. destruct (turn ev d) as [d1|] eqn:E; [|done].
    cbn [mbind option_bind]. intros Hrun Hh. destruct (IH _ _ Hrun Hh) as [Hd1 Ht]. split; [done|]. eauto.
Qed.
Lemma drain_results_tracks res d d' :
  drain_results res d = Some d' → d_halt_reason d' = None → tracks d → tracks d'.
Proof using TL waiters_only.
  clear fails_waiters HL. revert d. induction res as [|x res IH]; intros d; cbn [drain_results]; [by intros [= ->]|].
  destruct (handle_outbound _ x d) as [d1|] eqn:E; [|done]. cbn [mbind option_bind].
  assert (handle_event fail_waiters_in_range (EvOutbound x) d = Some (d1, RpNone)) as Hev by (cbn [Driver.handle_event]; by rewrite E).
  destruct (d_halt_reason d1) eqn:Hd1; [intros [= <-]; congruence|]. intros Hrun Hh Ht.
  eapply IH; [done..|]. by eapply event_tracks.
Qed.
Lemma recovery_tracks d d' :
  recovery_drain fail_waiters_in_range d = Some d' → d_halt_reason d' = None → tracks d → tracks d'.
Proof using TL waiters_only.
  clear fails_waiters HL. unfold recovery_drain. destruct (RaftNode.apply_committed (d_node d)) as [n acts] eqn:E.
  apply drain_kept in E as [Hk Hc]. intros Hrun Hh Ht.
  assert (tracks (d <| d_node := n |>)) as Ht1 by by eapply unmoved_tracks; [|exact Ht].
  destruct acts as [|a acts]; [by injection Hrun as <-|].
  destruct (process_actions _ _ _ _) as [[d1 c]|] eqn:Ep; [|done]. injection Hrun as ->.
  destruct Ht1 as [Hs Hi]. eapply (process_in_step _ waiters_only); [exact Ep|exact Hs| |done]. by apply pd_calm.
Qed.

Lemma final_writes_ok d d' :
  final_writes d = (d', None) → tracks d →
  tracks d' ∧ load (d_hs_store d') = Ok (Some (hard_state (d_node d'))) ∧
  hs_commit_index (hard_state (d_node d')) = N.min (commit_index (d_node d')) (ls_last_index (d_log_store d')).
Proof using HL TL.
  clear fails_waiters waiters_only. unfold final_writes. destruct (persist _ _) as [hs [[]|e]] eqn:Hp; [|by intros [_ ?]%pair_inv].
  destruct (ls_flush _) as [log [[]|e]] eqn:Hf; [|by intros [_ ?]%pair_inv]. cbn in Hf.
  intros [<- _]%pair_inv [[Hg Hu] Hi]. apply lt_flush in Hf as (Hg' & Hli & Hlt); [|done].
  apply persist_ok in Hp as [Hl _]. cbn in *. split; [|by rewrite Hli].
  split; [by split|]. unfold in_step, tip, effective_log_tip in *. cbn. by rewrite Hli, Hlt.
Qed.
Lemma run_clean turns drained evs late d d' :
  run_driver turns drained evs late d = Some (d', Ok tt) → tracks d →
  ∃ d1 d2, final_writes d1 = (d2, None) ∧ tracks d1 ∧ d' = answer_waiters (Err Shutdown) d2.
Proof using TL waiters_only.
  clear fails_waiters HL. unfold run_driver, ending, shutdown_sequence, fail_stop_shutdown, graceful_drain.
  destruct (recovery_drain _ _) as [d0|] eqn:E0; [|done]. cbn [mbind option_bind].
  destruct (take_events _ _ _ d0) as [[d1 q1]|] eqn:E1; [|done]. cbn [mbind option_bind].
  destruct (d_halt_reason d1) eqn:H1; [by intros [=]|].
  destruct (take_events _ _ _ (answer_reads _ _)) as [[d2 q2]|] eqn:E2; [|done]. cbn [mbind option_bind].
  destruct (d_halt_reason d2) eqn:H2; [by intros [=]|].
  destruct (drain_results _ _) as [d3|] eqn:E3; [|done]. cbn [mbind option_bind].
  destruct (d_halt_reason d3) eqn:H3; [by intros [=]|].
  destruct (final_writes d3) as [d4 [msg|]] eqn:Ef; intros Hr; apply (inj Some), pair_inv in Hr as [Hd Hr]; [done|].
  intros Ht. exists d3, d4. split; [done|]. split; [|done].
  destruct (take_events_tracks _ _ _ _ _ _ serve_tracks E1 H1) as [H0 T1].
  destruct (take_events_tracks _ _ _ _ _ _ drain_tracks E2 H2) as [_ T2].
  eapply drain_results_tracks; [exact E3|done|]. apply T2.
  eapply (unmoved_tracks d1); [done|]. apply T1. by eapply recovery_tracks.
Qed.

(** C10: A clean exit loses nothing a restart could want. A driver whose engine
    had the end of the log it serves in memory runs, whatever arrives, and ends
    cleanly; a server started on the hard-state store and log store it left
    has the term and vote of the old engine, and its log ends where the log
    store ends. Unless the old engine's snapshot covered more than the log
    store held (a restart on a wholly compacted log comes up behind it), that
    is the old engine's last index and term, and the commit index is no less
    than the old one, if that did not lie beyond the log; in any case it is no
    less than the old one as far as the log store reaches.  Of the log store
    it needs what [LogTipLaws] says. *)
Theorem clean_exit_resumes turns drained evs late d d' cluster r snapshots sm hs' n sm' :
  run_driver turns drained evs late d = Some (d', Ok tt) →
  good (d_log_store d) → u64 (last_log_index (d_node d)) →
  effective_log_tip (d_node d) (d_log_store d) = (last_log_index (d_node d), last_log_term (d_node d)) →
  start_with_state_machine cluster r (d_log_store d') (d_hs_store d') snapshots sm = (hs', Ok (n, sm')) →
  term n = term (d_node d') ∧ vote n = vote (d_node d') ∧
  last_log_index n = ls_last_index (d_log_store d') ∧ last_log_term n = ls_last_term (d_log_store d') ∧
  N.min (commit_index (d_node d')) (last_log_index n) ≤ commit_index n ∧
  ((∃ m, last_snapshot_meta (d_node d') = Some m ∧ ls_last_index (d_log_store d') < last_included_index m) ∨
   last_log_index n = last_log_index (d_node d') ∧ last_log_term n = last_log_term (d_node d') ∧
   (commit_index (d_node d') ≤ last_log_index (d_node d') → commit_index (d_node d') ≤ commit_index n)).
Proof using HL TL waiters_only.
  intros Hrun Hg Hu Hi (o & meta & n0 & Hl & _ & -> & Hh & Hc & Hm)%start_seeds.
  apply run_clean in Hrun as (d1 & d2 & Hf & Ht & ->); [|by split].
  apply final_writes_ok in Hf as ([_ Hin] & Hl2 & Hci); [|done]. set (x := answer_waiters _ d2) in *.
  assert (d_hs_store x = d_hs_store d2 ∧ d_log_store x = d_log_store d2 ∧ d_node x = d_node d2) as (E1 & E2 & E3) by done.
  clearbody x. rewrite E1, Hl2 in Hl. injection Hl as <-. rewrite E2, E3.
  destruct (seed_engine_fields (Some (hard_state (d_node d2))) meta (d_log_store d2) n0 Hm)
    as (H1 & H2 & H2' & _ & _ & H6 & _). unfold term, vote. rewrite H1, H2, H2'. cbn [default] in *.
  assert (N.min (commit_index (d_node d2)) (ls_last_index (d_log_store d2)) ≤
    commit_index (seed_engine (Some (hard_state (d_node d2))) meta (d_log_store d2) n0)) as Hle
    by (rewrite H6; cbn; rewrite Hci; lia).
  split_and!; [done..|].
  unfold in_step, tip, tail, effective_log_tip in Hin.
  destruct (last_snapshot_meta (d_node d2)) as [m|]; [case_decide; [left; by exists m|]|];
    right; injection Hin as <- <-; (split_and!; [done|done|lia]).
Qed.
End Shutdown.

(** ** Runs *)

Import Concrete.
#[local] Existing Instance Mem.api.
#[local] Existing Instance MemSnap.api.

(** A leader is told to stop after two turns; the deadline leaves time for one
    more. *)
Lemma run_answers_all_witness :
  ∃ d' r, run_driver fail_waiters 2 1 request_events [] (elected world0) = Some (d', r) ∧
    waiting d' = [] ∧ deferred d' = [] ∧
    ∃ sent answered cut, d_sent d' = d_sent (elected world0) ++ sent ∧ request_events = answered ++ cut ∧
      (cut = [] ∨ cut = drop 3 request_events) ∧
      omap prop_of sent ≡ₚ proposals_of answered ++ waiting (elected world0) ∧
      omap read_of sent ≡ₚ reads_of answered ++ deferred (elected world0).
Proof.
  assert (match run_driver fail_waiters 2 1 request_events [] (elected world0) with Some _ => true | None => false end = true) as H
    by vm_cast_no_check (eq_refl true).
  destruct (run_driver fail_waiters 2 1 request_events [] (elected world0)) as [[d' r]|] eqn:Hd'; [clear H|discriminate H].
  exists d', r. split; [reflexivity|].
  exact (run_answers_all fail_waiters settles_fail_range _ _ _ _ _ _ _ Hd').
Defined.

(** A voter grants its vote, fetches two entries, of which one is committed,
    and is then stopped; it is started again. *)
Definition stopping : option (node * Result unit) :=
  run_driver fail_waiters 2 1
    [EvVote its_request;
     EvOutbound (ResFetch 1 (mkFetchResponse "c" 1 1 1 [mkEntry 1 1 NoOp; mkEntry 2 1 (Command [Byte.x0a])] None None true));
     EvTick] [] (start node3).
Definition stopped : node := match stopping with Some (d, _) => d | None => start node3 end.
Definition restarted : MemoryHardStateStore * Result (RaftNode * journal) :=
  start_with_state_machine (base 3 three []) 7 (d_log_store stopped) (d_hs_store stopped) MemSnap.new ([] : journal).
Lemma clean_exit_resumes_witness :
  ∃ hs' n sm', restarted = (hs', Ok (n, sm')) ∧ vote n = Some 1 ∧
    term n = term (d_node stopped) ∧ vote n = vote (d_node stopped) ∧
    last_log_index n = last_log_index (d_node stopped) ∧ last_log_index n = 2 ∧
    commit_index (d_node stopped) = 1 ∧ 1 ≤ commit_index n.
Proof.
  assert (match stopping with Some (_, Ok _) => true | _ => false end &&
    bool_decide (vote (d_node stopped) = Some 1 ∧ last_snapshot_meta (d_node stopped) = None ∧
      last_log_index (d_node stopped) = 2 ∧ commit_index (d_node stopped) = 1) &&
    match restarted with (_, Ok _) => true | _ => false end = true) as H
    by vm_cast_no_check (eq_refl true).
  apply andb_true_iff in H as [[Hr (Hv & Hno & Hli & Hci)%bool_decide_eq_true]%andb_true_iff Hb].
  assert (stopping = Some (stopped, Ok tt)) as Hrun.
  { unfold stopped. destruct stopping as [[d [[]|e]]|]; [reflexivity|discriminate Hr..]. }
  destruct restarted as [hs' [[n sm']|e]] eqn:Hrev; [|discriminate Hb]. exists hs', n, sm'.
  pose proof (clean_exit_resumes (good := λ s, onward 0 (Mem.entries s)) fail_waiters unmoved_fail_range
    _ _ _ _ _ stopped _ _ _ _ hs' n sm' Hrun I ltac:(vm_compute; discriminate) eq_refl Hrev)
    as (Ht & Hvote & _ & _ & _ & [(m & Hm & _)|(Hlast & _ & Hc)]).
  - rewrite Hno in Hm. discriminate Hm.
  - split; [reflexivity|]. split; [rewrite Hvote; exact Hv|]. split; [exact Ht|]. split; [exact Hvote|].
    split; [exact Hlast|]. split; [rewrite Hlast; exact Hli|]. split; [exact Hci|].
    rewrite <-Hci at 1. apply Hc. rewrite Hli, Hci. lia.
Defined.
