(* ===== verification/GrpcClient.v ===== *)
(** * The gRPC transport ([xraft-transport/src/{grpc,grpc_client,grpc_server}.rs])

    The outbound client with its channel pool and retry loop, and the inbound
    adapter in front of the message handler.  [tonic] and the world it talks to
    are parameters.  Durations are nanoseconds; connection attempts, calls and
    sleeps are recorded in a trace. *)

From S2P Require Import Prelude CoreTypes Message Text Config RaftNode Wire.

(** ** Configuration *)

Record TlsTransportConfig : Type := mkTlsTransportConfig {
  server_cert_pem : bytes;
  server_key_pem : bytes;
  ca_cert_pem : option bytes;
  tls_domain : option string;
}.

Record RaftGrpcClientConfig : Type := mkRaftGrpcClientConfig {
  gc_peer_endpoints : gmap N string;
  gc_connect_timeout : N;
  gc_rpc_timeout : N;
  gc_max_retries : N;
  gc_initial_backoff : N;
  gc_max_backoff : N;
  gc_max_message_size : N;
  gc_tls : option TlsTransportConfig;
}.

Record GrpcTransportConfig : Type := mkGrpcTransportConfig {
  gt_listen_addr : string;
  gt_peer_endpoints : gmap N string;
  gt_connect_timeout : N;
  gt_rpc_timeout : N;
  gt_max_retries : N;
  gt_retry_initial_backoff : N;
  gt_retry_max_backoff : N;
  gt_max_message_size : N;
  gt_tls : option TlsTransportConfig;
}.

(** [Duration::from_millis]. *)
Definition from_millis (ms : N) : N := ms * 1000000.

Section Configs.
(** [std::fs::read], with the text of its error. *)
Context (fs_read : string → result string bytes).

Definition read_pem (what path : string) : Result bytes :=
  match fs_read path with
  | Ok b => Ok b
  | Err e => Err (Config ("failed to read " +:+ what +:+ " '" +:+ path +:+ "': " +:+ e))
  end.

(** [TlsTransportConfig::from_cluster_config]. *)
Definition tls_from_cluster_config (cfg : ClusterConfig) : Result TlsTransportConfig :=
  match tls_cert_path cfg with
  | None => Err (Config "tls_enabled but tls_cert_path not set")
  | Some cert_path =>
      match tls_key_path cfg with
      | None => Err (Config "tls_enabled but tls_key_path not set")
      | Some key_path =>
          let? cert := read_pem "tls_cert_path" cert_path in
          let? key := read_pem "tls_key_path" key_path in
          let? ca := (match tls_ca_path cfg with
                      | Some p => let? b := read_pem "tls_ca_path" p in Ok (Some b)
                      | None => Ok (Some cert)
                      end) in
          Ok (mkTlsTransportConfig cert key ca (tls_domain_name cfg))
      end
  end.
Definition tls_of (cfg : ClusterConfig) : Result (option TlsTransportConfig) :=
  if tls_enabled cfg then let? t := tls_from_cluster_config cfg in Ok (Some t) else Ok None.

(** [GrpcTransportConfig::from_cluster_config]. *)
Definition transport_config_of (cfg : ClusterConfig) : Result GrpcTransportConfig :=
  let? tls := tls_of cfg in
  Ok (mkGrpcTransportConfig (listen_addr cfg) (peer_endpoints cfg) (from_millis (connect_timeout_ms cfg))
        (from_millis (rpc_timeout_ms cfg)) (max_rpc_retries cfg) (from_millis (retry_initial_backoff_ms cfg))
        (from_millis (retry_max_backoff_ms cfg)) (max_message_size cfg) tls).
(** [GrpcTransport::client_config]. *)
Definition client_config (c : GrpcTransportConfig) : RaftGrpcClientConfig :=
  mkRaftGrpcClientConfig (gt_peer_endpoints c) (gt_connect_timeout c) (gt_rpc_timeout c) (gt_max_retries c)
    (gt_retry_initial_backoff c) (gt_retry_max_backoff c) (gt_max_message_size c) (gt_tls c).
End Configs.

(** ** [tonic], the network and the clock *)

(** What [ClientTlsConfig] is given, and the endpoint built from it. *)
Record EndpointSpec : Type := mkEndpointSpec {
  en_url : string;
  en_connect_timeout : N;
  en_timeout : N;
  en_tls : option (option bytes * option string);
}.

Class Tonic : Type := {
  Status : Type;
  is_unavailable : Status → bool;
  is_deadline_exceeded : Status → bool;
  show_status : Status → string;
  internal : string → Status;
  Channel : Type;
  (** The outside world, which every call may change. *)
  Net : Type;
  from_shared : string → option string;
  tls_config : EndpointSpec → option string;
  connect : EndpointSpec → Net → Net * result string Channel;
  rpc_vote : Channel → N → Proto.VoteRequest → Net → Net * result Status Proto.VoteResponse;
  rpc_pre_vote : Channel → N → Proto.PreVoteRequest → Net → Net * result Status Proto.PreVoteResponse;
  rpc_fetch : Channel → N → Proto.FetchRequest → Net → Net * result Status Proto.FetchResponse;
  rpc_fetch_snapshot : Channel → N → Proto.FetchSnapshotRequest → Net →
    Net * result Status (list (result Status Proto.FetchSnapshotChunk));
  (** [tokio::time::sleep]. *)
  sleep : N → Net → Net;
  (** [rand::random] and [Duration::mul_f64] by the drawn fraction. *)
  random : Net → Net * N;
  mul_f64 : N → N → N;
}.
Class TonicLaws (TO : Tonic) : Prop := {
  mul_f64_le d k : mul_f64 d k ≤ d;
  internal_unavailable s : is_unavailable (internal s) = false;
  internal_deadline s : is_deadline_exceeded (internal s) = false;
}.

Inductive NetEvent : Type :=
| Connecting (peer : N) (made : bool)
| Calling (peer : N) (answered : bool)
| Sleeping (d : N).

Inductive ChannelError : Type :=
| Misconfigured (e : XRaftError)
| ConnectFailed (msg : string).

Section Client.
Context {MA : MembershipApi} {BV : Bincode VoterSet} {TO : Tonic}.

(** [RaftGrpcClient]; the locks are one per configured peer. *)
Record RaftGrpcClient : Type := mkRaftGrpcClient {
  g_config : RaftGrpcClientConfig;
  g_pool : gmap N Channel;
  g_connect_locks : gset N;
  g_net : Net;
  g_trace : list NetEvent;
}.
#[export] Instance RaftGrpcClient_settable : Settable RaftGrpcClient :=
  λ c, mkRaftGrpcClient (g_config c) (g_pool c) (g_connect_locks c) (g_net c) (g_trace c).
Implicit Types c : RaftGrpcClient.

Definition new_client (config : RaftGrpcClientConfig) (net : Net) : RaftGrpcClient :=
  mkRaftGrpcClient config ∅ (dom (gc_peer_endpoints config)) net [].
Definition note (e : NetEvent) (net : Net) c : RaftGrpcClient :=
  c <| g_net := net |> <| g_trace := g_trace c ++ [e] |>.

(** [jittered_sleep_duration], and the sleep. *)
Definition jittered_sleep_duration (base : N) (net : Net) : Net * N :=
  let half := base / 2 in
  let '(net, fraction) := random net in
  (net, half + mul_f64 half fraction).
Definition sleep_backoff (backoff : N) c : RaftGrpcClient :=
  let '(net, d) := jittered_sleep_duration backoff (g_net c) in
  note (Sleeping d) (sleep d net) c.
Definition next_backoff (backoff : N) c : N := N.min (backoff * 2) (gc_max_backoff (g_config c)).

Definition build_endpoint (url : string) (config : RaftGrpcClientConfig) : Result EndpointSpec :=
  match from_shared url with
  | Some e => Err (Transport ("invalid peer URL '" +:+ url +:+ "': " +:+ e))
  | None =>
      let endpoint := mkEndpointSpec url (gc_connect_timeout config) (gc_rpc_timeout config) None in
      match gc_tls config with
      | None => Ok endpoint
      | Some tls =>
          let endpoint := mkEndpointSpec url (gc_connect_timeout config) (gc_rpc_timeout config)
                            (Some (ca_cert_pem tls, tls_domain tls)) in
          match tls_config endpoint with
          | Some e => Err (Transport ("client tls_config: " +:+ e))
          | None => Ok endpoint
          end
      end
  end.

Definition no_endpoint (peer : N) : XRaftError :=
  Transport ("no endpoint configured for peer NodeId(" +:+ pretty peer +:+ "); check ClusterConfig.voters").

(** [channel_for]; one caller at a time, so the check under the lock is the
    first check again. *)
Definition channel_for (peer : N) c : RaftGrpcClient * result ChannelError Channel :=
  match g_pool c !! peer with
  | Some channel => (c, Ok channel)
  | None =>
      if decide (peer ∉ g_connect_locks c) then (c, Err (Misconfigured (no_endpoint peer)))
      else
        match gc_peer_endpoints (g_config c) !! peer with
        | None => (c, Err (Misconfigured (no_endpoint peer)))
        | Some url =>
            match build_endpoint url (g_config c) with
            | Err e => (c, Err (Misconfigured e))
            | Ok endpoint =>
                match connect endpoint (g_net c) with
                | (net, Err e) =>
                    (note (Connecting peer false) net c,
                     Err (ConnectFailed ("connect to peer " +:+ pretty peer +:+ ": " +:+ e)))
                | (net, Ok channel) =>
                    (note (Connecting peer true) net c <| g_pool := <[peer := channel]> (g_pool c) |>, Ok channel)
                end
            end
        end
  end.

(** [channel_for_attempt]: the channel, or the attempt and backoff to go on
    with, or the error to give up with. *)
Inductive Attempt : Type :=
| HaveChannel (channel : Channel)
| Again (attempt backoff : N)
| GiveUp (e : XRaftError).
Definition channel_for_attempt (peer : N) (op : string) (attempt backoff : N) c : RaftGrpcClient * Attempt :=
  match channel_for peer c with
  | (c, Ok channel) => (c, HaveChannel channel)
  | (c, Err (ConnectFailed msg)) =>
      if decide (attempt < gc_max_retries (g_config c))
      then (sleep_backoff backoff c, Again (attempt + 1) (next_backoff backoff c))
      else (c, GiveUp (Transport (op +:+ " connect to peer " +:+ pretty peer +:+ " after "
                                    +:+ pretty (attempt + 1) +:+ " attempts: " +:+ msg)))
  | (c, Err (Misconfigured e)) => (c, GiveUp e)
  end.

Definition invalidate (peer : N) c : RaftGrpcClient := c <| g_pool := delete peer (g_pool c) |>.
Definition is_retriable (s : Status) : bool := is_unavailable s || is_deadline_exceeded s.

(** The loop of the four [send_*] methods, which differ in the RPC called and
    in how its answer is decoded. *)
Fixpoint send_loop {P A : Type} (op during : string) (call : Channel → Net → Net * result Status P)
    (decode : P → Result A) (peer : N) (fuel : nat) (attempt backoff : N) c
    : option (RaftGrpcClient * Result A) :=
  match fuel with
  | O => None
  | S fuel =>
      match channel_for_attempt peer op attempt backoff c with
      | (c, GiveUp e) => Some (c, Err e)
      | (c, Again attempt backoff) => send_loop op during call decode peer fuel attempt backoff c
      | (c, HaveChannel channel) =>
          match call channel (g_net c) with
          | (net, Ok resp) => Some (note (Calling peer true) net c, decode resp)
          | (net, Err status) =>
              let c := note (Calling peer false) net c in
              if is_retriable status && bool_decide (attempt < gc_max_retries (g_config c))
              then send_loop op during call decode peer fuel (attempt + 1) (next_backoff backoff c)
                     (sleep_backoff backoff (invalidate peer c))
              else Some (c, Err (Transport (op +:+ during +:+ pretty peer +:+ " after " +:+ pretty (attempt + 1)
                                              +:+ " attempts: " +:+ show_status status)))
          end
      end
  end.
Definition send {P A} (op during : string) (call : Channel → Net → Net * result Status P)
    (decode : P → Result A) (peer : N) c : option (RaftGrpcClient * Result A) :=
  send_loop op during call decode peer (S (N.to_nat (gc_max_retries (g_config c)))) 0
    (gc_initial_backoff (g_config c)) c.

Definition max_size c : N := gc_max_message_size (g_config c).
Definition send_vote (peer : N) (request : VoteRequest) c : option (RaftGrpcClient * Result VoteResponse) :=
  send "Vote" " RPC to peer " (λ ch, rpc_vote ch (max_size c) (vote_request_to_proto request))
    (λ p, Ok (vote_response_of_proto p)) peer c.
Definition send_pre_vote (peer : N) (request : PreVoteRequest) c : option (RaftGrpcClient * Result PreVoteResponse) :=
  send "PreVote" " RPC to peer " (λ ch, rpc_pre_vote ch (max_size c) (pre_vote_request_to_proto request))
    (λ p, Ok (pre_vote_response_of_proto p)) peer c.
Definition decoded {A} (what : string) (r : result string A) : Result A :=
  match r with Ok a => Ok a | Err e => Err (Transport (what +:+ " decode: " +:+ e)) end.
Definition send_fetch (peer : N) (request : FetchRequest) c : option (RaftGrpcClient * Result FetchResponse) :=
  send "Fetch" " RPC to peer " (λ ch, rpc_fetch ch (max_size c) (fetch_request_to_proto request))
    (λ p, decoded "Fetch response" (fetch_response_of_proto p)) peer c.
(** The items of the stream, in order. *)
Definition chunk_item (item : result Status Proto.FetchSnapshotChunk) : Result FetchSnapshotChunk :=
  match item with
  | Ok p => decoded "FetchSnapshot chunk" (chunk_of_proto p)
  | Err status => Err (Transport ("FetchSnapshot stream error: " +:+ show_status status))
  end.
Definition send_fetch_snapshot (peer : N) (request : FetchSnapshotRequest) c
    : option (RaftGrpcClient * Result (list (Result FetchSnapshotChunk))) :=
  send "FetchSnapshot" " RPC init to peer "
    (λ ch, rpc_fetch_snapshot ch (max_size c) (fetch_snapshot_request_to_proto request))
    (λ items, Ok (chunk_item <$> items)) peer c.

(** ** The inbound adapter *)

Class RaftMessageHandler : Type := {
  handle_vote : VoteRequest → Result VoteResponse;
  handle_pre_vote : PreVoteRequest → Result PreVoteResponse;
  handle_fetch : FetchRequest → Result FetchResponse;
  handle_fetch_snapshot : FetchSnapshotRequest → Result (list (Result FetchSnapshotChunk));
}.
Context {H : RaftMessageHandler} (show_error : XRaftError → string).

Definition answer {A B} (what : string) (r : Result A) (encode : A → result Status B) : result Status B :=
  match r with
  | Ok a => encode a
  | Err e => Err (internal (what +:+ " handler error: " +:+ show_error e))
  end.
Definition server_vote (p : Proto.VoteRequest) : result Status Proto.VoteResponse :=
  answer "vote" (handle_vote (vote_request_of_proto p)) (λ r, Ok (vote_response_to_proto r)).
Definition server_pre_vote (p : Proto.PreVoteRequest) : result Status Proto.PreVoteResponse :=
  answer "pre_vote" (handle_pre_vote (pre_vote_request_of_proto p)) (λ r, Ok (pre_vote_response_to_proto r)).
Definition server_fetch (p : Proto.FetchRequest) : result Status Proto.FetchResponse :=
  answer "fetch" (handle_fetch (fetch_request_of_proto p)) (λ r,
    match fetch_response_to_proto r with
    | Ok p => Ok p
    | Err e => Err (internal ("fetch response encode error: " +:+ e))
    end).
Definition server_chunk (item : Result FetchSnapshotChunk) : result Status Proto.FetchSnapshotChunk :=
  match item with
  | Ok chunk => Ok (chunk_to_proto chunk)
  | Err e => Err (internal ("fetch_snapshot stream error: " +:+ show_error e))
  end.
Definition server_fetch_snapshot (p : Proto.FetchSnapshotRequest)
    : result Status (list (result Status Proto.FetchSnapshotChunk)) :=
  answer "fetch_snapshot" (handle_fetch_snapshot (fetch_snapshot_request_of_proto p)) (λ items,
    Ok (server_chunk <$> items)).
End Client.
