(* ===== verification/GrpcFacts.v ===== *)
(** * Guarantees of the gRPC transport

    One RPC costs a bounded number of attempts and sleeps on the schedule the
    configuration asks for; its answer is the handler's. *)

From S2P Require Import Prelude CoreTypes Message Text Config RaftNode Wire GrpcClient Concrete.

Section Facts.
Context {MA : MembershipApi} {BV : Bincode VoterSet} {TO : Tonic} {TL : TonicLaws TO}.
Implicit Types c : RaftGrpcClient.

(** ** Attempts and sleeps *)

Definition made_connection (e : NetEvent) : option bool := match e with Connecting _ m => Some m | _ => None end.
Definition made_call (e : NetEvent) : option bool := match e with Calling _ a => Some a | _ => None end.
Definition connects (es : list NetEvent) : nat := length (omap made_connection es).
Definition calls (es : list NetEvent) : nat := length (omap made_call es).
Definition sleeps (es : list NetEvent) : list N :=
  omap (λ e, match e with Sleeping d => Some d | _ => None end) es.
Definition peer_of (e : NetEvent) : option N :=
  match e with Connecting p _ | Calling p _ => Some p | Sleeping _ => None end.

(** The backoff before retry [i] is the initial one doubled [i] times. *)
Definition scheduled (initial max : N) (i : nat) : N := N.min (initial * 2 ^ N.of_nat i) max.

(** What one RPC may cost with [k] retries left and backoff [b]. *)
Record affordable (peer : N) (k : nat) (b max : N) (es : list NetEvent) : Prop := mkAffordable {
  af_connects : (connects es ≤ k + 1)%nat;
  af_calls : (calls es ≤ k + 1)%nat;
  af_retries : (length (sleeps es) ≤ k)%nat;
  af_schedule : ∀ i d, sleeps es !! i = Some d → scheduled b max i / 2 ≤ d ≤ scheduled b max i;
  af_peer : ∀ e p, e ∈ es → peer_of e = Some p → p = peer;
}.

Lemma jitter_bounds base net net' d :
  jittered_sleep_duration base net = (net', d) → base / 2 ≤ d ≤ base.
Proof using TL.
  unfold jittered_sleep_duration. destruct (random net) as [n k]. intros [_ <-]%pair_inv.
  pose proof (mul_f64_le (base / 2) k). pose proof (N.Div0.mul_div_le base 2). lia.
Qed.
Lemma sleep_backoff_trace b c :
  ∃ d net, sleep_backoff b c = note (Sleeping d) net c ∧ b / 2 ≤ d ≤ b.
Proof using TL.
  unfold sleep_backoff. destruct (jittered_sleep_duration b (g_net c)) as [net d] eqn:E.
  apply jitter_bounds in E. eauto.
Qed.

Lemma scheduled_next b max i : scheduled (N.min (b * 2) max) max i = scheduled b max (S i).
Proof.
  unfold scheduled. rewrite Nat2N.inj_succ, N.pow_succ_r', N.mul_assoc.
  assert (1 ≤ 2 ^ N.of_nat i) by (pose proof (N.pow_nonzero 2 (N.of_nat i)); lia).
  destruct (N.min_spec (b * 2) max) as [[? ->]|[? ->]]; nia.
Qed.

(** Before a retry: at most one connection, at most one call, one sleep. *)
Lemma affordable_retry peer k b max d es tried :
  b ≤ max → b / 2 ≤ d ≤ b → (connects tried ≤ 1)%nat → (calls tried ≤ 1)%nat → sleeps tried = [] →
  (∀ e p, e ∈ tried → peer_of e = Some p → p = peer) →
  affordable peer k (N.min (b * 2) max) max es → affordable peer (S k) b max (tried ++ Sleeping d :: es).
Proof.
  intros Hb Hd Hc Ha Hs Hp [Hc' Ha' Hr Hsch Hp'].
  split; unfold connects, calls, sleeps in *.
  - rewrite omap_app, length_app. cbn. lia.
  - rewrite omap_app, length_app. cbn. lia.
  - rewrite omap_app, Hs. cbn. lia.
  - intros i x. rewrite omap_app, Hs. cbn. destruct i as [|i]; cbn.
    + intros [= <-]. unfold scheduled. cbn. rewrite N.mul_1_r, N.min_l by done. done.
    + intros Hx%Hsch. by rewrite scheduled_next in Hx.
  - intros e p [He|[->|He]%elem_of_cons]%elem_of_app; [by apply Hp|done|by apply Hp'].
Qed.
(** The last attempt. *)
Lemma affordable_last peer k b max es :
  (connects es ≤ 1)%nat → (calls es ≤ 1)%nat → sleeps es = [] →
  (∀ e p, e ∈ es → peer_of e = Some p → p = peer) → affordable peer k b max es.
Proof. intros Hc Ha Hs Hp. split; [lia|lia|rewrite Hs; cbn; lia|by rewrite Hs|done]. Qed.

(** Acquiring a channel: what was tried, and that it failed if there is none. *)
Lemma channel_for_trace peer c c' r :
  channel_for peer c = (c', r) →
  g_config c' = g_config c ∧ ∃ tried, g_trace c' = g_trace c ++ tried ∧ (tried = [] ∨ ∃ m, tried = [Connecting peer m]).
Proof.
  clear TL. unfold channel_for. assert (∀ x : RaftGrpcClient, x = c →
    g_config x = g_config c ∧ ∃ tried, g_trace x = g_trace c ++ tried ∧ (tried = [] ∨ ∃ m, tried = [Connecting peer m])) as Hsame.
  { intros x ->. split; [done|]. exists []. rewrite app_nil_r. auto. }
  destruct (g_pool c !! peer); [intros [Hc _]%pair_inv; auto|]. case_decide; [intros [Hc _]%pair_inv; auto|].
  destruct (gc_peer_endpoints _ !! peer); [|intros [Hc _]%pair_inv; auto].
  destruct (build_endpoint _ _); [|intros [Hc _]%pair_inv; auto].
  destruct (connect _ _) as [net [ch|e]]; intros [<- _]%pair_inv; (split; [done|]); eexists; (split; [reflexivity|]); eauto.
Qed.

(** What was tried before giving up or retrying, with or without a call. *)
Lemma one_try peer tried more :
  (tried = [] ∨ ∃ m, tried = [Connecting peer m]) → (more = [] ∨ ∃ m, more = [Calling peer m]) →
  (connects (tried ++ more) ≤ 1)%nat ∧ (calls (tried ++ more) ≤ 1)%nat ∧ sleeps (tried ++ more) = [] ∧
  ∀ e p, e ∈ tried ++ more → peer_of e = Some p → p = peer.
Proof.
  clear TL. intros [->|[m ->]] [->|[m' ->]]; (split_and!; [cbn; lia..|done|]); intros e p He;
    repeat (apply elem_of_cons in He as [->|He]; [by intros [= <-]|]); by apply elem_of_nil in He.
Qed.

Section Loop.
Context {P A : Type} (op during : string) (call : Channel → Net → Net * result Status P) (decode : P → Result A)
  (peer : N).

(** One turn of the loop ends it, or retries after a sleep. *)
Inductive turn (attempt b : N) c : Prop :=
| TurnDone c' r es :
    (∀ fuel, send_loop op during call decode peer (S fuel) attempt b c = Some (c', r)) →
    g_config c' = g_config c → g_trace c' = g_trace c ++ es →
    (∃ tried more, es = tried ++ more ∧ (tried = [] ∨ ∃ m, tried = [Connecting peer m]) ∧ (more = [] ∨ ∃ m, more = [Calling peer m])) →
    turn attempt b c
| TurnRetry c' tried more d :
    attempt < gc_max_retries (g_config c) →
    (∀ fuel, send_loop op during call decode peer (S fuel) attempt b c =
             send_loop op during call decode peer fuel (attempt + 1) (N.min (b * 2) (gc_max_backoff (g_config c))) c') →
    g_config c' = g_config c → g_trace c' = g_trace c ++ (tried ++ more) ++ [Sleeping d] → b / 2 ≤ d ≤ b →
    (tried = [] ∨ ∃ m, tried = [Connecting peer m]) → (more = [] ∨ ∃ m, more = [Calling peer m]) →
    turn attempt b c.

Lemma every_turn attempt b c : turn attempt b c.
Proof using TL.
  destruct (channel_for peer c) as [c1 r] eqn:E. pose proof (channel_for_trace _ _ _ _ E) as (Hcfg & tried & Htr & Hone).
  assert (∀ r', (∀ fuel, send_loop op during call decode peer (S fuel) attempt b c = Some (c1, r')) → turn attempt b c) as Hend.
  { intros r' Hr. eapply (TurnDone _ _ _ c1 r' tried); [done..|]. exists tried, []. rewrite app_nil_r. auto. }
  destruct r as [ch|[e|msg]].
  - destruct (call ch (g_net c1)) as [net [p|status]] eqn:Ec.
    + eapply (TurnDone _ _ _ (note (Calling peer true) net c1) (decode p) (tried ++ [Calling peer true])).
      * intros fuel. cbn [send_loop]. unfold channel_for_attempt. by rewrite E, Ec.
      * done.
      * cbn. by rewrite Htr, app_assoc.
      * eexists _, _. split_and!; [reflexivity|exact Hone|eauto].
    + destruct (is_retriable status && bool_decide (attempt < gc_max_retries (g_config c))) eqn:Hr.
      * apply andb_prop in Hr as [Hr Hlt]. pose proof (bool_decide_eq_true_1 _ Hlt) as Hlt'.
        destruct (sleep_backoff_trace b (invalidate peer (note (Calling peer false) net c1))) as (d & net' & Hsl & Hd).
        eapply (TurnRetry _ _ _ (note (Sleeping d) net' (invalidate peer (note (Calling peer false) net c1))) tried [Calling peer false] d);
          [done| |done| |done|done|eauto].
        -- intros fuel. cbn [send_loop]. unfold channel_for_attempt. rewrite E, Ec. cbn [note g_config set].
           rewrite Hcfg, Hr, Hlt. cbn [andb]. rewrite Hsl. unfold next_backoff. cbn. by rewrite Hcfg.
        -- cbn. by rewrite Htr, !app_assoc.
      * eapply (TurnDone _ _ _ (note (Calling peer false) net c1) _ (tried ++ [Calling peer false])).
        -- intros fuel. cbn [send_loop]. unfold channel_for_attempt. rewrite E, Ec. cbn [note g_config set].
           rewrite Hcfg, Hr. reflexivity.
        -- done.
        -- cbn. by rewrite Htr, app_assoc.
        -- eexists _, _. split_and!; [reflexivity|exact Hone|eauto].
  - apply (Hend (Err e)). intros fuel. cbn [send_loop]. unfold channel_for_attempt. by rewrite E.
  - destruct (decide (attempt < gc_max_retries (g_config c))) as [Hlt|Hge].
    + destruct (sleep_backoff_trace b c1) as (d & net & Hsl & Hd).
      eapply (TurnRetry _ _ _ (note (Sleeping d) net c1) tried [] d); [done| |done| |done|done|auto].
      * intros fuel. cbn [send_loop]. unfold channel_for_attempt. rewrite E, decide_True by by rewrite Hcfg.
        unfold next_backoff. by rewrite Hsl, Hcfg.
      * cbn. by rewrite Htr, app_nil_r, app_assoc.
    + eapply Hend. intros fuel. cbn [send_loop]. unfold channel_for_attempt. rewrite E, decide_False by by rewrite Hcfg. reflexivity.
Qed.

Lemma send_loop_affordable k attempt b c :
  let max := gc_max_backoff (g_config c) in
  b ≤ max → attempt + N.of_nat k = gc_max_retries (g_config c) →
  ∃ c' r es, send_loop op during call decode peer (S k) attempt b c = Some (c', r) ∧
    g_config c' = g_config c ∧ g_trace c' = g_trace c ++ es ∧ affordable peer k b max es.
Proof using TL.
  revert attempt b c. induction k as [|k IH]; intros attempt b c max Hb Hk;
    destruct (every_turn attempt b c) as [c' r es Hl Hcfg Htr (tried & more & -> & H1 & H2)|c' tried more d Hlt Hl Hcfg Htr Hd H1 H2];
    try (exists c', r, (tried ++ more); split_and!; [apply Hl|done|done|];
      destruct (one_try peer tried more H1 H2) as (?&?&?&?); by apply affordable_last); [lia|].
  rewrite Hl. destruct (IH (attempt + 1) (N.min (b * 2) max) c') as (c2 & r & es & Hr & Hcfg2 & Htr2 & Ha); [rewrite Hcfg; unfold max; lia..|].
  exists c2, r, ((tried ++ more) ++ Sleeping d :: es). split_and!; [exact Hr|congruence| |].
  - rewrite Htr2, Htr, <-!app_assoc. done.
  - rewrite Hcfg in Ha. destruct (one_try peer tried more H1 H2) as (?&?&?&?). by apply affordable_retry.
Qed.
(** Only a call gives an answer. *)
Lemma send_loop_answer fuel attempt b c c' a :
  send_loop op during call decode peer fuel attempt b c = Some (c', Ok a) →
  ∃ ch net p, (call ch net).2 = Ok p ∧ decode p = Ok a.
Proof.
  clear TL. revert attempt b c. induction fuel as [|fuel IH]; intros attempt b c; [done|]. cbn [send_loop].
  destruct (channel_for_attempt peer op attempt b c) as [c1 [ch|attempt' b'|e]]; [|apply IH|done].
  destruct (call ch (g_net c1)) as [net [p|status]] eqn:E.
  - intros [= _ Hp]. exists ch, (g_net c1), p. by rewrite E.
  - destruct (is_retriable status && _); [apply IH|done].
Qed.
End Loop.

(** C12: One RPC is bounded: whatever the network does, [send] returns; it
    makes at most one connection attempt and one call more than the configured
    retries, in total and not per connection, all to the peer asked for; and
    before retry [i] it sleeps between half and the whole of the initial
    backoff doubled [i] times and capped.  The configuration has an initial
    backoff below the cap, which [validate] demands. *)
Theorem send_affordable {P A} op during (call : Channel → Net → Net * result Status P) (decode : P → Result A) peer c :
  let config := g_config c in
  gc_initial_backoff config ≤ gc_max_backoff config →
  ∃ c' r es, send op during call decode peer c = Some (c', r) ∧ g_config c' = config ∧ g_trace c' = g_trace c ++ es ∧
    affordable peer (N.to_nat (gc_max_retries config)) (gc_initial_backoff config) (gc_max_backoff config) es.
Proof using TL. intros config Hb. apply send_loop_affordable; [done|]. rewrite N2Nat.id. done. Qed.

(** ** From the caller to the handler *)

Context {BL : BincodeLaws VoterSet BV} {ML : MembershipLaws MA}.
Context {H : RaftMessageHandler} (show_error : XRaftError → string).

(** A connection that reaches the handler's adapter: an answer it gives, the
    adapter gave; a stream may break off with an error. *)
Record reaches : Prop := mkReaches {
  rc_vote ch size p net q : (rpc_vote ch size p net).2 = Ok q → server_vote show_error p = Ok q;
  rc_pre_vote ch size p net q : (rpc_pre_vote ch size p net).2 = Ok q → server_pre_vote show_error p = Ok q;
  rc_fetch ch size p net q : (rpc_fetch ch size p net).2 = Ok q → server_fetch show_error p = Ok q;
  rc_fetch_snapshot ch size p net q :
    (rpc_fetch_snapshot ch size p net).2 = Ok q →
    ∃ items, server_fetch_snapshot show_error p = Ok items ∧ (q = items ∨ ∃ k status, q = take k items ++ [Err status]);
}.
Definition chunk_valid (chunk : FetchSnapshotChunk) : Prop :=
  ∀ m vs, fsc_metadata chunk = Some m → sm_voter_set m = Some vs → voter_set_valid vs.
(** An item of a stream, as sent and as received. *)
Definition same_item (sent received : Result FetchSnapshotChunk) : Prop :=
  match sent with
  | Ok chunk => chunk_valid chunk → received = Ok chunk
  | Err _ => ∃ msg, received = Err (Transport msg)
  end.

(** A stream, whole or broken off. *)
Definition arrives (sent received : list (Result FetchSnapshotChunk)) : Prop :=
  Forall2 same_item sent received ∨
  ∃ k msg whole, received = whole ++ [Err (Transport msg)] ∧ Forall2 same_item (take k sent) whole.

Lemma items_same (items : list (Result FetchSnapshotChunk)) :
  Forall2 same_item items (chunk_item <$> (server_chunk show_error <$> items)).
Proof using ML.
  induction items as [|[chunk|e] items IH]; [constructor|..]; (constructor; [|exact IH]); cbn; [|eauto].
  intros Hv. unfold decoded. by rewrite chunk_roundtrip.
Qed.

Lemma answer_ok {A B} what (r : Result A) (encode : A → result Status B) q :
  answer show_error what r encode = Ok q → ∃ a, r = Ok a ∧ encode a = Ok q.
Proof. clear TL. destruct r as [a|e]; [eauto|done]. Qed.

(** C11: The transport is transparent: over connections that reach the
    handler, whatever fails and is retried on the way, an answer the caller
    gets is the answer the handler gave to the very request: for both kinds of
    vote, for fetches with their entries, and for the chunks of a snapshot
    stream, whole or up to the error that ends it. *)
Theorem answers_are_the_handlers peer c c' :
  reaches →
  (∀ req r, send_vote peer req c = Some (c', Ok r) → handle_vote req = Ok r) ∧
  (∀ req r, send_pre_vote peer req c = Some (c', Ok r) → handle_pre_vote req = Ok r) ∧
  (∀ req r, send_fetch peer req c = Some (c', Ok r) → handle_fetch req = Ok r) ∧
  (∀ req r, send_fetch_snapshot peer req c = Some (c', Ok r) →
     ∃ items, handle_fetch_snapshot req = Ok items ∧ arrives items r).
Proof using BL ML.
  clear TL. intros Hnet. split_and!; intros req r (ch & net & p & Hp & Hd)%send_loop_answer.
  - apply (rc_vote Hnet), answer_ok in Hp as (a & Ha & [= <-]).
    injection Hd as <-. revert Ha. destruct req, a. done.
  - apply (rc_pre_vote Hnet), answer_ok in Hp as (a & Ha & [= <-]).
    injection Hd as <-. revert Ha. destruct req, a. done.
  - apply (rc_fetch Hnet), answer_ok in Hp as (a & Ha & He).
    assert (handle_fetch req = Ok a) as -> by (rewrite <-Ha; by destruct req).
    pose proof (fetch_response_roundtrip a) as Hrt. destruct (marker_free (frs_entries a)).
    + destruct Hrt as (q & Hq & Hback). rewrite Hq in He. injection He as ->.
      unfold decoded in Hd. rewrite Hback in Hd. by injection Hd as ->.
    + destruct Hrt as [e Hq]. by rewrite Hq in He.
  - apply (rc_fetch_snapshot Hnet) in Hp as (sent & Hsent & Hp). apply answer_ok in Hsent as (items & Ha & [= <-]).
    injection Hd as <-. exists items. split; [by rewrite <-Ha; destruct req|]. destruct Hp as [->|(k & status & ->)].
    + left. apply items_same.
    + right. eexists k, _, _. rewrite fmap_app, <-fmap_take. split; [reflexivity|]. apply items_same.
Qed.
End Facts.

(** ** A network *)

Import Concrete.

(** A network that refuses as many connections and calls as its state says,
    and then passes every call to the adapter of a handler. *)
Module Flaky.
Definition status : Type := N * string.
Section Instance_.
Context (handler : string → RaftMessageHandler).
Definition refused {A} (net : nat) (r : result status A) : nat * result status A :=
  match net with S n => (n, Err (14, "unavailable")) | O => (O, r) end.
Definition say (e : XRaftError) : string := match e with Transport s | Config s | Storage s => s | _ => "error" end.
Definition tonic_of (adapter_vote : string → Proto.VoteRequest → result status Proto.VoteResponse)
    (adapter_pre_vote : string → Proto.PreVoteRequest → result status Proto.PreVoteResponse)
    (adapter_fetch : string → Proto.FetchRequest → result status Proto.FetchResponse)
    (adapter_snapshot : string → Proto.FetchSnapshotRequest → result status (list (result status Proto.FetchSnapshotChunk)))
    : Tonic := {|
  Status := status; is_unavailable s := s.1 =? 14; is_deadline_exceeded s := s.1 =? 4;
  show_status s := s.2; internal s := (13, s);
  Channel := string; Net := nat;
  from_shared _ := None; tls_config _ := None;
  connect e net := match net with S n => (n, Err "refused") | O => (O, Ok (en_url e)) end;
  rpc_vote ch _ p net := refused net (adapter_vote ch p);
  rpc_pre_vote ch _ p net := refused net (adapter_pre_vote ch p);
  rpc_fetch ch _ p net := refused net (adapter_fetch ch p);
  rpc_fetch_snapshot ch _ p net := refused net (adapter_snapshot ch p);
  sleep _ net := net; random net := (net, 0); mul_f64 d _ := d / 2 |}.
Definition silent {P A} : string → P → result status A := λ _ _, Err (13, "").
Definition base_tonic : Tonic := tonic_of silent silent silent silent.
(** The adapters only use the status type. *)
Definition tonic : Tonic :=
  tonic_of (λ ch, server_vote (TO := base_tonic) (H := handler ch) say)
    (λ ch, server_pre_vote (TO := base_tonic) (H := handler ch) say)
    (λ ch, server_fetch (TO := base_tonic) (H := handler ch) say)
    (λ ch, server_fetch_snapshot (TO := base_tonic) (H := handler ch) say).
#[export] Instance tonic_laws : TonicLaws tonic.
Proof. split; [|done..]. intros d k. cbn. apply N.Div0.div_le_upper_bound. lia. Qed.
End Instance_.
End Flaky.

(** Every node grants votes and has one entry to serve. *)
Definition granting : RaftMessageHandler := {|
  handle_vote req := Ok (mkVoteResponse "c" (vrq_term req) (vrq_term req) true None);
  handle_pre_vote _ := Err Shutdown;
  handle_fetch _ := Ok (mkFetchResponse "c" 1 1 0 [mkEntry 1 1 NoOp] None None true);
  handle_fetch_snapshot _ := Ok [Ok sample_chunk];
|}.
Definition roster : gmap N string := {[2 := "http://host2:5002"; 3 := "http://host3:5003"]}.
Definition retrying : RaftGrpcClientConfig := mkRaftGrpcClientConfig roster 5 30 3 100 250 64 None.
#[local] Existing Instance granting.
#[local] Instance flaky : Tonic := Flaky.tonic (λ _, granting).
Definition caller (failures : nat) : RaftGrpcClient := new_client retrying failures.
Definition ask_vote : VoteRequest := mkVoteRequest "c" 1 1 1 0 0.

(** Two failed connections, then a call: the sleeps are on the schedule. *)
Lemma send_affordable_witness :
  ∃ c' r es, send_vote 2 ask_vote (caller 2) = Some (c', r) ∧ g_config c' = retrying ∧
    g_trace c' = [] ++ es ∧ affordable 2 3 100 250 es ∧ sleeps es = [75; 150].
Proof.
  destruct (send_affordable (TL := Flaky.tonic_laws (λ _, granting)) "Vote" " RPC to peer "
    (λ ch, rpc_vote ch 64 (vote_request_to_proto ask_vote)) (λ p, Ok (vote_response_of_proto p)) 2 (caller 2)
    ltac:(vm_compute; discriminate)) as (c' & r & es & Hs & Hc & Ht & Ha).
  exists c', r, es. split; [exact Hs|]. split; [exact Hc|]. split; [exact Ht|]. split; [exact Ha|].
  change (g_trace c' = es) in Ht. rewrite <-Ht. vm_compute in Hs. injection Hs as <- _. reflexivity.
Defined.

Lemma flaky_reaches : reaches Flaky.say.
Proof.
  split; intros ch size p [|n] q; cbn; try done. intros Hq. exists q. auto.
Qed.
Lemma answers_are_the_handlers_witness :
  (∃ c', send_vote 2 ask_vote (caller 3) = Some (c', Ok (mkVoteResponse "c" 1 1 true None))) ∧
  handle_vote ask_vote = Ok (mkVoteResponse "c" 1 1 true None).
Proof.
  destruct (send_vote 2 ask_vote (caller 3)) as [[c' r]|] eqn:E; [|discriminate E].
  assert (r = Ok (mkVoteResponse "c" 1 1 true None)) as -> by (vm_compute in E; injection E as _ <-; reflexivity).
  split; [exists c'; reflexivity|].
  exact (proj1 (answers_are_the_handlers Flaky.say 2 (caller 3) c' flaky_reaches) _ _ E).
Defined.
