(* ===== verification/PeerPool.v ===== *)
(** * The connection pool ([xraft-client/src/{pool,peer}.rs])

    One [PeerClient] per peer over the shared transport client, each with the
    leader it has last heard of, and the routing of fetches to the leader.
    Clones share the hint cell of their peer, so the pool keeps the cells. *)

From S2P Require Import Prelude CoreTypes Message Text Config RaftNode Wire GrpcClient GrpcFacts Concrete.

Section Pool.
Context {MA : MembershipApi} {BV : Bincode VoterSet} {TO : Tonic} {HI : HashIter}.

(** [LeaderHintEntry], fenced by its epoch. *)
Abbreviation Hint := (option (N * N)).

Record ConnectionPool : Type := mkConnectionPool {
  cp_client : RaftGrpcClient;
  cp_peer_endpoints : gmap N string;
  cp_peer_clients : gmap N Hint;
}.
#[export] Instance ConnectionPool_settable : Settable ConnectionPool :=
  λ p, mkConnectionPool (cp_client p) (cp_peer_endpoints p) (cp_peer_clients p).
Implicit Types p : ConnectionPool.

(** [ConnectionPool::from_cluster_config]. *)
Definition from_cluster_config (fs_read : string → result string bytes) (cluster : ClusterConfig) (net : Net)
    : Result ConnectionPool :=
  let? tls := tls_of fs_read cluster in
  let endpoints := peer_endpoints cluster in
  let client_cfg := mkRaftGrpcClientConfig endpoints (from_millis (connect_timeout_ms cluster))
    (from_millis (rpc_timeout_ms cluster)) (max_rpc_retries cluster) (from_millis (retry_initial_backoff_ms cluster))
    (from_millis (retry_max_backoff_ms cluster)) (max_message_size cluster) tls in
  Ok (mkConnectionPool (new_client client_cfg net) endpoints ∅).

(** [PeerClient::cache_hint] on the cell of a peer. *)
Definition raised (cell : Hint) (candidate : option N) (epoch : N) : Hint :=
  match candidate with
  | None => cell
  | Some leader =>
      match cell with
      | None => Some (leader, epoch)
      | Some (_, cached_epoch) => if decide (cached_epoch < epoch) then Some (leader, epoch) else cell
      end
  end.
Definition cache_hint (peer : N) (candidate : option N) (epoch : N) p : ConnectionPool :=
  p <| cp_peer_clients := alter (λ cell, raised cell candidate epoch) peer (cp_peer_clients p) |>.

(** [peer_client]: the cell of the peer, made on first use. *)
Definition peer_client (peer : N) p : ConnectionPool * Result N :=
  match cp_peer_endpoints p !! peer with
  | None => (p, Err (Config ("peer_client: no endpoint configured for peer " +:+ pretty peer +:+
                               "; check ClusterConfig.voters")))
  | Some _ =>
      match cp_peer_clients p !! peer with
      | Some _ => (p, Ok peer)
      | None => (p <| cp_peer_clients := <[peer := None]> (cp_peer_clients p) |>, Ok peer)
      end
  end.

(** The typed RPCs of a [PeerClient]. *)
Definition vote (peer : N) (request : VoteRequest) p : option (ConnectionPool * Result VoteResponse) :=
  '(c, r) ← send_vote peer request (cp_client p);
  let p := p <| cp_client := c |> in
  Some (match r with
        | Ok response => (cache_hint peer (vrs_leader_hint response) (vrs_leader_epoch response) p, Ok response)
        | Err e => (p, Err e)
        end).
Definition pre_vote (peer : N) (request : PreVoteRequest) p : option (ConnectionPool * Result PreVoteResponse) :=
  '(c, r) ← send_pre_vote peer request (cp_client p);
  let p := p <| cp_client := c |> in
  Some (match r with
        | Ok response => (cache_hint peer (pvs_leader_hint response) (pvs_leader_epoch response) p, Ok response)
        | Err e => (p, Err e)
        end).
Definition fetch (peer : N) (request : FetchRequest) p : option (ConnectionPool * Result FetchResponse) :=
  '(c, r) ← send_fetch peer request (cp_client p);
  let p := p <| cp_client := c |> in
  Some (match r with
        | Ok response =>
            (if frs_is_leader response
             then cache_hint peer (Some (frs_leader_id response)) (frs_leader_epoch response) p else p, Ok response)
        | Err e => (p, Err e)
        end).
Definition fetch_snapshot (peer : N) (request : FetchSnapshotRequest) p
    : option (ConnectionPool * Result (list (Result FetchSnapshotChunk))) :=
  '(c, r) ← send_fetch_snapshot peer request (cp_client p); Some (p <| cp_client := c |>, r).

(** [max_by_key] keeps the last of equal keys. *)
Definition fresher (best : Hint) (h : N * N) : Hint :=
  match best with
  | Some (_, epoch) => if decide (epoch ≤ h.2) then Some h else best
  | None => Some h
  end.
Definition leader_hint_entry p : Hint :=
  foldl fresher None (omap (λ cell, cell) (hash_iter (cp_peer_clients p)).*2).
Definition leader_hint p : option N := fst <$> leader_hint_entry p.

(** [leader_client]. *)
Definition leader_client p : ConnectionPool * Result (option N) :=
  match leader_hint p with
  | None => (p, Ok None)
  | Some leader =>
      match cp_peer_endpoints p !! leader with
      | None => (p, Ok None)
      | Some _ =>
          match peer_client leader p with
          | (p, Ok peer) => (p, Ok (Some peer))
          | (p, Err e) => (p, Err e)
          end
      end
  end.

(** [fetch_via_leader]. *)
Definition route (prefer : N) p : N :=
  match leader_hint p with
  | Some id => match cp_peer_endpoints p !! id with Some _ => id | None => prefer end
  | None => prefer
  end.
Definition fetch_via_leader (prefer : N) (request : FetchRequest) p
    : option (ConnectionPool * Result FetchResponse) :=
  let target := route prefer p in
  match peer_client target p with
  | (p, Err e) => Some (p, Err e)
  | (p, Ok target_client) =>
      '(p, r) ← fetch target_client request p;
      match r with
      | Err e => Some (p, Err e)
      | Ok response =>
          if frs_is_leader response then Some (p, Ok response)
          else
            let advertised := frs_leader_id response in
            if decide (advertised = target) then Some (p, Ok response)
            else
              match cp_peer_endpoints p !! advertised with
              | None => Some (p, Ok response)
              | Some _ =>
                  match peer_client advertised p with
                  | (p, Err e) => Some (p, Err e)
                  | (p, Ok leader_client) => fetch leader_client request p
                  end
              end
      end
  end.

(** The pool and the inbound transport are configured alike. *)
Lemma same_client_config fs_read cluster net p :
  from_cluster_config fs_read cluster net = Ok p →
  ∃ t, transport_config_of fs_read cluster = Ok t ∧ g_config (cp_client p) = client_config t.
Proof.
  unfold from_cluster_config, transport_config_of. destruct (tls_of fs_read cluster); [|done]. cbn. intros [= <-]. eauto.
Qed.

(** ** Hints are fenced *)

(** A call on the pool, or on the client it hands out. *)
Inductive PoolCall : Type :=
| CallVote (peer : N) (request : VoteRequest)
| CallPreVote (peer : N) (request : PreVoteRequest)
| CallFetch (peer : N) (request : FetchRequest)
| CallFetchSnapshot (peer : N) (request : FetchSnapshotRequest)
| CallLeaderClient
| CallFetchViaLeader (prefer : N) (request : FetchRequest).
Definition with_client {A} (peer : N) (f : N → ConnectionPool → option (ConnectionPool * Result A)) p
    : option ConnectionPool :=
  match peer_client peer p with
  | (p, Ok client) => fst <$> f client p
  | (p, Err _) => Some p
  end.
Definition exec_call (k : PoolCall) p : option ConnectionPool :=
  match k with
  | CallVote peer request => with_client peer (λ x, vote x request) p
  | CallPreVote peer request => with_client peer (λ x, pre_vote x request) p
  | CallFetch peer request => with_client peer (λ x, fetch x request) p
  | CallFetchSnapshot peer request => with_client peer (λ x, fetch_snapshot x request) p
  | CallLeaderClient => Some (leader_client p).1
  | CallFetchViaLeader prefer request => fst <$> fetch_via_leader prefer request p
  end.
Fixpoint exec_calls (ks : list PoolCall) p : option ConnectionPool :=
  match ks with [] => Some p | k :: ks => exec_call k p ≫= exec_calls ks end.

(** A hint that may replace another: a newer epoch, or the same hint. *)
Definition newer (h h' : Hint) : Prop :=
  match h with None => True | Some (l, e) => ∃ l' e', h' = Some (l', e') ∧ e ≤ e' ∧ (e' = e → l' = l) end.
#[export] Instance newer_refl : Reflexive newer.
Proof. intros [[l e]|]; [|done]. exists l, e. split_and!; done || lia. Qed.
#[export] Instance newer_trans : Transitive newer.
Proof.
  intros [[l e]|] h h'; [|done]. intros (l1 & e1 & -> & H1 & H1') (l2 & e2 & -> & H2 & H2').
  exists l2, e2. split_and!; [done|lia|]. intros ->. assert (e1 = e) as -> by lia. rewrite H2' by lia. auto.
Qed.

(** What every call keeps: the configuration and the roster, and no cell goes
    back. *)
Record evolves p p' : Prop := mkEvolves {
  ev_config : g_config (cp_client p') = g_config (cp_client p);
  ev_roster : cp_peer_endpoints p' = cp_peer_endpoints p;
  ev_cells : ∀ peer h, cp_peer_clients p !! peer = Some h → ∃ h', cp_peer_clients p' !! peer = Some h' ∧ newer h h';
}.
#[export] Instance evolves_refl : Reflexive evolves.
Proof. intros p. split; [done..|]. intros peer h Hh. by exists h. Qed.
#[export] Instance evolves_trans : Transitive evolves.
Proof.
  intros p1 p2 p3 [C1 R1 H1] [C2 R2 H2]. split; [congruence..|].
  intros peer h (h' & Hh' & Hn)%H1. destruct (H2 _ _ Hh') as (h2 & Hh2 & Hn2). exists h2. split; [done|by etrans].
Qed.

Lemma raised_newer cell candidate epoch : newer cell (raised cell candidate epoch).
Proof.
  destruct candidate as [l|]; cbn; [|done]. destruct cell as [[l0 e0]|]; [|done]. case_decide as Hlt; [|done].
  exists l, epoch. split_and!; [done|lia|lia].
Qed.
Lemma cache_evolves peer candidate epoch p : evolves p (cache_hint peer candidate epoch p).
Proof.
  split; [done..|]. intros q h Hh. cbn. destruct (decide (q = peer)) as [->|Hne].
  - rewrite lookup_alter_eq, Hh. eexists. split; [done|apply raised_newer].
  - rewrite lookup_alter_ne by done. by exists h.
Qed.
Lemma peer_client_evolves peer p p' r : peer_client peer p = (p', r) → evolves p p'.
Proof.
  unfold peer_client. destruct (cp_peer_endpoints p !! peer); [|by intros [<- _]%pair_inv].
  destruct (cp_peer_clients p !! peer) eqn:Hc; [by intros [<- _]%pair_inv|]. intros [<- _]%pair_inv.
  split; [done..|]. intros q h Hh. cbn. rewrite lookup_insert_ne by congruence. by exists h.
Qed.

Lemma peer_client_spec peer p p' r :
  peer_client peer p = (p', r) →
  cp_client p' = cp_client p ∧
  match r with Ok x => x = peer ∧ is_Some (cp_peer_endpoints p !! peer) | Err _ => cp_peer_endpoints p !! peer = None end.
Proof.
  unfold peer_client. destruct (cp_peer_endpoints p !! peer) eqn:He; [|by intros [<- <-]%pair_inv].
  destruct (cp_peer_clients p !! peer); intros [<- <-]%pair_inv; by eauto.
Qed.

(** ** Every call returns *)

Context {TL : TonicLaws TO}.

Definition backoff_valid p : Prop :=
  gc_initial_backoff (g_config (cp_client p)) ≤ gc_max_backoff (g_config (cp_client p)).
(** The cost of one RPC to [peer] under the pool's configuration. *)
Definition cheap (peer : N) p (es : list NetEvent) : Prop :=
  let config := g_config (cp_client p) in
  affordable peer (N.to_nat (gc_max_retries config)) (gc_initial_backoff config) (gc_max_backoff config) es.
Lemma cheap_nil peer p : cheap peer p [].
Proof. apply affordable_last; [cbn; lia|cbn; lia|done|]. intros e x He. by apply elem_of_nil in He. Qed.
Lemma cheap_config peer p p' es : g_config (cp_client p') = g_config (cp_client p) → cheap peer p' es → cheap peer p es.
Proof. unfold cheap. by intros ->. Qed.
(** An RPC to [peer] that has returned. *)
Definition returned {A} (peer : N) p (o : option (ConnectionPool * Result A)) : Prop :=
  ∃ p' r es, o = Some (p', r) ∧ evolves p p' ∧ g_trace (cp_client p') = g_trace (cp_client p) ++ es ∧ cheap peer p es.

Lemma evolves_valid p p' : evolves p p' → backoff_valid p → backoff_valid p'.
Proof. clear TL. intros [Hc _ _]. unfold backoff_valid. by rewrite Hc. Qed.
Lemma with_net_evolves c p : g_config c = g_config (cp_client p) → evolves p (p <| cp_client := c |>).
Proof. clear TL. intros Hc. split; [done..|]. intros q h Hh. by exists h. Qed.
Lemma returned_after {A B} peer p (o : option (RaftGrpcClient * Result A))
    (k : Result A → ConnectionPool → ConnectionPool * Result B) :
  (∃ c' r es, o = Some (c', r) ∧ g_config c' = g_config (cp_client p) ∧
     g_trace c' = g_trace (cp_client p) ++ es ∧ cheap peer p es) →
  (∀ r q, evolves q (k r q).1 ∧ cp_client (k r q).1 = cp_client q) →
  returned peer p ('(c, r) ← o; Some (k r (p <| cp_client := c |>))).
Proof.
  clear TL. intros (c' & r & es & -> & Hc & Ht & Ha) Hk. cbn [mbind option_bind].
  destruct (Hk r (p <| cp_client := c' |>)) as [He Hcl]. destruct (k r _) as [p' r']. cbn [fst] in *.
  exists p', r', es. split_and!; [done| |by rewrite Hcl|done]. etrans; [by apply with_net_evolves|exact He].
Qed.
Lemma vote_returned peer request p : backoff_valid p → returned peer p (vote peer request p).
Proof using TL.
  intros Hb. apply (returned_after peer p _ (λ r q, match r with
    | Ok response => (cache_hint peer (vrs_leader_hint response) (vrs_leader_epoch response) q, Ok response)
    | Err e => (q, Err e) end)); [by apply send_affordable|].
  intros [x|e] q; (split; [|done]); [apply cache_evolves|done].
Qed.
Lemma pre_vote_returned peer request p : backoff_valid p → returned peer p (pre_vote peer request p).
Proof using TL.
  intros Hb. apply (returned_after peer p _ (λ r q, match r with
    | Ok response => (cache_hint peer (pvs_leader_hint response) (pvs_leader_epoch response) q, Ok response)
    | Err e => (q, Err e) end)); [by apply send_affordable|].
  intros [x|e] q; (split; [|done]); [apply cache_evolves|done].
Qed.
Lemma fetch_returned peer request p : backoff_valid p → returned peer p (fetch peer request p).
Proof using TL.
  intros Hb. apply (returned_after peer p _ (λ r q, match r with
    | Ok response => (if frs_is_leader response
    then cache_hint peer (Some (frs_leader_id response)) (frs_leader_epoch response) q else q, Ok response)
    | Err e => (q, Err e) end)); [by apply send_affordable|].
  intros [x|e] q; [|done]. cbn. destruct (frs_is_leader x); (split; [|done]); [apply cache_evolves|done].
Qed.
Lemma fetch_snapshot_returned peer request p : backoff_valid p → returned peer p (fetch_snapshot peer request p).
Proof using TL.
  intros Hb. apply (returned_after peer p _ (λ r q, (q, r))); [by apply send_affordable|]. done.
Qed.

Lemma redirect_spec prefer request p :
  backoff_valid p →
  let target := route prefer p in
  ∃ p' r first second, fetch_via_leader prefer request p = Some (p', r) ∧ evolves p p' ∧
    g_trace (cp_client p') = g_trace (cp_client p) ++ first ++ second ∧ cheap target p first ∧
    (second = [] ∨ ∃ other p1 response, other ≠ target ∧ is_Some (cp_peer_endpoints p !! other) ∧ cheap other p second ∧
       fetch target request (peer_client target p).1 = Some (p1, Ok response) ∧
       frs_is_leader response = false ∧ frs_leader_id response = other).
Proof using TL.
  intros Hb target. unfold fetch_via_leader. fold target.
  assert (∀ q : ConnectionPool, cp_client q = cp_client p → g_trace (cp_client q) = g_trace (cp_client p) ++ [] ++ []) as Hnil
    by (intros q ->; by rewrite !app_nil_r).
  assert (cheap target p []) as Hfree by apply cheap_nil.
  destruct (peer_client target p) as [p0 [x|e]] eqn:E0.
  2:{ exists p0, (Err e), [], []. pose proof (peer_client_spec _ _ _ _ E0) as [Hcl _]. split_and!; try done; auto.
      by eapply peer_client_evolves. }
  pose proof (peer_client_evolves _ _ _ _ E0) as Hev0. apply peer_client_spec in E0 as (Hcl0 & -> & Hroster0).
  destruct (fetch_returned target request p0) as (p1 & r1 & es1 & Hf & Hev1 & Ht1 & Hc1); [by eapply evolves_valid|].
  rewrite Hcl0 in Ht1. apply (cheap_config _ p) in Hc1; [|by rewrite Hcl0].
  assert (evolves p p1) as Hev by by etrans.
  cbn [fst]. rewrite Hf. cbn [mbind option_bind].
  assert (∀ r : Result FetchResponse, ∃ p' r' first second, Some (p1, r) = Some (p', r') ∧ evolves p p' ∧
    g_trace (cp_client p') = g_trace (cp_client p) ++ first ++ second ∧ cheap target p first ∧
    (second = [] ∨ ∃ other p2 response, other ≠ target ∧ is_Some (cp_peer_endpoints p !! other) ∧ cheap other p second ∧
       Some (p1, r1) = Some (p2, Ok response) ∧ frs_is_leader response = false ∧ frs_leader_id response = other)) as Hstop.
  { intros r. exists p1, r, es1, []. rewrite app_nil_r. auto 6. }
  destruct r1 as [response|e]; [|apply Hstop]. destruct (frs_is_leader response) eqn:Hl; [apply Hstop|].
  case_decide as Hother; [apply Hstop|]. destruct (cp_peer_endpoints p1 !! frs_leader_id response) as [url|] eqn:Hurl; [|apply Hstop].
  destruct (peer_client (frs_leader_id response) p1) as [p2 [x|e]] eqn:E2.
  2:{ apply peer_client_spec in E2 as [_ E2]. by rewrite Hurl in E2. }
  pose proof (peer_client_evolves _ _ _ _ E2) as Hev2. apply peer_client_spec in E2 as (Hcl2 & -> & _).
  assert (evolves p p2) as Hevp by by etrans.
  destruct (fetch_returned (frs_leader_id response) request p2) as (p3 & r3 & es3 & Hf3 & Hev3 & Ht3 & Hc3);
    [by eapply evolves_valid|].
  apply (cheap_config _ p) in Hc3; [|apply Hevp]. rewrite Hcl2, Ht1, <-app_assoc in Ht3.
  exists p3, r3, es1, es3. rewrite Hf3. split_and!; [done|by etrans|done..|]. right.
  exists (frs_leader_id response), p1, response. split_and!; try done. rewrite <-(ev_roster _ _ Hev), Hurl. eauto.
Qed.

(** C14: A fetch is redirected at most once: whatever the network does,
    [fetch_via_leader] returns; it fetches from the routed peer, and from one
    more peer only if the first answered without being the leader and named
    that other, configured peer; each of the two fetches keeps to the cost of
    a single RPC, and nobody else is contacted. *)
Theorem at_most_one_redirect prefer request p :
  backoff_valid p →
  let target := route prefer p in
  ∃ p' r first second, fetch_via_leader prefer request p = Some (p', r) ∧ evolves p p' ∧
    g_trace (cp_client p') = g_trace (cp_client p) ++ first ++ second ∧ cheap target p first ∧
    (second = [] ∨ ∃ other p1 response, other ≠ target ∧ is_Some (cp_peer_endpoints p !! other) ∧ cheap other p second ∧
       fetch target request (peer_client target p).1 = Some (p1, Ok response) ∧
       frs_is_leader response = false ∧ frs_leader_id response = other).
Proof using TL. apply redirect_spec. Qed.

(** ** The freshest hint *)

Context {HL : HashIterLaws HI}.

Definition freshest (cells : gmap N Hint) (best : Hint) : Prop :=
  match best with
  | None => ∀ peer h, cells !! peer = Some h → h = None
  | Some h => (∃ peer, cells !! peer = Some (Some h)) ∧ ∀ peer h', cells !! peer = Some (Some h') → h'.2 ≤ h.2
  end.

Lemma fresher_spec (l : list (N * N)) (best : Hint) :
  match foldl fresher best l with
  | None => best = None ∧ l = []
  | Some h => (best = Some h ∨ h ∈ l) ∧ (∀ h', best = Some h' ∨ h' ∈ l → h'.2 ≤ h.2)
  end.
Proof.
  clear. revert best. induction l as [|x l IH]; intros best; cbn [foldl].
  { destruct best as [h|]; [|done]. split; [by left|]. intros h' [[= ->]|Hin]; [lia|by apply elem_of_nil in Hin]. }
  specialize (IH (fresher best x)). destruct (foldl fresher (fresher best x) l) as [h|].
  - destruct IH as [Hin Hmax]. unfold fresher in *. destruct best as [[l0 e0]|].
    + case_decide as Hle.
      * split; [right; rewrite elem_of_cons; destruct Hin as [[= ->]|?]; auto|].
        intros h' [[= <-]|[->|Hh]%elem_of_cons]; [|by apply Hmax; left|by apply Hmax; right].
        specialize (Hmax x (or_introl eq_refl)). cbn. lia.
      * split; [destruct Hin as [?|?]; [by left|right; by apply elem_of_cons; right]|].
        intros h' [Hh|[->|Hh]%elem_of_cons]; [by apply Hmax; left| |by apply Hmax; right].
        specialize (Hmax _ (or_introl eq_refl)). cbn in Hmax. lia.
    + split; [right; rewrite elem_of_cons; destruct Hin as [[= ->]|?]; auto|].
      intros h' [?|[->|Hh]%elem_of_cons]; [done|by apply Hmax; left|by apply Hmax; right].
  - destruct IH as [Hb _]. unfold fresher in Hb. destruct best as [[l0 e0]|]; [case_decide|]; done.
Qed.
Lemma elem_of_cells (cells : gmap N Hint) h :
  h ∈ omap (λ cell, cell) (hash_iter cells).*2 ↔ ∃ peer, cells !! peer = Some (Some h).
Proof using HL.
  clear TL. rewrite list_elem_of_omap. split.
  - intros (cell & Hin & ->). apply list_elem_of_fmap in Hin as ([peer cell] & -> & Hin).
    rewrite hash_iter_perm in Hin. apply elem_of_map_to_list in Hin. eauto.
  - intros [peer Hp]. exists (Some h). split; [|done]. apply list_elem_of_fmap. exists (peer, Some h). split; [done|].
    rewrite hash_iter_perm. by apply elem_of_map_to_list.
Qed.
Lemma leader_hint_freshest p : freshest (cp_peer_clients p) (leader_hint_entry p).
Proof using HL.
  clear TL. unfold leader_hint_entry. pose proof (fresher_spec (omap (λ cell, cell) (hash_iter (cp_peer_clients p)).*2) None) as Hf.
  destruct (foldl _ _ _) as [h|].
  - destruct Hf as [[?|Hin] Hmax]; [done|]. split; [by apply elem_of_cells|].
    intros peer h' Hh. apply Hmax. right. apply elem_of_cells. eauto.
  - destruct Hf as [_ Hnil]. intros peer [h|] Hh; [|done]. exfalso.
    assert (h ∈ omap (λ cell, cell) (hash_iter (cp_peer_clients p)).*2) as Hin by (apply elem_of_cells; eauto).
    rewrite Hnil in Hin. by apply elem_of_nil in Hin.
Qed.

Lemma returned_evolves {A} peer p (o : option (ConnectionPool * Result A)) :
  returned peer p o → ∃ p', fst <$> o = Some p' ∧ evolves p p'.
Proof. clear. intros (p' & r & es & -> & He & _). eauto. Qed.
Lemma with_client_evolves {A} peer (f : N → ConnectionPool → option (ConnectionPool * Result A)) p :
  backoff_valid p → (∀ x q, backoff_valid q → returned x q (f x q)) →
  ∃ p', with_client peer f p = Some p' ∧ evolves p p'.
Proof.
  clear. intros Hb Hf. unfold with_client. destruct (peer_client peer p) as [p0 [x|e]] eqn:E;
    apply peer_client_evolves in E; [|eauto].
  destruct (returned_evolves x p0 (f x p0)) as (p' & Hp & He); [apply Hf; by eapply evolves_valid|].
  exists p'. split; [done|by etrans].
Qed.
Lemma exec_evolves k p : backoff_valid p → ∃ p', exec_call k p = Some p' ∧ evolves p p'.
Proof using TL.
  clear HL. intros Hb. destruct k; cbn [exec_call].
  1-4: apply with_client_evolves; [done|]; intros x q Hq;
    first [by apply vote_returned|by apply pre_vote_returned|by apply fetch_returned|by apply fetch_snapshot_returned].
  - eexists. split; [done|]. unfold leader_client. destruct (leader_hint p) as [l|]; [|done].
    destruct (cp_peer_endpoints p !! l); [|done]. destruct (peer_client l p) as [p0 [x|e]] eqn:E; by eapply peer_client_evolves.
  - destruct (redirect_spec prefer request p Hb) as (p' & r & es & es2 & -> & He & _). eauto.
Qed.

(** C13: Hints never go back: over any calls on the pool and its clients, each
    of which returns, the leader a peer's client has cached is only ever
    replaced by one of a strictly newer epoch, the pool's leader is always the
    freshest of these, and the epoch it routes by never falls. *)
Theorem leader_hints_fenced ks p :
  backoff_valid p →
  ∃ p', exec_calls ks p = Some p' ∧
    (∀ peer h, cp_peer_clients p !! peer = Some h → ∃ h', cp_peer_clients p' !! peer = Some h' ∧ newer h h') ∧
    freshest (cp_peer_clients p') (leader_hint_entry p') ∧
    ∀ l e, leader_hint_entry p = Some (l, e) → ∃ l' e', leader_hint_entry p' = Some (l', e') ∧ e ≤ e'.
Proof using TL HL.
  intros Hb. assert (∃ p', exec_calls ks p = Some p' ∧ evolves p p') as (p' & Hrun & Hev).
  { revert p Hb. induction ks as [|k ks IH]; intros p Hb; [by exists p|]. cbn [exec_calls].
    destruct (exec_evolves k p Hb) as (p1 & -> & He). destruct (IH p1) as (p2 & Hp2 & He2); [by eapply evolves_valid|].
    exists p2. split; [done|by etrans]. }
  exists p'. split_and!; [done|apply Hev|apply leader_hint_freshest|]. intros l e Hl.
  pose proof (leader_hint_freshest p) as Hf. rewrite Hl in Hf. destruct Hf as [[peer Hp] _].
  apply (ev_cells _ _ Hev) in Hp as (h & Hp & l1 & e1 & -> & Hle & _).
  pose proof (leader_hint_freshest p') as Hf. destruct (leader_hint_entry p') as [[l' e']|].
  - exists l', e'. split; [done|]. destruct Hf as [_ Hmax]. specialize (Hmax _ _ Hp). cbn in Hmax. lia.
  - by specialize (Hf _ _ Hp).
Qed.
End Pool.

(** ** A pool *)

Import Concrete.

(** Node 2 follows node 3, which leads in epoch 4. *)
Definition following (url : string) : RaftMessageHandler := {|
  handle_vote req := Ok (mkVoteResponse "c" 4 4 false (Some 3));
  handle_pre_vote _ := Err Shutdown;
  handle_fetch _ := Ok (mkFetchResponse "c" 4 3 0 [] None None (bool_decide (url = "http://host3:5003")));
  handle_fetch_snapshot _ := Ok [];
|}.
#[local] Instance follower_net : Tonic := Flaky.tonic following.
Definition pool (failures : nat) : ConnectionPool := mkConnectionPool (new_client retrying failures) roster ∅.
Definition ask_fetch : FetchRequest := mkFetchRequest "c" 4 1 1 0.

Lemma at_most_one_redirect_witness :
  route 2 (pool 1) = 2 ∧
  ∃ p' r first second, fetch_via_leader 2 ask_fetch (pool 1) = Some (p', r) ∧ evolves (pool 1) p' ∧
    g_trace (cp_client p') = [] ++ first ++ second ∧ cheap 2 (pool 1) first ∧
    (second = [] ∨ ∃ other p1 response, other ≠ 2 ∧ is_Some (roster !! other) ∧ cheap other (pool 1) second ∧
       fetch 2 ask_fetch (peer_client 2 (pool 1)).1 = Some (p1, Ok response) ∧
       frs_is_leader response = false ∧ frs_leader_id response = other).
Proof.
  split; [vm_compute; reflexivity|].
  exact (at_most_one_redirect (TL := Flaky.tonic_laws following) 2 ask_fetch (pool 1) ltac:(vm_compute; discriminate)).
Defined.

Lemma leader_hints_fenced_witness :
  ∃ p', exec_calls [CallVote 2 ask_vote; CallFetchViaLeader 2 ask_fetch] (pool 1) = Some p' ∧
    (∀ peer h, (∅ : gmap N (option (N * N))) !! peer = Some h →
       ∃ h', cp_peer_clients p' !! peer = Some h' ∧ newer h h') ∧
    freshest (cp_peer_clients p') (leader_hint_entry p') ∧
    ∀ l e, leader_hint_entry (pool 1) = Some (l, e) → ∃ l' e', leader_hint_entry p' = Some (l', e') ∧ e ≤ e'.
Proof.
  exact (leader_hints_fenced (TL := Flaky.tonic_laws following) [CallVote 2 ask_vote; CallFetchViaLeader 2 ask_fetch] (pool 1)
    ltac:(vm_compute; discriminate)).
Defined.
