(* ===== verification/DriverWaiters.v ===== *)
(** * Who is waiting

    Between two turns of the loop only a leader has proposals waiting or reads
    deferred: whatever makes a node leave the leadership also makes the driver
    answer them. *)

From S2P Require Import Prelude CoreTypes Message Text Config ElectionTimer RaftNode NodeFacts NodeInvariant LogStore MemoryLog BTree WalCodec SnapshotStore SnapshotTransfer ServeFetch HardStore StateMachine Timing Driver ReadFrame DriverFacts DriverRuns DriverSafety Concrete.

(** ** The engine announces it *)

Section Leaving.
Context {MA : MembershipApi} {RA : RngApi} {HI : HashIter}.
Implicit Types n : RaftNode.

(** From leader to anything else only with [StepDown]. *)
Definition announced n n' (acts : list Action) : Prop :=
  role n = Leader → role n' = Leader ∨ StepDown ∈ acts.

Lemma announced_same n n' acts : role n' = role n → announced n n' acts.
Proof. intros Hr Hl. left. congruence. Qed.
Lemma announced_other n n' acts : role n ≠ Leader → announced n n' acts.
Proof. intros Hr Hl. done. Qed.
Lemma announced_follower t l n n' acts : become_follower t l n = (n', acts) → announced n n' acts.
Proof.
  unfold become_follower. intros H Hl. rewrite Hl in H. right.
  destruct (if decide (term n < t) then _ else _) as [n1 persist]. apply pair_inv in H as [_ <-].
  apply elem_of_app. right. by left.
Qed.
Lemma announced_more n n' acts acts' : acts ⊆ acts' → announced n n' acts → announced n n' acts'.
Proof. intros Hs Ha Hl. destruct (Ha Hl) as [?|Hin]; [by left|right]. by apply Hs. Qed.

Lemma announced_tick n n' acts : RaftNode.handle_tick n = (n', acts) → announced n n' acts.
Proof.
  unfold RaftNode.handle_tick. set (m0 := n <| logical_tick := _ |> <| election_timer := _ |>).
  assert (role m0 = role n) as Hm0 by done. clearbody m0.
  destruct (schedule_fetch m0) as [m1 f] eqn:E1. apply schedule_fetch_shape in E1 as [[v ->] _].
  set (m1 := m0 <| last_fetch_tick := v |>). assert (role m1 = role n) as Hm1 by done. clearbody m1. clear m0 Hm0 v.
  destruct (check_quorum_tick m1) as [m2 o] eqn:E2. intros H Hl.
  unfold check_quorum_tick in E2. rewrite Hm1, Hl in E2. cbn [bool_decide decide] in E2.
  destruct (enable_check_quorum (config m1)); cbn [andb] in E2.
  2:{ apply pair_inv in E2 as [<- <-]. left. rewrite Hm1, Hl in H. destruct (negb _) in H; apply pair_inv in H as [<- _]; congruence. }
  assert (∀ x, role x = Leader → (if negb (Timer.is_expired (election_timer x)) then (x, f)
     else match role x with Follower | PreCandidate | Candidate => let '(n, a) := become_pre_candidate x in (n, f ++ a)
          | Leader | Observer => (x, f) end) = (n', acts) → role n' = Leader ∨ StepDown ∈ acts) as Hrest.
  { intros x Hx Hrun. left. rewrite Hx in Hrun. destruct (negb _) in Hrun; by apply pair_inv in Hrun as [<- _]. }
  case_decide; [|apply pair_inv in E2 as [<- <-]; eapply Hrest; [|exact H]; by cbn; congruence].
  destruct (check_quorum_reachable _); [apply pair_inv in E2 as [<- <-]; eapply Hrest; [|exact H]; by cbn; congruence|].
  destruct (become_follower _ _ _) as [m3 a] eqn:E3. apply pair_inv in E2 as [<- <-]. apply pair_inv in H as [<- <-].
  apply announced_follower in E3. destruct E3 as [?|Hin]; [by cbn; congruence|by left|right]. apply elem_of_app. by right.
Qed.
Lemma announced_fetch_response resp n n' acts : handle_fetch_response resp n = (n', acts) → announced n n' acts.
Proof.
  unfold handle_fetch_response. do 4 (case_match; [by intros [<- _]%pair_inv; apply announced_same|]).
  destruct (if decide (term n < _) then _ else _) as [m1 a1] eqn:E1. intros Hrun Hl.
  destruct (decide (term n < frs_leader_epoch resp)) as [Hlt|Hge].
  - pose proof (become_follower_fields _ _ _ _ _ E1) as (_ & _ & _ & _ & Hr & _ & _ & _ & _ & Hlead & _).
    rewrite Hl, decide_False in Hr by done. rewrite Hr, Hlead in Hrun. rewrite decide_False in Hrun by done.
    rewrite bool_decide_false in Hrun by (intros Hne; by apply Hne).
    destruct (adopt_leader _ m1) as [m2 a2]. destruct (process_fetch_payload _ _) as [m3 a3].
    apply pair_inv in Hrun as [_ <-]. right. apply elem_of_app. left.
    destruct (announced_follower _ _ _ _ _ E1 Hl) as [Hx|?]; [congruence|done].
  - apply pair_inv in E1 as [<- _]. rewrite decide_True in Hrun by done. apply pair_inv in Hrun as [<- _]. by left.
Qed.

Lemma step_announced i n n' acts : step i n = (n', acts) → announced n n' acts.
Proof.
  destruct i; cbn [step].
  - apply announced_tick.
  - unfold handle_vote_request. do 2 (case_decide; [by intros [<- _]%pair_inv; apply announced_same|]).
    destruct (negb _); [by intros [<- _]%pair_inv; apply announced_same|].
    case_decide; [by intros [<- _]%pair_inv; apply announced_same|]. intros [<- <-]%pair_inv Hl. rewrite Hl.
    destruct (bool_decide _) eqn:Hh; cbn [andb orb].
    + right. cbn. right. by left.
    + left. destruct (would_grant _ n && _); by destruct (would_grant _ n).
  - unfold handle_vote_response. case_decide; [by intros [<- _]%pair_inv; apply announced_same|].
    destruct (negb _); [by intros [<- _]%pair_inv; apply announced_same|].
    case_decide; [apply announced_follower|]. case_decide as Hc; [by intros [<- _]%pair_inv; apply announced_same|].
    intros _ Hl. exfalso. apply Hc. left. by rewrite Hl.
  - by intros [<- _]%pair_inv; apply announced_same.
  - unfold handle_pre_vote_response. case_decide; [by intros [<- _]%pair_inv; apply announced_same|].
    destruct (negb _); [by intros [<- _]%pair_inv; apply announced_same|].
    case_decide; [apply announced_follower|]. case_decide as Hc; [by intros [<- _]%pair_inv; apply announced_same|].
    intros _ Hl. congruence.
  - unfold handle_fetch_request. case_decide; [by intros [<- _]%pair_inv; apply announced_same|].
    destruct (is_self _ _); [by intros [<- _]%pair_inv; apply announced_same|].
    destruct (_ && _); [by intros [<- _]%pair_inv; apply announced_same|].
    case_decide; [apply announced_follower|]. do 2 (case_decide; [by intros [<- _]%pair_inv; apply announced_same|]).
    match goal with |- context [last_snapshot_meta ?m] => destruct (last_snapshot_meta m) end; [case_decide|];
      by intros [<- _]%pair_inv; apply announced_same.
  - apply announced_fetch_response.
  - unfold handle_client_propose. case_decide; [by intros [<- _]%pair_inv; apply announced_same|].
    destruct (advance_and_drain _) as [m1 a] eqn:E. intros [<- _]%pair_inv. apply announced_same.
    apply advance_and_drain_shape in E as (c & x & f & -> & _). done.
  - unfold handle_fetch_request_acked. case_decide; [by intros [<- _]%pair_inv; apply announced_same|].
    destruct (_ && _); [by intros [<- _]%pair_inv; apply announced_same|].
    intros (c & x & f & -> & _)%advance_and_drain_shape. by apply announced_same.
  - unfold handle_snapshot_complete. destruct (negb _); by intros [<- _]%pair_inv; apply announced_same.
  - unfold handle_snapshot_installed. intros [<- _]%pair_inv. apply announced_same.
    repeat case_decide; by destruct (is_snapshot_meta_newer _ _).
  - unfold handle_fetch_snapshot_received. case_decide; by intros [<- _]%pair_inv; apply announced_same.
Qed.
Lemma outbound_announced res n n' acts : handle_outbound_result res n = (n', acts) → announced n n' acts.
Proof.
  destruct res; cbn [handle_outbound_result]; try apply step_announced.
  - case_decide; [by intros [<- _]%pair_inv; apply announced_same|]. case_decide; [apply announced_follower|].
    do 2 (case_decide; [by intros [<- _]%pair_inv; apply announced_same|]).
    destruct metadata; [apply step_announced|by intros [<- _]%pair_inv; apply announced_same].
  - by intros [<- _]%pair_inv; apply announced_same.
Qed.
End Leaving.

(** ** The driver acts on it *)

Section Waiting.
Context {MA : MembershipApi} {RA : RngApi} {HI : HashIter} {CR : Crc32}
  {St : Type} {LA : LogStoreApi St} {HS : Type} {HA : HardStateStore HS} {SM : Type} {SA : StateMachine SM}.
#[local] Abbreviation driver := (Driver St HS SM).
Implicit Types d : driver.
Context (fail_waiters_in_range : N → N → string → driver → driver).
Context (fails_waiters : ∀ a b m d, settles d (fail_waiters_in_range a b m d)).

(** Nobody waits, and who waits waits for a leader. *)
Definition idle d : Prop := waiting d = [] ∧ deferred d = [].
Definition attended d : Prop := role (d_node d) = Leader ∨ idle d.

Lemma idle_settles d d' : settles d d' → idle d → idle d'.
Proof.
  clear fails_waiters. intros [(es & _ & _ & Hp & Hr) _ _] [Hw Hd]. rewrite Hw in Hp. rewrite Hd in Hr.
  apply Permutation_nil_r in Hp. apply Permutation_nil_r in Hr.
  by apply app_eq_nil in Hp as [_ ?]; apply app_eq_nil in Hr as [_ ?].
Qed.
Lemma step_down_idle c d : idle (step_down_action c d).1.1.
Proof. clear fails_waiters. unfold idle, waiting, deferred, step_down_action. cbn. by rewrite map_to_list_empty. Qed.

(** What becomes of one action that does not end the list. *)
Inductive moved (a : Action) d d' : After → Prop :=
| MovedBreak : d_halt_reason d' ≠ None → moved a d d' Break
| MovedNext : role (d_node d') = role (d_node d) → (a = StepDown → idle d') → moved a d d' Next
| MovedNested n follow : announced (d_node d) n follow → d_node d' = n → a ≠ StepDown → moved a d d' (Nested follow).

Lemma apply_entries_node to es d d' : apply_entries fail_waiters_in_range to es d = (d', Ok tt) → d_node d' = d_node d.
Proof.
  clear fails_waiters. revert d. induction es as [|e es IH]; intros d; cbn; [by intros [<- _]%pair_inv|].
  assert (∀ i r x, d_node (resolve_waiters_at i r x) = d_node (x : driver)) as Hres.
  { intros i r x. unfold resolve_waiters_at. by destruct (d_pending x !! i). }
  destruct (e_payload e) as [b| | |]; [|intros ->%IH; apply Hres..].
  destruct (sm_apply _ _ _) as [sm [x|x]]; [intros ->%IH; by rewrite Hres|]. by intros [_ ?]%pair_inv.
Qed.
Lemma apply_node from to d d' :
  apply_committed fail_waiters_in_range from to d = Some (d', Ok tt) → d_node d' = d_node d.
Proof.
  clear fails_waiters. unfold apply_committed. case_decide; [done|]. case_decide; [done|].
  destruct (ls_get_range _ _ _) as [es|]; [|done]. cbn. intros [= Hrun].
  case_decide; [by apply pair_inv in Hrun as [_ ?]|]. destruct (negb _); [by apply pair_inv in Hrun as [_ ?]|].
  by eapply apply_entries_node.
Qed.
Lemma halted_some m c d : d_halt_reason (halt m c d).1 ≠ None.
Proof. clear fails_waiters. unfold halt. cbn. by destruct (d_halt_reason d). Qed.

Lemma exec_moved origin a c d d' c' after :
  exec_action fail_waiters_in_range origin a c d = Some (d', c', after) → moved a d d' after.
Proof.
  clear fails_waiters.
  assert (∀ x : driver * CapturedResponse * After, moved a d x.1.1 x.2 → Some x = Some (d', c', after) → moved a d d' after)
    as Hpure by (by intros x Hx [= ->]).
  destruct a; cbn [exec_action]; try done; try apply Hpure.
  - unfold persist_action. destruct (persist _ _) as [hs [u|e]]; [by apply MovedNext|].
    apply MovedBreak. apply halted_some.
  - unfold append_action. destruct (ls_append _ _) as [l [u|e]]; [|apply MovedBreak, halted_some].
    destruct (ls_flush _) as [l2 [u2|e2]]; [by apply MovedNext|apply MovedBreak, halted_some].
  - unfold send_action. case_decide; [|by apply MovedNext]. repeat case_match; by apply MovedNext.
  - unfold apply_action. destruct (apply_committed _ _ _ _) as [[d1 [[]|msg]]|] eqn:E; [| |done]; cbn; apply Hpure.
    + apply MovedNext; [|done]. by erewrite apply_node by done.
    + apply MovedBreak, halted_some.
  - by apply MovedNext.
  - apply MovedNext; [done|]. intros _. apply step_down_idle.
  - unfold serve_action. destruct (materialize_fetch_response _ _ _ _ _ _ _ _ _) as [r|]; [|done]. cbn.
    assert (d_node (reply_fetch origin to r c d).1 = d_node d) as Hr by (unfold reply_fetch; by case_decide).
    destruct (reply_fetch origin to r c d) as [d1 c1]. cbn in Hr. apply Hpure.
    destruct (bool_decide _); [|apply MovedNext; [cbn; by rewrite Hr|done]].
    destruct (handle_fetch_request_acked _ _ _) as [n acts] eqn:E.
    eapply MovedNested; [|reflexivity|done]. rewrite <-Hr. exact (step_announced (InFetchRequestAcked _ _) _ _ _ E).
  - apply MovedNext; [|done]. cbn. unfold reply_fetch. by case_decide.
  - destruct t; [|done]. apply Hpure. unfold truncate_suffix_action.
    destruct (ls_truncate_from _ _) as [l [u|e]]; [|apply MovedBreak, halted_some].
    destruct (ls_flush _) as [l2 [u2|e2]]; [|apply MovedBreak, halted_some].
    destruct (effective_log_tip _ _). by apply MovedNext.
Qed.

(** A list executed to its end: a step down in it leaves nobody waiting, and
    a leader stays one or leaves nobody waiting. *)
Lemma process_attended fuel origin acts c d d' c' :
  process fail_waiters_in_range fuel origin acts c d = Some (d', c') → d_halt_reason d' = None →
  (StepDown ∈ acts → idle d') ∧ (role (d_node d) = Leader → attended d').
Proof using fails_waiters.
  revert acts c d d' c'. induction fuel as [|fuel IH]; intros acts c d d' c'; [done|].
  destruct acts as [|a acts]; cbn [process].
  { intros [= <- _] _. split; [by intros ?%elem_of_nil|by left]. }
  destruct (exec_action _ _ _ _ _) as [[[d1 c1] after]|] eqn:E; [|done]. cbn [mbind option_bind].
  pose proof (settles_exec _ fails_waiters _ _ _ _ _ _ _ E) as Hs. apply exec_moved in E.
  destruct E as [Hb|Hr Hsd|n follow Ha Hn Hne].
  - by intros [= <- _].
  - intros Hrun Hh. pose proof (settles_process _ fails_waiters _ _ _ _ _ _ _ Hrun) as Hs2.
    destruct (IH _ _ _ _ _ Hrun Hh) as [H1 H2]. split.
    + intros [Ha|Hin]%elem_of_cons; [|by apply H1]. eapply idle_settles; [exact Hs2|]. by apply Hsd.
    + intros Hl. apply H2. congruence.
  - destruct (process _ _ _ follow _ _) as [[d2 c2]|] eqn:E2; [|done]. cbn [mbind option_bind].
    pose proof (settles_process _ fails_waiters _ _ _ _ _ _ _ E2) as Hs2.
    destruct (d_halt_reason d2) eqn:Hh2; [by intros [= <- _]; congruence|]. intros Hrun Hh.
    destruct (IH _ _ _ _ _ E2 Hh2) as [G1 G2]. destruct (IH _ _ _ _ _ Hrun Hh) as [H1 H2].
    pose proof (settles_process _ fails_waiters _ _ _ _ _ _ _ Hrun) as Hs3. split.
    + intros [Ha'|Hin]%elem_of_cons; [by destruct Hne|by apply H1].
    + intros Hl. assert (attended d2) as [Hl2|Hi].
      { destruct (Ha Hl) as [Hl'|Hin]; [apply G2; congruence|]. right. by apply G1. }
      * by apply H2.
      * right. by eapply idle_settles.
Qed.

(** Stepping the engine and executing what it asks for. *)
Lemma process_actions_attended n acts origin d d' c' :
  process_actions fail_waiters_in_range acts origin (stepped n d) = Some (d', c') →
  announced (d_node d) n acts → attended d → d_halt_reason d' = None → attended d'.
Proof using fails_waiters.
  unfold process_actions. intros Hrun Ha [Hl|Hi] Hh.
  - destruct (process_attended _ _ _ _ _ _ _ Hrun Hh) as [H1 H2].
    destruct (Ha Hl) as [Hl'|Hin]; [by apply H2|right; by apply H1].
  - right. eapply idle_settles; [by eapply settles_process|exact Hi].
Qed.

Lemma propose_role command n n' acts : handle_client_propose command n = (n', acts) → role n' = role n.
Proof.
  clear. unfold handle_client_propose. case_decide; [by intros [<- _]%pair_inv|].
  destruct (advance_and_drain _) as [m a] eqn:E. intros [<- _]%pair_inv.
  by apply advance_and_drain_shape in E as (? & ? & ? & -> & _).
Qed.
Lemma client_attended command w d d' :
  handle_client_command fail_waiters_in_range command w d = Some d' → attended d → d_halt_reason d' = None → attended d'.
Proof using fails_waiters.
  unfold handle_client_command. case_decide as Hl.
  { intros [= <-] [?|Hi] _; [done|by right]. }
  destruct (step _ _) as [n acts] eqn:E. apply propose_role in E.
  set (d2 := if bool_decide _ && _ then _ else _). assert (d_node d2 = n) as Hn by (unfold d2; by destruct (_ && _)).
  clearbody d2. unfold process_actions. destruct (process _ _ _ _ _ _) as [[d3 c]|] eqn:Ep; [|done]. intros [= <-] _ Hh.
  apply (process_attended _ _ _ _ _ _ _ Ep Hh). by rewrite Hn, E.
Qed.
Lemma query_attended q w d : attended d → attended (handle_client_query q w d).
Proof.
  clear fails_waiters. unfold handle_client_query. intros Ha. case_decide as Hl; [exact Ha|].
  left. destruct (_ || _); [exact Hl|]. by case_decide.
Qed.
Lemma event_attended ev d d' r :
  handle_event fail_waiters_in_range ev d = Some (d', r) → attended d → d_halt_reason d' = None → attended d'.
Proof using fails_waiters.
  assert (∀ i o d' c, step_and_process fail_waiters_in_range i o d = Some (d', c) → attended d → d_halt_reason d' = None → attended d')
    as Hstep.
  { intros i o d1 c. unfold step_and_process. destruct (step i (d_node d)) as [n acts] eqn:E. intros Hrun.
    eapply process_actions_attended; [exact Hrun|by eapply step_announced]. }
  destruct ev; cbn [Driver.handle_event].
  - unfold handle_inbound_vote. destruct (step_and_process _ _ _ _) as [[d1 c]|] eqn:E; [|done]. intros [= <- _]. by eapply Hstep.
  - unfold handle_inbound_pre_vote. destruct (step_and_process _ _ _ _) as [[d1 c]|] eqn:E; [|done]. intros [= <- _]. by eapply Hstep.
  - unfold handle_inbound_fetch. destruct (step_and_process _ _ _ _) as [[d1 c]|] eqn:E; [|done]. intros [= <- _]. by eapply Hstep.
  - destruct (handle_client_command _ _ _ _) as [d1|] eqn:E; [|done]. intros [= <- _]. by eapply client_attended.
  - intros [= <- _] Ha _. by apply query_attended.
  - unfold handle_outbound. destruct (handle_outbound_result _ _) as [n acts] eqn:E.
    destruct (process_actions _ _ _ _) as [[d1 c]|] eqn:Ep; [|done]. intros [= <- _].
    eapply process_actions_attended; [exact Ep|by eapply outbound_announced].
  - unfold handle_tick. destruct (step_and_process _ _ _ _) as [[d1 c]|] eqn:E; [|done]. intros [= <- _]. by eapply Hstep.
Qed.
Lemma drain_attended d : attended d → attended (drain_pending_reads d).
Proof.
  clear fails_waiters. intros [Hl|[Hw Hd]]; [left; by rewrite drained_node|].
  right. unfold drain_pending_reads. unfold deferred in Hd. destruct (d_pending_reads d) as [|pr l] eqn:E; [|done].
  split; [done|]. unfold deferred. by rewrite E.
Qed.

(** C21: Nobody waits for a node that cannot answer: over any run of the loop
    that no fatal error ended, a driver that is not leader has no proposal
    waiting and no read deferred.  Whatever took the leadership away, a higher
    term in a request or a response or a lost quorum, the same turn has
    answered them all. *)
Theorem only_leaders_keep_waiting evs d d' :
  run_events fail_waiters_in_range evs d = Some d' → attended d → d_halt_reason d' = None → attended d'.
Proof using fails_waiters.
  revert d. induction evs as [|ev evs IH]; intros d; cbn [Driver.run_events]; [by intros [= <-]|].
  unfold loop_turn. destruct (handle_event _ ev d) as [[d1 r]|] eqn:E; [|done]. cbn [mbind option_bind].
  rewrite halted_drain. destruct (d_halt_reason d1) eqn:Hh1.
  - intros [= <-] _. rewrite halted_drain. congruence.
  - intros Hrun Ha. apply (IH _ Hrun). apply drain_attended. by eapply event_attended.
Qed.
End Waiting.

(** ** A run *)

Import Concrete.
#[local] Existing Instance Mem.api.

(** The leader takes a proposal and then learns of a higher term. *)
Definition deposing : list DriverEvent := [EvClient [Byte.x0a] 1; EvVote (mkVoteRequest "c" 9 9 2 9 9)].
Definition deposed : option node := run_events fail_waiters deposing (elected world0).

Lemma only_leaders_keep_waiting_witness :
  ∃ d', deposed = Some d' ∧ role (d_node d') = Follower ∧ attended (elected world0) ∧ attended d'.
Proof.
  assert (match deposed with Some d' => bool_decide (role (d_node d') = Follower) | None => false end = true) as H
    by vm_cast_no_check (eq_refl true).
  assert (match deposed with Some d' => bool_decide (d_halt_reason d' = None) | None => true end = true) as Hh
    by vm_cast_no_check (eq_refl true).
  assert (attended (elected world0)) as Ha by (left; vm_cast_no_check (eq_refl Leader)).
  destruct deposed as [d'|] eqn:Hd'; [|discriminate H]. apply bool_decide_eq_true in H, Hh.
  exists d'. split; [reflexivity|]. split; [exact H|]. split; [exact Ha|]. unfold deposed in Hd'.
  exact (only_leaders_keep_waiting fail_waiters settles_fail_range deposing (elected world0) d' Hd' Ha Hh).
Defined.
