(* ===== verification/NodeConfig.v ===== *)
(** * The configuration file ([xraft-core/src/config.rs], [xraft-server/src/server.rs])

    Loading, overriding and validating [ClusterConfig] and [NodeConfig], and
    what the server takes from them.  The TOML parser and the file system are
    parameters. *)

From S2P Require Import Prelude CoreTypes Message Text Config ElectionTimer RaftNode NodeFacts Boot Wire GrpcClient GrpcFacts PeerPool Concrete.

Record NodeConfig : Type := mkNodeConfig {
  nc_cluster : ClusterConfig;
  nc_admin_listen_addr : option string;
}.
(** [ServerConfig], but for the driver's override. *)
Record ServerConfig : Type := mkServerConfig {
  sc_cluster : ClusterConfig;
  sc_admin_listen_addr : option string;
}.

Section Load.
Context {MA : MembershipApi}.
(** [toml::from_str] at both types and [std::fs::read_to_string], with the
    texts of their errors, and [std::env::var]. *)
Context (toml_cluster : string → result string ClusterConfig) (toml_node : string → result string NodeConfig)
  (read_to_string : string → result string string) (env_var : string → option string).

Definition toml_error {A} (r : result string A) : Result A :=
  match r with Ok a => Ok a | Err e => Err (Config ("TOML parse error: " +:+ e)) end.
Definition read_config (path : string) : Result string :=
  match read_to_string path with
  | Ok s => Ok s
  | Err e => Err (Config ("failed to read " +:+ path +:+ ": " +:+ e))
  end.

(** ** [ClusterConfig] *)

Definition cluster_from_toml_str (s : string) : Result ClusterConfig :=
  let? config := toml_error (toml_cluster s) in
  let? _ := validate config in
  Ok config.
Definition cluster_from_toml_str_with_env (s : string) : Result ClusterConfig :=
  let? config := toml_error (toml_cluster s) in
  let? config := apply_env_overrides_with env_var config in
  let? _ := validate config in
  Ok config.
Definition cluster_load (path : string) : Result ClusterConfig :=
  let? content := read_config path in cluster_from_toml_str_with_env content.

(** ** [NodeConfig] *)

(** [XRAFT_OBSERVERS]: empty parts are skipped. *)
Fixpoint parse_observers (parts : list string) : Result (list N) :=
  match parts with
  | [] => Ok []
  | part :: parts =>
      let trimmed := trim part in
      if bool_decide (trimmed = "") then parse_observers parts
      else match parse_u64 trimmed with
           | None => Err (Config ("XRAFT_OBSERVERS: invalid u64 value '" +:+ trimmed +:+ "'"))
           | Some id => let? ids := parse_observers parts in Ok (id :: ids)
           end
  end.
Definition node_env_overrides (c : NodeConfig) : Result NodeConfig :=
  let? cluster := apply_env_overrides_with env_var (nc_cluster c) in
  match env_var "XRAFT_OBSERVERS" with
  | Some val =>
      if bool_decide (val = "") then Ok (mkNodeConfig cluster (nc_admin_listen_addr c))
      else
        let? parsed := parse_observers (split_commas val) in
        Ok (mkNodeConfig (cluster <| observers := parsed |>) (nc_admin_listen_addr c))
  | None => Ok (mkNodeConfig cluster (nc_admin_listen_addr c))
  end.
Definition validate_membership (c : NodeConfig) : Result unit :=
  let cluster := nc_cluster c in
  if decide (cfg_voters cluster = []) then Err (Config "configuration MUST specify at least one structured `[[voters]]` entry")
  else if negb (in_voters cluster) && negb (in_observers cluster)
  then Err (Config "node_id is not present in the voters list or observers list")
  else if in_voters cluster && in_observers cluster
  then Err (Config "node_id appears in BOTH the voters and observers lists")
  else Ok tt.
Definition node_validate (c : NodeConfig) : Result unit :=
  let? _ := validate (nc_cluster c) in validate_membership c.
Definition node_from_toml_str (s : string) : Result NodeConfig :=
  let? cfg := toml_error (toml_node s) in
  let? _ := node_validate cfg in
  Ok cfg.
Definition node_from_toml_str_with_env (s : string) : Result NodeConfig :=
  let? cfg := toml_error (toml_node s) in
  let? cfg := node_env_overrides cfg in
  let? _ := node_validate cfg in
  Ok cfg.
Definition node_load (path : string) : Result NodeConfig :=
  let? content := read_config path in node_from_toml_str_with_env content.

(** ** [ServerConfig] *)

Definition from_node_config (c : NodeConfig) : ServerConfig := mkServerConfig (nc_cluster c) (nc_admin_listen_addr c).
Definition from_path (path : string) : Result ServerConfig :=
  let? node_cfg := node_load path in Ok (from_node_config node_cfg).
Definition DEFAULT_ADMIN_LISTEN_ADDR : string := "127.0.0.1:6660".
Definition admin_addr (c : ServerConfig) : string := default DEFAULT_ADMIN_LISTEN_ADDR (sc_admin_listen_addr c).

(** ** What an accepted file guarantees *)

Context {RA : RngApi} {HI : HashIter} {BV : Bincode VoterSet} {TO : Tonic}.
Context {ML : MembershipLaws MA} {RL : RngLaws RA}.

Lemma node_validate_ok c u :
  node_validate c = Ok u →
  let cluster := nc_cluster c in
  validate cluster = Ok tt ∧ cfg_voters cluster ≠ [] ∧ in_voters cluster = negb (in_observers cluster).
Proof.
  clear. unfold node_validate, validate_membership. rewrite rbind_Ok. intros ([] & Hv & H). cbn. split; [done|].
  case_decide; [done|]. split; [done|]. by destruct (in_voters _), (in_observers _).
Qed.
Lemma validated_backoff c :
  validate c = Ok tt → 0 < retry_initial_backoff_ms c ≤ retry_max_backoff_ms c.
Proof.
  clear. unfold validate. intros H.
  repeat match type of H with rbind _ _ = Ok _ => rewrite rbind_Ok in H; destruct H as ([] & ? & H) end.
  match goal with Ht : validate_transport c = Ok _ |- _ => rename Ht into Htr end.
  unfold validate_transport in Htr. repeat (rewrite rbind_Ok in Htr; destruct Htr as (? & ? & Htr)).
  repeat match goal with Hx : ensure _ _ = Ok _ |- _ => apply ensure_Ok in Hx end.
  repeat match goal with
  | Hx : negb (retry_initial_backoff_ms c =? 0) = true |- _ => apply negb_true_iff, N.eqb_neq in Hx
  | Hx : (retry_initial_backoff_ms c <=? _) = true |- _ => apply N.leb_le in Hx
  end. lia.
Qed.
Lemma in_voters_spec c : in_voters c = true ↔ node_id c ∈ vc_node_id <$> cfg_voters c.
Proof.
  clear. unfold in_voters. rewrite existsb_exists, list_elem_of_fmap. split.
  - intros (v & Hin & Heq%N.eqb_eq). exists v. split; [done|]. by apply list_elem_of_In.
  - intros (v & Heq & Hin). exists v. split; [by apply list_elem_of_In|]. by apply N.eqb_eq.
Qed.

(** C15: A configuration file that loads is one the node can run on: whatever
    the file and the environment say, if loading succeeds then the voter list
    is not empty and the node is in exactly one of the two lists; the engine
    built from it has that role, the voters as its quorum and itself among
    them unless it observes, unless the membership type refuses the voters;
    and the RPC client built from it has its initial backoff below the cap. *)
Theorem loaded_config_runs path c r :
  node_load path = Ok c →
  let cluster := nc_cluster c in
  cfg_voters cluster ≠ [] ∧
  ((∃ rs, rs ≠ [] ∧ try_new rs = None ∧ new_inner cluster r = Err (Config "invalid voter set")) ∨
   ∃ n vs, new_inner cluster r = Ok n ∧ voter_set n = Some vs ∧ voter_ids vs = vc_node_id <$> cfg_voters cluster ∧
     (role n = Follower ∧ id n ∈ voter_ids vs ∧ id n ∉ observers cluster ∨
      role n = Observer ∧ id n ∉ voter_ids vs ∧ id n ∈ observers cluster)) ∧
  ∀ fs_read net p, from_cluster_config fs_read cluster net = Ok p → backoff_valid p.
Proof using ML RL.
  unfold node_load, node_from_toml_str_with_env. rewrite rbind_Ok. intros (s & _ & H).
  rewrite rbind_Ok in H. destruct H as (c0 & _ & H). rewrite rbind_Ok in H. destruct H as (c1 & _ & H).
  rewrite rbind_Ok in H. destruct H as (u & Hv & [= ->]). apply node_validate_ok in Hv as (Hv & Hne & Hin).
  set (cluster := nc_cluster c) in *. split; [done|]. split.
  - destruct (new_inner_spec cluster r Hv) as [?|(n & Hn & Hid & _ & Hrole & _ & _ & _ & _ & _ & _ & Hvs & _)]; [by left|].
    right. exists n. destruct (voter_set n) as [vs|]; [|done]. exists vs. split_and!; [done..|].
    rewrite Hvs, Hid, <-in_voters_spec, Hin, Hrole. unfold in_observers.
    destruct (decide (node_id cluster ∈ observers cluster)) as [Ho|Ho].
    + right. rewrite bool_decide_true by done. cbn. split_and!; done.
    + left. rewrite bool_decide_false by done. done.
  - intros fs_read net p Hp. apply validated_backoff in Hv. unfold from_cluster_config in Hp.
    destruct (tls_of fs_read cluster); [|done]. injection Hp as <-. unfold backoff_valid, from_millis. cbn. unfold from_millis. lia.
Qed.
End Load.

(** ** A file *)

Import Concrete.

Definition its_file : NodeConfig := mkNodeConfig (base 1 three []) None.
(** [XRAFT_NODE_ID=9 XRAFT_OBSERVERS=" 9, ,8"] turn node 1 into an observer. *)
Definition its_env (var : string) : option string :=
  if bool_decide (var = "XRAFT_NODE_ID") then Some "9"
  else if bool_decide (var = "XRAFT_OBSERVERS") then Some " 9, ,8" else None.
Definition as_observer : NodeConfig := mkNodeConfig (base 9 three [9; 8]) None.
#[local] Instance some_net : Tonic := Flaky.base_tonic.

Lemma loaded_config_runs_witness :
  node_load (λ _, Ok its_file) (λ _, Ok "") its_env "xraft.toml" = Ok as_observer ∧
  cfg_voters (nc_cluster as_observer) ≠ [] ∧
  ∃ n vs, new_inner (nc_cluster as_observer) (@seed_from_u64 Concrete.rng 7) = Ok n ∧ voter_set n = Some vs ∧
    role n = Observer ∧ id n ∈ observers (nc_cluster as_observer).
Proof.
  assert (node_load (λ _, Ok its_file) (λ _, Ok "") its_env "xraft.toml" = Ok as_observer) as H by (vm_compute; reflexivity).
  split; [exact H|].
  destruct (loaded_config_runs (λ _, Ok its_file) (λ _, Ok "") its_env "xraft.toml" as_observer (@seed_from_u64 Concrete.rng 7) H)
    as (Hne & [(rs & _ & _ & Herr)|(n & vs & Hn & Hvs & Hids & Hr)] & _).
  - exfalso. vm_compute in Herr. discriminate Herr.
  - split; [exact Hne|]. exists n, vs. split; [exact Hn|]. split; [exact Hvs|].
    destruct Hr as [(_ & _ & Hno)|(Hrole & _ & Ho)]; [|split; [exact Hrole|exact Ho]].
    exfalso. apply Hno. assert (id n = 9) as -> by (vm_compute in Hn; injection Hn as <-; reflexivity).
    vm_compute. left.
Defined.
