(* ===== verification/Status.v ===== *)
(** * Node status and metrics ([xraft-server/src/{status,metrics,driver}.rs])

    [NodeStatus] with its publisher, the metrics the driver feeds through
    [DriverObserver], and [record_role_transition_observations].  A histogram
    is the list of its samples, durations in nanoseconds; a gauge is an [i64],
    a counter a [u64] that wraps; rendering is left to [prometheus_client]. *)

From S2P Require Import Prelude CoreTypes Message Text Config ElectionTimer RaftNode NodeFacts Concrete.

(** ** [NodeStatus] *)

Definition role_to_gauge (r : NodeRole) : Z :=
  match r with
  | Follower => 0
  | Candidate => 1
  | PreCandidate => 2
  | Leader => 3
  | Observer => 4
  end.
Definition role_to_str (r : NodeRole) : string :=
  match r with
  | Follower => "follower"
  | Candidate => "candidate"
  | PreCandidate => "pre-candidate"
  | Leader => "leader"
  | Observer => "observer"
  end.

Record NodeStatus : Type := mkNodeStatus {
  st_node_id : N;
  st_role : NodeRole;
  st_term : N;
  st_commit_index : N;
  st_last_applied : N;
  st_leader_id : option N;
  st_last_log_index : N;
}.
Definition placeholder (node_id : N) : NodeStatus := mkNodeStatus node_id Follower 0 0 0 None 0.

(** ** The publisher *)

(** [x as i64] and [AtomicU64::fetch_add] on a [u64]. *)
Definition as_i64 (x : N) : Z := if decide (x < 2 ^ 63) then Z.of_N x else (Z.of_N x - 2 ^ 64)%Z.
Definition fetch_add (a b : N) : N := (a + b) mod 2 ^ 64.

Record StatusPublisher : Type := mkStatusPublisher {
  latest : NodeStatus;
  appended_entries : N;
  config_revision : N;
}.
#[export] Instance StatusPublisher_settable : Settable StatusPublisher :=
  λ p, mkStatusPublisher (latest p) (appended_entries p) (config_revision p).
Definition from_status (s : NodeStatus) : StatusPublisher := mkStatusPublisher s 0 0.
Definition new_publisher (node_id : N) : StatusPublisher := from_status (placeholder node_id).
Definition publish (s : NodeStatus) (p : StatusPublisher) : StatusPublisher := p <| latest := s |>.
(** [try_publish] drops the status when the lock is [taken]. *)
Definition try_publish (taken : bool) (s : NodeStatus) (p : StatusPublisher) : StatusPublisher * bool :=
  if taken then (p, false) else (publish s p, true).
Definition pub_record_appends (n : N) (p : StatusPublisher) : StatusPublisher :=
  p <| appended_entries := fetch_add (appended_entries p) n |>.
Definition bump_config_revision (p : StatusPublisher) : StatusPublisher * N :=
  let p := p <| config_revision := fetch_add (config_revision p) 1 |> in (p, config_revision p).

(** ** [XRaftMetrics] *)

Inductive FetchDirection : Type := Sent | Received.
Definition direction_label (d : FetchDirection) : string :=
  match d with Sent => "sent" | Received => "received" end.
Definition replica_label (replica : N) : string := pretty replica.

Record XRaftMetrics : Type := mkXRaftMetrics {
  m_current_term : Z;
  m_commit_index : Z;
  m_current_leader : Z;
  m_role : Z;
  m_election_latency : list N;
  m_append_records_total : N;
  m_replication_lag : gmap string Z;
  m_commit_latency : list N;
  m_fetch_requests : gmap string N;
  m_snapshot_installs : N;
  m_log_compaction_events : N;
  m_snapshot_duration : list N;
  m_snapshot_size : list N;
  m_log_end_offset : Z;
  m_status : StatusPublisher;
}.
#[export] Instance XRaftMetrics_settable : Settable XRaftMetrics :=
  λ m, mkXRaftMetrics (m_current_term m) (m_commit_index m) (m_current_leader m) (m_role m) (m_election_latency m)
    (m_append_records_total m) (m_replication_lag m) (m_commit_latency m) (m_fetch_requests m) (m_snapshot_installs m)
    (m_log_compaction_events m) (m_snapshot_duration m) (m_snapshot_size m) (m_log_end_offset m) (m_status m).
Implicit Types m : XRaftMetrics.

Definition new_metrics (status : StatusPublisher) : XRaftMetrics :=
  mkXRaftMetrics 0 0 0 0 [] 0 ∅ [] ∅ 0 0 [] [] 0 status.
Definition shared (initial : NodeStatus) : XRaftMetrics := new_metrics (from_status initial).

Definition publish_state (s : NodeStatus) m : XRaftMetrics :=
  m <| m_current_term := as_i64 (st_term s) |>
    <| m_commit_index := as_i64 (st_commit_index s) |>
    <| m_current_leader := match st_leader_id s with Some n => as_i64 n | None => (-1)%Z end |>
    <| m_role := role_to_gauge (st_role s) |>
    <| m_log_end_offset := as_i64 (st_last_log_index s) |>
    <| m_status := publish s (m_status m) |>.
Definition observe_election_latency (d : N) m := m <| m_election_latency := m_election_latency m ++ [d] |>.
Definition record_appends (n : N) m : XRaftMetrics :=
  m <| m_append_records_total := fetch_add (m_append_records_total m) n |>
    <| m_status := pub_record_appends n (m_status m) |>.
Definition set_replication_lag (replica lag : N) m : XRaftMetrics :=
  m <| m_replication_lag := <[replica_label replica := as_i64 lag]> (m_replication_lag m) |>.
Definition clear_replication_lag m : XRaftMetrics := m <| m_replication_lag := ∅ |>.
Definition observe_commit_latency (d : N) m := m <| m_commit_latency := m_commit_latency m ++ [d] |>.
Definition fetches (d : FetchDirection) m : N := default 0 (m_fetch_requests m !! direction_label d).
Definition record_fetch_request (d : FetchDirection) m : XRaftMetrics :=
  m <| m_fetch_requests := <[direction_label d := fetch_add (fetches d m) 1]> (m_fetch_requests m) |>.
Definition record_snapshot_install m := m <| m_snapshot_installs := fetch_add (m_snapshot_installs m) 1 |>.
Definition record_log_compaction m := m <| m_log_compaction_events := fetch_add (m_log_compaction_events m) 1 |>.
Definition observe_snapshot_duration (d : N) m := m <| m_snapshot_duration := m_snapshot_duration m ++ [d] |>.
Definition observe_snapshot_size (b : N) m := m <| m_snapshot_size := m_snapshot_size m ++ [b] |>.

(** ** The driver's observer *)

(** The calls of [DriverObserver] other than [on_status]. *)
Inductive Hook : Type :=
| OnAppend (n : N)
| OnElectionWon (elapsed : N)
| OnFetchRequest (d : FetchDirection)
| OnReplicationLag (replica lag : N)
| OnCommitLatency (elapsed : N)
| OnLeaderStepDown
| OnSnapshotTaken (elapsed size : N)
| OnSnapshotInstalled (last_included_index : N)
| OnLogCompaction (through_index : N).
Definition on_hook (h : Hook) m : XRaftMetrics :=
  match h with
  | OnAppend n => record_appends n m
  | OnElectionWon elapsed => observe_election_latency elapsed m
  | OnFetchRequest d => record_fetch_request d m
  | OnReplicationLag replica lag => set_replication_lag replica lag m
  | OnCommitLatency elapsed => observe_commit_latency elapsed m
  | OnLeaderStepDown => clear_replication_lag m
  | OnSnapshotTaken elapsed size => observe_snapshot_size size (observe_snapshot_duration elapsed m)
  | OnSnapshotInstalled _ => record_snapshot_install m
  | OnLogCompaction _ => record_log_compaction m
  end.

(** The part of the driver that observes; [ob_missed] counts the warnings
    about a missed stamp. *)
Record Observation : Type := mkObservation {
  ob_prev_role : NodeRole;
  ob_candidate_entered_at : option N;
  ob_observer : option XRaftMetrics;
  ob_missed : nat;
}.
#[export] Instance Observation_settable : Settable Observation :=
  λ o, mkObservation (ob_prev_role o) (ob_candidate_entered_at o) (ob_observer o) (ob_missed o).
Implicit Types o : Observation.
Definition observe (f : XRaftMetrics → XRaftMetrics) o : Observation := o <| ob_observer := f <$> ob_observer o |>.
Definition seeking (r : NodeRole) : bool := match r with PreCandidate | Candidate => true | _ => false end.

Section Observe.
Context {MA : MembershipApi} {RA : RngApi} {HI : HashIter}.
Implicit Types n : RaftNode.

Definition from_engine n : NodeStatus :=
  mkNodeStatus (id n) (role n) (current_term (hard_state n)) (commit_index n) (last_applied n) (leader_id n) (last_log_index n).

Definition observe_election (now : N) n o : Observation :=
  let o := if seeking (role n) && negb (seeking (ob_prev_role o)) then o <| ob_candidate_entered_at := Some now |> else o in
  let o :=
    if bool_decide (role n = Leader) && negb (bool_decide (ob_prev_role o = Leader)) then
      let elapsed := match ob_candidate_entered_at o with Some start => now - start | None => 0 end in
      let missed := match ob_candidate_entered_at o with
                    | Some _ => ob_missed o
                    | None => if seeking (ob_prev_role o) then S (ob_missed o) else ob_missed o
                    end in
      observe (on_hook (OnElectionWon elapsed)) (o <| ob_candidate_entered_at := None |> <| ob_missed := missed |>)
    else o in
  match role n with
  | Follower | Observer => o <| ob_candidate_entered_at := None |>
  | _ => o
  end.
Definition lag_of n (peer : N * PeerState) : Hook :=
  OnReplicationLag peer.1 (last_log_index n - last_fetch_offset peer.2).
Definition observe_status n m : XRaftMetrics :=
  let m := publish_state (from_engine n) m in
  if bool_decide (role n = Leader) then foldl (λ m peer, on_hook (lag_of n peer) m) m (hash_iter (peers n)) else m.

(** [record_role_transition_observations] at time [now]. *)
Definition record_role_transition_observations (now : N) n o : Observation :=
  observe (observe_status n) (observe_election now n o <| ob_prev_role := role n |>).

(** What the driver does to its observer: hooks while it handles an event, and
    the observation after it. *)
Inductive Moment : Type :=
| During (h : Hook)
| After (now : N) (n : RaftNode).
Definition moment (e : Moment) o : Observation :=
  match e with
  | During h => observe (on_hook h) o
  | After now n => record_role_transition_observations now n o
  end.
Definition observed (o : Observation) (history : list Moment) : Observation := foldl (λ o e, moment e o) o history.
(** [Driver::new] with an observer. *)
Definition watching n m : Observation := mkObservation (role n) None (Some m) 0.
End Observe.

(** ** What the numbers mean *)

Section Meaning.
Context {MA : MembershipApi} {RA : RngApi} {HI : HashIter}.
Implicit Types (n : RaftNode) (h : list Moment).

Definition hooks_of (h : list Moment) : list Hook :=
  omap (λ e, match e with During k => Some k | After _ _ => None end) h.
Definition entries_appended h : N :=
  foldr (λ k s, match k with OnAppend n => n + s | _ => s end) 0 (hooks_of h).
Definition times (P : Hook → bool) h : N := N.of_nat (length (List.filter P (hooks_of h))).
Definition is_fetch (d : FetchDirection) (k : Hook) : bool :=
  match k, d with OnFetchRequest Sent, Sent | OnFetchRequest Received, Received => true | _, _ => false end.
Definition is_install (k : Hook) : bool := match k with OnSnapshotInstalled _ => true | _ => false end.
Definition is_compaction (k : Hook) : bool := match k with OnLogCompaction _ => true | _ => false end.
(** The elections an observer of the roles sees: it saw no leader the time
    before. *)
Definition sees (s : NodeRole * nat) (e : Moment) : NodeRole * nat :=
  match e with
  | During (OnElectionWon _) => (s.1, S s.2)
  | During _ => s
  | After _ n => (role n, if bool_decide (role n = Leader) && negb (bool_decide (s.1 = Leader)) then S s.2 else s.2)
  end.
Definition elections (r : NodeRole) h : NodeRole * nat := foldl sees (r, 0%nat) h.

(** What holds of an observer and the history it has seen. *)
Record tells (r : NodeRole) h o m : Prop := mkTells {
  tl_observer : ob_observer o = Some m;
  tl_role : ob_prev_role o = (elections r h).1;
  tl_clock : is_Some (ob_candidate_entered_at o) ↔ seeking (ob_prev_role o) = true;
  tl_missed : ob_missed o = 0%nat;
  tl_wins : length (m_election_latency m) = (elections r h).2;
  tl_appends : m_append_records_total m = entries_appended h mod 2 ^ 64;
  tl_published : appended_entries (m_status m) = entries_appended h mod 2 ^ 64;
  tl_fetches d : fetches d m = times (is_fetch d) h mod 2 ^ 64;
  tl_installs : m_snapshot_installs m = times is_install h mod 2 ^ 64;
  tl_compactions : m_log_compaction_events m = times is_compaction h mod 2 ^ 64;
}.

Lemma fetch_add_mod a b : fetch_add (a mod 2 ^ 64) b = (a + b) mod 2 ^ 64.
Proof. unfold fetch_add. by rewrite N.Div0.add_mod_idemp_l. Qed.
Lemma hooks_snoc h e :
  hooks_of (h ++ [e]) = hooks_of h ++ match e with During k => [k] | After _ _ => [] end.
Proof. unfold hooks_of. rewrite omap_app. by destruct e. Qed.
Lemma entries_snoc h e :
  entries_appended (h ++ [e]) = entries_appended h + match e with During (OnAppend n) => n | _ => 0 end.
Proof.
  unfold entries_appended. rewrite hooks_snoc, foldr_app.
  assert (∀ l a b, foldr (λ k s, match k with OnAppend n => n + s | _ => s end) (a + b) l =
                   foldr (λ k s, match k with OnAppend n => n + s | _ => s end) a l + b) as Hacc.
  { induction l as [|k l IH]; intros a b; [done|]. cbn [foldr]. rewrite IH. destruct k; lia. }
  rewrite <-Hacc. destruct e as [[]|]; cbn; f_equal; lia.
Qed.
Lemma times_snoc P h e :
  times P (h ++ [e]) = times P h + match e with During k => if P k then 1 else 0 | After _ _ => 0 end.
Proof.
  unfold times. rewrite hooks_snoc, List.filter_app, length_app.
  destruct e as [k|]; [|cbn; lia]. cbn. destruct (P k); cbn; lia.
Qed.

Lemma elections_snoc r h e : elections r (h ++ [e]) = sees (elections r h) e.
Proof. unfold elections. by rewrite foldl_app. Qed.

Lemma lags_only n peers m :
  let m' := foldl (λ m peer, on_hook (lag_of n peer) m) m peers in
  m' = m <| m_replication_lag := m_replication_lag m' |>.
Proof.
  revert m. induction peers as [|p peers IH]; intros m; [by destruct m|].
  cbn [foldl]. cbv zeta in *. rewrite (IH (on_hook (lag_of n p) m)) at 1. done.
Qed.
Lemma observe_status_same n m :
  let m' := observe_status n m in
  m_election_latency m' = m_election_latency m ∧ m_append_records_total m' = m_append_records_total m ∧
  m_fetch_requests m' = m_fetch_requests m ∧ m_snapshot_installs m' = m_snapshot_installs m ∧
  m_log_compaction_events m' = m_log_compaction_events m ∧
  appended_entries (m_status m') = appended_entries (m_status m) ∧
  latest (m_status m') = from_engine n ∧ m_current_term m' = as_i64 (current_term (hard_state n)) ∧
  m_commit_index m' = as_i64 (commit_index n) ∧ m_role m' = role_to_gauge (role n) ∧
  m_log_end_offset m' = as_i64 (last_log_index n) ∧
  m_current_leader m' = match leader_id n with Some l => as_i64 l | None => (-1)%Z end.
Proof.
  cbv zeta. unfold observe_status. case_bool_decide; [|done].
  rewrite (lags_only n (hash_iter (peers n))). done.
Qed.

Lemma fetches_record d d' m :
  fetches d (record_fetch_request d' m) =
  if is_fetch d (OnFetchRequest d') then fetch_add (fetches d m) 1 else fetches d m.
Proof.
  unfold record_fetch_request, fetches.
  cbn [m_fetch_requests set XRaftMetrics_settable].
  destruct d, d'; cbn [is_fetch]; (by rewrite lookup_insert_eq) || by rewrite lookup_insert_ne.
Qed.
Lemma tells_hook r h o m k : tells r h o m → tells r (h ++ [During k]) (observe (on_hook k) o) (on_hook k m).
Proof.
  intros [Ho Hr Hc Hm Hw Ha Hp Hf Hi Hl].
  split; rewrite ?elections_snoc, ?times_snoc, ?entries_snoc.
  - cbn. by rewrite Ho.
  - cbn. by destruct k.
  - done.
  - done.
  - destruct k; cbn; rewrite ?length_app; cbn; lia.
  - destruct k; cbn; rewrite ?N.add_0_r; try done. by rewrite Ha, fetch_add_mod.
  - destruct k; cbn; rewrite ?N.add_0_r; try done. by rewrite Hp, fetch_add_mod.
  - intros d. rewrite times_snoc. destruct k as [| |d'| | | | | |]; cbn; rewrite ?N.add_0_r; try apply Hf.
    rewrite fetches_record, Hf. destruct d, d'; cbn; rewrite ?N.add_0_r; try done; by rewrite fetch_add_mod.
  - destruct k; cbn; rewrite ?N.add_0_r; try done. by rewrite Hi, fetch_add_mod.
  - destruct k; cbn; rewrite ?N.add_0_r; try done. by rewrite Hl, fetch_add_mod.
Qed.

Lemma tells_after r h o m now n :
  tells r h o m → ∃ m', tells r (h ++ [After now n]) (record_role_transition_observations now n o) (observe_status n m').
Proof.
  intros [Ho Hr Hc Hm Hw Ha Hp Hf Hi Hl]. destruct o as [prev clock ob missed]. cbn in *. subst ob missed.
  set (win := bool_decide (role n = Leader) && negb (bool_decide (prev = Leader))).
  set (m' := if win then observe_election_latency
                           match clock with Some start => now - start | None => 0 end m else m).
  assert (ob_observer (observe_election now n (mkObservation prev clock (Some m) 0)) = Some m' ∧
          ob_missed (observe_election now n (mkObservation prev clock (Some m) 0)) = 0%nat ∧
          (is_Some (ob_candidate_entered_at (observe_election now n (mkObservation prev clock (Some m) 0))) ↔
           seeking (role n) = true)) as (Hobs & Hmiss & Hclock).
  { subst m' win. unfold observe_election. cbn [ob_prev_role].
    destruct (role n), prev, clock; cbn in *; split_and!; try done; try tauto; try (by split; [intros [? ?]|]);
      try (by split; [|eauto]); try (by destruct Hc as [_ Hc]; destruct (Hc eq_refl)); by destruct Hc as [Hc _]; discriminate Hc; eauto. }
  exists m'. pose proof (observe_status_same n m') as (E1 & E2 & E3 & E4 & E5 & E6 & _). cbv zeta in *.
  assert (∀ d, fetches d (observe_status n m') = fetches d m) as E3'.
  { intros d. unfold fetches. rewrite E3. subst m'. by destruct win. }
  unfold record_role_transition_observations.
  split; rewrite ?elections_snoc, ?times_snoc, ?entries_snoc, ?N.add_0_r.
  - cbn. by rewrite Hobs.
  - done.
  - done.
  - done.
  - rewrite E1. cbn [sees snd fst]. rewrite <-Hr. subst m'. fold win. destruct win; [|done].
    cbn. rewrite length_app. cbn. lia.
  - rewrite E2. subst m'. by destruct win.
  - rewrite E6. subst m'. by destruct win.
  - intros d. by rewrite times_snoc, N.add_0_r, E3'.
  - rewrite E4. subst m'. by destruct win.
  - rewrite E5. subst m'. by destruct win.
Qed.

Lemma tells_observed r0 n0 h :
  seeking (role n0) = false → ∃ m, tells (role n0) h (observed (watching n0 (shared r0)) h) m.
Proof.
  intros Hs. induction h as [|e h [m IH]] using rev_ind.
  - exists (shared r0). split; try done. cbn. rewrite Hs. split; [intros [? ?]|]; done.
  - unfold observed in *. rewrite foldl_app. cbn [foldl]. destruct e as [k|now n]; cbn [moment].
    + exists (on_hook k m). by apply tells_hook.
    + destruct (tells_after _ _ _ _ now n IH) as [m' ?]. eauto.
Qed.

(** The lag of each peer, whatever order the peers are visited in. *)
Lemma lags_set n peers m peer st :
  NoDup peers.*1 → (peer, st) ∈ peers →
  m_replication_lag (foldl (λ m peer, on_hook (lag_of n peer) m) m peers) !! replica_label peer =
    Some (as_i64 (last_log_index n - last_fetch_offset st)).
Proof.
  induction peers as [|[q sq] peers IH] using rev_ind; [by intros _ ?%elem_of_nil|].
  rewrite fmap_app, foldl_app. intros (Hd & Hq & _)%NoDup_app Hin. cbn.
  apply elem_of_app in Hin as [Hin|[= -> ->]%list_elem_of_singleton]; [|by rewrite lookup_insert_eq].
  rewrite lookup_insert_ne; [by apply IH|]. unfold replica_label. intros ->%(inj pretty).
  apply (Hq peer); [by apply (list_elem_of_fmap_2 fst _ (peer, st))|]. by apply list_elem_of_singleton.
Qed.

(** C19: After every observation the status shown to operators is the engine's,
    every gauge is its field as a 64-bit signed number, and the leader's gauge
    of each peer is its lag.  Whatever happened before, the two counters of
    appended entries agree and count the entries, the other counters count
    their calls, all modulo [2^64], and the election histogram has one sample
    for each time the node was seen to become leader: the warning about a
    missed candidacy stamp is never given. *)
Theorem metrics_follow_engine {HL : HashIterLaws HI} initial n0 h now n :
  seeking (role n0) = false →
  ∃ m, let o := observed (watching n0 (shared initial)) (h ++ [After now n]) in
    ob_observer o = Some m ∧ ob_missed o = 0%nat ∧
    latest (m_status m) = from_engine n ∧
    m_current_term m = as_i64 (current_term (hard_state n)) ∧ m_commit_index m = as_i64 (commit_index n) ∧
    m_role m = role_to_gauge (role n) ∧ m_log_end_offset m = as_i64 (last_log_index n) ∧
    m_current_leader m = match leader_id n with Some l => as_i64 l | None => (-1)%Z end ∧
    (role n = Leader → ∀ peer st, peers n !! peer = Some st →
       m_replication_lag m !! replica_label peer = Some (as_i64 (last_log_index n - last_fetch_offset st))) ∧
    m_append_records_total m = entries_appended h mod 2 ^ 64 ∧
    appended_entries (m_status m) = entries_appended h mod 2 ^ 64 ∧
    (∀ d, fetches d m = times (is_fetch d) h mod 2 ^ 64) ∧
    m_snapshot_installs m = times is_install h mod 2 ^ 64 ∧
    m_log_compaction_events m = times is_compaction h mod 2 ^ 64 ∧
    length (m_election_latency m) = (elections (role n0) (h ++ [After now n])).2.
Proof.
  intros Hs. destruct (tells_observed initial n0 h Hs) as [m0 H0].
  destruct (tells_after _ _ _ _ now n H0) as [m H]. exists (observe_status n m).
  unfold observed in *. rewrite foldl_app. cbn [foldl moment].
  destruct H as [Ho _ _ Hm Hw Ha Hp Hf Hi Hl]. rewrite ?times_snoc, ?entries_snoc, ?N.add_0_r in *.
  pose proof (observe_status_same n m) as (_ & _ & _ & _ & _ & _ & E1 & E2 & E3 & E4 & E5 & E6). cbv zeta in *.
  split_and!; try done.
  - intros Hlead peer st Hst. unfold observe_status. rewrite bool_decide_true by done. apply lags_set.
    + rewrite hash_iter_perm. apply NoDup_fst_map_to_list.
    + rewrite hash_iter_perm. by apply elem_of_map_to_list.
  - intros d. by rewrite Hf, times_snoc, N.add_0_r.
Qed.
End Meaning.

(** ** An election seen *)

Import Concrete.

(** Node 1 seeks votes at 5, wins at 9 while entries were appended. *)
Definition its_history : list Moment :=
  [After 3 node1; After 5 (node1 <| role := PreCandidate |>); During (OnFetchRequest Received); During (OnAppend 2);
   During (OnAppend 1)].
Definition the_winner : @RaftNode membership rng := node1 <| role := Leader |> <| leader_id := Some 1 |>.

Lemma metrics_follow_engine_witness :
  ∃ m, ob_observer (observed (watching node1 (shared (placeholder 1))) (its_history ++ [After 9 the_winner])) = Some m ∧
    latest (m_status m) = from_engine the_winner ∧ m_append_records_total m = 3 ∧ fetches Received m = 1 ∧
    length (m_election_latency m) = 1%nat.
Proof.
  assert (seeking (role node1) = false) as Hs by (vm_compute; reflexivity).
  destruct (metrics_follow_engine (placeholder 1) node1 its_history 9 the_winner Hs)
    as (m & Ho & _ & Hst & _ & _ & _ & _ & _ & _ & Ha & _ & Hf & _ & _ & Hl).
  exists m. split; [exact Ho|]. split; [exact Hst|]. split; [rewrite Ha; vm_compute; reflexivity|].
  split; [rewrite Hf; vm_compute; reflexivity|]. rewrite Hl. vm_compute. reflexivity.
Defined.
