(* ===== verification/Reload.v ===== *)
(** * The binary: start and reload ([xraft-server/src/main.rs])

    Loading the configuration of a server from its command line, and the
    reload a [SIGHUP] asks for.  Installing signal handlers, the log filter
    and the server itself are left out: a [Process] has the cached
    configuration, what the running server was started with, and the part of
    the driver a reload reaches. *)

From S2P Require Import Prelude CoreTypes Message Text Config ElectionTimer RaftNode NodeFacts Boot GrpcClient NodeConfig Status Concrete.

(** [Cli]. *)
Record Cli : Type := mkCli {
  cli_config : string;
  cli_node_id : option N;
  cli_admin_listen : option string;
}.

Section Main.
Context {MA : MembershipApi}.
Context (exists_path : string → bool) (toml_node : string → result string NodeConfig)
  (read_to_string : string → result string string) (env_var : string → option string).
#[local] Abbreviation load := (node_load toml_node read_to_string env_var).

(** The part of [async_main] before [Server::start]; the plain message of a
    missing file is a [Config] error here. *)
Definition override_node_id (id : option N) (c : NodeConfig) : Result NodeConfig :=
  match id with
  | Some id =>
      let c := mkNodeConfig (nc_cluster c <| node_id := id |>) (nc_admin_listen_addr c) in
      let? _ := node_validate c in
      Ok c
  | None => Ok c
  end.
Definition override_admin (addr : option string) (c : ServerConfig) : ServerConfig :=
  match addr with Some a => mkServerConfig (sc_cluster c) (Some a) | None => c end.
Definition configure (cli : Cli) : Result (NodeConfig * ServerConfig) :=
  if exists_path (cli_config cli) then
    let? node_cfg := load (cli_config cli) in
    let? node_cfg := override_node_id (cli_node_id cli) node_cfg in
    Ok (node_cfg, override_admin (cli_admin_listen cli) (from_node_config node_cfg))
  else Err (Config ("--config path '" +:+ cli_config cli +:+ "' does not exist")).

(** [ServerConfig::resolved_driver_config] without an override. *)
Definition resolved_tick_interval (c : ServerConfig) : N := from_millis (tick_interval_ms (sc_cluster c)).

(** The running process: [config_state], the configuration [Server::start]
    was given, the driver's event queue as far as reloads fill it, whether the
    driver still receives, its tick interval, and the status publisher. *)
Record Process : Type := mkProcess {
  pr_cached : NodeConfig;
  pr_running : ServerConfig;
  pr_queue : list N;
  pr_driver_alive : bool;
  pr_tick_interval : N;
  pr_status : StatusPublisher;
}.
#[export] Instance Process_settable : Settable Process :=
  λ p, mkProcess (pr_cached p) (pr_running p) (pr_queue p) (pr_driver_alive p) (pr_tick_interval p) (pr_status p).
Implicit Types p : Process.

(** [interval] panics on a zero period. *)
Definition interval (period : N) : option N := if decide (period = 0) then None else Some period.
(** The server publishes the status of the engine it has built,
    [initial_status], and its driver starts ticking. *)
Definition launch (initial_status : ServerConfig → NodeStatus) (cli : Cli) : Result (option Process) :=
  let? started := configure cli in
  let '(cached, running) := started in
  Ok (tick ← interval (resolved_tick_interval running);
      Some (mkProcess cached running [] true tick (from_status (initial_status running)))).

(** [DriverHandle::reload_tick_interval]. *)
Definition reload_tick_interval (new : N) p : Process * Result unit :=
  if pr_driver_alive p then (p <| pr_queue := pr_queue p ++ [new] |>, Ok tt)
  else (p, Err (Transport "driver event channel closed")).
(** [reload_config]. *)
Definition reload_config (path : string) p : Process :=
  match load path with
  | Err _ => p
  | Ok new_cfg =>
      let new_tick_interval := from_millis (tick_interval_ms (nc_cluster new_cfg)) in
      let p := p <| pr_cached := new_cfg |> in
      match reload_tick_interval new_tick_interval p with
      | (p, Err _) => p
      | (p, Ok _) => p <| pr_status := (bump_config_revision (pr_status p)).1 |>
      end
  end.
(** The driver's arm for [ReloadTickInterval]. *)
Definition apply_reload p : option Process :=
  match pr_queue p with
  | new :: queue => tick ← interval new; Some (p <| pr_queue := queue |> <| pr_tick_interval := tick |>)
  | [] => Some p
  end.
End Main.

(** ** A process and the signals it gets *)

Section Signals.
Context {MA : MembershipApi} (toml_node : string → result string NodeConfig) (path : string).
Implicit Types p : Process.

(** A [SIGHUP], with the file and the environment as they are then; the driver
    takes an event from its queue; the driver ends. *)
Inductive Happening : Type :=
| Hangup (read_to_string : string → result string string) (env_var : string → option string)
| DriverTakes
| DriverEnds.
Definition happens (e : Happening) p : option Process :=
  match e with
  | Hangup read env => Some (reload_config toml_node read env path p)
  | DriverTakes => if pr_driver_alive p then apply_reload p else Some p
  | DriverEnds => Some (p <| pr_driver_alive := false |>)
  end.
Fixpoint happen (es : list Happening) p : option Process :=
  match es with
  | [] => Some p
  | e :: es => p ← happens e p; happen es p
  end.
(** The tick intervals of the reloads that load, while there is a driver. *)
Fixpoint accepted (alive : bool) (es : list Happening) : list N :=
  match es with
  | [] => []
  | Hangup read env :: es =>
      match node_load toml_node read env path with
      | Ok c => if alive then from_millis (tick_interval_ms (nc_cluster c)) :: accepted alive es else accepted alive es
      | Err _ => accepted alive es
      end
  | DriverTakes :: es => accepted alive es
  | DriverEnds :: es => accepted false es
  end.

Definition sound (p : Process) : Prop :=
  node_validate (pr_cached p) = Ok tt ∧ 0 < pr_tick_interval p ∧ Forall (λ t, 0 < t) (pr_queue p) ∧
  config_revision (pr_status p) < 2 ^ 64.

Lemma node_load_valid read env c : node_load toml_node read env path = Ok c → node_validate c = Ok tt.
Proof.
  unfold node_load, node_from_toml_str_with_env. rewrite rbind_Ok. intros (s & _ & H).
  rewrite rbind_Ok in H. destruct H as (c0 & _ & H). rewrite rbind_Ok in H. destruct H as (c1 & _ & H).
  rewrite rbind_Ok in H. destruct H as ([] & Hv & [= ->]). done.
Qed.
Lemma valid_tick c : node_validate c = Ok tt → 0 < from_millis (tick_interval_ms (nc_cluster c)).
Proof.
  intros (Hv & _)%node_validate_ok. apply validate_parts in Hv as (_ & Ht & _).
  apply validate_timing_Ok in Ht. unfold from_millis. lia.
Qed.

(** One thing happens: the process stays sound, its running configuration is
    the same, and accepted intervals are counted, queued and applied in
    order. *)
Lemma happens_spec e p :
  sound p → ∃ p' taken, happens e p = Some p' ∧ sound p' ∧ pr_running p' = pr_running p ∧
    pr_queue p ++ accepted (pr_driver_alive p) [e] = taken ++ pr_queue p' ∧
    pr_tick_interval p' = default (pr_tick_interval p) (last taken) ∧
    config_revision (pr_status p') =
      (config_revision (pr_status p) + N.of_nat (length (accepted (pr_driver_alive p) [e]))) mod 2 ^ 64 ∧
    (∀ es, accepted (pr_driver_alive p) (e :: es) = accepted (pr_driver_alive p) [e] ++ accepted (pr_driver_alive p') es).
Proof.
  intros Hs. pose proof Hs as (Hv & Ht & Hq & Hr). assert (∀ a, a < 2 ^ 64 → a = (a + 0) mod 2 ^ 64) as Hsame.
  { intros a Ha. by rewrite N.add_0_r, N.mod_small. }
  destruct e as [read env| |]; cbn [happens accepted].
  - unfold reload_config. destruct (node_load toml_node read env path) as [c|e] eqn:El.
    + pose proof (node_load_valid _ _ _ El) as Hc. pose proof (valid_tick _ Hc) as Hpos. unfold reload_tick_interval.
      cbn. destruct (pr_driver_alive p) eqn:Ea; (do 2 eexists; split; [reflexivity|]); cbn.
      * split; [|split; [done|split; [by rewrite app_nil_l|split; [done|split; [done|by rewrite ?Ea]]]]].
        split_and!; [done|done| |]; cbn; [|by apply N.mod_lt]. apply Forall_app. split; [done|]. by repeat constructor.
      * rewrite app_nil_r. split; [done|]. split; [done|]. split; [by rewrite app_nil_l|]. split; [done|].
        split; [by apply Hsame|]. by rewrite ?Ea.
    + exists p, []. rewrite app_nil_r. split_and!; try done; by apply Hsame.
  - destruct (pr_driver_alive p) eqn:Ea; [|exists p, []; rewrite app_nil_r; split_and!; try done; [by apply Hsame|by rewrite ?Ea]].
    unfold apply_reload. destruct (pr_queue p) as [|t q] eqn:Eq.
    { exists p, []. rewrite Eq. split_and!; try done; try (by apply Hsame); by rewrite ?Ea. }
    apply Forall_cons in Hq as [Hpos Hq]. unfold interval. rewrite decide_False by lia. cbn.
    do 2 eexists. split; [reflexivity|]. split; [done|]. split; [done|]. rewrite app_nil_r.
    split; [by instantiate (1 := [t])|]. split; [done|]. split; [by apply Hsame|]. cbn. by rewrite ?Ea.
  - eexists _, []. split; [reflexivity|]. rewrite app_nil_r. split_and!; try done; by apply Hsame.
Qed.

Lemma happen_spec es p :
  sound p → ∃ p' taken, happen es p = Some p' ∧ sound p' ∧ pr_running p' = pr_running p ∧
    pr_queue p ++ accepted (pr_driver_alive p) es = taken ++ pr_queue p' ∧
    pr_tick_interval p' = default (pr_tick_interval p) (last taken) ∧
    config_revision (pr_status p') =
      (config_revision (pr_status p) + N.of_nat (length (accepted (pr_driver_alive p) es))) mod 2 ^ 64.
Proof.
  revert p. induction es as [|e es IH]; intros p Hs.
  - exists p, []. cbn. rewrite app_nil_r, N.add_0_r. split_and!; try done. by rewrite N.mod_small by apply Hs.
  - destruct (happens_spec e p Hs) as (p1 & t1 & H1 & Hs1 & Hr1 & Hq1 & Ht1 & Hv1 & Hacc).
    destruct (IH p1 Hs1) as (p2 & t2 & H2 & Hs2 & Hr2 & Hq2 & Ht2 & Hv2).
    exists p2, (t1 ++ t2). rewrite Hacc. cbn [happen]. rewrite H1. cbn [mbind option_bind]. split; [done|]. split; [done|].
    split; [congruence|]. split; [by rewrite app_assoc, Hq1, <-!app_assoc, <-Hq2|]. split.
    + rewrite Ht2, Ht1, last_app. by destruct (last t2).
    + rewrite Hv2, Hv1, N.Div0.add_mod_idemp_l, length_app. f_equal. lia.
Qed.

Lemma configure_valid exists_path read env cli c s :
  configure exists_path toml_node read env cli = Ok (c, s) →
  node_validate c = Ok tt ∧ sc_cluster s = nc_cluster c.
Proof.
  unfold configure. destruct (exists_path _); [|done]. rewrite rbind_Ok. intros (c0 & Hl & H).
  rewrite rbind_Ok in H. destruct H as (c1 & Ho & [= <- <-]).
  split; [|by destruct (cli_admin_listen cli)]. unfold override_node_id in Ho. destruct (cli_node_id cli).
  - rewrite rbind_Ok in Ho. destruct Ho as ([] & Hv & [= <-]). exact Hv.
  - injection Ho as <-. unfold node_load, node_from_toml_str_with_env in Hl. rewrite rbind_Ok in Hl.
    destruct Hl as (? & _ & Hl). rewrite rbind_Ok in Hl. destruct Hl as (? & _ & Hl). rewrite rbind_Ok in Hl.
    destruct Hl as (? & _ & Hl). rewrite rbind_Ok in Hl. destruct Hl as ([] & Hv & [= ->]). exact Hv.
Qed.

(** C18: A server that is configured starts, and no sequence of reload signals,
    whatever files and environments they find and however they interleave with
    the driver, makes its timer panic or touches the configuration it runs
    with: the cached configuration is always a valid one, a reload that fails
    to load leaves everything as it was, the tick intervals of the others are
    applied in order, and the revision shown to operators counts exactly the
    reloads that loaded and reached the driver. *)
Theorem reloads_never_break exists_path read env initial_status cli cached running :
  configure exists_path toml_node read env cli = Ok (cached, running) →
  ∃ p0, launch exists_path toml_node read env initial_status cli = Ok (Some p0) ∧
  ∀ es, ∃ p taken, happen es p0 = Some p ∧
    pr_running p = running ∧ node_validate (pr_cached p) = Ok tt ∧ 0 < pr_tick_interval p ∧
    accepted true es = taken ++ pr_queue p ∧
    pr_tick_interval p = default (resolved_tick_interval running) (last taken) ∧
    config_revision (pr_status p) = N.of_nat (length (accepted true es)) mod 2 ^ 64.
Proof.
  intros Hc. pose proof (configure_valid _ _ _ _ _ _ Hc) as [Hv Heq].
  assert (0 < resolved_tick_interval running) as Hpos by (unfold resolved_tick_interval; rewrite Heq; by apply valid_tick).
  unfold launch. rewrite Hc. cbn. unfold interval. rewrite decide_False by lia. cbn. eexists. split; [reflexivity|].
  intros es. match goal with |- context [happen es ?q] => destruct (happen_spec es q) as (p & taken & H & Hs & Hr & Hq & Ht & Hrev) end.
  { by split_and!. }
  exists p, taken. split_and!; try done; apply Hs.
Qed.
End Signals.

(** ** A template *)

Import Concrete.

(** Three nodes are started from one file with [--node-id]. *)
Definition its_cli (id : N) : Cli := mkCli "xraft.toml" (Some id) None.
Definition its_status (c : ServerConfig) : NodeStatus := placeholder (node_id (sc_cluster c)).
Definition faster : NodeConfig := mkNodeConfig (base 1 three [] <| tick_interval_ms := 3 |>) None.
Definition parse_file (s : string) : result string NodeConfig :=
  if bool_decide (s = "fast") then Ok faster else if bool_decide (s = "broken") then Err "line 1" else Ok its_file.
Definition file_says (s : string) : string → result string string := λ _, Ok s.
Definition its_signals : list Happening :=
  [Hangup (file_says "broken") (λ _, None); Hangup (file_says "fast") (λ _, None); DriverTakes; DriverEnds;
   Hangup (file_says "slow") (λ _, None)].

Lemma reloads_never_break_witness :
  ∃ p0 p, launch (λ _, true) parse_file (file_says "first") (λ _, None) its_status (its_cli 2) = Ok (Some p0) ∧
    happen parse_file "xraft.toml" its_signals p0 = Some p ∧ node_id (sc_cluster (pr_running p)) = 2 ∧
    pr_tick_interval p = 3000000 ∧ config_revision (pr_status p) = 1.
Proof.
  destruct (configure (λ _, true) parse_file (file_says "first") (λ _, None) (its_cli 2)) as [[cached running]|e] eqn:E.
  2:{ exfalso. vm_compute in E. discriminate E. }
  destruct (reloads_never_break parse_file "xraft.toml" _ _ _ its_status _ _ _ E) as (p0 & Hl & Hall).
  destruct (Hall its_signals) as (p & taken & Hp & Hrun & _ & _ & Hacc & Htick & Hrev).
  exists p0, p. split; [exact Hl|]. split; [exact Hp|].
  assert (node_id (sc_cluster running) = 2) as Hid by (vm_compute in E; injection E as _ <-; vm_compute; reflexivity).
  assert (accepted parse_file "xraft.toml" true its_signals = [3000000]) as Ha by (vm_compute; reflexivity).
  rewrite Ha in Hacc, Hrev. split; [rewrite Hrun; exact Hid|]. split; [|rewrite Hrev; vm_compute; reflexivity].
  assert (launch (λ _, true) parse_file (file_says "first") (λ _, None) its_status (its_cli 2) = Ok (Some p0)) as Hl' by exact Hl.
  vm_compute in Hl'. injection Hl' as <-. vm_compute in Hp. injection Hp as <-. vm_compute. reflexivity.
Defined.

(** [--node-id] comes after the first validation: a template whose own id is
    no member is refused whatever the override says. *)
Definition template (s : string) : result string NodeConfig := Ok (mkNodeConfig (base 7 three []) None).
Lemma override_after_validation :
  configure (λ _, true) template (file_says "") (λ _, None) (its_cli 1) =
    Err (Config "node_id is not present in the voters list or observers list") ∧
  override_node_id (Some 1) (mkNodeConfig (base 7 three []) None) = Ok its_file.
Proof. split; vm_compute; reflexivity. Qed.

(** A reload does not know the override: unchanged, the file makes the cached
    configuration that of another node. *)
Lemma reload_forgets_override :
  ∃ p0 p, launch (λ _, true) parse_file (file_says "first") (λ _, None) its_status (its_cli 2) = Ok (Some p0) ∧
    happen parse_file "xraft.toml" [Hangup (file_says "first") (λ _, None)] p0 = Some p ∧
    node_id (nc_cluster (pr_cached p0)) = 2 ∧ node_id (nc_cluster (pr_cached p)) = 1 ∧
    config_revision (pr_status p) = 1.
Proof. do 2 eexists. split; [vm_compute; reflexivity|]. split; [vm_compute; reflexivity|]. by vm_compute. Qed.
