(* ===== verification/Json.v ===== *)
(** * JSON documents

    The values [serde_json] reads and writes, and the decoding of a struct
    with [serde]'s derived [Deserialize].  The text form is a parameter. *)

From S2P Require Import Prelude Text.

Inductive Json : Type :=
| JNull
| JBool (b : bool)
| JNum (n : N)
(** A negative or fractional number. *)
| JOther (text : string)
| JStr (s : string)
| JArr (l : list Json)
| JObj (o : list (string * Json)).

(** [serde_json::to_string] and [from_str]. *)
Class JsonText : Type := {
  json_print : Json → string;
  json_parse : string → option Json;
}.

(** An object of scalars and lists of numbers, each key once. *)
Definition number (v : Json) : Prop := match v with JNum n => u64 n | _ => False end.
Definition scalar (v : Json) : Prop :=
  match v with
  | JNull | JBool _ | JStr _ => True
  | JNum n => u64 n
  | JArr l => Forall number l
  | JOther _ | JObj _ => False
  end.
Definition plain (v : Json) : Prop :=
  match v with JObj o => NoDup o.*1 ∧ Forall (λ kv, scalar kv.2) o | _ => False end.
(** What is written reads back. *)
Class JsonTextLaws (JT : JsonText) : Prop := {
  parse_print v : plain v → json_parse (json_print v) = Some v;
  print_not_empty v : json_print v ≠ "";
}.

(** [Value::get] on an object, and [Map::insert]. *)
Definition value_get (key : string) (v : Json) : option Json :=
  match v with JObj o => snd <$> List.find (λ kv, bool_decide (kv.1 = key)) o | _ => None end.
Definition object_insert (key : string) (x : Json) (v : Json) : Json :=
  match v with
  | JObj o => JObj (if bool_decide (key ∈ o.*1)
                    then (λ kv, if bool_decide (kv.1 = key) then (key, x) else kv) <$> o else o ++ [(key, x)])
  | v => v
  end.

(** ** Decoding a struct *)

(** A field must be given, or may be absent because it is an [Option], or has
    [serde(default)].  A struct is also read from an array of its fields in
    order, and there only a default may be absent. *)
Inductive Presence : Type := Required | Optional | Defaulted.
Definition field (i : nat) (key : string) (p : Presence) (v : Json) : option (option Json) :=
  match v with
  | JObj o =>
      match List.filter (λ kv, bool_decide (kv.1 = key)) o with
      | [] => match p with Required => None | Optional | Defaulted => Some None end
      | [(_, x)] => Some (Some x)
      | _ => None
      end
  | JArr l =>
      match l !! i with
      | Some x => Some (Some x)
      | None => match p with Defaulted => Some None | Required | Optional => None end
      end
  | _ => None
  end.
Definition no_longer (n : nat) (v : Json) : option Json :=
  match v with JArr l => if decide (length l ≤ n)%nat then Some v else None | v => Some v end.

Definition as_u64 (v : Json) : option N := match v with JNum n => if decide (u64 n) then Some n else None | _ => None end.
Definition as_str (v : Json) : option string := match v with JStr s => Some s | _ => None end.
Definition as_u64s (v : Json) : option (list N) := match v with JArr l => mapM as_u64 l | _ => None end.

Section Fields.
Context {A : Type} (read : Json → option A).
Definition required (i : nat) (key : string) (v : Json) : option A :=
  x ← field i key Required v; x ≫= read.
Definition as_option (x : option Json) : option (option A) :=
  match x with None | Some JNull => Some None | Some x => Some <$> read x end.
Definition optional (i : nat) (key : string) (v : Json) : option (option A) := x ← field i key Optional v; as_option x.
Definition optional_or_default (i : nat) (key : string) (v : Json) : option (option A) :=
  x ← field i key Defaulted v; as_option x.
Definition defaulted (d : A) (i : nat) (key : string) (v : Json) : option A :=
  x ← field i key Defaulted v;
  match x with None => Some d | Some x => read x end.
End Fields.

(** ** Reading back what was written *)

Definition of_option (x : option N) : Json := match x with Some n => JNum n | None => JNull end.
Definition of_u64s (l : list N) : Json := JArr (JNum <$> l).

Lemma as_u64_num n : u64 n → as_u64 (JNum n) = Some n.
Proof. intros H. unfold as_u64. by rewrite decide_True. Qed.
Lemma as_option_u64 x : (∀ n, x = Some n → u64 n) → as_option as_u64 (Some (of_option x)) = Some x.
Proof. destruct x as [n|]; [|done]. intros H. unfold as_option. cbn [of_option]. by rewrite as_u64_num by auto. Qed.
Lemma as_u64s_nums l : Forall u64 l → as_u64s (of_u64s l) = Some l.
Proof.
  unfold as_u64s, of_u64s. induction 1 as [|n l Hn Hl IH]; [done|]. cbn [fmap list_fmap mapM]. rewrite as_u64_num by done.
  cbn. by rewrite IH.
Qed.
Lemma number_u64s l : Forall u64 l → Forall number (JNum <$> l).
Proof. intros H. apply Forall_fmap. by eapply Forall_impl. Qed.
Lemma scalar_option x : (∀ n, x = Some n → u64 n) → scalar (of_option x).
Proof. destruct x; [intros H; by apply H|done]. Qed.

Lemma field_obj i key p o x : NoDup o.*1 → (key, x) ∈ o → field i key p (JObj o) = Some (Some x).
Proof.
  intros Hnd Hin. cbn. assert (List.filter (λ kv, bool_decide (kv.1 = key)) o = [(key, x)]) as ->; [|done].
  induction o as [|[k y] o IH]; [by apply elem_of_nil in Hin|]. cbn in *. apply NoDup_cons in Hnd as [Hk Hnd].
  assert (∀ l : list (string * Json), key ∉ l.*1 → List.filter (λ kv, bool_decide (kv.1 = key)) l = []) as Hout.
  { clear. induction l as [|[k y] l IH]; [done|]. cbn. intros [Hk Hl]%not_elem_of_cons.
    rewrite bool_decide_false by (cbn; congruence). by apply IH. }
  apply elem_of_cons in Hin as [[= -> ->]|Hin].
  - rewrite bool_decide_true by done. by rewrite Hout.
  - rewrite bool_decide_false; [by apply IH|]. intros ->. apply Hk. by apply (list_elem_of_fmap_2 fst _ (key, x)).
Qed.
Lemma required_obj {A} (read : Json → option A) i key o x a :
  NoDup o.*1 → (key, x) ∈ o → read x = Some a → required read i key (JObj o) = Some a.
Proof. intros Hnd Hin Hr. unfold required. rewrite (field_obj i key Required o x Hnd Hin). exact Hr. Qed.
Lemma optional_obj {A} (read : Json → option A) i key o x a :
  NoDup o.*1 → (key, x) ∈ o → as_option read (Some x) = Some a → optional read i key (JObj o) = Some a.
Proof. intros Hnd Hin Hr. unfold optional. rewrite (field_obj i key Optional o x Hnd Hin). exact Hr. Qed.
Lemma optional_or_default_obj {A} (read : Json → option A) i key o x a :
  NoDup o.*1 → (key, x) ∈ o → as_option read (Some x) = Some a → optional_or_default read i key (JObj o) = Some a.
Proof. intros Hnd Hin Hr. unfold optional_or_default. rewrite (field_obj i key Defaulted o x Hnd Hin). exact Hr. Qed.
Lemma defaulted_obj {A} (read : Json → option A) d i key o x a :
  NoDup o.*1 → (key, x) ∈ o → read x = Some a → defaulted read d i key (JObj o) = Some a.
Proof. intros Hnd Hin Hr. unfold defaulted. rewrite (field_obj i key Defaulted o x Hnd Hin). exact Hr. Qed.

Create HintDb json.
#[export] Hint Resolve as_u64_num as_option_u64 as_u64s_nums : json.
#[export] Hint Extern 5 (as_str (JStr _) = _) => reflexivity : json.
#[export] Hint Extern 1 (_ ∈ _) => repeat first [by left | right] : json.

Lemma NoDup_keys (l : list string) : bool_decide (NoDup l) = true → NoDup l.
Proof. apply bool_decide_eq_true_1. Qed.

(** Reads the fields of an object with the keys in [Hnd], in order. *)
Ltac read_fields Hnd :=
  repeat (first [ erewrite required_obj by first [exact Hnd | eauto with json]
                | erewrite optional_obj by first [exact Hnd | eauto with json]
                | erewrite optional_or_default_obj by first [exact Hnd | eauto with json]
                | erewrite defaulted_obj by first [exact Hnd | eauto with json] ];
          cbn [mbind option_bind]).

(** ** A text form

    Not JSON's, but a concrete one that satisfies the laws: a document as a
    tree, the tree as a number, the number in binary. *)

Module Binary.
Definition leaf : Type := N + string.
Fixpoint tree (v : Json) : gen_tree leaf :=
  match v with
  | JNull => GenNode 0 []
  | JBool b => GenNode (if b then 1 else 2)%nat []
  | JNum n => GenNode 3 [GenLeaf (inl n)]
  | JOther s => GenNode 4 [GenLeaf (inr s)]
  | JStr s => GenNode 5 [GenLeaf (inr s)]
  | JArr l => GenNode 6 (map tree l)
  | JObj o => GenNode 7 (map (λ kv, GenNode 8 [GenLeaf (inr kv.1); tree kv.2]) o)
  end.
Fixpoint of_tree (t : gen_tree leaf) : option Json :=
  match t with
  | GenNode 0 [] => Some JNull
  | GenNode 1 [] => Some (JBool true)
  | GenNode 2 [] => Some (JBool false)
  | GenNode 3 [GenLeaf (inl n)] => Some (JNum n)
  | GenNode 4 [GenLeaf (inr s)] => Some (JOther s)
  | GenNode 5 [GenLeaf (inr s)] => Some (JStr s)
  | GenNode 6 l => JArr <$> mapM of_tree l
  | GenNode 7 l =>
      JObj <$> mapM (λ t, match t with GenNode 8 [GenLeaf (inr k); t] => pair k <$> of_tree t | _ => None end) l
  | _ => None
  end.
Fixpoint digits (p : positive) : string :=
  match p with
  | xH => "e"
  | xO p => String.String "0" (digits p)
  | xI p => String.String "1" (digits p)
  end.
Fixpoint undigits (s : string) : option positive :=
  match s with
  | String.String "0" s => xO <$> undigits s
  | String.String "1" s => xI <$> undigits s
  | String.String "e" String.EmptyString => Some xH
  | _ => None
  end.
#[export] Instance text : JsonText := {
  json_print v := digits (encode (tree v));
  json_parse s := p ← undigits s; t ← (decode p : option (gen_tree leaf)); of_tree t;
}.

Lemma of_tree_scalar v : scalar v → of_tree (tree v) = Some v.
Proof.
  destruct v as [|[]| | | |l|]; try done. cbn [scalar]. intros Hl.
  assert (mapM of_tree (map tree l) = Some l) as Hm.
  { induction Hl as [|v l Hv Hl IH]; [done|]. destruct v; try done. cbn in *. by rewrite IH. }
  cbn [tree of_tree]. by rewrite Hm.
Qed.
Lemma of_tree_plain v : plain v → of_tree (tree v) = Some v.
Proof.
  destruct v as [| | | | | |o]; try done. intros [_ Ho]. cbn [tree of_tree].
  match goal with |- context [mapM ?f ?l] => assert (mapM f l = Some o) as Hm end.
  { induction Ho as [|[k v] o Hv Ho IH]; [done|]. cbn [map mapM]. cbn in Hv. rewrite of_tree_scalar by done.
    cbn. cbn in IH. by rewrite IH. }
  by rewrite Hm.
Qed.
Lemma undigits_digits p : undigits (digits p) = Some p.
Proof. induction p as [p IH|p IH|]; cbn; [by rewrite IH..|done]. Qed.
Lemma laws : JsonTextLaws text.
Proof.
  split.
  - intros v Hv. cbn. rewrite undigits_digits. cbn. rewrite decode_encode. cbn. by apply of_tree_plain.
  - intros v. cbn. by destruct (encode (tree v)).
Qed.
End Binary.
