(* ===== verification/Admin.v ===== *)
(** * The admin interface ([xraft-server/src/admin.rs], [xraft-client/src/admin.rs])

    The handlers of the admin HTTP endpoint and the client operators use.
    [axum], [reqwest], the network and the text of JSON are parameters; the
    listener's life cycle is left out. *)

From S2P Require Import Prelude CoreTypes Message Text Config ElectionTimer RaftNode NodeFacts SnapshotPipeline Status Json.
From Stdlib Require Import String.

(** ** The server *)

Record HttpResponse : Type := mkHttpResponse {
  http_status : N;
  http_body : string;
}.

(** [#[derive(Error)]] on [XRaftError]. *)
Definition show_hint (h : option N) : string :=
  match h with Some n => "Some(NodeId(" +:+ pretty n +:+ "))" | None => "None" end.
Definition show_error (e : XRaftError) : string :=
  match e with
  | Storage m => "storage error: " +:+ m
  | Transport m => "transport error: " +:+ m
  | NotLeader h => "not leader; current leader hint: " +:+ show_hint h
  | ElectionTimeout => "election timeout"
  | InvalidTerm m => "invalid term: " +:+ m
  | LogInconsistency m => "log inconsistency: " +:+ m
  | Shutdown => "shutdown in progress"
  | CoreTypes.Config m => "configuration error: " +:+ m
  | CorruptSnapshot m => "corrupt snapshot: " +:+ m
  | SnapshotNotFound m => "snapshot not found: " +:+ m
  | Unsupported m => "unsupported: " +:+ m
  end.

Record ClusterInfo : Type := mkClusterInfo {
  ci_cluster_id : string;
  ci_voters : list N;
}.
Definition cluster_info_of (c : ClusterConfig) : ClusterInfo := mkClusterInfo (cluster_id c) (vc_node_id <$> cfg_voters c).

(** [AdminState]: the rendered metrics, the publisher, the cluster, and what
    [DriverHandle::trigger_snapshot] answers if there is a driver. *)
Record AdminState : Type := mkAdminState {
  ad_metrics : result string string;
  ad_status : StatusPublisher;
  ad_cluster_info : ClusterInfo;
  ad_driver : option (Result TriggeredSnapshotInfo);
}.

(** [DriverHandle::trigger_snapshot]: the event is [sent] unless the driver is
    gone, and the reply channel is dropped if it stops first. *)
Definition handle_answer (sent : bool) (reply : option (Result TriggeredSnapshotInfo)) : Result TriggeredSnapshotInfo :=
  if sent then match reply with Some res => res | None => Err Shutdown end
  else Err (Transport "driver event channel closed").

Section Server.
Context {JT : JsonText}.

(** The [Serialize] instances. *)
Definition status_json (s : NodeStatus) : Json :=
  JObj [("node_id", JNum (st_node_id s)); ("role", JStr (role_to_str (st_role s))); ("term", JNum (st_term s));
        ("commit_index", JNum (st_commit_index s)); ("last_applied", JNum (st_last_applied s));
        ("leader_id", of_option (st_leader_id s)); ("last_log_index", JNum (st_last_log_index s))].
Definition triggered_json (i : TriggeredSnapshotInfo) : Json :=
  JObj [("last_included_index", JNum (ts_last_included_index i)); ("last_included_term", JNum (ts_last_included_term i));
        ("size_bytes", JNum (ts_size_bytes i))].
(** [AdminStatusResponse::from_parts]. *)
Definition admin_status_json (s : NodeStatus) (c : ClusterInfo) : Json :=
  JObj [("node_id", JNum (st_node_id s)); ("role", JStr (role_to_str (st_role s))); ("term", JNum (st_term s));
        ("commit_index", JNum (st_commit_index s)); ("last_applied", JNum (st_last_applied s));
        ("leader_id", of_option (st_leader_id s)); ("last_log_index", JNum (st_last_log_index s));
        ("cluster_id", JStr (ci_cluster_id c)); ("voters", of_u64s (ci_voters c))].

Definition OK : N := 200.
Definition NOT_FOUND : N := 404.
Definition METHOD_NOT_ALLOWED : N := 405.
Definition CONFLICT : N := 409.
Definition INTERNAL_SERVER_ERROR : N := 500.
Definition NOT_IMPLEMENTED : N := 501.
Definition SERVICE_UNAVAILABLE : N := 503.

Definition json_response (status : N) (v : Json) : HttpResponse := mkHttpResponse status (json_print v).
Definition error_json (msg : string) : Json := JObj [("error", JStr msg)].

Definition root_handler : HttpResponse := mkHttpResponse OK "xraft-server admin endpoint".
Definition unsupported (what : string) : HttpResponse :=
  json_response NOT_IMPLEMENTED (JObj [("error", JStr (what +:+ " is out of scope for v1")); ("code", JStr "UNSUPPORTED")]).
Definition add_voter_handler : HttpResponse := unsupported "AddVoter".
Definition remove_voter_handler : HttpResponse := unsupported "RemoveVoter".
Definition health_json (p : StatusPublisher) : Json :=
  object_insert "config_revision" (JNum (config_revision p)) (status_json (latest p)).
Definition health_handler (s : AdminState) : HttpResponse := json_response OK (health_json (ad_status s)).
Definition admin_status_handler (s : AdminState) : HttpResponse :=
  json_response OK (admin_status_json (latest (ad_status s)) (ad_cluster_info s)).
Definition trigger_snapshot_handler (s : AdminState) : HttpResponse :=
  match ad_driver s with
  | None => json_response SERVICE_UNAVAILABLE (error_json "admin server built without a driver handle; trigger-snapshot unavailable")
  | Some (Ok info) => json_response OK (triggered_json info)
  | Some (Err (NotLeader hint)) =>
      json_response CONFLICT (JObj [("error", JStr "not leader; retry against the cluster leader"); ("leader_hint", of_option hint)])
  | Some (Err (CoreTypes.Config msg)) => json_response CONFLICT (error_json msg)
  | Some (Err Shutdown) => json_response SERVICE_UNAVAILABLE (error_json "driver is shutting down; retry against another node")
  | Some (Err (Transport msg)) => json_response SERVICE_UNAVAILABLE (error_json ("driver transport error: " +:+ msg))
  | Some (Err e) => json_response INTERNAL_SERVER_ERROR (error_json (show_error e))
  end.
Definition metrics_handler (s : AdminState) : HttpResponse :=
  match ad_metrics s with
  | Ok body => mkHttpResponse OK body
  | Err e => mkHttpResponse INTERNAL_SERVER_ERROR ("metrics render failed: " +:+ e)
  end.

(** [router_inner]: the routes; [axum] answers the rest. *)
Inductive Method : Type := GET | POST.
Definition routes : list (string * Method * (AdminState → HttpResponse)) :=
  [("/", GET, λ _, root_handler); ("/health", GET, health_handler); ("/admin/status", GET, admin_status_handler);
   ("/admin/trigger-snapshot", POST, trigger_snapshot_handler); ("/admin/add-voter", POST, λ _, add_voter_handler);
   ("/admin/remove-voter", POST, λ _, remove_voter_handler); ("/metrics", GET, metrics_handler)].
Definition serve (m : Method) (path : string) (s : AdminState) : HttpResponse :=
  match List.find (λ r, bool_decide (r.1.1 = path)) routes with
  | Some (_, GET, handler) => if m is GET then handler s else mkHttpResponse METHOD_NOT_ALLOWED ""
  | Some (_, POST, handler) => if m is POST then handler s else mkHttpResponse METHOD_NOT_ALLOWED ""
  | None => mkHttpResponse NOT_FOUND ""
  end.
End Server.

(** ** The client *)

Record AdminConfig : Type := mkAdminConfig {
  ac_base_url : string;
  ac_connect_timeout : N;
  ac_request_timeout : N;
  ac_max_retries : N;
  ac_initial_backoff : N;
  ac_max_backoff : N;
}.
(** [AdminConfig::new]; durations are nanoseconds. *)
Definition default_config (base_url : string) : AdminConfig :=
  mkAdminConfig base_url 5000000000 30000000000 3 100000000 5000000000.

Record HealthResponse : Type := mkHealthResponse {
  hr_node_id : N;
  hr_role : string;
  hr_term : N;
  hr_commit_index : N;
  hr_last_applied : N;
  hr_leader_id : option N;
  hr_last_log_index : N;
  hr_config_revision : N;
}.
Record ClusterStatusResponse : Type := mkClusterStatusResponse {
  cs_cluster_id : string;
  cs_voters : list N;
  cs_node_id : N;
  cs_role : string;
  cs_term : N;
  cs_commit_index : N;
  cs_last_applied : N;
  cs_leader_id : option N;
  cs_last_log_index : N;
}.
Record AdminErrorBody : Type := mkAdminErrorBody {
  eb_error : option string;
  eb_leader_hint : option N;
}.

(** The [Deserialize] instances. *)
Definition decode_health (v : Json) : option HealthResponse :=
  v ← no_longer 8 v;
  node_id ← required as_u64 0 "node_id" v; role ← required as_str 1 "role" v; term ← required as_u64 2 "term" v;
  commit_index ← required as_u64 3 "commit_index" v; last_applied ← required as_u64 4 "last_applied" v;
  leader_id ← optional as_u64 5 "leader_id" v; last_log_index ← required as_u64 6 "last_log_index" v;
  config_revision ← defaulted as_u64 0 7 "config_revision" v;
  Some (mkHealthResponse node_id role term commit_index last_applied leader_id last_log_index config_revision).
Definition decode_status (v : Json) : option ClusterStatusResponse :=
  v ← no_longer 9 v;
  cluster_id ← required as_str 0 "cluster_id" v; voters ← required as_u64s 1 "voters" v;
  node_id ← required as_u64 2 "node_id" v; role ← required as_str 3 "role" v; term ← required as_u64 4 "term" v;
  commit_index ← required as_u64 5 "commit_index" v; last_applied ← required as_u64 6 "last_applied" v;
  leader_id ← optional as_u64 7 "leader_id" v; last_log_index ← required as_u64 8 "last_log_index" v;
  Some (mkClusterStatusResponse cluster_id voters node_id role term commit_index last_applied leader_id last_log_index).
Definition decode_triggered (v : Json) : option TriggeredSnapshotInfo :=
  v ← no_longer 3 v;
  i ← required as_u64 0 "last_included_index" v; t ← required as_u64 1 "last_included_term" v;
  size ← required as_u64 2 "size_bytes" v;
  Some (mkTriggered i t size).
Definition decode_error_body (v : Json) : option AdminErrorBody :=
  v ← no_longer 2 v;
  error ← optional_or_default as_str 0 "error" v; leader_hint ← optional_or_default as_u64 1 "leader_hint" v;
  Some (mkAdminErrorBody error leader_hint).

(** [reqwest] and the world behind it.  The body of a response may fail to
    arrive. *)
Class Http : Type := {
  HttpError : Type;
  is_timeout : HttpError → bool;
  is_connect : HttpError → bool;
  show_http_error : HttpError → string;
  show_status : N → string;
  (** The error of a body that is not the JSON asked for. *)
  decode_error : string → HttpError;
  (** The error of [Client::builder]. *)
  build_client : AdminConfig → option string;
  World : Type;
  request : Method → string → World → World * result HttpError (N * result HttpError string);
  sleep_for : N → World → World;
  fraction : World → World * N;
  mul_fraction : N → N → N;
}.
(** The first [n] characters of a UTF-8 text, and the rest. *)
Definition continuation (c : ascii) : bool := N.land (N_of_ascii c) 192 =? 128.
Fixpoint take_chars (n : nat) (l : list ascii) : list ascii * list ascii :=
  match l with
  | [] => ([], [])
  | c :: l' =>
      if continuation c then let '(a, b) := take_chars n l' in (c :: a, b)
      else match n with O => ([], l) | S n => let '(a, b) := take_chars n l' in (c :: a, b) end
  end.
Definition MAX_CHARS : nat := 256.

Fixpoint trim_end_slash (l : list ascii) : list ascii :=
  match l with
  | [] => []
  | c :: l => match trim_end_slash l with [] => if Ascii.eqb c "/" then [] else [c] | l => c :: l end
  end.

Section Client.
Context {JT : JsonText} {H : Http}.

Definition method_str (m : Method) : string := match m with GET => "GET" | POST => "POST" end.

Record AdminClient : Type := mkAdminClient {
  cl_base_url : string;
  cl_max_retries : N;
  cl_initial_backoff : N;
  cl_max_backoff : N;
}.
Definition with_config (cfg : AdminConfig) : Result AdminClient :=
  match build_client cfg with
  | Some e => Err (Transport ("AdminClient reqwest build: " +:+ e))
  | None =>
      let base_url := of_chars (trim_end_slash (chars (ac_base_url cfg))) in
      if decide (base_url = "") then Err (CoreTypes.Config "AdminClient base_url must not be empty")
      else if decide (ac_initial_backoff cfg = 0) then Err (CoreTypes.Config "AdminConfig.initial_backoff must be > 0")
      else if decide (ac_max_backoff cfg < ac_initial_backoff cfg)
      then Err (CoreTypes.Config "AdminConfig.max_backoff must be >= initial_backoff")
      else Ok (mkAdminClient base_url (ac_max_retries cfg) (ac_initial_backoff cfg) (ac_max_backoff cfg))
  end.

Definition classify_admin_error (m : Method) (url : string) (status : N) (body : string) : XRaftError :=
  let parsed := if decide (body = "") then mkAdminErrorBody None None
                else default (mkAdminErrorBody None None) (v ← json_parse body; decode_error_body v) in
  let leader_hint_field_present :=
    bool_decide (body ≠ "") && bool_decide (is_Some (v ← json_parse body; value_get "leader_hint" v)) in
  if bool_decide (status = CONFLICT) && leader_hint_field_present then NotLeader (eb_leader_hint parsed)
  else
    let body_snippet :=
      if decide (body = "") then ""
      else match take_chars MAX_CHARS (chars body) with
           | (snippet, []) => " body: " +:+ of_chars snippet
           | (snippet, _) => " body: " +:+ of_chars snippet +:+ "…"
           end in
    let error_phrase := match eb_error parsed with Some e => " (" +:+ e +:+ ")" | None => "" end in
    Transport ("AdminClient " +:+ method_str m +:+ " " +:+ url +:+ ": status " +:+ show_status status +:+ error_phrase +:+ body_snippet).

(** [handle_response]: the response, or the error and whether to retry. *)
Definition is_success (status : N) : bool := (200 <=? status) && (status <? 300).
Definition handle_response (m : Method) (url : string) (res : result HttpError (N * result HttpError string))
    : result (XRaftError * bool) (result HttpError string) :=
  match res with
  | Ok (status, body) =>
      if is_success status then Ok body
      else Err (classify_admin_error m url status (match body with Ok text => text | Err _ => "" end), false)
  | Err e => Err (Transport ("AdminClient " +:+ method_str m +:+ " " +:+ url +:+ ": " +:+ show_http_error e), is_timeout e || is_connect e)
  end.

(** What a call did: requests, with the world before and what came back, and
    sleeps. *)
Inductive AdminEvent : Type :=
| Asked (m : Method) (url : string) (w : World) (got : result HttpError (N * result HttpError string))
| Slept (d : N).

Definition next_backoff (current max : N) : N := N.min (current * 2) max.
Definition jittered_sleep (base : N) (w : World) : World * N :=
  if decide (base = 0) then (w, base)
  else let half := base / 2 in
       let '(w, k) := fraction w in
       (w, half + mul_fraction half k).

(** The loop of [send_with_retry]; a unit of fuel per attempt. *)
Fixpoint retry_loop (c : AdminClient) (m : Method) (url : string) (fuel : nat) (attempt backoff : N) (w : World)
    (es : list AdminEvent) : option (World * list AdminEvent * Result (result HttpError string)) :=
  match fuel with
  | O => None
  | S fuel =>
      let '(w', got) := request m url w in
      let es := es ++ [Asked m url w got] in
      match handle_response m url got with
      | Ok body => Some (w', es, Ok body)
      | Err (err, retryable) =>
          if negb retryable || bool_decide (cl_max_retries c ≤ attempt) then Some (w', es, Err err)
          else
            let '(w', d) := jittered_sleep backoff w' in
            retry_loop c m url fuel (attempt + 1) (next_backoff backoff (cl_max_backoff c)) (sleep_for d w') (es ++ [Slept d])
      end
  end.
Definition send_with_retry (c : AdminClient) (m : Method) (url : string) (w : World) :=
  retry_loop c m url (S (N.to_nat (cl_max_retries c))) 0 (cl_initial_backoff c) w [].

(** The four calls; [read] is what is done with the body. *)
Definition admin_call {A} (m : Method) (path : string) (read : string → option A) (what : string) (c : AdminClient) (w : World)
    : option (World * list AdminEvent * Result A) :=
  let url := cl_base_url c +:+ path in
  '(w, es, r) ← send_with_retry c m url w;
  let failed := λ e, Err (Transport ("AdminClient " +:+ method_str m +:+ " " +:+ url +:+ what +:+ show_http_error e)) in
  Some (w, es,
    match r with
    | Err e => Err e
    | Ok (Err e) => failed e
    | Ok (Ok body) => match read body with Some a => Ok a | None => failed (decode_error body) end
    end).
Definition health := admin_call GET "/health" (λ b, json_parse b ≫= decode_health) " decode: ".
Definition status := admin_call GET "/admin/status" (λ b, json_parse b ≫= decode_status) " decode: ".
Definition metrics := admin_call GET "/metrics" (λ b, Some b) " body: ".
Definition trigger_snapshot := admin_call POST "/admin/trigger-snapshot" (λ b, json_parse b ≫= decode_triggered) " decode: ".
End Client.
