(* ===== verification/AdminFacts.v ===== *)
(** * Guarantees of the admin interface

    What an operator reads is what the server's handler saw, and a call is
    repeated only after failures of the transport. *)

From S2P Require Import Prelude CoreTypes Message Text Config ElectionTimer RaftNode NodeFacts SnapshotPipeline Status Json Admin Concrete.

Section Facts.
Context {JT : JsonText} {JL : JsonTextLaws JT} {H : Http}.

(** ** The requests of a call *)

Abbreviation got := (result HttpError (N * result HttpError string)).
Definition asked (es : list AdminEvent) : list (World * got) :=
  omap (λ e, match e with Asked _ _ w g => Some (w, g) | Slept _ => None end) es.
Definition only_asked (m : Method) (url : string) (es : list AdminEvent) : Prop :=
  ∀ m' url' w g, Asked m' url' w g ∈ es → m' = m ∧ url' = url ∧ g = (request m url w).2.
Definition transient (g : got) : Prop :=
  match g with Err e => is_timeout e || is_connect e = true | Ok _ => False end.
Definition outcome (m : Method) (url : string) (g : got) : Result (result HttpError string) :=
  match handle_response m url g with Ok body => Ok body | Err (err, _) => Err err end.

Lemma retryable_transient m url g err : handle_response m url g = Err (err, true) → transient g.
Proof. clear. destruct g as [[s b]|e]; cbn; [by destruct (is_success s)|]. by intros [= _ ->]. Qed.

(** One attempt, and as many more as there are retries left. *)
Lemma retry_loop_spec c m url fuel attempt backoff w es0 :
  (N.to_nat (cl_max_retries c - attempt) < fuel)%nat →
  ∃ w' es earlier w1 g, retry_loop c m url fuel attempt backoff w es0 = Some (w', es0 ++ es, outcome m url g) ∧
    asked es = earlier ++ [(w1, g)] ∧ (N.of_nat (length earlier) ≤ cl_max_retries c - attempt) ∧
    Forall (λ x, transient x.2) earlier ∧ only_asked m url es ∧ g = (request m url w1).2.
Proof.
  clear JL. revert attempt backoff w es0. induction fuel as [|fuel IH]; intros attempt backoff w es0 Hf; [lia|].
  cbn [retry_loop]. destruct (request m url w) as [w1 g] eqn:Er.
  assert (only_asked m url [Asked m url w g]) as Hone.
  { intros m' url' w' g' [= -> -> -> ->]%list_elem_of_singleton. by rewrite Er. }
  assert (∀ r, outcome m url g = r → ∃ w' es earlier w2 g', Some (w1, es0 ++ [Asked m url w g], r) =
    Some (w', es0 ++ es, outcome m url g') ∧ asked es = earlier ++ [(w2, g')] ∧
    N.of_nat (length earlier) ≤ cl_max_retries c - attempt ∧ Forall (λ x, transient x.2) earlier ∧
    only_asked m url es ∧ g' = (request m url w2).2) as Hstop.
  { intros r <-. eexists _, _, [], w, g. rewrite Er. split_and!; try done. cbn. lia. }
  destruct (handle_response m url g) as [body|[err retryable]] eqn:Eh.
  { apply Hstop. unfold outcome. by rewrite Eh. }
  destruct retryable; cbn [negb orb]; [|apply Hstop; unfold outcome; by rewrite Eh].
  case_bool_decide as Hmax; [apply Hstop; unfold outcome; by rewrite Eh|]. clear Hstop.
  destruct (jittered_sleep backoff w1) as [w2 d].
  destruct (IH (attempt + 1) (next_backoff backoff (cl_max_backoff c)) (sleep_for d w2)
              ((es0 ++ [Asked m url w g]) ++ [Slept d])) as (w' & es & earlier & w3 & g' & Hl & Ha & Hn & Hf' & Ho & Hg); [lia|].
  exists w', ([Asked m url w g; Slept d] ++ es), ((w, g) :: earlier), w3, g'. rewrite Hl.
  split; [by rewrite <-!app_assoc|]. split; [cbn; f_equal; exact Ha|]. split; [cbn [length]; lia|].
  split; [constructor; [by eapply retryable_transient|done]|]. split; [|done].
  intros m' url' w0 g0 [[= -> -> -> ->]|[Hin|Hin]%elem_of_cons]%elem_of_cons; [by rewrite Er|done|by apply Ho].
Qed.

(** A call returns; its requests but the last failed in transport, and its
    result is what the last one brought, read. *)
Definition understood {A} (m : Method) (url : string) (read : string → option A) (g : got) (res : Result A) : Prop :=
  match outcome m url g with
  | Err e => res = Err e
  | Ok (Err _) => ∃ msg, res = Err (Transport msg)
  | Ok (Ok body) => match read body with Some a => res = Ok a | None => ∃ msg, res = Err (Transport msg) end
  end.
(** The requests [es] of a call: all to the same place, at most as many as
    configured, each but the last, made in [w] with answer [g], failed. *)
Definition exchange (c : AdminClient) (m : Method) (path : string) (es : list AdminEvent) (w : World) (g : got) : Prop :=
  ∃ earlier, asked es = earlier ++ [(w, g)] ∧ N.of_nat (length earlier) ≤ cl_max_retries c ∧
    Forall (λ x, transient x.2) earlier ∧ only_asked m (cl_base_url c +:+ path) es ∧
    g = (request m (cl_base_url c +:+ path) w).2.
Lemma admin_call_spec {A} m path (read : string → option A) what c w :
  ∃ w' es res w1 g, admin_call m path read what c w = Some (w', es, res) ∧ exchange c m path es w1 g ∧
    understood m (cl_base_url c +:+ path) read g res.
Proof.
  clear JL. unfold admin_call, send_with_retry.
  destruct (retry_loop_spec c m (cl_base_url c +:+ path) (S (N.to_nat (cl_max_retries c))) 0 (cl_initial_backoff c) w [])
    as (w' & es & earlier & w1 & g & -> & Ha & Hn & Ht & Ho & Hg); [lia|].
  cbn [mbind option_bind]. do 3 eexists. exists w1, g. split; [reflexivity|]. split.
  - exists earlier. split_and!; try done. lia.
  - unfold understood. destruct (outcome _ _ g) as [[body|e]|e]; [|by eexists|done]. destruct (read body); [done|by eexists].
Qed.

(** ** Reading what the server writes *)

Definition triggered_in_range (i : TriggeredSnapshotInfo) : Prop :=
  u64 (ts_last_included_index i) ∧ u64 (ts_last_included_term i) ∧ u64 (ts_size_bytes i).
Definition status_in_range (s : NodeStatus) : Prop :=
  u64 (st_node_id s) ∧ u64 (st_term s) ∧ u64 (st_commit_index s) ∧ u64 (st_last_applied s) ∧
  (∀ l, st_leader_id s = Some l → u64 l) ∧ u64 (st_last_log_index s).
(** The machine-width integers of the state. *)
Definition in_range (s : AdminState) : Prop :=
  status_in_range (latest (ad_status s)) ∧ u64 (config_revision (ad_status s)) ∧ Forall u64 (ci_voters (ad_cluster_info s)) ∧
  (∀ i, ad_driver s = Some (Ok i) → triggered_in_range i) ∧ (∀ h, ad_driver s = Some (Err (NotLeader (Some h))) → u64 h).

Definition health_of (p : StatusPublisher) : HealthResponse :=
  let s := latest p in
  mkHealthResponse (st_node_id s) (role_to_str (st_role s)) (st_term s) (st_commit_index s) (st_last_applied s)
    (st_leader_id s) (st_last_log_index s) (config_revision p).
Definition cluster_status_of (s : NodeStatus) (i : ClusterInfo) : ClusterStatusResponse :=
  mkClusterStatusResponse (ci_cluster_id i) (ci_voters i) (st_node_id s) (role_to_str (st_role s)) (st_term s)
    (st_commit_index s) (st_last_applied s) (st_leader_id s) (st_last_log_index s).


Lemma decode_triggered_json i :
  triggered_in_range i → plain (triggered_json i) ∧ decode_triggered (triggered_json i) = Some i.
Proof.
  clear. intros (Hi & Ht & Hs). unfold triggered_json.
  match goal with |- context [JObj ?o] => assert (NoDup o.*1) as Hnd by (by apply NoDup_keys) end.
  split; [split; [exact Hnd|by repeat constructor]|].
  unfold decode_triggered. cbn [no_longer mbind option_bind]. read_fields Hnd. by destruct i.
Qed.
Lemma decode_health_json p :
  status_in_range (latest p) → u64 (config_revision p) →
  plain (health_json p) ∧ decode_health (health_json p) = Some (health_of p).
Proof.
  clear. intros (Hi & Ht & Hc & Ha & Hl & Hg) Hr. unfold health_json, status_json. cbn [object_insert].
  rewrite bool_decide_false by (by vm_compute; set_solver). cbn [app].
  match goal with |- context [JObj ?o] => assert (NoDup o.*1) as Hnd by (by apply NoDup_keys) end.
  split; [split; [exact Hnd|]|].
  - repeat constructor; cbn; try done. by apply scalar_option.
  - unfold decode_health. cbn [no_longer mbind option_bind]. read_fields Hnd. done.
Qed.
Lemma decode_status_json s i :
  status_in_range s → Forall u64 (ci_voters i) →
  plain (admin_status_json s i) ∧ decode_status (admin_status_json s i) = Some (cluster_status_of s i).
Proof.
  clear. intros (Hi & Ht & Hc & Ha & Hl & Hg) Hv. unfold admin_status_json.
  match goal with |- context [JObj ?o] => assert (NoDup o.*1) as Hnd by (by apply NoDup_keys) end.
  split; [split; [exact Hnd|]|].
  - repeat constructor; cbn; try done; [by apply scalar_option|by apply number_u64s].
  - unfold decode_status. cbn [no_longer mbind option_bind]. read_fields Hnd. done.
Qed.

(** ** Errors *)

Lemma classify_hint m url msg h :
  (∀ n, h = Some n → u64 n) →
  classify_admin_error m url CONFLICT (json_print (JObj [("error", JStr msg); ("leader_hint", of_option h)])) = NotLeader h.
Proof using JL.
  intros Hh. unfold classify_admin_error.
  match goal with |- context [JObj ?o] => assert (NoDup o.*1) as Hnd by (by apply NoDup_keys);
    assert (plain (JObj o)) as Hp by (split; [exact Hnd|repeat constructor; by apply scalar_option]) end.
  rewrite (parse_print _ Hp), bool_decide_true by done. rewrite (bool_decide_true (_ ≠ "")) by apply print_not_empty.
  cbn [mbind option_bind]. rewrite decide_False by apply print_not_empty.
  rewrite bool_decide_true by (by eexists). cbn [andb]. unfold decode_error_body. cbn [no_longer mbind option_bind].
  read_fields Hnd. done.
Qed.
Lemma classify_message m url status msg :
  ∃ text, classify_admin_error m url status (json_print (error_json msg)) = Transport text.
Proof using JL.
  unfold classify_admin_error, error_json. assert (plain (JObj [("error", JStr msg)])) as Hp.
  { split; [by apply NoDup_keys|by repeat constructor]. }
  rewrite (parse_print _ Hp). cbn [mbind option_bind]. rewrite (bool_decide_false (is_Some _)) by (by intros [? ?]).
  rewrite !andb_false_r. by eexists.
Qed.
Lemma classify_empty m url status : ∃ text, classify_admin_error m url status "" = Transport text.
Proof.
  clear. unfold classify_admin_error. rewrite (bool_decide_false (_ ≠ "")) by (intros Hne; by apply Hne).
  cbn [andb]. rewrite andb_false_r. by eexists.
Qed.

(** ** End to end *)

(** What arrives from the network is what the server, in the state
    [server_at] of the world, answers to the request. *)
Context (server_at : World → AdminState).
Definition served (base : string) : Prop :=
  ∀ m path w status body, (request m (base +:+ path) w).2 = Ok (status, body) →
    status = http_status (serve m path (server_at w)) ∧
    ∀ text, body = Ok text → text = http_body (serve m path (server_at w)).

(** A plain document the server sends with success is what is read from it. *)
Lemma understood_json {A} m url read (decode : Json → option A) v a text res :
  plain v → decode v = Some a → read = (λ b, json_parse b ≫= decode) → text = json_print v →
  understood m url read (Ok (OK, Ok text)) res → res = Ok a.
Proof using JL. intros Hp Hd -> ->. unfold understood, outcome. cbn. rewrite (parse_print _ Hp). cbn. by rewrite Hd. Qed.

(** The three ways a request can end. *)
Lemma understood_cases {A} m path base read w g (res : Result A) :
  served base → g = (request m (base +:+ path) w).2 → understood m (base +:+ path) read g res →
  let r := serve m path (server_at w) in
  (∃ msg, res = Err (Transport msg)) ∧ (∀ status text, g ≠ Ok (status, Ok text)) ∨
  understood m (base +:+ path) read (Ok (http_status r, Ok (http_body r))) res.
Proof.
  intros Hs Hg Hu r. destruct g as [[st body]|e]; [|left; split; [by eexists; exact Hu|done]].
  symmetry in Hg. pose proof (Hs _ _ _ _ _ Hg) as [-> Hb]. fold r in Hb, Hu. fold r.
  destruct body as [text|e]; [pose proof (Hb text eq_refl) as ->; by right|]. left. split; [|done].
  unfold understood, outcome in Hu. cbn in Hu. destruct (is_success _); [exact Hu|].
  destruct (classify_empty m (base +:+ path) (http_status r)) as [msg Hc]. rewrite Hc in Hu. by eexists.
Qed.

Lemma understood_message {A} m url (read : string → option A) status msg res :
  is_success status = false → understood m url read (Ok (status, Ok (json_print (error_json msg)))) res →
  ∃ text, res = Err (Transport text).
Proof using JL.
  intros Hst Hu. unfold understood, outcome, handle_response in Hu. rewrite Hst in Hu.
  destruct (classify_message m url status msg) as [t Ht]. rewrite Ht in Hu. by eexists.
Qed.
Lemma understood_hint {A} m url (read : string → option A) msg h res :
  (∀ n, h = Some n → u64 n) →
  understood m url read (Ok (CONFLICT, Ok (json_print (JObj [("error", JStr msg); ("leader_hint", of_option h)])))) res →
  res = Err (NotLeader h).
Proof using JL. intros Hh Hu. unfold understood, outcome, handle_response in Hu. cbn in Hu. by rewrite classify_hint in Hu. Qed.

(** What the client makes of the trigger handler's response. *)
Lemma trigger_understood s url res :
  in_range s →
  understood POST url (λ b, json_parse b ≫= decode_triggered)
    (Ok (http_status (trigger_snapshot_handler s), Ok (http_body (trigger_snapshot_handler s)))) res →
  match ad_driver s with
  | Some (Ok info) => res = Ok info
  | Some (Err (NotLeader h)) => res = Err (NotLeader h)
  | _ => ∃ msg, res = Err (Transport msg)
  end.
Proof using JL.
  intros (_ & _ & _ & Hinfo & Hhint) Hu. unfold trigger_snapshot_handler in Hu.
  destruct (ad_driver s) as [[info|e]|] eqn:Ed; [| |by eapply understood_message in Hu].
  - destruct (decode_triggered_json info (Hinfo _ eq_refl)) as [Hp Hd].
    exact (understood_json _ _ _ _ _ _ _ _ Hp Hd eq_refl eq_refl Hu).
  - destruct e as [| |h| | | | | | | |]; try (by eapply understood_message in Hu).
    eapply understood_hint; [|exact Hu]. intros n ->. by apply Hhint.
Qed.

(** C16: A call to trigger a snapshot returns after at most the configured
    retries, each after a timeout or a refused connection, and tells the
    operator what the driver of the last request answered: the snapshot, or
    the leader to go to, is the driver's own, everything else is a transport
    error, and both come through whenever the response arrives whole. *)
Theorem trigger_answer_is_the_drivers c w :
  (∀ w, in_range (server_at w)) → served (cl_base_url c) →
  ∃ w' es res w1 g, trigger_snapshot c w = Some (w', es, res) ∧ exchange c POST "/admin/trigger-snapshot" es w1 g ∧
    match res with
    | Ok info => ad_driver (server_at w1) = Some (Ok info)
    | Err (NotLeader h) => ad_driver (server_at w1) = Some (Err (NotLeader h))
    | Err (Transport _) => True
    | Err _ => False
    end ∧
    (∀ status text, g = Ok (status, Ok text) →
       (∀ info, ad_driver (server_at w1) = Some (Ok info) → res = Ok info) ∧
       (∀ h, ad_driver (server_at w1) = Some (Err (NotLeader h)) → res = Err (NotLeader h))).
Proof using JL.
  intros Hr Hs. unfold trigger_snapshot.
  destruct (admin_call_spec POST "/admin/trigger-snapshot" (λ b, json_parse b ≫= decode_triggered) " decode: " c w)
    as (w' & es & res & w1 & g & Hrun & Hex & Hu).
  exists w', es, res, w1, g. split; [exact Hrun|]. split; [exact Hex|]. destruct Hex as (_ & _ & _ & _ & _ & Hg).
  apply (understood_cases _ _ _ _ _ _ _ Hs Hg) in Hu as [[[msg ->] Hno]|Hu].
  { split; [done|]. intros status text Heq. by destruct (Hno status text). }
  apply trigger_understood in Hu; [|exact (Hr w1)]. destruct (ad_driver (server_at w1)) as [[info|e]|].
  - subst res. split; [done|]. intros _ _ _. split; [congruence|done].
  - destruct e; repeat match goal with Hx : ∃ _, res = _ |- _ => destruct Hx as [? Hx] end; subst res;
      (split; [done|]); intros _ _ _; split; by intros ? [= ->].
  - destruct Hu as [? ->]. split; [done|]. intros _ _ _. by split.
Qed.

(** C17: The health and the cluster status an operator reads are the published
    status of the server at the last request, the revision of its
    configuration, its cluster id and its voters; every failure is a transport
    error, and a response that arrives whole is never one. *)
Theorem operators_read_the_status c w :
  (∀ w, in_range (server_at w)) → served (cl_base_url c) →
  (∃ w' es res w1 g, health c w = Some (w', es, res) ∧ exchange c GET "/health" es w1 g ∧
     ((∃ msg, res = Err (Transport msg)) ∧ (∀ st text, g ≠ Ok (st, Ok text)) ∨ res = Ok (health_of (ad_status (server_at w1))))) ∧
  (∃ w' es res w1 g, status c w = Some (w', es, res) ∧ exchange c GET "/admin/status" es w1 g ∧
     ((∃ msg, res = Err (Transport msg)) ∧ (∀ st text, g ≠ Ok (st, Ok text)) ∨
      res = Ok (cluster_status_of (latest (ad_status (server_at w1))) (ad_cluster_info (server_at w1))))).
Proof using JL.
  intros Hr Hs. split.
  - destruct (admin_call_spec GET "/health" (λ b, json_parse b ≫= decode_health) " decode: " c w)
      as (w' & es & res & w1 & g & Hrun & Hex & Hu). exists w', es, res, w1, g. split; [exact Hrun|]. split; [exact Hex|].
    destruct Hex as (_ & _ & _ & _ & _ & Hg). destruct (Hr w1) as (Hst & Hrev & _).
    apply (understood_cases _ _ _ _ _ _ _ Hs Hg) in Hu as [?|Hu]; [by left|right].
    destruct (decode_health_json _ Hst Hrev) as [Hp Hd]. exact (understood_json _ _ _ _ _ _ _ _ Hp Hd eq_refl eq_refl Hu).
  - destruct (admin_call_spec GET "/admin/status" (λ b, json_parse b ≫= decode_status) " decode: " c w)
      as (w' & es & res & w1 & g & Hrun & Hex & Hu). exists w', es, res, w1, g. split; [exact Hrun|]. split; [exact Hex|].
    destruct Hex as (_ & _ & _ & _ & _ & Hg). destruct (Hr w1) as (Hst & _ & Hv & _).
    apply (understood_cases _ _ _ _ _ _ _ Hs Hg) in Hu as [?|Hu]; [by left|right].
    destruct (decode_status_json _ _ Hst Hv) as [Hp Hd]. exact (understood_json _ _ _ _ _ _ _ _ Hp Hd eq_refl eq_refl Hu).
Qed.
End Facts.

(** ** A network that loses the first answer *)

Import Concrete.

Module Lossy.
#[local] Existing Instance Binary.text.
Definition base : string := "http://10.0.0.1:7001".
Definition follower : NodeStatus := mkNodeStatus 1 Follower 4 17 16 (Some 3) 18.
Definition state : AdminState :=
  mkAdminState (Ok "") (from_status follower) (cluster_info_of (config node1)) (Some (Err (NotLeader (Some 3)))).
Definition path_of (url : string) : string := of_chars (drop (length (chars base)) (chars url)).
(** The world counts the requests; the first one times out. *)
#[export] Instance http : Http := {|
  HttpError := string;
  is_timeout e := bool_decide (e = "timed out");
  is_connect _ := false;
  show_http_error e := e;
  show_status n := pretty n;
  decode_error _ := "decode";
  build_client _ := None;
  World := nat;
  request m url w :=
    (S w, match w with
          | O => Err "timed out"
          | S _ => let r := serve m (path_of url) state in Ok (http_status r, Ok (http_body r))
          end);
  sleep_for _ w := w;
  fraction w := (w, 0);
  mul_fraction d _ := d;
|}.
Definition client : AdminClient := mkAdminClient base 3 100000000 5000000000.

Lemma path_of_url path : path_of (base +:+ path) = path.
Proof.
  unfold path_of. assert (chars (base +:+ path) = chars base ++ chars path) as -> by done.
  rewrite drop_app_length. apply of_chars_chars.
Qed.
Lemma in_range_state : in_range state.
Proof.
  unfold in_range, status_in_range, u64, u64_max. split_and!; cbn; try done; try lia.
  - by intros l [= <-].
  - by repeat constructor.
  - by intros h [= <-].
Qed.
Lemma serves : served (λ _ : @World http, state) base.
Proof.
  intros m path w status body. cbn [request http snd]. rewrite path_of_url.
  destruct w; [done|]. cbn zeta. intros [= <- <-]. split; [done|]. by intros text [= <-].
Qed.
End Lossy.
Import Lossy.
#[local] Existing Instance Binary.text.

Lemma trigger_answer_is_the_drivers_witness :
  with_config (default_config "http://10.0.0.1:7001//") = Ok client ∧
  ∃ w' es res w1 g, trigger_snapshot client 0%nat = Some (w', es, res) ∧
    exchange client POST "/admin/trigger-snapshot" es w1 g ∧
    (∀ info, res ≠ Ok info) ∧ (∀ h, res = Err (NotLeader h) → h = Some 3) ∧
    (∀ status text, g = Ok (status, Ok text) → res = Err (NotLeader (Some 3))).
Proof.
  split; [vm_compute; reflexivity|].
  destruct (trigger_answer_is_the_drivers (JL := Binary.laws) (λ _ : @World http, state) client 0%nat
              (λ _, in_range_state) serves) as (w' & es & res & w1 & g & Hrun & Hex & Hres & Hall).
  exists w', es, res, w1, g. split; [exact Hrun|]. split; [exact Hex|]. split; [|split].
  - intros info ->. discriminate Hres.
  - intros h ->. injection Hres as <-. reflexivity.
  - intros status text Hg. apply (proj2 (Hall status text Hg)). reflexivity.
Defined.

Lemma operators_read_the_status_witness :
  ∃ w' es res w1 g, health client 0%nat = Some (w', es, res) ∧ exchange client GET "/health" es w1 g ∧
    ((∃ msg, res = Err (Transport msg)) ∧ (∀ st text, g ≠ Ok (st, Ok text)) ∨
     res = Ok (mkHealthResponse 1 "follower" 4 17 16 (Some 3) 18 0)).
Proof.
  exact (proj1 (operators_read_the_status (JL := Binary.laws) (λ _ : @World http, state) client 0%nat
                  (λ _, in_range_state) serves)).
Defined.
