(* ===== verification/Observed.v ===== *)
(** * The observed driver ([xraft-server/src/driver.rs])

    The calls of [DriverObserver] inside the driver's arms, and the loop with
    its observer.  The times of proposals are left out, and with them the
    commit latency; so are the snapshot arms with their hooks, which end a run
    of this model. *)

From S2P Require Import Prelude CoreTypes Message Text Config ElectionTimer RaftNode NodeFacts NodeInvariant LogStore MemoryLog BTree WalCodec SnapshotStore SnapshotTransfer ServeFetch HardStore StateMachine Timing Driver ReadFrame DriverFacts DriverRuns DriverSafety DriverWaiters Status Concrete.

Section Observed.
Context {MA : MembershipApi} {RA : RngApi} {HI : HashIter} {CR : Crc32}
  {St : Type} {LA : LogStoreApi St} {HS : Type} {HA : HardStateStore HS} {SM : Type} {SA : StateMachine SM}.
#[local] Abbreviation driver := (Driver St HS SM).
Implicit Types (d : driver) (m : XRaftMetrics).
Context (fail_waiters_in_range : N → N → string → driver → driver).
#[local] Abbreviation exec := (exec_action fail_waiters_in_range).
#[local] Abbreviation process := (Driver.process fail_waiters_in_range).

(** ** The calls *)

(** In the arm of one action that had this outcome. *)
Definition hooks_of_action (a : Action) (after : Driver.After) : list Hook :=
  match a, after with
  | AppendEntries es, Next => [OnAppend (N.of_nat (length es))]
  | StepDown, _ => [OnLeaderStepDown]
  | SendMessage _ (MsgFetchRequest _), _ => [OnFetchRequest Sent]
  | _, _ => []
  end.
(** Along the worklist, which [process] executes. *)
Fixpoint process_hooks (fuel : nat) (origin : option N) (acts : list Action) (c : CapturedResponse) d : list Hook :=
  match fuel, acts with
  | S fuel, a :: acts =>
      match exec origin a c d with
      | None => []
      | Some (d, c, after) =>
          hooks_of_action a after ++
          match after with
          | Break => []
          | Next => process_hooks fuel origin acts c d
          | Nested follow =>
              process_hooks fuel origin follow captured_default d ++
              match process fuel origin follow captured_default d with
              | Some (d, nested) =>
                  match d_halt_reason d with Some _ => [] | None => process_hooks fuel origin acts (merge c nested) d end
              | None => []
              end
          end
      end
  | _, _ => []
  end.
Definition actions_hooks (acts : list Action) (origin : option N) d : list Hook :=
  process_hooks (length acts + 4) origin acts captured_default d.
Definition step_hooks (i : Input) (origin : option N) d : list Hook :=
  let '(node, acts) := step i (d_node d) in actions_hooks acts origin (d <| d_node := node |>).

(** [handle_inbound_fetch]: a request counts as received if a leader of this
    cluster got it and its actions succeeded. *)
Definition fetch_received (req : FetchRequest) d : list Hook :=
  if bool_decide (frq_cluster_id req = cluster_id (config (d_node d))) && bool_decide (role (d_node d) = Leader)
     && match step_and_process fail_waiters_in_range (InFetchRequest req) (Some (frq_replica_id req)) d with
        | Some (_, c) => bool_decide (cr_error c = None)
        | None => false
        end
  then [OnFetchRequest Received] else [].
(** The waiter [handle_client_command] registers before the actions. *)
Definition registered (command : bytes) (w : N) (node : RaftNode) (acts : list Action) d : driver :=
  let pre_last := last_log_index (d_node d) in
  let d := d <| d_node := node |> in
  let post_last := last_log_index node in
  if bool_decide (post_last = pre_last + 1) &&
     existsb (λ a, match a with AppendEntries es => existsb (λ e, e_index e =? post_last) es | _ => false end) acts
  then d <| d_pending := <[post_last := default [] (d_pending d !! post_last) ++ [w]]> (d_pending d) |>
  else send (Proposed w (Err (NotLeader (leader_id (d_node d))))) d.
Definition event_hooks (ev : DriverEvent) d : list Hook :=
  match ev with
  | EvVote req => step_hooks (InVoteRequest req) (Some (vrq_candidate_id req)) d
  | EvPreVote req => step_hooks (InPreVoteRequest req) (Some (pvq_candidate_id req)) d
  | EvFetch req => step_hooks (InFetchRequest req) (Some (frq_replica_id req)) d ++ fetch_received req d
  | EvClient command w =>
      if decide (role (d_node d) ≠ Leader) then []
      else let '(node, acts) := step (InClientPropose command) (d_node d) in
           actions_hooks acts None (registered command w node acts d)
  | EvQuery _ _ => []
  | EvOutbound res =>
      let '(node, acts) := handle_outbound_result res (d_node d) in actions_hooks acts None (d <| d_node := node |>)
  | EvTick => step_hooks InTick None d
  end.

(** ** The loop *)

(** A turn with its observer: the event, the observation, the deferred
    reads. *)
Definition observed_turn (now : N) (ev : DriverEvent) (x : driver * Observation) : option (driver * Observation) :=
  let '(d, o) := x in
  '(d', _) ← handle_event fail_waiters_in_range ev d;
  let o := foldl (λ o k, observe (on_hook k) o) o (event_hooks ev d) in
  let o := record_role_transition_observations now (d_node d') o in
  Some (drain_pending_reads d', o).
Fixpoint observed_run (evs : list (N * DriverEvent)) (x : driver * Observation) : option (driver * Observation) :=
  match evs with
  | [] => Some x
  | (now, ev) :: evs =>
      x ← observed_turn now ev x;
      match d_halt_reason x.1 with Some _ => Some x | None => observed_run evs x end
  end.
(** [run] observes once before the loop. *)
Definition started (now : N) d (m : XRaftMetrics) : driver * Observation :=
  (d, record_role_transition_observations now (d_node d) (watching (d_node d) m)).

(** The observer does not disturb the driver. *)
Lemma observed_run_driver evs x :
  fst <$> observed_run evs x = run_events fail_waiters_in_range evs.*2 x.1.
Proof.
  revert x. induction evs as [|[now ev] evs IH]; intros [d o]; [done|]. cbn [observed_run fmap list_fmap fst snd Driver.run_events].
  unfold observed_turn, loop_turn. destruct (handle_event _ ev d) as [[d1 r]|]; cbn; [|done].
  destruct (d_halt_reason (drain_pending_reads d1)); [done|]. by rewrite IH.
Qed.

(** What the observer has seen is a history of calls and observations. *)
Definition turn_history (now : N) (ev : DriverEvent) d n : list Moment := (During <$> event_hooks ev d) ++ [After now n].
Lemma observe_hooks ks o : foldl (λ o k, observe (on_hook k) o) o ks = observed o (During <$> ks).
Proof. unfold observed. revert o. induction ks as [|k ks IH]; intros o; [done|]. apply IH. Qed.
Lemma observed_turn_history now ev d o d' o' :
  observed_turn now ev (d, o) = Some (d', o') → o' = observed o (turn_history now ev d (d_node d')).
Proof.
  unfold observed_turn. destruct (handle_event _ ev d) as [[d1 r]|]; [|done]. cbn. intros [= <- <-].
  rewrite observe_hooks, drained_node. unfold turn_history, observed. by rewrite foldl_app.
Qed.

(** ** The lag gauges *)

Definition silent (k : Hook) : Prop := match k with OnReplicationLag _ _ => False | _ => True end.
Definition apply_hooks (ks : list Hook) m : XRaftMetrics := foldl (λ m k, on_hook k m) m ks.
Definition quiet m : Prop := m_replication_lag m = ∅.

Lemma quiet_apply ks m : Forall silent ks → quiet m → quiet (apply_hooks ks m).
Proof. intros H. revert m. induction H as [|k ks Hk _ IH]; intros m Hm; [done|]. apply IH. by destruct k. Qed.
Lemma step_down_quiet ks m : Forall silent ks → OnLeaderStepDown ∈ ks → quiet (apply_hooks ks m).
Proof.
  intros H. revert m. induction H as [|k ks Hk Hks IH]; intros m; [by intros ?%elem_of_nil|].
  intros [<-|Hin]%elem_of_cons; [apply (quiet_apply ks); [done|reflexivity]|by apply IH].
Qed.

Lemma action_silent a after : Forall silent (hooks_of_action a after).
Proof.
  destruct a; try match goal with x : OutboundMessage |- _ => destruct x end; destruct after; by repeat constructor.
Qed.
Lemma process_silent fuel origin acts c d : Forall silent (process_hooks fuel origin acts c d).
Proof.
  revert acts c d. induction fuel as [|fuel IH]; intros [|a acts] c d; cbn [process_hooks]; try constructor.
  destruct (exec _ _ _ _) as [[[d1 c1] after]|]; [|constructor]. apply Forall_app. split; [apply action_silent|].
  destruct after; [constructor|apply IH|]. apply Forall_app. split; [apply IH|].
  destruct (process _ _ _ _ _) as [[d2 c2]|]; [|constructor]. destruct (d_halt_reason d2); [constructor|apply IH].
Qed.
Lemma event_silent ev d : Forall silent (event_hooks ev d).
Proof.
  assert (∀ i o, Forall silent (step_hooks i o d)) as Hstep.
  { intros i o. unfold step_hooks. destruct (step i (d_node d)). apply process_silent. }
  destruct ev; cbn [event_hooks]; try apply Hstep; try constructor.
  - apply Forall_app. split; [apply Hstep|]. unfold fetch_received. destruct (_ && _); by repeat constructor.
  - case_decide; [constructor|]. destruct (step _ _). apply process_silent.
  - destruct (handle_outbound_result _ _). apply process_silent.
Qed.

(** Executed to its end, a list that steps down says so. *)
Lemma process_says fuel origin acts c d d' c' :
  process fuel origin acts c d = Some (d', c') → d_halt_reason d' = None →
  (StepDown ∈ acts → OnLeaderStepDown ∈ process_hooks fuel origin acts c d) ∧
  (role (d_node d) = Leader → role (d_node d') = Leader ∨ OnLeaderStepDown ∈ process_hooks fuel origin acts c d).
Proof.
  revert acts c d d' c'. induction fuel as [|fuel IH]; intros acts c d d' c'; [done|].
  destruct acts as [|a acts]; cbn [Driver.process process_hooks].
  { intros [= <- _] _. split; [by intros ?%elem_of_nil|by left]. }
  destruct (exec origin a c d) as [[[d1 c1] after]|] eqn:E; [|done]. cbn [mbind option_bind].
  apply exec_moved in E. destruct E as [Hb|Hr _|n follow Ha Hn Hne].
  - by intros [= <- _].
  - intros Hrun Hh. destruct (IH _ _ _ _ _ Hrun Hh) as [H1 H2]. split.
    + intros [<-|Hin]%elem_of_cons; apply elem_of_app; [left; by left|right; by apply H1].
    + intros Hl. rewrite <-Hr in Hl. destruct (H2 Hl) as [?|?]; [by left|right]. apply elem_of_app. by right.
  - destruct (process fuel origin follow captured_default d1) as [[d2 c2]|] eqn:E2; [|done]. cbn [mbind option_bind].
    destruct (d_halt_reason d2) eqn:Hh2; [intros [= <- _]; congruence|]. intros Hrun Hh.
    destruct (IH _ _ _ _ _ E2 Hh2) as [G1 G2]. destruct (IH _ _ _ _ _ Hrun Hh) as [H1 H2]. rewrite !elem_of_app. split.
    + intros [<-|Hin]%elem_of_cons; [done|]. right. right. by apply H1.
    + intros Hl. assert (role (d_node d2) = Leader ∨ OnLeaderStepDown ∈ process_hooks fuel origin follow captured_default d1) as [Hl2|?].
      { destruct (Ha Hl) as [Hl'|Hin]; [apply G2; congruence|right; by apply G1]. }
      * destruct (H2 Hl2) as [?|?]; auto.
      * auto.
Qed.
Lemma actions_say n acts origin d d' c' :
  process_actions fail_waiters_in_range acts origin (stepped n d) = Some (d', c') →
  announced (d_node d) n acts → d_halt_reason d' = None → role (d_node d) = Leader →
  role (d_node d') = Leader ∨ OnLeaderStepDown ∈ actions_hooks acts origin (stepped n d).
Proof.
  unfold process_actions, actions_hooks. intros Hrun Ha Hh Hl. destruct (process_says _ _ _ _ _ _ _ Hrun Hh) as [H1 H2].
  destruct (Ha Hl) as [Hl'|Hin]; [by apply H2|right; by apply H1].
Qed.
Lemma step_says i o d d' c :
  step_and_process fail_waiters_in_range i o d = Some (d', c) → d_halt_reason d' = None → role (d_node d) = Leader →
  role (d_node d') = Leader ∨ OnLeaderStepDown ∈ step_hooks i o d.
Proof.
  unfold step_and_process, step_hooks. destruct (step i (d_node d)) as [n acts] eqn:E. intros Hrun.
  eapply actions_say; [exact Hrun|by eapply step_announced].
Qed.
Lemma registered_node command w node acts d : d_node (registered command w node acts d) = node.
Proof. unfold registered. by destruct (_ && _). Qed.
Lemma event_says ev d d' r :
  handle_event fail_waiters_in_range ev d = Some (d', r) → d_halt_reason d' = None → role (d_node d) = Leader →
  role (d_node d') = Leader ∨ OnLeaderStepDown ∈ event_hooks ev d.
Proof.
  destruct ev; cbn [Driver.handle_event event_hooks].
  - unfold handle_inbound_vote. destruct (step_and_process _ _ _ _) as [[d1 c]|] eqn:E; [|done]. intros [= <- _]. by eapply step_says.
  - unfold handle_inbound_pre_vote. destruct (step_and_process _ _ _ _) as [[d1 c]|] eqn:E; [|done]. intros [= <- _]. by eapply step_says.
  - unfold handle_inbound_fetch. destruct (step_and_process _ _ _ _) as [[d1 c]|] eqn:E; [|done]. intros [= <- _] Hh Hl.
    destruct (step_says _ _ _ _ _ E Hh Hl) as [?|?]; [by left|right]. apply elem_of_app. by left.
  - unfold handle_client_command. case_decide; [by intros [= <- _]; left|].
    destruct (step _ _) as [n acts] eqn:E. apply propose_role in E.
    change (process_actions fail_waiters_in_range acts None _)
      with (process_actions fail_waiters_in_range acts None (registered command w n acts d)).
    unfold process_actions, actions_hooks.
    destruct (process _ _ _ _ _) as [[d1 c]|] eqn:Ep; [|done]. intros [= <- _] Hh Hl.
    apply (process_says _ _ _ _ _ _ _ Ep Hh). by rewrite registered_node, E.
  - intros [= <- _] _ Hl. left. unfold handle_client_query. case_decide; [done|]. destruct (_ || _); [done|]. by case_decide.
  - unfold handle_outbound. destruct (handle_outbound_result _ _) as [n acts] eqn:E.
    destruct (process_actions _ _ _ _) as [[d1 c]|] eqn:Ep; [|done]. intros [= <- _].
    eapply actions_say; [exact Ep|by eapply outbound_announced].
  - unfold handle_tick. destruct (step_and_process _ _ _ _) as [[d1 c]|] eqn:E; [|done]. intros [= <- _]. by eapply step_says.
Qed.

(** ** The invariant of the loop *)

Lemma election_lag now n o m :
  ob_observer o = Some m →
  ∃ m', ob_observer (observe_election now n o) = Some m' ∧ m_replication_lag m' = m_replication_lag m.
Proof.
  intros Ho. unfold observe_election. destruct (seeking (role n) && _);
    (match goal with |- context [if ?b then observe _ _ else _] => destruct b end);
    destruct (role n); cbn; rewrite Ho; cbn; by eexists.
Qed.
Lemma hooks_observer ks o m :
  ob_observer o = Some m → ob_observer (foldl (λ o k, observe (on_hook k) o) o ks) = Some (apply_hooks ks m).
Proof. revert o m. induction ks as [|k ks IH]; intros o m Ho; [done|]. apply IH. cbn. by rewrite Ho. Qed.

(** What operators are shown after an observation of a driver. *)
Record shown d o m : Prop := mkShown {
  sh_observer : ob_observer o = Some m;
  sh_status : latest (m_status m) = from_engine (d_node d);
  sh_quiet : role (d_node d) ≠ Leader → quiet m;
  sh_lags : role (d_node d) = Leader → ∀ peer st, peers (d_node d) !! peer = Some st →
    m_replication_lag m !! replica_label peer = Some (as_i64 (last_log_index (d_node d) - last_fetch_offset st));
}.

Lemma shown_after {HL : HashIterLaws HI} now d o m :
  ob_observer o = Some m → (role (d_node d) ≠ Leader → quiet m) →
  ∃ m', shown d (record_role_transition_observations now (d_node d) o) m'.
Proof.
  intros Ho Hq. destruct (election_lag now (d_node d) o m Ho) as (m1 & Hm1 & Hlag).
  exists (observe_status (d_node d) m1). pose proof (observe_status_same (d_node d) m1) as Hs. cbv zeta in Hs. split.
  - unfold record_role_transition_observations. cbn. by rewrite Hm1.
  - apply Hs.
  - intros Hl. unfold observe_status. rewrite bool_decide_false by done. unfold quiet. cbn. rewrite Hlag. by apply Hq.
  - intros Hl peer st Hst. unfold observe_status. rewrite bool_decide_true by done. apply lags_set.
    + rewrite hash_iter_perm. apply NoDup_fst_map_to_list.
    + rewrite hash_iter_perm. by apply elem_of_map_to_list.
Qed.
Lemma turn_shown {HL : HashIterLaws HI} now ev d o m d' o' :
  observed_turn now ev (d, o) = Some (d', o') → d_halt_reason d' = None → shown d o m → ∃ m', shown d' o' m'.
Proof.
  unfold observed_turn. destruct (handle_event _ ev d) as [[d1 r]|] eqn:E; [|done]. cbn [mbind option_bind].
  intros [= <- <-]. rewrite halted_drain. intros Hh [Ho _ Hq _].
  rewrite <-(drained_node d1). eapply shown_after; [by apply hooks_observer|]. rewrite drained_node. intros Hl.
  destruct (decide (role (d_node d) = Leader)) as [Hl0|Hl0].
  - destruct (event_says _ _ _ _ E Hh Hl0) as [?|Hin]; [done|]. apply step_down_quiet; [apply event_silent|exact Hin].
  - apply quiet_apply; [apply event_silent|by apply Hq].
Qed.

(** C20: The observer watches without disturbing: the driver runs as it does
    without one, and after any run that neither a fatal error nor a snapshot
    action ended the operators are
    shown the engine as it is.  A leader's lag gauges are the lags of its
    peers, and a node that is not leader, however it stopped being one, shows
    no lag at all. *)
Theorem observed_driver_shown {HL : HashIterLaws HI} start now d evs d' o' :
  observed_run evs (started now d (shared start)) = Some (d', o') → d_halt_reason d' = None →
  run_events fail_waiters_in_range evs.*2 d = Some d' ∧ ∃ m, shown d' o' m.
Proof.
  intros Hrun Hh. split.
  { pose proof (observed_run_driver evs (started now d (shared start))) as H. rewrite Hrun in H. by symmetry in H. }
  destruct (shown_after now d (watching (d_node d) (shared start)) (shared start)) as [m0 Hm0]; [done|done|].
  unfold started in Hrun. revert Hrun Hm0.
  generalize (record_role_transition_observations now (d_node d) (watching (d_node d) (shared start))).
  revert d m0. induction evs as [|[t ev] evs IH]; intros d m0 o; cbn [observed_run]; [intros [= <- <-]; eauto|].
  destruct (observed_turn t ev (d, o)) as [[d1 o1]|] eqn:E; [|done]. cbn [mbind option_bind fst].
  destruct (d_halt_reason d1) eqn:Hh1; [intros [= <- <-]; congruence|]. intros Hrun Hm.
  destruct (turn_shown _ _ _ _ _ _ _ E Hh1 Hm) as [m1 Hm1]. by eapply IH.
Qed.
End Observed.

(** ** A leader deposed *)

Import Concrete.
#[local] Existing Instance Mem.api.

Definition watched : option (node * Observation) :=
  observed_run fail_waiters (zip [7; 9] deposing) (started 5 (elected world0) (shared (placeholder 1))).

Lemma observed_driver_shown_witness :
  ∃ d' o' m, watched = Some (d', o') ∧ run_events fail_waiters deposing (elected world0) = Some d' ∧
    role (d_node d') = Follower ∧ ob_observer o' = Some m ∧ m_replication_lag m = ∅ ∧ latest (m_status m) = from_engine (d_node d').
Proof.
  assert (match watched with Some x => bool_decide (role (d_node x.1) = Follower) | None => false end = true) as Hr
    by vm_cast_no_check (eq_refl true).
  assert (match watched with Some x => bool_decide (d_halt_reason x.1 = None) | None => true end = true) as Hh
    by vm_cast_no_check (eq_refl true).
  destruct watched as [[d' o']|] eqn:E; [|discriminate Hr]. apply bool_decide_eq_true in Hr, Hh. cbn [fst] in Hr, Hh.
  unfold watched in E.
  destruct (observed_driver_shown (HL := hash_laws) fail_waiters (placeholder 1) 5 (elected world0) (zip [7; 9] deposing) d' o' E Hh)
    as (Hrun & m & [Ho Hs Hq _]).
  exists d', o', m. split; [reflexivity|]. split; [exact Hrun|]. split; [exact Hr|]. split; [exact Ho|].
  split; [|exact Hs]. apply Hq. rewrite Hr. discriminate.
Defined.
