(* ===== verification/NodeState.v ===== *)
(** * The older node state ([xraft-core/src/node_state.rs])

    An in-memory log by offsets and the membership state of a leader, with the
    high watermark under two quorums.  The file names types of modules that
    are not in the repository ([voter], and a log entry with other fields than
    [log_entry.rs] gives it); they are parameters.  Locks are left out, and so
    is what a broken merge has left of [propose_membership_change]. *)

From S2P Require Import Prelude CoreTypes Message Text Config ElectionTimer RaftNode NodeFacts NodeInvariant Concrete NodeSafety Commit.

(** [VoterInfo] and [Endpoint] of [voter], and [LogEntry]. *)
Class VoterApi : Type := {
  VoterInfo : Type;
  vi_node_id : VoterInfo → N;
  VoterEndpoint : Type;
  LogEntry : Type;
  le_offset : LogEntry → N;
  le_term : LogEntry → N;
  le_payload : LogEntry → bytes;
  is_voters_record : LogEntry → bool;
}.

(** ** [InMemoryLog] *)

Record InMemoryLog {VA : VoterApi} : Type := mkInMemoryLog {
  il_entries : list LogEntry;
  il_start_offset : N;
  il_end_offset : N;
}.

Section Log.
Context {VA : VoterApi}.
Implicit Types (l : InMemoryLog) (e : LogEntry) (es : list LogEntry).

Definition new_log : InMemoryLog := mkInMemoryLog _ [] 0 0.
(** [append]; offsets stay below [u64::MAX]. *)
Definition log_append es l : InMemoryLog :=
  mkInMemoryLog _ (il_entries l ++ es) (il_start_offset l)
    (match last es with Some e => le_offset e + 1 | None => il_end_offset l end).
Definition append_entry e l : InMemoryLog :=
  mkInMemoryLog _ (il_entries l ++ [e]) (il_start_offset l) (le_offset e + 1).
Definition log_read (from to : N) l : list LogEntry :=
  filter (λ e, from ≤ le_offset e ∧ le_offset e < to) (il_entries l).
Definition truncate_suffix (from : N) l : InMemoryLog :=
  let kept := filter (λ e, le_offset e < from) (il_entries l) in
  mkInMemoryLog _ kept (il_start_offset l) (match last kept with Some e => le_offset e + 1 | None => 0 end).
Definition truncate_prefix (up_to : N) l : InMemoryLog :=
  mkInMemoryLog _ (filter (λ e, up_to ≤ le_offset e) (il_entries l)) up_to (il_end_offset l).
Definition entry_at (offset : N) l : option LogEntry := List.find (λ e, le_offset e =? offset) (il_entries l).
Definition entry_term_at (offset : N) l : option N := le_term <$> entry_at offset l.
Definition has_uncommitted_voters_record (high_watermark : N) l : bool :=
  existsb is_voters_record (filter (λ e, high_watermark ≤ le_offset e) (il_entries l)).
Definition read_entries (from : N) (max_entries : nat) l : list LogEntry :=
  take max_entries (filter (λ e, from ≤ le_offset e) (il_entries l)).
(** The loop of [read_entries_bounded]; [result] is in reading order. *)
Definition entry_size e : N := N.of_nat (length (le_payload e)) + 24.
Fixpoint bounded_loop (max_entries : nat) (max_bytes total : N) es (result : list LogEntry) : list LogEntry :=
  match es with
  | [] => result
  | e :: es =>
      if decide (max_entries ≤ length result)%nat then result
      else if bool_decide (0 < max_bytes) && bool_decide (max_bytes < total + entry_size e) && bool_decide (result ≠ [])
      then result
      else bounded_loop max_entries max_bytes (total + entry_size e) es (result ++ [e])
  end.
Definition read_entries_bounded (from : N) (max_entries : nat) (max_bytes : N) l : list LogEntry :=
  bounded_loop max_entries max_bytes 0 (filter (λ e, from ≤ le_offset e) (il_entries l)) [].
Definition epoch_end_offset (epoch : N) l : N :=
  match List.find (λ e, bool_decide (epoch < le_term e) && bool_decide (0 < le_offset e)) (il_entries l) with
  | Some e => le_offset e
  | None => il_end_offset l
  end.
End Log.

(** ** [NodeState] *)

Inductive Role : Type := RoleUnattached | RoleFollower | RoleCandidate | RoleLeader.

Record PendingMembershipChange {VA : VoterApi} : Type := mkPending {
  pm_offset : N;
  pm_voters : list VoterInfo;
  pm_promoted_node_id : N;
  pm_promoted_endpoint : VoterEndpoint;
}.
Record FollowerProgress : Type := mkProgress {
  fp_node_id : N;
  fp_fetch_offset : N;
  fp_is_voter : bool;
}.
Record NodeState {VA : VoterApi} : Type := mkNodeState {
  ns_node_id : N;
  ns_current_term : N;
  ns_role : Role;
  ns_leader_id : option N;
  ns_log_end_offset : N;
  ns_high_watermark : N;
  ns_voter_set : list VoterInfo;
  ns_observers : gset N;
  ns_observer_endpoints : gmap N VoterEndpoint;
  ns_pending : option PendingMembershipChange;
  ns_follower_state : gmap N FollowerProgress;
}.
#[export] Instance NodeState_settable {VA : VoterApi} : Settable NodeState := λ s,
  mkNodeState _ (ns_node_id s) (ns_current_term s) (ns_role s) (ns_leader_id s) (ns_log_end_offset s)
    (ns_high_watermark s) (ns_voter_set s) (ns_observers s) (ns_observer_endpoints s) (ns_pending s) (ns_follower_state s).
Record ConsensusState {VA : VoterApi} : Type := mkConsensusState {
  co_node_id : N;
  co_current_term : N;
  co_role : Role;
  co_leader_id : option N;
  co_log_end_offset : N;
  co_high_watermark : N;
  co_voter_set : list VoterInfo;
}.

Section State.
Context {VA : VoterApi}.
Implicit Types (s : NodeState) (vs : list VoterInfo).

Definition new_leader (node_id term : N) vs : NodeState :=
  mkNodeState _ node_id term RoleLeader (Some node_id) 0 0 vs ∅ ∅ None
    (foldl (λ fs v, if decide (vi_node_id v = node_id) then fs
                    else <[vi_node_id v := mkProgress (vi_node_id v) 0 true]> fs) ∅ vs).
Definition to_consensus_state s : ConsensusState :=
  mkConsensusState _ (ns_node_id s) (ns_current_term s) (ns_role s) (ns_leader_id s) (ns_log_end_offset s)
    (ns_high_watermark s) (ns_voter_set s).
Definition is_voter (node_id : N) s : bool := existsb (λ v, vi_node_id v =? node_id) (ns_voter_set s).
Definition is_observer (node_id : N) s : bool := bool_decide (node_id ∈ ns_observers s).
Definition effective_voter_set_for_hw (offset : N) s : list VoterInfo :=
  match ns_pending s with
  | Some p => if decide (pm_offset p ≤ offset) then pm_voters p else ns_voter_set s
  | None => ns_voter_set s
  end.
Definition voter_offset s (log_end_offset : N) (v : VoterInfo) : N :=
  if decide (vi_node_id v = ns_node_id s) then log_end_offset
  else match ns_follower_state s !! vi_node_id v with Some fp => fp_fetch_offset fp | None => 0 end.
Definition compute_hw_with_voters s vs (log_end_offset : N) : N :=
  let offsets := merge_sort desc (voter_offset s log_end_offset <$> vs) in
  default 0 (offsets !! (length offsets / 2)%nat).
Definition compute_high_watermark s (log_end_offset : N) : N :=
  match ns_pending s with
  | None => compute_hw_with_voters s (ns_voter_set s) log_end_offset
  | Some p =>
      let hw_committed := compute_hw_with_voters s (ns_voter_set s) log_end_offset in
      if decide (hw_committed < pm_offset p) then hw_committed
      else
        let hw_new := compute_hw_with_voters s (pm_voters p) log_end_offset in
        N.max hw_new (pm_offset p)
  end.

Definition set_voter (b : bool) (fp : FollowerProgress) : FollowerProgress := mkProgress (fp_node_id fp) (fp_fetch_offset fp) b.
Definition commit_membership_change s : NodeState :=
  match ns_pending s with
  | Some p =>
      s <| ns_pending := None |>
        <| ns_voter_set := pm_voters p |>
        <| ns_follower_state := alter (set_voter true) (pm_promoted_node_id p) (ns_follower_state s) |>
        <| ns_observer_endpoints := delete (pm_promoted_node_id p) (ns_observer_endpoints s) |>
  | None => s
  end.
Definition election_voter_set s : list VoterInfo := ns_voter_set s.
Definition check_quorum_voter_set s : list VoterInfo := ns_voter_set s.
Definition check_quorum_met (recent_fetchers : gset N) s : bool :=
  let voters := check_quorum_voter_set s in
  let count := length (filter (λ v, vi_node_id v = ns_node_id s ∨ vi_node_id v ∈ recent_fetchers) voters) in
  bool_decide (length voters / 2 < count)%nat.
Definition can_vote_for (candidate_id : N) s : bool := existsb (λ v, vi_node_id v =? candidate_id) (ns_voter_set s).

(** [apply_voters_record_from_log]: the leader commits its pending change, the
    others take the record's voters. *)
Definition added_voter s (id : N) : NodeState :=
  s <| ns_observers := ns_observers s ∖ {[id]} |>
    <| ns_observer_endpoints := delete id (ns_observer_endpoints s) |>
    <| ns_follower_state := alter (set_voter true) id (ns_follower_state s) |>.
Definition removed_voter s (id : N) : NodeState :=
  s <| ns_follower_state := alter (set_voter false) id (ns_follower_state s) |>.
Definition apply_voters_record_from_log (record : list VoterInfo) s : NodeState :=
  match ns_pending s with
  | Some _ => commit_membership_change s
  | None =>
      let old_voter_ids : gset N := list_to_set (vi_node_id <$> ns_voter_set s) in
      let new_voter_ids : gset N := list_to_set (vi_node_id <$> record) in
      let s := foldl added_voter s (elements (new_voter_ids ∖ old_voter_ids)) in
      let s := foldl removed_voter s (elements (old_voter_ids ∖ new_voter_ids)) in
      s <| ns_voter_set := record |>
  end.
End State.

(** ** Reading the in-memory log *)

Section LogFacts.
Context {VA : VoterApi}.
Implicit Types (l : InMemoryLog) (e : LogEntry) (es : list LogEntry).

(** The bytes a read is charged with. *)
Fixpoint read_size es : N := match es with [] => 0 | e :: es => entry_size e + read_size es end.

Lemma read_size_app es1 es2 : read_size (es1 ++ es2) = read_size es1 + read_size es2.
Proof. induction es1 as [|e es1 IH]; cbn; [done|rewrite IH; lia]. Qed.

Lemma entry_size_pos e : 0 < entry_size e.
Proof. unfold entry_size. lia. Qed.

(** What the loop has when it stops: a prefix of the entries within both
    limits (the first entry passes whatever its size), which cannot be longer. *)
Lemma bounded_loop_spec max_entries max_bytes es result :
  (length result ≤ max_entries)%nat →
  (0 < max_bytes → read_size result ≤ max_bytes ∨ (length result ≤ 1)%nat) →
  let out := bounded_loop max_entries max_bytes (read_size result) es result in
  ∃ taken rest, es = taken ++ rest ∧ out = result ++ taken ∧
    (length out ≤ max_entries)%nat ∧
    (0 < max_bytes → read_size out ≤ max_bytes ∨ (length out ≤ 1)%nat) ∧
    (∀ e rest', rest = e :: rest' →
       length out = max_entries ∨
       0 < max_bytes ∧ max_bytes < read_size (out ++ [e]) ∧ out ≠ []).
Proof.
  revert result. induction es as [|e es IH]; intros result Hlen Hsize; cbn.
  { exists [], []. split_and!; rewrite ?app_nil_r; [done..|by intros]. }
  destruct (decide (max_entries ≤ length result)%nat) as [Hfull|Hroom].
  { exists [], (e :: es). split_and!; rewrite ?app_nil_r; [done..|]. intros ? ? _. left. lia. }
  destruct (_ && _ && _) eqn:Hstop.
  { apply andb_prop in Hstop as [[H1 H2]%andb_prop H3].
    apply bool_decide_eq_true in H1, H2, H3.
    exists [], (e :: es). split_and!; rewrite ?app_nil_r; [done..|].
    intros ? ? [= <- <-]. right. rewrite read_size_app. cbn. split_and!; [done|lia|done]. }
  assert (Hgo : 0 < max_bytes → read_size (result ++ [e]) ≤ max_bytes ∨ (length (result ++ [e]) ≤ 1)%nat).
  { intros Hpos. rewrite read_size_app, length_app. cbn.
    destruct (decide (result = [])) as [->|Hne]; [right; cbn; lia|left].
    rewrite bool_decide_true, (bool_decide_true (result ≠ [])), andb_true_r in Hstop by done.
    apply bool_decide_eq_false in Hstop. lia. }
  specialize (IH (result ++ [e])). rewrite read_size_app in IH. cbn in IH.
  rewrite N.add_0_r in IH. rewrite read_size_app in Hgo. cbn in Hgo. rewrite N.add_0_r in Hgo.
  destruct IH as (taken & rest & -> & -> & H1 & H2 & H3).
  { rewrite length_app. cbn. lia. }
  { done. }
  exists (e :: taken), rest. rewrite <-app_assoc. cbn. by rewrite <-app_assoc in H1, H2, H3.
Qed.

(** A bounded read is a prefix of what the log has from the offset, within
    the entry limit and, from two entries on, within the byte limit; it stops
    early only because the next entry would not fit. *)
Lemma read_entries_bounded_prefix from max_entries max_bytes l :
  let wanted := filter (λ e, from ≤ le_offset e) (il_entries l) in
  let out := read_entries_bounded from max_entries max_bytes l in
  ∃ rest, wanted = out ++ rest ∧ (length out ≤ max_entries)%nat ∧
    (0 < max_bytes → read_size out ≤ max_bytes ∨ (length out ≤ 1)%nat) ∧
    (∀ e rest', rest = e :: rest' →
       length out = max_entries ∨ 0 < max_bytes ∧ max_bytes < read_size (out ++ [e]) ∧ out ≠ []).
Proof.
  intros wanted out. subst wanted out. unfold read_entries_bounded.
  destruct (bounded_loop_spec max_entries max_bytes (filter (λ e, from ≤ le_offset e) (il_entries l)) [])
    as (taken & rest & Heq & Hout & H); [cbn; lia|intros _; right; cbn; lia|].
  cbn in Hout, H. exists rest. rewrite Hout. by rewrite Hout in H.
Qed.

(** Without a byte limit it is the plain read. *)
Lemma read_entries_bounded_unlimited from max_entries l :
  read_entries_bounded from max_entries 0 l = read_entries from max_entries l.
Proof.
  destruct (read_entries_bounded_prefix from max_entries 0 l) as (rest & Heq & Hlen & _ & Hmax).
  unfold read_entries. rewrite Heq. destruct rest as [|e rest].
  - rewrite app_nil_r, take_ge by done. done.
  - destruct (Hmax e rest eq_refl) as [Hl|[? _]]; [|lia].
    rewrite take_app_le, take_ge by lia. done.
Qed.

(** The log's offsets are consecutive and end where [end_offset] says. *)
Definition log_wf l : Prop :=
  (∀ i e, il_entries l !! i = Some e → le_offset e = il_start_offset l + N.of_nat i) ∧
  il_end_offset l = il_start_offset l + N.of_nat (length (il_entries l)).

Lemma append_entry_wf e l :
  log_wf l → le_offset e = il_end_offset l → log_wf (append_entry e l).
Proof.
  intros [Hofs Hend] He. split; cbn; [|rewrite length_app; cbn; lia].
  intros i e'. rewrite lookup_app_Some. intros [Hi|[Hge Hi]]; [by apply Hofs|].
  apply list_lookup_singleton_Some in Hi as [Hi <-].
  rewrite He, Hend. f_equal. lia.
Qed.

(** The exclusive end of an epoch: every entry of a term up to [epoch] lies
    below it when terms do not fall, and no entry of a later term does. *)
Lemma epoch_end_offset_split epoch l :
  log_wf l →
  (∀ i j e e', (i ≤ j)%nat → il_entries l !! i = Some e → il_entries l !! j = Some e' → le_term e ≤ le_term e') →
  (∀ e, head (il_entries l) = Some e → 0 < le_offset e ∨ le_term e ≤ epoch) →
  ∀ i e, il_entries l !! i = Some e → le_offset e < epoch_end_offset epoch l ↔ le_term e ≤ epoch.
Proof.
  intros [Hofs Hend] Hmono Hhead i e Hi. unfold epoch_end_offset.
  set (p := λ e, bool_decide (epoch < le_term e) && bool_decide (0 < le_offset e)).
  assert (Hp : ∀ j e', il_entries l !! j = Some e' → p e' = true ↔ epoch < le_term e').
  { intros j e' Hj. unfold p. rewrite andb_true_iff, !bool_decide_eq_true.
    split; [by intros []|]. intros Ht. split; [done|]. rewrite (Hofs _ _ Hj).
    destruct j as [|j]; [|lia]. destruct (il_entries l) as [|e0 es]; [done|]. cbn in Hj. simplify_eq.
    destruct (Hhead e' eq_refl) as [Hpos|]; [|lia]. rewrite (Hofs 0%nat e' eq_refl) in Hpos. done. }
  destruct (List.find p (il_entries l)) as [e'|] eqn:Hfind.
  - apply find_some in Hfind as Hp'. destruct Hp' as [Hin%list_elem_of_In Hpe].
    assert (∃ j, il_entries l !! j = Some e' ∧ ∀ k e'', (k < j)%nat → il_entries l !! k = Some e'' → p e'' = false)
      as (j & Hj & Hmin).
    { clear -Hfind. induction (il_entries l) as [|a es IH]; cbn in Hfind; [done|].
      destruct (p a) eqn:Ha; [simplify_eq; exists 0%nat; split; [done|intros; lia]|].
      destruct (IH Hfind) as (j & Hj & Hmin). exists (S j). split; [done|].
      intros [|k] e'' Hk Hl; cbn in Hl; [by simplify_eq|]. eapply Hmin; [|done]. lia. }
    rewrite (Hofs _ _ Hi), (Hofs _ _ Hj). split; intros Hlt.
    + apply N.nlt_ge. intros Ht%(Hp _ _ Hi). rewrite (Hmin i e) in Ht; [done|lia|done].
    + apply (Hp _ _ Hj) in Hpe. destruct (decide (i < j)%nat); [lia|].
      specialize (Hmono j i e' e ltac:(lia) Hj Hi). lia.
  - rewrite Hend, (Hofs _ _ Hi). apply lookup_lt_Some in Hi as Hlt.
    split; intros _; [|lia]. apply N.nlt_ge. intros Ht%(Hp _ _ Hi).
    apply list_elem_of_lookup_2, list_elem_of_In in Hi. by rewrite (find_none _ _ Hfind e Hi) in Ht.
Qed.
End LogFacts.

(** ** The high watermark under two quorums *)

Section Quorum.
Context {VA : VoterApi}.
Implicit Types (s : NodeState) (vs : list VoterInfo).

(** A majority of [vs] has every entry below [b]. *)
Definition majority s (log_end_offset b : N) vs : Prop :=
  (length vs / 2 < length (filter (λ v, (b ≤ voter_offset s log_end_offset v)%N) vs))%nat.

Lemma length_filter_fmap {A B} (P : B → Prop) `{∀ x, Decision (P x)} (f : A → B) (l : list A) :
  length (filter P (f <$> l)) = length (filter (λ x, P (f x)) l).
Proof. induction l as [|x l IH]; [done|]. rewrite fmap_cons, !filter_cons. destruct (decide _); cbn; by rewrite IH. Qed.

Lemma majority_nil s leo b : ¬ majority s leo b [].
Proof. unfold majority. cbn. lia. Qed.

Lemma compute_hw_majority s vs leo b :
  vs ≠ [] → b ≤ compute_hw_with_voters s vs leo ↔ majority s leo b vs.
Proof.
  intros Hne. unfold compute_hw_with_voters, majority.
  set (os := voter_offset s leo <$> vs).
  assert (Hperm : merge_sort desc os ≡ₚ os) by apply merge_sort_Permutation.
  assert (Hlen : length (merge_sort desc os) = length vs).
  { rewrite Hperm. unfold os. by rewrite length_fmap. }
  destruct (merge_sort desc os !! (length (merge_sort desc os) / 2)%nat) as [c|] eqn:Hc; cbn -[Nat.div].
  - rewrite <-(desc_nth_count _ _ _ b (sorted_desc_offsets _) Hc), Hlen, Hperm.
    unfold os. rewrite length_filter_fmap. lia.
  - apply lookup_ge_None in Hc. rewrite Hlen in Hc. destruct vs; [done|].
    cbn [length] in Hc. pose proof (Nat.div_lt (S (length vs)) 2). lia.
Qed.

(** The strict form needs no voter at all. *)
Lemma below_hw_majority s vs leo o :
  o < compute_hw_with_voters s vs leo ↔ majority s leo (o + 1) vs.
Proof.
  destruct vs as [|v vs].
  - split; [cbn; lia|]. intros []%majority_nil.
  - rewrite <-compute_hw_majority by done. lia.
Qed.

(** What a voter is counted with depends on the progress offsets only. *)
Lemma voter_offset_commit s leo v :
  voter_offset (commit_membership_change s) leo v = voter_offset s leo v.
Proof.
  unfold voter_offset, commit_membership_change. destruct (ns_pending s) as [p|]; [|done]. cbn.
  destruct (decide _); [done|]. rewrite lookup_alter. destruct (decide _) as [->|]; [|done].
  by destruct (ns_follower_state s !! vi_node_id v).
Qed.

Lemma compute_hw_commit s vs leo :
  compute_hw_with_voters (commit_membership_change s) vs leo = compute_hw_with_voters s vs leo.
Proof.
  unfold compute_hw_with_voters.
  by rewrite (list_fmap_ext _ (voter_offset s leo) vs) by (intros; apply voter_offset_commit).
Qed.

Lemma commit_pending s : ns_pending (commit_membership_change s) = None.
Proof. unfold commit_membership_change. destruct (ns_pending s) as [p|] eqn:Hp; done. Qed.

Lemma commit_voters s p : ns_pending s = Some p → ns_voter_set (commit_membership_change s) = pm_voters p.
Proof. intros Hp. unfold commit_membership_change. by rewrite Hp. Qed.

(** C40: An offset lies below the high watermark exactly when a majority of
    the voter set in force at that offset has the entry, and, from the offset
    of a pending voters record on, a majority of the committed voters has
    everything before the record.  Committing the change once the record lies
    below the high watermark makes the new voters the committed set and moves
    the high watermark nowhere. *)
Theorem high_watermark_dual_quorum s leo :
  ns_voter_set s ≠ [] →
  (∀ o, o < compute_high_watermark s leo ↔
     majority s leo (o + 1) (effective_voter_set_for_hw o s) ∧
     ∀ p, ns_pending s = Some p → pm_offset p ≤ o → majority s leo (pm_offset p) (ns_voter_set s)) ∧
  (∀ p, ns_pending s = Some p → pm_offset p < compute_high_watermark s leo →
     let s' := commit_membership_change s in
     ns_pending s' = None ∧ election_voter_set s' = pm_voters p ∧
     compute_high_watermark s' leo = compute_high_watermark s leo).
Proof.
  intros Hne. split.
  - intros o. unfold compute_high_watermark, effective_voter_set_for_hw.
    destruct (ns_pending s) as [p|].
    + assert (Hmaj := λ b, compute_hw_majority s (ns_voter_set s) leo b Hne). setoid_rewrite <-Hmaj.
      destruct (decide (_ < pm_offset p)); destruct (decide (pm_offset p ≤ o));
        rewrite <-below_hw_majority; split.
      all: try (intros H; split; [lia|intros ? [= <-]; lia]).
      all: intros [H1 H2]; specialize (H2 p eq_refl); lia.
    + rewrite below_hw_majority. naive_solver.
  - intros p Hp Hlt s'. subst s'. unfold election_voter_set.
    rewrite commit_pending, (commit_voters s p Hp). split_and!; [done..|].
    unfold compute_high_watermark in *. rewrite commit_pending, (commit_voters s p Hp), compute_hw_commit.
    rewrite Hp in *. destruct (decide _); lia.
Qed.

(** The leader and the followers take the same voters from a record that is
    the leader's pending change, and both end with nothing pending. *)
Lemma apply_voters_record_agrees record s :
  (∀ p, ns_pending s = Some p → pm_voters p = record) →
  let s' := apply_voters_record_from_log record s in
  ns_voter_set s' = record ∧ ns_pending s' = None.
Proof.
  intros Hrec s'. subst s'. unfold apply_voters_record_from_log.
  destruct (ns_pending s) as [p|] eqn:Hp; [by rewrite (commit_voters s p Hp), (Hrec p eq_refl), commit_pending|].
  cbn. split; [done|].
  assert (Hfold : ∀ (f : NodeState → N → NodeState) ids (st : NodeState),
    (∀ st' id, ns_pending (f st' id) = ns_pending st') → ns_pending (foldl f st ids) = ns_pending st).
  { intros f ids. induction ids as [|id ids IH]; intros st Hf; cbn; [done|by rewrite IH, Hf]. }
  by rewrite !Hfold.
Qed.
End Quorum.

(** ** Concrete states *)

Module NodeStateExample.
(** Voters are their ids, an entry its offset, term and payload. *)
#[local] Instance va : VoterApi := {|
  VoterInfo := N; vi_node_id := λ v, v; VoterEndpoint := unit;
  LogEntry := N * N * bytes; le_offset := λ e, fst (fst e); le_term := λ e, snd (fst e); le_payload := snd;
  is_voters_record := λ e, bool_decide (fst (fst e) = 4);
|}.

(** A leader of three voters with a record pending at offset 4 that adds node
    4; nodes 1 and 2 have it, node 4 is at 6. *)
Definition adding_4 : PendingMembershipChange := mkPending va 4 ([1; 2; 3; 4] : list N) 4 tt.
Definition leader : NodeState :=
  new_leader (VA := va) 1 3 ([1; 2; 3] : list N)
    <| ns_pending := Some adding_4 |>
    <| ns_follower_state := <[2 := mkProgress 2 6 true]> (<[3 := mkProgress 3 2 true]> {[4 := mkProgress 4 6 false]}) |>.

Example leader_hw : compute_high_watermark leader 7 = 6.
Proof. vm_compute. reflexivity. Qed.

Lemma high_watermark_dual_quorum_witness :
  ns_voter_set leader ≠ [] ∧
  (5 < compute_high_watermark leader 7 ↔
     majority leader 7 6 (effective_voter_set_for_hw 5 leader) ∧
     ∀ p, ns_pending leader = Some p → pm_offset p ≤ 5 → majority leader 7 (pm_offset p) (ns_voter_set leader)) ∧
  compute_high_watermark (commit_membership_change leader) 7 = compute_high_watermark leader 7.
Proof.
  split; [discriminate|]. split.
  - apply (high_watermark_dual_quorum leader 7); discriminate.
  - destruct (high_watermark_dual_quorum leader 7) as [_ H]; [discriminate|].
    by destruct (H adding_4) as (_ & _ & ?).
Defined.

(** Entry 0 is passed over by the search for an epoch's end. *)
Lemma epoch_end_skips_offset_zero :
  let l := append_entry (VA := va) (1, 2, []) (append_entry (VA := va) (0, 2, []) new_log) in
  epoch_end_offset 1 l = 1 ∧ entry_term_at 0 l = Some 2.
Proof. vm_compute. done. Qed.

(** Cutting the whole suffix of a compacted log puts the end before the start. *)
Lemma truncate_suffix_below_start :
  let l := truncate_prefix 5 (log_append (VA := va) ([(4, 1, []); (5, 1, []); (6, 1, [])] : list (N * N * bytes)) new_log) in
  let l' := truncate_suffix 5 l in
  il_start_offset l' = 5 ∧ il_end_offset l' = 0.
Proof. vm_compute. done. Qed.
End NodeStateExample.
