(* ===== verification/LegacyState.v ===== *)
(** * The older hard-state store ([xraft-storage/src/state.rs])

    Term, vote and commit index in a JSON file replaced by write-to-temporary
    and rename, with a cache and an advisory lock.  [lib.rs] leaves the file
    out of the crate in favour of [hard_state.rs] ([HardStore.v]).  Lock
    poisoning and [create_dir_all] are left out; the lock's outcome is an
    argument of [open]. *)

From S2P Require Import Prelude CoreTypes Message Concrete Fs.

Module LegacyState.

Record HardState : Type := mkHardState {
  term : N;
  voted_for : option N;
  commit : N;
}.
Definition default_state : HardState := mkHardState 0 None 0.

Inductive HardStateError : Type := Io | Serialize | Locked.
Definition Result (A : Type) : Type := sum HardStateError A.

(** [serde_json] on [HardState]. *)
Class StateJson : Type := {
  to_string_pretty : HardState → option bytes;
  from_str : bytes → option HardState;
}.
Class StateJsonLaws (J : StateJson) : Prop := {
  from_str_to_string h b : to_string_pretty h = Some b → from_str b = Some h;
}.

(** ** The trait and its volatile implementation *)

Class HardStateStore (S : Type) : Type := {
  load : S → Result (option HardState);
  persist : HardState → S → S * Result unit;
}.

(** The documented contract. *)
Class StoreLaws (S : Type) (HS : HardStateStore S) : Prop := {
  persist_ok h s s' : persist h s = (s', inr tt) → load s' = inr (Some h);
  persist_err h s s' e : persist h s = (s', inl e) → load s' = load s;
}.

Definition MemoryHardStateStore : Type := option HardState.
Definition memory_new : MemoryHardStateStore := None.
#[global] Instance memory_store : HardStateStore MemoryHardStateStore := {
  load s := inr s;
  persist h s := (Some h, inr tt);
}.
#[global] Instance memory_store_laws : StoreLaws MemoryHardStateStore memory_store.
Proof. split; cbn; intros; by simplify_eq. Qed.

(** [SharedHardStateStore] hands every call to the store it shares. *)
Definition SharedHardStateStore (S : Type) : Type := S.
Definition shared_store {S} (HS : HardStateStore S) : HardStateStore (SharedHardStateStore S) := {|
  load := @load S HS;
  persist := @persist S HS;
|}.

(** ** [FileHardStateStore] *)

Section File.
Context {J : StateJson}.

Definition STATE_FILE_NAME : string := "quorum-state".
Definition LOCK_FILE_NAME : string := "lock".
Definition TMP_FILE_NAME : string := "quorum-state.tmp".

Record FileHardStateStore : Type := mkFileStore {
  dir : disk;
  cached : HardState;
  has_persisted : bool;
}.

(** The cache and the flag, from what the state file holds. *)
Definition read_state (f : option bytes) : Result (HardState * bool) :=
  match f with
  | Some data => match from_str data with Some h => inr (h, true) | None => inl Serialize end
  | None => inr (default_state, false)
  end.

(** [locked]: another process holds the advisory lock. *)
Definition open (locked : bool) (fault : option (nat * nat)) (d : disk) : Result FileHardStateStore :=
  let '(d, ok) :=
    match live d !! LOCK_FILE_NAME with
    | Some _ => (d, true)
    | None => fs_run fault [OpCreate LOCK_FILE_NAME] d
    end in
  if negb ok then inl Io
  else if locked then inl Locked
  else match read_state (live d !! STATE_FILE_NAME) with
       | inr (h, b) => inr (mkFileStore d h b)
       | inl e => inl e
       end.

(** Create, write, sync, rename; the directory is not synced. *)
Definition write_and_rename (data : bytes) : list fsop :=
  [OpCreate TMP_FILE_NAME; OpWrite TMP_FILE_NAME data; OpSync TMP_FILE_NAME; OpRename TMP_FILE_NAME STATE_FILE_NAME].
Definition atomic_write (fault : option (nat * nat)) (h : HardState) (d : disk) : disk * Result unit :=
  match to_string_pretty h with
  | None => (d, inl Serialize)
  | Some serialized =>
      let '(d, ok) := fs_run fault (write_and_rename serialized) d in
      (d, if ok then inr tt else inl Io)
  end.

Definition file_load (s : FileHardStateStore) : Result (option HardState) :=
  if has_persisted s then inr (Some (cached s)) else inr None.
Definition file_persist (fault : option (nat * nat)) (h : HardState) (s : FileHardStateStore) :
    FileHardStateStore * Result unit :=
  match atomic_write fault h (dir s) with
  | (d, inr _) => (mkFileStore d h true, inr tt)
  | (d, inl e) => (mkFileStore d (cached s) (has_persisted s), inl e)
  end.
#[global] Instance file_store (fault : option (nat * nat)) : HardStateStore FileHardStateStore := {
  load := file_load;
  persist := file_persist fault;
}.

(** Calls one after the other, each with the fault it meets. *)
Fixpoint persists (calls : list (option (nat * nat) * HardState)) (s : FileHardStateStore) : FileHardStateStore :=
  match calls with
  | [] => s
  | (fault, h) :: calls => persists calls (file_persist fault h s).1
  end.

(** ** Facts *)

(** A run of the four calls is a run of the atomic replacement that fails at
    the directory sync at the latest. *)
Lemma write_and_rename_run fault data d :
  ∃ fault', (fs_run fault (write_and_rename data) d).1 =
    (fs_run fault' (atomic_replace TMP_FILE_NAME STATE_FILE_NAME data) d).1.
Proof.
  destruct fault as [[[|[|[|[|k]]]] cut]|].
  - by exists (Some (0, cut)%nat).
  - by exists (Some (1, cut)%nat).
  - by exists (Some (2, cut)%nat).
  - by exists (Some (3, cut)%nat).
  - by exists (Some (4, 0)%nat).
  - by exists (Some (4, 0)%nat).
Qed.

Lemma write_and_rename_ok fault data d d' :
  fs_run fault (write_and_rename data) d = (d', true) → live d' !! STATE_FILE_NAME = Some data.
Proof.
  intros Hrun.
  assert (d' = fs_apply (OpRename TMP_FILE_NAME STATE_FILE_NAME) (staged TMP_FILE_NAME data d)) as ->.
  { destruct fault as [[[|[|[|[|k]]]] cut]|]; cbn [fs_run write_and_rename] in Hrun; by apply pair_inv in Hrun as [<- ?]. }
  by destruct (renamed_spec TMP_FILE_NAME STATE_FILE_NAME data d STATE_FILE_NAME) as ([? _] & _).
Qed.

(** Every call keeps the trait's contract while the process lives. *)
Lemma legacy_file_store_laws fault : StoreLaws FileHardStateStore (file_store fault).
Proof.
  split; cbn; unfold file_persist; intros *; destruct (atomic_write _ _ _) as [d [e'|[]]];
    intros [<- ?]%pair_inv; done.
Qed.

(** An open store: what may survive a power loss reads as one of [hs]. *)
Definition readable (d : disk) (hs : list (HardState * bool)) : Prop :=
  ∀ f, survives d STATE_FILE_NAME f → ∃ p, read_state f = inr p ∧ p ∈ hs.

Lemma legacy_open_spec locked fault r s :
  open locked fault (booted r) = inr s →
  locked = false ∧ read_state (r !! STATE_FILE_NAME) = inr (cached s, has_persisted s) ∧
  (∀ f, survives (dir s) STATE_FILE_NAME f → f = r !! STATE_FILE_NAME).
Proof.
  unfold open. cbn [live booted].
  set (run := match r !! LOCK_FILE_NAME with Some _ => _ | None => _ end).
  assert (Hs : ∀ f, survives run.1 STATE_FILE_NAME f ↔ survives (booted r) STATE_FILE_NAME f).
  { intros f. subst run. destruct (r !! LOCK_FILE_NAME); [done|].
    assert (Hc : survives (fs_apply (OpCreate LOCK_FILE_NAME) (booted r)) STATE_FILE_NAME f ↔
                 survives (booted r) STATE_FILE_NAME f).
    { apply (same_except_survives LOCK_FILE_NAME); [|done]. apply same_except_tmp_op; by eauto. }
    by destruct fault as [[[|k] [|cut]]|]. }
  assert (Hl : live run.1 !! STATE_FILE_NAME = r !! STATE_FILE_NAME).
  { apply survives_booted, Hs. by left. }
  destruct run as [d []]; [|done]. cbn in *. rewrite Hl.
  destruct locked; [done|]. destruct (read_state _) as [|[h b]]; [done|].
  intros [= <-]. cbn. split_and!; try done. intros f ->%Hs%survives_booted. done.
Qed.

Lemma open_reads r h b :
  read_state (r !! STATE_FILE_NAME) = inr (h, b) →
  ∃ s, open false None (booted r) = inr s ∧ cached s = h ∧ has_persisted s = b.
Proof.
  intros Hr. unfold open. cbn [live booted]. destruct (r !! LOCK_FILE_NAME).
  - cbn. rewrite Hr. eauto.
  - cbn. rewrite lookup_insert_ne by done. rewrite Hr. eauto.
Qed.

Section Laws.
Context {JL : StateJsonLaws J}.

Lemma atomic_write_spec fault h d hs :
  readable d hs →
  readable (atomic_write fault h d).1 ((h, true) :: hs) ∧
  ((atomic_write fault h d).2 = inr tt → read_state (live (atomic_write fault h d).1 !! STATE_FILE_NAME) = inr (h, true)).
Proof using JL.
  intros Hd. unfold atomic_write. destruct (to_string_pretty h) as [data|] eqn:Hj; cbn [fst snd].
  2:{ split; [|done]. intros f (p & ? & ?)%Hd. exists p. split; [done|by right]. }
  assert (Hrd : read_state (Some data) = inr (h, true)) by (cbn; by rewrite (from_str_to_string _ _ Hj)).
  destruct (write_and_rename_run fault data d) as [fault' Hrun].
  destruct (fs_run fault' (atomic_replace _ _ data) d) as [d1 ok1] eqn:Hfull.
  destruct (fs_run fault (write_and_rename data) d) as [d' ok] eqn:Hpre. cbn [fst] in Hrun. subst d1.
  destruct (atomic_replace_spec _ TMP_FILE_NAME STATE_FILE_NAME _ _ _ _ ltac:(discriminate) Hfull) as (H1 & _).
  split; cbn [fst snd].
  - intros f [->|(p & ? & ?)%Hd]%H1; [exists (h, true)|exists p]; (split; [done|]); [by left|by right].
  - destruct ok; [|done]. intros _. cbn [fst]. by rewrite (write_and_rename_ok _ _ _ _ Hpre).
Qed.

Lemma file_persist_dir fault h s : dir (file_persist fault h s).1 = (atomic_write fault h (dir s)).1.
Proof. unfold file_persist. by destruct (atomic_write _ _ _) as [d []]. Qed.

Lemma persists_readable calls s hs :
  readable (dir s) hs →
  readable (dir (persists calls s)) (rev (map (λ c, (c.2, true)) calls) ++ hs).
Proof using JL.
  revert s hs. induction calls as [|[fault h] calls IH]; intros s hs Hd; cbn; [done|].
  rewrite <-app_assoc. cbn. apply IH. rewrite file_persist_dir. by apply atomic_write_spec.
Qed.

(** A power loss at any moment of any history of calls, each with any fault,
    leaves a state file that opens, with the state of the start or one of
    those the calls wrote, whole. *)
Lemma legacy_state_never_torn r s calls r' :
  open false None (booted r) = inr s →
  crashed (dir (persists calls s)) r' →
  ∃ s', open false None (booted r') = inr s' ∧
    ((cached s', has_persisted s') = (cached s, has_persisted s) ∨
     has_persisted s' = true ∧ cached s' ∈ map snd calls).
Proof using JL.
  intros Ho Hcr. destruct (legacy_open_spec _ _ _ _ Ho) as (_ & Hr & Hf).
  destruct (persists_readable calls s [(cached s, has_persisted s)]) with (f := r' !! STATE_FILE_NAME)
    as ([h b] & Hp & Hin).
  { intros f ->%Hf. exists (cached s, has_persisted s). split; [done|by left]. }
  { apply Hcr. }
  destruct (open_reads r' h b Hp) as (s' & Hs' & <- & <-). exists s'. split; [done|].
  apply elem_of_app in Hin as [Hin|Hin%list_elem_of_singleton]; [right|by left].
  apply list_elem_of_In, in_rev, in_map_iff in Hin as ((fault & h) & [= -> ->] & Hin).
  split; [done|]. apply list_elem_of_In. by apply (in_map snd) in Hin.
Qed.

(** A process that dies after a successful [persist] finds the state again. *)
Lemma legacy_persist_restart fault h s s' :
  readable (dir s) [(cached s, has_persisted s)] →
  file_persist fault h s = (s', inr tt) →
  ∃ s'', open false None (booted (live (dir s'))) = inr s'' ∧ load (HardStateStore := file_store None) s'' = inr (Some h).
Proof using JL.
  intros Hd Hp. pose proof (atomic_write_spec fault h _ _ Hd) as [_ Hw].
  unfold file_persist in Hp. destruct (atomic_write fault h (dir s)) as [d [e|[]]]; apply pair_inv in Hp as [<- Hr]; [done|].
  destruct (open_reads (live d) h true (Hw eq_refl)) as (s'' & Ho & Hc & Hb).
  exists s''. split; [done|]. cbn. unfold file_load. by rewrite Hb, Hc.
Qed.
End Laws.
End File.

(** ** A vote lost with the directory entry *)

Section Example.
Import Concrete.
Definition state_tuple (h : HardState) := (term h, voted_for h, commit h).
#[local] Instance concrete_state_json : StateJson := {|
  to_string_pretty h := Some (pos_bytes (encode (state_tuple h)));
  from_str b := '(t, v, c) ← decode (bytes_pos b); Some (mkHardState t v c);
|}.
#[local] Instance concrete_state_json_laws : StateJsonLaws concrete_state_json.
Proof.
  split. intros h b [= <-]. cbn -[encode decode]. rewrite bytes_pos_bytes, decode_encode. by destruct h.
Qed.

Definition fresh_store : FileHardStateStore := mkFileStore (booted {[LOCK_FILE_NAME := []]}) default_state false.
Definition first_vote : HardState := mkHardState 1 (Some 2) 0.

(** [persist] returned [Ok] for the first vote; the rename was not synced, and
    after a power loss [load] says that nothing was ever persisted. *)
Lemma legacy_vote_lost :
  let s := (file_persist None first_vote fresh_store).1 in
  (file_persist None first_vote fresh_store).2 = inr tt ∧
  ∃ r s', crashed (dir s) r ∧ open false None (booted r) = inr s' ∧
    load (HardStateStore := file_store None) s' = inr None.
Proof.
  split; [vm_compute; reflexivity|].
  exists {[LOCK_FILE_NAME := []]}, fresh_store. split_and!; [|vm_compute; reflexivity|done].
  intros f. right. left. reflexivity.
Qed.
End Example.
End LegacyState.
